(* ===== verification/_CoqProject ===== *)
-Q . S2P
Prelude.v
BTree.v
EhFrameTable.v
Ffi.v
Errors.v
FrameAddress.v
Dwarf.v
DwarfSafety.v
Fuzz.v
DwarfCodec.v
Leb128.v
DwarfGrammar.v
Modules.v
Messages.v
ModuleSet.v
Ownership.v
Callbacks.v
EndToEnd.v
CacheRace.v
CacheLock.v
AddressSpace.v
Frames.v
X86_64.v
MachineTypes.v
Abi.v
Aarch64.v
HeapFrame.v
Iterator.v
FrameRecords.v
Session.v
CacheIndependence.v
Process.v
BuildScript.v
Snapshot.v
CppPrograms.v
Report.v
Benchmark.v
BenchmarkRun.v
InTreeTests.v
