(* ===== verification/Prelude.v ===== *)
(** * libunwinder: a verification development

    libunwinder ([src/src]) unwinds the stacks of another process with the C
    library libunwind: it reads the [.eh_frame] and [.eh_frame_hdr] sections of
    the loaded modules itself, caches the unwind information of each function,
    and lets libunwind evaluate it through callbacks.

    ** How the program is put together

    A caller builds a [Module] from an object file's sections ([module.rs]), adds
    it to an [Unwinder] ([x86_64.rs], [aarch64.rs]) whose registry is a
    [ModuleSet] ([module_set.rs]), and walks a stack with an [UnwindIterator]
    ([module.rs]) that calls [unwind_frame] per frame.  [unwind_frame] looks the
    frame's address up ([frame_address.rs]); without unwind information it follows
    the frame pointer, otherwise it creates an [UnwindCtx] ([unwind_ctx.rs]) and
    drives libunwind ([address_space.rs]), which calls back into [callbacks.rs]:
    [find_proc_info] searches the header table ([eh_frame_table.rs]), parses the
    FDE and its CIE ([dwarf.rs]) and caches the result; [access_mem] serves reads
    from the mirrored sections or the user's reader; [access_reg] serves the
    registers.  Errors are the types of [error.rs]; [ffi/] holds the C constants
    and structures.  [lib.rs] names the unwinder of the target architecture and
    the fuzzing entry point.  Around the library, [build.rs] builds and links the
    bundled libunwind, and [examples/cpp_unwind_bench.rs] is a complete client: it
    runs C++ programs that save their stack, and unwinds what they saved.

    ** Files

    - [Prelude]: outcomes of Rust computations ([Ok], [Err], [Panic], [UB],
      [NoFuel]), the state-and-result monad of [&mut self] methods with its two
      program logics ([total], [contract]), machine integers, slices,
      little-endian words, the [unw] hints and the tactics.
    - [BTree]: [std::collections::BTreeMap] with [u64] keys, refined to [gmap].
    - [EhFrameTable] ([eh_frame_table.rs]): header parser, binary search, and the
      linear scan it is proved equal to.
    - [Ffi], [Errors], [FrameAddress]: [ffi/consts.rs], [ffi/types.rs],
      [error.rs], [frame_address.rs].
    - [Dwarf] ([dwarf.rs]): the cursor, LEB128, encoded pointers, [parse_cie],
      [parse_fde], [build_dwarf_cie_info]; [DwarfSafety]: totality and bounds on
      arbitrary bytes; [DwarfCodec]: reference encoders and round trips; [Leb128]:
      the reference decoding of LEB128 on every input; [DwarfGrammar]: the entries
      the parsers accept, as a grammar, with recognisers ([Recog]) that make each
      reading function an equivalence; [Fuzz]: [__fuzz::parse_dwarf] of [lib.rs].
    - [Modules] ([module.rs]): section providers, [from_parts] and the strict
      constructors, memory-mapped files, the module invariant.
    - [Messages]: the [Display] text and the [source] of every error type
      ([error.rs], [eh_frame_table.rs], [module.rs]).
    - [ModuleSet] ([module_set.rs]): the registry, its invariant over all
      reachable registries, lookups, the redirect map; [Ownership]: the [Arc]s the
      registries and module handles of interleaving threads hold.
    - [Callbacks] ([callbacks.rs], [unwind_ctx.rs]): parsing and caching of a
      function's unwind information, the accessors, the context invariant.
    - [EndToEnd]: from emitted sections to the details given to libunwind.
    - [CacheRace]: the function cache under interleaved threads, with explicit
      [Arc] reference counts; [CacheLock]: the mutex around it, which makes the
      critical sections atomic, and progress of every thread under fair schedules.
    - [AddressSpace] ([address_space.rs]): libunwind as a parameter and
      [init_and_step] for every libunwind, with the calls it makes ([called]) and what
      they reported; [Frames]: what the two [unwind_frame]s share, and when one of
      their errors is [genuine].
    - [X86_64] ([x86_64.rs]), [Aarch64] ([aarch64.rs]): registers, pointer
      authentication masks, [unwind_frame], the frame-pointer fallback.
    - [MachineTypes]: the C field types of what [find_proc_info] hands out; [Abi]:
      the memory layout of the [repr(C)] structures and the constants of [ffi/],
      against the headers of the bundled libunwind.
    - [HeapFrame]: which function caches a step can touch, and how.
    - [Iterator] ([module.rs]): the [Unwinder] interface with its law, its two
      instances and their constructors, and [UnwindIterator::next].
    - [FrameRecords]: walks by frame pointer, proved once over the interface
      [FrameRecords] that both architectures implement.
    - [Session]: the native unwinder ([lib.rs]) as the interface [NativeUnwinder],
      and every sequence of API calls as a transition system; [CacheIndependence]:
      a relational Hoare logic ([sim]) for runs that differ in their caches, what is
      relied on of libunwind for signal frames ([LibunwindConsults]), and the
      interface [CacheBlind] between the unwinders and the iterator.
    - [Process]: the system a command-line program runs on, with the history of
      what the program did, and a program logic; [BuildScript] ([build.rs]).
    - [examples/cpp_unwind_bench.rs]: [Snapshot], the snapshot file and stack reader,
      loading a program, the unwinding loop; [CppPrograms], what the C++ programs in
      its text do; [Report], the [f64] timings and the printed table; [Benchmark], the
      driver; [BenchmarkRun], the driver with the programs it runs.
    - [InTreeTests]: the unit tests and the integration tests [tests/fallback.rs],
      [tests/smoke.rs] and [tests/api_compat.rs], run on the model.

    ** Correspondence

    A [u64] or [usize] is a [Z] with its wrap-around written out; [+] and [-] that
    can overflow go through [usize_add] and friends, which panic or wrap depending
    on the build [Profile], so theorems hold for debug and release builds.  A raw
    pointer is the allocation it points into and an offset, and a read outside it
    is [UB].  The function caches live in a [Heap] because clones of a module
    share them; a poisoned mutex is a flag of the cell.  A [&mut self] method
    returning [Result] is a function from the state to an outcome and the state,
    which survives errors.  The user's [FnMut] reader is a function on a closure
    state of any type.  A panic with a message of [build.rs] is an error value, a
    [Box<dyn Error>] of the example is its message or the error it was made from,
    and text is a string of ASCII characters.

    ** What the theorems show

    - Parsers: on arbitrary bytes they return without undefined behaviour, their
      results lie inside the section, and they decode everything the reference
      encoders emit (all versions, both DWARF formats, all pointer encodings);
      LEB128 integers are decoded exactly on every input, and the CIEs and FDEs
      accepted are exactly those of a grammar, with the fields it gives.
    - Lookup: the binary search equals a linear scan on sorted tables; the module
      lookup is exact on disjoint modules; the redirect map holds exactly the
      sections of the registered modules; fast-path reads stay in bounds.
    - Cache: transparent for parsing, correct under every interleaving of threads,
      refining the sequential function; the signal-frame flag it answers with is
      the flag of the function found; the lock around it excludes, does
      not deadlock and is not held across a parse, so all lookups finish.  A whole
      walk with warm caches is the walk with empty ones, and the iterator recognises
      signal frames as the unwind sections describe them.
    - Ownership: no interleaving of threads that share modules uses or leaks a
      freed module, so the raw section pointers never dangle.
    - Types: every field libunwind receives fits its C type, and libunwind finds it
      where it was written, the flags of a [DwarfCieInfo] excepted.
    - libunwind: whatever it asks, the callbacks keep the context invariant.  A step
      changes registers only with a new frame, whose words are those libunwind
      reported in that step, and advances; an error it reports is the status that the
      call named returned, or the lookup, read or section that failed.  A step panics
      only when an address space cannot be created or, with overflow checks, when the
      parser does, which it does exactly on headers longer than their entry.
    - Iteration: a faithful state machine over the [Unwinder] interface; by frame
      pointers it yields exactly the chain of frame records and always ends, on
      both architectures.
    - Composition: in every session of API calls, over any number of unwinders that
      share modules of any sections, on either architecture, registries and caches
      stay well-formed, every unwinding step is safe, and cached lookups equal fresh
      parses.  These theorems assume nothing about registries or caches.
    - Messages: the text of an error determines it, and a cause's text ends its
      error's.
    - Programs: the build script prints link directives only after a complete,
      successful build; the C++ programs of the benchmark save exactly one
      snapshot, whatever [std::sort] does; what is read back is the memory of the
      program; the unwinding loop is safe, bounded and counts the frames the
      library's iterator yields; and each row of the printed report is about the
      stack that a run of its program saved.
    - Tests: the model passes every test of the repository that [InTreeTests] lists.

    [libunwind_reads_cie_info] shows that the [flags] of a [DwarfCieInfo], the
    signal-frame flag among them, lie outside libunwind's structure.  Where a libunwind
    is a parameter, it is given the record with its flags and may ignore them; it does
    not get padding to look at.

    Theorems on concrete inputs record boundary behaviour that differs from the
    documentation: entry lengths shorter than the header ([parse_cie_overrun],
    [parse_fde_overrun]), dropped LEB128 bits ([uleb128_drops_high_bits]), the
    misreported FDE count ([fde_count_misreported]), reads at the top of the
    address space ([lookup_local_top_of_memory]), redirects of replaced modules
    ([stale_redirects]), a cache insertion freeing details in use
    ([concurrent_miss_dangles]), return addresses off by one
    ([return_address_off_by_one]) and malformed headers blocking the fallback
    ([malformed_header_blocks_fallback]).

    ** Bounds and fuel

    LEB128 loops run at most ten times (the shift is checked against 64), so their
    fuel is 10; the binary search halves an interval of fewer than [2^64] entries,
    so its fuel is 64; totality theorems show that neither fuel is exhausted.
    [drain] calls [next] a bounded number of times; [fuel_of] is enough because
    the frame pointer grows with every frame.  An integer is shown with at most 64
    digits, enough for 64 bits in every base.  The benchmark's loop has fuel 256,
    its own limit on frames; [unwind_stack_safe] shows it is never exhausted.

    ** Not modelled

    libunwind itself, the [object] and [memmap2] crates and the operating system
    are parameters; a libunwind call makes finitely many callbacks.  The
    durations measured by the example and the machine, compiler and [std::sort] of
    its programs are parameters too.  [Debug] formatting, the benchmark of
    [benches/], the fuzz target's glue and [tests/linux_fixtures.rs], which needs
    binary files and libunwind's DWARF
    interpreter, are left out, as are the [Send]/[Sync] markers (their
    consequence, concurrent use, is modelled in [CacheRace] and [Ownership]).
    The crate reads the signal-frame flag from the cache and never parses for it,
    so the theorems of [CacheIndependence] are for a libunwind that asks for a
    frame's unwind information before it reports a step, or for modules without
    signal frames.  The bundled libunwind creates address spaces with its own cache
    off, so it asks in every step, except on aarch64 for a signal trampoline that it
    recognises by its instructions: the theorems leave such frames out on aarch64,
    and [stub_frame_flag_depends_on_cache] shows that the flag of one depends on the
    cache. *)

From Stdlib Require Export ZArith Lia.
From stdpp Require Export base tactics numbers option strings list.

#[export] Set Default Goal Selector "!".
#[global] Open Scope Z_scope.

(** ** Outcomes of Rust computations

    [Ok]/[Err] are the two variants of [Result]; [Panic] is an unwinding
    panic (arithmetic overflow with overflow checks on, slice index out of
    range); [UB] is undefined behaviour (a raw read outside the allocation a
    pointer was derived from); [NoFuel] is what a fuel-bounded loop of the
    model returns when its fuel is too small, so that totality theorems can
    exclude it. *)
Inductive outcome (E A : Type) : Type :=
  | Ok (a : A)
  | Err (e : E)
  | Panic
  | UB
  | NoFuel.
Arguments Ok {E A} a.
Arguments Err {E A} e.
Arguments Panic {E A}.
Arguments UB {E A}.
Arguments NoFuel {E A}.

#[export] Instance outcome_eq_dec {E A} `{EqDecision E, EqDecision A} : EqDecision (outcome E A).
Proof. solve_decision. Defined.

#[export] Instance outcome_ret E : MRet (outcome E) := λ A a, Ok a.
#[export] Instance outcome_bind E : MBind (outcome E) := λ A B f m,
  match m with
  | Ok a => f a
  | Err e => Err e
  | Panic => Panic
  | UB => UB
  | NoFuel => NoFuel
  end.

(** [Result::map_err]. *)
Definition map_err {E F A} (f : E → F) (m : outcome E A) : outcome F A :=
  match m with
  | Ok a => Ok a
  | Err e => Err (f e)
  | Panic => Panic
  | UB => UB
  | NoFuel => NoFuel
  end.

(** [Option::ok_or]. *)
Definition ok_or {E A} (o : option A) (e : E) : outcome E A :=
  match o with Some a => Ok a | None => Err e end.

(** A computation that returned a [Result], as opposed to panicking,
    exhibiting undefined behaviour or running out of fuel. *)
Definition returns {E A} (m : outcome E A) : Prop :=
  match m with Ok _ | Err _ => True | _ => False end.

#[export] Instance returns_dec {E A} (m : outcome E A) : Decision (returns m).
Proof. destruct m; simpl; apply _. Defined.

(** ** State and result: [&mut self] methods returning [Result]

    The state survives an [Err], as it does in Rust. *)
Definition SM (S E A : Type) : Type := S → outcome E A * S.

#[export] Instance sm_ret S E : MRet (SM S E) := λ A a s, (Ok a, s).
#[export] Instance sm_bind S E : MBind (SM S E) := λ A B f m s,
  match m s with
  | (Ok a, s') => f a s'
  | (Err e, s') => (Err e, s')
  | (Panic, s') => (Panic, s')
  | (UB, s') => (UB, s')
  | (NoFuel, s') => (NoFuel, s')
  end.

(** [Err(e)] returned early. *)
Definition sm_err {S E A} (e : E) : SM S E A := λ s, (Err e, s).
(** A computation that does not touch the state. *)
Definition sm_lift {S E A} (m : outcome E A) : SM S E A := λ s, (m, s).
(** Reading the state. *)
Definition sm_get {S E} : SM S E S := λ s, (Ok s, s).
(** Updating the state. *)
Definition sm_modify {S E} (f : S → S) : SM S E () := λ s, (Ok (), f s).

(** ** Machine integers

    A [w]-bit unsigned integer is a [Z] in [0, 2^w); the wrap-around of each
    operation is written out.  The crate targets x86_64 and aarch64, so
    [usize] is 64 bits wide. *)
Definition u64_max : Z := 2 ^ 64 - 1.
Definition usize_max : Z := 2 ^ 64 - 1.
(** Largest length of a Rust slice in bytes ([isize::MAX]). *)
Definition isize_max : Z := 2 ^ 63 - 1.

Definition is_u (w z : Z) : Prop := 0 ≤ z < 2 ^ w.
Abbreviation is_u8 := (is_u 8).
Abbreviation is_u64 := (is_u 64).

#[export] Instance is_u_dec w z : Decision (is_u w z).
Proof. unfold is_u. apply _. Defined.

(** Truncation to [w] bits ([as uN]). *)
Definition wrap (w z : Z) : Z := z mod 2 ^ w.
(** Two's complement reading of a [w]-bit value ([as iN]). *)
Definition as_signed (w z : Z) : Z := if z <? 2 ^ (w - 1) then z else z - 2 ^ w.
(** [x as i64 as u64] of a signed value: sign extension to 64 bits. *)
Definition as_u64 (z : Z) : Z := wrap 64 z.

Definition wrapping_add (a b : Z) : Z := wrap 64 (a + b).
Definition wrapping_sub (a b : Z) : Z := wrap 64 (a - b).
Definition saturating_add (a b : Z) : Z := Z.min (a + b) u64_max.
Definition saturating_sub (a b : Z) : Z := Z.max (a - b) 0.
Definition saturating_mul (a b : Z) : Z := Z.min (a * b) u64_max.
Definition checked_add (a b : Z) : option Z :=
  if a + b <=? u64_max then Some (a + b) else None.
Definition checked_sub (a b : Z) : option Z :=
  if b <=? a then Some (a - b) else None.
(** [usize::try_from(x)] of a [u64]. *)
Definition usize_try_from (z : Z) : option Z :=
  if z <=? usize_max then Some z else None.

(** Build profile: with overflow checks (the debug profile) an overflowing
    [+] or [-] panics, without them (the release profile) it wraps. *)
Class Profile : Type := overflow_checks : bool.

Definition usize_add `{Profile} {E} (a b : Z) : outcome E Z :=
  if a + b <=? usize_max then Ok (a + b)
  else if overflow_checks then Panic else Ok (wrap 64 (a + b)).
Definition usize_sub `{Profile} {E} (a b : Z) : outcome E Z :=
  if b <=? a then Ok (a - b)
  else if overflow_checks then Panic else Ok (wrap 64 (a - b)).
Definition usize_mul `{Profile} {E} (a b : Z) : outcome E Z :=
  if a * b <=? usize_max then Ok (a * b)
  else if overflow_checks then Panic else Ok (wrap 64 (a * b)).

(** ** Byte slices *)
Definition len {A} (l : list A) : Z := Z.of_nat (length l).
Definition bytes_ok (l : list Z) : Prop := Forall is_u8 l ∧ len l ≤ isize_max.

#[export] Instance bytes_ok_dec l : Decision (bytes_ok l).
Proof. unfold bytes_ok. apply _. Defined.

(** [s.get(i)]. *)
Definition slice_get_at (s : list Z) (i : Z) : option Z :=
  if (0 <=? i) && (i <? len s) then s !! Z.to_nat i else None.
(** [s.get(a..b)]. *)
Definition slice_get (s : list Z) (a b : Z) : option (list Z) :=
  if (a <=? b) && (b <=? len s)
  then Some (take (Z.to_nat (b - a)) (drop (Z.to_nat a) s)) else None.
(** [s[i]]. *)
Definition slice_index {E} (s : list Z) (i : Z) : outcome E Z :=
  match slice_get_at s i with Some b => Ok b | None => Panic end.
(** [&s[a..]]. *)
Definition slice_from {E} (s : list Z) (a : Z) : outcome E (list Z) :=
  if a <=? len s then Ok (drop (Z.to_nat a) s) else Panic.
(** [&s[a..b]]. *)
Definition slice_range {E} (s : list Z) (a b : Z) : outcome E (list Z) :=
  match slice_get s a b with Some l => Ok l | None => Panic end.

(** [uN::from_le_bytes]. *)
Fixpoint le_decode (bs : list Z) : Z :=
  match bs with
  | [] => 0
  | b :: bs' => b + 256 * le_decode bs'
  end.
(** [uN::to_le_bytes] for an [n]-byte integer. *)
Fixpoint le_encode (n : nat) (z : Z) : list Z :=
  match n with
  | O => []
  | S n' => z mod 256 :: le_encode n' (z / 256)
  end.

(** ** Automation *)
Create HintDb unw discriminated.

(** Case analysis on every boolean comparison and [match] of the context or
    the goal, with the comparisons turned into propositions. *)
Ltac zify_bools :=
  repeat match goal with
  | H : andb _ _ = true |- _ => apply andb_prop in H; destruct H
  | H : andb _ _ = false |- _ => apply andb_false_iff in H
  | H : orb _ _ = true |- _ => apply orb_true_iff in H
  | H : orb _ _ = false |- _ => apply orb_false_iff in H; destruct H
  | H : negb _ = true |- _ => apply negb_true_iff in H
  | H : negb _ = false |- _ => apply negb_false_iff in H
  | H : (_ <=? _) = true |- _ => apply Z.leb_le in H
  | H : (_ <=? _) = false |- _ => apply Z.leb_gt in H
  | H : (_ <? _) = true |- _ => apply Z.ltb_lt in H
  | H : (_ <? _) = false |- _ => apply Z.ltb_ge in H
  | H : (_ =? _) = true |- _ => apply Z.eqb_eq in H
  | H : (_ =? _) = false |- _ => apply Z.eqb_neq in H
  end.

(** Closes a decidable goal by evaluating its decision procedure. *)
Ltac by_compute := apply (bool_decide_unpack _); vm_compute; exact I.

Ltac inv_some :=
  repeat match goal with
  | H : Some _ = Some _ |- _ => injection H as H; try subst
  | H : Ok _ = Ok _ |- _ => injection H as H; try subst
  | H : Err _ = Err _ |- _ => injection H as H; try subst
  end.

(** Reduces the binds of a computation whose first step is a value. *)
Ltac run := cbn [mbind mret outcome_bind outcome_ret sm_bind sm_ret].
Tactic Notation "run" "in" hyp(H) :=
  cbn [mbind mret outcome_bind outcome_ret sm_bind sm_ret] in H.

(** The same through [ok_or] and [map_err]. *)
Ltac orun := cbn [mbind mret outcome_bind outcome_ret sm_bind sm_ret ok_or map_err].

(** Runs a computation of the model symbolically: splits on the next
    [match]/[if] of hypothesis [H] and discards the impossible branches. *)
Ltac step_in H :=
  match type of H with
  | context [match ?x with _ => _ end] =>
      destruct x eqn:?; try discriminate H; simpl in H
  end.
Ltac steps_in H := simpl in H; repeat (step_in H; inv_some; try discriminate).

(** ** Lemmas on outcomes *)
Lemma outcome_bind_ok {E A B} (m : outcome E A) (f : A → outcome E B) b :
  m ≫= f = Ok b ↔ ∃ a, m = Ok a ∧ f a = Ok b.
Proof. destruct m; naive_solver. Qed.

Lemma returns_bind {E A B} (m : outcome E A) (f : A → outcome E B) :
  returns m → (∀ a, m = Ok a → returns (f a)) → returns (m ≫= f).
Proof. destruct m; naive_solver. Qed.

Lemma ok_or_ok {E A} (o : option A) (e : E) a : ok_or o e = Ok a ↔ o = Some a.
Proof. destruct o; naive_solver. Qed.

Lemma ok_or_returns {E A} (o : option A) (e : E) : returns (ok_or o e).
Proof. by destruct o. Qed.

Lemma map_err_ok {E F A} (f : E → F) (m : outcome E A) a :
  map_err f m = Ok a ↔ m = Ok a.
Proof. destruct m; naive_solver. Qed.

Lemma map_err_returns {E F A} (f : E → F) (m : outcome E A) :
  returns (map_err f m) ↔ returns m.
Proof. by destruct m. Qed.

(** ** A program logic for [SM]

    [total pan P m Q]: from a state satisfying [P], [m] returns a [Result], and
    an [Ok a] satisfies the postcondition [Q a]; a panic is allowed only when
    [pan] holds (so [total False] excludes panics altogether). *)
Section total.
Context {S E : Type}.

Definition total (pan : Prop) {A} (P : S → Prop) (m : SM S E A) (Q : A → S → Prop) : Prop :=
  ∀ s, P s → match m s with
             | (Ok a, s') => Q a s'
             | (Err _, _) => True
             | (Panic, _) => pan
             | (UB, _) | (NoFuel, _) => False
             end.

Context {pan : Prop}.

Lemma total_ret {A} (a : A) (P : S → Prop) (Q : A → S → Prop) :
  (∀ s, P s → Q a s) → total pan P (mret a) Q.
Proof. intros H s Hs. by apply H. Qed.

Lemma total_err {A} e (P : S → Prop) (Q : A → S → Prop) : total pan P (sm_err e) Q.
Proof. by intros s Hs. Qed.

Lemma total_get {A} (P : S → Prop) (f : S → SM S E A) (Q : A → S → Prop) :
  (∀ s0, P s0 → total pan (λ s, s = s0) (f s0) Q) → total pan P (sm_get ≫= f) Q.
Proof. intros Hf s Hs. by apply (Hf s Hs s). Qed.

Lemma total_modify f (P : S → Prop) (Q : () → S → Prop) :
  (∀ s, P s → Q () (f s)) → total pan P (sm_modify f) Q.
Proof. intros H s Hs. by apply H. Qed.

Lemma total_lift_ok {A B} (m : outcome E A) a (f : A → SM S E B) P Q :
  m = Ok a → total pan P (f a) Q → total pan P (sm_lift m ≫= f) Q.
Proof. intros -> Hf s Hs. by apply Hf. Qed.

Lemma total_lift_opt {A B} (o : option A) e (f : A → SM S E B) P Q :
  (∀ a, o = Some a → total pan P (f a) Q) → total pan P (sm_lift (ok_or o e) ≫= f) Q.
Proof. intros Hf s Hs. destruct o as [a|]; [by apply (Hf a)|done]. Qed.

Lemma total_bind {A B} (m : SM S E A) (f : A → SM S E B) P Q R :
  total pan P m Q → (∀ a, total pan (Q a) (f a) R) → total pan P (m ≫= f) R.
Proof.
  intros Hm Hf s Hs. specialize (Hm s Hs). unfold mbind, sm_bind.
  destruct (m s) as [[]]; try done. by apply Hf.
Qed.

Lemma total_conseq {A} (m : SM S E A) (P P' : S → Prop) (Q Q' : A → S → Prop) :
  total pan P m Q → (∀ s, P' s → P s) → (∀ a s, Q a s → Q' a s) → total pan P' m Q'.
Proof.
  intros Hm HP HQ s Hs. specialize (Hm s (HP _ Hs)).
  destruct (m s) as [[]]; try done. by apply HQ.
Qed.

Lemma total_pre {A} (m : SM S E A) (P P' : S → Prop) (Q : A → S → Prop) :
  total pan P m Q → (∀ s, P' s → P s) → total pan P' m Q.
Proof. intros. by eapply total_conseq. Qed.

(** A pure fact of the precondition can be used throughout. *)
Lemma total_pure {A} (φ : Prop) (m : SM S E A) (P : S → Prop) (Q : A → S → Prop) :
  (φ → total pan P m Q) → total pan (λ s, φ ∧ P s) m Q.
Proof. intros Hm s [Hφ Hs]. by apply Hm. Qed.

Lemma sm_bind_ok {A B} (m : SM S E A) (f : A → SM S E B) s b s' :
  (m ≫= f) s = (Ok b, s') ↔ ∃ a s1, m s = (Ok a, s1) ∧ f a s1 = (Ok b, s').
Proof.
  unfold mbind, sm_bind. destruct (m s) as [[]]; naive_solver.
Qed.

Lemma sm_bind_assoc {A B C} (m : SM S E A) (f : A → SM S E B) (g : B → SM S E C) s :
  ((m ≫= f) ≫= g) s = (m ≫= λ a, f a ≫= g) s.
Proof. unfold mbind, sm_bind. by destruct (m s) as [[]]. Qed.

Lemma sm_bind_ext {A B} (m : SM S E A) (f g : A → SM S E B) s :
  (∀ a s', f a s' = g a s') → (m ≫= f) s = (m ≫= g) s.
Proof. intros Hfg. unfold mbind, sm_bind. by destruct (m s) as [[]]. Qed.

Lemma total_ext {A} (m m' : SM S E A) (P : S → Prop) (Q : A → S → Prop) :
  (∀ s, m s = m' s) → total pan P m Q → total pan P m' Q.
Proof. intros Hm Ht s Hs. rewrite <- Hm. by apply Ht. Qed.

Lemma sm_bind_run {A B} (m : SM S E A) (f : A → SM S E B) s a s1 :
  m s = (Ok a, s1) → (m ≫= f) s = f a s1.
Proof. intros H. unfold mbind, sm_bind. by rewrite H. Qed.

Lemma sm_bind_err {A B} (m : SM S E A) (f : A → SM S E B) s e s' :
  (m ≫= f) s = (Err e, s') →
  m s = (Err e, s') ∨ ∃ a s1, m s = (Ok a, s1) ∧ f a s1 = (Err e, s').
Proof.
  unfold mbind, sm_bind. destruct (m s) as [[a| | | |] s1] eqn:Hm; intros [=]; simplify_eq; eauto.
Qed.
End total.

(** ** A relation between the states before and after *)
Section moves.
Context {S E : Type} (R : relation S) `{!PreOrder R}.

(** [moves m]: every run of [m], whatever its outcome, goes from a state to a
    related one. *)
Definition moves {A} (m : SM S E A) : Prop := ∀ s, R s (m s).2.

Lemma moves_ret {A} (a : A) : moves (mret a).
Proof. by intros s. Qed.

Lemma moves_err {A} e : moves (A:=A) (sm_err e).
Proof. by intros s. Qed.

Lemma moves_lift {A} (o : outcome E A) : moves (sm_lift o).
Proof. intros s. unfold sm_lift. by destruct o. Qed.

Lemma moves_get : moves sm_get.
Proof. by intros s. Qed.

Lemma moves_modify f : (∀ s, R s (f s)) → moves (sm_modify f).
Proof. intros Hf s. apply Hf. Qed.

Lemma moves_bind {A B} (m : SM S E A) (f : A → SM S E B) :
  moves m → (∀ a, moves (f a)) → moves (m ≫= f).
Proof.
  intros Hm Hf s. specialize (Hm s). unfold mbind, sm_bind.
  destruct (m s) as [[a| | | |] s']; try done. etrans; [exact Hm|apply Hf].
Qed.
End moves.

(** ** Contracts: an invariant kept on success and on error

    [contract pan I m Q R]: from a state satisfying the invariant [I], [m]
    returns in a state satisfying [I], with [Q] of a success and [R] of an
    error; a panic is allowed only when [pan] holds. *)
Section contract.
Context {S E : Type} (pan : Prop) (I : S → Prop).

Definition contract {A} (m : SM S E A) (Q : A → Prop) (R : E → Prop) : Prop :=
  ∀ s, I s → match m s with
             | (Ok a, s') => I s' ∧ Q a
             | (Err e, s') => I s' ∧ R e
             | (Panic, _) => pan
             | (UB, _) | (NoFuel, _) => False
             end.

Lemma contract_ret {A} (a : A) (Q : A → Prop) R : Q a → contract (mret a) Q R.
Proof. by intros HQ s Hs. Qed.

Lemma contract_bind {A B} (m : SM S E A) (f : A → SM S E B) Q Q' R :
  contract m Q R → (∀ a, Q a → contract (f a) Q' R) → contract (m ≫= f) Q' R.
Proof.
  intros Hm Hf s Hs. specialize (Hm s Hs). unfold mbind, sm_bind.
  destruct (m s) as [[a| | | |] s']; try done. destruct Hm as [? HQ]. by apply Hf.
Qed.

Lemma contract_conseq {A} (m : SM S E A) (Q Q' : A → Prop) (R : E → Prop) :
  contract m Q R → (∀ a, Q a → Q' a) → contract m Q' R.
Proof.
  intros Hm HQ s Hs. specialize (Hm s Hs). destruct (m s) as [[a| | | |] s']; try done.
  destruct Hm. eauto.
Qed.
End contract.

(** ** Lemmas on machine integers *)
Lemma u64_max_eq : u64_max = 18446744073709551615.
Proof. reflexivity. Qed.

Lemma wrap_bounds w z : 0 ≤ w → is_u w (wrap w z).
Proof. intros. unfold is_u, wrap. apply Z.mod_pos_bound. lia. Qed.

Lemma wrapping_add_u64 a b : is_u64 (wrapping_add a b).
Proof. by apply wrap_bounds. Qed.

Lemma wrap_small w z : is_u w z → wrap w z = z.
Proof. intros. by apply Z.mod_small. Qed.

Lemma wrap_signed w z :
  0 < w → is_u w z → wrap w (as_signed w z) = z.
Proof.
  intros Hw Hz. unfold as_signed, wrap. case_match; zify_bools.
  - by apply Z.mod_small.
  - rewrite <- (Z.mod_add _ 1) by lia. rewrite Z.mod_small; [lia | unfold is_u in *; lia].
Qed.

(** Two's complement: reading back the low [w] bits of a value that fits. *)
Lemma signed_wrap w z :
  0 < w → - 2 ^ (w - 1) ≤ z < 2 ^ (w - 1) → as_signed w (wrap w z) = z.
Proof.
  intros Hw Hz. assert (2 ^ w = 2 * 2 ^ (w - 1)) as Hp.
  { rewrite <- Z.pow_succ_r by lia. f_equal. lia. }
  unfold as_signed, wrap. destruct (decide (0 ≤ z)).
  - rewrite Z.mod_small by lia. case_match; zify_bools; lia.
  - replace (z mod 2 ^ w) with (z + 2 ^ w).
    + case_match; zify_bools; lia.
    + rewrite <- (Z.mod_add z 1) by lia. rewrite Z.mod_small; lia.
Qed.

(** Adding a wrapped displacement: the base plus the displacement, exactly,
    when the sum fits. *)
Lemma wrapping_add_displacement a b :
  is_u64 (a + b) → wrapping_add (as_u64 a) b = a + b.
Proof.
  intros H. unfold wrapping_add, as_u64, wrap. rewrite Zplus_mod_idemp_l.
  by apply Z.mod_small.
Qed.

Lemma checked_add_some a b c :
  checked_add a b = Some c ↔ c = a + b ∧ a + b ≤ u64_max.
Proof. unfold checked_add. case_match; zify_bools; naive_solver lia. Qed.

Lemma checked_sub_some a b c : checked_sub a b = Some c ↔ c = a - b ∧ b ≤ a.
Proof. unfold checked_sub. case_match; zify_bools; naive_solver lia. Qed.

Lemma usize_try_from_u64 z : is_u64 z → usize_try_from z = Some z.
Proof.
  intros [_ H]. unfold usize_try_from. destruct (Z.leb_spec z usize_max); [done|].
  unfold usize_max in *. lia.
Qed.

(** ** Lemmas on byte slices *)
Lemma len_nonneg {A} (l : list A) : 0 ≤ len l.
Proof. unfold len. lia. Qed.
#[export] Hint Resolve len_nonneg : unw.

Lemma len_app {A} (l k : list A) : len (l ++ k) = len l + len k.
Proof. unfold len. rewrite length_app. lia. Qed.

Lemma len_cons {A} (a : A) l : len (a :: l) = 1 + len l.
Proof. unfold len. simpl. lia. Qed.

Lemma len_nil {A} : len (@nil A) = 0.
Proof. done. Qed.

Lemma to_nat_len {A} (l : list A) : Z.to_nat (len l) = length l.
Proof. unfold len. lia. Qed.

Lemma slice_get_len s a b l :
  0 ≤ a → slice_get s a b = Some l → a ≤ b ≤ len s ∧ len l = b - a.
Proof.
  unfold slice_get. case_match; zify_bools; intros; inv_some; [|done].
  split; [lia|]. unfold len in *. rewrite length_take, length_drop. lia.
Qed.

Lemma slice_get_some s a b :
  a ≤ b ≤ len s → ∃ l, slice_get s a b = Some l.
Proof. intros. unfold slice_get. case_match; zify_bools; naive_solver lia. Qed.

Lemma slice_get_none s a b : a ≤ b → len s < b → slice_get s a b = None.
Proof. intros. unfold slice_get. case_match; zify_bools; [lia|done]. Qed.

Lemma slice_get_forall (P : Z → Prop) s a b l :
  Forall P s → slice_get s a b = Some l → Forall P l.
Proof. intros Hs. unfold slice_get. case_match; intros; inv_some; [|done].
  by apply Forall_take, Forall_drop. Qed.

Lemma bytes_ok_slice s a b r : bytes_ok s → slice_get s a b = Some r → bytes_ok r.
Proof.
  intros [Hf Hl] Hs. split; [by eapply slice_get_forall|].
  revert Hs. unfold slice_get. destruct (_ && _) eqn:Hb; [|done]. intros [= <-]. zify_bools.
  unfold len in *. rewrite length_take, length_drop. lia.
Qed.

(** A window of a concatenation. *)
Lemma slice_get_app pre l post a b :
  a = len pre → b = len pre + len l → slice_get (pre ++ l ++ post) a b = Some l.
Proof.
  intros -> ->. pose proof (len_nonneg pre). pose proof (len_nonneg l).
  pose proof (len_nonneg post). unfold slice_get. rewrite !len_app.
  case_match; zify_bools; [|lia].
  f_equal. rewrite to_nat_len. rewrite drop_app_length.
  replace (len pre + len l - len pre) with (len l) by lia.
  rewrite to_nat_len. by rewrite take_app_length.
Qed.

Lemma slice_get_at_app pre x post a :
  a = len pre → slice_get_at (pre ++ x :: post) a = Some x.
Proof.
  intros ->. pose proof (len_nonneg pre). pose proof (len_nonneg post).
  unfold slice_get_at. rewrite len_app, len_cons. case_match; zify_bools; [|lia].
  rewrite to_nat_len. rewrite lookup_app_r by lia. by rewrite Nat.sub_diag.
Qed.

Lemma slice_get_at_lookup s i : 0 ≤ i < len s → slice_get_at s i = s !! Z.to_nat i.
Proof. intros. unfold slice_get_at. case_match; zify_bools; [done|lia]. Qed.

Lemma slice_get_at_some s i : 0 ≤ i < len s → ∃ b, slice_get_at s i = Some b.
Proof.
  intros. unfold slice_get_at. case_match; zify_bools; [|lia].
  apply lookup_lt_is_Some_2. unfold len in *. lia.
Qed.

Lemma slice_get_at_forall (P : Z → Prop) s i b :
  Forall P s → slice_get_at s i = Some b → 0 ≤ i < len s ∧ P b.
Proof.
  intros Hs. unfold slice_get_at. case_match; zify_bools; intros; [|done].
  split; [lia|]. eapply Forall_lookup_1; eauto.
Qed.

(** ** Little-endian integers *)
Lemma le_decode_bounds bs :
  Forall is_u8 bs → 0 ≤ le_decode bs < 2 ^ (8 * len bs).
Proof.
  induction 1 as [|b bs Hb Hbs IH]; simpl; [done|].
  rewrite len_cons. replace (8 * (1 + len bs)) with (8 + 8 * len bs) by lia.
  pose proof (len_nonneg bs). rewrite Z.pow_add_r by lia.
  unfold is_u in Hb. change (2 ^ 8) with 256 in *. lia.
Qed.

Lemma le_encode_length n z : length (le_encode n z) = n.
Proof. revert z. induction n; intros; simpl; auto. Qed.

Lemma le_encode_len n z : len (le_encode n z) = Z.of_nat n.
Proof. unfold len. by rewrite le_encode_length. Qed.

Lemma le_encode_bytes n z : Forall is_u8 (le_encode n z).
Proof.
  revert z. induction n; intros; simpl; constructor; auto.
  unfold is_u. change (2 ^ 8) with 256. apply Z.mod_pos_bound. lia.
Qed.

Lemma le_decode_encode n z : le_decode (le_encode n z) = z mod 2 ^ (8 * Z.of_nat n).
Proof.
  revert z. induction n as [|n IH]; intros z.
  - simpl. by rewrite Z.mod_1_r.
  - cbn [le_encode le_decode]. rewrite IH.
    replace (8 * Z.of_nat (S n)) with (8 + 8 * Z.of_nat n) by lia.
    rewrite Z.pow_add_r by lia. change (2 ^ 8) with 256.
    rewrite Z.rem_mul_r by lia. lia.
Qed.

Lemma le_encode_decode bs :
  Forall is_u8 bs → le_encode (length bs) (le_decode bs) = bs.
Proof.
  induction 1 as [|b bs Hb Hbs IH]; [done|]. unfold is_u in Hb.
  change (2 ^ 8) with 256 in Hb. cbn [length le_encode le_decode]. f_equal.
  - rewrite (Z.mul_comm 256), Z.mod_add by lia. apply Z.mod_small. lia.
  - rewrite (Z.mul_comm 256), Z.div_add by lia. rewrite Z.div_small by lia.
    by rewrite Z.add_0_l.
Qed.
#[export] Hint Resolve le_encode_bytes : unw.

(** ** Arithmetic that cannot overflow, under either build profile *)
Section profile.
Context `{Profile}.

Lemma usize_add_ok {E} a b : a + b ≤ usize_max → usize_add (E:=E) a b = Ok (a + b).
Proof. intros. unfold usize_add. case_match; zify_bools; [done|lia]. Qed.

Lemma usize_sub_ok {E} a b : b ≤ a → usize_sub (E:=E) a b = Ok (a - b).
Proof. intros. unfold usize_sub. case_match; zify_bools; [done|lia]. Qed.

Lemma usize_mul_ok {E} a b : a * b ≤ usize_max → usize_mul (E:=E) a b = Ok (a * b).
Proof. intros. unfold usize_mul. case_match; zify_bools; [done|lia]. Qed.

Lemma slice_index_ok {E} s i : 0 ≤ i < len s → ∃ b, slice_index (E:=E) s i = Ok b.
Proof. intros [b Hb]%slice_get_at_some. exists b. unfold slice_index. by rewrite Hb. Qed.

Lemma saturating_fits a b n :
  n < u64_max → saturating_add a b ≤ n → a + b ≤ n.
Proof. unfold saturating_add. lia. Qed.

Lemma saturating_mul_fits a b c n :
  n < u64_max → saturating_add c (saturating_mul a b) ≤ n → 0 ≤ c → c + a * b ≤ n.
Proof. unfold saturating_add, saturating_mul. lia. Qed.
End profile.
