(* ===== verification/BTree.v ===== *)
(** * [std::collections::BTreeMap<u64, V>]

    The ordered map the crate keys by tracee address ([ModuleSet::modules],
    [ModuleSet::redirects], [ModuleData::function_cache]): an association list
    with strictly increasing keys.  Only the operations the crate uses are
    modelled: [insert], [get], [remove], [values] and
    [range(..=k).next_back()], the entry with the largest key at most [k].
    The lookup-level lemmas are stated against stdpp's [gmap], the abstract
    finite map. *)

From stdpp Require Import gmap.
From S2P Require Import Prelude.

Section btree.
Context {V : Type}.
Implicit Types (m : list (Z * V)) (k : Z) (v : V).

Fixpoint bt_get k m : option V :=
  match m with
  | [] => None
  | (k', v') :: m' => if k' =? k then Some v' else bt_get k m'
  end.

Fixpoint bt_insert k v m : list (Z * V) :=
  match m with
  | [] => [(k, v)]
  | (k', v') :: m' =>
      if k <? k' then (k, v) :: m
      else if k =? k' then (k, v) :: m'
      else (k', v') :: bt_insert k v m'
  end.

Fixpoint bt_remove k m : list (Z * V) :=
  match m with
  | [] => []
  | (k', v') :: m' => if k' =? k then m' else (k', v') :: bt_remove k m'
  end.

(** [m.range(..=k).next_back()]. *)
Fixpoint bt_floor k m : option (Z * V) :=
  match m with
  | [] => None
  | (k', v') :: m' =>
      if k' <=? k then
        match bt_floor k m' with
        | Some e => Some e
        | None => Some (k', v')
        end
      else None
  end.

Definition bt_values m : list V := m.*2.

(** Representation invariant: strictly increasing keys. *)
Fixpoint bt_lb (k : Z) m : Prop :=
  match m with
  | [] => True
  | (k', _) :: m' => k < k' ∧ bt_lb k' m'
  end.

Definition bt_wf m : Prop :=
  match m with [] => True | (k, _) :: m' => bt_lb k m' end.

Lemma bt_lb_wf k m : bt_lb k m → bt_wf m.
Proof. destruct m as [|[]]; naive_solver. Qed.

Lemma bt_lb_weaken k k' m : k' ≤ k → bt_lb k m → bt_lb k' m.
Proof. destruct m as [|[]]; simpl; naive_solver lia. Qed.

Lemma bt_get_lb k k' m : bt_lb k m → k' ≤ k → bt_get k' m = None.
Proof.
  revert k. induction m as [|[k0 v0] m IH]; intros k; simpl; [done|].
  intros [? ?] ?. destruct (Z.eqb_spec k0 k'); [lia|]. apply (IH k0); [done|lia].
Qed.

Lemma bt_insert_lb k k' v m : bt_lb k m → k < k' → bt_lb k (bt_insert k' v m).
Proof.
  revert k. induction m as [|[k0 v0] m IH]; intros k; simpl; [naive_solver|].
  intros [? ?] ?. destruct (Z.ltb_spec k' k0); simpl; [naive_solver|].
  destruct (Z.eqb_spec k' k0); simpl; [naive_solver|].
  split; [done|]. apply IH; [done|lia].
Qed.

Lemma bt_insert_wf k v m : bt_wf m → bt_wf (bt_insert k v m).
Proof.
  destruct m as [|[k0 v0] m]; simpl; [done|]. intros H.
  destruct (Z.ltb_spec k k0); simpl; [naive_solver|].
  destruct (Z.eqb_spec k k0); simpl; [naive_solver|].
  apply bt_insert_lb; [done|lia].
Qed.

Lemma bt_remove_lb k k' m : bt_lb k m → bt_lb k (bt_remove k' m).
Proof.
  revert k. induction m as [|[k0 v0] m IH]; intros k; simpl; [done|].
  intros [? ?]. destruct (Z.eqb_spec k0 k'); simpl; [|naive_solver].
  eapply bt_lb_weaken; [|done]. lia.
Qed.

Lemma bt_remove_wf k m : bt_wf m → bt_wf (bt_remove k m).
Proof.
  destruct m as [|[k0 v0] m]; simpl; [done|]. intros H.
  destruct (Z.eqb_spec k0 k); simpl; [by eapply bt_lb_wf|by apply bt_remove_lb].
Qed.

Lemma bt_get_insert_eq k v m : bt_get k (bt_insert k v m) = Some v.
Proof.
  induction m as [|[k0 v0] m IH]; simpl; [by rewrite Z.eqb_refl|].
  destruct (Z.ltb_spec k k0); simpl; [by rewrite Z.eqb_refl|].
  destruct (Z.eqb_spec k k0); simpl; [by rewrite Z.eqb_refl|].
  destruct (Z.eqb_spec k0 k); [lia|done].
Qed.

Lemma bt_get_insert_ne k k' v m :
  k ≠ k' → bt_get k' (bt_insert k v m) = bt_get k' m.
Proof.
  intros Hne. induction m as [|[k0 v0] m IH]; simpl.
  { by destruct (Z.eqb_spec k k'). }
  destruct (Z.ltb_spec k k0); simpl; [by destruct (Z.eqb_spec k k')|].
  destruct (Z.eqb_spec k k0); simpl.
  - subst. by destruct (Z.eqb_spec k0 k').
  - by rewrite IH.
Qed.

Lemma bt_get_remove_eq k m : bt_wf m → bt_get k (bt_remove k m) = None.
Proof.
  assert (∀ m k0, bt_lb k0 m → bt_get k (bt_remove k m) = None) as Haux.
  { clear m. induction m as [|[k1 v1] m IH]; intros k0; simpl; [done|].
    intros [? ?]. destruct (Z.eqb_spec k1 k).
    - subst. eapply bt_get_lb; [done|lia].
    - simpl. destruct (Z.eqb_spec k1 k); naive_solver. }
  destruct m as [|[k0 v0] m]; simpl; [done|]. intros H.
  apply (Haux ((k0, v0) :: m) (k0 - 1)). simpl. split; [lia|done].
Qed.

Lemma bt_get_remove_ne k k' m :
  k ≠ k' → bt_get k' (bt_remove k m) = bt_get k' m.
Proof.
  intros Hne. induction m as [|[k0 v0] m IH]; simpl; [done|].
  destruct (Z.eqb_spec k0 k); simpl.
  - subst. by destruct (Z.eqb_spec k k').
  - by rewrite IH.
Qed.

Lemma bt_get_elem k v m : bt_wf m → bt_get k m = Some v ↔ (k, v) ∈ m.
Proof.
  assert (∀ m k0, bt_lb k0 m → bt_get k m = Some v ↔ (k, v) ∈ m) as Haux.
  { clear m. induction m as [|[k1 v1] m IH]; intros k0; simpl; [set_solver|].
    intros [? Hlb]. rewrite elem_of_cons. specialize (IH _ Hlb).
    destruct (Z.eqb_spec k1 k) as [->|].
    - split; [naive_solver|]. intros [|Hin]; [naive_solver|].
      apply IH in Hin. rewrite (bt_get_lb k k m Hlb) in Hin; [done|lia].
    - rewrite IH. naive_solver. }
  destruct m as [|[k0 v0] m]; simpl; [set_solver|]. intros H.
  apply (Haux ((k0, v0) :: m) (k0 - 1)). simpl. split; [lia|done].
Qed.

Lemma bt_wf_lb m : bt_wf m → ∃ k0, bt_lb k0 m.
Proof.
  destruct m as [|[k1 v1] m]; [by exists 0|]. intros H. exists (k1 - 1).
  split; [lia|done].
Qed.

Lemma bt_floor_none_lb k0 k k' v' m :
  bt_lb k0 m → bt_floor k m = None → bt_get k' m = Some v' → k < k'.
Proof.
  destruct m as [|[k1 v1] m]; [done|]. simpl. intros [_ Hlb] Hf Hg.
  destruct (Z.leb_spec k1 k); [by destruct (bt_floor k m)|].
  destruct (Z.eqb_spec k1 k'); [lia|]. destruct (decide (k < k')); [done|].
  rewrite (bt_get_lb k1 k' m) in Hg; [done|done|lia].
Qed.

Lemma bt_floor_some_lb k0 k m k' v :
  bt_lb k0 m → bt_floor k m = Some (k', v) →
  bt_get k' m = Some v ∧ k' ≤ k ∧ k0 < k' ∧
  ∀ k'' v'', bt_get k'' m = Some v'' → k'' ≤ k → k'' ≤ k'.
Proof.
  revert k0 k' v. induction m as [|[k1 v1] m IH]; intros k0 k' v; simpl; [done|].
  intros [? Hlb]. destruct (Z.leb_spec k1 k); [|done].
  destruct (bt_floor k m) as [[k2 v2]|] eqn:Hf; intros; simplify_eq.
  - destruct (IH _ _ _ Hlb eq_refl) as (?&?&?&Hmax).
    destruct (Z.eqb_spec k1 k'); [lia|]. split_and!; [done|lia|lia|].
    intros k'' v''. destruct (Z.eqb_spec k1 k''); [lia|]. eauto.
  - rewrite Z.eqb_refl. split_and!; [done|lia|lia|]. intros k'' v''.
    destruct (Z.eqb_spec k' k''); [lia|]. intros Hg Hle.
    pose proof (bt_floor_none_lb _ _ _ _ _ Hlb Hf Hg). lia.
Qed.

(** The floor entry is an entry of the map with key at most [k], and every
    key at most [k] is at most its key. *)
Lemma bt_floor_some k k' v m :
  bt_wf m →
  bt_floor k m = Some (k', v) ↔
  bt_get k' m = Some v ∧ k' ≤ k ∧ ∀ k'' v'', bt_get k'' m = Some v'' → k'' ≤ k → k'' ≤ k'.
Proof.
  intros [k0 Hlb]%bt_wf_lb. split.
  - intros Hf. by destruct (bt_floor_some_lb _ _ _ _ _ Hlb Hf) as (?&?&?&?).
  - intros (Hg&Hle&Hmax). destruct (bt_floor k m) as [[k2 v2]|] eqn:Hf.
    + destruct (bt_floor_some_lb _ _ _ _ _ Hlb Hf) as (Hg2&?&?&Hmax2).
      assert (k2 = k') as -> by (apply Z.le_antisymm; eauto). congruence.
    + pose proof (bt_floor_none_lb _ _ _ _ _ Hlb Hf Hg). lia.
Qed.

Lemma bt_floor_none k m :
  bt_wf m → bt_floor k m = None ↔ ∀ k' v', bt_get k' m = Some v' → k < k'.
Proof.
  intros Hwf. destruct (bt_wf_lb _ Hwf) as [k0 Hlb]. split.
  - intros Hf k' v' Hg. by eapply bt_floor_none_lb.
  - intros Hall. destruct (bt_floor k m) as [[k' v']|] eqn:Hf; [|done].
    apply bt_floor_some in Hf as (Hg&Hle&_); [|done]. apply Hall in Hg. lia.
Qed.

Lemma bt_head_le k1 v1 m1 k2 v2 m2 :
  bt_lb k1 m1 → bt_lb k2 m2 →
  (∀ k, bt_get k ((k1, v1) :: m1) = bt_get k ((k2, v2) :: m2)) → k2 ≤ k1.
Proof.
  intros H1 H2 Hext. destruct (decide (k2 ≤ k1)); [done|].
  specialize (Hext k1). simpl in Hext. rewrite Z.eqb_refl in Hext.
  destruct (Z.eqb_spec k2 k1); [lia|].
  rewrite (bt_get_lb k2 k1 m2) in Hext; [done|done|lia].
Qed.

(** Extensionality: the representation of a finite map is unique. *)
Lemma bt_ext m1 m2 :
  bt_wf m1 → bt_wf m2 → (∀ k, bt_get k m1 = bt_get k m2) → m1 = m2.
Proof.
  revert m2. induction m1 as [|[k1 v1] m1 IH]; intros [|[k2 v2] m2] H1 H2 Hext.
  - done.
  - specialize (Hext k2). simpl in Hext. by rewrite Z.eqb_refl in Hext.
  - specialize (Hext k1). simpl in Hext. by rewrite Z.eqb_refl in Hext.
  - simpl in H1, H2. assert (k1 = k2) as ->.
    { apply Z.le_antisymm; eapply bt_head_le; eauto. }
    pose proof (Hext k2) as Hv. simpl in Hv. rewrite Z.eqb_refl in Hv.
    simplify_eq. f_equal. apply IH; [by eapply bt_lb_wf..|]. intros k.
    destruct (decide (k ≤ k2)).
    + by rewrite (bt_get_lb k2 k m1), (bt_get_lb k2 k m2).
    + specialize (Hext k). simpl in Hext. destruct (Z.eqb_spec k2 k); [lia|done].
Qed.

(** ** Refinement to the abstract finite map *)
Definition to_gmap m : gmap Z V := list_to_map m.

Lemma to_gmap_lookup k m : to_gmap m !! k = bt_get k m.
Proof.
  induction m as [|[k0 v0] m IH]; simpl; [done|].
  destruct (Z.eqb_spec k0 k).
  - subst. by rewrite lookup_insert_eq.
  - by rewrite lookup_insert_ne.
Qed.

Lemma to_gmap_insert k v m : to_gmap (bt_insert k v m) = <[k := v]> (to_gmap m).
Proof.
  apply map_eq. intros k'. rewrite to_gmap_lookup. destruct (decide (k = k')) as [->|].
  - by rewrite bt_get_insert_eq, lookup_insert_eq.
  - by rewrite bt_get_insert_ne, lookup_insert_ne, to_gmap_lookup.
Qed.

Lemma to_gmap_remove k m : bt_wf m → to_gmap (bt_remove k m) = delete k (to_gmap m).
Proof.
  intros Hwf. apply map_eq. intros k'. rewrite to_gmap_lookup.
  destruct (decide (k = k')) as [->|].
  - by rewrite bt_get_remove_eq, lookup_delete_eq.
  - by rewrite bt_get_remove_ne, lookup_delete_ne, to_gmap_lookup.
Qed.
End btree.

#[export] Hint Resolve bt_insert_wf bt_remove_wf : unw.
