(* ===== verification/EhFrameTable.v ===== *)
(** * [src/src/eh_frame_table.rs]: the [.eh_frame_hdr] binary search table

    [parse] validates the header and locates the table; [lookup] binary
    searches it.  The two [u8] encodings are read as in the source; every
    slice access can panic in the model, and the theorems show which ones
    cannot. *)

From S2P Require Import Prelude.

Definition DW_EH_PE_OMIT : Z := 0xff.
Definition DW_EH_PE_UDATA4 : Z := 0x03.
Definition DW_EH_PE_SDATA4 : Z := 0x0b.
Definition DW_EH_PE_DATAREL : Z := 0x30.

Inductive EhFrameHdrError : Type :=
  | FixedHeaderTruncated (len : Z)
  | UnsupportedVersion (version : Z)
  | UnsupportedEhFramePtrEncoding (encoding : Z)
  | EhFramePtrTruncated (offset size len : Z)
  | UnsupportedFdeCountEncoding (encoding : Z)
  | FdeCountTruncated (offset size len : Z)
  | UnsupportedTableEncoding (encoding : Z)
  | TableTruncated (offset entry_count len : Z).

#[export] Instance EhFrameHdrError_eq_dec : EqDecision EhFrameHdrError.
Proof. solve_decision. Defined.

(** The pre-parsed header: where the table is, how many entries it has, and
    the tracee address its entries are relative to. *)
Record EhFrameTable : Type := mkEhFrameTable {
  table_data_offset : Z;
  entry_count : Z;
  eh_frame_hdr_avma : Z;
}.

#[export] Instance EhFrameTable_eq_dec : EqDecision EhFrameTable.
Proof. solve_decision. Defined.

Definition empty (eh_frame_hdr_avma : Z) : EhFrameTable :=
  mkEhFrameTable 0 0 eh_frame_hdr_avma.

Definition enc_size (enc : Z) : option Z :=
  if enc =? DW_EH_PE_OMIT then None
  else
    let format := Z.land enc 0x0f in
    if (format =? DW_EH_PE_UDATA4) || (format =? DW_EH_PE_SDATA4) then Some 4
    else if (format =? 0x04) || (format =? 0x0c) then Some 8
    else if (format =? 0x02) || (format =? 0x0a) then Some 2
    else None.

Definition read_unsigned (bytes : list Z) (enc : Z) : option (Z * Z) :=
  if enc =? DW_EH_PE_OMIT then None
  else
    let format := Z.land enc 0x0f in
    if format =? DW_EH_PE_UDATA4 then
      if len bytes <? 4 then None
      else Some (le_decode (take 4 bytes), 4)
    else if format =? DW_EH_PE_SDATA4 then
      if len bytes <? 4 then None
      else Some (as_u64 (as_signed 32 (le_decode (take 4 bytes))), 4)
    else if format =? 0x04 then
      if len bytes <? 8 then None
      else Some (le_decode (take 8 bytes), 8)
    else None.

Section ops.
Context `{Profile}.

(** [EhFrameTable::parse].  The five parameters the source names with a
    leading underscore are unused there and are left out here. *)
Definition parse (eh_frame_hdr : list Z) (eh_frame_hdr_avma : Z)
    : outcome EhFrameHdrError EhFrameTable :=
  if len eh_frame_hdr <? 4 then Err (FixedHeaderTruncated (len eh_frame_hdr))
  else
    version ← slice_index eh_frame_hdr 0;
    if negb (version =? 1) then Err (UnsupportedVersion version)
    else
      eh_frame_ptr_enc ← slice_index eh_frame_hdr 1;
      fde_count_enc ← slice_index eh_frame_hdr 2;
      table_enc ← slice_index eh_frame_hdr 3;
      let cursor := 4 in
      eh_frame_ptr_size ←
        ok_or (enc_size eh_frame_ptr_enc) (UnsupportedEhFramePtrEncoding eh_frame_ptr_enc);
      if len eh_frame_hdr <? saturating_add cursor eh_frame_ptr_size
      then Err (EhFramePtrTruncated cursor eh_frame_ptr_size (len eh_frame_hdr))
      else
        cursor ← usize_add cursor eh_frame_ptr_size;
        rest ← slice_from eh_frame_hdr cursor;
        '(fde_count, cursor) ←
          match read_unsigned rest fde_count_enc with
          | Some (val, size) => cursor ← usize_add cursor size; Ok (val, cursor)
          | None =>
              match enc_size fde_count_enc with
              | Some size => Err (FdeCountTruncated cursor size (len eh_frame_hdr))
              | None => Err (UnsupportedFdeCountEncoding fde_count_enc)
              end
          end;
        if negb (table_enc =? Z.lor DW_EH_PE_DATAREL DW_EH_PE_SDATA4)
        then Err (UnsupportedTableEncoding table_enc)
        else
          let entry_size := 8 in
          let need := saturating_mul entry_size fde_count in
          if len eh_frame_hdr <? saturating_add cursor need
          then Err (TableTruncated cursor fde_count (len eh_frame_hdr))
          else Ok (mkEhFrameTable cursor fde_count eh_frame_hdr_avma).

(** The [i32::from_le_bytes] of the four bytes at [off] of the closures
    [entry_pc] and [entry_fde], relative to the segment base. *)
Definition entry_word {E} (entries : list Z) (segbase off : Z) : outcome E Z :=
  b0 ← slice_index entries off;
  o1 ← usize_add off 1; b1 ← slice_index entries o1;
  o2 ← usize_add off 2; b2 ← slice_index entries o2;
  o3 ← usize_add off 3; b3 ← slice_index entries o3;
  Ok (wrapping_add segbase (as_u64 (as_signed 32 (le_decode [b0; b1; b2; b3])))).

Definition entry_pc {E} (entries : list Z) (segbase i : Z) : outcome E Z :=
  off ← usize_mul i 8;
  entry_word entries segbase off.

Definition entry_fde {E} (entries : list Z) (segbase i : Z) : outcome E Z :=
  off8 ← usize_mul i 8;
  off ← usize_add off8 4;
  entry_word entries segbase off.

(** The [while lo + 1 < hi] loop of [lookup]. *)
Fixpoint bsearch {E} (fuel : nat) (entries : list Z) (segbase ip lo hi : Z)
    : outcome E Z :=
  lo1 ← usize_add lo 1;
  if lo1 <? hi then
    match fuel with
    | O => NoFuel
    | S fuel' =>
        span ← usize_sub hi lo;
        mid ← usize_add lo (span / 2);
        pc ← entry_pc entries segbase mid;
        if pc <=? ip then bsearch fuel' entries segbase ip mid hi
        else bsearch fuel' entries segbase ip lo mid
    end
  else Ok lo.

(** [EhFrameTable::lookup].  The search interval halves at every iteration
    and is at most [2^64] wide, so 64 iterations are enough. *)
Definition lookup {E} (self : EhFrameTable) (eh_frame_hdr_bytes : list Z) (ip : Z)
    : outcome E (option (Z * Z)) :=
  if entry_count self =? 0 then Ok None
  else
    let table_off := table_data_offset self in
    let n := entry_count self in
    size ← usize_mul n 8;
    table_end ← usize_add table_off size;
    match slice_get eh_frame_hdr_bytes table_off table_end with
    | None => Ok None
    | Some entries =>
        let segbase := eh_frame_hdr_avma self in
        lo ← bsearch 64 entries segbase ip 0 n;
        pc ← entry_pc entries segbase lo;
        if ip <? pc then Ok None
        else fde ← entry_fde entries segbase lo; Ok (Some (pc, fde))
    end.
End ops.

(** ** Reference definitions *)

(** One decoded table word. *)
Definition word_at (entries : list Z) (segbase off : Z) : Z :=
  wrapping_add segbase
    (as_u64 (as_signed 32 (le_decode (take 4 (drop (Z.to_nat off) entries))))).

(** The table as a list of [(initial_pc, fde_avma)] pairs. *)
Definition table_entries (entries : list Z) (segbase n : Z) : list (Z * Z) :=
  (λ i, (word_at entries segbase (i * 8), word_at entries segbase (i * 8 + 4)))
    <$> seqZ 0 n.

(** What [lookup] is meant to compute: a linear scan for the last entry whose
    start address is at most [ip]. *)
Definition lookup_spec (table : list (Z * Z)) (ip : Z) : option (Z * Z) :=
  list.last (filter (λ e, e.1 ≤ ip) table).

Definition table_sorted (table : list (Z * Z)) : Prop :=
  ∀ i j a b, (i ≤ j)%nat → table !! i = Some a → table !! j = Some b → a.1 ≤ b.1.

(** The table of a header that [parse] accepted. *)
Definition hdr_table (t : EhFrameTable) (hdr : list Z) : list (Z * Z) :=
  table_entries (drop (Z.to_nat (table_data_offset t)) hdr)
    (eh_frame_hdr_avma t) (entry_count t).

(** ** Lemmas *)
Section lemmas.
Context `{Profile}.

Lemma enc_size_bounds enc n : enc_size enc = Some n → 2 ≤ n ≤ 8.
Proof. unfold enc_size. intros. repeat case_match; simplify_eq; lia. Qed.

Lemma read_unsigned_bounds bytes enc v n :
  Forall is_u8 bytes → read_unsigned bytes enc = Some (v, n) →
  is_u64 v ∧ 4 ≤ n ≤ 8 ∧ n ≤ len bytes.
Proof.
  intros Hb. unfold read_unsigned.
  assert (∀ k, 0 ≤ le_decode (take k bytes) < 2 ^ (8 * Z.of_nat k)) as Hle.
  { intros k. pose proof (le_decode_bounds _ (Forall_take _ k _ Hb)) as Hd.
    assert (2 ^ (8 * len (take k bytes)) ≤ 2 ^ (8 * Z.of_nat k)); [|lia].
    apply Z.pow_le_mono_r; [lia|]. unfold len. rewrite length_take. lia. }
  pose proof (Hle 4%nat) as H4. pose proof (Hle 8%nat) as H8.
  intros. repeat case_match; simplify_eq; zify_bools; split_and!; try lia.
  - unfold is_u. split; [lia|]. eapply Z.lt_le_trans; [apply H4|]. by vm_compute.
  - apply wrap_bounds. lia.
  - unfold is_u. split; [lia|]. apply H8.
Qed.


(** ** [parse] *)
Lemma slice_from_ok {E} s a : a ≤ len s → slice_from (E:=E) s a = Ok (drop (Z.to_nat a) s).
Proof. intros. unfold slice_from. case_match; zify_bools; [done|lia]. Qed.

Lemma len_drop {A} (l : list A) a : 0 ≤ a ≤ len l → len (drop (Z.to_nat a) l) = len l - a.
Proof. intros. unfold len in *. rewrite length_drop. lia. Qed.

Lemma parse_cases hdr avma :
  bytes_ok hdr →
  match parse hdr avma with
  | Ok t => 4 ≤ table_data_offset t ∧ is_u64 (entry_count t) ∧
            table_data_offset t + 8 * entry_count t ≤ len hdr ∧
            eh_frame_hdr_avma t = avma
  | Err _ => True
  | _ => False
  end.
Proof.
  intros [Hb Hl]. unfold parse, isize_max in *. simpl.
  destruct (Z.ltb_spec (len hdr) 4); [done|].
  destruct (slice_index_ok (E:=EhFrameHdrError) hdr 0) as [v ->]; [lia|]. simpl.
  destruct (negb (v =? 1)); [done|].
  destruct (slice_index_ok (E:=EhFrameHdrError) hdr 1) as [pe ->]; [lia|]. simpl.
  destruct (slice_index_ok (E:=EhFrameHdrError) hdr 2) as [ce ->]; [lia|]. simpl.
  destruct (slice_index_ok (E:=EhFrameHdrError) hdr 3) as [te ->]; [lia|]. simpl.
  destruct (enc_size pe) as [ps|] eqn:Hps; simpl; [|done].
  apply enc_size_bounds in Hps.
  destruct (Z.ltb_spec (len hdr) (saturating_add 4 ps)) as [|Hfit]; [done|].
  apply saturating_fits in Hfit; [|unfold u64_max; lia].
  rewrite usize_add_ok by (unfold usize_max; lia). simpl.
  rewrite slice_from_ok by lia. simpl.
  destruct (read_unsigned _ ce) as [[cnt sz]|] eqn:Hru; simpl.
  2: { by destruct (enc_size ce). }
  apply read_unsigned_bounds in Hru as (Hcnt & Hsz & Hle); [|by apply Forall_drop].
  rewrite len_drop in Hle by lia.
  rewrite usize_add_ok by (unfold usize_max; lia). simpl.
  destruct (negb _); [done|].
  destruct (Z.ltb_spec (len hdr) (saturating_add (4 + ps + sz) (saturating_mul 8 cnt)))
    as [|Hfit2]; [done|]. simpl.
  apply saturating_mul_fits in Hfit2; [|unfold u64_max; lia|lia].
  split_and!; [lia|done|lia|done].
Qed.

(** ** [lookup] *)
Lemma take4_index {E} s off :
  0 ≤ off → off + 4 ≤ len s →
  ∃ b0 b1 b2 b3, take 4 (drop (Z.to_nat off) s) = [b0; b1; b2; b3] ∧
    slice_index (E:=E) s off = Ok b0 ∧ slice_index (E:=E) s (off + 1) = Ok b1 ∧
    slice_index (E:=E) s (off + 2) = Ok b2 ∧ slice_index (E:=E) s (off + 3) = Ok b3.
Proof.
  intros H0 Hl. assert (∀ i, (i < 4)%nat → ∃ b, s !! (Z.to_nat off + i)%nat = Some b ∧
    slice_index (E:=E) s (off + Z.of_nat i) = Ok b) as Hi.
  { intros i Hi. destruct (lookup_lt_is_Some_2 s (Z.to_nat off + i)) as [b Hb].
    { unfold len in Hl. lia. }
    exists b. split; [done|]. unfold slice_index.
    rewrite slice_get_at_lookup by lia.
    replace (Z.to_nat (off + Z.of_nat i)) with (Z.to_nat off + i)%nat by lia.
    by rewrite Hb. }
  destruct (Hi 0%nat) as (b0&Hb0&?); [lia|]. destruct (Hi 1%nat) as (b1&Hb1&?); [lia|].
  destruct (Hi 2%nat) as (b2&Hb2&?); [lia|]. destruct (Hi 3%nat) as (b3&Hb3&?); [lia|].
  change (Z.of_nat 0) with 0 in *. change (Z.of_nat 1) with 1 in *.
  change (Z.of_nat 2) with 2 in *. change (Z.of_nat 3) with 3 in *.
  rewrite Z.add_0_r in *. exists b0, b1, b2, b3. split_and!; [|done..].
  apply list_eq. intros i. destruct (decide (i < 4)%nat) as [Hlt|].
  - rewrite lookup_take_lt, lookup_drop by done.
    do 4 (destruct i as [|i]; [done|]). lia.
  - rewrite !lookup_ge_None_2; [done|simpl; lia|rewrite length_take; lia].
Qed.

Lemma entry_word_ok {E} entries segbase off :
  0 ≤ off → off + 4 ≤ len entries → len entries ≤ isize_max →
  entry_word (E:=E) entries segbase off = Ok (word_at entries segbase off).
Proof.
  intros H0 Hl Hm. unfold entry_word, word_at.
  destruct (take4_index (E:=E) entries off H0 Hl) as (b0&b1&b2&b3&->&->&H1&H2&H3).
  unfold isize_max in Hm. simpl.
  rewrite !usize_add_ok by (unfold usize_max; lia). simpl.
  rewrite H1. simpl. rewrite H2. simpl. by rewrite H3.
Qed.

Lemma entry_pc_ok {E} entries segbase i :
  0 ≤ i → i * 8 + 8 ≤ len entries → len entries ≤ isize_max →
  entry_pc (E:=E) entries segbase i = Ok (word_at entries segbase (i * 8)).
Proof.
  intros. unfold entry_pc. rewrite usize_mul_ok by (unfold isize_max, usize_max in *; lia).
  simpl. apply entry_word_ok; lia.
Qed.

Lemma entry_fde_ok {E} entries segbase i :
  0 ≤ i → i * 8 + 8 ≤ len entries → len entries ≤ isize_max →
  entry_fde (E:=E) entries segbase i = Ok (word_at entries segbase (i * 8 + 4)).
Proof.
  intros. unfold entry_fde. rewrite usize_mul_ok by (unfold isize_max, usize_max in *; lia).
  simpl. rewrite usize_add_ok by (unfold isize_max, usize_max in *; lia).
  simpl. apply entry_word_ok; lia.
Qed.

(** The loop returns, whatever the table holds, with an index whose entry is
    at most [ip] (or the first one) and whose successor is above [ip]. *)
Lemma bsearch_ok {E} fuel entries segbase ip lo hi n :
  let pc i := word_at entries segbase (i * 8) in
  0 ≤ lo < hi → hi ≤ n → n * 8 ≤ len entries → len entries ≤ isize_max →
  hi - lo ≤ 2 ^ Z.of_nat fuel →
  (lo = 0 ∨ pc lo ≤ ip) → (hi = n ∨ ip < pc hi) →
  ∃ r, bsearch (E:=E) fuel entries segbase ip lo hi = Ok r ∧ 0 ≤ r < n ∧
       (r = 0 ∨ pc r ≤ ip) ∧ (r + 1 = n ∨ ip < pc (r + 1)).
Proof.
  intros pc. revert lo hi. induction fuel as [|fuel IH]; intros lo hi Hlo Hhi Hn Hm Hf Hl Hh;
    simpl; (rewrite usize_add_ok by (unfold usize_max, isize_max in *; lia)); simpl;
    destruct (Z.ltb_spec (lo + 1) hi).
  - change (2 ^ Z.of_nat 0) with 1 in Hf. lia.
  - exists lo. replace (lo + 1) with hi by lia. split_and!; [done|lia|lia|done|done].
  - rewrite Nat2Z.inj_succ, Z.pow_succ_r in Hf by lia.
    assert (1 ≤ (hi - lo) / 2 < hi - lo) as Hd.
    { split; [apply Z.div_le_lower_bound; lia|apply Z.div_lt_upper_bound; lia]. }
    pose proof (Z.div_mod (hi - lo) 2). pose proof (Z.mod_pos_bound (hi - lo) 2).
    rewrite usize_sub_ok by lia. simpl.
    rewrite usize_add_ok by (unfold usize_max, isize_max in *; lia). simpl.
    rewrite entry_pc_ok by lia. simpl.
    destruct (Z.leb_spec (word_at entries segbase ((lo + (hi - lo) / 2) * 8)) ip).
    + apply IH; [lia..|by right|done].
    + apply IH; [lia..|done|by right].
  - exists lo. replace (lo + 1) with hi by lia. split_and!; [done|lia|lia|done|done].
Qed.

Lemma table_entries_lookup entries segbase n i :
  0 ≤ i < n →
  table_entries entries segbase n !! Z.to_nat i =
  Some (word_at entries segbase (i * 8), word_at entries segbase (i * 8 + 4)).
Proof.
  intros. unfold table_entries. rewrite list_lookup_fmap, lookup_seqZ_lt by lia. simpl.
  by rewrite Z2Nat.id by lia.
Qed.

Lemma table_entries_length entries segbase n :
  length (table_entries entries segbase n) = Z.to_nat n.
Proof. unfold table_entries. by rewrite length_fmap, length_seqZ. Qed.

Lemma word_at_take entries segbase k off :
  0 ≤ off → off + 4 ≤ Z.of_nat k →
  word_at (take k entries) segbase off = word_at entries segbase off.
Proof.
  intros. unfold word_at. do 4 f_equal.
  rewrite skipn_firstn_comm, take_take. f_equal. lia.
Qed.

Lemma filter_above (table : list (Z * Z)) ip :
  Forall (λ e, ip < e.1) table → filter (λ e, e.1 ≤ ip) table = [].
Proof.
  induction 1; [done|]. rewrite filter_cons. case_decide; [lia|done].
Qed.

(** In a sorted table, the index the loop ends on is the last entry at most
    [ip]. *)
Lemma lookup_spec_last table ip i e :
  table !! i = Some e → e.1 ≤ ip →
  (∀ j e', (i < j)%nat → table !! j = Some e' → ip < e'.1) →
  lookup_spec table ip = Some e.
Proof.
  intros Hi Hle Hafter. unfold lookup_spec.
  rewrite <- (take_drop_middle table i e Hi), filter_app, filter_cons.
  case_decide; [|done]. rewrite (filter_above (drop (S i) table)); [by rewrite last_snoc|].
  apply Forall_lookup. intros j e' Hj. rewrite lookup_drop in Hj.
  eapply Hafter; [|done]. lia.
Qed.

Lemma lookup_spec_none table ip :
  Forall (λ e, ip < e.1) table → lookup_spec table ip = None.
Proof. intros Hall. unfold lookup_spec. by rewrite filter_above. Qed.

(** What the search returns, without assuming a sorted table. *)
Lemma lookup_cases {E} t hdr ip :
  let tbl := hdr_table t hdr in
  len hdr ≤ isize_max → 0 ≤ table_data_offset t → 0 < entry_count t →
  table_data_offset t + 8 * entry_count t ≤ len hdr →
  ∃ r e, (r < Z.to_nat (entry_count t))%nat ∧ tbl !! r = Some e ∧
    lookup (E:=E) t hdr ip = Ok (if ip <? e.1 then None else Some e) ∧
    (r = 0%nat ∨ e.1 ≤ ip) ∧
    (∀ e', tbl !! S r = Some e' → ip < e'.1).
Proof.
  intros tbl Hm H0 Hn Hfit. unfold lookup.
  destruct (Z.eqb_spec (entry_count t) 0); [lia|].
  rewrite usize_mul_ok by (unfold isize_max, usize_max in *; lia). run.
  rewrite usize_add_ok by (unfold isize_max, usize_max in *; lia). run.
  unfold slice_get. rewrite (proj2 (andb_true_iff _ _)) by (split; apply Z.leb_le; lia).
  set (entries := take _ _). set (seg := eh_frame_hdr_avma t).
  assert (len entries = entry_count t * 8) as Hlen.
  { unfold entries, len in *. rewrite length_take, length_drop. lia. }
  assert (∀ i, 0 ≤ i < entry_count t → tbl !! Z.to_nat i =
    Some (word_at entries seg (i * 8), word_at entries seg (i * 8 + 4))) as Htbl.
  { intros i Hi. unfold tbl, hdr_table. rewrite table_entries_lookup by done.
    unfold entries. by rewrite !word_at_take by lia. }
  destruct (bsearch_ok (E:=E) 64 entries seg ip 0 (entry_count t) (entry_count t))
    as (r & -> & Hr & Hl & Hh); [lia..| |by left|by left|].
  { change (2 ^ Z.of_nat 64) with (2 ^ 64). unfold isize_max in Hm. lia. }
  run. rewrite entry_pc_ok, entry_fde_ok by lia. run.
  eexists (Z.to_nat r), _. split_and!; [lia|by apply Htbl| | |].
  - simpl. by case_match.
  - simpl. destruct Hl; [left; lia|by right].
  - intros e' He'. destruct Hh as [Hh|Hh].
    + apply lookup_lt_Some in He'. unfold tbl, hdr_table in He'.
      rewrite table_entries_length in He'. lia.
    + replace (S (Z.to_nat r)) with (Z.to_nat (r + 1)) in He' by lia.
      destruct (decide (r + 1 < entry_count t)).
      * rewrite Htbl in He' by lia. by simplify_eq.
      * apply lookup_lt_Some in He'. unfold tbl, hdr_table in He'.
        rewrite table_entries_length in He'. lia.
Qed.

Lemma lookup_sorted {E} t hdr ip :
  len hdr ≤ isize_max → 0 ≤ table_data_offset t → 0 ≤ entry_count t →
  (entry_count t ≠ 0 → table_data_offset t + 8 * entry_count t ≤ len hdr) →
  table_sorted (hdr_table t hdr) →
  lookup (E:=E) t hdr ip = Ok (lookup_spec (hdr_table t hdr) ip).
Proof.
  intros Hm Hoff Hn Hfit Hs. destruct (decide (entry_count t = 0)) as [Hz|Hz].
  { unfold lookup, hdr_table, table_entries. by rewrite Hz. }
  destruct (lookup_cases (E:=E) t hdr ip) as (r & e & Hr & He & -> & Hlo & Hhi); [lia..|].
  f_equal. destruct (Z.ltb_spec ip e.1) as [Hlt|Hle].
  - symmetry. apply lookup_spec_none. apply Forall_lookup. intros i e' He'.
    destruct Hlo as [->|]; [|lia]. eapply Z.lt_le_trans; [done|].
    eapply (Hs 0%nat i); eauto. lia.
  - symmetry. eapply lookup_spec_last; [done|lia|]. intros j e' Hj He'.
    destruct (hdr_table t hdr !! S r) as [e1|] eqn:H1.
    + specialize (Hhi e1 eq_refl). eapply Z.lt_le_trans; [done|]. eapply (Hs (S r) j); eauto.
    + apply lookup_ge_None in H1. apply lookup_lt_Some in He'. lia.
Qed.

(** In a sorted table, the addresses between an entry and its successor all
    find that entry. *)
Lemma lookup_spec_between table i e ip :
  table_sorted table → table !! i = Some e → e.1 ≤ ip →
  (∀ e', table !! S i = Some e' → ip < e'.1) → lookup_spec table ip = Some e.
Proof.
  intros Hs Hi Hle Hnext. eapply lookup_spec_last; [done|done|]. intros j e' Hj He'.
  destruct (table !! S i) as [e1|] eqn:H1.
  - specialize (Hnext e1 eq_refl). eapply Z.lt_le_trans; [done|]. eapply (Hs (S i) j); eauto.
  - apply lookup_ge_None in H1. apply lookup_lt_Some in He'. lia.
Qed.
End lemmas.

(** [EhFrameTable::parse] returns a [Result] on arbitrary header bytes, under
    either build profile, and the table of an accepted header lies inside the
    header, after the fixed fields. *)
Theorem parse_total `{Profile} (hdr : list Z) (avma : Z) :
  bytes_ok hdr →
  returns (parse hdr avma) ∧
  ∀ t, parse hdr avma = Ok t →
    4 ≤ table_data_offset t ∧ 0 ≤ entry_count t ∧
    table_data_offset t + 8 * entry_count t ≤ len hdr ∧ eh_frame_hdr_avma t = avma.
Proof.
  intros Hok. pose proof (parse_cases hdr avma Hok) as Hc.
  destruct (parse hdr avma) as [t| | | |]; try done. split; [done|].
  intros ? [= <-]. destruct Hc as (?&[? ?]&?&?). done.
Qed.

(** C10: the binary search of [EhFrameTable::lookup] over the raw bytes terminates
    without panicking and, on a sorted table, equals a linear scan for the last
    entry whose start address is at most [ip]. *)
Theorem lookup_correct `{Profile} {E} (hdr : list Z) (avma ip : Z) (t : EhFrameTable) :
  bytes_ok hdr → parse hdr avma = Ok t → table_sorted (hdr_table t hdr) →
  lookup (E:=E) t hdr ip = Ok (lookup_spec (hdr_table t hdr) ip).
Proof.
  intros Hok Hp Hs. pose proof (parse_cases hdr avma Hok) as Hc. rewrite Hp in Hc.
  destruct Hc as (Hoff & [Hn _] & Hfit & _). destruct Hok as [_ Hm].
  apply lookup_sorted; [done|lia|done|done|done].
Qed.

(** Two entries: 0x1000 with its FDE at 0x3010 and 0x1100 with its FDE at 0x3030,
    relative to the header at 0x4000. *)
Definition demo_hdr : list Z :=
  [1; 0x1b; 0x03; 0x3b] ++ le_encode 4 0 ++ le_encode 4 2
  ++ le_encode 4 (0x1000 - 0x4000) ++ le_encode 4 (0x3010 - 0x4000)
  ++ le_encode 4 (0x1100 - 0x4000) ++ le_encode 4 (0x3030 - 0x4000).

Lemma parse_total_witness :
  returns (parse (H:=true) demo_hdr 0x4000) ∧
  ∀ t, parse (H:=true) demo_hdr 0x4000 = Ok t →
    4 ≤ table_data_offset t ∧ 0 ≤ entry_count t ∧
    table_data_offset t + 8 * entry_count t ≤ len demo_hdr ∧ eh_frame_hdr_avma t = 0x4000.
Proof. apply (parse_total (H:=true) demo_hdr 0x4000). by_compute. Defined.

Lemma lookup_correct_witness :
  lookup (H:=true) (E:=()) (mkEhFrameTable 12 2 0x4000) demo_hdr 0x1080 =
  Ok (lookup_spec (hdr_table (mkEhFrameTable 12 2 0x4000) demo_hdr) 0x1080).
Proof.
  apply (lookup_correct (H:=true) demo_hdr 0x4000); [by_compute|by vm_compute|].
  change (table_sorted [(0x1000, 0x3010); (0x1100, 0x3030)]). intros [|[|i]] [|[|j]] a b; simpl;
    intros; simplify_eq; simpl; lia.
Defined.

(** The FDE count may be encoded as udata2, sdata2 or sdata8 as far as its size is
    concerned, but [read_unsigned] decodes none of them: a complete header with
    such a count is reported as truncated. *)
Theorem fde_count_misreported :
  let hdr := [1; 0x1b; 0x02; 0x3b] ++ le_encode 4 0 ++ le_encode 2 1 ++ le_encode 8 0 in
  enc_size 0x02 = Some 2 ∧ len hdr = 4 + 4 + 2 + 8 ∧
  parse (H:=true) hdr 0x4000 = Err (FdeCountTruncated 8 2 18).
Proof. vm_compute. done. Qed.
