(* ===== verification/Ffi.v ===== *)
(** * [src/src/ffi]: libunwind constants and structures

    The C structures that cross the FFI boundary, field for field
    ([src/src/ffi/types.rs]), and the constants of [src/src/ffi/consts.rs].
    A pointer to a cached [DwarfCieInfo] is modelled by the structure it
    points at: the referent is immutable and owned by the function cache. *)

From S2P Require Import Prelude.

(** ** Status codes ([c_int]) *)
Definition UNW_ESUCCESS : Z := 0.
Definition UNW_EUNSPEC : Z := 1.
Definition UNW_ENOMEM : Z := 2.
Definition UNW_EBADREG : Z := 3.
Definition UNW_EREADONLYREG : Z := 4.
Definition UNW_ESTOPUNWIND : Z := 5.
Definition UNW_EINVALIDIP : Z := 6.
Definition UNW_EBADFRAME : Z := 7.
Definition UNW_EINVAL : Z := 8.
Definition UNW_EBADVERSION : Z := 9.
Definition UNW_ENOINFO : Z := 10.

(** ** Unwind-info formats *)
Definition UNW_INFO_FORMAT_DYNAMIC : Z := 0.
Definition UNW_INFO_FORMAT_TABLE : Z := 1.
Definition UNW_INFO_FORMAT_REMOTE_TABLE : Z := 2.
Definition UNW_INFO_FORMAT_ARM_EXIDX : Z := 3.
Definition UNW_INFO_FORMAT_IP_OFFSET : Z := 4.

Definition UNW_LITTLE_ENDIAN : Z := 1234.

Module x86_64_regs.
Definition UNW_X86_64_RAX : Z := 0.
Definition UNW_X86_64_RDX : Z := 1.
Definition UNW_X86_64_RCX : Z := 2.
Definition UNW_X86_64_RBX : Z := 3.
Definition UNW_X86_64_RSI : Z := 4.
Definition UNW_X86_64_RDI : Z := 5.
Definition UNW_X86_64_RBP : Z := 6.
Definition UNW_X86_64_RSP : Z := 7.
Definition UNW_X86_64_R8 : Z := 8.
Definition UNW_X86_64_R9 : Z := 9.
Definition UNW_X86_64_R10 : Z := 10.
Definition UNW_X86_64_R11 : Z := 11.
Definition UNW_X86_64_R12 : Z := 12.
Definition UNW_X86_64_R13 : Z := 13.
Definition UNW_X86_64_R14 : Z := 14.
Definition UNW_X86_64_R15 : Z := 15.
Definition UNW_X86_64_RIP : Z := 16.
Definition UNW_REG_IP : Z := UNW_X86_64_RIP.
Definition UNW_REG_SP : Z := UNW_X86_64_RSP.
End x86_64_regs.

Module aarch64_regs.
Definition UNW_AARCH64_X29 : Z := 29.
Definition UNW_AARCH64_X30 : Z := 30.
Definition UNW_AARCH64_SP : Z := 31.
Definition UNW_AARCH64_PC : Z := 32.
Definition UNW_REG_IP : Z := UNW_AARCH64_X30.
Definition UNW_REG_SP : Z := UNW_AARCH64_SP.
End aarch64_regs.

(** ** Structures *)

(** [dwarf_cie_info_t]. *)
Record DwarfCieInfo : Type := mkDwarfCieInfo {
  cie_instr_start : Z;
  cie_instr_end : Z;
  fde_instr_start : Z;
  fde_instr_end : Z;
  dci_code_align : Z;
  dci_data_align : Z;
  dci_ret_addr_column : Z;
  dci_handler : Z;
  abi : Z;
  tag : Z;
  dci_fde_encoding : Z;
  dci_lsda_encoding : Z;
  dci_flags : Z;
}.

#[export] Instance DwarfCieInfo_eq_dec : EqDecision DwarfCieInfo.
Proof. solve_decision. Defined.

Definition FLAG_SIZED_AUGMENTATION : Z := Z.shiftl 1 0.
Definition FLAG_SIGNAL_FRAME : Z := Z.shiftl 1 2.

(** [size_of::<DwarfCieInfo>()] under [repr(C)]: eight words, two [u16], two
    [u8], two bytes of padding, one [u32], rounded up to the alignment 8. *)
Definition size_of_DwarfCieInfo : Z := 8 * 8 + 2 + 2 + 1 + 1 + 2 + 4 + 4.

(** [unw_proc_info_t]; the [extra] padding is not modelled. *)
Record UnwProcInfo : Type := mkUnwProcInfo {
  pi_start_ip : Z;
  pi_end_ip : Z;
  pi_lsda : Z;
  pi_handler : Z;
  pi_gp : Z;
  pi_flags : Z;
  pi_format : Z;
  pi_unwind_info_size : Z;
  pi_unwind_info : option DwarfCieInfo;
}.

(** A [unw_proc_info_t] before libunwind's callback filled it. *)
Definition UnwProcInfo_zeroed : UnwProcInfo := mkUnwProcInfo 0 0 0 0 0 0 0 0 None.
