(* ===== verification/Errors.v ===== *)
(** * [src/src/error.rs]: structured errors *)

From S2P Require Import Prelude.
From S2P Require Import EhFrameTable.
From S2P Require Import Ffi.

(** The libunwind operation that failed. *)
Inductive LibunwindPhase : Type :=
  | InitRemote
  | Step
  | GetInstructionPointer
  | GetRegister (reg : Z).

(** Decoded libunwind status code. *)
Inductive LibunwindErrorCode : Type :=
  | Unspecified
  | NoMemory
  | BadRegister
  | ReadOnlyRegister
  | StopUnwind
  | InvalidInstructionPointer
  | BadFrame
  | InvalidOperation
  | BadVersion
  | NoInfo
  | Unknown (code : Z).

Record LibunwindError : Type := mkLibunwindError {
  phase : LibunwindPhase;
  code : LibunwindErrorCode;
  raw_status : Z;
}.

Inductive DwarfParseErrorKind : Type :=
  | Truncated (needed len : Z)
  | Leb128Overflow
  | EntryLengthOverflow
  | OmittedPointerEncoding
  | UnsupportedPointerEncoding (encoding : Z)
  | IndirectPointerRequiresDereference (encoding : Z)
  | UnsupportedPointerApplication (encoding : Z)
  | BadCieId (cie_id : Z)
  | UnsupportedCieVersion (version : Z)
  | UnsupportedCieAddressSize (address_size segment_size : Z)
  | UnterminatedAugmentationString
  | UnsupportedAugmentation (byte : Z)
  | UnsupportedNonZAugmentation
  | FdeCiePointerIsZero.

Record DwarfParseError : Type := mkDwarfParseError {
  offset : Z;
  kind : DwarfParseErrorKind;
}.

Inductive UnwindInfoError : Type :=
  | ModuleNotFound (ip : Z)
  | MissingLocalUnwindSections (module : string) (ip : Z)
  | FunctionCachePoisoned (module : string)
  | EhFrameHeaderLookupMiss (module : string) (ip : Z)
  | UIInvalidEhFrameHdr (module : string) (source : EhFrameHdrError)
  | FdeOffsetBeforeEhFrame (module : string) (fde_avma eh_frame_avma : Z)
  | FdeOffsetOutOfRange (module : string) (fde_offset eh_frame_len : Z)
  | FdeLengthPrefixTruncated (module : string) (fde_offset eh_frame_len : Z)
  | CiePointerTruncated (module : string) (cie_ptr_offset eh_frame_len : Z)
  | CiePointerUnderflow (module : string) (cie_ptr_offset cie_ptr : Z)
  | CieParse (module : string) (cie_offset : Z) (source : DwarfParseError)
  | FdeParse (module : string) (fde_offset : Z) (source : DwarfParseError).

(** The unwinder's error type. *)
Inductive Error : Type :=
  | CouldNotReadStack (addr : Z)
  | FramepointerUnwindingMovedBackwards
  | DidNotAdvance
  | IntegerOverflow
  | ReturnAddressIsNull
  | Libunwind (err : LibunwindError)
  | UnwindInfo (err : UnwindInfoError).

#[export] Instance LibunwindPhase_eq_dec : EqDecision LibunwindPhase.
Proof. solve_decision. Defined.
#[export] Instance LibunwindErrorCode_eq_dec : EqDecision LibunwindErrorCode.
Proof. solve_decision. Defined.
#[export] Instance LibunwindError_eq_dec : EqDecision LibunwindError.
Proof. solve_decision. Defined.
#[export] Instance DwarfParseErrorKind_eq_dec : EqDecision DwarfParseErrorKind.
Proof. solve_decision. Defined.
#[export] Instance DwarfParseError_eq_dec : EqDecision DwarfParseError.
Proof. solve_decision. Defined.
#[export] Instance UnwindInfoError_eq_dec : EqDecision UnwindInfoError.
Proof. solve_decision. Defined.
#[export] Instance Error_eq_dec : EqDecision Error.
Proof. solve_decision. Defined.

(** [i32::abs]: [i32::MIN] has no [i32] absolute value; it panics with
    overflow checks and is returned unchanged without them. *)
Definition i32_min : Z := - 2 ^ 31.
Definition i32_abs `{Profile} {E} (z : Z) : outcome E Z :=
  if z =? i32_min then (if overflow_checks then Panic else Ok i32_min) else Ok (Z.abs z).

(** [LibunwindErrorCode::from_status]. *)
Definition from_status `{Profile} {E} (status : Z) : outcome E LibunwindErrorCode :=
  a ← i32_abs status;
  Ok (if a =? UNW_EUNSPEC then Unspecified
      else if a =? UNW_ENOMEM then NoMemory
      else if a =? UNW_EBADREG then BadRegister
      else if a =? UNW_EREADONLYREG then ReadOnlyRegister
      else if a =? UNW_ESTOPUNWIND then StopUnwind
      else if a =? UNW_EINVALIDIP then InvalidInstructionPointer
      else if a =? UNW_EBADFRAME then BadFrame
      else if a =? UNW_EINVAL then InvalidOperation
      else if a =? UNW_EBADVERSION then BadVersion
      else if a =? UNW_ENOINFO then NoInfo
      else Unknown a).

(** [LibunwindError::new]. *)
Definition LibunwindError_new `{Profile} {E} (phase : LibunwindPhase) (raw_status : Z)
    : outcome E LibunwindError :=
  code ← from_status raw_status;
  Ok (mkLibunwindError phase code raw_status).

Lemma from_status_returns `{Profile} {E} status :
  i32_min < status → ∃ c, from_status (E:=E) status = Ok c.
Proof.
  intros Hs. unfold from_status, i32_abs. destruct (Z.eqb_spec status i32_min); [lia|].
  run. eauto.
Qed.

Lemma LibunwindError_new_ok `{Profile} {E} ph status :
  i32_min < status →
  ∃ c, LibunwindError_new (E:=E) ph status = Ok (mkLibunwindError ph c status).
Proof.
  intros Hs. destruct (from_status_returns (E:=E) status Hs) as [c Hc]. exists c.
  unfold LibunwindError_new. by rewrite Hc.
Qed.

Lemma LibunwindError_new_same `{Profile} {E F} ph status e :
  LibunwindError_new (E:=E) ph status = Ok e →
  raw_status e = status ∧ phase e = ph ∧ LibunwindError_new (E:=F) ph status = Ok e.
Proof.
  unfold LibunwindError_new, from_status, i32_abs.
  destruct (status =? i32_min); [destruct overflow_checks; [done|]|]; run; by intros [= <-].
Qed.
