(* ===== verification/FrameAddress.v ===== *)
(** * [src/src/frame_address.rs]: code addresses of stack frames *)

From S2P Require Import Prelude.

(** [ReturnAddress] holds a [NonZeroU64]: [frame_ok] is its type invariant. *)
Inductive FrameAddress : Type :=
  | InstructionPointer (ip : Z)
  | ReturnAddress (ra : Z).

#[export] Instance FrameAddress_eq_dec : EqDecision FrameAddress.
Proof. solve_decision. Defined.

Definition frame_ok (f : FrameAddress) : Prop :=
  match f with
  | InstructionPointer ip => is_u64 ip
  | ReturnAddress ra => is_u64 ra ∧ ra ≠ 0
  end.

#[export] Instance frame_ok_dec f : Decision (frame_ok f).
Proof. destruct f; apply _. Defined.

Definition from_instruction_pointer (ip : Z) : FrameAddress := InstructionPointer ip.

(** [NonZeroU64::new(ra).map(ReturnAddress)]. *)
Definition from_return_address (ra : Z) : option FrameAddress :=
  if ra =? 0 then None else Some (ReturnAddress ra).

Definition address_for_lookup (self : FrameAddress) : Z :=
  match self with
  | InstructionPointer ip => ip
  | ReturnAddress ra => ra - 1
  end.

Definition address (self : FrameAddress) : Z :=
  match self with
  | InstructionPointer a => a
  | ReturnAddress a => a
  end.

Definition is_return_address (self : FrameAddress) : bool :=
  match self with
  | ReturnAddress _ => true
  | InstructionPointer _ => false
  end.

Definition raw_address (self : FrameAddress) : Z := address self.

Lemma address_for_lookup_u64 f : frame_ok f → is_u64 (address_for_lookup f).
Proof. unfold frame_ok, is_u. destruct f; simpl; lia. Qed.

Lemma address_u64 f : frame_ok f → is_u64 (address f).
Proof. unfold frame_ok, is_u. destruct f; simpl; lia. Qed.

Lemma from_return_address_ok ra f :
  is_u64 ra → from_return_address ra = Some f → frame_ok f ∧ address f = ra.
Proof.
  unfold from_return_address, frame_ok. intros Hra. case_match; zify_bools; [done|].
  intros [= <-]. done.
Qed.
#[export] Hint Resolve address_for_lookup_u64 address_u64 : unw.
