(* ===== verification/Dwarf.v ===== *)
(** * [src/src/dwarf.rs]: the CIE/FDE parser

    A [Cursor] is explicit state; its [&mut self] reading methods are [SM]
    computations.  [parse_cie] and [parse_fde] create a cursor, run and drop
    it. *)

From S2P Require Import Prelude.
From S2P Require Import Errors.
From S2P Require Import Ffi.

Definition DW_EH_PE_OMIT : Z := 0xff.
Definition DW_EH_PE_ABSPTR : Z := 0x00.
Definition DW_EH_PE_FORMAT_MASK : Z := 0x0f.
Definition DW_EH_PE_APP_MASK : Z := 0x70.
Definition DW_EH_PE_INDIRECT : Z := 0x80.
Definition DW_EH_PE_UDATA2 : Z := 0x02.
Definition DW_EH_PE_UDATA4 : Z := 0x03.
Definition DW_EH_PE_UDATA8 : Z := 0x04.
Definition DW_EH_PE_SDATA2 : Z := 0x0a.
Definition DW_EH_PE_SDATA4 : Z := 0x0b.
Definition DW_EH_PE_SDATA8 : Z := 0x0c.
Definition DW_EH_PE_ULEB128 : Z := 0x01.
Definition DW_EH_PE_SLEB128 : Z := 0x09.
Definition DW_EH_PE_PCREL : Z := 0x10.
Definition DW_EH_PE_TEXTREL : Z := 0x20.
Definition DW_EH_PE_DATAREL : Z := 0x30.
Definition DW_EH_PE_FUNCREL : Z := 0x40.
Definition DW_EH_PE_ALIGNED : Z := 0x50.

Record Cursor : Type := mkCursor {
  bytes : list Z;
  pos : Z;
  avma_base : Z;
}.

(** [self.pos = p]. *)
Definition set_pos (p : Z) (c : Cursor) : Cursor := mkCursor (bytes c) p (avma_base c).

Abbreviation CM := (SM Cursor DwarfParseError).

Definition current_avma (c : Cursor) : Z := wrapping_add (avma_base c) (pos c).

(** The result of parsing a CIE. *)
Record ParsedCie : Type := mkParsedCie {
  code_align : Z;
  data_align : Z;
  ret_addr_column : Z;
  fde_encoding : Z;
  lsda_encoding : Z;
  personality : Z;
  has_z : bool;
  signal_frame : bool;
  cie_instr_offset_in_eh_frame : Z;
  cie_instr_len : Z;
}.

(** The result of parsing an FDE. *)
Record ParsedFde : Type := mkParsedFde {
  initial_pc : Z;
  address_range : Z;
  fde_instr_offset_in_eh_frame : Z;
  fde_instr_len : Z;
  fde_lsda : Z;
}.

Record FdeParseConfig : Type := mkFdeParseConfig {
  cfg_fde_encoding : Z;
  cfg_lsda_encoding : Z;
  cfg_has_z : bool;
  text_base : Z;
  data_base : Z;
}.

(** The mutable locals of the augmentation loop of [parse_cie]. *)
Record AugState : Type := mkAugState {
  aug_fde_encoding : Z;
  aug_lsda_encoding : Z;
  aug_personality : Z;
  aug_signal_frame : bool;
}.

(** [bytes.iter().position(|&b| b == 0)]. *)
Fixpoint position_nul (bs : list Z) : option Z :=
  match bs with
  | [] => None
  | b :: bs' => if b =? 0 then Some 0 else (λ i, 1 + i) <$> position_nul bs'
  end.

Section ops.
Context `{Profile}.

Definition read_u8 : CM Z :=
  self ← sm_get;
  match slice_get_at (bytes self) (pos self) with
  | None =>
      needed ← sm_lift (usize_add (pos self) 1);
      sm_err (mkDwarfParseError (pos self) (Truncated needed (len (bytes self))))
  | Some v =>
      p ← sm_lift (usize_add (pos self) 1);
      _ ← sm_modify (set_pos p);
      mret v
  end.

(** The common body of [read_u16], [read_u32] and [read_u64]: an [n]-byte
    little-endian read. *)
Definition read_le (n : Z) : CM Z :=
  self ← sm_get;
  e ← sm_lift (usize_add (pos self) n);
  match slice_get (bytes self) (pos self) e with
  | None => sm_err (mkDwarfParseError (pos self) (Truncated e (len (bytes self))))
  | Some slice => _ ← sm_modify (set_pos e); mret (le_decode slice)
  end.

Definition read_u16 : CM Z := read_le 2.
Definition read_u32 : CM Z := read_le 4.
Definition read_u64 : CM Z := read_le 8.

(** The loops run at most ten times: [shift] grows by 7 and is checked
    against 64 before the next iteration. *)
Fixpoint uleb128_loop (fuel : nat) (result shift : Z) : CM Z :=
  match fuel with
  | O => sm_lift NoFuel
  | S fuel' =>
      byte ← read_u8;
      let result := Z.lor result (wrap 64 (Z.shiftl (Z.land byte 0x7f) shift)) in
      if Z.land byte 0x80 =? 0 then mret result
      else
        let shift := shift + 7 in
        if 64 <=? shift then
          self ← sm_get; sm_err (mkDwarfParseError (pos self) Leb128Overflow)
        else uleb128_loop fuel' result shift
  end.
Definition read_uleb128 : CM Z := uleb128_loop 10 0 0.

(** [result] is the [i64], a signed [Z]; [<<] keeps the low 64 bits. *)
Fixpoint sleb128_loop (fuel : nat) (result shift : Z) : CM Z :=
  match fuel with
  | O => sm_lift NoFuel
  | S fuel' =>
      byte ← read_u8;
      let result :=
        Z.lor result (as_signed 64 (wrap 64 (Z.shiftl (Z.land byte 0x7f) shift))) in
      let shift := shift + 7 in
      if Z.land byte 0x80 =? 0 then
        mret (if (shift <? 64) && negb (Z.land byte 0x40 =? 0)
              then Z.lor result (as_signed 64 (wrap 64 (Z.shiftl (-1) shift)))
              else result)
      else if 64 <=? shift then
        self ← sm_get; sm_err (mkDwarfParseError (pos self) Leb128Overflow)
      else sleb128_loop fuel' result shift
  end.
Definition read_sleb128 : CM Z := sleb128_loop 10 0 0.

(** [match direct_enc & DW_EH_PE_FORMAT_MASK]: the raw value. *)
Definition read_raw (format enc : Z) : CM Z :=
  if format =? DW_EH_PE_ABSPTR then read_u64
  else if format =? DW_EH_PE_UDATA2 then read_u16
  else if format =? DW_EH_PE_UDATA4 then read_u32
  else if format =? DW_EH_PE_UDATA8 then read_u64
  else if format =? DW_EH_PE_SDATA2 then v ← read_u16; mret (as_u64 (as_signed 16 v))
  else if format =? DW_EH_PE_SDATA4 then v ← read_u32; mret (as_u64 (as_signed 32 v))
  else if format =? DW_EH_PE_SDATA8 then v ← read_u64; mret (as_u64 (as_signed 64 v))
  else if format =? DW_EH_PE_ULEB128 then read_uleb128
  else if format =? DW_EH_PE_SLEB128 then v ← read_sleb128; mret (as_u64 v)
  else self ← sm_get; sm_err (mkDwarfParseError (pos self) (UnsupportedPointerEncoding enc)).

(** [match direct_enc & DW_EH_PE_APP_MASK]: the resolved address. *)
Definition apply_base (app enc raw pcrel_base text_base data_base func_base : Z) : CM Z :=
  if app =? 0 then mret raw
  else if app =? DW_EH_PE_PCREL then mret (wrapping_add raw pcrel_base)
  else if app =? DW_EH_PE_TEXTREL then mret (wrapping_add raw text_base)
  else if app =? DW_EH_PE_DATAREL then mret (wrapping_add raw data_base)
  else if app =? DW_EH_PE_FUNCREL then mret (wrapping_add raw func_base)
  else if app =? DW_EH_PE_ALIGNED then
    self ← sm_get; sm_err (mkDwarfParseError (pos self) (UnsupportedPointerApplication enc))
  else self ← sm_get; sm_err (mkDwarfParseError (pos self) (UnsupportedPointerApplication enc)).

Definition read_encoded_impl (enc text_base data_base func_base : Z)
    (allow_indirect_without_deref : bool) : CM Z :=
  self ← sm_get;
  if enc =? DW_EH_PE_OMIT then
    sm_err (mkDwarfParseError (pos self) OmittedPointerEncoding)
  else
    let is_indirect := negb (Z.land enc DW_EH_PE_INDIRECT =? 0) in
    if is_indirect && negb allow_indirect_without_deref then
      sm_err (mkDwarfParseError (pos self) (IndirectPointerRequiresDereference enc))
    else
      let direct_enc := Z.land enc (Z.lxor 0xff DW_EH_PE_INDIRECT) in
      let pcrel_base := current_avma self in
      raw ← read_raw (Z.land direct_enc DW_EH_PE_FORMAT_MASK) enc;
      if is_indirect then mret 0
      else if raw =? 0 then mret 0
      else
        apply_base (Z.land direct_enc DW_EH_PE_APP_MASK) enc raw
          pcrel_base text_base data_base func_base.

Definition read_encoded (enc text_base data_base func_base : Z) : CM Z :=
  read_encoded_impl enc text_base data_base func_base false.
Definition read_encoded_personality (enc text_base data_base func_base : Z) : CM Z :=
  read_encoded_impl enc text_base data_base func_base true.

(** The length prefix both parsers start with: is the entry 64-bit, and
    where does it end. *)
Definition read_entry_length : CM (bool * Z) :=
  len32 ← read_u32;
  let is_dwarf64 := len32 =? 0xffffffff in
  entry_len ←
    (if is_dwarf64 then
       l ← read_u64;
       c ← sm_get;
       sm_lift (ok_or (usize_try_from l) (mkDwarfParseError (pos c) EntryLengthOverflow))
     else mret len32);
  c ← sm_get;
  entry_end ← sm_lift (ok_or (checked_add (pos c) entry_len)
                             (mkDwarfParseError (pos c) EntryLengthOverflow));
  mret (is_dwarf64, entry_end).

(** The CIE id of a CIE, the CIE pointer of an FDE. *)
Definition read_entry_id (is_dwarf64 : bool) : CM Z :=
  if is_dwarf64 then read_u64 else read_u32.

(** The NUL-terminated augmentation string, and the position after it. *)
Definition read_augmentation_string : CM (list Z) :=
  c ← sm_get;
  let aug_start := pos c in
  tail ← sm_lift (slice_from (bytes c) aug_start);
  rel ← sm_lift (ok_or (position_nul tail)
                       (mkDwarfParseError aug_start UnterminatedAugmentationString));
  aug_end ← sm_lift (usize_add aug_start rel);
  aug ← sm_lift (slice_range (bytes c) aug_start aug_end);
  p ← sm_lift (usize_add aug_end 1);
  _ ← sm_modify (set_pos p);
  mret aug.

(** One iteration of [for &ch in &aug[1..]]. *)
Definition aug_step (st : AugState) (ch : Z) : CM AugState :=
  if ch =? 82 (* R *) then
    e ← read_u8;
    mret (mkAugState e (aug_lsda_encoding st) (aug_personality st) (aug_signal_frame st))
  else if ch =? 76 (* L *) then
    e ← read_u8;
    mret (mkAugState (aug_fde_encoding st) e (aug_personality st) (aug_signal_frame st))
  else if ch =? 80 (* P *) then
    personality_encoding ← read_u8;
    p ← read_encoded_personality personality_encoding 0 0 0;
    mret (mkAugState (aug_fde_encoding st) (aug_lsda_encoding st) p (aug_signal_frame st))
  else if ch =? 83 (* S *) then
    mret (mkAugState (aug_fde_encoding st) (aug_lsda_encoding st) (aug_personality st) true)
  else if (ch =? 66 (* B *)) || (ch =? 71 (* G *)) then mret st
  else
    c ← sm_get; sm_err (mkDwarfParseError (pos c) (UnsupportedAugmentation ch)).

Fixpoint aug_loop (aug : list Z) (st : AugState) : CM AugState :=
  match aug with
  | [] => mret st
  | ch :: aug' => st ← aug_step st ch; aug_loop aug' st
  end.

Definition aug_init : AugState := mkAugState DW_EH_PE_ABSPTR DW_EH_PE_OMIT 0 false.

(** The [if !aug.is_empty() && aug[0] == b'z' ... else ...] block. *)
Definition read_augmentation (aug_start : Z) (aug : list Z) : CM (bool * AugState) :=
  match aug with
  | ch :: aug' =>
      if ch =? 122 (* z *) then
        _aug_data_len ← read_uleb128;
        st ← aug_loop aug' aug_init;
        mret (true, st)
      else sm_err (mkDwarfParseError aug_start UnsupportedNonZAugmentation)
  | [] => mret (false, aug_init)
  end.

(** The end of both parsers: the instructions run from the cursor to the end
    of the entry, which must lie in the section. *)
Definition instr_range (entry_end : Z) : CM (Z * Z) :=
  c ← sm_get;
  let instr_offset := pos c in
  if len (bytes c) <? entry_end then
    sm_err (mkDwarfParseError (pos c) (Truncated entry_end (len (bytes c))))
  else
    instr_len ← sm_lift (usize_sub entry_end instr_offset);
    mret (instr_offset, instr_len).

Definition check_version (version : Z) : CM () :=
  if negb (version =? 1) && negb (version =? 3) && negb (version =? 4) then
    c ← sm_get;
    sm_err (mkDwarfParseError (saturating_sub (pos c) 1) (UnsupportedCieVersion version))
  else mret ().

Definition check_address_size (version : Z) : CM () :=
  if version =? 4 then
    address_size ← read_u8;
    segment_size ← read_u8;
    if negb (address_size =? 8) || negb (segment_size =? 0) then
      c ← sm_get;
      sm_err (mkDwarfParseError (saturating_sub (pos c) 2)
                (UnsupportedCieAddressSize address_size segment_size))
    else mret ()
  else mret ().

(** The body of [parse_cie] after the cursor is created. *)
Definition parse_cie_body : CM ParsedCie :=
  '(is_dwarf64, entry_end) ← read_entry_length;
  c ← sm_get;
  let cie_id_pos := pos c in
  cie_id ← read_entry_id is_dwarf64;
  if negb (cie_id =? 0) then sm_err (mkDwarfParseError cie_id_pos (BadCieId cie_id))
  else
    version ← read_u8;
    _ ← check_version version;
    c ← sm_get;
    let aug_start := pos c in
    aug ← read_augmentation_string;
    _ ← check_address_size version;
    code_align ← read_uleb128;
    data_align ← read_sleb128;
    ret_addr_column ← (if version =? 1 then read_u8 else read_uleb128);
    '(has_z, st) ← read_augmentation aug_start aug;
    '(instr_offset, instr_len) ← instr_range entry_end;
    mret (mkParsedCie code_align data_align ret_addr_column
            (aug_fde_encoding st) (aug_lsda_encoding st) (aug_personality st)
            has_z (aug_signal_frame st) instr_offset instr_len).

Definition parse_cie (eh_frame_bytes : list Z) (cie_offset eh_frame_avma_base : Z)
    : outcome DwarfParseError ParsedCie :=
  (parse_cie_body (mkCursor eh_frame_bytes cie_offset eh_frame_avma_base)).1.

(** The [if config.has_z] block of [parse_fde]: the FDE augmentation data,
    which ends inside the entry. *)
Definition read_fde_augmentation (config : FdeParseConfig) (entry_end initial_pc : Z) : CM Z :=
  if cfg_has_z config then
    l ← read_uleb128;
    c ← sm_get;
    aug_data_len ← sm_lift (ok_or (usize_try_from l)
                                  (mkDwarfParseError (pos c) EntryLengthOverflow));
    let aug_data_start := pos c in
    aug_data_end ← sm_lift (ok_or (checked_add aug_data_start aug_data_len)
                                  (mkDwarfParseError aug_data_start EntryLengthOverflow));
    if entry_end <? aug_data_end then
      sm_err (mkDwarfParseError aug_data_start (Truncated aug_data_end entry_end))
    else
      lsda ←
        (if negb (cfg_lsda_encoding config =? DW_EH_PE_OMIT) then
           read_encoded (cfg_lsda_encoding config) (text_base config) (data_base config)
             initial_pc
         else mret 0);
      c ← sm_get;
      if aug_data_end <? pos c then
        sm_err (mkDwarfParseError aug_data_start (Truncated (pos c) aug_data_end))
      else
        _ ← sm_modify (set_pos aug_data_end);
        mret lsda
  else mret 0.

(** The body of [parse_fde] after the cursor is created. *)
Definition parse_fde_body (config : FdeParseConfig) : CM ParsedFde :=
  '(is_dwarf64, entry_end) ← read_entry_length;
  c ← sm_get;
  let cie_ptr_pos := pos c in
  cie_ptr ← read_entry_id is_dwarf64;
  if cie_ptr =? 0 then sm_err (mkDwarfParseError cie_ptr_pos FdeCiePointerIsZero)
  else
    initial_pc ← read_encoded (cfg_fde_encoding config) (text_base config) (data_base config) 0;
    let range_enc := Z.land (cfg_fde_encoding config) DW_EH_PE_FORMAT_MASK in
    address_range ← read_encoded range_enc 0 0 0;
    lsda ← read_fde_augmentation config entry_end initial_pc;
    '(instr_offset, instr_len) ← instr_range entry_end;
    mret (mkParsedFde initial_pc address_range instr_offset instr_len lsda).

Definition parse_fde (eh_frame_bytes : list Z) (fde_offset eh_frame_avma_base : Z)
    (config : FdeParseConfig) : outcome DwarfParseError ParsedFde :=
  (parse_fde_body config (mkCursor eh_frame_bytes fde_offset eh_frame_avma_base)).1.

Definition build_dwarf_cie_info (cie : ParsedCie) (fde : ParsedFde) (eh_frame_avma_base : Z)
    : DwarfCieInfo :=
  let cie_instr_start := wrapping_add eh_frame_avma_base (cie_instr_offset_in_eh_frame cie) in
  let cie_instr_end := wrapping_add cie_instr_start (cie_instr_len cie) in
  let fde_instr_start := wrapping_add eh_frame_avma_base (fde_instr_offset_in_eh_frame fde) in
  let fde_instr_end := wrapping_add fde_instr_start (fde_instr_len fde) in
  let flags := 0 in
  let flags := if has_z cie then Z.lor flags FLAG_SIZED_AUGMENTATION else flags in
  let flags := if signal_frame cie then Z.lor flags FLAG_SIGNAL_FRAME else flags in
  mkDwarfCieInfo cie_instr_start cie_instr_end fde_instr_start fde_instr_end
    (code_align cie) (as_u64 (data_align cie)) (ret_addr_column cie) (personality cie)
    0 0 (fde_encoding cie) (lsda_encoding cie) flags.
End ops.
