(* ===== verification/DwarfSafety.v ===== *)
(** * Safety of the CIE/FDE parser

    For arbitrary bytes, every reading method returns a [Result], stays inside
    the slice and yields values of its machine type; [parse_fde] of a sized
    augmentation never panics and its instruction range lies in the entry;
    [parse_cie] reads its header without a panic, which leaves the subtraction
    that computes the instruction length ([DwarfGrammar] says when that panics). *)

From S2P Require Import Prelude.
From S2P Require Import Errors.
From S2P Require Import Ffi.
From S2P Require Import Dwarf.

(** ** Bit-level bounds *)
Lemma is_u_shiftr w z : 0 ≤ w → is_u w z ↔ Z.shiftr z w = 0.
Proof.
  intros Hw. unfold is_u. rewrite Z.shiftr_div_pow2 by lia.
  pose proof (Z.pow_pos_nonneg 2 w). pose proof (Z.div_mod z (2 ^ w)).
  pose proof (Z.mod_pos_bound z (2 ^ w)). split.
  - intros. by apply Z.div_small.
  - intros Hz. rewrite Hz in *. lia.
Qed.

Lemma lor_u w a b : 0 ≤ w → is_u w a → is_u w b → is_u w (Z.lor a b).
Proof. intros Hw. rewrite !is_u_shiftr, Z.shiftr_lor by done. by intros -> ->. Qed.

Definition is_i64 (z : Z) : Prop := - 2 ^ 63 ≤ z < 2 ^ 63.

Lemma is_i64_shiftr z : is_i64 z ↔ Z.shiftr z 63 = 0 ∨ Z.shiftr z 63 = -1.
Proof.
  unfold is_i64. rewrite Z.shiftr_div_pow2 by lia.
  pose proof (Z.div_mod z (2 ^ 63)). pose proof (Z.mod_pos_bound z (2 ^ 63)). lia.
Qed.

Lemma lor_i64 a b : is_i64 a → is_i64 b → is_i64 (Z.lor a b).
Proof.
  rewrite !is_i64_shiftr, Z.shiftr_lor. intros [->| ->] [->| ->]; auto.
Qed.

Lemma as_signed_i64 z : is_i64 (as_signed 64 (wrap 64 z)).
Proof.
  pose proof (wrap_bounds 64 z). unfold is_u, as_signed, is_i64 in *.
  case_match; zify_bools; lia.
Qed.

(** ** Cursor invariant

    The cursor still reads the given slice, and its position is between [p]
    and the end of it. *)
Definition cursor_at (bs : list Z) (base p : Z) (c : Cursor) : Prop :=
  bytes c = bs ∧ avma_base c = base ∧ p ≤ pos c ≤ len bs.

Section safety.
Context `{Profile} {pan : Prop} (bs : list Z) (base : Z) (Hbs : bytes_ok bs).
Local Abbreviation at_ := (cursor_at bs base).

Lemma bs_len : len bs ≤ isize_max.
Proof. apply Hbs. Qed.

Lemma read_u8_total p :
  0 ≤ p → total pan (at_ p) read_u8 (λ v c, is_u8 v ∧ at_ (p + 1) c).
Proof.
  intros Hp. apply total_get. intros c (Hb & Hbase & Hpos). rewrite Hb.
  pose proof bs_len. unfold isize_max in *.
  destruct (slice_get_at bs (pos c)) as [v|] eqn:Hv;
    (eapply total_lift_ok; [apply usize_add_ok; unfold usize_max; lia|]).
  - apply (slice_get_at_forall is_u8) in Hv as [? ?]; [|apply Hbs].
    intros ? ->. split; [done|]. unfold cursor_at. simpl. split_and!; try done; lia.
  - apply total_err.
Qed.

Lemma read_le_total n p :
  0 ≤ p → 0 < n ≤ 8 →
  total pan (at_ p) (read_le n) (λ v c, is_u (8 * n) v ∧ at_ (p + n) c).
Proof.
  intros Hp Hn. apply total_get. intros c (Hb & Hbase & Hpos). rewrite Hb.
  pose proof bs_len. unfold isize_max in *.
  eapply total_lift_ok; [apply usize_add_ok; unfold usize_max; lia|].
  destruct (slice_get bs (pos c) (pos c + n)) as [l|] eqn:Hl; [|apply total_err].
  intros ? ->. destruct (slice_get_len bs (pos c) (pos c + n) l) as [? Hlen]; [lia|done|].
  apply (slice_get_forall is_u8) in Hl; [|apply Hbs].
  apply le_decode_bounds in Hl. rewrite Hlen in Hl.
  replace (pos c + n - pos c) with n in Hl by lia.
  split; [done|]. unfold cursor_at. simpl. split_and!; try done; lia.
Qed.

Lemma uleb128_loop_total fuel result shift p :
  0 ≤ p → is_u64 result → 0 ≤ shift < 64 → 64 ≤ shift + 7 * Z.of_nat fuel →
  total pan (at_ p) (uleb128_loop fuel result shift) (λ v c, is_u64 v ∧ at_ (p + 1) c).
Proof.
  revert result shift p. induction fuel as [|fuel IH]; intros result shift p Hp Hr Hs Hf;
    [lia|].
  eapply total_bind; [by apply read_u8_total|]. intros byte. cbv zeta.
  set (r := Z.lor result _).
  assert (is_u64 r) by (apply lor_u; [lia|done|by apply wrap_bounds]).
  apply total_pure. intros Hbyte. case_match.
  { by apply total_ret. }
  case_match; zify_bools.
  { apply total_get. intros. apply total_err. }
  eapply total_conseq; [apply (IH _ _ (p + 1))|done|]; [lia|done|lia|lia|].
  intros ? ? [? (?&?&?)]. split; [done|]. split_and!; [done..|lia|lia].
Qed.

Lemma read_uleb128_total p :
  0 ≤ p → total pan (at_ p) read_uleb128 (λ v c, is_u64 v ∧ at_ (p + 1) c).
Proof. intros. apply uleb128_loop_total; unfold is_u; lia. Qed.

Lemma sleb128_loop_total fuel result shift p :
  0 ≤ p → is_i64 result → 0 ≤ shift < 64 → 64 ≤ shift + 7 * Z.of_nat fuel →
  total pan (at_ p) (sleb128_loop fuel result shift) (λ v c, is_i64 v ∧ at_ (p + 1) c).
Proof.
  revert result shift p. induction fuel as [|fuel IH]; intros result shift p Hp Hr Hs Hf;
    [lia|].
  eapply total_bind; [by apply read_u8_total|]. intros byte. cbv zeta.
  set (r := Z.lor result _).
  assert (is_i64 r) by (apply lor_i64; [done|apply as_signed_i64]).
  apply total_pure. intros Hbyte. case_match.
  { apply total_ret. intros s Hs'. split; [|done].
    case_match; [|done]. apply lor_i64; [done|apply as_signed_i64]. }
  case_match; zify_bools.
  { apply total_get. intros. apply total_err. }
  eapply total_conseq; [apply (IH _ _ (p + 1))|done|]; [lia|done|lia|lia|].
  intros ? ? [? (?&?&?)]. split; [done|]. split_and!; [done..|lia|lia].
Qed.

Lemma read_sleb128_total p :
  0 ≤ p → total pan (at_ p) read_sleb128 (λ v c, is_i64 v ∧ at_ (p + 1) c).
Proof. intros. apply sleb128_loop_total; unfold is_i64; lia. Qed.

(** The raw value of an encoded pointer, format by format. *)
Lemma cursor_at_weaken p q c : q ≤ p → at_ p c → at_ q c.
Proof. intros ? (?&?&?). split_and!; [done..|lia|lia]. Qed.

Lemma total_at_weaken {A} (m : CM A) p q (R : A → Prop) :
  q ≤ p → total pan (at_ q) m (λ v c, R v ∧ at_ p c) →
  total pan (at_ q) m (λ v c, R v ∧ at_ q c).
Proof.
  intros. eapply total_conseq; [done|done|]. intros ? ? [? ?].
  split; [done|]. by eapply cursor_at_weaken.
Qed.

Lemma read_le_u64 n p :
  0 ≤ p → 0 < n ≤ 8 →
  total pan (at_ p) (read_le n) (λ v c, is_u64 v ∧ at_ p c).
Proof.
  intros Hp Hn. eapply total_conseq; [by apply read_le_total|done|].
  intros v c [[? Hv] Hc]. split; [|by eapply cursor_at_weaken; [|done]; lia].
  split; [done|]. eapply Z.lt_le_trans; [done|]. apply Z.pow_le_mono_r; lia.
Qed.

Lemma read_le_signed n w p :
  0 ≤ p → 0 < n ≤ 8 →
  total pan (at_ p) (v ← read_le n; mret (as_u64 (as_signed w v)))
    (λ v c, is_u64 v ∧ at_ p c).
Proof.
  intros Hp Hn. eapply total_bind; [by apply read_le_u64|]. intros v.
  apply total_ret. intros s [? ?]. split; [by apply wrap_bounds|done].
Qed.

Lemma read_raw_total format enc p :
  0 ≤ p → total pan (at_ p) (read_raw format enc) (λ v c, is_u64 v ∧ at_ p c).
Proof.
  intros Hp. unfold read_raw.
  repeat case_match; try apply read_le_u64; try apply read_le_signed; try lia.
  - eapply total_at_weaken; [|by apply read_uleb128_total]. lia.
  - eapply total_bind; [by apply read_sleb128_total|]. intros v.
    apply total_ret. intros s [? ?]. split; [by apply wrap_bounds|].
    eapply cursor_at_weaken; [|done]. lia.
  - apply total_get. intros. apply total_err.
Qed.

Lemma apply_base_total app enc raw b0 b1 b2 b3 p :
  is_u64 raw →
  total pan (at_ p) (apply_base app enc raw b0 b1 b2 b3) (λ v c, is_u64 v ∧ at_ p c).
Proof.
  intros Hraw. unfold apply_base.
  repeat case_match; try (apply total_get; intros; apply total_err);
    apply total_ret; intros; split; try done; by apply wrap_bounds.
Qed.

Lemma read_encoded_impl_total enc tb db fb allow p :
  0 ≤ p → total pan (at_ p) (read_encoded_impl enc tb db fb allow)
                (λ v c, is_u64 v ∧ at_ p c).
Proof.
  intros Hp. apply total_get. intros c Hc.
  apply (total_pre _ (at_ p)); [|by intros ? ->].
  case_match; [apply total_err|]. cbv zeta. case_match; [apply total_err|].
  eapply total_bind; [by apply read_raw_total|].
  intros raw. apply total_pure. intros Hraw.
  case_match; [apply total_ret; intros; split; [|done]; unfold is_u; lia|].
  case_match; [apply total_ret; intros; split; [|done]; unfold is_u; lia|].
  by apply apply_base_total.
Qed.

(** Where the entry that starts at [off] ends, read off the length field. *)
Definition entry_end_at (off : Z) : Z :=
  let len32 := le_decode (take 4 (drop (Z.to_nat off) bs)) in
  if len32 =? 0xffffffff
  then off + 12 + le_decode (take 8 (drop (Z.to_nat (off + 4)) bs))
  else off + 4 + len32.

Lemma read_le_value n c :
  0 ≤ pos c ≤ len bs → 0 ≤ n ≤ 8 → bytes c = bs →
  read_le n c =
    if pos c + n <=? len bs
    then (Ok (le_decode (take (Z.to_nat n) (drop (Z.to_nat (pos c)) bs))), set_pos (pos c + n) c)
    else (Err (mkDwarfParseError (pos c) (Truncated (pos c + n) (len bs))), c).
Proof.
  intros Hp Hn Hb. pose proof bs_len. unfold isize_max in *.
  unfold read_le, sm_get, sm_lift, mbind, sm_bind.
  rewrite usize_add_ok by (unfold usize_max; lia).
  rewrite Hb. unfold slice_get. destruct (Z.leb_spec (pos c) (pos c + n)); [|lia].
  simpl. destruct (Z.leb_spec (pos c + n) (len bs)); simpl; [|done].
  by replace (pos c + n - pos c) with n by lia.
Qed.

Lemma read_entry_length_total off :
  0 ≤ off ≤ len bs →
  total pan (λ c, c = mkCursor bs off base) read_entry_length
    (λ r c, r.2 = entry_end_at off ∧ r.2 ≤ usize_max ∧ at_ (off + 4) c).
Proof.
  intros Hoff. unfold read_entry_length. pose proof bs_len. unfold isize_max in *.
  intros ? ->. unfold mbind, sm_bind, read_u32, read_u64.
  rewrite read_le_value by (simpl; first [done | lia]). simpl.
  destruct (Z.leb_spec (off + 4) (len bs)); [|done].
  unfold entry_end_at. change (Z.to_nat 4) with 4%nat.
  destruct (le_decode _ =? 0xffffffff).
  - rewrite read_le_value by (simpl; first [done | lia]). simpl.
    destruct (Z.leb_spec (off + 4 + 8) (len bs)); [|done].
    unfold sm_get, sm_lift. change (Z.to_nat 8) with 8%nat.
    destruct (usize_try_from _) eqn:Hu; simpl; [|done].
    unfold usize_try_from in Hu. case_match; [|done]. simplify_eq.
    destruct (checked_add _ _) eqn:Hc; simpl; [|done].
    apply checked_add_some in Hc as [-> ?]. unfold set_pos. simpl.
    split_and!; [lia|unfold u64_max, usize_max in *; lia|].
    unfold cursor_at. simpl. split_and!; [done..|lia|lia].
  - unfold sm_get, sm_lift. simpl.
    destruct (checked_add _ _) eqn:Hc; simpl; [|done].
    apply checked_add_some in Hc as [-> ?].
    split_and!; [lia|unfold u64_max, usize_max in *; lia|].
    unfold cursor_at. simpl. split_and!; [done..|lia|lia].
Qed.

Lemma read_entry_id_total d p :
  0 ≤ p → total pan (at_ p) (read_entry_id d) (λ v c, is_u64 v ∧ at_ p c).
Proof. intros. destruct d; by apply read_le_u64. Qed.

Lemma position_nul_bounds l i : position_nul l = Some i → 0 ≤ i < len l.
Proof.
  revert i. induction l as [|b l IH]; intros i; simpl; [done|].
  rewrite len_cons. pose proof (len_nonneg l). case_match; [naive_solver lia|].
  destruct (position_nul l) as [j|]; simpl; [|done]. intros [= <-].
  specialize (IH j eq_refl). lia.
Qed.

(** The slice accesses of the augmentation string cannot panic: the NUL
    found lies in the section. *)
Lemma read_augmentation_string_total p :
  0 ≤ p → total pan (at_ p) read_augmentation_string (λ _ c, at_ p c).
Proof.
  intros Hp. apply total_get. intros c (Hb & Hbase & Hpos). rewrite Hb. cbv zeta.
  pose proof bs_len. unfold isize_max in *.
  eapply total_lift_ok.
  { unfold slice_from. destruct (Z.leb_spec (pos c) (len bs)); [done|lia]. }
  apply total_lift_opt. intros rel Hrel. apply position_nul_bounds in Hrel.
  assert (pos c + rel < len bs) as Hend.
  { unfold len in *. rewrite length_drop in Hrel. lia. }
  eapply total_lift_ok; [apply usize_add_ok; unfold usize_max; lia|].
  destruct (slice_get_some bs (pos c) (pos c + rel)) as [aug Haug]; [lia|].
  eapply total_lift_ok; [unfold slice_range; by rewrite Haug|].
  eapply total_lift_ok; [apply usize_add_ok; unfold usize_max; lia|].
  intros ? ->. unfold cursor_at. simpl. split_and!; [done..|lia|lia].
Qed.

Definition aug_ok (st : AugState) : Prop :=
  is_u8 (aug_fde_encoding st) ∧ is_u8 (aug_lsda_encoding st) ∧ is_u64 (aug_personality st).

Lemma aug_step_total st ch p :
  0 ≤ p → aug_ok st →
  total pan (at_ p) (aug_step st ch) (λ st' c, aug_ok st' ∧ at_ p c).
Proof.
  intros Hp (?&?&?). unfold aug_step.
  repeat case_match;
    try (eapply total_bind; [by apply read_u8_total|]; intros v;
         apply total_pure; intros Hv).
  - apply total_ret. intros s Hs. split; [done|]. eapply cursor_at_weaken; [|done]. lia.
  - apply total_ret. intros s Hs. split; [done|]. eapply cursor_at_weaken; [|done]. lia.
  - eapply total_bind; [apply (read_encoded_impl_total _ _ _ _ _ (p + 1)); lia|].
    intros q. apply total_pure. intros Hq. apply total_ret. intros s Hs. split; [done|].
    eapply cursor_at_weaken; [|done]. lia.
  - by apply total_ret.
  - by apply total_ret.
  - apply total_get. intros. apply total_err.
Qed.

Lemma aug_loop_total aug st p :
  0 ≤ p → aug_ok st →
  total pan (at_ p) (aug_loop aug st) (λ st' c, aug_ok st' ∧ at_ p c).
Proof.
  intros Hp. revert st. induction aug as [|ch aug IH]; intros st Hst; simpl.
  - by apply total_ret.
  - eapply total_bind; [by apply aug_step_total|]. intros st'.
    apply total_pure. apply IH.
Qed.

Lemma read_augmentation_total start aug p :
  0 ≤ p →
  total pan (at_ p) (read_augmentation start aug) (λ r c, aug_ok r.2 ∧ at_ p c).
Proof.
  intros Hp. assert (aug_ok aug_init) by done.
  unfold read_augmentation. destruct aug as [|ch aug]; [by apply total_ret|].
  case_match; [|apply total_err].
  eapply total_bind; [by apply read_uleb128_total|]. intros l. apply total_pure. intros _.
  eapply total_bind; [apply (aug_loop_total _ _ (p + 1)); [lia|done]|].
  intros st. apply total_ret. intros s [? ?]. split; [done|].
  eapply cursor_at_weaken; [|done]. lia.
Qed.

Lemma check_version_total v p : total pan (at_ p) (check_version v) (λ _ c, at_ p c).
Proof.
  unfold check_version. case_match; [|by apply total_ret].
  apply total_get. intros. apply total_err.
Qed.

Lemma check_address_size_total v p :
  0 ≤ p → total pan (at_ p) (check_address_size v) (λ _ c, at_ p c).
Proof.
  intros Hp. unfold check_address_size. case_match; [|by apply total_ret].
  eapply total_bind; [by apply read_u8_total|]. intros a. apply total_pure. intros _.
  eapply total_bind; [apply (read_u8_total (p + 1)); lia|]. intros b. apply total_pure. intros _.
  case_match; [apply total_get; intros; apply total_err|].
  apply total_ret. intros. eapply cursor_at_weaken; [|done]. lia.
Qed.
End safety.

(** ** The two parsers *)
Section parsers.
Context `{Profile} (bs : list Z) (base : Z) (Hbs : bytes_ok bs).
Local Abbreviation at_ := (cursor_at bs base).

(** The instruction range of an entry that ends at [e]: either the header
    ends inside the entry and the range is exactly the rest of it, or the
    header overran the entry and, without overflow checks, the length
    wrapped around. *)
Definition range_of_entry (e o l : Z) : Prop :=
  (o ≤ e ∧ o + l = e ∧ e ≤ len bs) ∨
  (overflow_checks = false ∧ e < o ∧ l = wrap 64 (e - o)).

Lemma instr_range_total e p :
  0 ≤ p → e ≤ usize_max →
  total (overflow_checks = true) (at_ p) (instr_range e)
    (λ r c, range_of_entry e r.1 r.2 ∧ p ≤ r.1 ≤ len bs).
Proof.
  intros Hp He. apply total_get. intros c (Hb & Hbase & Hpos). rewrite Hb. cbv zeta.
  destruct (Z.ltb_spec (len bs) e); [apply total_err|].
  unfold usize_sub. destruct (Z.leb_spec (pos c) e).
  - eapply total_lift_ok; [done|]. apply total_ret. intros ? _. simpl.
    unfold range_of_entry. split; [left; lia|lia].
  - intros ? ->. destruct overflow_checks eqn:Ho; simpl; [done|].
    split; [|lia]. right. split_and!; [done|lia|done].
Qed.

(** Without an overrun no panic is possible. *)
Lemma instr_range_inside pan e o :
  0 ≤ o ≤ e →
  total pan (λ c, bytes c = bs ∧ pos c = o) (instr_range e)
    (λ r c, r = (o, e - o) ∧ e ≤ len bs).
Proof.
  intros Ho. apply total_get. intros c (Hb & <-). rewrite Hb. cbv zeta.
  destruct (Z.ltb_spec (len bs) e); [apply total_err|].
  eapply total_lift_ok; [apply usize_sub_ok; lia|]. by apply total_ret.
Qed.

Definition cie_ok (off : Z) (cie : ParsedCie) : Prop :=
  is_u64 (code_align cie) ∧ is_i64 (data_align cie) ∧ is_u64 (ret_addr_column cie) ∧
  is_u8 (fde_encoding cie) ∧ is_u8 (lsda_encoding cie) ∧ is_u64 (personality cie) ∧
  off + 4 ≤ cie_instr_offset_in_eh_frame cie ≤ len bs ∧
  range_of_entry (entry_end_at bs off) (cie_instr_offset_in_eh_frame cie) (cie_instr_len cie).

(** [parse_cie_body] after the length of the entry, in two parts: the header, which
    is read into a record but for the range of the instructions, and the range. *)
Definition cie_header {A} (d64 : bool) (tail : (Z → Z → ParsedCie) → CM A) : CM A :=
  c ← sm_get;
  let cie_id_pos := pos c in
  cie_id ← read_entry_id d64;
  if negb (cie_id =? 0) then sm_err (mkDwarfParseError cie_id_pos (BadCieId cie_id))
  else
    version ← read_u8;
    _ ← check_version version;
    c ← sm_get;
    let aug_start := pos c in
    aug ← read_augmentation_string;
    _ ← check_address_size version;
    code_align ← read_uleb128;
    data_align ← read_sleb128;
    ret_addr_column ← (if version =? 1 then read_u8 else read_uleb128);
    '(has_z, st) ← read_augmentation aug_start aug;
    tail (mkParsedCie code_align data_align ret_addr_column
            (aug_fde_encoding st) (aug_lsda_encoding st) (aug_personality st)
            has_z (aug_signal_frame st)).

Definition instructions {A} (e : Z) (k : Z → Z → A) : CM A :=
  '(instr_offset, instr_len) ← instr_range e; mret (k instr_offset instr_len).

Lemma parse_cie_body_split :
  parse_cie_body = ('(d64, e) ← read_entry_length; cie_header d64 (instructions e)).
Proof. done. Qed.

Lemma cie_header_bind {A} d64 (tail : (Z → Z → ParsedCie) → CM A) c :
  cie_header d64 tail c = (cie_header d64 mret ≫= tail) c.
Proof.
  unfold cie_header. rewrite sm_bind_assoc. apply sm_bind_ext. intros c0 s0. cbv zeta.
  rewrite sm_bind_assoc. apply sm_bind_ext. intros id s1. destruct (negb _); [done|].
  do 8 (rewrite sm_bind_assoc; apply sm_bind_ext; intros ? ?).
  rewrite sm_bind_assoc. apply sm_bind_ext. by intros [hz st] s2.
Qed.

Definition cie_fields_ok (k : Z → Z → ParsedCie) : Prop :=
  ∀ o n, let cie := k o n in
  is_u64 (code_align cie) ∧ is_i64 (data_align cie) ∧ is_u64 (ret_addr_column cie) ∧
  is_u8 (fde_encoding cie) ∧ is_u8 (lsda_encoding cie) ∧ is_u64 (personality cie) ∧
  cie_instr_offset_in_eh_frame cie = o ∧ cie_instr_len cie = n.

(** The header is read without a panic. *)
Lemma cie_header_total pan d64 p :
  0 ≤ p → total pan (at_ p) (cie_header d64 mret) (λ k c, cie_fields_ok k ∧ at_ p c).
Proof.
  intros Hp. unfold cie_header.
  apply total_get. intros c0 Hc0. apply (total_pre _ (at_ p)); [|by intros ? ->].
  eapply total_bind; [by apply (read_entry_id_total bs base Hbs d64 p)|].
  intros id. apply total_pure. intros _. case_match; [apply total_err|].
  eapply total_bind; [by apply (read_u8_total bs base Hbs p)|].
  intros ver. apply total_pure. intros Hver.
  eapply total_bind; [apply (check_version_total bs base _ (p + 1))|]. intros ?.
  apply total_get. intros c1 Hc1. apply (total_pre _ (at_ p)).
  2: { intros ? ->. eapply cursor_at_weaken; [|done]. lia. }
  eapply total_bind; [by apply (read_augmentation_string_total bs base Hbs p)|].
  intros aug.
  eapply total_bind; [by apply (check_address_size_total bs base Hbs _ p)|]. intros ?.
  eapply total_bind; [by apply (read_uleb128_total bs base Hbs p)|].
  intros ca. apply total_pure. intros Hca.
  eapply total_bind; [apply (read_sleb128_total bs base Hbs (p + 1)); lia|].
  intros da. apply total_pure. intros Hda.
  eapply (total_bind _ _ _ (λ v c, is_u64 v ∧ at_ p c)).
  { case_match.
    - eapply total_conseq; [apply (read_u8_total bs base Hbs (p + 1 + 1)); lia|done|].
      intros v c [[? ?] ?]. split; [split; lia|]. eapply cursor_at_weaken; [|done]. lia.
    - eapply total_conseq; [apply (read_uleb128_total bs base Hbs (p + 1 + 1)); lia|done|].
      intros v c [? ?]. split; [done|]. eapply cursor_at_weaken; [|done]. lia. }
  intros rac. apply total_pure. intros Hrac.
  eapply total_bind; [by apply (read_augmentation_total bs base Hbs _ _ p)|].
  intros [z st]. simpl. apply total_pure. intros (?&?&?).
  apply total_ret. intros s Hs. split; [|done]. intros o n. by split_and!.
Qed.

Lemma parse_cie_body_total off :
  0 ≤ off ≤ len bs →
  total (overflow_checks = true) (λ c, c = mkCursor bs off base) parse_cie_body
    (λ cie _, cie_ok off cie).
Proof.
  intros Hoff. rewrite parse_cie_body_split.
  eapply total_bind; [by apply read_entry_length_total|]. intros [d e]. simpl.
  apply total_pure. intros ->. apply total_pure. intros He.
  eapply total_ext; [intros c; symmetry; apply cie_header_bind|].
  eapply total_bind; [apply (cie_header_total _ d (off + 4)); lia|]. intros k.
  apply total_pure. intros Hk.
  eapply total_bind; [apply (instr_range_total _ (off + 4)); [lia|done]|].
  intros [o l]. simpl. apply total_ret. intros s [? ?].
  destruct (Hk o l) as (? & ? & ? & ? & ? & ? & Ho & Hl). unfold cie_ok. rewrite Ho, Hl.
  split_and!; done || lia.
Qed.

(** The sized augmentation data of an FDE ends inside the entry. *)
Lemma read_fde_augmentation_total pan cfg e pc p :
  0 ≤ p → cfg_has_z cfg = true → e ≤ usize_max →
  total pan (at_ p) (read_fde_augmentation cfg e pc)
    (λ v c, is_u64 v ∧ bytes c = bs ∧ p ≤ pos c ≤ e).
Proof.
  intros Hp Hz He. unfold read_fde_augmentation. rewrite Hz.
  eapply total_bind; [by apply (read_uleb128_total bs base Hbs)|]. intros l.
  apply total_pure. intros Hl.
  apply total_get. intros c0 Hc0. apply (total_pre _ (at_ (p + 1))); [|by intros ? ->].
  destruct Hc0 as (_&_&Hc0). apply total_lift_opt. intros n Hn. cbv zeta.
  apply total_lift_opt. intros ae [-> Hae]%checked_add_some.
  assert (0 ≤ n) by (unfold usize_try_from in Hn; case_match; simplify_eq; apply Hl).
  destruct (Z.ltb_spec e (pos c0 + n)); [apply total_err|].
  eapply (total_bind _ _ _ (λ v c, is_u64 v ∧ at_ (p + 1) c)).
  { case_match.
    - apply (read_encoded_impl_total bs base Hbs). lia.
    - apply total_ret. intros s Hs. split; [unfold is_u; lia|done]. }
  intros lsda. apply total_pure. intros Hlsda.
  apply total_get. intros c1 (Hb1 & _ & Hc1).
  destruct (Z.ltb_spec (pos c0 + n) (pos c1)); [apply total_err|].
  intros ? ->. simpl. split_and!; [done|done|lia|lia].
Qed.

Definition fde_ok (off : Z) (fde : ParsedFde) : Prop :=
  is_u64 (initial_pc fde) ∧ is_u64 (address_range fde) ∧ is_u64 (fde_lsda fde) ∧
  off + 4 ≤ fde_instr_offset_in_eh_frame fde ∧ 0 ≤ fde_instr_len fde ∧
  fde_instr_offset_in_eh_frame fde + fde_instr_len fde = entry_end_at bs off ∧
  entry_end_at bs off ≤ len bs.

(** The prefix of [parse_fde] up to the augmentation data: the three words
    the FDE starts with. *)
Lemma parse_fde_head pan off cfg (Q : ParsedFde → Cursor → Prop) :
  0 ≤ off ≤ len bs →
  (∀ pc rng, is_u64 pc → is_u64 rng → entry_end_at bs off ≤ usize_max →
     total pan (at_ (off + 4))
       (lsda ← read_fde_augmentation cfg (entry_end_at bs off) pc;
        '(o, l) ← instr_range (entry_end_at bs off);
        mret (mkParsedFde pc rng o l lsda)) Q) →
  total pan (λ c, c = mkCursor bs off base) (parse_fde_body cfg) Q.
Proof.
  intros Hoff Htail. unfold parse_fde_body.
  eapply total_bind; [by apply read_entry_length_total|]. intros [d e]. simpl.
  apply total_pure. intros ->. apply total_pure. intros He.
  apply total_get. intros c0 Hc0. apply (total_pre _ (at_ (off + 4))); [|by intros ? ->].
  eapply total_bind; [apply (read_entry_id_total bs base Hbs d (off + 4)); lia|].
  intros id. apply total_pure. intros _. case_match; [apply total_err|].
  eapply total_bind; [apply (read_encoded_impl_total bs base Hbs _ _ _ _ _ (off + 4)); lia|].
  intros pc. apply total_pure. intros Hpc. cbv zeta.
  eapply total_bind; [apply (read_encoded_impl_total bs base Hbs _ _ _ _ _ (off + 4)); lia|].
  intros rng. apply total_pure. intros Hrng. by apply Htail.
Qed.

Lemma parse_fde_body_sized pan off cfg :
  0 ≤ off ≤ len bs → cfg_has_z cfg = true →
  total pan (λ c, c = mkCursor bs off base) (parse_fde_body cfg) (λ fde _, fde_ok off fde).
Proof.
  intros Hoff Hz. apply parse_fde_head; [done|]. intros pc rng Hpc Hrng He.
  eapply total_bind; [apply (read_fde_augmentation_total _ _ _ _ (off + 4)); [lia|done|done]|].
  intros lsda. apply total_pure. intros Hlsda.
  intros c (Hb & Hc1 & Hc2).
  pose proof (instr_range_inside pan (entry_end_at bs off) (pos c)) as Hir.
  specialize (Hir ltac:(lia) c (conj Hb eq_refl)). unfold mbind, sm_bind.
  destruct (instr_range _ c) as [[[o l]| | | |] c']; try done.
  destruct Hir as [[= -> ->] ?]. simpl. split_and!; simpl; done || lia.
Qed.

(** Without a sized augmentation the length subtraction can overflow. *)
Lemma parse_fde_body_unsized off cfg :
  0 ≤ off ≤ len bs → cfg_has_z cfg = false →
  total (overflow_checks = true) (λ c, c = mkCursor bs off base) (parse_fde_body cfg)
    (λ fde _, is_u64 (initial_pc fde) ∧ is_u64 (address_range fde) ∧ is_u64 (fde_lsda fde)).
Proof.
  intros Hoff Hz. apply parse_fde_head; [done|]. intros pc rng Hpc Hrng He.
  unfold read_fde_augmentation. rewrite Hz.
  eapply total_bind; [by apply (total_ret _ _ (λ l c, l = 0 ∧ at_ (off + 4) c))|]. intros lsda.
  apply total_pure. intros ->.
  eapply total_bind; [apply (instr_range_total _ (off + 4)); [lia|done]|].
  intros [o l]. by apply total_ret.
Qed.

(** What the parsers return, as used by their callers. *)
Lemma parse_cie_cases off :
  0 ≤ off ≤ len bs →
  match parse_cie bs off base with
  | Ok cie => cie_ok off cie
  | Err _ => True
  | Panic => overflow_checks = true
  | UB | NoFuel => False
  end.
Proof.
  intros Hoff. unfold parse_cie.
  pose proof (parse_cie_body_total off Hoff _ eq_refl) as Ht.
  by destruct (parse_cie_body _) as [[]].
Qed.

Lemma parse_fde_cases off cfg :
  0 ≤ off ≤ len bs →
  match parse_fde bs off base cfg with
  | Ok fde => is_u64 (initial_pc fde) ∧ is_u64 (address_range fde) ∧ is_u64 (fde_lsda fde)
  | Err _ => True
  | Panic => overflow_checks = true
  | UB | NoFuel => False
  end.
Proof.
  intros Hoff. unfold parse_fde. destruct (cfg_has_z cfg) eqn:Hz.
  - pose proof (parse_fde_body_sized False off cfg Hoff Hz _ eq_refl) as Ht.
    destruct (parse_fde_body _ _) as [[]]; try done. by destruct Ht as (? & ? & ? & _).
  - pose proof (parse_fde_body_unsized off cfg Hoff Hz _ eq_refl) as Ht.
    by destruct (parse_fde_body _ _) as [[]].
Qed.
End parsers.

(** C26: for an FDE whose CIE has a sized augmentation (the shape the GNU
    toolchain emits), [parse_fde] never panics on any bytes, and a parsed FDE
    has an instruction range that ends exactly where the entry ends, inside the
    section. *)
Theorem parse_fde_total `{Profile} (bs : list Z) (base off : Z) (cfg : FdeParseConfig) :
  bytes_ok bs → 0 ≤ off ≤ len bs → cfg_has_z cfg = true →
  returns (parse_fde bs off base cfg) ∧
  ∀ fde, parse_fde bs off base cfg = Ok fde → fde_ok bs off fde.
Proof.
  intros Hbs Hoff Hz. unfold parse_fde.
  pose proof (parse_fde_body_sized bs base Hbs False off cfg Hoff Hz _ eq_refl) as Ht.
  destruct (parse_fde_body _ _) as [[]]; try done. split; [done|]. by intros ? [= <-].
Qed.

(** A CIE whose declared length (5) ends before its header does. *)
Definition short_cie : list Z := [5; 0; 0; 0; 0; 0; 0; 0; 1; 0; 1; 0x78; 16].

(** A CIE whose declared length is shorter than its own header is not
    rejected: with overflow checks [parse_cie] panics, and without them it
    returns an instruction length close to [2^64]. *)
Theorem parse_cie_overrun :
  parse_cie (H:=true) short_cie 0 0 = Panic ∧
  parse_cie (H:=false) short_cie 0 0 =
    Ok (mkParsedCie 1 (-8) 16 0 0xff 0 false false 13 (2 ^ 64 - 4)).
Proof. vm_compute. done. Qed.

(** The same for an FDE without augmentation data. *)
Definition short_fde : list Z := le_encode 4 4 ++ le_encode 4 4 ++ le_encode 8 0x1000 ++ le_encode 8 0x10.

(** An FDE (of a CIE without augmentation) whose declared length covers only its CIE
    pointer makes [parse_fde] panic with overflow checks and yields an
    instruction length close to [2^64] without them. *)
Theorem parse_fde_overrun :
  let cfg := mkFdeParseConfig 0 0xff false 0 0 in
  parse_fde (H:=true) short_fde 0 0 cfg = Panic ∧
  parse_fde (H:=false) short_fde 0 0 cfg =
    Ok (mkParsedFde 0x1000 0x10 24 (2 ^ 64 - 16) 0).
Proof. vm_compute. done. Qed.

(** ** The hypotheses hold: concrete instances *)
Definition sized_fde : list Z :=
  le_encode 4 21 ++ le_encode 4 4 ++ le_encode 8 0x1000 ++ le_encode 8 0x10 ++ [0].

Lemma parse_fde_total_witness :
  returns (parse_fde (H:=true) sized_fde 0 0 (mkFdeParseConfig 0 0xff true 0 0)) ∧
  ∀ fde, parse_fde (H:=true) sized_fde 0 0 (mkFdeParseConfig 0 0xff true 0 0) = Ok fde →
    fde_ok sized_fde 0 fde.
Proof.
  apply (parse_fde_total (H:=true) sized_fde 0 0 (mkFdeParseConfig 0 0xff true 0 0)).
  - by_compute.
  - by_compute.
  - reflexivity.
Defined.
