(* ===== verification/Fuzz.v ===== *)
(** * The fuzzing entry point ([__fuzz::parse_dwarf] of [src/src/lib.rs]) *)

From S2P Require Import Prelude.
From S2P Require Import EhFrameTable.
From S2P Require Import Errors.
From S2P Require Import Dwarf.
From S2P Require Import DwarfSafety.

Section fuzz.
Context `{Profile}.

(** [let _ = r]: the result is dropped; a panic is not. *)
Definition discard {E A} (r : outcome E A) : outcome Empty_set () :=
  match r with
  | Ok _ | Err _ => Ok ()
  | Panic => Panic
  | UB => UB
  | NoFuel => NoFuel
  end.

Definition parse_dwarf (data : list Z) : outcome Empty_set () :=
  if len data =? 0 then Ok ()
  else
    mode ← slice_index data 0;
    if Z.land mode 1 =? 0 then
      payload ← slice_from data 1;
      discard (parse_cie payload 0 0)
    else
      let fde_encoding := default 0 (slice_get_at data 1) in
      let lsda_encoding := default 0 (slice_get_at data 2) in
      payload ← (if 3 <? len data then slice_from data 3 else Ok []);
      discard (parse_fde payload 0 0
        (mkFdeParseConfig fde_encoding lsda_encoding (negb (Z.land mode 2 =? 0)) 0 0)).
End fuzz.

(** ** The calls it makes *)
Section calls.
Context `{Profile}.

Lemma bytes_ok_drop n (l : list Z) : bytes_ok l → bytes_ok (drop n l).
Proof.
  intros [Hf Hl]. split; [by apply Forall_drop|]. unfold len in *. rewrite length_drop. lia.
Qed.

Lemma discard_cie payload :
  bytes_ok payload →
  match discard (parse_cie payload 0 0) with
  | Ok _ => True
  | Panic => overflow_checks = true
  | _ => False
  end.
Proof.
  intros Hp. pose proof (len_nonneg payload).
  pose proof (parse_cie_cases payload 0 Hp 0 ltac:(lia)) as Hc.
  by destruct (parse_cie payload 0 0).
Qed.

Lemma discard_fde payload cfg :
  bytes_ok payload →
  match discard (parse_fde payload 0 0 cfg) with
  | Ok _ => True
  | Panic => overflow_checks = true ∧ cfg_has_z cfg = false
  | _ => False
  end.
Proof.
  intros Hp. pose proof (len_nonneg payload).
  pose proof (parse_fde_cases payload 0 Hp 0 cfg ltac:(lia)) as Hc.
  pose proof (parse_fde_body_sized payload 0 Hp False 0 cfg ltac:(lia)) as Hz.
  unfold parse_fde in *. destruct (cfg_has_z cfg).
  - specialize (Hz eq_refl _ eq_refl). by destruct (parse_fde_body _ _) as [[]].
  - by destruct (parse_fde_body _ _) as [[]].
Qed.
End calls.

(** ** Properties *)

(** The fuzzing harness is total: for every input it returns, or panics in a
    build with overflow checks, and then never for an input that selects an FDE
    with sized augmentation data. *)
Theorem parse_dwarf_total `{Profile} (data : list Z) :
  bytes_ok data →
  match parse_dwarf data with
  | Ok _ => True
  | Panic => overflow_checks = true ∧
      ∀ mode, slice_get_at data 0 = Some mode → Z.land mode 1 = 0 ∨ Z.land mode 2 = 0
  | _ => False
  end.
Proof.
  intros Hd. unfold parse_dwarf. destruct (Z.eqb_spec (len data) 0); [done|].
  pose proof (len_nonneg data). unfold slice_index.
  destruct (slice_get_at_some data 0) as [mode ->]; [lia|]. run.
  destruct (Z.eqb_spec (Z.land mode 1) 0) as [H1|H1].
  - rewrite slice_from_ok by lia. run.
    pose proof (discard_cie _ (bytes_ok_drop (Z.to_nat 1) data Hd)) as Hc.
    destruct (discard _); try done. split; [done|]. intros ? [= <-]. by left.
  - assert (∃ payload, bytes_ok payload ∧
      (if 3 <? len data then slice_from (E:=Empty_set) data 3 else Ok []) = Ok payload)
      as (payload & Hp & ->).
    { destruct (Z.ltb_spec 3 (len data)); [|exists []; by split; [by_compute|]].
      rewrite slice_from_ok by lia. eexists. split; [by apply bytes_ok_drop|done]. }
    run. set (cfg := mkFdeParseConfig _ _ _ _ _).
    pose proof (discard_fde payload cfg Hp) as Hc.
    destruct (discard _); try done. destruct Hc as [? Hz]. split; [done|]. intros ? [= <-]. right.
    cbn in Hz. by destruct (Z.eqb_spec (Z.land mode 2) 0).
Qed.

(** The fuzzer can find the unchecked length of [parse_cie]. *)
Example parse_dwarf_finds_overrun : parse_dwarf (H:=true) (0 :: short_cie) = Panic.
Proof. vm_compute. reflexivity. Qed.

(** *** Witness: a truncated FDE with sized augmentation *)
Lemma parse_dwarf_total_witness : parse_dwarf (H:=true) [3; 0x1b; 0xff; 9; 0; 0] = Ok ().
Proof.
  pose proof (parse_dwarf_total (H:=true) [3; 0x1b; 0xff; 9; 0; 0] ltac:(by_compute)) as Ht.
  destruct (parse_dwarf _) as [[]| | | |]; [done|done| |done|done].
  destruct (proj2 Ht 3 eq_refl); done.
Defined.
