(* ===== verification/DwarfCodec.v ===== *)
(** * Reference encoders and round trips of the CIE/FDE parser

    Encoders written from the DWARF and LSB formats: LEB128, the [DW_EH_PE_*]
    pointer encodings, and whole CIE and FDE entries.  The theorems show that
    the parser of [dwarf.rs] decodes what they emit. *)

From S2P Require Import Prelude.
From S2P Require Import Errors.
From S2P Require Import Ffi.
From S2P Require Import Dwarf.
From S2P Require Import DwarfSafety.

(** ** LEB128 *)
Fixpoint uleb_encode (fuel : nat) (v : Z) : list Z :=
  match fuel with
  | O => []
  | S fuel' =>
      if v <? 128 then [v] else (128 + v mod 128) :: uleb_encode fuel' (v / 128)
  end.

Fixpoint sleb_encode (fuel : nat) (v : Z) : list Z :=
  match fuel with
  | O => []
  | S fuel' =>
      if (-64 <=? v) && (v <? 64) then [v mod 128]
      else (128 + v mod 128) :: sleb_encode fuel' (v / 128)
  end.

(** A 64-bit value takes at most ten groups of seven bits. *)
Definition uleb128 (v : Z) : list Z := uleb_encode 10 v.
Definition sleb128 (v : Z) : list Z := sleb_encode 10 v.

(** ** Pointer encodings *)
Inductive ptr_format : Type :=
  | Absptr | Udata2 | Udata4 | Udata8 | Sdata2 | Sdata4 | Sdata8 | Uleb | Sleb.
Inductive ptr_app : Type := AppAbs | AppPcrel | AppTextrel | AppDatarel | AppFuncrel.

Definition format_code (f : ptr_format) : Z :=
  match f with
  | Absptr => DW_EH_PE_ABSPTR | Udata2 => DW_EH_PE_UDATA2 | Udata4 => DW_EH_PE_UDATA4
  | Udata8 => DW_EH_PE_UDATA8 | Sdata2 => DW_EH_PE_SDATA2 | Sdata4 => DW_EH_PE_SDATA4
  | Sdata8 => DW_EH_PE_SDATA8 | Uleb => DW_EH_PE_ULEB128 | Sleb => DW_EH_PE_SLEB128
  end.

Definition app_code (a : ptr_app) : Z :=
  match a with
  | AppAbs => 0 | AppPcrel => DW_EH_PE_PCREL | AppTextrel => DW_EH_PE_TEXTREL
  | AppDatarel => DW_EH_PE_DATAREL | AppFuncrel => DW_EH_PE_FUNCREL
  end.

Definition ptr_code (indirect : bool) (f : ptr_format) (a : ptr_app) : Z :=
  (if indirect then DW_EH_PE_INDIRECT else 0) + app_code a + format_code f.

(** The displacements a format can hold. *)
Definition format_fits (f : ptr_format) (d : Z) : Prop :=
  match f with
  | Udata2 => 0 ≤ d < 2 ^ 16
  | Udata4 => 0 ≤ d < 2 ^ 32
  | Sdata2 => - 2 ^ 15 ≤ d < 2 ^ 15
  | Sdata4 => - 2 ^ 31 ≤ d < 2 ^ 31
  | Uleb => 0 ≤ d < 2 ^ 64
  | Sleb => - 2 ^ 63 ≤ d < 2 ^ 63
  | Absptr | Udata8 | Sdata8 => - 2 ^ 64 < d < 2 ^ 64
  end.

#[export] Instance format_fits_dec f d : Decision (format_fits f d).
Proof. destruct f; apply _. Defined.

Definition format_encode (f : ptr_format) (d : Z) : list Z :=
  match f with
  | Udata2 | Sdata2 => le_encode 2 d
  | Udata4 | Sdata4 => le_encode 4 d
  | Absptr | Udata8 | Sdata8 => le_encode 8 d
  | Uleb => uleb128 d
  | Sleb => sleb128 d
  end.

(** The base a displacement is relative to. *)
Definition app_base (a : ptr_app) (pcrel textrel datarel funcrel : Z) : Z :=
  match a with
  | AppAbs => 0 | AppPcrel => pcrel | AppTextrel => textrel
  | AppDatarel => datarel | AppFuncrel => funcrel
  end.

(** An encoded pointer with displacement [d]: zero for an indirect or absent
    pointer, otherwise the displacement added to its base, modulo [2^64]. *)
Definition ptr_value (indirect : bool) (a : ptr_app) (d pcrel tb db fb : Z) : Z :=
  if indirect || (as_u64 d =? 0) then 0
  else wrapping_add (as_u64 d) (app_base a pcrel tb db fb).

(** ** Entries *)

(** The items of a sized augmentation: the letter goes to the augmentation
    string, the data to the augmentation data. *)
Inductive aug_item : Type :=
  | ItemR (enc : Z)
  | ItemL (enc : Z)
  | ItemP (indirect : bool) (f : ptr_format) (a : ptr_app) (d : Z)
  | ItemS
  | ItemB
  | ItemG.

Definition item_char (i : aug_item) : Z :=
  match i with
  | ItemR _ => 82 | ItemL _ => 76 | ItemP _ _ _ _ => 80 | ItemS => 83 | ItemB => 66 | ItemG => 71
  end.

Definition item_data (i : aug_item) : list Z :=
  match i with
  | ItemR enc | ItemL enc => [enc]
  | ItemP ind f a d => ptr_code ind f a :: format_encode f d
  | _ => []
  end.

Definition item_fits (i : aug_item) : Prop :=
  match i with ItemP _ f _ d => format_fits f d | _ => True end.

#[export] Instance item_fits_dec i : Decision (item_fits i).
Proof. destruct i; apply _. Defined.

(** The effect of an item whose data starts at tracee address [avma]. *)
Definition item_apply (avma : Z) (st : AugState) (i : aug_item) : AugState :=
  match i with
  | ItemR e => mkAugState e (aug_lsda_encoding st) (aug_personality st) (aug_signal_frame st)
  | ItemL e => mkAugState (aug_fde_encoding st) e (aug_personality st) (aug_signal_frame st)
  | ItemP ind f a d =>
      mkAugState (aug_fde_encoding st) (aug_lsda_encoding st)
        (ptr_value ind a d (wrapping_add avma 1) 0 0 0) (aug_signal_frame st)
  | ItemS => mkAugState (aug_fde_encoding st) (aug_lsda_encoding st) (aug_personality st) true
  | ItemB | ItemG => st
  end.

Definition items_data (items : list aug_item) : list Z := mjoin (item_data <$> items).

Fixpoint items_apply (avma : Z) (st : AugState) (items : list aug_item) : AugState :=
  match items with
  | [] => st
  | i :: items' => items_apply (wrapping_add avma (len (item_data i))) (item_apply avma st i) items'
  end.

Record CieSpec : Type := mkCieSpec {
  cs_dwarf64 : bool;
  cs_version : Z;
  cs_aug : option (list aug_item);
  cs_code_align : Z;
  cs_data_align : Z;
  cs_ret_addr_column : Z;
  cs_instrs : list Z;
}.

Definition emit_length (dwarf64 : bool) (n : Z) : list Z :=
  if dwarf64 then le_encode 4 0xffffffff ++ le_encode 8 n else le_encode 4 n.
Definition emit_id (dwarf64 : bool) (id : Z) : list Z :=
  if dwarf64 then le_encode 8 id else le_encode 4 id.
Definition length_fits (dwarf64 : bool) (n : Z) : Prop :=
  if dwarf64 then 0 ≤ n < 2 ^ 64 else 0 ≤ n < 0xffffffff.

#[export] Instance length_fits_dec b n : Decision (length_fits b n).
Proof. destruct b; apply _. Defined.

Definition aug_chars (aug : option (list aug_item)) : list Z :=
  match aug with None => [] | Some items => 122 :: (item_char <$> items) end.
Definition aug_data (aug : option (list aug_item)) : list Z :=
  match aug with
  | None => []
  | Some items => uleb128 (len (items_data items)) ++ items_data items
  end.
Definition v4_sizes (version : Z) : list Z := if version =? 4 then [8; 0] else [].
Definition ra_column (version ra : Z) : list Z := if version =? 1 then [ra] else uleb128 ra.

(** Everything of a CIE between the length field and the augmentation data. *)
Definition cie_fixed (cs : CieSpec) : list Z :=
  emit_id (cs_dwarf64 cs) 0 ++ [cs_version cs] ++ (aug_chars (cs_aug cs) ++ [0])
  ++ v4_sizes (cs_version cs) ++ uleb128 (cs_code_align cs) ++ sleb128 (cs_data_align cs)
  ++ ra_column (cs_version cs) (cs_ret_addr_column cs).

Definition cie_body (cs : CieSpec) : list Z :=
  cie_fixed cs ++ aug_data (cs_aug cs) ++ cs_instrs cs.

Definition emit_cie (cs : CieSpec) : list Z :=
  emit_length (cs_dwarf64 cs) (len (cie_body cs)) ++ cie_body cs.

Definition cie_spec_ok (cs : CieSpec) : Prop :=
  cs_version cs ∈ [1; 3; 4] ∧ is_u64 (cs_code_align cs) ∧ is_i64 (cs_data_align cs) ∧
  is_u64 (cs_ret_addr_column cs) ∧ Forall item_fits (default [] (cs_aug cs)) ∧
  length_fits (cs_dwarf64 cs) (len (cie_body cs)).

(** The offset of the first initial instruction of a CIE emitted at [off]. *)
Definition cie_instr_off (cs : CieSpec) (off : Z) : Z :=
  off + len (emit_cie cs) - len (cs_instrs cs).

(** The record [parse_cie] should return for a CIE emitted at offset [off]. *)
Definition cie_parsed (cs : CieSpec) (base off : Z) : ParsedCie :=
  let st := match cs_aug cs with
            | None => aug_init
            | Some items =>
                items_apply
                  (wrapping_add base (cie_instr_off cs off - len (items_data items)))
                  aug_init items
            end in
  mkParsedCie (cs_code_align cs) (cs_data_align cs) (cs_ret_addr_column cs)
    (aug_fde_encoding st) (aug_lsda_encoding st) (aug_personality st)
    (if cs_aug cs is Some _ then true else false) (aug_signal_frame st)
    (cie_instr_off cs off) (len (cs_instrs cs)).

(** The language-specific data area pointer of an FDE. *)
Record LsdaSpec : Type := mkLsdaSpec { ls_format : ptr_format; ls_app : ptr_app; ls_d : Z }.

(** An FDE: [fs_d] is the displacement of the function start, [fs_aug] the
    sized augmentation data (the LSDA pointer, then padding). *)
Record FdeSpec : Type := mkFdeSpec {
  fs_dwarf64 : bool;
  fs_cie_ptr : Z;
  fs_format : ptr_format;
  fs_app : ptr_app;
  fs_d : Z;
  fs_range : Z;
  fs_aug : option (option LsdaSpec * list Z);
  fs_instrs : list Z;
}.

Definition lsda_bytes (l : option LsdaSpec) : list Z :=
  match l with None => [] | Some l => format_encode (ls_format l) (ls_d l) end.
Definition lsda_code (l : option LsdaSpec) : Z :=
  match l with None => DW_EH_PE_OMIT | Some l => ptr_code false (ls_format l) (ls_app l) end.
Definition lsda_fits (l : option LsdaSpec) : Prop :=
  match l with None => True | Some l => format_fits (ls_format l) (ls_d l) end.

(** The configuration the CIE of such an FDE gives. *)
Definition fde_config (fs : FdeSpec) (tb db : Z) : FdeParseConfig :=
  mkFdeParseConfig (ptr_code false (fs_format fs) (fs_app fs))
    (match fs_aug fs with None => DW_EH_PE_OMIT | Some (l, _) => lsda_code l end)
    (if fs_aug fs is Some _ then true else false) tb db.

Definition fde_aug_data (fs : FdeSpec) : list Z :=
  match fs_aug fs with
  | None => []
  | Some (l, pad) => uleb128 (len (lsda_bytes l ++ pad)) ++ lsda_bytes l ++ pad
  end.

Definition fde_fixed (fs : FdeSpec) : list Z :=
  emit_id (fs_dwarf64 fs) (fs_cie_ptr fs) ++ format_encode (fs_format fs) (fs_d fs)
  ++ format_encode (fs_format fs) (fs_range fs).
Definition fde_body (fs : FdeSpec) : list Z := fde_fixed fs ++ fde_aug_data fs ++ fs_instrs fs.
Definition emit_fde (fs : FdeSpec) : list Z :=
  emit_length (fs_dwarf64 fs) (len (fde_body fs)) ++ fde_body fs.

Definition fde_spec_ok (fs : FdeSpec) : Prop :=
  0 < fs_cie_ptr fs < 2 ^ 32 ∧ format_fits (fs_format fs) (fs_d fs) ∧
  format_fits (fs_format fs) (fs_range fs) ∧
  lsda_fits (fs_aug fs ≫= fst) ∧ length_fits (fs_dwarf64 fs) (len (fde_body fs)).

Definition fde_instr_off (fs : FdeSpec) (off : Z) : Z :=
  off + len (emit_fde fs) - len (fs_instrs fs).

(** The function start of an FDE emitted at [off]. *)
Definition fde_initial_pc (fs : FdeSpec) (base off tb db : Z) : Z :=
  let pc_pos := off + len (emit_length (fs_dwarf64 fs) (len (fde_body fs)))
                + len (emit_id (fs_dwarf64 fs) (fs_cie_ptr fs)) in
  ptr_value false (fs_app fs) (fs_d fs) (wrapping_add base pc_pos) tb db 0.

Definition fde_parsed (fs : FdeSpec) (base off tb db : Z) : ParsedFde :=
  let pc := fde_initial_pc fs base off tb db in
  mkParsedFde pc (as_u64 (fs_range fs)) (fde_instr_off fs off) (len (fs_instrs fs))
    (match fs_aug fs with
     | Some (Some l, pad) =>
         ptr_value false (ls_app l) (ls_d l)
           (wrapping_add base (fde_instr_off fs off - len (lsda_bytes (Some l) ++ pad))) tb db pc
     | _ => 0
     end).

(** ** Bit lemmas *)
Lemma lor_shift_add a b n : 0 ≤ n → is_u n a → Z.lor a (Z.shiftl b n) = a + b * 2 ^ n.
Proof.
  intros Hn Ha. rewrite <- Z.shiftl_mul_pow2 by done.
  assert (Z.land a (Z.shiftl b n) = 0) as Hl.
  { apply Z.bits_inj'. intros i Hi. rewrite Z.land_spec, Z.bits_0, Z.shiftl_spec by done.
    destruct (decide (i < n)).
    - rewrite (Z.testbit_neg_r b) by lia. apply andb_false_r.
    - replace (Z.testbit a i) with false; [done|]. symmetry.
      rewrite <- (Z.mod_small a (2 ^ n)) by done. apply Z.mod_pow2_bits_high. lia. }
  by rewrite Z.add_nocarry_lxor, Z.lxor_lor.
Qed.

Lemma land_7f b : Z.land b 0x7f = b mod 128.
Proof. change 0x7f with (Z.ones 7). by rewrite Z.land_ones by lia. Qed.

Lemma land_80 b : is_u8 b → (Z.land b 0x80 =? 0) = (b <? 128).
Proof.
  intros Hb. assert (forallb (λ b, Bool.eqb (Z.land b 0x80 =? 0) (b <? 128)) (seqZ 0 256) = true)
    as Hall by (by vm_compute).
  rewrite forallb_forall in Hall. apply Bool.eqb_prop, Hall.
  apply list_elem_of_In, elem_of_seqZ. unfold is_u in Hb. change (2 ^ 8) with 256 in Hb. lia.
Qed.

Lemma land_40 b : 0 ≤ b < 128 → (Z.land b 0x40 =? 0) = (b <? 64).
Proof.
  intros Hb. assert (forallb (λ b, Bool.eqb (Z.land b 0x40 =? 0) (b <? 64)) (seqZ 0 128) = true)
    as Hall by (by vm_compute).
  rewrite forallb_forall in Hall. apply Bool.eqb_prop, Hall.
  apply list_elem_of_In, elem_of_seqZ. lia.
Qed.

(** The payload of a continuation byte. *)
Lemma cont_payload v : (128 + v mod 128) mod 128 = v mod 128.
Proof.
  rewrite <- Zplus_mod_idemp_l. change (128 mod 128) with 0.
  by rewrite Z.add_0_l, Z.mod_mod by lia.
Qed.

(** ** Reading what was emitted

    [Reads base p m l v]: with the bytes [l] at position [p] of the section,
    [m] returns [v] and leaves the cursor just after them, whatever surrounds
    them. *)
Definition Reads {A} (base p : Z) (m : CM A) (l : list Z) (v : A) : Prop :=
  ∀ pre post, len pre = p → len (pre ++ l ++ post) ≤ isize_max →
  m (mkCursor (pre ++ l ++ post) p base) =
  (Ok v, mkCursor (pre ++ l ++ post) (p + len l) base).

Section reads.
Context `{Profile} (base : Z).
Local Abbreviation R := (Reads base).

Lemma reads_ret {A} p (v : A) : R p (mret v) [] v.
Proof. intros pre post Hp _. rewrite len_nil, Z.add_0_r. done. Qed.

Lemma reads_bind {A B} p (m : CM A) (f : A → CM B) l1 l2 v w :
  R p m l1 v → R (p + len l1) (f v) l2 w → R p (m ≫= f) (l1 ++ l2) w.
Proof.
  intros Hm Hf pre post Hp Hl. rewrite <- !app_assoc in *.
  rewrite (sm_bind_run _ _ _ _ _ (Hm pre (l2 ++ post) Hp Hl)).
  specialize (Hf (pre ++ l1) post). rewrite len_app, <- !app_assoc in Hf.
  rewrite Hf by (done || lia). by rewrite len_app, Z.add_assoc.
Qed.

(** A continuation that emits no bytes. *)
Lemma reads_bind_nil {A B} p (m : CM A) (f : A → CM B) l v w :
  R p m l v → R (p + len l) (f v) [] w → R p (m ≫= f) l w.
Proof. intros. rewrite <- (app_nil_r l). by eapply reads_bind. Qed.

(** [sm_get] gives a cursor at the current position. *)
Lemma reads_get {A} p (f : Cursor → CM A) l v :
  (∀ c, pos c = p → avma_base c = base → R p (f c) l v) → R p (sm_get ≫= f) l v.
Proof. intros Hf pre post Hp Hl. unfold mbind, sm_bind, sm_get. by apply Hf. Qed.

Lemma reads_lift {A B} p (a : A) (f : A → CM B) l v :
  R p (f a) l v → R p (sm_lift (Ok a) ≫= f) l v.
Proof. done. Qed.

Lemma reads_u8 p b : R p read_u8 [b] b.
Proof.
  intros pre post Hp Hl. unfold read_u8, mbind, sm_bind, sm_get. simpl.
  rewrite slice_get_at_app by done. unfold sm_lift.
  rewrite !len_app, len_cons, len_nil in Hl. pose proof (len_nonneg post).
  rewrite usize_add_ok by (unfold isize_max, usize_max in *; lia). simpl. done.
Qed.

Lemma reads_le n p z :
  0 ≤ n → R p (read_le n) (le_encode (Z.to_nat n) z) (z mod 2 ^ (8 * n)).
Proof.
  intros Hn pre post Hp Hl. unfold read_le, mbind, sm_bind, sm_get, sm_lift. simpl.
  rewrite !len_app, le_encode_len in Hl. pose proof (len_nonneg post).
  rewrite usize_add_ok by (unfold isize_max, usize_max in *; lia).
  rewrite slice_get_app by (rewrite ?le_encode_len; lia).
  unfold sm_modify, mret, sm_ret, set_pos. simpl.
  rewrite le_decode_encode, le_encode_len. by rewrite Z2Nat.id by done.
Qed.

Lemma reads_le_small n p z :
  0 ≤ n → 0 ≤ z < 2 ^ (8 * n) → R p (read_le n) (le_encode (Z.to_nat n) z) z.
Proof.
  intros Hn Hz. pose proof (reads_le n p z Hn) as Hr. by rewrite Z.mod_small in Hr.
Qed.

Lemma reads_uleb_loop fuel v result shift p :
  0 ≤ shift < 64 → 0 ≤ v < 2 ^ (64 - shift) → is_u shift result →
  64 ≤ shift + 7 * Z.of_nat fuel →
  R p (uleb128_loop fuel result shift) (uleb_encode fuel v) (result + v * 2 ^ shift).
Proof.
  revert v result shift p. induction fuel as [|fuel IH]; intros v result shift p Hs Hv Hr Hf;
    [lia|]. cbn [uleb128_loop uleb_encode].
  assert (2 ^ 64 = 2 ^ (64 - shift) * 2 ^ shift) as H64.
  { rewrite <- Z.pow_add_r by lia. f_equal. lia. }
  assert (∀ q, 0 ≤ q ≤ v → Z.lor result (wrap 64 (Z.shiftl q shift)) = result + q * 2 ^ shift)
    as Hlor.
  { intros q Hq. rewrite wrap_small; [apply lor_shift_add; [lia|done]|].
    rewrite Z.shiftl_mul_pow2 by lia. unfold is_u. rewrite H64.
    pose proof (Z.pow_pos_nonneg 2 shift). nia. }
  destruct (Z.ltb_spec v 128) as [Hlt|Hge].
  - eapply reads_bind_nil; [apply reads_u8|]. cbv zeta.
    rewrite land_7f, land_80 by (unfold is_u; change (2 ^ 8) with 256; lia).
    destruct (Z.ltb_spec v 128); [|lia]. rewrite Z.mod_small by lia. rewrite Hlor by lia.
    apply reads_ret.
  - assert (shift + 7 < 64) as Hs7.
    { destruct (decide (shift + 7 < 64)); [done|].
      assert (2 ^ (64 - shift) ≤ 2 ^ 7) by (apply Z.pow_le_mono_r; lia). lia. }
    pose proof (Z.mod_pos_bound v 128). pose proof (Z.div_mod v 128).
    change (128 + v mod 128 :: uleb_encode fuel (v / 128))
      with ([128 + v mod 128] ++ uleb_encode fuel (v / 128)).
    eapply reads_bind; [apply reads_u8|]. cbv zeta.
    rewrite land_7f, land_80 by (unfold is_u; change (2 ^ 8) with 256; lia).
    destruct (Z.ltb_spec (128 + v mod 128) 128); [lia|].
    destruct (Z.leb_spec 64 (shift + 7)); [lia|].
    rewrite cont_payload, Hlor by lia.
    replace (result + v * 2 ^ shift)
      with (result + v mod 128 * 2 ^ shift + v / 128 * 2 ^ (shift + 7)).
    2: { rewrite Z.pow_add_r by lia. change (2 ^ 7) with 128. nia. }
    apply IH; [lia| | |lia].
    + split; [apply Z.div_pos; lia|]. apply Z.div_lt_upper_bound; [lia|].
      change 128 with (2 ^ 7). rewrite <- Z.pow_add_r by lia.
      replace (7 + (64 - (shift + 7))) with (64 - shift) by lia. lia.
    + unfold is_u in *. rewrite Z.pow_add_r by lia. change (2 ^ 7) with 128.
      pose proof (Z.pow_pos_nonneg 2 shift). nia.
Qed.

Lemma reads_uleb p v : is_u64 v → R p read_uleb128 (uleb128 v) v.
Proof.
  intros Hv. unfold read_uleb128. replace v with (0 + v * 2 ^ 0) at 2 by lia.
  apply reads_uleb_loop; [lia|by rewrite Z.sub_0_r|done|lia].
Qed.

(** One more group of a signed value: [shift] is a multiple of 7, at most 63. *)
Lemma sleb_payload k q result :
  let shift := 7 * k in
  0 ≤ k ≤ 8 → 0 ≤ q < 128 → is_u shift result →
  Z.lor result (as_signed 64 (wrap 64 (Z.shiftl q shift))) = result + q * 2 ^ shift ∧
  is_u (shift + 7) (result + q * 2 ^ shift).
Proof.
  intros shift Hk Hq [Hr0 Hr]. assert (2 ^ 7 * 2 ^ shift ≤ 2 ^ 63) as H63.
  { rewrite <- Z.pow_add_r by lia. apply Z.pow_le_mono_r; lia. }
  change (2 ^ 7) with 128 in H63. pose proof (Z.pow_pos_nonneg 2 shift).
  assert (0 ≤ q * 2 ^ shift < 2 ^ 63) by nia.
  split.
  - rewrite signed_wrap; [apply lor_shift_add; [lia|done]|lia|].
    rewrite Z.shiftl_mul_pow2 by lia. change (64 - 1) with 63. lia.
  - unfold is_u. rewrite Z.pow_add_r by lia. change (2 ^ 7) with 128. nia.
Qed.

(** The last group: sign extension from bit 6 of the last byte. *)
Lemma reads_sleb_last fuel v result k p :
  let shift := 7 * k in
  0 ≤ k ≤ 9 → -64 ≤ v < 64 → - 2 ^ (63 - shift) ≤ v < 2 ^ (63 - shift) → is_u shift result →
  R p (sleb128_loop (S fuel) result shift) [v mod 128] (result + v * 2 ^ shift).
Proof.
  intros shift Hk Hv Hvk Hr. cbn [sleb128_loop].
  eapply reads_bind_nil; [apply reads_u8|]. cbv zeta.
  assert (v mod 128 = if v <? 0 then v + 128 else v) as Hm.
  { destruct (Z.ltb_spec v 0); [|apply Z.mod_small; lia].
    rewrite <- (Z.mod_add v 1) by lia. apply Z.mod_small. lia. }
  pose proof (Z.mod_pos_bound v 128).
  rewrite land_7f, land_80 by (unfold is_u; change (2 ^ 8) with 256; lia).
  rewrite Z.mod_mod by lia. destruct (Z.ltb_spec (v mod 128) 128); [|lia].
  rewrite land_40 by lia. destruct (decide (k = 9)) as [->|].
  - destruct (Z.ltb_spec (shift + 7) 64); [lia|]. cbn [andb].
    assert (v = 0 ∨ v = -1) as [->| ->] by (change (2 ^ (63 - shift)) with 1 in Hvk; lia).
    + change (as_signed 64 _) with 0. rewrite Z.lor_0_r.
      replace (result + 0 * 2 ^ shift) with result by lia. apply reads_ret.
    + change (as_signed 64 _) with (Z.shiftl (-1) 63).
      rewrite lor_shift_add by (done || lia). apply reads_ret.
  - destruct (sleb_payload k (v mod 128) result) as [Heq Hu]; [lia|lia|done|].
    fold shift in Heq, Hu. rewrite Heq. destruct (Z.ltb_spec (shift + 7) 64); [|lia]. simpl.
    rewrite Hm in *. destruct (Z.ltb_spec v 0).
    + destruct (Z.ltb_spec (v + 128) 64); [lia|]. simpl.
      rewrite signed_wrap; [|lia|].
      2: { rewrite Z.shiftl_mul_pow2 by lia. change (64 - 1) with 63.
           assert (2 ^ (shift + 7) ≤ 2 ^ 63) by (apply Z.pow_le_mono_r; lia).
           pose proof (Z.pow_pos_nonneg 2 (shift + 7)). lia. }
      rewrite lor_shift_add by (done || lia).
      replace (result + (v + 128) * 2 ^ shift + -1 * 2 ^ (shift + 7))
        with (result + v * 2 ^ shift); [apply reads_ret|].
      rewrite Z.pow_add_r by lia. change (2 ^ 7) with 128. lia.
    + destruct (Z.ltb_spec v 64); [|lia]. simpl. apply reads_ret.
Qed.

(** A continuation byte moves seven bits of [v] into the result. *)
Lemma reads_sleb_cont fuel v result k p rest w :
  let shift := 7 * k in
  0 ≤ k ≤ 8 → is_u shift result →
  R (p + 1) (sleb128_loop fuel (result + v mod 128 * 2 ^ shift) (7 * (k + 1))) rest w →
  R p (sleb128_loop (S fuel) result shift) ((128 + v mod 128) :: rest) w.
Proof.
  intros shift Hk Hr Hrest. pose proof (Z.mod_pos_bound v 128).
  change (128 + v mod 128 :: rest) with ([128 + v mod 128] ++ rest).
  cbn [sleb128_loop]. eapply reads_bind; [apply reads_u8|]. cbv zeta.
  rewrite land_7f, land_80 by (unfold is_u; change (2 ^ 8) with 256; lia).
  destruct (Z.ltb_spec (128 + v mod 128) 128); [lia|].
  destruct (Z.leb_spec 64 (shift + 7)); [lia|]. rewrite cont_payload.
  destruct (sleb_payload k (v mod 128) result) as [Heq _]; [lia|lia|done|].
  fold shift in Heq. rewrite Heq.
  by replace (shift + 7) with (7 * (k + 1)) by lia.
Qed.

Lemma reads_sleb_loop fuel v result k p :
  let shift := 7 * k in
  0 ≤ k → k + Z.of_nat fuel = 10 → (0 < fuel)%nat →
  - 2 ^ (63 - shift) ≤ v < 2 ^ (63 - shift) → is_u shift result →
  R p (sleb128_loop fuel result shift) (sleb_encode fuel v) (result + v * 2 ^ shift).
Proof.
  revert v result k p. induction fuel as [|fuel IH]; intros v result k p shift Hk Hf Hf0 Hv Hr;
    [lia|]. cbn [sleb_encode]. clear Hf0.
  destruct (decide (-64 ≤ v < 64)) as [Hlast|Hmore].
  { rewrite (proj2 (andb_true_iff _ _)) by lia. by apply reads_sleb_last; [lia|..]. }
  rewrite (proj2 (andb_false_iff _ _)) by lia.
  assert (k ≤ 8) as Hk8.
  { destruct (decide (k ≤ 8)); [done|].
    assert (2 ^ (63 - shift) ≤ 2 ^ 6) by (apply Z.pow_le_mono_r; lia). lia. }
  pose proof (Z.mod_pos_bound v 128). pose proof (Z.div_mod v 128).
  apply reads_sleb_cont; [lia|done|].
  assert (7 * (k + 1) = shift + 7) as Hs by lia.
  replace (result + v * 2 ^ shift)
    with (result + v mod 128 * 2 ^ shift + v / 128 * 2 ^ (7 * (k + 1))).
  2: { rewrite Hs, Z.pow_add_r by lia. change (2 ^ 7) with 128. nia. }
  apply IH; [lia|lia|lia| |].
  - assert (2 ^ (63 - shift) = 128 * 2 ^ (63 - 7 * (k + 1))) as Hp.
    { change 128 with (2 ^ 7). rewrite <- Z.pow_add_r by lia. f_equal. lia. }
    rewrite Hp in Hv. split; [apply Z.div_le_lower_bound; lia|apply Z.div_lt_upper_bound; lia].
  - rewrite Hs. by apply sleb_payload; [lia..|].
Qed.

Lemma reads_sleb p v : is_i64 v → R p read_sleb128 (sleb128 v) v.
Proof.
  intros Hv. unfold read_sleb128. replace v with (0 + v * 2 ^ (7 * 0)) at 2 by lia.
  apply (reads_sleb_loop 10 v 0 0); [lia..|done|done].
Qed.

(** ** Encoded pointers *)
Lemma reads_le_map n p z (g : Z → Z) :
  0 ≤ n → R p (v ← read_le n; mret (g v)) (le_encode (Z.to_nat n) z) (g (z mod 2 ^ (8 * n))).
Proof. intros. eapply reads_bind_nil; [by apply reads_le|]. apply reads_ret. Qed.

Lemma reads_raw p f d enc :
  format_fits f d → R p (read_raw (format_code f) enc) (format_encode f d) (as_u64 d).
Proof.
  intros Hf. assert (∀ w, 0 < w ≤ 64 → - 2 ^ (w - 1) ≤ d < 2 ^ (w - 1) →
    as_u64 (as_signed w (d mod 2 ^ w)) = as_u64 d) as Hs.
  { intros w Hw Hd. f_equal. by apply signed_wrap; [lia|]. }
  assert (as_u64 (as_signed 64 (d mod 2 ^ 64)) = as_u64 d) as H64.
  { apply (wrap_signed 64); [lia|]. by apply wrap_bounds. }
  assert (∀ w, 0 < w ≤ 64 → 0 ≤ d < 2 ^ w → d mod 2 ^ w = as_u64 d) as Hu.
  { intros w Hw Hd. assert (2 ^ w ≤ 2 ^ 64) by (apply Z.pow_le_mono_r; lia).
    unfold as_u64, wrap. rewrite !Z.mod_small; lia. }
  destruct f; cbn [format_fits format_encode] in *.
  - apply (reads_le 8). lia.
  - rewrite <- (Hu 16) by lia. apply (reads_le 2). lia.
  - rewrite <- (Hu 32) by lia. apply (reads_le 4). lia.
  - apply (reads_le 8). lia.
  - rewrite <- (Hs 16) by lia. apply (reads_le_map 2 p d (λ v, as_u64 (as_signed 16 v))). lia.
  - rewrite <- (Hs 32) by lia. apply (reads_le_map 4 p d (λ v, as_u64 (as_signed 32 v))). lia.
  - rewrite <- H64. apply (reads_le_map 8 p d (λ v, as_u64 (as_signed 64 v))). lia.
  - unfold as_u64. rewrite wrap_small by done. by apply reads_uleb.
  - eapply (reads_bind_nil _ read_sleb128); [by apply reads_sleb|]. apply reads_ret.
Qed.

Lemma apply_base_code a enc raw b0 b1 b2 b3 :
  is_u64 raw →
  apply_base (app_code a) enc raw b0 b1 b2 b3 = mret (wrapping_add raw (app_base a b0 b1 b2 b3)).
Proof.
  intros Hraw. destruct a; try reflexivity. cbn [app_base].
  unfold wrapping_add. by rewrite Z.add_0_r, wrap_small.
Qed.

Lemma reads_encoded p ind f a d tb db fb allow :
  format_fits f d → implb ind allow = true →
  R p (read_encoded_impl (ptr_code ind f a) tb db fb allow) (format_encode f d)
    (ptr_value ind a d (wrapping_add base p) tb db fb).
Proof.
  intros Hf Hi. apply reads_get. intros c Hp Hb. cbv zeta.
  assert ((ptr_code ind f a =? DW_EH_PE_OMIT) = false) as -> by (by destruct ind, f, a).
  assert (negb (Z.land (ptr_code ind f a) DW_EH_PE_INDIRECT =? 0) = ind) as ->
    by (by destruct ind, f, a).
  assert (Z.land (Z.land (ptr_code ind f a) (Z.lxor 0xff DW_EH_PE_INDIRECT))
            DW_EH_PE_FORMAT_MASK = format_code f) as -> by (by destruct ind, f, a).
  assert (Z.land (Z.land (ptr_code ind f a) (Z.lxor 0xff DW_EH_PE_INDIRECT))
            DW_EH_PE_APP_MASK = app_code a) as -> by (by destruct ind, f, a).
  assert (ind && negb allow = false) as -> by (by destruct ind, allow).
  eapply reads_bind_nil; [by apply reads_raw|]. unfold ptr_value.
  destruct ind; [apply reads_ret|]. simpl. case_match; [apply reads_ret|].
  rewrite apply_base_code by (by apply wrap_bounds). unfold current_avma.
  rewrite Hp, Hb. apply reads_ret.
Qed.

(** ** Entry headers *)
Lemma wrapping_add_assoc a b c : wrapping_add (wrapping_add a b) c = wrapping_add a (b + c).
Proof. unfold wrapping_add, wrap. rewrite Zplus_mod_idemp_l. f_equal. lia. Qed.

Lemma reads_entry_id p d id :
  0 ≤ id < 2 ^ 32 → R p (read_entry_id d) (emit_id d id) id.
Proof.
  intros Hid. unfold read_entry_id, emit_id.
  destruct d; [apply (reads_le_small 8)|apply (reads_le_small 4)]; simpl; lia.
Qed.

Lemma reads_entry_length p d n :
  length_fits d n → p + len (emit_length d n) + n ≤ u64_max →
  R p read_entry_length (emit_length d n) (d, p + len (emit_length d n) + n).
Proof.
  intros Hn Hb. unfold read_entry_length. destruct d; cbn [emit_length length_fits] in *.
  - eapply reads_bind; [by apply (reads_le 4)|]. cbv zeta.
    change (0xffffffff mod 2 ^ (8 * 4) =? 0xffffffff) with true. cbv iota.
    rewrite len_app, !le_encode_len in *. rewrite <- (app_nil_r (le_encode 8 n)).
    eapply reads_bind.
    { eapply reads_bind_nil; [by apply (reads_le 8)|]. apply reads_get. intros c _ _.
      change (8 * 8) with 64. rewrite Z.mod_small by done.
      rewrite usize_try_from_u64 by done. apply reads_ret. }
    apply reads_get. intros c Hc _. rewrite Hc, le_encode_len. unfold checked_add.
    destruct (Z.leb_spec (p + Z.of_nat 4 + Z.of_nat 8 + n) u64_max); [|lia].
    replace (p + (Z.of_nat 4 + Z.of_nat 8) + n) with (p + Z.of_nat 4 + Z.of_nat 8 + n) by lia.
    apply reads_ret.
  - rewrite !le_encode_len in *. eapply reads_bind_nil; [by apply (reads_le 4)|]. cbv zeta.
    change (8 * 4) with 32. rewrite Z.mod_small by (change (2 ^ 32) with 0x100000000; lia).
    destruct (Z.eqb_spec n 0xffffffff); [lia|].
    eapply reads_bind_nil; [apply reads_ret|]. rewrite len_nil, le_encode_len, Z.add_0_r.
    apply reads_get. intros c Hc _. rewrite Hc. unfold checked_add.
    destruct (Z.leb_spec (p + Z.of_nat 4 + n) u64_max); [|lia]. apply reads_ret.
Qed.

Lemma position_nul_app chars post :
  Forall (λ b, b ≠ 0) chars → position_nul (chars ++ 0 :: post) = Some (len chars).
Proof.
  induction 1 as [|b chars Hb _ IH]; [done|]. cbn [app position_nul].
  destruct (Z.eqb_spec b 0); [done|]. rewrite IH, len_cons. done.
Qed.

Lemma reads_aug_string p chars :
  Forall (λ b, b ≠ 0) chars → R p read_augmentation_string (chars ++ [0]) chars.
Proof.
  intros Hc pre post Hp Hl. rewrite <- app_assoc in *. simpl in *.
  unfold read_augmentation_string, mbind, sm_bind, sm_get, sm_lift. simpl.
  rewrite !len_app, len_cons in Hl.
  pose proof (len_nonneg post). pose proof (len_nonneg chars). pose proof (len_nonneg pre).
  unfold slice_from. rewrite len_app.
  destruct (Z.leb_spec p (len pre + len (chars ++ 0 :: post)));
    [|pose proof (len_nonneg (chars ++ 0 :: post)); lia].
  replace (Z.to_nat p) with (length pre) by (unfold len in *; lia).
  rewrite drop_app_length, position_nul_app by done. simpl.
  rewrite usize_add_ok by (unfold isize_max, usize_max in *; lia).
  unfold slice_range. rewrite (slice_get_app pre chars (0 :: post)) by lia.
  rewrite usize_add_ok by (unfold isize_max, usize_max in *; lia). simpl.
  assert (len (chars ++ [0]) = len chars + 1) as -> by (by rewrite len_app).
  unfold sm_modify, set_pos, mret, sm_ret. simpl. by rewrite Z.add_assoc.
Qed.

Lemma reads_aug_step p st i :
  item_fits i →
  R p (aug_step st (item_char i)) (item_data i) (item_apply (wrapping_add base p) st i).
Proof.
  intros Hi. destruct i as [e|e|ind f a d| | |]; cbn [item_data item_fits] in *.
  - eapply (reads_bind_nil _ read_u8); [apply reads_u8|apply reads_ret].
  - eapply (reads_bind_nil _ read_u8); [apply reads_u8|apply reads_ret].
  - change (ptr_code ind f a :: format_encode f d)
      with ([ptr_code ind f a] ++ format_encode f d).
    eapply (reads_bind _ read_u8); [apply reads_u8|]. cbn [item_apply].
    eapply reads_bind_nil; [apply reads_encoded; [done|by destruct ind]|].
    rewrite wrapping_add_assoc. apply reads_ret.
  - apply reads_ret.
  - apply reads_ret.
  - apply reads_ret.
Qed.

Lemma reads_aug_loop p st items :
  Forall item_fits items →
  R p (aug_loop (item_char <$> items) st) (items_data items)
    (items_apply (wrapping_add base p) st items).
Proof.
  intros Hi. revert p st. induction Hi as [|i items Hi _ IH]; intros p st; cbn.
  - apply reads_ret.
  - eapply reads_bind; [by apply reads_aug_step|]. rewrite wrapping_add_assoc. apply IH.
Qed.

Definition aug_result (p : Z) (aug : option (list aug_item)) : bool * AugState :=
  match aug with
  | None => (false, aug_init)
  | Some items =>
      (true, items_apply (wrapping_add base (p + len (uleb128 (len (items_data items)))))
               aug_init items)
  end.

Lemma reads_augmentation p start aug :
  Forall item_fits (default [] aug) → len (items_data (default [] aug)) ≤ isize_max →
  R p (read_augmentation start (aug_chars aug)) (aug_data aug) (aug_result p aug).
Proof.
  intros Hi Hl. destruct aug as [items|]; simpl in *; [|apply reads_ret].
  pose proof (len_nonneg (items_data items)). unfold isize_max in Hl.
  eapply (reads_bind _ read_uleb128); [apply reads_uleb; unfold is_u; lia|].
  eapply reads_bind_nil; [by apply reads_aug_loop|]. apply reads_ret.
Qed.

(** [Reads] with [n] more bytes known to follow. *)
Definition ReadsBefore {A} (n p : Z) (m : CM A) (l : list Z) (v : A) : Prop :=
  ∀ pre post, len pre = p → n ≤ len post → len (pre ++ l ++ post) ≤ isize_max →
  (m (mkCursor (pre ++ l ++ post) p base)).1 = Ok v.

Lemma reads_before_bind {A B} n p (m : CM A) (f : A → CM B) l1 l2 v w :
  R p m l1 v → ReadsBefore n (p + len l1) (f v) l2 w → ReadsBefore n p (m ≫= f) (l1 ++ l2) w.
Proof.
  intros Hm Hf pre post Hp Hn Hl. rewrite <- !app_assoc in *.
  rewrite (sm_bind_run _ _ _ _ _ (Hm pre (l2 ++ post) Hp Hl)).
  specialize (Hf (pre ++ l1) post). rewrite len_app, <- !app_assoc in Hf.
  by rewrite Hf by (done || lia).
Qed.

Lemma reads_before_get {A} n p (f : Cursor → CM A) l v :
  (∀ c, pos c = p → ReadsBefore n p (f c) l v) → ReadsBefore n p (sm_get ≫= f) l v.
Proof. intros Hf pre post Hp Hn Hl. unfold mbind, sm_bind, sm_get. by apply Hf. Qed.

Lemma reads_instr_range {A} n p e (f : Z * Z → CM A) v :
  0 ≤ n → e = p + n → f (p, n) = mret v → ReadsBefore n p (instr_range e ≫= f) [] v.
Proof.
  intros Hn -> Hf pre post Hp Hpost Hl.
  unfold instr_range, mbind, sm_bind, sm_get, sm_lift. simpl.
  rewrite len_app. destruct (Z.ltb_spec (len pre + len post) (p + n)); [lia|]. simpl.
  rewrite usize_sub_ok by lia. simpl. replace (p + n - p) with n by lia. by rewrite Hf.
Qed.
End reads.

(** ** Round trips of whole entries *)
Section entries.
Context `{Profile} (base : Z).

Lemma reads_check_version p v : v ∈ [1; 3; 4] → Reads base p (check_version v) [] ().
Proof.
  intros Hv. unfold check_version. rewrite !elem_of_cons in Hv.
  destruct Hv as [->|[->|[->|Hv]]]; [apply reads_ret..|by apply elem_of_nil in Hv].
Qed.

Lemma reads_check_address_size p v : Reads base p (check_address_size v) (v4_sizes v) ().
Proof.
  unfold check_address_size, v4_sizes. case_match; [|apply reads_ret].
  change [8; 0] with ([8] ++ [0]). eapply reads_bind; [apply reads_u8|].
  eapply reads_bind_nil; [apply reads_u8|]. apply reads_ret.
Qed.

Lemma reads_ra_column p v ra :
  is_u64 ra →
  Reads base p (if v =? 1 then read_u8 else read_uleb128) (ra_column v ra) ra.
Proof. intros. unfold ra_column. case_match; [apply reads_u8|by apply reads_uleb]. Qed.

Lemma aug_chars_nonzero aug : Forall (λ b, b ≠ 0) (aug_chars aug).
Proof.
  destruct aug as [items|]; constructor; [done|]. apply Forall_fmap, Forall_true.
  by intros [].
Qed.

(** The personality and encodings only depend on where the data starts. *)
Lemma aug_result_parsed cs off :
  let p := cie_instr_off cs off - len (aug_data (cs_aug cs)) in
  mkParsedCie (cs_code_align cs) (cs_data_align cs) (cs_ret_addr_column cs)
    (aug_fde_encoding (aug_result base p (cs_aug cs)).2)
    (aug_lsda_encoding (aug_result base p (cs_aug cs)).2)
    (aug_personality (aug_result base p (cs_aug cs)).2)
    (aug_result base p (cs_aug cs)).1 (aug_signal_frame (aug_result base p (cs_aug cs)).2)
    (cie_instr_off cs off) (len (cs_instrs cs)) = cie_parsed cs base off.
Proof.
  unfold cie_parsed. destruct (cs_aug cs) as [items|]; [|done].
  cbn [aug_result aug_data fst snd]. rewrite len_app.
  by replace (cie_instr_off cs off - (len (uleb128 (len (items_data items)))
      + len (items_data items)) + len (uleb128 (len (items_data items))))
    with (cie_instr_off cs off - len (items_data items)) by lia.
Qed.

Lemma cie_instr_off_eq cs p :
  cie_instr_off cs p = p + len (emit_length (cs_dwarf64 cs) (len (cie_body cs)))
    + len (cie_fixed cs) + len (aug_data (cs_aug cs)).
Proof.
  unfold cie_instr_off, emit_cie. rewrite len_app.
  enough (len (cie_body cs) = len (cie_fixed cs) + len (aug_data (cs_aug cs))
    + len (cs_instrs cs)) by lia.
  unfold cie_body. rewrite !len_app. lia.
Qed.

Lemma items_data_le_body cs : len (items_data (default [] (cs_aug cs))) ≤ len (cie_body cs).
Proof.
  unfold cie_body. rewrite !len_app. pose proof (len_nonneg (cie_fixed cs)).
  pose proof (len_nonneg (cs_instrs cs)). destruct (cs_aug cs) as [items|]; simpl.
  - rewrite len_app. pose proof (len_nonneg (uleb128 (len (items_data items)))). lia.
  - change (len (items_data [])) with 0. change (len (@nil Z)) with 0. lia.
Qed.

Lemma reads_cie p cs :
  cie_spec_ok cs → 0 ≤ p → p + len (emit_cie cs) ≤ isize_max →
  ReadsBefore base (len (cs_instrs cs)) p parse_cie_body
    (emit_length (cs_dwarf64 cs) (len (cie_body cs)) ++ cie_fixed cs ++ aug_data (cs_aug cs) ++ [])
    (cie_parsed cs base p).
Proof.
  intros (Hver & Hca & Hda & Hra & Haug & Hlen) Hp Hmax.
  pose proof (cie_instr_off_eq cs p) as Hoff. pose proof (items_data_le_body cs) as Hitems.
  unfold emit_cie in Hmax. rewrite len_app in Hmax.
  pose proof (len_nonneg (emit_length (cs_dwarf64 cs) (len (cie_body cs)))).
  unfold parse_cie_body.
  eapply reads_before_bind.
  { apply reads_entry_length; [done|]. unfold isize_max, u64_max in *. lia. }
  cbv beta iota. apply reads_before_get. intros c0 Hc0. unfold cie_fixed.
  rewrite <- !app_assoc.
  eapply reads_before_bind; [apply reads_entry_id; lia|].
  change (negb (0 =? 0)) with false. cbv iota.
  eapply reads_before_bind; [apply reads_u8|].
  rewrite <- (app_nil_l (aug_chars _ ++ _)).
  eapply reads_before_bind; [by apply reads_check_version|].
  apply reads_before_get. intros c1 Hc1. rewrite (app_assoc (aug_chars _)).
  eapply reads_before_bind; [apply reads_aug_string, aug_chars_nonzero|].
  eapply reads_before_bind; [apply reads_check_address_size|].
  eapply reads_before_bind; [by apply reads_uleb|].
  eapply reads_before_bind; [by apply reads_sleb|].
  eapply reads_before_bind; [by apply reads_ra_column|].
  eapply reads_before_bind; [apply reads_augmentation; [done|lia]|].
  rewrite <- aug_result_parsed.
  match goal with |- ReadsBefore _ _ ?q _ _ _ => assert (q = cie_instr_off cs p) as -> end.
  { rewrite Hoff. unfold cie_fixed. rewrite !len_app. change (len (@nil Z)) with 0. lia. }
  match goal with |- context [aug_result _ (_ + len (ra_column ?v ?r)) _] =>
    match goal with |- context [aug_result base (?q + len (ra_column v r)) _] =>
      replace (q + len (ra_column v r)) with (cie_instr_off cs p - len (aug_data (cs_aug cs)))
    end end.
  2: { rewrite Hoff. unfold cie_fixed. rewrite !len_app. change (len (@nil Z)) with 0. lia. }
  destruct (aug_result _ _ _) as [hz st].
  apply reads_instr_range; [apply len_nonneg| |done].
  unfold cie_instr_off, emit_cie. rewrite len_app. lia.
Qed.

(** ** FDEs *)
Lemma reads_set_pos p pad : Reads base p (sm_modify (set_pos (p + len pad))) pad ().
Proof. done. Qed.

Lemma range_enc_code f a : Z.land (ptr_code false f a) DW_EH_PE_FORMAT_MASK = ptr_code false f AppAbs.
Proof. by destruct f, a. Qed.

Lemma ptr_value_abs d pc tb db fb : ptr_value false AppAbs d pc tb db fb = as_u64 d.
Proof.
  unfold ptr_value. simpl. destruct (Z.eqb_spec (as_u64 d) 0) as [->|]; [done|].
  unfold wrapping_add. rewrite Z.add_0_r, wrap_small; [done|]. by apply wrap_bounds.
Qed.

Lemma reads_lsda p l tb db fb :
  lsda_fits l →
  Reads base p (if negb (lsda_code l =? DW_EH_PE_OMIT)
                then read_encoded (lsda_code l) tb db fb else mret 0)
    (lsda_bytes l)
    (match l with
     | None => 0
     | Some l => ptr_value false (ls_app l) (ls_d l) (wrapping_add base p) tb db fb
     end).
Proof.
  intros Hl. destruct l as [l|]; [|apply reads_ret]. cbn [lsda_code lsda_bytes lsda_fits] in *.
  replace (negb _) with true by (by destruct l as [[] []]).
  by apply (reads_encoded base p false).
Qed.

Lemma reads_fde_augmentation p fs tb db e pc :
  lsda_fits (fs_aug fs ≫= fst) → p + len (fde_aug_data fs) ≤ e → e ≤ isize_max → 0 ≤ p →
  Reads base p (read_fde_augmentation (fde_config fs tb db) e pc) (fde_aug_data fs)
    (match fs_aug fs with
     | Some (Some l, pad) =>
         ptr_value false (ls_app l) (ls_d l)
           (wrapping_add base (p + len (fde_aug_data fs) - len (lsda_bytes (Some l) ++ pad)))
           tb db pc
     | _ => 0
     end).
Proof.
  intros Hf He Hmax Hp. unfold read_fde_augmentation, fde_config, fde_aug_data in *.
  unfold isize_max in Hmax.
  destruct (fs_aug fs) as [[l pad]|]; cbn [cfg_has_z]; [|apply reads_ret].
  rewrite (len_app (uleb128 _)) in *. pose proof (len_nonneg (lsda_bytes l ++ pad)) as Hn.
  pose proof (len_nonneg (uleb128 (len (lsda_bytes l ++ pad)))).
  eapply reads_bind; [apply reads_uleb; split; [done|]; lia|].
  set (u := uleb128 (len (lsda_bytes l ++ pad))) in *. clearbody u.
  apply reads_get. intros c Hc _.
  rewrite usize_try_from_u64 by (unfold is_u; lia). apply reads_lift. cbv zeta. rewrite Hc.
  unfold checked_add. rewrite (proj2 (Z.leb_le _ _)) by (unfold u64_max; lia).
  apply reads_lift. rewrite (len_app (lsda_bytes l)) in *. pose proof (len_nonneg pad).
  rewrite (proj2 (Z.ltb_ge e _)) by lia.
  eapply reads_bind; [by apply reads_lsda|]. apply reads_get. intros c' Hc' _. rewrite Hc'.
  rewrite (proj2 (Z.ltb_ge _ _)) by lia.
  rewrite Z.add_assoc. eapply reads_bind_nil; [apply reads_set_pos|].
  destruct l as [l|]; [|apply reads_ret]. rewrite len_app. cbn [lsda_bytes].
  match goal with |- Reads _ _ _ _ (ptr_value _ _ _ (wrapping_add _ ?x) _ _ _) =>
    replace x with (p + len u) by lia end.
  apply reads_ret.
Qed.

Lemma reads_fde p fs tb db :
  fde_spec_ok fs → 0 ≤ p → p + len (emit_fde fs) ≤ isize_max →
  ReadsBefore base (len (fs_instrs fs)) p (parse_fde_body (fde_config fs tb db))
    (emit_length (fs_dwarf64 fs) (len (fde_body fs)) ++ fde_fixed fs ++ fde_aug_data fs ++ [])
    (fde_parsed fs base p tb db).
Proof.
  intros (Hptr & Hd & Hrng & Hlsda & Hlen) Hp Hmax.
  unfold emit_fde in Hmax. rewrite len_app in Hmax.
  assert (len (fde_body fs) = len (fde_fixed fs) + len (fde_aug_data fs) + len (fs_instrs fs))
    as Hbody by (unfold fde_body; rewrite !len_app; lia).
  pose proof (len_nonneg (emit_length (fs_dwarf64 fs) (len (fde_body fs)))).
  pose proof (len_nonneg (fs_instrs fs)). pose proof (len_nonneg (fde_fixed fs)).
  unfold fde_parsed, fde_initial_pc, fde_instr_off, emit_fde, parse_fde_body. cbv zeta.
  rewrite (len_app _ (fde_body fs)).
  set (pl := emit_length (fs_dwarf64 fs) (len (fde_body fs))) in *.
  eapply reads_before_bind.
  { apply reads_entry_length; [done|]. fold pl. unfold isize_max, u64_max in *. lia. }
  fold pl. cbv beta iota. apply reads_before_get. intros c0 Hc0.
  unfold fde_fixed in *. rewrite <- !app_assoc. rewrite !len_app in *.
  eapply reads_before_bind; [apply reads_entry_id; lia|].
  destruct (Z.eqb_spec (fs_cie_ptr fs) 0); [lia|].
  eapply reads_before_bind; [by apply (reads_encoded base _ false)|]. cbv zeta.
  cbn [fde_config cfg_fde_encoding text_base data_base]. rewrite range_enc_code.
  eapply reads_before_bind; [by apply (reads_encoded base _ false)|].
  rewrite ptr_value_abs.
  eapply reads_before_bind; [apply reads_fde_augmentation; [done|lia..]|].
  apply reads_instr_range; [done|lia|]. f_equal. f_equal; [lia|].
  destruct (fs_aug fs) as [[[l|] pad]|]; [|done..].
  match goal with |- ptr_value _ _ _ (wrapping_add _ ?x) _ _ _ =
    ptr_value _ _ _ (wrapping_add _ ?y) _ _ _ => replace x with y by lia end. done.
Qed.
End entries.

(** ** Whole entries in a section *)
Lemma parse_cie_emitted `{Profile} pre post base cs :
  cie_spec_ok cs → len (pre ++ emit_cie cs ++ post) ≤ isize_max →
  parse_cie (pre ++ emit_cie cs ++ post) (len pre) base = Ok (cie_parsed cs base (len pre)).
Proof.
  intros Hcs Hl. pose proof (reads_cie base (len pre) cs Hcs (len_nonneg pre)) as Hr.
  unfold parse_cie. unfold emit_cie, cie_body in *. rewrite app_nil_r in Hr.
  rewrite <- !app_assoc in *.
  specialize (Hr ltac:(rewrite !len_app in *; pose proof (len_nonneg post); lia)
    pre (cs_instrs cs ++ post)). rewrite <- !app_assoc in Hr. apply Hr; [done| |done].
  rewrite len_app. pose proof (len_nonneg post). lia.
Qed.

Lemma parse_fde_emitted `{Profile} pre post base tb db fs :
  fde_spec_ok fs → len (pre ++ emit_fde fs ++ post) ≤ isize_max →
  parse_fde (pre ++ emit_fde fs ++ post) (len pre) base (fde_config fs tb db) =
  Ok (fde_parsed fs base (len pre) tb db).
Proof.
  intros Hfs Hl. pose proof (reads_fde base (len pre) fs tb db Hfs (len_nonneg pre)) as Hr.
  unfold parse_fde. unfold emit_fde, fde_body in *. rewrite app_nil_r in Hr.
  rewrite <- !app_assoc in *.
  specialize (Hr ltac:(rewrite !len_app in *; pose proof (len_nonneg post); lia)
    pre (fs_instrs fs ++ post)). rewrite <- !app_assoc in Hr. apply Hr; [done| |done].
  rewrite len_app. pose proof (len_nonneg post). lia.
Qed.

(** C16: round trip of a whole CIE.  For every version, 32- and 64-bit format,
    alignment factors, return-address column and augmentation (none, or any
    sequence of R, L, P, S, B and G items with any of the supported pointer
    encodings), parsing an emitted CIE anywhere in a section returns exactly
    the emitted fields, the position of the initial instructions and their
    length. *)
Theorem parse_cie_roundtrip `{Profile} (pre post : list Z) (base : Z) (cs : CieSpec) :
  cie_spec_ok cs → len (pre ++ emit_cie cs ++ post) ≤ isize_max →
  parse_cie (pre ++ emit_cie cs ++ post) (len pre) base = Ok (cie_parsed cs base (len pre)).
Proof. apply parse_cie_emitted. Qed.

(** C17: round trip of a whole FDE.  For both entry formats, every supported
    pointer encoding of the function start, range and LSDA, and augmentation
    data with padding, parsing an emitted FDE with its CIE's configuration
    returns the function start, size, LSDA and instruction range that were
    emitted. *)
Theorem parse_fde_roundtrip `{Profile} (pre post : list Z) (base tb db : Z) (fs : FdeSpec) :
  fde_spec_ok fs → len (pre ++ emit_fde fs ++ post) ≤ isize_max →
  parse_fde (pre ++ emit_fde fs ++ post) (len pre) base (fde_config fs tb db) =
  Ok (fde_parsed fs base (len pre) tb db).
Proof. apply parse_fde_emitted. Qed.

(** Unsigned LEB128 round trip: every [u64] is read back from its
    encoding, wherever it lies in the section, and the cursor ends just after
    it. *)
Theorem uleb128_roundtrip `{Profile} (pre post : list Z) (base v : Z) :
  is_u64 v → len (pre ++ uleb128 v ++ post) ≤ isize_max →
  read_uleb128 (mkCursor (pre ++ uleb128 v ++ post) (len pre) base) =
  (Ok v, mkCursor (pre ++ uleb128 v ++ post) (len pre + len (uleb128 v)) base).
Proof. intros Hv Hl. by apply reads_uleb. Qed.

(** Signed LEB128 round trip: every [i64], including the two extreme
    values whose last group straddles bit 63, is read back from its encoding. *)
Theorem sleb128_roundtrip `{Profile} (pre post : list Z) (base v : Z) :
  is_i64 v → len (pre ++ sleb128 v ++ post) ≤ isize_max →
  read_sleb128 (mkCursor (pre ++ sleb128 v ++ post) (len pre) base) =
  (Ok v, mkCursor (pre ++ sleb128 v ++ post) (len pre + len (sleb128 v)) base).
Proof. intros Hv Hl. by apply reads_sleb. Qed.

(** Resolution of encoded pointers: a target address encoded as a
    displacement from its base (absolute, pc-, text-, data- or
    function-relative) in any format that holds the displacement is read back
    as the target itself; a zero displacement, which the format reserves for
    "absent", is the one exception and is excluded. *)
Theorem read_encoded_target `{Profile} (pre post : list Z) (base tb db fb target : Z)
    (f : ptr_format) (a : ptr_app) :
  let b := app_base a (wrapping_add base (len pre)) tb db fb in
  let bs := pre ++ format_encode f (target - b) ++ post in
  is_u64 target → is_u64 b → format_fits f (target - b) → target ≠ b → len bs ≤ isize_max →
  (read_encoded (ptr_code false f a) tb db fb (mkCursor bs (len pre) base)).1 = Ok target.
Proof.
  intros b bs Ht Hb Hf Hne Hl.
  pose proof (reads_encoded base (len pre) false f a (target - b) tb db fb false Hf eq_refl
    pre post eq_refl Hl) as Hr.
  unfold read_encoded, bs. rewrite Hr. cbn [fst]. f_equal. unfold ptr_value. cbn [orb]. fold b.
  destruct (Z.eqb_spec (as_u64 (target - b)) 0) as [Hz|].
  - exfalso. unfold as_u64, wrap, is_u in *. apply Z.mod_divide in Hz as [q Hq]; [|lia].
    assert (q = 0) by nia. lia.
  - rewrite wrapping_add_displacement; [lia|]. by replace (target - b + b) with target by lia.
Qed.

(** An unsigned LEB128 of ten groups whose last group does not fit the
    remaining bit of a [u64] is not reported as [Leb128Overflow]: its high bits
    are dropped, and the over-long value reads like [u64::MAX]. *)
Theorem uleb128_drops_high_bits `{Profile} :
  let nines := replicate 9 0xff in
  (read_uleb128 (mkCursor (nines ++ [0x7f]) 0 0)).1 = Ok u64_max ∧
  (read_uleb128 (mkCursor (nines ++ [0x01]) 0 0)).1 = Ok u64_max ∧
  uleb128 u64_max = nines ++ [0x01].
Proof. vm_compute. done. Qed.

(** ** The hypotheses hold: concrete instances *)
Lemma uleb128_roundtrip_witness :
  (read_uleb128 (H:=true) (mkCursor ([7] ++ uleb128 624485 ++ [9]) 1 0)).1 = Ok 624485.
Proof.
  refine (f_equal fst (uleb128_roundtrip (H:=true) [7] [9] 0 624485 _ _)).
  - unfold is_u. lia.
  - by vm_compute.
Defined.

Lemma sleb128_roundtrip_witness :
  (read_sleb128 (H:=true) (mkCursor ([7] ++ sleb128 (- 2 ^ 63) ++ [9]) 1 0)).1 = Ok (- 2 ^ 63).
Proof.
  refine (f_equal fst (sleb128_roundtrip (H:=true) [7] [9] 0 (- 2 ^ 63) _ _)).
  - unfold is_i64. lia.
  - by vm_compute.
Defined.

Lemma read_encoded_target_witness :
  (read_encoded (H:=false) (ptr_code false Sdata4 AppPcrel) 0 0 0
     (mkCursor ([0; 0] ++ format_encode Sdata4 (0x1000 - 0x3002) ++ [1]) 2 0x3000)).1 = Ok 0x1000.
Proof.
  apply (read_encoded_target (H:=false) [0; 0] [1] 0x3000 0 0 0 0x1000 Sdata4 AppPcrel);
    vm_compute; try done; split; done.
Defined.

Definition zplr_spec : CieSpec :=
  mkCieSpec false 1 (Some [ItemP true Sdata4 AppPcrel 0; ItemL 0xff; ItemR 0x1b]) 1 (-8) 16
    [0x0c; 7; 8; 0x90; 1; 0; 0].

Lemma parse_cie_roundtrip_witness :
  parse_cie (H:=true) ([0] ++ emit_cie zplr_spec ++ [0; 0]) 1 0x1000 =
  Ok (mkParsedCie 1 (-8) 16 0x1b 0xff 0 true false 26 7).
Proof.
  refine (parse_cie_roundtrip (H:=true) [0] [0; 0] 0x1000 zplr_spec _ _).
  - split_and!; [by apply elem_of_cons; left|by vm_compute..|by repeat constructor|by vm_compute].
  - by vm_compute.
Defined.

Definition fde_spec_example : FdeSpec :=
  mkFdeSpec true 37 Sdata4 AppPcrel (-0x2000) 0x10
    (Some (Some (mkLsdaSpec Udata4 AppDatarel 0x20), [0])) [0; 0; 0].

Lemma parse_fde_roundtrip_witness :
  parse_fde (H:=false) ([] ++ emit_fde fde_spec_example ++ [1]) 0 0x3000
    (fde_config fde_spec_example 0 0x4000) =
  Ok (mkParsedFde 0x1014 0x10 34 3 0x4020).
Proof.
  refine (parse_fde_roundtrip (H:=false) [] [1] 0x3000 0 0x4000 fde_spec_example _ _).
  - by vm_compute.
  - by vm_compute.
Defined.
