(* ===== verification/Leb128.v ===== *)
(** * LEB128 decoding on every input

    The reference decoding of the DWARF variable-length integers, and the
    equivalence with [Cursor::read_uleb128] and [Cursor::read_sleb128] of
    [src/src/dwarf.rs] on every section and position, the error cases included. *)

From S2P Require Import Prelude.
From S2P Require Import Errors.
From S2P Require Import Dwarf.
From S2P Require Import DwarfSafety.
From S2P Require Import DwarfCodec.

(** ** The reference

    The seven-bit groups of an encoding, up to the first byte without the
    continuation bit; a 64-bit value has at most [n] = 10 of them. *)
Inductive LebScan : Type :=
  | LebGroups (groups : list Z)
  | LebShort
  | LebLong.

Fixpoint leb_scan (n : nat) (l : list Z) : LebScan :=
  match n, l with
  | O, _ => LebLong
  | S _, [] => LebShort
  | S n', b :: l' =>
      if b <? 128 then LebGroups [b]
      else match leb_scan n' l' with
           | LebGroups gs => LebGroups ((b - 128) :: gs)
           | r => r
           end
  end.

(** The value, the first group the least significant; the signed value is the
    two's complement reading of its [7 * len gs] bits. *)
Definition leb_value (gs : list Z) : Z := foldr (λ g v, g + 128 * v) 0 gs.
Definition leb_signed (gs : list Z) : Z := as_signed (7 * len gs) (leb_value gs).

(** What a reader at position [p] of [bs] returns, with [f] the decoding of the
    groups, and where it leaves the cursor. *)
Definition leb_result (f : list Z → Z) (n : nat) (bs : list Z) (p base : Z)
    : outcome DwarfParseError Z * Cursor :=
  match leb_scan n (drop (Z.to_nat p) bs) with
  | LebGroups gs => (Ok (f gs), mkCursor bs (p + len gs) base)
  | LebShort =>
      (Err (mkDwarfParseError (len bs) (Truncated (len bs + 1) (len bs))), mkCursor bs (len bs) base)
  | LebLong =>
      (Err (mkDwarfParseError (p + Z.of_nat n) Leb128Overflow), mkCursor bs (p + Z.of_nat n) base)
  end.

(** ** Groups *)
Lemma leb_scan_range n l gs :
  Forall is_u8 l → leb_scan n l = LebGroups gs → Forall (λ g, 0 ≤ g < 128) gs ∧ gs ≠ [].
Proof.
  intros Hl. revert n gs. induction Hl as [|b l Hb Hl IH]; intros [|n] gs; try done.
  cbn [leb_scan]. unfold is_u in Hb. change (2 ^ 8) with 256 in Hb.
  destruct (Z.ltb_spec b 128).
  - intros [= <-]. split; [|done]. constructor; [lia|done].
  - destruct (leb_scan n l) as [gs'| |] eqn:Hs; try done. intros [= <-].
    split; [|done]. constructor; [lia|]. by eapply IH.
Qed.

Lemma leb_value_bounds gs :
  Forall (λ g, 0 ≤ g < 128) gs → 0 ≤ leb_value gs < 2 ^ (7 * len gs).
Proof.
  induction 1 as [|g gs Hg _ IH]; [by vm_compute|]. rewrite len_cons.
  pose proof (len_nonneg gs). unfold leb_value in *. cbn [foldr].
  replace (7 * (1 + len gs)) with (7 + 7 * len gs) by lia.
  rewrite Z.pow_add_r by lia. change (2 ^ 7) with 128. nia.
Qed.

Lemma leb_signed_cons g gs :
  0 ≤ g < 128 → Forall (λ g, 0 ≤ g < 128) gs → gs ≠ [] →
  leb_signed (g :: gs) = g + 128 * leb_signed gs.
Proof.
  intros Hg Hgs Hne. pose proof (leb_value_bounds gs Hgs) as Hv.
  assert (0 < len gs) by (destruct gs; [done|rewrite len_cons; pose proof (len_nonneg gs); lia]).
  unfold leb_signed, as_signed. rewrite len_cons.
  replace (7 * (1 + len gs) - 1) with (7 + (7 * len gs - 1)) by lia.
  replace (7 * (1 + len gs)) with (7 + 7 * len gs) by lia.
  rewrite !(Z.pow_add_r 2 7) by lia. change (2 ^ 7) with 128.
  change (leb_value (g :: gs)) with (g + 128 * leb_value gs).
  repeat case_match; zify_bools; lia.
Qed.

(** ** One byte *)

Lemma is_u_mono w w' z : w ≤ w' → is_u w z → is_u w' z.
Proof. unfold is_u. intros Hw Hz. pose proof (Z.pow_le_mono_r 2 w w'). lia. Qed.

(** A group shifted into place keeps its low bits. *)
Lemma lor_group s r q :
  0 ≤ s < 64 → is_u s r → 0 ≤ q →
  Z.lor r (wrap 64 (Z.shiftl q s)) = wrap 64 (r + q * 2 ^ s).
Proof.
  intros Hs Hr Hq. pose proof (Z.pow_pos_nonneg 2 s) as Hp.
  assert (2 ^ 64 = 2 ^ (64 - s) * 2 ^ s) as H64 by (rewrite <- Z.pow_add_r by lia; f_equal; lia).
  pose proof (Z.pow_pos_nonneg 2 (64 - s)).
  assert (wrap 64 (Z.shiftl q s) = Z.shiftl (q mod 2 ^ (64 - s)) s) as ->.
  { unfold wrap. rewrite !Z.shiftl_mul_pow2, H64 by lia. apply Zmult_mod_distr_r. }
  rewrite lor_shift_add by (done || lia). unfold wrap.
  pose proof (Z.mod_pos_bound q (2 ^ (64 - s))). unfold is_u in Hr.
  replace (r + q * 2 ^ s)
    with (r + q mod 2 ^ (64 - s) * 2 ^ s + q / 2 ^ (64 - s) * 2 ^ 64).
  2: { rewrite H64. rewrite (Z.div_mod q (2 ^ (64 - s))) at 3 by lia. ring. }
  rewrite Z.mod_add by lia. symmetry. apply Z.mod_small. rewrite H64. nia.
Qed.

Lemma read_u8_short `{Profile} bs p base :
  bytes_ok bs → 0 ≤ p ≤ len bs → drop (Z.to_nat p) bs = [] →
  read_u8 (mkCursor bs p base) =
  (Err (mkDwarfParseError (len bs) (Truncated (len bs + 1) (len bs))), mkCursor bs (len bs) base).
Proof.
  intros [_ Hl] Hp Hd. assert (p = len bs) as ->.
  { apply (f_equal length) in Hd. rewrite length_drop in Hd. unfold len in *. simpl in Hd. lia. }
  unfold read_u8, mbind, sm_bind, sm_get, sm_lift, sm_err. cbn [bytes pos].
  unfold isize_max in Hl.
  assert (slice_get_at bs (len bs) = None) as ->
    by (unfold slice_get_at; case_match; zify_bools; [lia|done]).
  by rewrite usize_add_ok by (unfold usize_max; lia).
Qed.

Lemma read_u8_byte `{Profile} bs p base b l :
  bytes_ok bs → 0 ≤ p ≤ len bs → drop (Z.to_nat p) bs = b :: l →
  read_u8 (mkCursor bs p base) = (Ok b, mkCursor bs (p + 1) base) ∧
  is_u8 b ∧ p + 1 ≤ len bs ∧ drop (Z.to_nat (p + 1)) bs = l.
Proof.
  intros [Hf Hl] Hp Hd.
  assert (bs !! Z.to_nat p = Some b) as Hb.
  { pose proof (lookup_drop bs (Z.to_nat p) 0) as He. rewrite Hd, Nat.add_0_r in He. done. }
  pose proof (lookup_lt_Some _ _ _ Hb). unfold isize_max, len in *.
  split_and!.
  - unfold read_u8, mbind, sm_bind, sm_get, sm_lift, sm_modify, mret, sm_ret. cbn [bytes pos].
    rewrite slice_get_at_lookup, Hb by (unfold len; lia).
    by rewrite usize_add_ok by (unfold usize_max; lia).
  - by eapply Forall_lookup_1.
  - lia.
  - replace (Z.to_nat (p + 1)) with (Z.to_nat p + 1)%nat by lia.
    rewrite <- drop_drop, Hd. done.
Qed.

(** The last group of a signed value: sign extension below 64 bits, and the
    one bit left of the tenth group. *)
Lemma sleb_last k q r :
  let shift := 7 * k in
  let result := Z.lor r (as_signed 64 (wrap 64 (Z.shiftl q shift))) in
  0 ≤ k ≤ 9 → 0 ≤ q < 128 → is_u shift r →
  (if (shift + 7 <? 64) && negb (q <? 64)
   then Z.lor result (as_signed 64 (wrap 64 (Z.shiftl (-1) (shift + 7)))) else result) =
  as_signed 64 (wrap 64 (r + as_signed 7 q * 2 ^ shift)).
Proof.
  intros shift result Hk Hq Hr. unfold result. pose proof (Z.pow_pos_nonneg 2 shift) as Hs.
  destruct (decide (k = 9)) as [->|].
  - destruct (Z.ltb_spec (shift + 7) 64); [lia|]. cbn [andb]. subst shift. change (7 * 9) with 63 in *.
    assert (as_signed 7 q * 2 ^ 63 =
            (q mod 2) * 2 ^ 63 + (q / 2 - (if q <? 64 then 0 else 64)) * 2 ^ 64) as ->.
    { unfold as_signed. change (2 ^ (7 - 1)) with 64. change (2 ^ 7) with 128.
      pose proof (Z.div_mod q 2). change (2 ^ 64) with (2 * 2 ^ 63). case_match; lia. }
    rewrite Z.add_assoc. unfold wrap at 2. rewrite Z.mod_add by lia. fold (wrap 64 (r + q mod 2 * 2 ^ 63)).
    replace (wrap 64 (Z.shiftl q 63)) with (q mod 2 * 2 ^ 63).
    2: { unfold wrap. rewrite Z.shiftl_mul_pow2 by lia. change (2 ^ 64) with (2 * 2 ^ 63).
         by rewrite Zmult_mod_distr_r. }
    pose proof (Z.mod_pos_bound q 2). unfold is_u in Hr.
    assert (q mod 2 = 0 ∨ q mod 2 = 1) as [->| ->] by lia.
    + change (as_signed 64 (0 * 2 ^ 63)) with 0. rewrite Z.lor_0_r, Z.add_0_r.
      rewrite signed_wrap; [done|lia|]. change (64 - 1) with 63. lia.
    + change (as_signed 64 (1 * 2 ^ 63)) with (Z.shiftl (-1) 63).
      rewrite lor_shift_add, wrap_small by (unfold is_u; lia).
      unfold as_signed. change (64 - 1) with 63. case_match; zify_bools; lia.
  - destruct (sleb_payload k q r) as [Heq Hu]; [lia|lia|done|]. fold shift in Heq, Hu. rewrite Heq.
    destruct (Z.ltb_spec (shift + 7) 64); [|lia]. cbn [andb].
    assert (2 ^ (shift + 7) ≤ 2 ^ 63) as H63 by (apply Z.pow_le_mono_r; lia).
    assert (2 ^ (shift + 7) = 128 * 2 ^ shift) as H7 by (rewrite Z.pow_add_r by lia; lia).
    unfold is_u in Hr, Hu. unfold as_signed at 3. change (2 ^ (7 - 1)) with 64. change (2 ^ 7) with 128.
    destruct (Z.ltb_spec q 64); cbn [negb].
    + rewrite signed_wrap; [done|lia|]. change (64 - 1) with 63. lia.
    + rewrite !signed_wrap; [|lia| |lia|].
      * rewrite lor_shift_add by (done || lia). lia.
      * change (64 - 1) with 63. nia.
      * rewrite Z.shiftl_mul_pow2 by lia. change (64 - 1) with 63. lia.
Qed.

(** ** The loops *)
Section loops.
Context `{Profile} (bs : list Z) (base : Z) (Hbs : bytes_ok bs).

(** The [k]-th iteration, with the value of the earlier groups in [r]. *)
Lemma uleb128_loop_spec n k p r :
  0 ≤ k → k + Z.of_nat n = 10 → (0 < n)%nat → 0 ≤ p ≤ len bs → is_u (7 * k) r →
  uleb128_loop n r (7 * k) (mkCursor bs p base) =
  leb_result (λ gs, wrap 64 (r + leb_value gs * 2 ^ (7 * k))) n bs p base.
Proof.
  revert k p r. induction n as [|n IH]; intros k p r Hk Hn Hn0 Hp Hr; [lia|]. clear Hn0.
  unfold leb_result. cbn [uleb128_loop leb_scan]. unfold mbind at 1, sm_bind at 1.
  destruct (drop (Z.to_nat p) bs) as [|b l] eqn:Hd; [by rewrite read_u8_short|].
  destruct (read_u8_byte bs p base b l) as (-> & Hb & Hp1 & Hd1); [done..|].
  unfold is_u in Hb. change (2 ^ 8) with 256 in Hb. cbv zeta.
  rewrite land_7f, land_80 by done. pose proof (Z.mod_pos_bound b 128).
  destruct (Z.ltb_spec b 128).
  { rewrite lor_group by (done || lia). rewrite Z.mod_small by lia. cbn.
    unfold mret, sm_ret. do 4 f_equal. lia. }
  destruct (Z.leb_spec 64 (7 * k + 7)).
  { assert (n = 0%nat) as -> by lia. cbn [leb_scan].
    unfold mbind, sm_bind, sm_get, sm_err. cbn [pos]. done. }
  assert (b mod 128 = b - 128) as Hm.
  { rewrite <- (Z.mod_add b (-1)) by lia. apply Z.mod_small. lia. }
  pose proof (Z.pow_pos_nonneg 2 (7 * k)).
  assert (is_u (7 * k + 7) (r + b mod 128 * 2 ^ (7 * k))) as Hr'.
  { unfold is_u in *. rewrite Z.pow_add_r by lia. change (2 ^ 7) with 128. nia. }
  rewrite lor_group by (done || lia). rewrite wrap_small.
  2: { eapply is_u_mono; [|done]. lia. }
  replace (7 * k + 7) with (7 * (k + 1)) in * by lia.
  rewrite IH by (done || lia). unfold leb_result. rewrite Hd1.
  destruct (leb_scan n l) as [gs| |]; [|done|by replace (p + 1 + Z.of_nat n) with (p + Z.of_nat (S n)) by lia].
  rewrite len_cons, Z.add_assoc. do 3 f_equal.
  replace (7 * (k + 1)) with (7 * k + 7) by lia. rewrite Z.pow_add_r by lia.
  change (2 ^ 7) with 128. cbn [leb_value foldr]. rewrite Hm. fold (leb_value gs). ring.
Qed.

Lemma sleb128_loop_spec n k p r :
  0 ≤ k → k + Z.of_nat n = 10 → (0 < n)%nat → 0 ≤ p ≤ len bs → is_u (7 * k) r →
  sleb128_loop n r (7 * k) (mkCursor bs p base) =
  leb_result (λ gs, as_signed 64 (wrap 64 (r + leb_signed gs * 2 ^ (7 * k)))) n bs p base.
Proof.
  revert k p r. induction n as [|n IH]; intros k p r Hk Hn Hn0 Hp Hr; [lia|]. clear Hn0.
  unfold leb_result. cbn [sleb128_loop leb_scan]. unfold mbind at 1, sm_bind at 1.
  destruct (drop (Z.to_nat p) bs) as [|b l] eqn:Hd; [by rewrite read_u8_short|].
  destruct (read_u8_byte bs p base b l) as (-> & Hb & Hp1 & Hd1); [done..|].
  pose proof Hb as Hb'. unfold is_u in Hb'. change (2 ^ 8) with 256 in Hb'. cbv zeta.
  rewrite land_7f, land_80 by done. pose proof (Z.mod_pos_bound b 128).
  destruct (Z.ltb_spec b 128).
  { rewrite land_40, Z.mod_small by lia. rewrite sleb_last by (done || lia).
    unfold leb_signed, leb_value. cbn [foldr]. by rewrite Z.mul_0_r, Z.add_0_r. }
  destruct (Z.leb_spec 64 (7 * k + 7)).
  { assert (n = 0%nat) as -> by lia. cbn [leb_scan].
    unfold mbind, sm_bind, sm_get, sm_err. cbn [pos]. done. }
  assert (b mod 128 = b - 128) as Hm.
  { rewrite <- (Z.mod_add b (-1)) by lia. apply Z.mod_small. lia. }
  destruct (sleb_payload k (b mod 128) r) as [-> Hr']; [lia|lia|done|].
  replace (7 * k + 7) with (7 * (k + 1)) in * by lia.
  rewrite IH by (done || lia). unfold leb_result. rewrite Hd1.
  destruct (leb_scan n l) as [gs| |] eqn:Hgs;
    [|done|by replace (p + 1 + Z.of_nat n) with (p + Z.of_nat (S n)) by lia].
  destruct (leb_scan_range n l gs) as [Hrange Hne]; [|done|].
  { rewrite <- Hd1. apply Forall_drop, Hbs. }
  rewrite len_cons, Z.add_assoc. do 4 f_equal. rewrite leb_signed_cons by (done || lia).
  replace (7 * (k + 1)) with (7 * k + 7) by lia. rewrite Z.pow_add_r by lia.
  change (2 ^ 7) with 128. rewrite Hm. ring.
Qed.
End loops.

(** ** Properties *)

(** [read_uleb128] decodes unsigned LEB128 exactly, on every section and
    position: the groups up to the first byte without a continuation bit, modulo
    [2^64], when one is among the first ten bytes; otherwise it reports the end
    of the section, or an overflow after ten bytes. *)
Theorem read_uleb128_spec `{Profile} (bs : list Z) (p base : Z) :
  bytes_ok bs → 0 ≤ p ≤ len bs →
  read_uleb128 (mkCursor bs p base) = leb_result (λ gs, wrap 64 (leb_value gs)) 10 bs p base.
Proof.
  intros Hbs Hp. unfold read_uleb128. change 0 with (7 * 0) at 2.
  rewrite uleb128_loop_spec by (done || lia). unfold leb_result.
  destruct (leb_scan _ _); [|done..]. by rewrite Z.mul_1_r.
Qed.

(** [read_sleb128] decodes signed LEB128 the same way: the two's complement
    value of the groups, as an [i64]. *)
Theorem read_sleb128_spec `{Profile} (bs : list Z) (p base : Z) :
  bytes_ok bs → 0 ≤ p ≤ len bs →
  read_sleb128 (mkCursor bs p base) =
  leb_result (λ gs, as_signed 64 (wrap 64 (leb_signed gs))) 10 bs p base.
Proof.
  intros Hbs Hp. unfold read_sleb128. change 0 with (7 * 0) at 2.
  rewrite sleb128_loop_spec by (done || lia). unfold leb_result.
  destruct (leb_scan _ _); [|done..]. by rewrite Z.mul_1_r.
Qed.

(** *** Witnesses: values, an end of section and an overflow *)
Lemma read_uleb128_spec_witness :
  (read_uleb128 (H:=true) (mkCursor [7; 0xe5; 0x8e; 0x26; 9] 1 0)).1 = Ok 624485 ∧
  (read_uleb128 (H:=true) (mkCursor [0xe5; 0x8e] 0 0)).1 =
    Err (mkDwarfParseError 2 (Truncated 3 2)) ∧
  (read_uleb128 (H:=true) (mkCursor (replicate 11 0x80) 0 0)).1 =
    Err (mkDwarfParseError 10 Leb128Overflow).
Proof.
  rewrite !read_uleb128_spec; [done|apply (bool_decide_unpack _); by vm_compute|done|
    apply (bool_decide_unpack _); by vm_compute|done|apply (bool_decide_unpack _); by vm_compute|done].
Defined.

Lemma read_sleb128_spec_witness :
  (read_sleb128 (H:=true) (mkCursor [7; 0x80; 0x7f; 9] 1 0)).1 = Ok (-128).
Proof.
  rewrite read_sleb128_spec; [done|apply (bool_decide_unpack _); by vm_compute|done].
Defined.
