(* ===== verification/DwarfGrammar.v ===== *)
(** * The entries the CIE/FDE parser accepts

    A grammar of [.eh_frame] entries, written on the bytes, and the proof that
    [parse_cie] and [parse_fde] of [src/src/dwarf.rs] accept exactly the entries
    of the grammar and return the fields it gives them.  The encoders of
    [DwarfCodec] produce some of these entries; the grammar also has the others:
    over-long LEB128 encodings, absent pointers under any application, entries
    whose augmentation length disagrees with its data. *)

From S2P Require Import Prelude.
From S2P Require Import Errors.
From S2P Require Import Ffi.
From S2P Require Import Dwarf.
From S2P Require Import DwarfSafety.
From S2P Require Import DwarfCodec.
From S2P Require Import Leb128.

(** ** The grammar *)

(** The bytes of a list of seven-bit groups: all but the last have the
    continuation bit. *)
Fixpoint leb_bytes (gs : list Z) : list Z :=
  match gs with
  | [] => []
  | g :: gs' => match gs' with [] => [g] | _ :: _ => (128 + g) :: leb_bytes gs' end
  end.

Definition leb_groups (gs : list Z) : Prop :=
  gs ≠ [] ∧ (length gs ≤ 10)%nat ∧ Forall (λ g, 0 ≤ g < 128) gs.

Definition UlebWire (l : list Z) (v : Z) : Prop :=
  ∃ gs, leb_groups gs ∧ l = leb_bytes gs ∧ v = wrap 64 (leb_value gs).
Definition SlebWire (l : list Z) (v : Z) : Prop :=
  ∃ gs, leb_groups gs ∧ l = leb_bytes gs ∧ v = as_signed 64 (wrap 64 (leb_signed gs)).

(** The bytes [l] hold the displacement [d] in format [f]. *)
Definition PtrBytes (f : ptr_format) (l : list Z) (d : Z) : Prop :=
  match f with
  | Udata2 => len l = 2 ∧ d = le_decode l
  | Udata4 => len l = 4 ∧ d = le_decode l
  | Absptr | Udata8 => len l = 8 ∧ d = le_decode l
  | Sdata2 => len l = 2 ∧ d = as_signed 16 (le_decode l)
  | Sdata4 => len l = 4 ∧ d = as_signed 32 (le_decode l)
  | Sdata8 => len l = 8 ∧ d = as_signed 64 (le_decode l)
  | Uleb => UlebWire l d
  | Sleb => SlebWire l d
  end.

(** The three parts of an encoding byte. *)
Definition enc_indirect (enc : Z) : bool := negb (Z.land enc DW_EH_PE_INDIRECT =? 0).
Definition enc_format (enc : Z) : Z := Z.land enc DW_EH_PE_FORMAT_MASK.
Definition enc_app (enc : Z) : Z := Z.land enc DW_EH_PE_APP_MASK.

(** An encoded pointer: a displacement from its base, a zero that stands for
    "no pointer" whatever the base, or the address of a pointer, which only the
    personality may be and which is not followed. *)
Inductive PtrWire (allow_indirect : bool) (enc pcrel tb db fb : Z) : list Z → Z → Prop :=
  | WireDirect f a l d :
      enc_indirect enc = false → enc_format enc = format_code f → enc_app enc = app_code a →
      PtrBytes f l d → as_u64 d ≠ 0 →
      PtrWire allow_indirect enc pcrel tb db fb l
        (wrapping_add (as_u64 d) (app_base a pcrel tb db fb))
  | WireAbsent f l d :
      enc_indirect enc = false → enc_format enc = format_code f →
      PtrBytes f l d → as_u64 d = 0 →
      PtrWire allow_indirect enc pcrel tb db fb l 0
  | WireIndirect f l d :
      allow_indirect = true → enc_indirect enc = true → enc_format enc = format_code f →
      PtrBytes f l d →
      PtrWire allow_indirect enc pcrel tb db fb l 0.

(** A letter of the augmentation string, with the data it has at tracee address
    [avma] and its effect. *)
Inductive AugItem (avma : Z) (st : AugState) : Z → list Z → AugState → Prop :=
  | WireR e :
      AugItem avma st 82 [e]
        (mkAugState e (aug_lsda_encoding st) (aug_personality st) (aug_signal_frame st))
  | WireL e :
      AugItem avma st 76 [e]
        (mkAugState (aug_fde_encoding st) e (aug_personality st) (aug_signal_frame st))
  | WireP enc l v :
      PtrWire true enc (wrapping_add avma 1) 0 0 0 l v →
      AugItem avma st 80 (enc :: l)
        (mkAugState (aug_fde_encoding st) (aug_lsda_encoding st) v (aug_signal_frame st))
  | WireS :
      AugItem avma st 83 []
        (mkAugState (aug_fde_encoding st) (aug_lsda_encoding st) (aug_personality st) true)
  | WireB : AugItem avma st 66 [] st
  | WireG : AugItem avma st 71 [] st.

Inductive AugItems : Z → AugState → list Z → list Z → AugState → Prop :=
  | aug_items_nil avma st : AugItems avma st [] [] st
  | aug_items_cons avma st ch l st1 chs ls st2 :
      AugItem avma st ch l st1 → AugItems (wrapping_add avma (len l)) st1 chs ls st2 →
      AugItems avma st (ch :: chs) (l ++ ls) st2.

(** The augmentation string and its data; the length [n] of the data is read
    and not used. *)
Inductive AugWire (avma : Z) : list Z → list Z → bool * AugState → Prop :=
  | aug_wire_none : AugWire avma [] [] (false, aug_init)
  | aug_wire_sized chs len_b n l st :
      UlebWire len_b n → AugItems (wrapping_add avma (len len_b)) aug_init chs l st →
      AugWire avma (122 :: chs) (len_b ++ l) (true, st).

(** What follows the length of a CIE whose contents start at [p]: the bytes up
    to the initial instructions, and the record for a given instruction range. *)
Inductive CieFields (base p : Z) (d64 : bool) : list Z → (Z → Z → ParsedCie) → Prop :=
  | cie_fields version chars ca_b ca da_b da ra_b ra aug_b has_z st :
      let fixed := emit_id d64 0 ++ [version] ++ (chars ++ [0]) ++ v4_sizes version
                   ++ ca_b ++ da_b ++ ra_b in
      version ∈ [1; 3; 4] → Forall (λ b, b ≠ 0) chars →
      UlebWire ca_b ca → SlebWire da_b da →
      (if version =? 1 then ra_b = [ra] else UlebWire ra_b ra) →
      AugWire (wrapping_add base (p + len fixed)) chars aug_b (has_z, st) →
      CieFields base p d64 (fixed ++ aug_b)
        (mkParsedCie ca da ra (aug_fde_encoding st) (aug_lsda_encoding st) (aug_personality st)
           has_z (aug_signal_frame st)).

(** The augmentation data of an FDE that ends at [e]: the LSDA pointer, then
    bytes that are skipped. *)
Inductive FdeAug (base p e : Z) (cfg : FdeParseConfig) (pc : Z) : list Z → Z → Prop :=
  | fde_aug_none : cfg_has_z cfg = false → FdeAug base p e cfg pc [] 0
  | fde_aug_sized len_b lsda_b lsda pad :
      cfg_has_z cfg = true → UlebWire len_b (len (lsda_b ++ pad)) →
      p + len len_b + len (lsda_b ++ pad) ≤ e →
      (if cfg_lsda_encoding cfg =? DW_EH_PE_OMIT then lsda_b = [] ∧ lsda = 0
       else PtrWire false (cfg_lsda_encoding cfg) (wrapping_add base (p + len len_b))
              (text_base cfg) (data_base cfg) pc lsda_b lsda) →
      FdeAug base p e cfg pc (len_b ++ lsda_b ++ pad) lsda.

(** What follows the length of an FDE whose contents start at [p] and which
    ends at [e]. *)
Inductive FdeFields (base p e : Z) (cfg : FdeParseConfig) (d64 : bool)
    : list Z → (Z → Z → ParsedFde) → Prop :=
  | fde_fields cie_ptr pc_b pc rng_b rng aug_b lsda :
      cie_ptr ≠ 0 → is_u (if d64 then 64 else 32) cie_ptr →
      PtrWire false (cfg_fde_encoding cfg) (wrapping_add base (p + len (emit_id d64 cie_ptr)))
        (text_base cfg) (data_base cfg) 0 pc_b pc →
      PtrWire false (enc_format (cfg_fde_encoding cfg)) 0 0 0 0 rng_b rng →
      FdeAug base (p + len (emit_id d64 cie_ptr ++ pc_b ++ rng_b)) e cfg pc aug_b lsda →
      FdeFields base p e cfg d64 (emit_id d64 cie_ptr ++ pc_b ++ rng_b ++ aug_b)
        (λ o n, mkParsedFde pc rng o n lsda).

(** [l] lies at position [p] of the section. *)
Definition occurs (bs : list Z) (p : Z) (l : list Z) : Prop :=
  0 ≤ p ≤ len bs ∧ l `prefix_of` drop (Z.to_nat p) bs.

(** An entry at [off] of the section: its length [n], the fields, the
    instructions from the end of the fields to the end of the entry.  A header
    longer than the entry is only accepted without overflow checks, where the
    length of the instructions wraps around. *)
Inductive Entry `{Profile} {A} (Fields : Z → Z → bool → list Z → (Z → Z → A) → Prop)
    (bs : list Z) (off : Z) : A → Prop :=
  | entry d64 n hdr k :
      let p := off + len (emit_length d64 n) in
      let e := p + n in
      let o := p + len hdr in
      length_fits d64 n → Fields p e d64 hdr k →
      occurs bs off (emit_length d64 n ++ hdr) → e ≤ len bs →
      o ≤ e ∨ overflow_checks = false →
      Entry Fields bs off (k o (wrap 64 (e - o))).

(** A header longer than its entry, inside the section. *)
Inductive Overrun {A} (Fields : Z → Z → bool → list Z → (Z → Z → A) → Prop)
    (bs : list Z) (off : Z) : Prop :=
  | overrun d64 n hdr k :
      let p := off + len (emit_length d64 n) in
      let e := p + n in
      length_fits d64 n → Fields p e d64 hdr k →
      occurs bs off (emit_length d64 n ++ hdr) → e ≤ len bs → e < p + len hdr →
      Overrun Fields bs off.

Definition CieOverrun (base : Z) := Overrun (λ p _, CieFields base p).
Definition CieEntry `{Profile} (base : Z) := Entry (λ p _, CieFields base p).
Definition FdeEntry `{Profile} (base : Z) (cfg : FdeParseConfig) :=
  Entry (λ p e, FdeFields base p e cfg).

(** ** Recognisers

    [Recog p m G]: run at position [p], [m] succeeds exactly on the bytes [l]
    that satisfy [G l v] for its result [v], and leaves the cursor after them. *)

Lemma occurs_range bs p l : occurs bs p l → 0 ≤ p + len l ≤ len bs.
Proof.
  intros [Hp [k Hk]]. apply (f_equal length) in Hk. rewrite length_app, length_drop in Hk.
  unfold len in *. lia.
Qed.

Lemma occurs_nil bs p : 0 ≤ p ≤ len bs → occurs bs p [].
Proof. intros Hp. split; [done|]. apply prefix_nil. Qed.

Lemma occurs_app bs p l1 l2 :
  occurs bs p (l1 ++ l2) ↔ occurs bs p l1 ∧ occurs bs (p + len l1) l2.
Proof.
  assert (0 ≤ p → drop (Z.to_nat (p + len l1)) bs = drop (length l1) (drop (Z.to_nat p) bs))
    as Hd by (intros Hp; rewrite drop_drop; f_equal; unfold len; lia).
  split.
  - intros Ho. pose proof Ho as [Hp [k Hk]].
    assert (occurs bs p l1) as Ho1 by (split; [done|]; exists (l2 ++ k); by rewrite app_assoc).
    split; [done|]. split; [by apply occurs_range|]. rewrite Hd, Hk by lia.
    rewrite <- app_assoc, drop_app_length. by exists k.
  - intros [[Hp [k Hk]] [_ Hl2]]. split; [done|]. rewrite Hd, Hk, drop_app_length in Hl2 by lia.
    rewrite Hk. by apply prefix_app.
Qed.

Section recog.
Context `{Profile} (bs : list Z) (base : Z) (Hbs : bytes_ok bs).

Lemma occurs_bytes p l : occurs bs p l → Forall is_u8 l.
Proof.
  destruct Hbs as [Hf _]. intros [_ [k Hk]]. apply (Forall_app is_u8 l k). rewrite <- Hk.
  by apply Forall_drop.
Qed.

Definition Recog {A} (p : Z) (m : CM A) (G : list Z → A → Prop) : Prop :=
  0 ≤ p ≤ len bs → ∀ v c,
  m (mkCursor bs p base) = (Ok v, c) ↔
  ∃ l, occurs bs p l ∧ c = mkCursor bs (p + len l) base ∧ G l v.

Lemma recog_iff {A} p (m : CM A) (G G' : list Z → A → Prop) :
  Recog p m G → (∀ l v, occurs bs p l → G l v ↔ G' l v) → Recog p m G'.
Proof. intros Hm HG Hp v c. rewrite (Hm Hp). naive_solver. Qed.

Lemma recog_bind {A B} p (m : CM A) (f : A → CM B) G1 G2 :
  Recog p m G1 →
  (∀ l v, occurs bs p l → G1 l v → Recog (p + len l) (f v) (G2 l v)) →
  Recog p (m ≫= f) (λ l w, ∃ l1 v l2, l = l1 ++ l2 ∧ G1 l1 v ∧ G2 l1 v l2 w).
Proof.
  intros Hm Hf Hp w c. rewrite sm_bind_ok. split.
  - intros (v & c1 & (l1 & Ho1 & -> & H1)%(Hm Hp) & Hw).
    apply (Hf l1 v Ho1 H1 (occurs_range _ _ _ Ho1)) in Hw as (l2 & Ho2 & -> & H2).
    exists (l1 ++ l2). rewrite occurs_app, len_app, Z.add_assoc. naive_solver.
  - intros (l & Ho & -> & l1 & v & l2 & -> & H1 & H2). apply occurs_app in Ho as [Ho1 Ho2].
    exists v, (mkCursor bs (p + len l1) base). rewrite len_app, Z.add_assoc. split.
    + apply (Hm Hp). eauto.
    + apply (Hf l1 v Ho1 H1 (occurs_range _ _ _ Ho1)). eauto.
Qed.

Lemma recog_ret {A} p (v : A) : Recog p (mret v) (λ l w, l = [] ∧ w = v).
Proof.
  intros Hp w c. split.
  - intros [= -> <-]. exists []. rewrite len_nil, Z.add_0_r. eauto using occurs_nil.
  - intros (l & _ & -> & -> & ->). by rewrite len_nil, Z.add_0_r.
Qed.

Lemma recog_fails {A} p (m : CM A) :
  (∀ v c, m (mkCursor bs p base) ≠ (Ok v, c)) → Recog p m (λ _ _, False).
Proof. intros Hm Hp v c. split; [by intros ?%Hm|naive_solver]. Qed.

Lemma recog_err {A} p e : Recog (A:=A) p (sm_err e) (λ _ _, False).
Proof. by apply recog_fails. Qed.

Lemma recog_get {A} p (f : Cursor → CM A) G :
  Recog p (f (mkCursor bs p base)) G → Recog p (sm_get ≫= f) G.
Proof. done. Qed.

Lemma recog_get_err {A B} p (f : Cursor → DwarfParseError) (k : A → CM B) :
  Recog p (c ← sm_get; sm_err (f c)) (λ (_ : list Z) (_ : A), False).
Proof. by apply recog_fails. Qed.

Lemma recog_lift {A B} p (m : outcome DwarfParseError A) (f : A → CM B) G :
  (∀ a, m = Ok a → Recog p (f a) (G a)) →
  Recog p (sm_lift m ≫= f) (λ l w, ∃ a, m = Ok a ∧ G a l w).
Proof.
  intros Hf Hp w c. destruct m as [a| | | |]; unfold mbind, sm_bind, sm_lift; try naive_solver.
  rewrite (Hf a eq_refl Hp). naive_solver.
Qed.

(** ** Integers *)
Lemma recog_u8 p : Recog p read_u8 (λ l v, l = [v]).
Proof.
  intros Hp v c. split.
  - destruct (drop (Z.to_nat p) bs) as [|b l] eqn:Hd; [by rewrite read_u8_short|].
    destruct (read_u8_byte bs p base b l) as (-> & _); [done..|]. intros [= <- <-].
    exists [b]. split_and!; [|done..]. split; [done|]. exists l. by rewrite Hd.
  - intros (l & [_ [k Hk]] & -> & ->).
    destruct (read_u8_byte bs p base v k) as (-> & _); done.
Qed.

Lemma take_occurs p n : 0 ≤ p → 0 ≤ n → p + n ≤ len bs →
  occurs bs p (take (Z.to_nat n) (drop (Z.to_nat p) bs)) ∧
  len (take (Z.to_nat n) (drop (Z.to_nat p) bs)) = n.
Proof.
  intros Hp Hn Hl. split.
  - split; [lia|]. exists (drop (Z.to_nat n) (drop (Z.to_nat p) bs)). by rewrite take_drop.
  - unfold len in *. rewrite length_take, length_drop. lia.
Qed.

Lemma occurs_take p l : occurs bs p l → take (length l) (drop (Z.to_nat p) bs) = l.
Proof. intros [_ [k ->]]. apply take_app_length. Qed.

Lemma recog_le n p : 0 ≤ n ≤ 8 → Recog p (read_le n) (λ l v, len l = n ∧ v = le_decode l).
Proof.
  intros Hn Hp v c. rewrite (read_le_value bs Hbs) by done. cbn [pos].
  destruct (Z.leb_spec (p + n) (len bs)) as [Hle|Hgt]; split.
  - intros [= <- <-]. destruct (take_occurs p n) as [? Hlen]; [lia..|].
    eexists. rewrite Hlen. eauto.
  - intros (l & Ho & -> & <- & ->). unfold set_pos. cbn [bytes avma_base].
    replace (Z.to_nat (len l)) with (length l) by (unfold len; lia).
    by rewrite (occurs_take p l Ho).
  - done.
  - intros (l & Ho%occurs_range & _ & ? & _). lia.
Qed.

(** The bytes of an integer, read or written. *)
Lemma le_wire n l v : Forall is_u8 l →
  len l = Z.of_nat n ∧ v = le_decode l ↔ l = le_encode n v ∧ is_u (8 * Z.of_nat n) v.
Proof.
  intros Hl. split.
  - intros [Hn ->]. unfold len in Hn. replace n with (length l) by lia.
    rewrite le_encode_decode by done. split; [done|]. by apply le_decode_bounds.
  - intros [-> Hv]. rewrite le_encode_len, le_decode_encode. split; [done|].
    symmetry. by apply Z.mod_small.
Qed.

(** ** LEB128 *)
Lemma leb_bytes_cons g gs : gs ≠ [] → leb_bytes (g :: gs) = (128 + g) :: leb_bytes gs.
Proof. by destruct gs. Qed.

Lemma leb_bytes_len gs : len (leb_bytes gs) = len gs.
Proof.
  induction gs as [|g [|g' gs] IH]; [done..|]. rewrite leb_bytes_cons by done.
  by rewrite (len_cons (128 + g)), (len_cons g), IH.
Qed.

(** The scan finds the groups whose bytes come first. *)
Lemma leb_scan_bytes n l gs : Forall is_u8 l →
  leb_scan n l = LebGroups gs ↔
  gs ≠ [] ∧ (length gs ≤ n)%nat ∧ Forall (λ g, 0 ≤ g < 128) gs ∧ leb_bytes gs `prefix_of` l.
Proof.
  intros Hl. revert n gs. induction Hl as [|b l Hb Hl IH]; intros n gs.
  { split; [by destruct n|]. intros (Hne & _ & _ & [k Hk]).
    by destruct gs as [|? [|??]]. }
  destruct n as [|n]; cbn [leb_scan].
  { split; [done|]. intros (Hne & Hn & _). destruct gs; [done|simpl in Hn; lia]. }
  unfold is_u in Hb. change (2 ^ 8) with 256 in Hb. destruct (Z.ltb_spec b 128).
  - split.
    + intros [= <-]. split_and!; [done|simpl; lia|constructor; [lia|done]|]. by exists l.
    + intros (Hne & _ & Hgs & [k Hk]). destruct gs as [|g [|g' gs]]; [done| |];
        simplify_eq/=; [done|]. inv Hgs. lia.
  - trans (∃ gs', gs = (b - 128) :: gs' ∧ leb_scan n l = LebGroups gs').
    { destruct (leb_scan n l); naive_solver. }
    setoid_rewrite IH. split.
    + intros (gs' & -> & Hne & Hlen & Hr & [k Hk]).
      split_and!; [done|simpl; lia|constructor; [lia|done]|]. rewrite leb_bytes_cons by done.
      exists k. simpl. by rewrite Hk, Zplus_minus.
    + intros (Hne & Hlen & Hr & [k Hk]). destruct gs as [|g [|g' gs]]; [done| |].
      * simplify_eq/=. inv Hr. lia.
      * rewrite leb_bytes_cons in Hk by done. injection Hk as -> Hk. inv Hr.
        exists (g' :: gs). split_and!; [f_equal; lia|done|simpl in *; lia|done|by exists k].
Qed.

Lemma recog_leb (m : CM Z) f p :
  (0 ≤ p ≤ len bs → m (mkCursor bs p base) = leb_result f 10 bs p base) →
  Recog p m (λ l v, ∃ gs, leb_groups gs ∧ l = leb_bytes gs ∧ v = f gs).
Proof.
  intros Hm Hp v c. rewrite Hm by done. unfold leb_result.
  assert (Forall is_u8 (drop (Z.to_nat p) bs)) as Hd by apply Forall_drop, Hbs.
  pose proof (λ gs, leb_scan_bytes 10 _ gs Hd) as Hscan. split.
  - destruct (leb_scan 10 _) as [gs| |]; [|done..]. intros [= <- <-].
    destruct (proj1 (Hscan gs) eq_refl) as (?&?&?&?).
    exists (leb_bytes gs). rewrite leb_bytes_len. unfold occurs, leb_groups. eauto 10.
  - intros (l & [_ Ho] & -> & gs & (?&?&?) & -> & ->).
    rewrite (proj2 (Hscan gs)) by done. by rewrite leb_bytes_len.
Qed.

Lemma recog_uleb p : Recog p read_uleb128 UlebWire.
Proof. apply recog_leb. by apply read_uleb128_spec. Qed.

Lemma recog_sleb p : Recog p read_sleb128 SlebWire.
Proof. apply recog_leb. by apply read_sleb128_spec. Qed.

(** ** Encoded pointers *)

(** A value computed from what was read. *)
Lemma recog_map {A B} p (m : CM A) (g : A → B) G :
  Recog p m G → Recog p (v ← m; mret (g v)) (λ l w, ∃ v, G l v ∧ w = g v).
Proof.
  intros Hm. eapply recog_iff; [eapply recog_bind; [exact Hm|intros; apply recog_ret]|].
  cbv beta. intros l w _. split.
  - intros (l1 & v & l2 & -> & ? & -> & ->). rewrite app_nil_r. eauto.
  - intros (v & ? & ->). exists l, v, []. by rewrite app_nil_r.
Qed.

(** A pure choice after reading consumes nothing. *)
Lemma recog_bind_nil {A B} p (m : CM A) (f : A → CM B) G (R : A → B → Prop) :
  Recog p m G →
  (∀ l v, occurs bs p l → G l v → Recog (p + len l) (f v) (λ l2 w, l2 = [] ∧ R v w)) →
  Recog p (m ≫= f) (λ l w, ∃ v, G l v ∧ R v w).
Proof.
  intros Hm Hf. eapply recog_iff; [eapply recog_bind; [exact Hm|exact Hf]|].
  cbv beta. intros l w _. split.
  - intros (l1 & v & l2 & -> & ? & -> & ?). rewrite app_nil_r. eauto.
  - intros (v & ? & ?). exists l, v, []. by rewrite app_nil_r.
Qed.

Lemma le_decode_u64 p l n : occurs bs p l → len l = n → n ≤ 8 → as_u64 (le_decode l) = le_decode l.
Proof.
  intros Ho%occurs_bytes <- Hn. apply wrap_small.
  pose proof (le_decode_bounds l Ho). eapply is_u_mono; [|split; apply H0]. lia.
Qed.

Lemma recog_unsigned p n :
  0 ≤ n ≤ 8 →
  Recog p (read_le n) (λ l raw, ∃ d, (len l = n ∧ d = le_decode l) ∧ raw = as_u64 d).
Proof.
  intros Hn. eapply recog_iff; [by apply recog_le|]. cbv beta. intros l v Ho. split.
  - intros [? ->]. eexists. split; [done|]. symmetry. by eapply le_decode_u64; [|done|lia].
  - intros (d & [? ->] & ->). split; [done|]. by eapply le_decode_u64; [|done|lia].
Qed.

Lemma recog_signed p n w :
  0 ≤ n ≤ 8 →
  Recog p (v ← read_le n; mret (as_u64 (as_signed w v)))
    (λ l raw, ∃ d, (len l = n ∧ d = as_signed w (le_decode l)) ∧ raw = as_u64 d).
Proof.
  intros Hn. eapply recog_iff; [apply (recog_map p (read_le n) (λ v, as_u64 (as_signed w v))); by apply recog_le|].
  naive_solver.
Qed.

Lemma recog_raw_format p f enc :
  Recog p (read_raw (format_code f) enc) (λ l raw, ∃ d, PtrBytes f l d ∧ raw = as_u64 d).
Proof.
  destruct f.
  1, 4: apply (recog_unsigned p 8); lia.
  1: apply (recog_unsigned p 2); lia.
  1: apply (recog_unsigned p 4); lia.
  1: apply (recog_signed p 2 16); lia.
  1: apply (recog_signed p 4 32); lia.
  1: apply (recog_signed p 8 64); lia.
  2: { change (Recog p (v ← read_sleb128; mret (as_u64 v))
                (λ l raw, ∃ d, SlebWire l d ∧ raw = as_u64 d)).
       apply recog_map, recog_sleb. }
  change (Recog p read_uleb128 (λ l raw, ∃ d, UlebWire l d ∧ raw = as_u64 d)).
  eapply recog_iff; [apply recog_uleb|]. intros l v _. split.
  - intros Hv. exists v. split; [done|]. destruct Hv as (gs & _ & _ & ->).
    symmetry. apply wrap_small, wrap_bounds. lia.
  - intros (d & (gs & Hg & -> & ->) & ->). exists gs. split_and!; [done..|].
    apply wrap_small, wrap_bounds. lia.
Qed.

(** A nibble is one of the nine formats or not supported. *)
Lemma format_code_cases z :
  (∃ f, z = format_code f) ∨
  (∀ f, z ≠ format_code f) ∧
  ∀ enc c, read_raw z enc c = (Err (mkDwarfParseError (pos c) (UnsupportedPointerEncoding enc)), c).
Proof.
  unfold read_raw.
  repeat match goal with |- context [if z =? ?k then _ else _] =>
    destruct (Z.eqb_spec z k) end; subst;
  [left; by exists Absptr|left; by exists Udata2|left; by exists Udata4|left; by exists Udata8|
   left; by exists Sdata2|left; by exists Sdata4|left; by exists Sdata8|left; by exists Uleb|
   left; by exists Sleb|right]. split; [by intros []|done].
Qed.

Lemma format_code_inj f g : format_code f = format_code g → f = g.
Proof. by destruct f, g. Qed.

Lemma recog_raw p z enc :
  Recog p (read_raw z enc) (λ l raw, ∃ f d, z = format_code f ∧ PtrBytes f l d ∧ raw = as_u64 d).
Proof.
  destruct (format_code_cases z) as [[f ->]|[Hz Hr]].
  - eapply recog_iff; [apply recog_raw_format|]. cbv beta. intros l v _. split; [naive_solver|].
    intros (g & d & ->%format_code_inj & ? & ?). eauto.
  - eapply recog_iff; [apply recog_fails|naive_solver]. intros v c. by rewrite Hr.
Qed.

Lemma app_code_cases z :
  (∃ a, z = app_code a) ∨
  (∀ a, z ≠ app_code a) ∧
  ∀ enc raw b0 b1 b2 b3 c v c', apply_base z enc raw b0 b1 b2 b3 c ≠ (Ok v, c').
Proof.
  unfold apply_base.
  repeat match goal with |- context [if z =? ?k then _ else _] =>
    destruct (Z.eqb_spec z k) end; subst;
  [left; by exists AppAbs|left; by exists AppPcrel|left; by exists AppTextrel|
   left; by exists AppDatarel|left; by exists AppFuncrel|right..]; (split; [by intros []|done]).
Qed.

Lemma recog_apply_base p z enc raw b0 b1 b2 b3 :
  is_u64 raw →
  Recog p (apply_base z enc raw b0 b1 b2 b3)
    (λ l v, l = [] ∧ ∃ a, z = app_code a ∧ v = wrapping_add raw (app_base a b0 b1 b2 b3)).
Proof.
  intros Hraw. destruct (app_code_cases z) as [[a ->]|[Hz Hr]].
  - rewrite apply_base_code by done. eapply recog_iff; [apply recog_ret|].
    cbv beta. intros l v _. split; [naive_solver|]. intros (-> & a' & Ha & ->). split; [done|].
    by destruct a, a'.
  - eapply recog_iff; [apply recog_fails|naive_solver]. intros v c. apply Hr.
Qed.

(** The address a displacement resolves to. *)
Definition resolves (enc pcrel tb db fb raw v : Z) : Prop :=
  if enc_indirect enc then v = 0
  else if raw =? 0 then v = 0
  else ∃ a, enc_app enc = app_code a ∧ v = wrapping_add raw (app_base a pcrel tb db fb).

Lemma recog_resolve p enc pcrel tb db fb raw :
  is_u64 raw →
  Recog p
    (if enc_indirect enc then mret 0 else if raw =? 0 then mret 0
     else apply_base (enc_app enc) enc raw pcrel tb db fb)
    (λ l v, l = [] ∧ resolves enc pcrel tb db fb raw v).
Proof.
  intros Hraw. unfold resolves. destruct (enc_indirect enc); [apply recog_ret|].
  destruct (raw =? 0); [apply recog_ret|]. by apply recog_apply_base.
Qed.

Lemma ptr_wire_resolves allow enc pcrel tb db fb l v :
  enc_indirect enc && negb allow = false →
  (∃ raw, (∃ f d, enc_format enc = format_code f ∧ PtrBytes f l d ∧ raw = as_u64 d) ∧
          resolves enc pcrel tb db fb raw v) ↔
  PtrWire allow enc pcrel tb db fb l v.
Proof.
  intros Hallow. split.
  - intros (raw & (f & d & Hf & Hd & ->) & Hv). unfold resolves in Hv.
    destruct (enc_indirect enc) eqn:Hi.
    { subst v. eapply WireIndirect; [|done..]. by destruct allow. }
    destruct (Z.eqb_spec (as_u64 d) 0); [subst v; by eapply WireAbsent|].
    destruct Hv as (a & Ha & ->). by eapply WireDirect.
  - unfold resolves. intros [f a l' d Hi Hf Ha Hd Hnz|f l' d Hi Hf Hd Hz|f l' d _ Hi Hf Hd];
      rewrite Hi; exists (as_u64 d); (split; [by exists f, d|]); try done.
    + destruct (Z.eqb_spec (as_u64 d) 0); [done|]. by exists a.
    + by rewrite Hz.
Qed.

Lemma recog_encoded p enc tb db fb allow :
  Recog p (read_encoded_impl enc tb db fb allow) (PtrWire allow enc (wrapping_add base p) tb db fb).
Proof.
  unfold read_encoded_impl. apply recog_get. cbv zeta. rewrite <- !Z.land_assoc.
  change (Z.land (Z.lxor 0xff DW_EH_PE_INDIRECT) DW_EH_PE_FORMAT_MASK) with DW_EH_PE_FORMAT_MASK.
  change (Z.land (Z.lxor 0xff DW_EH_PE_INDIRECT) DW_EH_PE_APP_MASK) with DW_EH_PE_APP_MASK.
  fold (enc_indirect enc) (enc_format enc) (enc_app enc).
  destruct (Z.eqb_spec enc DW_EH_PE_OMIT) as [->|_].
  { eapply recog_iff; [apply recog_err|]. intros l v _. split; [done|].
    by intros [[] | [] | []]. }
  destruct (enc_indirect enc && negb allow) eqn:Hallow.
  { eapply recog_iff; [apply recog_err|]. intros l v _. split; [done|].
    apply andb_true_iff in Hallow as [Hi Ha]. intros [ | |]; congruence || by destruct allow. }
  eapply recog_iff.
  - eapply recog_bind_nil; [apply recog_raw|]. cbv beta.
    intros l raw _ (f & d & _ & _ & ->). apply recog_resolve. by apply wrap_bounds.
  - intros l v _. by apply ptr_wire_resolves.
Qed.

(** ** Headers *)
Lemma recog_le_encode p n :
  0 ≤ n ≤ 8 → Recog p (read_le n) (λ l v, l = le_encode (Z.to_nat n) v ∧ is_u (8 * n) v).
Proof.
  intros Hn. eapply recog_iff; [by apply recog_le|]. intros l v Ho. cbv beta.
  pose proof (le_wire (Z.to_nat n) l v (occurs_bytes _ _ Ho)) as Hw.
  by rewrite Z2Nat.id in Hw by lia.
Qed.

Lemma recog_entry_id p d :
  Recog p (read_entry_id d) (λ l v, l = emit_id d v ∧ is_u (if d then 64 else 32) v).
Proof. destruct d; [apply (recog_le_encode p 8)|apply (recog_le_encode p 4)]; lia. Qed.

Lemma recog_ok_or {A B} p (o : option A) e (f : A → CM B) G :
  (∀ a, o = Some a → Recog p (f a) (G a)) →
  Recog p (sm_lift (ok_or o e) ≫= f) (λ l w, ∃ a, o = Some a ∧ G a l w).
Proof.
  intros Hf. eapply recog_iff; [eapply recog_lift; intros a Ha; apply Hf|].
  - by apply ok_or_ok in Ha.
  - intros l w _. cbv beta. by setoid_rewrite ok_or_ok.
Qed.

Lemma recog_lift_last {A} p (m : outcome DwarfParseError A) :
  Recog p (sm_lift m) (λ l w, l = [] ∧ m = Ok w).
Proof.
  intros Hp w c. unfold sm_lift. split.
  - intros [= -> <-]. exists []. rewrite len_nil, Z.add_0_r. eauto using occurs_nil.
  - intros (l & _ & -> & -> & ->). by rewrite len_nil, Z.add_0_r.
Qed.

(** The 64-bit length that follows the escape. *)
Lemma recog_length64 p e :
  Recog p (l ← read_u64; c ← sm_get; sm_lift (ok_or (usize_try_from l) (e c)))
    (λ l v, l = le_encode 8 v ∧ is_u64 v).
Proof.
  eapply recog_iff.
  - eapply recog_bind; [by apply (recog_le_encode p 8)|]. intros. apply recog_get, recog_lift_last.
  - intros l v _. cbv beta. split.
    + intros (l1 & w & l2 & -> & [-> Hw] & -> & Hv%ok_or_ok).
      rewrite usize_try_from_u64 in Hv by done. simplify_eq. by rewrite app_nil_r.
    + intros [-> Hv]. exists (le_encode 8 v), v, []. rewrite app_nil_r.
      split_and!; [done..|]. by rewrite usize_try_from_u64.
Qed.

Lemma recog_entry_end p (d : bool) n e :
  Recog p (c ← sm_get; r ← sm_lift (ok_or (checked_add (pos c) n) (e c)); mret (d, r))
    (λ l r, l = [] ∧ r = (d, p + n) ∧ p + n ≤ u64_max).
Proof.
  apply recog_get. cbn [pos]. eapply recog_iff.
  - apply recog_ok_or. intros. apply recog_ret.
  - intros l r _. cbv beta. unfold checked_add. cbn [pos].
    destruct (Z.leb_spec (p + n) u64_max); split.
    + by intros (? & [= <-] & -> & ->).
    + intros (-> & -> & _). eauto.
    + by intros (? & ? & _).
    + lia.
Qed.

Lemma recog_entry_length p :
  Recog p read_entry_length
    (λ l r, ∃ n, length_fits r.1 n ∧ l = emit_length r.1 n ∧ r.2 = p + len l + n ∧ r.2 ≤ u64_max).
Proof.
  unfold read_entry_length. eapply recog_iff.
  { eapply recog_bind; [by apply (recog_le_encode p 4)|]. cbv zeta beta. intros l1 len32 _ _.
    eapply recog_bind; [|intros; apply recog_entry_end].
    instantiate (1 := if len32 =? 0xffffffff then _ else _).
    destruct (len32 =? 0xffffffff); [apply recog_length64|apply recog_ret]. }
  intros l [d e] _. cbv beta. split.
  - intros (l1 & v & ? & -> & [-> Hv] & l2 & n & l3 & -> & Hn & -> & [-> ->]%pair_equal_spec & Hmax).
    rewrite app_nil_r. exists n. cbv beta iota delta [fst snd]. rewrite len_app.
    destruct (Z.eqb_spec v 0xffffffff) as [->|].
    + destruct Hn as [-> Hn]. rewrite !le_encode_len in *. split_and!; [done|done|lia|lia].
    + destruct Hn as [-> ->]. rewrite app_nil_r, len_nil in *. unfold is_u in Hv.
      split_and!; [|done|lia|lia]. unfold length_fits. lia.
  - intros (n & Hfit & -> & He & Hmax). cbv beta iota delta [fst snd] in *. destruct d; unfold emit_length, length_fits in *.
    + exists (le_encode 4 0xffffffff), 0xffffffff, (le_encode 8 n). split_and!; [done..|].
      exists (le_encode 8 n), n, []. rewrite app_nil_r, len_app in *.
      split_and!; [done|by split|done|f_equal; lia|lia].
    + exists (le_encode 4 n), n, []. rewrite app_nil_r. split_and!; [done..|unfold is_u; lia|].
      exists [], n, []. destruct (Z.eqb_spec n 0xffffffff); [lia|].
      rewrite len_nil. split_and!; [done..|f_equal; lia|lia].
Qed.

(** What [Reads] shows of every section holds of this one. *)
Lemma occurs_reads {A} p (m : CM A) l v :
  Reads base p m l v → occurs bs p l →
  m (mkCursor bs p base) = (Ok v, mkCursor bs (p + len l) base).
Proof.
  intros Hm [Hp [k Hk]]. assert (bs = take (Z.to_nat p) bs ++ l ++ k) as Heq
    by (by rewrite <- Hk, take_drop).
  rewrite Heq. apply Hm; [|rewrite <- Heq; apply Hbs].
  unfold len in *. rewrite length_take. lia.
Qed.

Lemma position_nul_some l i :
  position_nul l = Some i → ∃ chars post, l = chars ++ 0 :: post ∧ Forall (λ b, b ≠ 0) chars.
Proof.
  revert i. induction l as [|b l IH]; intros i; cbn [position_nul]; [done|].
  destruct (Z.eqb_spec b 0) as [->|Hb]; [by exists [], l|].
  destruct (position_nul l) as [j|] eqn:Hj; [|done]. intros _.
  destruct (IH j eq_refl) as (chars & post & -> & Hc).
  exists (b :: chars), post. split; [done|]. by constructor.
Qed.

Lemma recog_augmentation_string p :
  Recog p read_augmentation_string (λ l v, l = v ++ [0] ∧ Forall (λ b, b ≠ 0) v).
Proof.
  intros Hp v c. split.
  - intros Hr. destruct (position_nul (drop (Z.to_nat p) bs)) as [i|] eqn:Hi.
    + apply position_nul_some in Hi as (chars & post & Hd & Hc).
      assert (occurs bs p (chars ++ [0])) as Ho.
      { split; [done|]. exists post. by rewrite Hd, <- app_assoc. }
      rewrite (occurs_reads p _ _ _ (reads_aug_string base p chars Hc) Ho) in Hr. simplify_eq.
      by exists (v ++ [0]).
    + exfalso. unfold read_augmentation_string, mbind, sm_bind, sm_get, sm_lift in Hr.
      cbn [bytes pos] in Hr. unfold slice_from in Hr.
      destruct (p <=? len bs); [by rewrite Hi in Hr|done].
  - intros (l & Ho & -> & -> & Hc). by apply occurs_reads; [apply reads_aug_string|].
Qed.

Lemma recog_check_version p v : Recog p (check_version v) (λ l _, l = [] ∧ v ∈ [1; 3; 4]).
Proof.
  unfold check_version. destruct (decide (v ∈ [1; 3; 4])) as [Hin|Hin]; pose proof Hin as Hv; rewrite !elem_of_cons in Hv.
  - assert (negb (v =? 1) && negb (v =? 3) && negb (v =? 4) = false) as ->
      by (destruct Hv as [->|[->|[->|Hv]]]; [done..|by apply elem_of_nil in Hv]).
    eapply recog_iff; [apply recog_ret|]. intros l [] _. cbv beta. tauto.
  - assert (negb (v =? 1) && negb (v =? 3) && negb (v =? 4) = true) as ->.
    { destruct (Z.eqb_spec v 1), (Z.eqb_spec v 3), (Z.eqb_spec v 4); simpl; tauto. }
    eapply recog_iff; [apply recog_get, recog_err|]. intros l [] _. cbv beta. tauto.
Qed.

Lemma recog_check_address_size p v :
  Recog p (check_address_size v) (λ l _, l = v4_sizes v).
Proof.
  unfold check_address_size, v4_sizes. destruct (v =? 4).
  2: { eapply recog_iff; [apply recog_ret|]. intros l [] _. cbv beta. tauto. }
  eapply recog_iff.
  - eapply recog_bind; [apply recog_u8|]. intros l1 a _ _. cbv beta.
    eapply (recog_bind_nil _ _ _ _ (λ s _, a = 8 ∧ s = 0)); [apply recog_u8|].
    intros l2 s _ _. destruct (Z.eqb_spec a 8), (Z.eqb_spec s 0); cbn [negb orb];
      (eapply recog_iff; [first [apply recog_ret|apply recog_get, recog_err]|]);
      intros l [] _; cbv beta; tauto.
  - intros l [] _. cbv beta. split.
    + by intros (? & ? & ? & -> & -> & ? & -> & -> & ->).
    + intros ->. exists [8], 8, [0]. split_and!; [done..|]. by exists 0.
Qed.

Lemma recog_ra_column p v :
  Recog p (if v =? 1 then read_u8 else read_uleb128)
    (λ l ra, if v =? 1 then l = [ra] else UlebWire l ra).
Proof. destruct (v =? 1); [apply recog_u8|apply recog_uleb]. Qed.

(** ** Augmentations *)
Lemma recog_aug_byte {A} p (g : Z → A) :
  Recog p (e ← read_u8; mret (g e)) (λ l w, ∃ e, l = [e] ∧ w = g e).
Proof. apply recog_map, recog_u8. Qed.

Lemma recog_aug_step p st ch :
  Recog p (aug_step st ch) (AugItem (wrapping_add base p) st ch).
Proof.
  unfold aug_step.
  destruct (Z.eqb_spec ch 82) as [->|].
  { eapply recog_iff; [apply recog_aug_byte|]. intros l w _. cbv beta. split.
    - intros (e & -> & ->). constructor.
    - intros Hi. inv Hi. eauto. }
  destruct (Z.eqb_spec ch 76) as [->|].
  { eapply recog_iff; [apply recog_aug_byte|]. intros l w _. cbv beta. split.
    - intros (e & -> & ->). constructor.
    - intros Hi. inv Hi. eauto. }
  destruct (Z.eqb_spec ch 80) as [->|].
  { eapply recog_iff.
    - eapply recog_bind; [apply recog_u8|]. intros l1 e _ _. apply recog_map, recog_encoded.
    - intros l w _. cbv beta. split.
      + intros (l1 & e & l2 & -> & -> & v & Hv & ->).
        rewrite <- wrapping_add_assoc in Hv. by constructor.
      + intros Hi. inv Hi. eexists [_], _, _. split_and!; [done..|]. eexists.
        rewrite <- wrapping_add_assoc. eauto. }
  destruct (Z.eqb_spec ch 83) as [->|].
  { eapply recog_iff; [apply recog_ret|]. intros l w _. cbv beta. split.
    - intros [-> ->]. constructor.
    - intros Hi. by inv Hi. }
  destruct (Z.eqb_spec ch 66) as [->|]; [|destruct (Z.eqb_spec ch 71) as [->|]]; cbn [orb].
  1, 2: eapply recog_iff; [apply recog_ret|]; intros l w _; cbv beta; split;
    [intros [-> ->]; constructor|intros Hi; by inv Hi].
  eapply recog_iff; [apply recog_get, recog_err|]. intros l w _. cbv beta. split; [done|].
  intros Hi. by inv Hi.
Qed.

Lemma recog_aug_loop chs st p :
  Recog p (aug_loop chs st) (AugItems (wrapping_add base p) st chs).
Proof.
  revert st p. induction chs as [|ch chs IH]; intros st p; cbn [aug_loop].
  - eapply recog_iff; [apply recog_ret|]. intros l w _. cbv beta. split.
    + intros [-> ->]. constructor.
    + intros Hi. by inv Hi.
  - eapply recog_iff.
    { eapply recog_bind; [apply recog_aug_step|]. intros l1 st1 _ _. apply IH. }
    intros l w _. cbv beta. setoid_rewrite <- wrapping_add_assoc. split.
    + intros (l1 & st1 & l2 & -> & H1 & H2). by econstructor.
    + intros Hi. inv Hi. eauto 10.
Qed.

Lemma recog_augmentation p start chs :
  Recog p (read_augmentation start chs) (AugWire (wrapping_add base p) chs).
Proof.
  destruct chs as [|ch chs]; cbn [read_augmentation].
  { eapply recog_iff; [apply recog_ret|]. intros l w _. cbv beta. split.
    - intros [-> ->]. constructor.
    - intros Hw. by inv Hw. }
  destruct (Z.eqb_spec ch 122) as [->|].
  - eapply recog_iff.
    { eapply recog_bind; [apply recog_uleb|]. intros l1 n _ _.
      apply recog_map, recog_aug_loop. }
    intros l w _. cbv beta. setoid_rewrite <- wrapping_add_assoc. split.
    + intros (l1 & n & l2 & -> & Hn & st & Hst & ->). by econstructor.
    + intros Hw. inv Hw. eauto 10.
  - eapply recog_iff; [apply recog_err|]. intros l w _. cbv beta. split; [done|].
    intros Hw. by inv Hw.
Qed.

(** ** Whole entries *)

(** The instructions run from [o] to [e]. *)
Definition in_entry (o e : Z) : Prop :=
  e ≤ len bs ∧ (o ≤ e ∨ overflow_checks = false).

Lemma recog_instr_range o e :
  0 ≤ e →
  Recog o (instr_range e) (λ l r, l = [] ∧ in_entry o e ∧ r = (o, wrap 64 (e - o))).
Proof.
  intros He. unfold in_entry, instr_range. apply recog_get. cbn [bytes pos]. cbv zeta.
  destruct Hbs as [_ Hlen]. unfold isize_max in Hlen.
  destruct (Z.ltb_spec (len bs) e).
  { eapply recog_iff; [apply recog_err|]. intros l r _. cbv beta. lia. }
  eapply recog_iff.
  - apply recog_lift. intros n _. apply recog_ret.
  - intros l r [Ho _]. cbv beta. unfold usize_sub.
    destruct (Z.leb_spec o e).
    + rewrite wrap_small by (unfold is_u; lia). split.
      * intros (n & [= <-] & -> & ->). split_and!; [done|done|by left|done].
      * intros (-> & _ & ->). eauto.
    + destruct overflow_checks; split.
      * by intros (? & ? & _).
      * intros (_ & [_ [?|?]] & _); [lia|done].
      * intros (n & [= <-] & -> & ->). split_and!; [done|done|by right|done].
      * intros (-> & _ & ->). eauto.
Qed.

(** The end of an entry: the range, and the record that holds it. *)
Lemma recog_entry_tail {A} o e (k : Z → Z → A) :
  0 ≤ e →
  Recog o ('(i, n) ← instr_range e; mret (k i n))
    (λ l r, l = [] ∧ in_entry o e ∧ r = k o (wrap 64 (e - o))).
Proof.
  intros He. eapply recog_iff.
  - eapply (recog_bind _ _ _ _ (λ _ x l w, l = [] ∧ w = k x.1 x.2)); [by apply recog_instr_range|].
    intros l1 [i n] _ _. apply recog_ret.
  - intros l r _. cbv beta. split.
    + intros (l1 & [i n] & l2 & -> & (-> & Hin & [-> ->]%pair_equal_spec) & -> & ->). done.
    + intros (-> & Hin & ->). by exists [], (o, wrap 64 (e - o)), [].
Qed.

(** From the recogniser of a body to the entries of a section. *)
Lemma recog_entry {A} (Fields : Z → Z → bool → list Z → (Z → Z → A) → Prop)
    (body : bool * Z → CM A) off r :
  0 ≤ off ≤ len bs →
  (∀ p d64 e, 0 ≤ p → 0 ≤ e →
     Recog p (body (d64, e))
       (λ l w, ∃ k, Fields p e d64 l k ∧ in_entry (p + len l) e ∧
                    w = k (p + len l) (wrap 64 (e - (p + len l))))) →
  ((x ← read_entry_length; body x) (mkCursor bs off base)).1 = Ok r ↔ Entry Fields bs off r.
Proof.
  intros Hoff Hbody.
  assert (Recog off (x ← read_entry_length; body x) (λ l w, ∃ l1 x l2, l = l1 ++ l2 ∧
    (∃ n, length_fits x.1 n ∧ l1 = emit_length x.1 n ∧ x.2 = off + len l1 + n ∧ x.2 ≤ u64_max) ∧
    ∃ k, Fields (off + len l1) x.2 x.1 l2 k ∧ in_entry (off + len l1 + len l2) x.2 ∧
      w = k (off + len l1 + len l2) (wrap 64 (x.2 - (off + len l1 + len l2))))) as Hr.
  { eapply recog_bind; [apply recog_entry_length|]. intros l1 [d64 e] _ (n & Hn & -> & He & _).
    cbv beta iota delta [fst snd] in *. pose proof (len_nonneg (emit_length d64 n)).
    apply Hbody; [lia|]. assert (0 ≤ n) by (destruct d64; apply Hn). lia. }
  specialize (Hr Hoff r). split.
  - destruct ((x ← read_entry_length; body x) (mkCursor bs off base)) as [o c].
    cbn [fst]. intros ->.
    destruct (proj1 (Hr c) eq_refl) as (l & Hocc & _ & l1 & [d64 e] & hdr & -> & (n & Hn & -> & He & _)
      & k & Hf & Hin & ->).
    cbv beta iota delta [fst snd] in *. subst e. destruct Hin as [He Ho]. by econstructor.
  - intros Hent. destruct Hent as [d64 n hdr k p e o Hn Hf Hocc He Ho].
    erewrite (proj2 (Hr _)); [done|]. exists (emit_length d64 n ++ hdr).
    split_and!; [done|reflexivity|]. exists (emit_length d64 n), (d64, e), hdr.
    cbv beta iota delta [fst snd]. destruct Hbs as [_ Hmax]. unfold isize_max in Hmax.
    split_and!; [done|exists n; split_and!; [done..|unfold u64_max; lia]|].
    by exists k.
Qed.

(** An early [return Err(..)]. *)
Lemma recog_if_err {A} p (b : bool) e (m : CM A) G :
  (b = false → Recog p m G) → Recog p (if b then sm_err e else m) (λ l w, b = false ∧ G l w).
Proof.
  intros Hm. destruct b.
  - eapply recog_iff; [apply recog_err|]. intros l w _. cbv beta. naive_solver.
  - eapply recog_iff; [by apply Hm|]. intros l w _. cbv beta. tauto.
Qed.

Lemma recog_bind_pair {A B C} p (m : CM (A * B)) (f : A → B → CM C) G1 G2 :
  Recog p m G1 →
  (∀ l a b, occurs bs p l → G1 l (a, b) → Recog (p + len l) (f a b) (G2 l a b)) →
  Recog p ('(a, b) ← m; f a b)
    (λ l w, ∃ l1 a b l2, l = l1 ++ l2 ∧ G1 l1 (a, b) ∧ G2 l1 a b l2 w).
Proof.
  intros Hm Hf. eapply recog_iff.
  - eapply (recog_bind _ _ _ _ (λ l1 x l2 w, G2 l1 x.1 x.2 l2 w)); [exact Hm|].
    intros l [a b]. apply Hf.
  - intros l w _. cbv beta. split.
    + intros (l1 & [a b] & l2 & ?). by exists l1, a, b, l2.
    + intros (l1 & a & b & l2 & ?). by exists l1, (a, b), l2.
Qed.

(** Positions as the length of what precedes them. *)
Ltac norm_pos_in H := rewrite <- ?Z.add_assoc, <- ?len_app, ?app_nil_l, <- ?app_assoc in H.
Ltac norm_pos_goal := rewrite <- ?Z.add_assoc, <- ?len_app, ?app_nil_l, <- ?app_assoc.
Tactic Notation "norm_pos" := norm_pos_goal.
Tactic Notation "norm_pos" hyp(H) := norm_pos_in H.

(** The header, up to the range of the instructions. *)
Lemma recog_cie_header p d64 : Recog p (cie_header d64 mret) (CieFields base p d64).
Proof.
  apply recog_get. cbv zeta. cbn [pos]. eapply recog_iff.
  - eapply recog_bind; [apply recog_entry_id|]. intros l0 id _ _. cbv beta.
    apply recog_if_err. intros _.
    eapply recog_bind; [apply recog_u8|]. intros l1 version _ _. cbv beta.
    eapply recog_bind; [apply recog_check_version|]. intros l2 u _ _. cbv beta.
    apply recog_get. cbn [pos].
    eapply recog_bind; [apply recog_augmentation_string|]. intros l3 aug _ _. cbv beta.
    eapply recog_bind; [apply recog_check_address_size|]. intros l4 u' _ _. cbv beta.
    eapply recog_bind; [apply recog_uleb|]. intros l5 ca _ _. cbv beta.
    eapply recog_bind; [apply recog_sleb|]. intros l6 da _ _. cbv beta.
    eapply recog_bind; [apply recog_ra_column|]. intros l7 ra _ _. cbv beta.
    eapply recog_bind_pair; [apply recog_augmentation|]. intros l8 has_z st _ _.
    apply recog_ret.
  - intros l w _. cbv beta. split.
    + intros (l0 & id & ? & -> & [-> _] & Hid & l1 & ver & ? & -> & -> & l2 & [] & ? & ->
        & [-> Hver] & l3 & chars & ? & -> & [-> Hc] & l4 & [] & ? & -> & -> & l5 & ca & ? & ->
        & Hca & l6 & da & ? & -> & Hda & l7 & ra & ? & -> & Hra & l8 & hz & st & ? & -> & Haug
        & -> & ->).
      apply negb_false_iff, Z.eqb_eq in Hid as ->. rewrite app_nil_l, app_nil_r.
      pose proof (cie_fields base p d64 ver chars l5 ca l6 da l7 ra l8 hz st Hver Hc Hca Hda Hra)
        as Hk. rewrite <- !app_assoc in Hk.
      norm_pos Haug. rewrite <- ?app_assoc. by apply Hk.
    + intros Hk.
      destruct Hk as [ver chars ca_b ca da_b da ra_b ra aug_b hz st fixed Hver Hc Hca Hda Hra Haug].
      unfold fixed in *. norm_pos Haug.
      eexists (emit_id d64 0), 0, _. split; [rewrite <- !app_assoc; reflexivity|].
      split; [by destruct d64|]. split; [done|].
      eexists [ver], ver, _. split; [reflexivity|]. split; [done|].
      eexists [], (), _. split; [reflexivity|]. split; [done|].
      eexists (chars ++ [0]), chars, _. split; [apply app_assoc|]. split; [done|].
      eexists (v4_sizes ver), (), _. split; [reflexivity|]. split; [done|].
      eexists ca_b, ca, _. split; [reflexivity|]. split; [done|].
      eexists da_b, da, _. split; [reflexivity|]. split; [done|].
      eexists ra_b, ra, _. split; [reflexivity|]. split; [done|].
      exists aug_b, hz, st, []. split; [by rewrite app_nil_r|].
      norm_pos. done.
Qed.

Lemma recog_ext {A} p (m m' : CM A) G : (∀ c, m c = m' c) → Recog p m G → Recog p m' G.
Proof. intros Hm Hr Hp v c. rewrite <- Hm. by apply Hr. Qed.

Lemma recog_cie p d64 e :
  0 ≤ e →
  Recog p (cie_header d64 (instructions e))
    (λ l w, ∃ k, CieFields base p d64 l k ∧ in_entry (p + len l) e ∧
                 w = k (p + len l) (wrap 64 (e - (p + len l)))).
Proof.
  intros He. eapply recog_ext; [intros c; symmetry; apply cie_header_bind|]. eapply recog_iff.
  - eapply recog_bind; [apply recog_cie_header|]. intros l k _ _. by apply recog_entry_tail.
  - intros l w _. cbv beta. split.
    + intros (l1 & k & ? & -> & Hk & -> & Hin & ->). rewrite app_nil_r. by exists k.
    + intros (k & Hk & Hin & ->). exists l, k, []. by rewrite app_nil_r.
Qed.

(** When the range of the instructions panics. *)
Lemma instructions_panic {A} o e (k : Z → Z → A) :
  0 ≤ o ≤ len bs → 0 ≤ e →
  (instructions e k (mkCursor bs o base)).1 = Panic ↔ overflow_checks = true ∧ e ≤ len bs ∧ e < o.
Proof.
  intros Ho He. unfold instructions, instr_range, mbind, sm_bind, sm_get, sm_lift. cbn [bytes pos].
  cbv zeta. unfold usize_sub.
  destruct (Z.ltb_spec (len bs) e), (Z.leb_spec e o), (Z.leb_spec o e), overflow_checks; cbn; split;
    intros Hr; try done; try lia; by destruct Hr as (? & ? & ?); lia.
Qed.

(** [parse_cie] reads the length and the header without a panic. *)
Lemma parse_cie_panic off :
  0 ≤ off ≤ len bs →
  parse_cie bs off base = Panic ↔ overflow_checks = true ∧ CieOverrun base bs off.
Proof.
  intros Hoff. unfold parse_cie. rewrite parse_cie_body_split.
  pose proof (read_entry_length_total (pan:=False) bs base Hbs off Hoff _ eq_refl) as Hlt.
  split.
  - unfold mbind at 1, sm_bind at 1.
    destruct (read_entry_length _) as [[[d64 e]|e| | |] c] eqn:Hl; try done. cbn [fst snd] in Hlt.
    destruct Hlt as (_ & _ & _).
    apply (recog_entry_length off Hoff) in Hl as (l & Ho & -> & n & Hn & -> & He & _). cbn [fst snd] in Hn, He, Ho |- *.
    pose proof (occurs_range _ _ _ Ho) as Hp. set (p := off + len (emit_length d64 n)) in *.
    assert (0 ≤ n) by (destruct d64; apply Hn).
    rewrite cie_header_bind. unfold mbind, sm_bind.
    pose proof (cie_header_total bs base Hbs False d64 p (proj1 Hp) (mkCursor bs p base)) as Ht.
    specialize (Ht ltac:(unfold cursor_at; cbn; split_and!; done || lia)).
    destruct (cie_header d64 mret _) as [[k| | | |] c] eqn:Hh; try done.
    apply (recog_cie_header p d64 Hp) in Hh as (hdr & Hoh & -> & Hk).
    intros (Hov & Hle & Hlt)%instructions_panic; [|by apply occurs_range|lia]. split; [done|].
    eapply (overrun _ _ _ d64 n hdr k); [done|by subst e|by apply occurs_app|lia|subst e p; lia].
  - intros [Hov [d64 n hdr k p e Hn Hk [Ho Hoh]%occurs_app He Hlt']].
    assert (0 ≤ n) by (destruct d64; apply Hn). pose proof (occurs_range _ _ _ Ho) as Hp.
    assert (read_entry_length (mkCursor bs off base) = (Ok (d64, e), mkCursor bs p base)) as Hl.
    { apply (recog_entry_length off Hoff). exists (emit_length d64 n). split_and!; [done..|]. exists n. cbn [fst snd].
      destruct Hbs as [_ Hmax]. unfold isize_max in Hmax. unfold u64_max. split_and!; [done..|lia]. }
    unfold mbind at 1, sm_bind at 1. rewrite Hl. rewrite cie_header_bind.
    assert (cie_header d64 mret (mkCursor bs p base) = (Ok k, mkCursor bs (p + len hdr) base)) as Hh.
    { apply (recog_cie_header p d64 Hp). by exists hdr. }
    unfold mbind, sm_bind. rewrite Hh. apply instructions_panic; [by apply occurs_range|lia|done].
Qed.

(** ** FDEs *)
Lemma recog_skip p q :
  p ≤ q ≤ len bs → Recog p (sm_modify (set_pos q)) (λ l (_ : ()), len l = q - p).
Proof.
  intros Hq Hp [] c. unfold sm_modify, set_pos. cbn [bytes avma_base]. split.
  - intros [= <-]. destruct (take_occurs p (q - p)) as [Ho Hl]; [lia..|].
    eexists. split; [exact Ho|]. rewrite Hl. by rewrite Zplus_minus.
  - intros (l & _ & -> & ->). by rewrite Zplus_minus.
Qed.

Lemma recog_lsda p cfg pc :
  Recog p
    (if negb (cfg_lsda_encoding cfg =? DW_EH_PE_OMIT)
     then read_encoded (cfg_lsda_encoding cfg) (text_base cfg) (data_base cfg) pc else mret 0)
    (λ l v, if cfg_lsda_encoding cfg =? DW_EH_PE_OMIT then l = [] ∧ v = 0
            else PtrWire false (cfg_lsda_encoding cfg) (wrapping_add base p)
                   (text_base cfg) (data_base cfg) pc l v).
Proof. destruct (_ =? _); [apply recog_ret|apply recog_encoded]. Qed.

Lemma uleb_wire_u64 l v : UlebWire l v → is_u64 v.
Proof. intros (gs & _ & _ & ->). by apply wrap_bounds. Qed.

Lemma recog_fde_aug p cfg e pc :
  e ≤ len bs → Recog p (read_fde_augmentation cfg e pc) (FdeAug base p e cfg pc).
Proof.
  intros He. pose proof (proj2 Hbs) as Hmax. unfold isize_max in Hmax.
  unfold read_fde_augmentation. destruct (cfg_has_z cfg) eqn:Hz.
  2: { eapply recog_iff; [apply recog_ret|]. intros l v _. cbv beta. split.
       - intros [-> ->]. by constructor.
       - intros Ha. inv Ha; [done|congruence]. }
  eapply recog_iff.
  - eapply recog_bind; [apply recog_uleb|]. intros l1 n0 _ _. cbv beta.
    apply recog_get. apply recog_ok_or. intros n _. cbv zeta. cbn [pos].
    apply recog_ok_or. intros q _. apply recog_if_err. intros Hq%Z.ltb_ge.
    eapply recog_bind; [apply recog_lsda|]. intros l2 v _ _. cbv beta. apply recog_get. cbn [pos].
    apply recog_if_err. intros Hq'%Z.ltb_ge.
    eapply recog_bind; [apply recog_skip; lia|]. intros l3 u _ _. apply recog_ret.
  - intros l v Ho. cbv beta. split.
    + intros (lb & n & ? & -> & Hn & n' & Ha & q & Hq & Hqe & lsda_b & lsda & ? & -> & Hl & Hq'
        & pad & u & ? & -> & Hpad & -> & ->).
      rewrite usize_try_from_u64 in Ha by (by eapply uleb_wire_u64). injection Ha as <-.
      apply checked_add_some in Hq as [-> _]. apply Z.ltb_ge in Hqe, Hq'. rewrite app_nil_r.
      assert (len (lsda_b ++ pad) = n) as Hlen by (rewrite len_app; lia).
      constructor; [done|by rewrite Hlen|lia|done].
    + intros Ha. destruct Ha as [?|lb lsda_b lsda pad _ Hn Hq Hl]; [congruence|].
      apply occurs_range in Ho. rewrite !len_app in *.
      eexists lb, (len lsda_b + len pad), _. split; [reflexivity|]. split; [done|].
      eexists. split; [apply usize_try_from_u64; by eapply uleb_wire_u64|].
      exists (p + len lb + (len lsda_b + len pad)). pose proof (len_nonneg lb).
      pose proof (len_nonneg lsda_b). pose proof (len_nonneg pad). destruct Ho as [Ho1 Ho2].
      split; [|split; [by apply Z.ltb_ge|]].
      { unfold checked_add. rewrite (proj2 (Z.leb_le _ _)); [done|]. unfold u64_max. lia. }
      exists lsda_b, lsda, pad. split; [done|]. split; [done|]. split; [apply Z.ltb_ge; lia|].
      exists pad, (), []. rewrite app_nil_r. split_and!; [done|lia|done|done].
Qed.

(** The section stays in place even when the declared end of the entry, to
    which the cursor is moved, is outside it. *)
Lemma fde_aug_bytes p cfg e pc v c :
  0 ≤ p ≤ len bs → read_fde_augmentation cfg e pc (mkCursor bs p base) = (Ok v, c) → bytes c = bs.
Proof.
  intros Hp. unfold read_fde_augmentation. destruct (cfg_has_z cfg); [|by intros [= _ <-]].
  intros (n & c1 & (l1 & Ho1 & -> & _)%(recog_uleb p Hp) & Hr)%sm_bind_ok.
  apply occurs_range in Ho1. unfold mbind at 1, sm_bind at 1, sm_get in Hr.
  apply sm_bind_ok in Hr as (n' & c2 & [= _ <-] & Hr). cbv zeta in Hr.
  apply sm_bind_ok in Hr as (q & c3 & [= _ <-] & Hr). destruct (_ <? _); [done|].
  apply sm_bind_ok in Hr as (l & c4 & (l2 & Ho2 & -> & _)%(recog_lsda _ cfg pc Ho1) & Hr).
  unfold mbind at 1, sm_bind at 1, sm_get in Hr. destruct (_ <? _); [done|].
  by injection Hr as _ <-.
Qed.

Lemma recog_fde_tail p cfg e pc rng :
  0 ≤ e →
  Recog p
    (lsda ← read_fde_augmentation cfg e pc;
     '(instr_offset, instr_len) ← instr_range e;
     mret (mkParsedFde pc rng instr_offset instr_len lsda))
    (λ l w, ∃ lsda, FdeAug base p e cfg pc l lsda ∧ in_entry (p + len l) e ∧
                    w = mkParsedFde pc rng (p + len l) (wrap 64 (e - (p + len l))) lsda).
Proof.
  intros He. destruct (decide (e ≤ len bs)) as [Hle|Hgt].
  - eapply recog_iff.
    + eapply recog_bind; [by apply recog_fde_aug|]. intros l1 lsda _ _. cbv beta.
      by apply (recog_entry_tail _ e (λ o n, mkParsedFde pc rng o n lsda)).
    + intros l w _. cbv beta. split.
      * intros (l1 & lsda & ? & -> & ? & -> & ? & ->). rewrite app_nil_r. eauto.
      * intros (lsda & ? & ? & ->). exists l, lsda, []. by rewrite app_nil_r.
  - intros Hp w c. split.
    + intros (lsda & c1 & Hb%(fde_aug_bytes p cfg e pc) & Hr)%sm_bind_ok; [|done].
      unfold instr_range, mbind, sm_bind, sm_get in Hr. rewrite Hb in Hr.
      destruct (Z.ltb_spec (len bs) e); [done|lia].
    + intros (l & _ & _ & lsda & _ & [? _] & _). lia.
Qed.

(** The size of the function has a format and no base. *)
Lemma ptr_wire_format enc pcrel tb db fb l v :
  PtrWire false (enc_format enc) pcrel tb db fb l v ↔ PtrWire false (enc_format enc) 0 0 0 0 l v.
Proof.
  assert (enc_app (enc_format enc) = 0) as Happ.
  { unfold enc_app, enc_format. rewrite <- Z.land_assoc. apply Z.land_0_r. }
  split; intros [f a l' d Hi Hf Ha Hd Hz|f l' d Hi Hf Hd Hz|]; try done;
    try by eapply WireAbsent.
  all: rewrite Happ in Ha; destruct a; try done;
    cbn [app_base]; by refine (WireDirect _ _ _ _ _ _ f AppAbs l' d Hi Hf _ Hd Hz).
Qed.

Lemma recog_fde p cfg d64 e :
  0 ≤ e →
  Recog p
    (c ← sm_get;
     let cie_ptr_pos := pos c in
     cie_ptr ← read_entry_id d64;
     if cie_ptr =? 0 then sm_err (mkDwarfParseError cie_ptr_pos FdeCiePointerIsZero)
     else
       initial_pc ← read_encoded (cfg_fde_encoding cfg) (text_base cfg) (data_base cfg) 0;
       let range_enc := Z.land (cfg_fde_encoding cfg) DW_EH_PE_FORMAT_MASK in
       address_range ← read_encoded range_enc 0 0 0;
       lsda ← read_fde_augmentation cfg e initial_pc;
       '(instr_offset, instr_len) ← instr_range e;
       mret (mkParsedFde initial_pc address_range instr_offset instr_len lsda))
    (λ l w, ∃ k, FdeFields base p e cfg d64 l k ∧ in_entry (p + len l) e ∧
                 w = k (p + len l) (wrap 64 (e - (p + len l)))).
Proof.
  intros He. apply recog_get. cbv zeta. cbn [pos]. fold (enc_format (cfg_fde_encoding cfg)).
  eapply recog_iff.
  - eapply recog_bind; [apply recog_entry_id|]. intros l0 id _ _. cbv beta.
    apply recog_if_err. intros _.
    eapply recog_bind; [apply recog_encoded|]. intros l1 pc _ _. cbv beta.
    eapply recog_bind; [apply recog_encoded|]. intros l2 rng _ _. cbv beta.
    by apply recog_fde_tail.
  - intros l w _. cbv beta. setoid_rewrite ptr_wire_format. split.
    + intros (l0 & id & ? & -> & [-> Hid] & Hnz%Z.eqb_neq & l1 & pc & ? & -> & Hpc & l2 & rng & l3
        & -> & Hrng & lsda & Haug & Hin & ->).
      norm_pos Haug. norm_pos Hin. eexists. split; [by econstructor|].
      split; [exact Hin|]. norm_pos. done.
    + intros (k & Hk & Hin & ->). destruct Hk as [id pc_b pc rng_b rng aug_b lsda Hnz Hid Hpc Hrng Haug].
      eexists (emit_id d64 id), id, _. split; [reflexivity|]. split; [done|].
      split; [by apply Z.eqb_neq|].
      eexists pc_b, pc, _. split; [reflexivity|]. split; [done|].
      eexists rng_b, rng, _. split; [reflexivity|]. split; [done|].
      exists lsda. norm_pos. done.
Qed.
End recog.

(** ** Properties *)

(** C14: [parse_cie] accepts exactly the CIEs of the grammar.  At every offset of
    every section it succeeds if and only if an entry of the grammar lies there,
    in the 32- or 64-bit format, with any LEB128 encoding of the factors, any
    augmentation and any encoded personality, and what it returns are the fields
    the grammar gives, so a success determines the bytes' reading uniquely. *)
Theorem parse_cie_exact `{Profile} (bs : list Z) (base off : Z) (cie : ParsedCie) :
  bytes_ok bs → 0 ≤ off ≤ len bs →
  parse_cie bs off base = Ok cie ↔ CieEntry base bs off cie.
Proof.
  intros Hbs Hoff. apply (recog_entry bs base Hbs); [done|]. intros p d64 e _ He.
  by apply (recog_cie bs base Hbs).
Qed.

(** C25: the only panic of [parse_cie], for all section bytes and offsets in the
    section, is the subtraction that computes the length of the instructions: with
    overflow checks it panics exactly on the entries of the grammar whose header is
    longer than the length they declare, and without never; and a success has fields
    of their machine types and an instruction range that is exactly the rest of the
    entry, inside the section, unless the header overran the entry. *)
Theorem parse_cie_total `{Profile} (bs : list Z) (base off : Z) :
  bytes_ok bs → 0 ≤ off ≤ len bs →
  (parse_cie bs off base = Panic ↔ overflow_checks = true ∧ CieOverrun base bs off) ∧
  match parse_cie bs off base with
  | Ok cie => cie_ok bs off cie
  | Err _ | Panic => True
  | UB | NoFuel => False
  end.
Proof.
  intros Hbs Hoff. split; [by apply parse_cie_panic|].
  pose proof (parse_cie_cases bs base Hbs off Hoff). by destruct (parse_cie bs off base).
Qed.

(** C15: [parse_fde] accepts exactly the FDEs of the grammar for the configuration
    its CIE gives, and returns their fields: the function start and size, the
    LSDA pointer inside the augmentation data, and the instructions that follow
    it to the end of the entry. *)
Theorem parse_fde_exact `{Profile} (bs : list Z) (base off : Z) (cfg : FdeParseConfig)
    (fde : ParsedFde) :
  bytes_ok bs → 0 ≤ off ≤ len bs →
  parse_fde bs off base cfg = Ok fde ↔ FdeEntry base cfg bs off fde.
Proof.
  intros Hbs Hoff. apply (recog_entry bs base Hbs); [done|]. intros p d64 e _ He.
  by apply (recog_fde bs base Hbs).
Qed.

(** *** Witnesses: over-long LEB128 encodings of 1 and -8, and an absent
    function start under an application that is otherwise rejected *)
Lemma parse_cie_exact_witness :
  CieEntry (H:=true) 0x1000
    [0; 14; 0; 0; 0; 0; 0; 0; 0; 1; 0; 0x81; 0x00; 0xf8; 0xff; 0x7f; 16; 12; 7] 1
    (mkParsedCie 1 (-8) 16 0 0xff 0 false false 17 2).
Proof.
  refine (proj1 (parse_cie_exact (H:=true) _ 0x1000 1 _ _ _) _);
    [by_compute|by_compute|by vm_compute].
Defined.

(** A length that ends before the header does. *)
Lemma parse_cie_total_witness : CieOverrun 0 short_cie 0 ∧ parse_cie (H:=false) short_cie 0 0 ≠ Panic.
Proof.
  split.
  - refine (proj2 (proj1 (proj1 (parse_cie_total (H:=true) short_cie 0 0 _ _)) _));
      [by_compute|by_compute|by vm_compute].
  - intros Hp. refine (_ (proj1 (proj1 (parse_cie_total (H:=false) short_cie 0 0 _ _)) Hp));
      [by intros [? _]|by_compute|by_compute].
Defined.

Lemma parse_fde_exact_witness :
  let cfg := mkFdeParseConfig DW_EH_PE_ALIGNED 0xff false 0 0 in
  FdeEntry (H:=false) 0x1000 cfg (le_encode 4 20 ++ le_encode 4 4 ++ le_encode 8 0 ++ le_encode 8 0x10) 0
    (mkParsedFde 0 0x10 24 0 0).
Proof.
  refine (proj1 (parse_fde_exact (H:=false) _ 0x1000 0 _ _ _ _) _);
    [by_compute|by_compute|by vm_compute].
Defined.
