(* ===== verification/Modules.v ===== *)
(** * [src/src/module.rs]: modules and how they are built from sections

    Section bytes are immutable once a module owns them, so a raw pointer is
    the allocation it points into and an offset.  The function cache of a
    module is a [Mutex] behind an [Arc]: clones of a module (and of an
    unwinder) share it, so it lives in a [Heap] and the module holds its
    location. *)

From stdpp Require Import gmap.
From S2P Require Import Prelude.
From S2P Require Import BTree.
From S2P Require Import EhFrameTable.
From S2P Require Import Ffi.
From S2P Require Import Errors.

(** ** Data *)

(** [Range<u64>]. *)
Record Range : Type := mkRange { start : Z; end_ : Z }.

#[export] Instance Range_eq_dec : EqDecision Range.
Proof. solve_decision. Defined.

(** [Range::is_empty]. *)
Definition range_is_empty (r : Range) : bool := negb (start r <? end_ r).

Definition range_contains (r : Range) (a : Z) : bool := (start r <=? a) && (a <? end_ r).

(** [*const u8]. *)
Inductive ptr : Type :=
  | Null
  | Ptr (alloc : list Z) (off : Z).

#[export] Instance ptr_eq_dec : EqDecision ptr.
Proof. solve_decision. Defined.

Definition is_null (p : ptr) : bool := match p with Null => true | Ptr _ _ => false end.
(** [slice.as_ptr()]: never null. *)
Definition as_ptr (bytes : list Z) : ptr := Ptr bytes 0.
(** [p.add(n)]. *)
Definition ptr_add (p : ptr) (n : Z) : ptr :=
  match p with Null => Null | Ptr a o => Ptr a (o + n) end.
(** [slice::from_raw_parts(p, n)]: undefined unless the [n] bytes at [p] lie in
    the allocation. *)
Definition from_raw_parts {E} (p : ptr) (n : Z) : outcome E (list Z) :=
  match p with
  | Null => UB
  | Ptr a o =>
      if (0 <=? o) && (0 <=? n) && (o + n <=? len a)
      then Ok (take (Z.to_nat n) (drop (Z.to_nat o) a)) else UB
  end.

(** A section whose bytes are mirrored locally. *)
Record LocalSection : Type := mkLocalSection {
  sec_avma_start : Z;
  sec_avma_end : Z;
  local_ptr : ptr;
}.

Record FunctionDetails : Type := mkFunctionDetails {
  start_ip : Z;
  end_ip : Z;
  cie_info : DwarfCieInfo;
  fd_lsda : Z;
  fd_handler : Z;
  fd_signal_frame : bool;
}.

#[export] Instance LocalSection_eq_dec : EqDecision LocalSection.
Proof. solve_decision. Defined.
#[export] Instance FunctionDetails_eq_dec : EqDecision FunctionDetails.
Proof. solve_decision. Defined.

(** [Mutex<BTreeMap<u64, Arc<FunctionDetails>>>]. *)
Record CacheCell : Type := mkCacheCell {
  poisoned : bool;
  cache_map : list (Z * FunctionDetails);
}.

(** The shared caches, by location. *)
Record Heap : Type := mkHeap { cells : gmap N CacheCell; next_loc : N }.

Definition heap_init : Heap := mkHeap ∅ 0.

Record ModuleData : Type := mkModuleData {
  name : string;
  avma_range : Range;
  base_avma : Z;
  local_sections : list LocalSection;
  table : EhFrameTable;
  eh_frame_hdr_local_ptr : ptr;
  eh_frame_hdr_local_len : Z;
  eh_frame_local_ptr : ptr;
  eh_frame_local_len : Z;
  eh_frame_avma : Z;
  eh_frame_hdr_error : option EhFrameHdrError;
  function_cache : N;
  text_base : Z;
  data_base : Z;
}.

#[export] Instance ModuleData_eq_dec : EqDecision ModuleData.
Proof. solve_decision. Defined.

Record DwarfModuleSections : Type := mkDwarfModuleSections {
  dms_base_svma : Z;
  dms_text_svma : option Range;
  dms_text : option (list Z);
  dms_eh_frame_svma : option Range;
  dms_eh_frame : option (list Z);
  dms_eh_frame_hdr_svma : option Range;
  dms_eh_frame_hdr : option (list Z);
}.

Record ExplicitModuleSectionInfo : Type := mkExplicitModuleSectionInfo {
  ems_base_svma : Z;
  ems_text_svma : option Range;
  ems_text : option (list Z);
  ems_stubs_svma : option Range;
  ems_stub_helper_svma : option Range;
  ems_got_svma : option Range;
  ems_unwind_info : option (list Z);
  ems_eh_frame_svma : option Range;
  ems_eh_frame : option (list Z);
  ems_eh_frame_hdr_svma : option Range;
  ems_eh_frame_hdr : option (list Z);
  ems_debug_frame : option (list Z);
  ems_text_segment_svma : option Range;
  ems_text_segment : option (list Z);
}.

Inductive ModuleError : Type :=
  | EmptyAvmaRange
  | MissingEhFrame
  | MissingEhFrameSvma
  | MissingEhFrameHdr
  | MissingEhFrameHdrSvma
  | InvalidEhFrameHdr (err : EhFrameHdrError).

#[export] Instance ModuleError_eq_dec : EqDecision ModuleError.
Proof. solve_decision. Defined.

Record ModuleParts : Type := mkModuleParts {
  mp_name : string;
  mp_avma_range : Range;
  mp_base_avma : Z;
  mp_base_svma : Z;
  mp_text_svma : option Range;
  mp_eh_frame_svma : option Range;
  mp_eh_frame : option (list Z);
  mp_eh_frame_hdr_svma : option Range;
  mp_eh_frame_hdr : option (list Z);
}.

(** ** The section provider interface

    [trait ModuleSectionInfo<D>]; the [&mut self] methods return the provider
    they leave behind. *)
Class ModuleSectionInfo (T : Type) : Type := {
  base_svma : T → Z;
  section_svma_range : T → string → option Range * T;
  section_data : T → string → option (list Z) * T;
  segment_svma_range : T → string → option Range * T;
  segment_data : T → string → option (list Z) * T;
}.

Local Open Scope string_scope.
Local Open Scope list_scope.
Local Open Scope Z_scope.

(** [impl ModuleSectionInfo for DwarfModuleSections]; [Option::take] leaves
    [None] behind. *)
Definition dms_section_svma_range (self : DwarfModuleSections) (name : string)
    : option Range * DwarfModuleSections :=
  (if bool_decide (name = "__text" ∨ name = ".text") then dms_text_svma self
   else if bool_decide (name = "__eh_frame" ∨ name = ".eh_frame") then dms_eh_frame_svma self
   else if bool_decide (name = "__eh_frame_hdr" ∨ name = ".eh_frame_hdr")
   then dms_eh_frame_hdr_svma self
   else None, self).

Definition dms_section_data (self : DwarfModuleSections) (name : string)
    : option (list Z) * DwarfModuleSections :=
  let 'mkDwarfModuleSections b ts t es e hs h := self in
  if bool_decide (name = "__text" ∨ name = ".text")
  then (t, mkDwarfModuleSections b ts None es e hs h)
  else if bool_decide (name = "__eh_frame" ∨ name = ".eh_frame")
  then (e, mkDwarfModuleSections b ts t es None hs h)
  else if bool_decide (name = "__eh_frame_hdr" ∨ name = ".eh_frame_hdr")
  then (h, mkDwarfModuleSections b ts t es e hs None)
  else (None, self).

#[export] Instance DwarfModuleSections_info : ModuleSectionInfo DwarfModuleSections := {
  base_svma := dms_base_svma;
  section_svma_range := dms_section_svma_range;
  section_data := dms_section_data;
  segment_svma_range := λ self _, (None, self);
  segment_data := λ self _, (None, self);
}.

(** [impl ModuleSectionInfo for ExplicitModuleSectionInfo]. *)
Definition ems_section_svma_range (self : ExplicitModuleSectionInfo) (name : string)
    : option Range * ExplicitModuleSectionInfo :=
  (if bool_decide (name = "__text" ∨ name = ".text") then ems_text_svma self
   else if bool_decide (name = "__stubs") then ems_stubs_svma self
   else if bool_decide (name = "__stub_helper") then ems_stub_helper_svma self
   else if bool_decide (name = "__got" ∨ name = ".got") then ems_got_svma self
   else if bool_decide (name = "__eh_frame" ∨ name = ".eh_frame") then ems_eh_frame_svma self
   else if bool_decide (name = "__eh_frame_hdr" ∨ name = ".eh_frame_hdr")
   then ems_eh_frame_hdr_svma self
   else None, self).

Definition ems_section_data (self : ExplicitModuleSectionInfo) (name : string)
    : option (list Z) * ExplicitModuleSectionInfo :=
  let 'mkExplicitModuleSectionInfo b ts t ss sh g u es e hs h d gs gd := self in
  if bool_decide (name = "__text" ∨ name = ".text")
  then (t, mkExplicitModuleSectionInfo b ts None ss sh g u es e hs h d gs gd)
  else if bool_decide (name = "__unwind_info")
  then (u, mkExplicitModuleSectionInfo b ts t ss sh g None es e hs h d gs gd)
  else if bool_decide (name = "__eh_frame" ∨ name = ".eh_frame")
  then (e, mkExplicitModuleSectionInfo b ts t ss sh g u es None hs h d gs gd)
  else if bool_decide (name = "__eh_frame_hdr" ∨ name = ".eh_frame_hdr")
  then (h, mkExplicitModuleSectionInfo b ts t ss sh g u es e hs None d gs gd)
  else if bool_decide (name = "__debug_frame" ∨ name = ".debug_frame")
  then (d, mkExplicitModuleSectionInfo b ts t ss sh g u es e hs h None gs gd)
  else (None, self).

Definition ems_segment_svma_range (self : ExplicitModuleSectionInfo) (name : string)
    : option Range * ExplicitModuleSectionInfo :=
  (if bool_decide (name = "__TEXT") then ems_text_segment_svma self else None, self).

Definition ems_segment_data (self : ExplicitModuleSectionInfo) (name : string)
    : option (list Z) * ExplicitModuleSectionInfo :=
  let 'mkExplicitModuleSectionInfo b ts t ss sh g u es e hs h d gs gd := self in
  if bool_decide (name = "__TEXT")
  then (gd, mkExplicitModuleSectionInfo b ts t ss sh g u es e hs h d gs None)
  else (None, self).

#[export] Instance ExplicitModuleSectionInfo_info
  : ModuleSectionInfo ExplicitModuleSectionInfo := {
  base_svma := ems_base_svma;
  section_svma_range := ems_section_svma_range;
  section_data := ems_section_data;
  segment_svma_range := ems_segment_svma_range;
  segment_data := ems_segment_data;
}.

(** ** Memory-mapped sections *)

(** [MmapBytes]: a range of a shared read-only map. *)
Record MmapBytes : Type := mkMmapBytes { mmap : list Z; mb_start : Z; mb_end : Z }.

Definition MmapBytes_new (mmap : list Z) (start end_ : Z) : option MmapBytes :=
  if (start <=? end_) && (end_ <=? len mmap) then Some (mkMmapBytes mmap start end_) else None.

Definition from_file_range (mmap : list Z) (offset size : Z) : option MmapBytes :=
  start ← usize_try_from offset;
  n ← usize_try_from size;
  e ← checked_add start n;
  MmapBytes_new mmap start e.

(** [Deref]: indexing panics out of range. *)
Definition mmap_deref {E} (self : MmapBytes) : outcome E (list Z) :=
  slice_range (mmap self) (mb_start self) (mb_end self).

(** What the crate asks the [object] crate about a section. *)
Record ObjSection : Type := mkObjSection {
  obj_address : Z;
  obj_size : Z;
  obj_file_range : option (Z * Z);
}.

(** The parsed object file ([object::File]), answering queries by name. *)
Record ObjectFile : Type := mkObjectFile {
  relative_address_base : Z;
  section_by_name_bytes : string → option ObjSection;
}.

(** [MmapObjectSections]: the object file and the map it was parsed from. *)
Record MmapObjectSections : Type := mkMmapObjectSections {
  mos_file : ObjectFile;
  mos_mmap : list Z;
}.

Definition mos_section_svma_range (self : MmapObjectSections) (name : string)
    : option Range * MmapObjectSections :=
  ((λ s, mkRange (obj_address s) (saturating_add (obj_address s) (obj_size s)))
     <$> section_by_name_bytes (mos_file self) name, self).

(** The bytes of the section; [from_file_range] only builds ranges inside the
    map, so dereferencing cannot panic ([mmap_deref_ok]). *)
Definition mos_section_data (self : MmapObjectSections) (name : string)
    : option (list Z) * MmapObjectSections :=
  (s ← section_by_name_bytes (mos_file self) name;
   '(offset, size) ← obj_file_range s;
   mb ← from_file_range (mos_mmap self) offset size;
   match mmap_deref (E:=()) mb with Ok bytes => Some bytes | _ => None end, self).

#[export] Instance MmapObjectSections_info : ModuleSectionInfo MmapObjectSections := {
  base_svma := λ self, relative_address_base (mos_file self);
  section_svma_range := mos_section_svma_range;
  section_data := mos_section_data;
  segment_svma_range := λ self _, (None, self);
  segment_data := λ self _, (None, self);
}.

(** ** Operations *)

(** [section_range] and [section_data]: the ELF name first, then the
    alternate, which [or_else] queries only when the first found nothing. *)
Definition section_range {T} `{ModuleSectionInfo T} (info : T) (primary alternate : string)
    : option Range * T :=
  match section_svma_range info primary with
  | (Some r, info') => (Some r, info')
  | (None, info') => section_svma_range info' alternate
  end.

Definition section_data_or {T} `{ModuleSectionInfo T} (info : T) (primary alternate : string)
    : option (list Z) * T :=
  match section_data info primary with
  | (Some d, info') => (Some d, info')
  | (None, info') => section_data info' alternate
  end.

Definition module_parts_from_section_info {T} `{ModuleSectionInfo T} (name : string)
    (avma_range : Range) (base_avma : Z) (section_info : T) : ModuleParts * T :=
  let svma := base_svma section_info in
  let '(text_svma, section_info) := section_range section_info ".text" "__text" in
  let '(eh_frame_svma, section_info) := section_range section_info ".eh_frame" "__eh_frame" in
  let '(eh_frame, section_info) := section_data_or section_info ".eh_frame" "__eh_frame" in
  let '(eh_frame_hdr_svma, section_info) :=
    section_range section_info ".eh_frame_hdr" "__eh_frame_hdr" in
  let '(eh_frame_hdr, section_info) :=
    section_data_or section_info ".eh_frame_hdr" "__eh_frame_hdr" in
  (mkModuleParts name avma_range base_avma svma text_svma eh_frame_svma eh_frame
     eh_frame_hdr_svma eh_frame_hdr, section_info).

Section ops.
Context `{Profile}.

(** The mirrored section of [bytes] at tracee address [avma]. *)
Definition mirror (avma : Z) (bytes : list Z) : LocalSection :=
  mkLocalSection avma (saturating_add avma (len bytes)) (as_ptr bytes).

(** The [.eh_frame_hdr] block of [from_parts]: the sections to mirror, the
    table, the local pointer and length, the tracee address and the header
    error. *)
Definition from_parts_hdr {E} (parts : ModuleParts) (slide : Z)
    : outcome E (list LocalSection * EhFrameTable * ptr * Z * Z * option EhFrameHdrError) :=
  match mp_eh_frame_hdr parts, mp_eh_frame_hdr_svma parts with
  | Some bytes, Some svma =>
      let avma := wrapping_add (start svma) slide in
      match parse bytes avma with
      | Ok table => Ok ([mirror avma bytes], table, as_ptr bytes, len bytes, avma, None)
      | Err err => Ok ([mirror avma bytes], empty avma, as_ptr bytes, len bytes, avma, Some err)
      | Panic => Panic
      | UB => UB
      | NoFuel => NoFuel
      end
  | _, _ => Ok ([], empty 0, Null, 0, 0, None)
  end.

(** The [.eh_frame] block. *)
Definition from_parts_eh_frame (parts : ModuleParts) (slide : Z)
    : list LocalSection * ptr * Z * Z :=
  match mp_eh_frame parts, mp_eh_frame_svma parts with
  | Some bytes, Some svma =>
      let avma := wrapping_add (start svma) slide in
      ([mirror avma bytes], as_ptr bytes, len bytes, avma)
  | _, _ => ([], Null, 0, 0)
  end.

(** [Module::from_parts]: allocates the module's (empty) function cache. *)
Definition from_parts {E} (parts : ModuleParts) (h : Heap) : outcome E (ModuleData * Heap) :=
  let slide := wrapping_sub (mp_base_avma parts) (mp_base_svma parts) in
  '(secs1, table, hdr_ptr, hdr_len, hdr_avma, hdr_error) ← from_parts_hdr parts slide;
  let '(secs2, ef_ptr, ef_len, ef_avma) := from_parts_eh_frame parts slide in
  let text_base :=
    match mp_text_svma parts with
    | Some r => wrapping_add (start r) slide
    | None => start (mp_avma_range parts)
    end in
  let loc := next_loc h in
  Ok (mkModuleData (mp_name parts) (mp_avma_range parts) (mp_base_avma parts)
        (secs1 ++ secs2) table hdr_ptr hdr_len ef_ptr ef_len ef_avma hdr_error loc
        text_base hdr_avma,
      mkHeap (<[loc := mkCacheCell false []]> (cells h)) (N.succ loc)).

Definition validate_module_parts (parts : ModuleParts) : outcome ModuleError () :=
  if range_is_empty (mp_avma_range parts) then Err EmptyAvmaRange
  else
    match mp_eh_frame_svma parts with
    | None => Err MissingEhFrameSvma
    | Some _ =>
        match mp_eh_frame parts with
        | None => Err MissingEhFrame
        | Some _ =>
            match mp_eh_frame_hdr_svma parts with
            | None => Err MissingEhFrameHdrSvma
            | Some eh_frame_hdr_svma =>
                match mp_eh_frame_hdr parts with
                | None => Err MissingEhFrameHdr
                | Some eh_frame_hdr =>
                    let slide := wrapping_sub (mp_base_avma parts) (mp_base_svma parts) in
                    _ ← map_err InvalidEhFrameHdr
                          (parse eh_frame_hdr
                             (wrapping_add (start eh_frame_hdr_svma) slide));
                    Ok ()
                end
            end
        end
    end.

(** [Module::new]. *)
Definition new {E T} `{ModuleSectionInfo T} (name : string) (avma_range : Range)
    (base_avma : Z) (section_info : T) (h : Heap) : outcome E (ModuleData * Heap) :=
  from_parts (module_parts_from_section_info name avma_range base_avma section_info).1 h.

Definition from_dwarf_sections (name : string) (avma_range : Range) (base_avma : Z)
    (sections : DwarfModuleSections) (h : Heap) : outcome ModuleError (ModuleData * Heap) :=
  let parts :=
    mkModuleParts name avma_range base_avma (dms_base_svma sections) (dms_text_svma sections)
      (dms_eh_frame_svma sections) (dms_eh_frame sections)
      (dms_eh_frame_hdr_svma sections) (dms_eh_frame_hdr sections) in
  _ ← validate_module_parts parts;
  from_parts parts h.

Definition try_from_section_info {T} `{ModuleSectionInfo T} (name : string)
    (avma_range : Range) (base_avma : Z) (section_info : T) (h : Heap)
    : outcome ModuleError (ModuleData * Heap) :=
  let parts := (module_parts_from_section_info name avma_range base_avma section_info).1 in
  _ ← validate_module_parts parts;
  from_parts parts h.

Definition fallback_only {E} (name : string) (avma_range : Range) (base_avma : Z) (h : Heap)
    : outcome E (ModuleData * Heap) :=
  from_parts (mkModuleParts name avma_range base_avma base_avma None None None None None) h.
End ops.

(** ** Loading from a file

    The operating system and the [object] crate are parameters. *)
Section mmap.
Context `{Profile} {io_error object_error : Type}.
(** [File::open] then [MmapOptions::map], and [object::File::parse]. *)
Context (File : Type) (open : string → io_error + File) (map_file : File → io_error + list Z)
        (object_parse : list Z → object_error + ObjectFile).

Inductive MmapModuleError : Type :=
  | MOpen (path : string) (source : io_error)
  | MMap (path : string) (source : io_error)
  | MParse (path : string) (source : object_error)
  | MModule (err : ModuleError).

Definition mmap_file (path : string) : outcome MmapModuleError (list Z) :=
  match open path with
  | inl source => Err (MOpen path source)
  | inr file =>
      match map_file file with
      | inl source => Err (MMap path source)
      | inr mmap => Ok mmap
      end
  end.

Definition from_mmap_file (path : string) (avma_range : Range) (base_avma : Z) (h : Heap)
    : outcome MmapModuleError (ModuleData * Heap) :=
  mmap ← mmap_file path;
  match object_parse mmap with
  | inl source => Err (MParse path source)
  | inr file => new path avma_range base_avma (mkMmapObjectSections file mmap) h
  end.

Definition try_from_mmap_file (path : string) (avma_range : Range) (base_avma : Z) (h : Heap)
    : outcome MmapModuleError (ModuleData * Heap) :=
  mmap ← mmap_file path;
  match object_parse mmap with
  | inl source => Err (MParse path source)
  | inr file =>
      map_err MModule
        (try_from_section_info path avma_range base_avma (mkMmapObjectSections file mmap) h)
  end.
End mmap.

(** ** Invariant of a module *)

(** A mirrored section: its pointer covers its bytes, its end is the start plus
    their number, clamped at the top of the address space. *)
Definition section_ok (s : LocalSection) : Prop :=
  ∃ bytes, bytes_ok bytes ∧ local_ptr s = as_ptr bytes ∧ is_u64 (sec_avma_start s) ∧
           sec_avma_end s = saturating_add (sec_avma_start s) (len bytes).

(** A local pointer with its length: null, or a whole section. *)
Definition local_ok (p : ptr) (n : Z) : Prop :=
  (p = Null ∧ n = 0) ∨ ∃ bytes, bytes_ok bytes ∧ p = as_ptr bytes ∧ n = len bytes.

Definition module_ok (m : ModuleData) : Prop :=
  Forall section_ok (local_sections m) ∧
  local_ok (eh_frame_hdr_local_ptr m) (eh_frame_hdr_local_len m) ∧
  local_ok (eh_frame_local_ptr m) (eh_frame_local_len m) ∧
  is_u64 (eh_frame_avma m) ∧ 0 ≤ table_data_offset (table m) ∧ is_u64 (entry_count (table m)) ∧
  (entry_count (table m) ≠ 0 →
     table_data_offset (table m) + 8 * entry_count (table m) ≤ eh_frame_hdr_local_len m).

Definition parts_ok (parts : ModuleParts) : Prop :=
  (∀ b, mp_eh_frame parts = Some b → bytes_ok b) ∧
  (∀ b, mp_eh_frame_hdr parts = Some b → bytes_ok b).

(** The [.eh_frame_hdr] a module is built from, parsed. *)
Definition parts_hdr `{Profile} (parts : ModuleParts) : option (outcome EhFrameHdrError EhFrameTable) :=
  bytes ← mp_eh_frame_hdr parts;
  svma ← mp_eh_frame_hdr_svma parts;
  Some (parse bytes (wrapping_add (start svma)
                       (wrapping_sub (mp_base_avma parts) (mp_base_svma parts)))).

Section lemmas.
Context `{Profile}.

Lemma mirror_ok avma bytes : is_u64 avma → bytes_ok bytes → section_ok (mirror avma bytes).
Proof. intros. exists bytes. done. Qed.

Lemma local_ok_as_ptr bytes : bytes_ok bytes → local_ok (as_ptr bytes) (len bytes).
Proof. right. eauto. Qed.

Lemma local_ok_null : local_ok Null 0.
Proof. by left. Qed.

Lemma from_parts_hdr_ok {E} parts slide :
  parts_ok parts →
  ∃ secs t p n avma err,
    from_parts_hdr (E:=E) parts slide = Ok (secs, t, p, n, avma, err) ∧
    Forall section_ok secs ∧ local_ok p n ∧ 0 ≤ table_data_offset t ∧ is_u64 (entry_count t) ∧
    (entry_count t ≠ 0 → table_data_offset t + 8 * entry_count t ≤ n).
Proof.
  intros [_ Hh]. unfold from_parts_hdr.
  destruct (mp_eh_frame_hdr parts) as [bytes|].
  2: { eexists _, _, _, _, _, _. split_and!; [done..|by apply local_ok_null|done|done|done]. }
  destruct (mp_eh_frame_hdr_svma parts) as [svma|].
  2: { eexists _, _, _, _, _, _. split_and!; [done..|by apply local_ok_null|done|done|done]. }
  specialize (Hh bytes eq_refl). set (avma := wrapping_add _ _).
  pose proof (parse_cases bytes avma Hh) as Hc.
  assert (section_ok (mirror avma bytes)) by (apply mirror_ok; [apply wrapping_add_u64|done]).
  destruct (parse bytes avma) as [t|err| | |]; try done;
    eexists _, _, _, _, _, _; (split_and!; [done|by constructor|by apply local_ok_as_ptr|..]).
  - lia.
  - apply Hc.
  - intros _. apply Hc.
  - done.
  - done.
  - done.
Qed.

Lemma from_parts_eh_frame_ok parts slide secs p n avma :
  parts_ok parts → from_parts_eh_frame parts slide = (secs, p, n, avma) →
  Forall section_ok secs ∧ local_ok p n ∧ is_u64 avma.
Proof.
  intros [He _]. unfold from_parts_eh_frame.
  destruct (mp_eh_frame parts) as [bytes|]; [destruct (mp_eh_frame_svma parts) as [svma|]|];
    intros; simplify_eq;
    [|split_and!; [by constructor|by apply local_ok_null|unfold is_u; lia]..].
  specialize (He bytes eq_refl). split_and!; [|by apply local_ok_as_ptr|apply wrapping_add_u64].
  repeat constructor. apply mirror_ok; [apply wrapping_add_u64|done].
Qed.

(** [from_parts] always succeeds and builds a well-formed module with a
    fresh, empty function cache. *)
Lemma from_parts_ok {E} parts h :
  parts_ok parts →
  ∃ m h', from_parts (E:=E) parts h = Ok (m, h') ∧ module_ok m ∧
    name m = mp_name parts ∧ avma_range m = mp_avma_range parts ∧
    base_avma m = mp_base_avma parts ∧ function_cache m = next_loc h ∧
    cells h' = <[next_loc h := mkCacheCell false []]> (cells h) ∧
    next_loc h' = N.succ (next_loc h).
Proof.
  intros Hok. unfold from_parts. cbv zeta.
  destruct (from_parts_hdr_ok (E:=E) parts
    (wrapping_sub (mp_base_avma parts) (mp_base_svma parts)) Hok)
    as (secs & t & p & n & avma & err & -> & Hs & Hl & Ht & Hn & Hb). run.
  destruct (from_parts_eh_frame _ _) as [[[secs2 p2] n2] avma2] eqn:He.
  destruct (from_parts_eh_frame_ok _ _ _ _ _ _ Hok He) as (Hs2 & Hl2 & Ha2).
  eexists _, _. split; [done|]. unfold module_ok. simpl. split_and!; try done.
  by apply Forall_app.
Qed.

(** What the header says about the module built from it. *)
Lemma from_parts_error {E} parts h m h' :
  from_parts (E:=E) parts h = Ok (m, h') →
  match parts_hdr parts with
  | Some (Ok t) => table m = t ∧ eh_frame_hdr_error m = None ∧ is_null (eh_frame_hdr_local_ptr m) = false
  | Some (Err e) => entry_count (table m) = 0 ∧ eh_frame_hdr_error m = Some e
  | Some _ => False
  | None => entry_count (table m) = 0 ∧ eh_frame_hdr_error m = None
  end.
Proof.
  unfold from_parts, from_parts_hdr, parts_hdr. cbv zeta.
  destruct (from_parts_eh_frame _ _) as [[[secs2 p2] n2] avma2].
  destruct (mp_eh_frame_hdr parts) as [bytes|]; [|by intros [= <- <-]].
  destruct (mp_eh_frame_hdr_svma parts) as [svma|]; [|by intros [= <- <-]].
  simpl. destruct (parse _ _); try done; by intros [= <- <-].
Qed.

Lemma validate_module_parts_ok parts :
  validate_module_parts parts = Ok () ↔
  start (mp_avma_range parts) < end_ (mp_avma_range parts) ∧
  is_Some (mp_eh_frame_svma parts) ∧ is_Some (mp_eh_frame parts) ∧
  ∃ t, parts_hdr parts = Some (Ok t).
Proof.
  unfold validate_module_parts, range_is_empty, parts_hdr.
  destruct (Z.ltb_spec (start (mp_avma_range parts)) (end_ (mp_avma_range parts))); simpl;
    [|split; [done|naive_solver lia]].
  destruct (mp_eh_frame_svma parts); [|split; [done|by intros (_ & [? ?] & _)]].
  destruct (mp_eh_frame parts); [|split; [done|by intros (_ & _ & [? ?] & _)]].
  destruct (mp_eh_frame_hdr_svma parts) as [svma|]; destruct (mp_eh_frame_hdr parts); simpl;
    try (split; [done|by intros (_ & _ & _ & [? ?])]).
  destruct (parse _ _); simpl; (split; [|intros (_ & _ & _ & t & Ht)]; naive_solver).
Qed.

Lemma from_parts_map_err {E F} parts h (r : ModuleData * Heap) :
  from_parts (E:=E) parts h = Ok r → from_parts (E:=F) parts h = Ok r.
Proof.
  unfold from_parts, from_parts_hdr. cbv zeta.
  destruct (from_parts_eh_frame _ _) as [[[? ?] ?] ?].
  destruct (mp_eh_frame_hdr parts); [destruct (mp_eh_frame_hdr_svma parts);
    [destruct (parse _ _)|]|]; run; try done; by intros [= <-].
Qed.

(** The adapter trait and direct construction agree on [DwarfModuleSections]:
    the alternate name finds nothing the primary did not. *)
Lemma dms_parts name range base sections :
  (module_parts_from_section_info name range base sections).1 =
  mkModuleParts name range base (dms_base_svma sections) (dms_text_svma sections)
    (dms_eh_frame_svma sections) (dms_eh_frame sections)
    (dms_eh_frame_hdr_svma sections) (dms_eh_frame_hdr sections).
Proof.
  destruct sections as [b ts t es e hs h].
  unfold module_parts_from_section_info, section_range, section_data_or.
  destruct ts, es, e, hs, h; reflexivity.
Qed.

Lemma dwarf_sections_same name range base sections h :
  try_from_section_info name range base sections h = from_dwarf_sections name range base sections h.
Proof. unfold try_from_section_info, from_dwarf_sections. by rewrite dms_parts. Qed.
End lemmas.

(** A provider that records the names its data methods are asked for. *)
Record Logged (T : Type) : Type := mkLogged { inner : T; data_log : list string }.
Arguments mkLogged {T} inner data_log.
Arguments inner {T} _.
Arguments data_log {T} _.

Definition log_query {T A} (l : Logged T) (r : A * T) : A * Logged T :=
  (r.1, mkLogged r.2 (data_log l)).
Definition log_data {T A} (l : Logged T) (name : string) (r : A * T) : A * Logged T :=
  (r.1, mkLogged r.2 (data_log l ++ [name])).

#[export] Instance Logged_info {T} `{ModuleSectionInfo T} : ModuleSectionInfo (Logged T) := {
  base_svma := λ l, base_svma (inner l);
  section_svma_range := λ l name, log_query l (section_svma_range (inner l) name);
  section_data := λ l name, log_data l name (section_data (inner l) name);
  segment_svma_range := λ l name, log_query l (segment_svma_range (inner l) name);
  segment_data := λ l name, log_data l name (segment_data (inner l) name);
}.

Section logged.
Context {T} `{ModuleSectionInfo T}.

Lemma section_range_log (l : Logged T) a b :
  data_log (section_range l a b).2 = data_log l.
Proof.
  unfold section_range. simpl. destruct (section_svma_range (inner l) a) as [[r|] l']; done.
Qed.

Lemma section_data_log (l : Logged T) a b :
  data_log (section_data_or l a b).2 = data_log l ++ [a] ∨
  data_log (section_data_or l a b).2 = data_log l ++ [a; b].
Proof.
  unfold section_data_or. simpl. destruct (section_data (inner l) a) as [[r|] l']; simpl.
  - by left.
  - right. by rewrite <- app_assoc.
Qed.
End logged.

(** Every constructor builds modules through [from_parts], which succeeds
    on all inputs (malformed headers included): the module satisfies the module
    invariant (mirrored sections cover exactly their bytes, the table lies in
    the header) and owns a fresh, empty function cache. *)
Theorem from_parts_invariant `{Profile} (parts : ModuleParts) (h : Heap) :
  parts_ok parts →
  ∃ m h', from_parts (E:=ModuleError) parts h = Ok (m, h') ∧ module_ok m ∧
    function_cache m = next_loc h ∧
    cells h' = <[next_loc h := mkCacheCell false []]> (cells h).
Proof.
  intros Hok. destruct (from_parts_ok (E:=ModuleError) parts h Hok)
    as (m & h' & ? & ? & _ & _ & _ & ? & ? & _). eauto 10.
Qed.

(** Strict construction succeeds exactly when the address range is
    nonempty, both sections are present with their addresses and the header
    parses; it then returns what the forgiving [Module::new] returns, with both
    local pointers set and no header error. *)
Theorem try_from_section_info_spec `{Profile} {T} `{ModuleSectionInfo T}
    (nm : string) (range : Range) (base : Z) (info : T) (h : Heap) (m : ModuleData) (h' : Heap) :
  let parts := (module_parts_from_section_info nm range base info).1 in
  try_from_section_info nm range base info h = Ok (m, h') ↔
  start range < end_ range ∧ is_Some (mp_eh_frame_svma parts) ∧ is_Some (mp_eh_frame parts) ∧
  (∃ t, parts_hdr parts = Some (Ok t) ∧ table m = t) ∧
  eh_frame_hdr_error m = None ∧ is_null (eh_frame_hdr_local_ptr m) = false ∧
  new (E:=ModuleError) nm range base info h = Ok (m, h').
Proof.
  intros parts. assert (mp_avma_range parts = range) as Hr.
  { unfold parts, module_parts_from_section_info. by repeat case_match. }
  unfold try_from_section_info. fold parts. cbv zeta.
  pose proof (validate_module_parts_ok parts) as Hv. rewrite Hr in Hv.
  unfold new. fold parts. split.
  - intros (u & Hu & Hf)%outcome_bind_ok. destruct u.
    apply Hv in Hu as (? & ? & ? & t & Ht). pose proof (from_parts_error _ _ _ _ Hf) as He.
    rewrite Ht in He. destruct He as (? & ? & ?). eauto 10.
  - intros (? & ? & ? & (t & Ht & _) & _ & _ & Hf). rewrite (proj2 Hv); [done|eauto 10].
Qed.

(** Building a module from [DwarfModuleSections] directly and through the
    [ModuleSectionInfo] adapter (whose data methods give each buffer away once
    and are asked under two names) is the same function, errors included. *)
Theorem dwarf_sections_adapter `{Profile} (nm : string) (range : Range) (base : Z)
    (sections : DwarfModuleSections) (h : Heap) :
  try_from_section_info nm range base sections h = from_dwarf_sections nm range base sections h.
Proof. apply dwarf_sections_same. Qed.

(** As the [ModuleSectionInfo] trait documents, building a module asks a
    provider for the data of a section at most once per name, whatever the
    provider answers. *)
Theorem section_data_called_once {T} `{ModuleSectionInfo T} (nm : string) (range : Range)
    (base : Z) (info : T) :
  NoDup (data_log (module_parts_from_section_info nm range base (mkLogged info [])).2).
Proof.
  unfold module_parts_from_section_info. cbv zeta.
  pose proof (section_range_log (mkLogged info []) ".text" "__text") as H1.
  destruct (section_range _ _ _) as [? i1]. simpl in H1.
  pose proof (section_range_log i1 ".eh_frame" "__eh_frame") as H2.
  destruct (section_range i1 _ _) as [? i2]. simpl in H2.
  pose proof (section_data_log i2 ".eh_frame" "__eh_frame") as H3.
  destruct (section_data_or i2 _ _) as [? i3]. simpl in H3.
  pose proof (section_range_log i3 ".eh_frame_hdr" "__eh_frame_hdr") as H4.
  destruct (section_range i3 _ _) as [? i4]. simpl in H4.
  pose proof (section_data_log i4 ".eh_frame_hdr" "__eh_frame_hdr") as H5.
  destruct (section_data_or i4 _ _) as [? i5]. simpl in *. rewrite H2, H1 in H3. rewrite H4 in H5.
  destruct H3 as [Hl3|Hl3], H5 as [Hl5|Hl5]; rewrite Hl5, Hl3; by apply (bool_decide_unpack _ (dec:=_)).
Qed.

(** The bytes a memory-mapped object provides for a section are exactly
    the file range the object file states, when that range lies in the file;
    otherwise the section is treated as missing (and never panics). *)
Theorem mmap_section_bytes (file : ObjectFile) (map : list Z) (nm : string)
    (s : ObjSection) (offset size : Z) :
  section_by_name_bytes file nm = Some s → obj_file_range s = Some (offset, size) →
  is_u64 offset → is_u64 size → len map ≤ isize_max →
  (mos_section_data (mkMmapObjectSections file map) nm).1 =
  if offset + size <=? len map
  then Some (take (Z.to_nat size) (drop (Z.to_nat offset) map)) else None.
Proof.
  intros Hs Hr Ho Hn Hm. unfold mos_section_data. simpl. rewrite Hs. simpl. rewrite Hr. simpl.
  unfold from_file_range. rewrite !usize_try_from_u64 by done. simpl.
  unfold checked_add, MmapBytes_new. unfold isize_max, is_u in *.
  destruct (Z.leb_spec (offset + size) (len map)) as [Hle|Hgt].
  - rewrite (proj2 (Z.leb_le _ u64_max)) by (unfold u64_max; lia). simpl.
    rewrite (proj2 (andb_true_iff _ _)) by lia. simpl.
    unfold mmap_deref, slice_range, slice_get. simpl.
    rewrite (proj2 (andb_true_iff _ _)) by lia.
    by replace (offset + size - offset) with size by lia.
  - destruct (Z.leb_spec (offset + size) u64_max); [simpl|done].
    by rewrite (proj2 (andb_false_iff _ _)) by lia.
Qed.

(** ** The hypotheses hold: concrete instances *)
Definition demo_parts : ModuleParts :=
  mkModuleParts "m" (mkRange 0x1000 0x2000) 0 0 None (Some (mkRange 0x3000 0x3004)) (Some [0; 0; 0; 0])
    (Some (mkRange 0x4000 0x4002)) (Some [1; 0]).

Lemma from_parts_invariant_witness :
  ∃ m h', from_parts (H:=true) (E:=ModuleError) demo_parts heap_init = Ok (m, h') ∧ module_ok m ∧
    function_cache m = next_loc heap_init ∧
    cells h' = <[next_loc heap_init := mkCacheCell false []]> (cells heap_init).
Proof.
  apply (from_parts_invariant (H:=true) demo_parts heap_init).
  split; intros b Hb; simpl in Hb; simplify_eq; by_compute.
Defined.

Definition demo_object : ObjectFile :=
  mkObjectFile 0 (λ nm, if bool_decide (nm = ".eh_frame")
                        then Some (mkObjSection 0x3000 3 (Some (1, 3))) else None).

Lemma mmap_section_bytes_witness :
  (mos_section_data (mkMmapObjectSections demo_object [9; 8; 7; 6; 5]) ".eh_frame").1 =
  Some [8; 7; 6].
Proof.
  refine (mmap_section_bytes demo_object [9; 8; 7; 6; 5] ".eh_frame"
            (mkObjSection 0x3000 3 (Some (1, 3))) 1 3 _ _ _ _ _); [done|done|by_compute..].
Defined.
