(* ===== verification/Messages.v ===== *)
(** * Error messages and causes

    The [Display] and [std::error::Error] implementations of the error types of
    [src/src/error.rs], [src/src/eh_frame_table.rs] and [src/src/module.rs]. *)

From Stdlib Require Import Ascii String.
From stdpp Require Import strings.
From S2P Require Import Prelude.
From S2P Require Import EhFrameTable.
From S2P Require Import Errors.
From S2P Require Import Modules.
Local Open Scope string_scope.
Local Open Scope Z_scope.

(** ** Integers as text

    The formats the messages use: [{}] and [{:x}] of unsigned integers, [{:02x}]
    of a byte and [{}] of an [i32]. *)
Definition digit (d : Z) : ascii := ascii_of_nat (Z.to_nat (if d <? 10 then 48 + d else 87 + d)).

(** Most significant digit first, in front of [rest]. *)
Fixpoint show_go (b : Z) (fuel : nat) (z : Z) (rest : string) : string :=
  match fuel with
  | O => rest
  | S fuel' =>
      let rest := String (digit (z mod b)) rest in
      if z <? b then rest else show_go b fuel' (z / b) rest
  end.

(** 64 digits are enough for 64 bits in every base. *)
Definition show (b z : Z) : string := show_go b 64 z "".
Definition dec (z : Z) : string := show 10 z.
Definition hex (z : Z) : string := show 16 z.
Definition hex02 (z : Z) : string := if z <? 16 then "0" +:+ hex z else hex z.
Definition dec_i32 (z : Z) : string := if z <? 0 then "-" +:+ dec (- z) else dec z.

(** ** [Display] *)
Definition LibunwindPhase_display (p : LibunwindPhase) : string :=
  match p with
  | InitRemote => "unw_init_remote"
  | Step => "unw_step"
  | GetInstructionPointer => "unw_get_reg(IP)"
  | GetRegister reg => "unw_get_reg(" +:+ dec_i32 reg +:+ ")"
  end.

Definition LibunwindErrorCode_display (c : LibunwindErrorCode) : string :=
  match c with
  | Unspecified => "unspecified error"
  | NoMemory => "out of memory"
  | BadRegister => "bad register"
  | ReadOnlyRegister => "read-only register"
  | StopUnwind => "forced stop"
  | InvalidInstructionPointer => "invalid instruction pointer"
  | BadFrame => "bad frame"
  | InvalidOperation => "invalid operation"
  | BadVersion => "bad version"
  | NoInfo => "no unwind info"
  | Unknown code => "unknown libunwind error code " +:+ dec_i32 code
  end.

Definition LibunwindError_display (e : LibunwindError) : string :=
  LibunwindPhase_display (phase e) +:+ " failed: " +:+ LibunwindErrorCode_display (code e)
  +:+ " (raw status " +:+ dec_i32 (raw_status e) +:+ ")".

Definition DwarfParseErrorKind_display (k : DwarfParseErrorKind) : string :=
  match k with
  | Truncated needed len =>
      "truncated read, needed byte offset " +:+ dec needed +:+ " but buffer length is " +:+ dec len
  | Leb128Overflow => "LEB128 value overflowed u64/i64"
  | EntryLengthOverflow => "entry length overflows the .eh_frame buffer"
  | OmittedPointerEncoding => "DW_EH_PE_omit cannot be decoded as a value"
  | UnsupportedPointerEncoding encoding => "unsupported pointer encoding 0x" +:+ hex02 encoding
  | IndirectPointerRequiresDereference encoding =>
      "pointer encoding 0x" +:+ hex02 encoding
      +:+ " is indirect and would require tracee memory dereference"
  | UnsupportedPointerApplication encoding =>
      "unsupported pointer application in encoding 0x" +:+ hex02 encoding
  | BadCieId cie_id => "expected CIE id 0, found " +:+ dec cie_id
  | UnsupportedCieVersion version => "unsupported CIE version " +:+ dec version
  | UnsupportedCieAddressSize address_size segment_size =>
      "unsupported CIE address_size=" +:+ dec address_size +:+ ", segment_size=" +:+ dec segment_size
  | UnterminatedAugmentationString => "unterminated CIE augmentation string"
  | UnsupportedAugmentation byte => "unsupported CIE augmentation byte 0x" +:+ hex02 byte
  | UnsupportedNonZAugmentation => "unsupported non-z CIE augmentation string"
  | FdeCiePointerIsZero => "FDE CIE pointer is zero, so entry is not an FDE"
  end.

Definition DwarfParseError_display (e : DwarfParseError) : string :=
  "DWARF parse error at .eh_frame offset 0x" +:+ hex (offset e) +:+ ": "
  +:+ DwarfParseErrorKind_display (kind e).

Definition EhFrameHdrError_display (e : EhFrameHdrError) : string :=
  match e with
  | FixedHeaderTruncated len =>
      ".eh_frame_hdr fixed header is truncated: len=" +:+ dec len +:+ ", need 4"
  | UnsupportedVersion version => "unsupported .eh_frame_hdr version " +:+ dec version
  | UnsupportedEhFramePtrEncoding encoding =>
      "unsupported .eh_frame_hdr eh_frame_ptr encoding 0x" +:+ hex02 encoding
  | EhFramePtrTruncated offset size len =>
      ".eh_frame_hdr eh_frame_ptr at offset 0x" +:+ hex offset +:+ " needs " +:+ dec size
      +:+ " bytes but len is " +:+ dec len
  | UnsupportedFdeCountEncoding encoding =>
      "unsupported .eh_frame_hdr FDE count encoding 0x" +:+ hex02 encoding
  | FdeCountTruncated offset size len =>
      ".eh_frame_hdr FDE count at offset 0x" +:+ hex offset +:+ " needs " +:+ dec size
      +:+ " bytes but len is " +:+ dec len
  | UnsupportedTableEncoding encoding =>
      "unsupported .eh_frame_hdr table encoding 0x" +:+ hex02 encoding
      +:+ "; expected DW_EH_PE_datarel|DW_EH_PE_sdata4"
  | TableTruncated offset entry_count len =>
      ".eh_frame_hdr table at offset 0x" +:+ hex offset +:+ " has " +:+ dec entry_count
      +:+ " entries but len is " +:+ dec len
  end.

Definition UnwindInfoError_display (e : UnwindInfoError) : string :=
  match e with
  | ModuleNotFound ip => "no registered module contains IP 0x" +:+ hex ip
  | MissingLocalUnwindSections module ip =>
      "module " +:+ module +:+ " has no local .eh_frame/.eh_frame_hdr data for IP 0x" +:+ hex ip
  | FunctionCachePoisoned module =>
      "function-details cache for module " +:+ module +:+ " is poisoned"
  | EhFrameHeaderLookupMiss module ip =>
      ".eh_frame_hdr in module " +:+ module +:+ " has no FDE for IP 0x" +:+ hex ip
  | UIInvalidEhFrameHdr module source =>
      "module " +:+ module +:+ " has malformed .eh_frame_hdr: " +:+ EhFrameHdrError_display source
  | FdeOffsetBeforeEhFrame module fde_avma eh_frame_avma =>
      "module " +:+ module +:+ " FDE address 0x" +:+ hex fde_avma +:+ " is before .eh_frame at 0x"
      +:+ hex eh_frame_avma
  | FdeOffsetOutOfRange module fde_offset eh_frame_len =>
      "module " +:+ module +:+ " FDE offset 0x" +:+ hex fde_offset
      +:+ " is outside .eh_frame length 0x" +:+ hex eh_frame_len
  | FdeLengthPrefixTruncated module fde_offset eh_frame_len =>
      "module " +:+ module +:+ " FDE length prefix at 0x" +:+ hex fde_offset
      +:+ " exceeds .eh_frame length 0x" +:+ hex eh_frame_len
  | CiePointerTruncated module cie_ptr_offset eh_frame_len =>
      "module " +:+ module +:+ " CIE pointer at 0x" +:+ hex cie_ptr_offset
      +:+ " exceeds .eh_frame length 0x" +:+ hex eh_frame_len
  | CiePointerUnderflow module cie_ptr_offset cie_ptr =>
      "module " +:+ module +:+ " CIE pointer 0x" +:+ hex cie_ptr +:+ " at 0x" +:+ hex cie_ptr_offset
      +:+ " points before .eh_frame"
  | CieParse module cie_offset source =>
      "failed to parse CIE at .eh_frame offset 0x" +:+ hex cie_offset +:+ " in module " +:+ module
      +:+ ": " +:+ DwarfParseError_display source
  | FdeParse module fde_offset source =>
      "failed to parse FDE at .eh_frame offset 0x" +:+ hex fde_offset +:+ " in module " +:+ module
      +:+ ": " +:+ DwarfParseError_display source
  end.

Definition Error_display (e : Error) : string :=
  match e with
  | CouldNotReadStack addr => "could not read stack memory at 0x" +:+ hex addr
  | FramepointerUnwindingMovedBackwards => "frame pointer unwinding moved backwards"
  | DidNotAdvance => "neither the code address nor the stack pointer changed"
  | IntegerOverflow => "unwinding caused integer overflow"
  | ReturnAddressIsNull => "return address was null"
  | Libunwind err => LibunwindError_display err
  | UnwindInfo err => UnwindInfoError_display err
  end.

Definition ModuleError_display (e : ModuleError) : string :=
  match e with
  | EmptyAvmaRange => "module AVMA range is empty"
  | MissingEhFrame => "module is missing .eh_frame bytes"
  | MissingEhFrameSvma => "module is missing .eh_frame SVMA range"
  | MissingEhFrameHdr => "module is missing .eh_frame_hdr bytes"
  | MissingEhFrameHdrSvma => "module is missing .eh_frame_hdr SVMA range"
  | InvalidEhFrameHdr err => "invalid .eh_frame_hdr: " +:+ EhFrameHdrError_display err
  end.

(** ** Causes

    The values a [&(dyn Error + 'static)] of this crate can be.  The errors of
    the operating system and of the [object] crate are parameters; they end the
    chain of causes. *)
Section dyn.
Context {io_error object_error : Type}.
Context (io_display : io_error → string) (object_display : object_error → string).

Inductive DynError : Type :=
  | DynError_Error (e : Error)
  | DynError_Libunwind (e : LibunwindError)
  | DynError_Dwarf (e : DwarfParseError)
  | DynError_UnwindInfo (e : UnwindInfoError)
  | DynError_EhFrameHdr (e : EhFrameHdrError)
  | DynError_Module (e : ModuleError)
  | DynError_Mmap (e : MmapModuleError (io_error:=io_error) (object_error:=object_error))
  | DynError_Io (e : io_error)
  | DynError_Object (e : object_error).

Definition MmapModuleError_display
    (e : MmapModuleError (io_error:=io_error) (object_error:=object_error)) : string :=
  match e with
  | MOpen path source => "failed to open " +:+ path +:+ ": " +:+ io_display source
  | MMap path source => "failed to mmap " +:+ path +:+ ": " +:+ io_display source
  | MParse path source =>
      "failed to parse " +:+ path +:+ " as an object file: " +:+ object_display source
  | MModule err => ModuleError_display err
  end.

Definition Error_source (e : Error) : option DynError :=
  match e with
  | Libunwind err => Some (DynError_Libunwind err)
  | UnwindInfo err => Some (DynError_UnwindInfo err)
  | _ => None
  end.

Definition UnwindInfoError_source (e : UnwindInfoError) : option DynError :=
  match e with
  | UIInvalidEhFrameHdr _ source => Some (DynError_EhFrameHdr source)
  | CieParse _ _ source | FdeParse _ _ source => Some (DynError_Dwarf source)
  | _ => None
  end.

Definition ModuleError_source (e : ModuleError) : option DynError :=
  match e with
  | InvalidEhFrameHdr err => Some (DynError_EhFrameHdr err)
  | _ => None
  end.

Definition MmapModuleError_source
    (e : MmapModuleError (io_error:=io_error) (object_error:=object_error)) : option DynError :=
  match e with
  | MOpen _ source | MMap _ source => Some (DynError_Io source)
  | MParse _ source => Some (DynError_Object source)
  | MModule err => Some (DynError_Module err)
  end.

(** Dynamic dispatch of [Display::fmt] and [Error::source]; the types without a
    [source] method use the trait's default. *)
Definition dyn_display (e : DynError) : string :=
  match e with
  | DynError_Error e => Error_display e
  | DynError_Libunwind e => LibunwindError_display e
  | DynError_Dwarf e => DwarfParseError_display e
  | DynError_UnwindInfo e => UnwindInfoError_display e
  | DynError_EhFrameHdr e => EhFrameHdrError_display e
  | DynError_Module e => ModuleError_display e
  | DynError_Mmap e => MmapModuleError_display e
  | DynError_Io e => io_display e
  | DynError_Object e => object_display e
  end.

Definition dyn_source (e : DynError) : option DynError :=
  match e with
  | DynError_Error e => Error_source e
  | DynError_UnwindInfo e => UnwindInfoError_source e
  | DynError_Module e => ModuleError_source e
  | DynError_Mmap e => MmapModuleError_source e
  | _ => None
  end.

(** The chain of causes, as a reporter walks it. *)
Fixpoint causes (fuel : nat) (e : DynError) : list DynError :=
  match fuel, dyn_source e with
  | S fuel', Some s => s :: causes fuel' s
  | _, _ => []
  end.
End dyn.

(** ** The fields at their Rust types *)
Definition is_i32 (z : Z) : Prop := - 2 ^ 31 ≤ z < 2 ^ 31.

Definition LibunwindPhase_typed (p : LibunwindPhase) : Prop :=
  match p with GetRegister reg => is_i32 reg | _ => True end.
Definition LibunwindErrorCode_typed (c : LibunwindErrorCode) : Prop :=
  match c with Unknown code => is_i32 code | _ => True end.
Definition LibunwindError_typed (e : LibunwindError) : Prop :=
  LibunwindPhase_typed (phase e) ∧ LibunwindErrorCode_typed (code e) ∧ is_i32 (raw_status e).

Definition DwarfParseErrorKind_typed (k : DwarfParseErrorKind) : Prop :=
  match k with
  | Truncated needed len => is_u64 needed ∧ is_u64 len
  | UnsupportedPointerEncoding b | IndirectPointerRequiresDereference b
  | UnsupportedPointerApplication b | UnsupportedCieVersion b | UnsupportedAugmentation b => is_u8 b
  | BadCieId cie_id => is_u64 cie_id
  | UnsupportedCieAddressSize a s => is_u8 a ∧ is_u8 s
  | _ => True
  end.
Definition DwarfParseError_typed (e : DwarfParseError) : Prop :=
  is_u64 (offset e) ∧ DwarfParseErrorKind_typed (kind e).

Definition EhFrameHdrError_typed (e : EhFrameHdrError) : Prop :=
  match e with
  | FixedHeaderTruncated len => is_u64 len
  | UnsupportedVersion b | UnsupportedEhFramePtrEncoding b | UnsupportedFdeCountEncoding b
  | UnsupportedTableEncoding b => is_u8 b
  | EhFramePtrTruncated a b c | FdeCountTruncated a b c | TableTruncated a b c =>
      is_u64 a ∧ is_u64 b ∧ is_u64 c
  end.

Definition UnwindInfoError_typed (e : UnwindInfoError) : Prop :=
  match e with
  | ModuleNotFound ip | MissingLocalUnwindSections _ ip | EhFrameHeaderLookupMiss _ ip => is_u64 ip
  | FunctionCachePoisoned _ => True
  | UIInvalidEhFrameHdr _ source => EhFrameHdrError_typed source
  | FdeOffsetBeforeEhFrame _ a b | FdeOffsetOutOfRange _ a b | FdeLengthPrefixTruncated _ a b
  | CiePointerTruncated _ a b | CiePointerUnderflow _ a b => is_u64 a ∧ is_u64 b
  | CieParse _ o source | FdeParse _ o source => is_u64 o ∧ DwarfParseError_typed source
  end.

Definition Error_typed (e : Error) : Prop :=
  match e with
  | CouldNotReadStack addr => is_u64 addr
  | Libunwind err => LibunwindError_typed err
  | UnwindInfo err => UnwindInfoError_typed err
  | _ => True
  end.

(** The module an error names. *)
Definition UnwindInfoError_module (e : UnwindInfoError) : option string :=
  match e with
  | ModuleNotFound _ => None
  | MissingLocalUnwindSections m _ | FunctionCachePoisoned m | EhFrameHeaderLookupMiss m _
  | UIInvalidEhFrameHdr m _ | FdeOffsetBeforeEhFrame m _ _ | FdeOffsetOutOfRange m _ _
  | FdeLengthPrefixTruncated m _ _ | CiePointerTruncated m _ _ | CiePointerUnderflow m _ _
  | CieParse m _ _ | FdeParse m _ _ => Some m
  end.
Definition Error_module (e : Error) : option string :=
  match e with UnwindInfo err => UnwindInfoError_module err | _ => None end.

(** ** Reading integers back *)
Definition undigit (b : Z) (c : ascii) : option Z :=
  let n := Z.of_nat (nat_of_ascii c) in
  let d := if n <? 58 then n - 48 else n - 87 in
  if (0 <=? d) && (d <? b) then Some d else None.

Fixpoint read_num (b a : Z) (s : string) : Z * string :=
  match s with
  | EmptyString => (a, s)
  | String c s' =>
      match undigit b c with
      | Some d => read_num b (a * b + d) s'
      | None => (a, s)
      end
  end.

(** [s] does not start with a digit. *)
Definition stops (b : Z) (s : string) : bool :=
  match s with
  | EmptyString => true
  | String c _ => if undigit b c is Some _ then false else true
  end.

Lemma undigit_digit b d : 0 ≤ d < b → b ≤ 16 → undigit b (digit d) = Some d.
Proof.
  intros Hd Hb.
  assert (forallb (λ b, forallb (λ d, bool_decide (undigit b (digit d) = Some d)) (seqZ 0 b))
            (seqZ 0 17) = true) as Hall by (by vm_compute).
  rewrite forallb_forall in Hall. specialize (Hall b). rewrite forallb_forall in Hall.
  apply (bool_decide_unpack _), Is_true_true, Hall; apply list_elem_of_In, elem_of_seqZ; lia.
Qed.

Lemma read_num_stops b a r : stops b r = true → read_num b a r = (a, r).
Proof. destruct r as [|c r]; [done|]. simpl. by destruct (undigit b c). Qed.

Section numbers.
Context (b : Z) (Hb : 2 ≤ b ≤ 16).

Lemma show_go_app fuel z r : show_go b fuel z "" +:+ r = show_go b fuel z r.
Proof.
  assert (∀ s, show_go b fuel z s +:+ r = show_go b fuel z (s +:+ r)) as Hs; [|apply Hs].
  revert z. induction fuel as [|fuel IH]; intros z s; [done|]. simpl. cbv zeta.
  destruct (z <? b); [done|]. by rewrite IH.
Qed.

Lemma read_show_go fuel z a r :
  0 ≤ z < b ^ Z.of_nat fuel →
  ∃ k, read_num b a (show_go b fuel z r) = read_num b (a * k + z) r.
Proof.
  revert z a r. induction fuel as [|fuel IH]; intros z a r Hz.
  { exists 1. simpl in *. f_equal. lia. }
  cbn [show_go]. pose proof (Z.mod_pos_bound z b). pose proof (Z.div_mod z b).
  destruct (Z.ltb_spec z b).
  - exists b. cbn [read_num]. rewrite undigit_digit, Z.mod_small by lia. done.
  - destruct (IH (z / b) a (String (digit (z mod b)) r)) as [k Hk].
    { rewrite Nat2Z.inj_succ, Z.pow_succ_r in Hz by lia.
      split; [apply Z.div_pos; lia|apply Z.div_lt_upper_bound; lia]. }
    exists (k * b). rewrite Hk. cbn [read_num]. rewrite undigit_digit by lia. f_equal. lia.
Qed.

Lemma read_show z r : is_u64 z → stops b r = true → read_num b 0 (show b z +:+ r) = (z, r).
Proof.
  intros Hz Hr. unfold show. rewrite show_go_app.
  destruct (read_show_go 64 z 0 r) as [k ->]; [|by rewrite Z.mul_0_l, read_num_stops].
  unfold is_u in Hz. pose proof (Z.pow_le_mono_l 2 b 64). lia.
Qed.

(** An integer is determined by its digits, whatever follows them. *)
Lemma show_inj x y r s :
  is_u64 x → is_u64 y → stops b r = true → stops b s = true →
  show b x +:+ r = show b y +:+ s → x = y ∧ r = s.
Proof.
  intros Hx Hy Hr Hs He. apply (f_equal (read_num b 0)) in He.
  rewrite !read_show in He by done. by injection He.
Qed.
End numbers.

Lemma string_app_assoc (r s t : string) : (r +:+ s) +:+ t = r +:+ (s +:+ t).
Proof. induction r as [|c r IH]; [done|]. exact (f_equal (String c) IH). Qed.

Lemma string_app_nil (s : string) : s +:+ "" = s.
Proof. induction s as [|c s IH]; [done|]. exact (f_equal (String c) IH). Qed.

Lemma string_app_inj (r s t : string) : r +:+ s = r +:+ t → s = t.
Proof. induction r as [|c r IH]; [done|]. intros [= He]. by apply IH. Qed.

(** Two literals that differ at a character both have. *)
Fixpoint clash (s t : string) : bool :=
  match s, t with
  | String c s, String d t => if Ascii.eqb c d then clash s t else true
  | _, _ => false
  end.

Lemma clash_ne s t r u : clash s t = true → s +:+ r = t +:+ u → False.
Proof.
  revert t. induction s as [|c s IH]; intros [|d t]; try done. cbn [clash].
  intros Hc [= Hcd He]. destruct (Ascii.eqb_spec c d) as [->|]; [by eapply IH|done].
Qed.

(** *** The formats of integers *)

(** [f] renders the integers in [P] so that they can be read back. *)
Definition readable (b : Z) (P : Z → Prop) (f : Z → string) : Prop :=
  ∀ x y r s, P x → P y → stops b r = true → stops b s = true →
    f x +:+ r = f y +:+ s → x = y ∧ r = s.

Lemma readable_end b P f x y : readable b P f → P x → P y → f x = f y → x = y.
Proof.
  intros Hf Hx Hy He. apply (Hf x y "" ""); [done..|]. by rewrite He.
Qed.

Lemma dec_readable : readable 10 is_u64 dec.
Proof. intros x y r s Hx Hy. by apply show_inj. Qed.

Lemma hex_readable : readable 16 is_u64 hex.
Proof. intros x y r s Hx Hy. by apply show_inj. Qed.

Lemma hex02_readable : readable 16 is_u8 hex02.
Proof.
  assert (∀ x r, is_u8 x → stops 16 r = true → read_num 16 0 (hex02 x +:+ r) = (x, r)) as Hread.
  { intros x r Hx Hr. assert (is_u64 x) by (unfold is_u in *; lia). unfold hex02.
    destruct (x <? 16); [|by apply read_show].
    change (("0" +:+ hex x) +:+ r) with (String "0" (hex x +:+ r)).
    change (read_num 16 0 (String "0" (hex x +:+ r))) with (read_num 16 0 (hex x +:+ r)).
    by apply read_show. }
  intros x y r s Hx Hy Hr Hs He. apply (f_equal (read_num 16 0)) in He.
  rewrite !Hread in He by done. by injection He.
Qed.

(** An integer starts with a digit. *)
Lemma dec_first x r : is_u64 x → stops 10 (dec x +:+ r) = false.
Proof.
  intros Hx. unfold dec, show. rewrite show_go_app.
  assert (∀ fuel z rest, 0 ≤ z → (0 < fuel)%nat → stops 10 (show_go 10 fuel z rest) = false) as Hd.
  { induction fuel as [|fuel IH]; intros z rest Hz Hf; [lia|]. cbn [show_go].
    pose proof (Z.mod_pos_bound z 10). destruct (z <? 10).
    - cbn [stops]. by rewrite undigit_digit by lia.
    - destruct fuel; [|apply IH; [apply Z.div_pos; lia|lia]].
      cbn [show_go stops]. by rewrite undigit_digit by lia. }
  unfold is_u in Hx. apply Hd; lia.
Qed.

Lemma dec_not_sign x r s : is_u64 x → dec x +:+ r ≠ String "-" s.
Proof. intros Hx He. pose proof (dec_first x r Hx) as Hd. by rewrite He in Hd. Qed.

Lemma dec_i32_readable : readable 10 is_i32 dec_i32.
Proof.
  intros x y r s Hx Hy Hr Hs He. unfold dec_i32 in He.
  assert (∀ z, is_i32 z → is_u64 (Z.abs z)) as Habs by (unfold is_i32, is_u; lia).
  pose proof (Habs x Hx). pose proof (Habs y Hy).
  destruct (Z.ltb_spec x 0), (Z.ltb_spec y 0); rewrite ?string_app_assoc in He;
    rewrite ?(Z.abs_neq x), ?(Z.abs_neq y), ?(Z.abs_eq x), ?(Z.abs_eq y) in * by lia.
  - apply string_app_inj, dec_readable in He as [? ->]; [|done..]. split; [lia|done].
  - symmetry in He. by apply dec_not_sign in He.
  - by apply dec_not_sign in He.
  - by apply dec_readable in He.
Qed.

(** *** Comparing two messages *)
Lemma u8_u64 z : is_u8 z → is_u64 z.
Proof. unfold is_u. lia. Qed.

(** From an equation of messages: cancel a common piece, read back an integer,
    or find the literals that differ. *)
Ltac msg_clash H :=
  lazymatch type of H with
  | ?a +:+ ?r = ?b +:+ ?s => exact (clash_ne a b r s eq_refl H)
  | ?a +:+ ?r = ?b => exact (clash_ne a b r "" eq_refl H)
  | ?a = ?b +:+ ?s => exact (clash_ne a b "" s eq_refl H)
  | ?a = ?b => exact (clash_ne a b "" "" eq_refl H)
  end.
Ltac msg_typed := solve [done | by apply u8_u64].
Ltac msg_number R H :=
  first [ apply R in H as [-> H]; [|msg_typed..]
        | apply (readable_end _ _ _ _ _ R) in H as ->; [|msg_typed..] ].
Ltac msg_step H :=
  lazymatch type of H with
  | ?a +:+ _ = ?a +:+ _ => apply string_app_inj in H
  | dec _ +:+ _ = dec _ +:+ _ => msg_number dec_readable H
  | hex _ +:+ _ = hex _ +:+ _ => msg_number hex_readable H
  | hex02 _ +:+ _ = hex02 _ +:+ _ => msg_number hex02_readable H
  | dec_i32 _ +:+ _ = dec_i32 _ +:+ _ => msg_number dec_i32_readable H
  | dec _ = dec _ => msg_number dec_readable H
  | hex _ = hex _ => msg_number hex_readable H
  | hex02 _ = hex02 _ => msg_number hex02_readable H
  | dec_i32 _ = dec_i32 _ => msg_number dec_i32_readable H
  | _ => exfalso; msg_clash H
  end.
Ltac msg H := repeat (msg_step H).

Lemma EhFrameHdrError_display_inj e1 e2 :
  EhFrameHdrError_typed e1 → EhFrameHdrError_typed e2 →
  EhFrameHdrError_display e1 = EhFrameHdrError_display e2 → e1 = e2.
Proof.
  intros H1 H2 H; destruct e1, e2; cbn [EhFrameHdrError_typed] in H1, H2; destruct_and?;
    cbn [EhFrameHdrError_display] in H; msg H; done.
Qed.

Lemma DwarfParseErrorKind_display_inj k1 k2 :
  DwarfParseErrorKind_typed k1 → DwarfParseErrorKind_typed k2 →
  DwarfParseErrorKind_display k1 = DwarfParseErrorKind_display k2 → k1 = k2.
Proof.
  intros H1 H2 H; destruct k1, k2; cbn [DwarfParseErrorKind_typed] in H1, H2; destruct_and?;
    cbn [DwarfParseErrorKind_display] in H; msg H; done.
Qed.

Lemma DwarfParseError_display_inj e1 e2 :
  DwarfParseError_typed e1 → DwarfParseError_typed e2 →
  DwarfParseError_display e1 = DwarfParseError_display e2 → e1 = e2.
Proof.
  destruct e1 as [o1 k1], e2 as [o2 k2]. intros [Ho1 Hk1] [Ho2 Hk2] H.
  cbn [offset kind] in *. unfold DwarfParseError_display in H. cbn [offset kind] in H. msg H.
  f_equal. by apply DwarfParseErrorKind_display_inj.
Qed.

Lemma LibunwindErrorCode_display_inj c1 c2 r s :
  LibunwindErrorCode_typed c1 → LibunwindErrorCode_typed c2 →
  LibunwindErrorCode_display c1 +:+ " (raw status " +:+ r =
  LibunwindErrorCode_display c2 +:+ " (raw status " +:+ s → c1 = c2 ∧ r = s.
Proof.
  intros H1 H2 H; destruct c1, c2; cbn [LibunwindErrorCode_typed] in H1, H2;
    cbn [LibunwindErrorCode_display] in H; rewrite ?string_app_assoc in H; msg H; done.
Qed.

Lemma LibunwindPhase_display_inj p1 p2 r s :
  LibunwindPhase_typed p1 → LibunwindPhase_typed p2 →
  LibunwindPhase_display p1 +:+ " failed: " +:+ r = LibunwindPhase_display p2 +:+ " failed: " +:+ s →
  p1 = p2 ∧ r = s.
Proof.
  assert (∀ z t u, is_i32 z →
    ("unw_get_reg(" +:+ "IP)" +:+ " failed: " +:+ t) ≠
    ("unw_get_reg(" +:+ dec_i32 z +:+ ")" +:+ " failed: " +:+ u)) as Hip.
  { intros z t u Hz He. apply string_app_inj in He. apply (f_equal (read_num 10 0)) in He.
    unfold dec_i32 in He. destruct (Z.ltb_spec z 0); [done|].
    unfold dec in He. rewrite read_show in He; [done|lia| |done]. unfold is_i32, is_u in *. lia. }
  intros H1 H2 H; destruct p1, p2; cbn [LibunwindPhase_typed] in H1, H2;
    cbn [LibunwindPhase_display] in H; rewrite ?string_app_assoc in H;
    try (msg H; done); exfalso; [|symmetry in H]; by eapply Hip in H.
Qed.

Lemma LibunwindError_display_inj e1 e2 :
  LibunwindError_typed e1 → LibunwindError_typed e2 →
  LibunwindError_display e1 = LibunwindError_display e2 → e1 = e2.
Proof.
  destruct e1 as [p1 c1 r1], e2 as [p2 c2 r2]. intros (Hp1 & Hc1 & Hr1) (Hp2 & Hc2 & Hr2) H.
  cbn [phase code raw_status] in *. unfold LibunwindError_display in H.
  cbn [phase code raw_status] in H.
  apply LibunwindPhase_display_inj in H as [-> H]; [|done..].
  apply LibunwindErrorCode_display_inj in H as [-> H]; [|done..]. by msg H.
Qed.

Lemma UnwindInfoError_display_inj e1 e2 :
  UnwindInfoError_typed e1 → UnwindInfoError_typed e2 →
  UnwindInfoError_module e1 = UnwindInfoError_module e2 →
  UnwindInfoError_display e1 = UnwindInfoError_display e2 → e1 = e2.
Proof.
  intros H1 H2 Hm H; destruct e1, e2; cbn [UnwindInfoError_typed] in H1, H2;
    cbn [UnwindInfoError_module] in Hm; try discriminate Hm; try injection Hm as ->; destruct_and?;
    cbn [UnwindInfoError_display] in H;
    msg H; try done; f_equal;
    by first [apply EhFrameHdrError_display_inj | apply DwarfParseError_display_inj].
Qed.

(** A libunwind message starts with the name of the call. *)
Lemma LibunwindError_display_unw e : ∃ s, LibunwindError_display e = "unw_" +:+ s.
Proof.
  unfold LibunwindError_display. destruct (phase e); cbn [LibunwindPhase_display];
    eexists; rewrite ?string_app_assoc; reflexivity.
Qed.

Lemma UnwindInfoError_not_unw e s : UnwindInfoError_display e ≠ "unw_" +:+ s.
Proof. intros H. destruct e; cbn [UnwindInfoError_display] in H; msg_clash H. Qed.

(** ** Properties *)

(** C36: error messages identify the error: two errors about the same module
    whose messages are equal are equal, with every field. *)
Theorem messages_identify_errors (e1 e2 : Error) :
  Error_typed e1 → Error_typed e2 → Error_module e1 = Error_module e2 →
  Error_display e1 = Error_display e2 → e1 = e2.
Proof.
  intros H1 H2 Hm H.
  destruct e1 as [| | | | |l1|u1], e2 as [| | | | |l2|u2]; cbn [Error_typed] in H1, H2;
    cbn [Error_display] in H;
    try (destruct (LibunwindError_display_unw l1) as [s1 Hs1]);
    try (destruct (LibunwindError_display_unw l2) as [s2 Hs2]);
    try (f_equal; first [by apply LibunwindError_display_inj
                        |by apply UnwindInfoError_display_inj]);
    rewrite ?Hs1, ?Hs2 in H;
    try (msg H; done);
    try (first [by apply UnwindInfoError_not_unw in H
               |by symmetry in H; apply UnwindInfoError_not_unw in H]);
    exfalso; first [destruct u1|destruct u2]; cbn [UnwindInfoError_display] in H; msg_clash H.
Qed.

Section dyn_theorems.
Context {io_error object_error : Type}.
Context (io_display : io_error → string) (object_display : object_error → string).
Local Abbreviation Dyn := (DynError (io_error:=io_error) (object_error:=object_error)).

(** An error's message ends with the message of its cause, and no error has
    more than two causes: reporting an error and its chain of [source]s ends. *)
Theorem causes_explained (e : Dyn) :
  (∀ s, dyn_source e = Some s → ∃ pre,
     dyn_display io_display object_display e = pre +:+ dyn_display io_display object_display s) ∧
  (length (causes 3 e) ≤ 2)%nat ∧ (∀ fuel, (2 ≤ fuel)%nat → causes fuel e = causes 2 e).
Proof.
  split; [|split].
  - intros s Hs. destruct e as [e|e|e|e|e|e|e|e|e]; try done; destruct e; try done;
      cbn [dyn_source Error_source UnwindInfoError_source ModuleError_source
           MmapModuleError_source] in Hs; injection Hs as <-;
      cbn [dyn_display Error_display UnwindInfoError_display ModuleError_display
           MmapModuleError_display]; rewrite <- ?string_app_assoc;
      first [by exists "" | by eexists].
  - destruct e as [[| | | | |l|u]|l|d|u|h|m|[p s|p s|p s|m]|i|o]; try (simpl; lia);
      first [destruct u|destruct m]; simpl; lia.
  - intros [|[|[|fuel]]] Hf; try lia; [done|].
    destruct e as [[| | | | |l|u]|l|d|u|h|m|[p s|p s|p s|m]|i|o]; try done;
      first [by destruct u|by destruct m].
Qed.
End dyn_theorems.

(** *** Witness: a parse error of two modules' FDEs *)
Lemma messages_identify_errors_witness :
  Error_display (UnwindInfo (FdeParse "libc" 24 (mkDwarfParseError 32 (BadCieId 7)))) ≠
  Error_display (UnwindInfo (FdeParse "libc" 24 (mkDwarfParseError 32 (UnsupportedCieVersion 7)))).
Proof.
  intros H. by apply messages_identify_errors in H;
    [|apply (bool_decide_unpack _); by vm_compute..|].
Defined.
