(* ===== verification/ModuleSet.v ===== *)
(** * [src/src/module_set.rs]: the registry of loaded modules

    Two ordered maps keyed by tracee address: the modules by the start of
    their range, and the locally mirrored sections ("redirects") by their
    start.  The abstract specification is the set of registered modules; the
    theorems show when the two maps agree with it, that lookups are correct on
    disjoint ranges, and where memory safety of [lookup_local] ends. *)

From stdpp Require Import gmap.
From S2P Require Import Prelude.
From S2P Require Import BTree.
From S2P Require Import EhFrameTable.
From S2P Require Import Ffi.
From S2P Require Import Errors.
From S2P Require Import Modules.

Record RedirectEntry : Type := mkRedirectEntry {
  section : LocalSection;
  owner : ModuleData;
}.

#[export] Instance RedirectEntry_eq_dec : EqDecision RedirectEntry.
Proof. solve_decision. Defined.

Record ModuleSet : Type := mkModuleSet {
  modules : list (Z * ModuleData);
  redirects : list (Z * RedirectEntry);
}.

#[export] Instance ModuleSet_eq_dec : EqDecision ModuleSet.
Proof. solve_decision. Defined.

Definition new : ModuleSet := mkModuleSet [] [].

(** The [for sec in &data.local_sections] loop of [add]. *)
Definition add_redirects (data : ModuleData) (secs : list LocalSection)
    (rs : list (Z * RedirectEntry)) : list (Z * RedirectEntry) :=
  foldl (λ rs sec,
    bt_insert (sec_avma_start sec)
      (mkRedirectEntry (mkLocalSection (sec_avma_start sec) (sec_avma_end sec) (local_ptr sec))
         data) rs) rs secs.

Definition add (self : ModuleSet) (data : ModuleData) : ModuleSet :=
  let key := start (avma_range data) in
  mkModuleSet (bt_insert key data (modules self))
    (add_redirects data (local_sections data) (redirects self)).

(** The loop of [remove]. *)
Definition remove_redirects (secs : list LocalSection) (rs : list (Z * RedirectEntry))
    : list (Z * RedirectEntry) :=
  foldl (λ rs sec, bt_remove (sec_avma_start sec) rs) rs secs.

Definition remove (self : ModuleSet) (avma_start : Z) : ModuleSet :=
  match bt_get avma_start (modules self) with
  | Some data =>
      mkModuleSet (bt_remove avma_start (modules self))
        (remove_redirects (local_sections data) (redirects self))
  | None => self
  end.

(** [.map(|m| m.avma_range.end).max().unwrap_or(0)]. *)
Definition max_known_code_address (self : ModuleSet) : Z :=
  match (λ m, end_ (avma_range m)) <$> bt_values (modules self) with
  | [] => 0
  | e :: es => foldl Z.max e es
  end.

Definition find_module (self : ModuleSet) (addr : Z) : option ModuleData :=
  '(_, data) ← bt_floor addr (modules self);
  if (start (avma_range data) <=? addr) && (addr <? end_ (avma_range data))
  then Some data else None.

Definition has_unwind_info (self : ModuleSet) (addr : Z) : bool :=
  match find_module self addr with
  | Some module =>
      negb (entry_count (table module) =? 0)
      && negb (is_null (eh_frame_hdr_local_ptr module))
      && negb (is_null (eh_frame_local_ptr module))
  | None => false
  end.

Definition contains_address (self : ModuleSet) (addr : Z) : bool :=
  if find_module self addr is Some _ then true else false.

Definition unwind_info_error (self : ModuleSet) (addr : Z) : option UnwindInfoError :=
  module ← find_module self addr;
  (λ source, UIInvalidEhFrameHdr (name module) source) <$> eh_frame_hdr_error module.

(** [function_cache.lock()]: [None] when the mutex is poisoned. *)
Definition lock (h : Heap) (module : ModuleData) : option (list (Z * FunctionDetails)) :=
  cell ← cells h !! function_cache module;
  if poisoned cell then None else Some (cache_map cell).

Definition is_signal_frame (self : ModuleSet) (h : Heap) (addr : Z) : bool :=
  match find_module self addr with
  | None => false
  | Some module =>
      match lock h module with
      | None => false
      | Some cache =>
          match bt_floor addr cache with
          | Some (_, details) => (addr <? end_ip details) && fd_signal_frame details
          | None => false
          end
      end
  end.

Definition lookup_local (self : ModuleSet) (addr : Z) : option ptr :=
  '(_, entry) ← bt_floor addr (redirects self);
  let sec := section entry in
  if (sec_avma_start sec <=? addr) && (saturating_add addr 8 <=? sec_avma_end sec) then
    let offset := addr - sec_avma_start sec in
    Some (ptr_add (local_ptr sec) offset)
  else None.

(** [impl Clone]: rebuilt from the modules, in key order. *)
Definition clone (self : ModuleSet) : ModuleSet := foldl add new (bt_values (modules self)).

(** ** Reachable registries *)
Inductive reachable : ModuleSet → Prop :=
  | reach_new : reachable new
  | reach_add s m : reachable s → module_ok m → reachable (add s m)
  | reach_remove s k : reachable s → reachable (remove s k)
  | reach_clone s : reachable s → reachable (clone s).

(** ** Specification

    The registered modules, and when ranges and mirrored sections of a
    registry are disjoint. *)
Definition registered (s : ModuleSet) (m : ModuleData) : Prop :=
  bt_get (start (avma_range m)) (modules s) = Some m.

#[export] Instance registered_dec s m : Decision (registered s m).
Proof. unfold registered. apply _. Defined.

Definition ranges_disjoint (s : ModuleSet) : Prop :=
  ∀ m1 m2, registered s m1 → registered s m2 →
    start (avma_range m1) < start (avma_range m2) →
    end_ (avma_range m1) ≤ start (avma_range m2).

(** The representation invariant: ordered maps, keyed by what they index. *)
Definition set_wf (s : ModuleSet) : Prop :=
  bt_wf (modules s) ∧ bt_wf (redirects s) ∧
  (∀ k m, bt_get k (modules s) = Some m → k = start (avma_range m) ∧ module_ok m) ∧
  (∀ k e, bt_get k (redirects s) = Some e →
     k = sec_avma_start (section e) ∧ section_ok (section e)).

(** A redirect for address [k] that a registered module accounts for. *)
Definition accounted (s : ModuleSet) (k : Z) (e : RedirectEntry) : Prop :=
  registered s (owner e) ∧ section e ∈ local_sections (owner e) ∧
  sec_avma_start (section e) = k.

(** The redirect map holds exactly the sections of the registered modules. *)
Definition synced (s : ModuleSet) : Prop :=
  ∀ k e, bt_get k (redirects s) = Some e ↔ accounted s k e.

(** Loading [m] does not reuse a registered start address or section start. *)
Definition fresh_for (s : ModuleSet) (m : ModuleData) : Prop :=
  bt_get (start (avma_range m)) (modules s) = None ∧
  Forall (λ s1, Forall (λ s2, sec_avma_start s1 = sec_avma_start s2 → s1 = s2)
                  (local_sections m)) (local_sections m) ∧
  Forall (λ sec, bt_get (sec_avma_start sec) (redirects s) = None) (local_sections m).

(** ** Lemmas *)
Lemma section_eta sec :
  mkLocalSection (sec_avma_start sec) (sec_avma_end sec) (local_ptr sec) = sec.
Proof. by destruct sec. Qed.

Lemma add_redirects_wf m secs rs : bt_wf rs → bt_wf (add_redirects m secs rs).
Proof. revert rs. induction secs; intros rs Hrs; simpl; auto with unw. Qed.

Lemma remove_redirects_wf secs rs : bt_wf rs → bt_wf (remove_redirects secs rs).
Proof. revert rs. induction secs; intros rs Hrs; simpl; auto with unw. Qed.

(** A redirect after [add] is an old one or one of the new sections. *)
Lemma add_redirects_get m secs rs k e :
  bt_get k (add_redirects m secs rs) = Some e →
  bt_get k rs = Some e ∨
  (owner e = m ∧ section e ∈ secs ∧ sec_avma_start (section e) = k).
Proof.
  revert rs. induction secs as [|sec secs IH]; intros rs; simpl; [by left|].
  intros Hg. apply IH in Hg as [Hg|(?&?&?)]; [|right; set_solver].
  rewrite section_eta in Hg. destruct (decide (sec_avma_start sec = k)) as [<-|].
  - rewrite bt_get_insert_eq in Hg. simplify_eq. right. simpl. set_solver.
  - rewrite bt_get_insert_ne in Hg by done. by left.
Qed.

Lemma add_redirects_other m secs rs k :
  k ∉ sec_avma_start <$> secs → bt_get k (add_redirects m secs rs) = bt_get k rs.
Proof.
  revert rs. induction secs as [|sec secs IH]; intros rs Hk; simpl; [done|].
  rewrite IH by set_solver. rewrite bt_get_insert_ne; [done|set_solver].
Qed.

Lemma add_redirects_new m secs rs sec :
  (∀ s1 s2, s1 ∈ secs → s2 ∈ secs → sec_avma_start s1 = sec_avma_start s2 → s1 = s2) →
  sec ∈ secs →
  bt_get (sec_avma_start sec) (add_redirects m secs rs) = Some (mkRedirectEntry sec m).
Proof.
  revert rs sec. induction secs as [|sec' secs IH]; intros rs sec Hinj Hin; [set_solver|].
  cbn [add_redirects foldl]. rewrite section_eta.
  destruct (decide (sec_avma_start sec ∈ sec_avma_start <$> secs)) as [Ht|Ht].
  - apply list_elem_of_fmap in Ht as (sec2 & He & Hin2).
    assert (sec = sec2) as -> by (apply Hinj; set_solver). apply IH; set_solver.
  - assert (sec = sec') as -> by set_solver.
    fold (add_redirects m secs (bt_insert (sec_avma_start sec') (mkRedirectEntry sec' m) rs)).
    rewrite add_redirects_other by done. by rewrite bt_get_insert_eq.
Qed.

Lemma remove_redirects_other secs rs k :
  k ∉ sec_avma_start <$> secs → bt_get k (remove_redirects secs rs) = bt_get k rs.
Proof.
  revert rs. induction secs as [|sec secs IH]; intros rs Hk; simpl; [done|].
  rewrite IH by set_solver. rewrite bt_get_remove_ne; [done|set_solver].
Qed.

Lemma remove_redirects_in secs rs k :
  bt_wf rs → k ∈ sec_avma_start <$> secs → bt_get k (remove_redirects secs rs) = None.
Proof.
  revert rs. induction secs as [|sec secs IH]; intros rs Hwf Hin; simpl; [set_solver|].
  destruct (decide (k ∈ sec_avma_start <$> secs)); [apply IH; auto with unw|].
  apply elem_of_cons in Hin as [->|]; [|done].
  rewrite remove_redirects_other by done. by apply bt_get_remove_eq.
Qed.

Lemma find_module_some s a m :
  set_wf s → find_module s a = Some m →
  registered s m ∧ start (avma_range m) ≤ a < end_ (avma_range m).
Proof.
  intros (Hwf & _ & Hm & _). unfold find_module, registered.
  destruct (bt_floor a (modules s)) as [[k d]|] eqn:Hf; simpl; [|done].
  apply bt_floor_some in Hf as (Hg & _ & _); [|done]. destruct (Hm _ _ Hg) as [-> _].
  destruct (Z.leb_spec (start (avma_range d)) a); simpl; [|done].
  destruct (Z.ltb_spec a (end_ (avma_range d))); simpl; [|done]. by intros [= <-].
Qed.

Lemma registered_ok s m : set_wf s → registered s m → module_ok m.
Proof. intros (_ & _ & Hm & _) Hr. by destruct (Hm _ _ Hr). Qed.

Lemma find_module_ok s a m : set_wf s → find_module s a = Some m → module_ok m.
Proof. intros Hwf [Hr _]%find_module_some; [|done]. by eapply registered_ok. Qed.

Lemma new_wf : set_wf new.
Proof. by split_and!. Qed.

Lemma add_wf s m : set_wf s → module_ok m → set_wf (add s m).
Proof.
  intros (Hwm & Hwr & Hm & Hr) Hok. split_and!.
  - by apply bt_insert_wf.
  - by apply add_redirects_wf.
  - intros k m'. simpl. destruct (decide (start (avma_range m) = k)) as [<-|].
    + rewrite bt_get_insert_eq. by intros [= <-].
    + rewrite bt_get_insert_ne by done. apply Hm.
  - intros k e [Hg|(<- & Hin & <-)]%add_redirects_get; [by apply Hr|]. split; [done|].
    destruct Hok as [Hs _]. by eapply Forall_forall in Hs.
Qed.

Lemma remove_wf s k : set_wf s → set_wf (remove s k).
Proof.
  intros (Hwm & Hwr & Hm & Hr). unfold remove. destruct (bt_get k (modules s)) as [m|] eqn:Hk;
    [|done]. split_and!; simpl.
  - by apply bt_remove_wf.
  - by apply remove_redirects_wf.
  - intros k' m'. destruct (decide (k = k')) as [<-|]; [by rewrite bt_get_remove_eq|].
    rewrite bt_get_remove_ne by done. apply Hm.
  - intros k' e. destruct (decide (k' ∈ sec_avma_start <$> local_sections m)).
    + by rewrite remove_redirects_in.
    + rewrite remove_redirects_other by done. apply Hr.
Qed.

Lemma add_all_wf l s : set_wf s → Forall module_ok l → set_wf (foldl add s l).
Proof.
  intros Hs Hl. revert s Hs. induction Hl as [|m l Hm Hl IH]; intros s Hs; simpl; [done|].
  apply IH. by apply add_wf.
Qed.

Lemma values_registered s m :
  set_wf s → m ∈ bt_values (modules s) ↔ registered s m.
Proof.
  intros (Hwf & _ & Hm & _). unfold bt_values, registered. rewrite list_elem_of_fmap. split.
  - intros ([k m'] & -> & Hin). apply bt_get_elem in Hin; [|done]. simpl.
    by destruct (Hm _ _ Hin) as [<- _].
  - intros Hg. eexists (_, m). split; [done|]. by apply bt_get_elem.
Qed.

Lemma clone_wf s : set_wf s → set_wf (clone s).
Proof.
  intros Hs. apply add_all_wf; [apply new_wf|]. apply Forall_forall. intros m Hin.
  apply values_registered in Hin; [|done]. by eapply registered_ok.
Qed.

(** By rule induction: every reachable registry is well-formed. *)
Lemma reachable_wf s : reachable s → set_wf s.
Proof. induction 1; eauto using new_wf, add_wf, remove_wf, clone_wf. Qed.

(** ** The redirect map and the registered modules *)
Lemma new_synced : synced new.
Proof. intros k e. split; [done|]. by intros (? & _). Qed.

Lemma registered_add s m m' :
  bt_get (start (avma_range m)) (modules s) = None →
  registered (add s m) m' ↔ m' = m ∨ registered s m'.
Proof.
  intros Hn. unfold registered. simpl.
  destruct (decide (start (avma_range m) = start (avma_range m'))) as [He|].
  - rewrite <- He, bt_get_insert_eq, Hn. naive_solver.
  - rewrite bt_get_insert_ne by done. naive_solver.
Qed.

Lemma fresh_functional s m s1 s2 :
  fresh_for s m → s1 ∈ local_sections m → s2 ∈ local_sections m →
  sec_avma_start s1 = sec_avma_start s2 → s1 = s2.
Proof.
  intros (_ & Hf & _) H1 H2. rewrite Forall_forall in Hf. specialize (Hf _ H1).
  rewrite Forall_forall in Hf. by apply Hf.
Qed.

Lemma fresh_redirect s m k :
  fresh_for s m → is_Some (bt_get k (redirects s)) → k ∉ sec_avma_start <$> local_sections m.
Proof.
  intros (_ & _ & Hf) [e He] (sec & -> & Hin)%list_elem_of_fmap.
  rewrite Forall_forall in Hf. specialize (Hf _ Hin). congruence.
Qed.

Lemma add_synced s m : synced s → fresh_for s m → synced (add s m).
Proof.
  intros Hs Hf k e. unfold accounted. rewrite registered_add by apply Hf. split.
  - intros [Hg|(<- & ? & ?)]%add_redirects_get; [|by auto]. apply Hs in Hg as (? & ? & ?). auto.
  - intros ([Ho|Ho] & Hin & <-); simpl.
    + rewrite Ho in Hin. rewrite add_redirects_new; [rewrite <- Ho; by destruct e| |done].
      intros s1 s2. by eapply fresh_functional.
    + assert (bt_get (sec_avma_start (section e)) (redirects s) = Some e) as Hg by by apply Hs.
      rewrite add_redirects_other; [done|]. eapply fresh_redirect; [done|]. by rewrite Hg.
Qed.

Lemma registered_inj s m1 m2 :
  registered s m1 → registered s m2 → start (avma_range m1) = start (avma_range m2) → m1 = m2.
Proof. unfold registered. intros H1 H2 He. rewrite He in H1. congruence. Qed.

Lemma registered_remove s k m m' :
  set_wf s → bt_get k (modules s) = Some m →
  registered (remove s k) m' ↔ registered s m' ∧ m' ≠ m.
Proof.
  intros (Hwf & _ & Hm & _) Hk. unfold remove. rewrite Hk. unfold registered. simpl.
  destruct (Hm _ _ Hk) as [-> _].
  destruct (decide (start (avma_range m) = start (avma_range m'))) as [He|Hne].
  - rewrite <- He, bt_get_remove_eq by done. split; [done|]. intros [? ?]. congruence.
  - rewrite bt_get_remove_ne by done. naive_solver.
Qed.

(** Two modules never account for the same redirect. *)
Lemma synced_owner s m1 m2 s1 s2 :
  synced s → registered s m1 → registered s m2 →
  s1 ∈ local_sections m1 → s2 ∈ local_sections m2 →
  sec_avma_start s1 = sec_avma_start s2 → m1 = m2 ∧ s1 = s2.
Proof.
  intros Hs ? ? ? ? He.
  assert (bt_get (sec_avma_start s1) (redirects s) = Some (mkRedirectEntry s1 m1)) as Hg1
    by by apply Hs.
  assert (bt_get (sec_avma_start s2) (redirects s) = Some (mkRedirectEntry s2 m2)) as Hg2
    by by apply Hs.
  rewrite He in Hg1. by simplify_eq.
Qed.

Lemma remove_synced s k : set_wf s → synced s → synced (remove s k).
Proof.
  intros Hwf Hs. destruct (bt_get k (modules s)) as [m|] eqn:Hk.
  2: { unfold remove. by rewrite Hk. }
  intros k' e. unfold accounted. rewrite registered_remove by done.
  assert (registered s m) as Hrm.
  { destruct Hwf as (_ & _ & Hm & _). destruct (Hm _ _ Hk) as [-> _]. done. }
  unfold remove. rewrite Hk. simpl.
  destruct (decide (k' ∈ sec_avma_start <$> local_sections m)) as [Hin|Hin].
  - rewrite remove_redirects_in; [|by destruct Hwf as (_ & ? & _)|done].
    split; [done|]. intros ([Hro Hne] & Hs2 & <-).
    apply list_elem_of_fmap in Hin as (sec & He & Hsec).
    by destruct (synced_owner s (owner e) m (section e) sec) as [? _].
  - rewrite remove_redirects_other by done. rewrite (Hs k' e). unfold accounted. split; [|naive_solver].
    intros (? & Hin2 & <-). split_and!; [done| |done|done]. intros He. rewrite He in Hin2.
    apply Hin. by apply list_elem_of_fmap_2.
Qed.

Lemma bt_keys_nodup {V} (l : list (Z * V)) : bt_wf l → NoDup l.*1.
Proof.
  assert (∀ k (l : list (Z * V)), bt_lb k l → NoDup l.*1 ∧ Forall (λ k', k < k') l.*1) as Haux.
  { intros k l'. revert k. induction l' as [|[k1 v1] l' IH]; intros k; simpl; [by repeat constructor|].
    intros [? Hlb]. destruct (IH _ Hlb) as [? Hf]. split.
    - constructor; [|done]. intros Hin. rewrite Forall_forall in Hf. apply Hf in Hin. lia.
    - constructor; [done|]. eapply Forall_impl; [done|]. simpl. lia. }
  intros [k0 Hlb]%bt_wf_lb. by apply Haux in Hlb as [? _].
Qed.

Lemma values_nodup s : set_wf s → NoDup (bt_values (modules s)).
Proof.
  intros (Hwf & _ & Hm & _). apply (NoDup_fmap_1 (λ d, start (avma_range d))).
  unfold bt_values. replace (_ <$> (modules s).*2) with ((modules s).*1); [by apply bt_keys_nodup|].
  rewrite <- list_fmap_compose. apply list_fmap_ext. intros i [k d] Hi. simpl.
  apply list_elem_of_lookup_2, bt_get_elem in Hi; [|done]. by apply Hm in Hi as [? _].
Qed.

(** Replaying a prefix of the modules of a synchronised registry. *)
Lemma replay_prefix s l1 l2 :
  set_wf s → synced s → bt_values (modules s) = l1 ++ l2 →
  set_wf (foldl add new l1) ∧ synced (foldl add new l1) ∧
  ∀ m, registered (foldl add new l1) m ↔ m ∈ l1.
Proof.
  intros Hwf Hs. revert l2. induction l1 as [|m l1 IH] using rev_ind; intros l2 Hv.
  { split_and!; [apply new_wf|apply new_synced|]. intros m. split; [done|set_solver]. }
  rewrite <- app_assoc in Hv. destruct (IH _ Hv) as (Hwt & Hst & Hrt).
  rewrite foldl_app. simpl. set (t := foldl add new l1) in *.
  assert (∀ m', m' ∈ l1 ∨ m' = m → registered s m') as Hreg.
  { intros m' Hin. apply values_registered; [done|]. rewrite Hv, !elem_of_app, list_elem_of_singleton.
    tauto. }
  assert (m ∉ l1) as Hni.
  { pose proof (values_nodup s Hwf) as Hnd. rewrite Hv in Hnd.
    apply NoDup_app in Hnd as (_ & Hd & _). intros Hin. apply (Hd _ Hin). left. }
  assert (fresh_for t m) as Hfr.
  { split_and!.
    - destruct (bt_get _ (modules t)) as [m'|] eqn:Hg; [|done]. exfalso. apply Hni.
      destruct Hwt as (_ & _ & Hm & _). destruct (Hm _ _ Hg) as [He _].
      rewrite He in Hg. apply Hrt in Hg. rewrite (registered_inj s m m'); auto.
    - apply Forall_forall. intros s1 H1. apply Forall_forall. intros s2 H2 He.
      by apply (synced_owner s m m s1 s2); auto.
    - apply Forall_forall. intros sec Hsec. destruct (bt_get _ (redirects t)) as [e|] eqn:Hg; [|done].
      exfalso. apply Hst in Hg as (Ho & Hin & He). apply Hrt in Ho. apply Hni.
      destruct (synced_owner s (owner e) m (section e) sec) as [<- _]; auto. }
  split_and!.
  - apply add_wf; [done|]. apply (registered_ok s); [done|]. auto.
  - by apply add_synced.
  - intros m'. rewrite registered_add by apply Hfr.
    rewrite Hrt, elem_of_app, list_elem_of_singleton. tauto.
Qed.

Lemma synced_ext s t :
  set_wf s → set_wf t → synced s → synced t → (∀ m, registered s m ↔ registered t m) → s = t.
Proof.
  intros (Hms & Hrs & Hks & _) (Hmt & Hrt & Hkt & _) Hs Ht Heq.
  assert (modules s = modules t) as Hm.
  { apply bt_ext; [done..|]. intros k. apply option_eq. intros m. unfold registered in Heq.
    split; intros Hg; [destruct (Hks _ _ Hg) as [-> _]|destruct (Hkt _ _ Hg) as [-> _]];
      by apply Heq. }
  assert (redirects s = redirects t) as Hr.
  { apply bt_ext; [done..|]. intros k. apply option_eq. intros e.
    rewrite (Hs k e), (Ht k e). unfold accounted. by rewrite Heq. }
  destruct s, t. simpl in *. by subst.
Qed.

Lemma clone_id s : set_wf s → synced s → clone s = s.
Proof.
  intros Hwf Hs. destruct (replay_prefix s (bt_values (modules s)) [] Hwf Hs) as (? & ? & Hr).
  { by rewrite app_nil_r. }
  apply synced_ext; [done..|]. intros m. by rewrite (Hr m), values_registered.
Qed.

(** Registries built by loads at fresh addresses, unloads and clones. *)
Inductive fresh_reachable : ModuleSet → Prop :=
  | fresh_new : fresh_reachable new
  | fresh_add s m :
      fresh_reachable s → module_ok m → fresh_for s m → fresh_reachable (add s m)
  | fresh_remove s k : fresh_reachable s → fresh_reachable (remove s k)
  | fresh_clone s : fresh_reachable s → fresh_reachable (clone s).

Lemma fresh_reachable_wf s : fresh_reachable s → set_wf s ∧ synced s.
Proof.
  induction 1 as [|s m _ [Hwf Hs] Hm Hf|s k _ [Hwf Hs]|s _ [Hwf Hs]].
  - split; [apply new_wf|apply new_synced].
  - split; [by apply add_wf|by apply add_synced].
  - split; [by apply remove_wf|by apply remove_synced].
  - by rewrite clone_id.
Qed.

Lemma foldl_max_ge l z : z ≤ foldl Z.max z l ∧ Forall (λ x, x ≤ foldl Z.max z l) l.
Proof.
  revert z. induction l as [|x l IH]; intros z; simpl; [by split; [lia|constructor]|].
  destruct (IH (Z.max z x)) as [H1 H2]. split; [lia|]. constructor; [lia|done].
Qed.

Lemma foldl_max_in l z : foldl Z.max z l = z ∨ foldl Z.max z l ∈ l.
Proof.
  revert z. induction l as [|x l IH]; intros z; simpl; [by left|].
  destruct (IH (Z.max z x)) as [->|?]; [|set_solver].
  destruct (Z.max_spec z x) as [[_ ->]|[_ ->]]; set_solver.
Qed.

(** The bytes behind a redirect below the top of the address space. *)
Lemma lookup_local_bytes {E} s a p :
  set_wf s → (∀ k e, bt_get k (redirects s) = Some e → sec_avma_end (section e) < u64_max) →
  lookup_local s a = Some p →
  ∃ k e bytes, bt_get k (redirects s) = Some e ∧ local_ptr (section e) = as_ptr bytes ∧
    Forall is_u8 bytes ∧
    sec_avma_start (section e) ≤ a ∧ a + 8 ≤ sec_avma_start (section e) + len bytes ∧
    from_raw_parts (E:=E) p 8 =
      Ok (take 8 (drop (Z.to_nat (a - sec_avma_start (section e))) bytes)).
Proof.
  intros (_ & Hwr & _ & Hr) Htop. unfold lookup_local.
  destruct (bt_floor a (redirects s)) as [[k e]|] eqn:Hf; simpl; [|done].
  apply bt_floor_some in Hf as (Hg & _ & _); [|done]. specialize (Htop _ _ Hg).
  destruct (Hr _ _ Hg) as [_ (bytes & [Hb Hl] & Hp & Hst & Hend)].
  destruct (Z.leb_spec (sec_avma_start (section e)) a); simpl; [|done].
  destruct (Z.leb_spec (saturating_add a 8) (sec_avma_end (section e))) as [Hle|]; [|done].
  intros [= <-]. rewrite Hp. simpl. apply saturating_fits in Hle; [|done].
  assert (a + 8 ≤ sec_avma_start (section e) + len bytes).
  { rewrite Hend in Hle. unfold saturating_add in Hle. lia. }
  exists k, e, bytes. split_and!; [done|done|done|lia|lia|]. simpl.
  by rewrite (proj2 (andb_true_iff _ _)) by (simpl; rewrite ?andb_true_iff; lia).
Qed.

(** ** Properties *)

(** On a registry of disjoint modules, [find_module] finds a module exactly
    when that module is registered and its range contains the address. *)
Theorem find_module_correct (s : ModuleSet) (a : Z) (m : ModuleData) :
  reachable s → ranges_disjoint s →
  find_module s a = Some m ↔ registered s m ∧ start (avma_range m) ≤ a < end_ (avma_range m).
Proof.
  intros Hwf%reachable_wf Hd. split; [by apply find_module_some|].
  intros [Hr [Hlo Hhi]]. unfold find_module.
  assert (bt_floor a (modules s) = Some (start (avma_range m), m)) as ->.
  { destruct Hwf as (Hwm & _ & Hm & _). apply bt_floor_some; [done|].
    split_and!; [done|done|]. intros k m' Hg Hle. destruct (Hm _ _ Hg) as [-> _].
    destruct (decide (start (avma_range m') ≤ start (avma_range m))); [done|].
    assert (end_ (avma_range m) ≤ start (avma_range m')) by (apply Hd; [done|done|lia]). lia. }
  simpl. by rewrite (proj2 (andb_true_iff _ _)) by lia.
Qed.

(** C22: while modules are loaded at fresh addresses, the redirect map holds
    exactly the mirrored sections of the registered modules (so an unload
    leaves none behind), and cloning the registry copies it exactly. *)
Theorem redirects_synced (s : ModuleSet) :
  fresh_reachable s → synced s ∧ clone s = s.
Proof. intros [Hwf Hs]%fresh_reachable_wf. split; [done|by apply clone_id]. Qed.

(** C23: memory safety of the fast path: below the top of the address space,
    the 8-byte read through the pointer [lookup_local] returns is in bounds and
    yields the bytes of the mirrored section at that address. *)
Theorem lookup_local_safe (s : ModuleSet) (a : Z) (p : ptr) :
  reachable s →
  (∀ k e, bt_get k (redirects s) = Some e → sec_avma_end (section e) < u64_max) →
  lookup_local s a = Some p →
  ∃ k e bytes, bt_get k (redirects s) = Some e ∧ local_ptr (section e) = as_ptr bytes ∧
    sec_avma_start (section e) ≤ a ∧ a + 8 ≤ sec_avma_start (section e) + len bytes ∧
    from_raw_parts (E:=()) p 8 =
      Ok (take 8 (drop (Z.to_nat (a - sec_avma_start (section e))) bytes)).
Proof.
  intros Hwf%reachable_wf Ht Hl.
  destruct (lookup_local_bytes (E:=()) s a p Hwf Ht Hl) as (k & e & b & ? & ? & _ & ? & ? & ?).
  eauto 10.
Qed.

(** [max_known_code_address] is the least upper bound of the ends of the
    registered modules: every end is at most it, and it is one of them, or 0
    when nothing is registered. *)
Theorem max_known_code_address_lub (s : ModuleSet) :
  reachable s →
  (∀ m, registered s m → end_ (avma_range m) ≤ max_known_code_address s) ∧
  ((∃ m, registered s m ∧ end_ (avma_range m) = max_known_code_address s) ∨
   (max_known_code_address s = 0 ∧ ∀ m, ¬ registered s m)).
Proof.
  intros Hwf%reachable_wf. unfold max_known_code_address.
  pose proof (λ m, values_registered s m Hwf) as Hv.
  destruct (bt_values (modules s)) as [|m0 l]; simpl.
  { split; [|right; split; [done|]]; intros m Hm%Hv; set_solver. }
  set (es := (λ m, end_ (avma_range m)) <$> l). destruct (foldl_max_ge es (end_ (avma_range m0))) as [Hge Hall].
  rewrite Forall_forall in Hall. split.
  - intros m [->|Hin]%Hv%elem_of_cons; [done|]. apply Hall. apply list_elem_of_fmap. by exists m.
  - left. destruct (foldl_max_in es (end_ (avma_range m0))) as [He|He].
    + exists m0. split; [apply Hv; set_solver|done].
    + apply list_elem_of_fmap in He as (m & He & Hin). exists m.
      split; [apply Hv; set_solver|]. symmetry. exact He.
Qed.

(** ** Examples and boundary behaviour *)
Definition section_module (base : Z) (rstart : Z) (avma : Z) (bytes : list Z) : ModuleData :=
  mkModuleData "m" (mkRange rstart (rstart + 4096)) base [mirror avma bytes] (empty 0) Null 0
    (as_ptr bytes) (len bytes) avma None 0 0 0.

Lemma section_module_ok base rstart avma bytes :
  is_u64 avma → bytes_ok bytes → module_ok (section_module base rstart avma bytes).
Proof.
  intros Ha Hb. unfold module_ok. simpl. split_and!; try done.
  - repeat constructor. by apply mirror_ok.
  - apply local_ok_null.
  - by apply local_ok_as_ptr.
Qed.

(** [addr.saturating_add(8)] in [lookup_local] lets a read at the very top
    of the address space through although it runs past the mirrored section:
    the read behind the returned pointer is out of bounds. *)
Theorem lookup_local_top_of_memory :
  ∃ s a p, reachable s ∧ is_u64 a ∧ lookup_local s a = Some p ∧
    from_raw_parts (E:=()) p 8 = UB.
Proof.
  exists (add new (section_module 0 4096 (2 ^ 64 - 9) [1; 2; 3; 4; 5; 6; 7; 8])), (2 ^ 64 - 4).
  eexists. split_and!.
  - apply reach_add; [apply reach_new|]. apply section_module_ok; by_compute.
  - by_compute.
  - vm_compute. reflexivity.
  - by vm_compute.
Qed.

(** Loading a second module at the start address of a registered one
    replaces the module but keeps the first one's redirects: after unloading,
    no module is registered, yet reads are still served from the first
    module's sections, and a clone of the registry behaves differently. *)
Theorem stale_redirects :
  ∃ s a p, reachable s ∧ modules s = [] ∧ lookup_local s a = Some p ∧
    lookup_local (clone s) a = None.
Proof.
  exists (remove (add (add new (section_module 0 4096 8192 [1; 2; 3; 4; 5; 6; 7; 8]))
                      (section_module 0 4096 16384 [8; 7; 6; 5; 4; 3; 2; 1])) 4096), 8192.
  eexists. split_and!.
  - apply reach_remove, reach_add; [apply reach_add; [apply reach_new|]|];
      apply section_module_ok; by_compute.
  - by_compute.
  - vm_compute. reflexivity.
  - by vm_compute.
Qed.

(** *** Witnesses *)
Definition demo_a : ModuleData := section_module 0 4096 8192 [1; 2; 3; 4; 5; 6; 7; 8].
Definition demo_b : ModuleData := section_module 0 32768 65536 [8; 7; 6; 5; 4; 3; 2; 1].
Definition demo_set : ModuleSet := add (add new demo_a) demo_b.

Lemma demo_fresh : fresh_reachable demo_set.
Proof.
  apply fresh_add; [apply fresh_add; [apply fresh_new|..]|..].
  - apply section_module_ok; by_compute.
  - split_and!; [done|by repeat constructor..].
  - apply section_module_ok; by_compute.
  - split_and!; [done|by repeat constructor..].
Qed.

Lemma demo_reachable : reachable demo_set.
Proof.
  apply reach_add; [apply reach_add; [apply reach_new|]|]; apply section_module_ok; by_compute.
Qed.

Lemma demo_registered m : registered demo_set m → m = demo_a ∨ m = demo_b.
Proof.
  unfold registered, demo_set. generalize (start (avma_range m)). intros k.
  change (bt_get k [(4096, demo_a); (32768, demo_b)] = Some m → m = demo_a ∨ m = demo_b).
  cbn [bt_get]. destruct (4096 =? k); [intros [= <-]; by left|].
  destruct (32768 =? k); [intros [= <-]; by right|done].
Qed.

Lemma find_module_correct_witness :
  find_module demo_set 4100 = Some demo_a ↔
  registered demo_set demo_a ∧ start (avma_range demo_a) ≤ 4100 < end_ (avma_range demo_a).
Proof.
  apply (find_module_correct demo_set 4100 demo_a demo_reachable).
  intros m1 m2 [-> | ->]%demo_registered [-> | ->]%demo_registered; vm_compute; congruence.
Defined.

Lemma redirects_synced_witness : synced demo_set ∧ clone demo_set = demo_set.
Proof. apply (redirects_synced demo_set demo_fresh). Defined.

Lemma lookup_local_safe_witness :
  ∃ k e bytes, bt_get k (redirects demo_set) = Some e ∧ local_ptr (section e) = as_ptr bytes ∧
    sec_avma_start (section e) ≤ 8192 ∧ 8192 + 8 ≤ sec_avma_start (section e) + len bytes ∧
    from_raw_parts (E:=()) (Ptr [1; 2; 3; 4; 5; 6; 7; 8] 0) 8 =
      Ok (take 8 (drop (Z.to_nat (8192 - sec_avma_start (section e))) bytes)).
Proof.
  apply (lookup_local_safe demo_set 8192 _ demo_reachable); [|by vm_compute].
  intros k e.
  change (bt_get k [(8192, mkRedirectEntry (mirror 8192 [1; 2; 3; 4; 5; 6; 7; 8]) demo_a);
                    (65536, mkRedirectEntry (mirror 65536 [8; 7; 6; 5; 4; 3; 2; 1]) demo_b)]
          = Some e → sec_avma_end (section e) < u64_max).
  cbn [bt_get]. destruct (8192 =? k); [intros [= <-]; by_compute|].
  destruct (65536 =? k); [intros [= <-]; by_compute|done].
Defined.

Lemma max_known_code_address_lub_witness :
  (∀ m, registered demo_set m → end_ (avma_range m) ≤ max_known_code_address demo_set) ∧
  ((∃ m, registered demo_set m ∧ end_ (avma_range m) = max_known_code_address demo_set) ∨
   (max_known_code_address demo_set = 0 ∧ ∀ m, ¬ registered demo_set m)).
Proof. apply (max_known_code_address_lub demo_set demo_reachable). Defined.
