(* ===== verification/Ownership.v ===== *)
(** * Who keeps the unwind sections alive

    [Module] holds an [Arc<ModuleData>]; [ModuleSet] holds one per registered
    module and one per redirect ([_owner]).  The section bytes are owned by the
    [ModuleData] ([_sections]), and raw pointers to them are stored in it and in
    the redirects; the [unsafe impl Send/Sync] say that they stay valid on any
    thread.  Here every operation of a registry is given with the reference-count
    operations it performs, in order, and threads interleave these operations
    atomically. *)

From stdpp Require Import gmap gmultiset.
From S2P Require Import Prelude.
From S2P Require Import BTree.
From S2P Require Import Modules.
From S2P Require Import ModuleSet.

(** ** Reference counts *)

(** [Arc::clone] and the drop of an [Arc].  An allocation of a [ModuleData] is
    named by the function cache inside it. *)
Inductive ArcOp : Type :=
  | ArcClone (l : N)
  | ArcDrop (l : N).

Definition arc (m : ModuleData) : N := function_cache m.
Definition entry_arc (e : RedirectEntry) : N := arc (owner e).

(** The strong counts of the allocations that are alive.  The last drop frees the
    [ModuleData] with its sections; using a freed allocation is undefined. *)
Abbreviation Counts := (gmap N positive).

Definition run_arc (op : ArcOp) (σ : Counts) : outcome Empty_set Counts :=
  match op with
  | ArcClone l =>
      match σ !! l with Some n => Ok (<[l := Pos.succ n]> σ) | None => UB end
  | ArcDrop l =>
      match σ !! l with
      | Some 1%positive => Ok (delete l σ)
      | Some n => Ok (<[l := Pos.pred n]> σ)
      | None => UB
      end
  end.

(** ** What the registry does to the counts *)

(** An [Option] that is dropped. *)
Definition drop_option {V} (f : V → N) (o : option V) : list ArcOp :=
  match o with Some v => [ArcDrop (f v)] | None => [] end.

(** The loop of [ModuleSet::add]: the new entry clones the module's [Arc]; the
    entry that [insert] replaces is dropped. *)
Fixpoint add_redirects_arcs (data : ModuleData) (secs : list LocalSection)
    (rs : list (Z * RedirectEntry)) : list ArcOp :=
  match secs with
  | [] => []
  | sec :: secs' =>
      ArcClone (arc data) :: drop_option entry_arc (bt_get (sec_avma_start sec) rs)
      ++ add_redirects_arcs data secs' (add_redirects data [sec] rs)
  end.

(** [ModuleSet::add]: the argument moves into the map; a module it replaces is
    dropped. *)
Definition add_arcs (self : ModuleSet) (data : ModuleData) : list ArcOp :=
  add_redirects_arcs data (local_sections data) (redirects self)
  ++ drop_option arc (bt_get (start (avma_range data)) (modules self)).

Fixpoint remove_redirects_arcs (secs : list LocalSection) (rs : list (Z * RedirectEntry))
    : list ArcOp :=
  match secs with
  | [] => []
  | sec :: secs' =>
      drop_option entry_arc (bt_get (sec_avma_start sec) rs)
      ++ remove_redirects_arcs secs' (bt_remove (sec_avma_start sec) rs)
  end.

(** [ModuleSet::remove]: the removed module lives until the end of the block. *)
Definition remove_arcs (self : ModuleSet) (avma_start : Z) : list ArcOp :=
  match bt_get avma_start (modules self) with
  | Some data => remove_redirects_arcs (local_sections data) (redirects self) ++ [ArcDrop (arc data)]
  | None => []
  end.

(** [ModuleSet::clone]. *)
Fixpoint clone_arcs_loop (ms : list ModuleData) (cloned : ModuleSet) : list ArcOp :=
  match ms with
  | [] => []
  | m :: ms' => ArcClone (arc m) :: add_arcs cloned m ++ clone_arcs_loop ms' (add cloned m)
  end.
Definition clone_arcs (self : ModuleSet) : list ArcOp :=
  clone_arcs_loop (bt_values (modules self)) new.

(** The drop of a registry: its fields in order. *)
Definition drop_arcs (self : ModuleSet) : list ArcOp :=
  (ArcDrop ∘ arc <$> bt_values (modules self))
  ++ (ArcDrop ∘ entry_arc <$> bt_values (redirects self)).

(** ** Threads

    A thread owns module handles and registries (an unwinder is a registry).  It
    starts an API call when the previous one is over, and performs its
    reference-count operations one at a time. *)
Record Client : Type := mkClient {
  cl_modules : list ModuleData;
  cl_sets : list ModuleSet;
}.

Inductive api_call : Client → list ArcOp → Client → Prop :=
  | call_clone_module ms ss i m :
      ms !! i = Some m → api_call (mkClient ms ss) [ArcClone (arc m)] (mkClient (m :: ms) ss)
  | call_drop_module ms ss i m :
      ms !! i = Some m → api_call (mkClient ms ss) [ArcDrop (arc m)] (mkClient (delete i ms) ss)
  | call_new ms ss : api_call (mkClient ms ss) [] (mkClient ms (new :: ss))
  | call_clone ms ss i s :
      ss !! i = Some s → api_call (mkClient ms ss) (clone_arcs s) (mkClient ms (clone s :: ss))
  | call_drop ms ss i s :
      ss !! i = Some s → api_call (mkClient ms ss) (drop_arcs s) (mkClient ms (delete i ss))
  | call_add ms ss i s j m :
      ss !! i = Some s → ms !! j = Some m →
      api_call (mkClient ms ss) (add_arcs s m) (mkClient (delete j ms) (<[i := add s m]> ss))
  | call_remove ms ss i s k :
      ss !! i = Some s →
      api_call (mkClient ms ss) (remove_arcs s k) (mkClient ms (<[i := remove s k]> ss)).

(** What the thread owns when the running call is over, and the operations the
    call still has to perform. *)
Record Thread : Type := mkThread {
  th_client : Client;
  th_pending : list ArcOp;
}.

Definition Owners : Type := Counts * list Thread.

Inductive owners_step : Owners → Owners → Prop :=
  | own_call σ ts i c ops c' :
      ts !! i = Some (mkThread c []) → api_call c ops c' →
      owners_step (σ, ts) (σ, <[i := mkThread c' ops]> ts)
  | own_arc σ ts i c op ops σ' :
      ts !! i = Some (mkThread c (op :: ops)) → run_arc op σ = Ok σ' →
      owners_step (σ, ts) (σ', <[i := mkThread c ops]> ts)
  (** [Arc::new] at a free location. *)
  | own_build σ ts i ms ss m :
      ts !! i = Some (mkThread (mkClient ms ss) []) → σ !! arc m = None →
      owners_step (σ, ts) (<[arc m := 1%positive]> σ, <[i := mkThread (mkClient (m :: ms) ss) []]> ts)
  (** Handles and registries may be sent to another thread. *)
  | own_send_module σ ts i j ms ss ms' ss' k m :
      i ≠ j → ts !! i = Some (mkThread (mkClient ms ss) []) →
      ts !! j = Some (mkThread (mkClient ms' ss') []) → ms !! k = Some m →
      owners_step (σ, ts)
        (σ, <[j := mkThread (mkClient (m :: ms') ss') []]>
              (<[i := mkThread (mkClient (delete k ms) ss) []]> ts))
  | own_send_set σ ts i j ms ss ms' ss' k s :
      i ≠ j → ts !! i = Some (mkThread (mkClient ms ss) []) →
      ts !! j = Some (mkThread (mkClient ms' ss') []) → ss !! k = Some s →
      owners_step (σ, ts)
        (σ, <[j := mkThread (mkClient ms' (s :: ss')) []]>
              (<[i := mkThread (mkClient ms (delete k ss)) []]> ts)).

(** [n] threads that own nothing. *)
Definition owners_init (n : nat) : Owners := (∅, replicate n (mkThread (mkClient [] []) [])).

Inductive owners_reachable (n : nat) : Owners → Prop :=
  | owners_start : owners_reachable n (owners_init n)
  | owners_next o o' : owners_reachable n o → owners_step o o' → owners_reachable n o'.

(** ** Handles

    The [Arc]s a registry and a thread own, as multisets of allocations. *)
Definition value_handles {V} (f : V → N) (m : list (Z * V)) : gmultiset N :=
  list_to_set_disj (f <$> bt_values m).
Definition handles (s : ModuleSet) : gmultiset N :=
  value_handles arc (modules s) ⊎ value_handles entry_arc (redirects s).

(** The handles in a list of owners. *)
Fixpoint all_handles {X} (f : X → gmultiset N) (xs : list X) : gmultiset N :=
  match xs with [] => ∅ | x :: xs' => f x ⊎ all_handles f xs' end.
Definition client_handles (c : Client) : gmultiset N :=
  all_handles (λ m, {[+ arc m +]}) (cl_modules c) ⊎ all_handles handles (cl_sets c).

(** Running operations on owned handles: only an owned handle may be cloned or
    dropped. *)
Fixpoint exec (H : gmultiset N) (ops : list ArcOp) : option (gmultiset N) :=
  match ops with
  | [] => Some H
  | ArcClone l :: ops => if decide (l ∈ H) then exec (H ⊎ {[+ l +]}) ops else None
  | ArcDrop l :: ops => if decide (l ∈ H) then exec (H ∖ {[+ l +]}) ops else None
  end.

(** A registry as the operations build it: ordered maps, and every redirect shows
    a section of its owner. *)
Definition set_inv (s : ModuleSet) : Prop :=
  bt_wf (modules s) ∧ bt_wf (redirects s) ∧
  ∀ k e, bt_get k (redirects s) = Some e → section e ∈ local_sections (owner e).

(** ** Lemmas: maps *)
Section values.
Context {V : Type} (f : V → N).
Implicit Types (m : list (Z * V)).

Definition option_handles (o : option V) : gmultiset N :=
  match o with Some v => {[+ f v +]} | None => ∅ end.

Lemma value_handles_cons k v m : value_handles f ((k, v) :: m) = {[+ f v +]} ⊎ value_handles f m.
Proof. reflexivity. Qed.

Lemma value_handles_insert k v m :
  bt_wf m → value_handles f (bt_insert k v m) ⊎ option_handles (bt_get k m)
            = {[+ f v +]} ⊎ value_handles f m.
Proof.
  intros Hwf. induction m as [|[k0 v0] m IH];
    [unfold value_handles; cbn -[disj_union]; by rewrite !(right_id_L ∅ (⊎))|]. simpl.
  pose proof (bt_get_lb k0 k m Hwf) as Hlb.
  destruct (Z.ltb_spec k k0), (Z.eqb_spec k k0), (Z.eqb_spec k0 k); try lia;
    rewrite ?value_handles_cons.
  - rewrite Hlb by lia. cbn [option_handles]. multiset_solver.
  - cbn [option_handles]. multiset_solver.
  - specialize (IH (bt_lb_wf _ _ Hwf)). multiset_solver.
Qed.

Lemma value_handles_remove k m :
  value_handles f (bt_remove k m) ⊎ option_handles (bt_get k m) = value_handles f m.
Proof.
  induction m as [|[k0 v0] m IH]; [unfold value_handles; cbn -[disj_union]; by rewrite (right_id_L ∅ (⊎))|]. simpl.
  destruct (Z.eqb_spec k0 k); rewrite ?value_handles_cons; cbn [option_handles]; multiset_solver.
Qed.

Lemma exec_drop_option H o : exec (H ⊎ option_handles o) (drop_option f o) = Some H.
Proof.
  destruct o as [v|]; cbn [option_handles drop_option exec].
  - rewrite decide_True by multiset_solver. f_equal. multiset_solver.
  - f_equal. multiset_solver.
Qed.

Lemma exec_drop_values H m :
  exec (H ⊎ value_handles f m) (ArcDrop ∘ f <$> bt_values m) = Some H.
Proof.
  induction m as [|[k v] m IH]; [cbn; f_equal; multiset_solver|].
  rewrite value_handles_cons. cbn [bt_values fmap list_fmap exec compose].
  rewrite decide_True by multiset_solver. rewrite <- IH. f_equal. multiset_solver.
Qed.
End values.

Lemma exec_app H a b : exec H (a ++ b) = exec H a ≫= λ H', exec H' b.
Proof.
  revert H. induction a as [|[l|l] a IH]; intros H; [done|..]; cbn [exec app];
    destruct (decide (l ∈ H)); by rewrite ?IH.
Qed.

(** Rewriting with a step of [exec] after a change of the multiset's shape. *)
Lemma exec_eq H H' ops R : H = H' → exec H' ops = R → exec H ops = R.
Proof. by intros ->. Qed.

(** ** Lemmas: each operation owns what it clones and drops *)
Lemma exec_add_redirects H data secs rs :
  bt_wf rs →
  exec (H ⊎ {[+ arc data +]} ⊎ value_handles entry_arc rs) (add_redirects_arcs data secs rs)
  = Some (H ⊎ {[+ arc data +]} ⊎ value_handles entry_arc (add_redirects data secs rs)).
Proof.
  revert rs. induction secs as [|sec secs IH]; intros rs Hwf; [done|].
  cbn [add_redirects_arcs exec]. rewrite decide_True by multiset_solver. rewrite exec_app.
  set (e := mkRedirectEntry
              (mkLocalSection (sec_avma_start sec) (sec_avma_end sec) (local_ptr sec)) data).
  pose proof (value_handles_insert entry_arc (sec_avma_start sec) e rs Hwf) as Hv.
  change (add_redirects data (sec :: secs) rs)
    with (add_redirects data secs (bt_insert (sec_avma_start sec) e rs)).
  change (add_redirects data [sec] rs) with (bt_insert (sec_avma_start sec) e rs).
  change (entry_arc e) with (arc data) in Hv.
  erewrite (exec_eq _ (_ ⊎ option_handles entry_arc (bt_get (sec_avma_start sec) rs)));
    [|shelve|apply exec_drop_option].
  cbn [mbind option_bind]. apply IH. auto with unw.
  Unshelve. multiset_solver.
Qed.

Lemma exec_add H s data :
  set_inv s →
  exec (H ⊎ handles s ⊎ {[+ arc data +]}) (add_arcs s data) = Some (H ⊎ handles (add s data)).
Proof.
  intros (Hm & Hr & _). unfold add_arcs, handles. rewrite exec_app.
  erewrite (exec_eq _ (H ⊎ value_handles arc (modules s) ⊎ {[+ arc data +]}
                       ⊎ value_handles entry_arc (redirects s)));
    [|multiset_solver|by apply exec_add_redirects].
  cbn [mbind option_bind].
  pose proof (value_handles_insert arc (start (avma_range data)) data (modules s) Hm) as Hv.
  eapply exec_eq; [|apply exec_drop_option]. cbn [add modules redirects]. multiset_solver.
Qed.

Lemma exec_remove_redirects H secs rs :
  exec (H ⊎ value_handles entry_arc rs) (remove_redirects_arcs secs rs)
  = Some (H ⊎ value_handles entry_arc (remove_redirects secs rs)).
Proof.
  revert rs. induction secs as [|sec secs IH]; intros rs; [done|].
  cbn [remove_redirects_arcs]. rewrite exec_app.
  pose proof (value_handles_remove entry_arc (sec_avma_start sec) rs) as Hv.
  erewrite exec_eq; [|shelve|apply exec_drop_option]. cbn [mbind option_bind]. apply IH.
  Unshelve. multiset_solver.
Qed.

Lemma exec_remove H s k :
  exec (H ⊎ handles s) (remove_arcs s k) = Some (H ⊎ handles (remove s k)).
Proof.
  unfold remove_arcs, remove, handles.
  pose proof (value_handles_remove arc k (modules s)) as Hv.
  destruct (bt_get k (modules s)) as [data|]; [|done]. rewrite exec_app.
  erewrite (exec_eq _ (H ⊎ value_handles arc (modules s) ⊎ value_handles entry_arc (redirects s)));
    [|multiset_solver|apply exec_remove_redirects].
  cbn [mbind option_bind exec modules redirects option_handles] in *.
  rewrite decide_True by multiset_solver. f_equal. multiset_solver.
Qed.

Lemma exec_drop H s : exec (H ⊎ handles s) (drop_arcs s) = Some H.
Proof.
  unfold drop_arcs, handles. rewrite exec_app.
  erewrite (exec_eq _ (H ⊎ value_handles entry_arc (redirects s) ⊎ value_handles arc (modules s)));
    [|multiset_solver|apply exec_drop_values].
  cbn [mbind option_bind]. apply exec_drop_values.
Qed.

(** ** Lemmas: the registry invariant *)
Lemma set_inv_new : set_inv new.
Proof. split_and!; [done|done|]. by intros k e. Qed.

Lemma add_redirects_inv data secs rs :
  bt_wf rs → (∀ k e, bt_get k rs = Some e → section e ∈ local_sections (owner e)) →
  secs ⊆ local_sections data →
  let rs' := add_redirects data secs rs in
  bt_wf rs' ∧ ∀ k e, bt_get k rs' = Some e → section e ∈ local_sections (owner e).
Proof.
  revert rs. induction secs as [|[a b p] secs IH]; intros rs Hwf Hrs Hsecs; [done|].
  apply IH; [auto with unw| |set_solver]. intros k e. cbn [sec_avma_start].
  destruct (decide (a = k)) as [->|Hne].
  - rewrite bt_get_insert_eq. intros [= <-]. apply Hsecs. by left.
  - rewrite bt_get_insert_ne by done. apply Hrs.
Qed.

Lemma set_inv_add s data : set_inv s → set_inv (add s data).
Proof.
  intros (Hm & Hr & Ho). split; [cbn; auto with unw|]. by apply add_redirects_inv.
Qed.

Lemma remove_redirects_inv secs rs :
  bt_wf rs → bt_wf (remove_redirects secs rs) ∧
             ∀ k e, bt_get k (remove_redirects secs rs) = Some e → bt_get k rs = Some e.
Proof.
  revert rs. induction secs as [|sec secs IH]; intros rs Hwf; [done|].
  destruct (IH (bt_remove (sec_avma_start sec) rs)) as [H1 H2]; [auto with unw|].
  split; [done|]. intros k e He. apply H2 in He. destruct (decide (sec_avma_start sec = k)) as [<-|].
  - by rewrite bt_get_remove_eq in He.
  - by rewrite bt_get_remove_ne in He.
Qed.

Lemma set_inv_remove s k : set_inv s → set_inv (remove s k).
Proof.
  intros (Hm & Hr & Ho). unfold remove. destruct (bt_get k (modules s)) as [data|]; [|done].
  destruct (remove_redirects_inv (local_sections data) (redirects s) Hr) as [H1 H2].
  split_and!; cbn; eauto with unw.
Qed.

Lemma set_inv_clone_loop ms s : set_inv s → set_inv (foldl add s ms).
Proof. revert s. induction ms; intros s Hs; [done|]. cbn. by apply IHms, set_inv_add. Qed.

Lemma set_inv_clone s : set_inv (clone s).
Proof. apply set_inv_clone_loop, set_inv_new. Qed.

#[local] Hint Resolve set_inv_new set_inv_add set_inv_remove set_inv_clone : core.

Lemma exec_clone_loop H ms s :
  set_inv s → (∀ m, m ∈ ms → arc m ∈ H) →
  exec (H ⊎ handles s) (clone_arcs_loop ms s) = Some (H ⊎ handles (foldl add s ms)).
Proof.
  revert s. induction ms as [|m ms IH]; intros s Hs Hms; [done|]. cbn [clone_arcs_loop exec foldl].
  pose proof (Hms m (list_elem_of_here _ _)) as Hm. rewrite decide_True by multiset_solver.
  rewrite exec_app, exec_add by done. cbn [mbind option_bind]. apply IH; [auto|]. set_solver.
Qed.

Lemma value_handles_elem {V} (f : V → N) (m : list (Z * V)) v :
  v ∈ bt_values m → f v ∈ value_handles f m.
Proof.
  intros Hv. apply elem_of_list_to_set_disj, list_elem_of_fmap. by exists v.
Qed.

Lemma handles_new : handles new = ∅.
Proof. unfold handles, value_handles. cbn -[disj_union]. apply (left_id_L ∅ (⊎)). Qed.

Lemma exec_clone H s :
  exec (H ⊎ handles s) (clone_arcs s) = Some (H ⊎ handles s ⊎ handles (clone s)).
Proof.
  unfold clone_arcs.
  erewrite (exec_eq _ (H ⊎ handles s ⊎ handles new)); [|rewrite handles_new; multiset_solver|].
  - apply exec_clone_loop; [auto|]. intros m Hm%(value_handles_elem arc). unfold handles.
    multiset_solver.
  - done.
Qed.

Lemma bt_get_values {V} k (v : V) m : bt_get k m = Some v → v ∈ bt_values m.
Proof.
  induction m as [|[k0 v0] m IH]; [done|]. simpl. destruct (k0 =? k).
  - intros [= ->]. by left.
  - intros Hg. right. by apply IH.
Qed.

(** ** Lemmas: lists of owners *)
Section owners.
Context {X : Type} (f : X → gmultiset N).

Lemma all_handles_delete xs i x :
  xs !! i = Some x → all_handles f xs = f x ⊎ all_handles f (delete i xs).
Proof.
  revert i. induction xs as [|y xs IH]; intros [|i]; [done|done|by intros [= ->]|].
  cbn. intros Hi. rewrite (IH i Hi). by rewrite !(assoc_L (⊎)), (comm_L (⊎) (f _) (f _)).
Qed.

Lemma all_handles_insert xs i x y :
  xs !! i = Some x → all_handles f (<[i := y]> xs) = f y ⊎ all_handles f (delete i xs).
Proof.
  revert i. induction xs as [|z xs IH]; intros [|i]; [done|done|done|]. intros Hi.
  change (f z ⊎ all_handles f (<[i := y]> xs) = f y ⊎ (f z ⊎ all_handles f (delete i xs))).
  rewrite (IH i Hi). by rewrite !(assoc_L (⊎)), (comm_L (⊎) (f _) (f _)).
Qed.

Lemma all_handles_elem xs x l : x ∈ xs → l ∈ f x → l ∈ all_handles f xs.
Proof. induction 1; cbn; rewrite gmultiset_elem_of_disj_union; auto. Qed.
End owners.

Definition client_inv (c : Client) : Prop := Forall set_inv (cl_sets c).

(** Every API call clones and drops only what its thread owns, and leaves it what
    the model says. *)
Lemma api_call_exec c ops c' :
  api_call c ops c' → client_inv c →
  exec (client_handles c) ops = Some (client_handles c') ∧ client_inv c'.
Proof.
  unfold client_handles, client_inv.
  intros [ms ss i m Hi|ms ss i m Hi|ms ss|ms ss i s Hi|ms ss i s Hi|ms ss i s j m Hi Hj|ms ss i s k Hi]
    Hc; cbn [cl_modules cl_sets] in *.
  - split; [|done]. cbn [exec all_handles].
    rewrite decide_True; [f_equal; multiset_solver|].
    rewrite (all_handles_delete _ ms i m Hi). multiset_solver.
  - split; [|done]. cbn [exec]. rewrite (all_handles_delete _ ms i m Hi).
    rewrite decide_True by multiset_solver. f_equal. multiset_solver.
  - split; [|auto]. cbn [exec all_handles]. rewrite handles_new. f_equal. multiset_solver.
  - split; [|auto]. cbn [all_handles]. rewrite (all_handles_delete _ ss i s Hi).
    set (M := all_handles _ ms). set (D := all_handles _ (delete i ss)).
    erewrite (exec_eq _ (M ⊎ D ⊎ handles s)); [|multiset_solver|apply exec_clone].
    f_equal. multiset_solver.
  - split; [|by apply Forall_delete]. rewrite (all_handles_delete _ ss i s Hi).
    eapply exec_eq; [|apply exec_drop]. multiset_solver.
  - pose proof (Forall_lookup_1 _ _ _ _ Hc Hi) as Hs.
    split; [|apply Forall_insert; auto].
    rewrite (all_handles_delete _ ss i s Hi), (all_handles_delete _ ms j m Hj),
      (all_handles_insert _ ss i s _ Hi).
    set (M := all_handles _ (delete j ms)). set (D := all_handles _ (delete i ss)).
    erewrite (exec_eq _ (M ⊎ D ⊎ handles s ⊎ {[+ arc m +]})); [|multiset_solver|by apply exec_add].
    f_equal. multiset_solver.
  - pose proof (Forall_lookup_1 _ _ _ _ Hc Hi) as Hs.
    split; [|apply Forall_insert; auto].
    rewrite (all_handles_delete _ ss i s Hi), (all_handles_insert _ ss i s _ Hi).
    set (M := all_handles _ ms). set (D := all_handles _ (delete i ss)).
    erewrite (exec_eq _ (M ⊎ D ⊎ handles s)); [|multiset_solver|apply exec_remove].
    f_equal. multiset_solver.
Qed.

(** ** The invariant of the threads *)

(** The counts are the numbers of handles. *)
Definition counts_match (σ : Counts) (H : gmultiset N) : Prop :=
  ∀ l, multiplicity l H = match σ !! l with Some n => Pos.to_nat n | None => 0%nat end.

(** Thread [t] owns the handles [H] right now. *)
Definition thread_inv (t : Thread) (H : gmultiset N) : Prop :=
  exec H (th_pending t) = Some (client_handles (th_client t)) ∧ client_inv (th_client t).

Definition owners_inv (o : Owners) : Prop :=
  ∃ Hs, Forall2 thread_inv o.2 Hs ∧ counts_match o.1 (all_handles id Hs).

Lemma run_arc_exec σ H R op ops H' :
  counts_match σ (H ⊎ R) → exec H (op :: ops) = Some H' →
  ∃ σ' H1, run_arc op σ = Ok σ' ∧ exec H1 ops = Some H' ∧ counts_match σ' (H1 ⊎ R).
Proof.
  intros Hσ He. destruct op as [l|l]; cbn [exec] in He; destruct (decide (l ∈ H)) as [Hl|]; try done;
    pose proof (Hσ l) as Hn; rewrite multiplicity_disj_union in Hn;
    assert (0 < multiplicity l H)%nat as Hp by exact (proj1 (elem_of_multiplicity _ _) Hl);
    clear Hl; cbn [run_arc];
    destruct (σ !! l) as [n|] eqn:Hsl; try lia.
  - eexists _, _. split_and!; [done|done|]. intros l'. specialize (Hσ l').
    rewrite !multiplicity_disj_union, multiplicity_singleton in *.
    destruct (decide (l' = l)) as [->|]; [rewrite lookup_insert_eq|rewrite lookup_insert_ne by done];
      [rewrite Hsl in Hσ|]; lia.
  - exists (if decide (n = 1%positive) then delete l σ else <[l := Pos.pred n]> σ), (H ∖ {[+ l +]}).
    split_and!; [by destruct n|done|]. intros l'. specialize (Hσ l').
    rewrite !multiplicity_disj_union, multiplicity_difference, multiplicity_singleton in *.
    destruct (decide (l' = l)) as [->|], (decide (n = 1%positive)) as [->|];
      rewrite ?lookup_insert_eq, ?lookup_delete_eq;
      rewrite ?lookup_insert_ne, ?lookup_delete_ne by done; [rewrite Hsl in Hσ..| |]; lia.
Qed.

Lemma all_handles_move (Hs : list (gmultiset N)) i j A B A' B' :
  i ≠ j → Hs !! i = Some A → Hs !! j = Some B → A' ⊎ B' = A ⊎ B →
  all_handles id (<[j := B']> (<[i := A']> Hs)) = all_handles id Hs.
Proof.
  intros Hij Hi Hj Heq.
  pose proof (all_handles_insert id (<[i := A']> Hs) j B B') as H1.
  pose proof (all_handles_delete id (<[i := A']> Hs) j B) as H2.
  rewrite list_lookup_insert_ne in H1, H2 by done.
  pose proof (all_handles_insert id Hs i A A' Hi) as H3.
  pose proof (all_handles_delete id Hs i A Hi) as H4.
  specialize (H1 Hj). specialize (H2 Hj). cbn [id] in *. clear Hi Hj Hij. multiset_solver.
Qed.

Lemma api_call_idle t H c' ops :
  thread_inv t H → th_pending t = [] → api_call (th_client t) ops c' →
  thread_inv (mkThread c' ops) H.
Proof.
  intros [He Hi] Hp Hc. rewrite Hp in He. injection He as ->.
  apply api_call_exec in Hc as [? ?]; [|done]. done.
Qed.

Lemma owners_step_inv o o' : owners_inv o → owners_step o o' → owners_inv o'.
Proof.
  intros (Hs & Ht & Hσ) Hstep. cbn in *.
  destruct Hstep as [σ ts i c ops c' Hi Hc|σ ts i c op ops σ' Hi Ha|σ ts i ms ss m Hi Hf
                    |σ ts i j ms ss ms' ss' k m Hij Hi Hj Hk|σ ts i j ms ss ms' ss' k s Hij Hi Hj Hk];
    cbn in *; destruct (Forall2_lookup_l _ _ _ _ _ Ht Hi) as (H & HH & Hinv).
  - exists Hs. split; [|done]. rewrite <- (list_insert_id Hs i H HH).
    apply Forall2_insert; [done|]. by eapply api_call_idle.
  - destruct Hinv as [He Hc]. cbn in He, Hc. rewrite (all_handles_delete _ Hs i H HH) in Hσ.
    destruct (run_arc_exec _ _ _ _ _ _ Hσ He) as (σ1 & H1 & Ha' & He' & Hσ1).
    rewrite Ha in Ha'. injection Ha' as <-. exists (<[i := H1]> Hs).
    split; [by apply Forall2_insert|]. by rewrite (all_handles_insert _ Hs i H _ HH).
  - destruct Hinv as [He Hc]. injection He as ->. exists (<[i := client_handles (mkClient (m :: ms) ss)]> Hs).
    split; [by apply Forall2_insert|]. cbn [fst]. rewrite (all_handles_insert _ Hs i _ _ HH).
    rewrite (all_handles_delete _ Hs i _ HH) in Hσ. intros l. specialize (Hσ l). cbn [id] in *.
    unfold client_handles in *. cbn [cl_modules cl_sets all_handles] in *.
    rewrite !multiplicity_disj_union, multiplicity_singleton in *.
    destruct (decide (l = arc m)) as [->|].
    + rewrite lookup_insert_eq. rewrite Hf in Hσ. lia.
    + rewrite lookup_insert_ne by done. lia.
  - destruct Hinv as [He Hc]. injection He as ->.
    destruct (Forall2_lookup_l _ _ _ _ _ Ht Hj) as (H' & HH' & He' & Hc'). injection He' as ->.
    eexists. split.
    { apply Forall2_insert; [apply Forall2_insert; [done|]|]; by split. }
    erewrite all_handles_move; [exact Hσ|done|exact HH|exact HH'|].
    unfold client_handles. cbn [cl_modules cl_sets th_client all_handles].
    rewrite (all_handles_delete _ ms k m Hk). multiset_solver.
  - destruct Hinv as [He Hc]. injection He as ->.
    destruct (Forall2_lookup_l _ _ _ _ _ Ht Hj) as (H' & HH' & He' & Hc'). injection He' as ->.
    unfold client_inv in *. cbn in Hc, Hc'. eexists. split.
    { apply Forall2_insert; [apply Forall2_insert; [done|]|]; (split; [done|]); unfold client_inv; cbn.
      - by apply Forall_delete.
      - constructor; [exact (Forall_lookup_1 _ _ _ _ Hc Hk)|done]. }
    erewrite all_handles_move; [exact Hσ|done|exact HH|exact HH'|].
    unfold client_handles. cbn [cl_modules cl_sets th_client all_handles].
    rewrite (all_handles_delete _ ss k s Hk). multiset_solver.
Qed.

Lemma owners_reachable_inv n o : owners_reachable n o → owners_inv o.
Proof.
  induction 1 as [|o o' _ IH Hstep]; [|by eapply owners_step_inv].
  exists (replicate n ∅). cbn [owners_init fst snd]. split.
  - apply Forall2_replicate. split; [|by apply Forall_nil].
    by cbn [exec th_pending th_client].
  - intros l. rewrite lookup_empty. induction n as [|n IH]; [done|].
    cbn [replicate all_handles id]. by rewrite multiplicity_disj_union, IH.
Qed.

(** The allocation of [m], and with it the sections it owns, has not been freed. *)
Definition arc_alive (σ : Counts) (m : ModuleData) : Prop := is_Some (σ !! arc m).

#[export] Instance alive_dec σ m : Decision (arc_alive σ m).
Proof. unfold arc_alive. apply _. Defined.

Lemma thread_handle_alive n σ ts i c l :
  owners_reachable n (σ, ts) → ts !! i = Some (mkThread c []) → l ∈ client_handles c →
  is_Some (σ !! l).
Proof.
  intros (Hs & Ht & Hσ)%owners_reachable_inv Hi Hl. cbn in *.
  destruct (Forall2_lookup_l _ _ _ _ _ Ht Hi) as (H & HH & He & _). injection He as ->.
  specialize (Hσ l). rewrite (all_handles_delete _ Hs i _ HH), multiplicity_disj_union in Hσ.
  pose proof (proj1 (elem_of_multiplicity _ _) Hl). cbn [id] in Hσ.
  destruct (σ !! l); [done|lia].
Qed.

Lemma handles_module s k m : bt_get k (modules s) = Some m → arc m ∈ handles s.
Proof.
  intros Hg%bt_get_values%(value_handles_elem arc). unfold handles. multiset_solver.
Qed.
Lemma handles_redirect s k e : bt_get k (redirects s) = Some e → entry_arc e ∈ handles s.
Proof.
  intros Hg%bt_get_values%(value_handles_elem entry_arc). unfold handles. multiset_solver.
Qed.
Lemma client_handles_set c s l : s ∈ cl_sets c → l ∈ handles s → l ∈ client_handles c.
Proof.
  intros Hs Hl. unfold client_handles. rewrite gmultiset_elem_of_disj_union. right.
  by eapply all_handles_elem.
Qed.

(** C7: the raw section pointers never dangle, although threads share modules,
    clone and drop handles and unwinders, and add and remove modules in any
    interleaving of their reference-count operations: no thread ever clones or
    drops a freed module; between calls, every module a thread can look up, and
    the owner of every section its fast path reads, is alive; and when all calls
    are over, the strong count of a module is the number of handles and registry
    entries that refer to it, so memory is freed exactly when the last is gone. *)
Theorem sections_outlive_readers (n : nat) (σ : Counts) (ts : list Thread) :
  owners_reachable n (σ, ts) →
  (∀ i c op ops, ts !! i = Some (mkThread c (op :: ops)) → ∃ σ', run_arc op σ = Ok σ') ∧
  (∀ i c, ts !! i = Some (mkThread c []) →
     (∀ m, m ∈ cl_modules c → arc_alive σ m) ∧
     ∀ s a, s ∈ cl_sets c →
       (∀ m, find_module s a = Some m → arc_alive σ m) ∧
       (∀ p, lookup_local s a = Some p →
          ∃ m sec off, arc_alive σ m ∧ sec ∈ local_sections m ∧ p = ptr_add (local_ptr sec) off)) ∧
  (Forall (λ t, th_pending t = []) ts →
     ∀ l, multiplicity l (all_handles (λ t, client_handles (th_client t)) ts) =
          match σ !! l with Some n => Pos.to_nat n | None => 0%nat end).
Proof.
  intros Hr. pose proof (owners_reachable_inv _ _ Hr) as (Hs & Ht & Hσ). cbn in Ht, Hσ. split_and!.
  - intros i c op ops Hi. destruct (Forall2_lookup_l _ _ _ _ _ Ht Hi) as (H & HH & He & _).
    rewrite (all_handles_delete _ Hs i H HH) in Hσ.
    destruct (run_arc_exec _ _ _ _ _ _ Hσ He) as (σ' & _ & Ha & _). by exists σ'.
  - intros i c Hi. split.
    + intros m Hm. apply (thread_handle_alive n σ ts i c); [done|done|]. unfold client_handles.
      rewrite gmultiset_elem_of_disj_union. left. eapply all_handles_elem; [done|multiset_solver].
    + intros s a Hin. destruct (Forall2_lookup_l _ _ _ _ _ Ht Hi) as (H & _ & _ & Hc).
      destruct (proj1 (Forall_forall _ _) Hc s Hin) as (Hm & Hrd & Ho). split.
      * intros m. unfold find_module. destruct (bt_floor a (modules s)) as [[k m']|] eqn:Hf; [|done].
        cbn. destruct (_ && _); [intros [= ->]|done]. apply bt_floor_some in Hf as [Hg _]; [|done].
        apply (thread_handle_alive n σ ts i c); [done|done|].
        eapply client_handles_set; [done|by eapply handles_module].
      * intros p. unfold lookup_local. destruct (bt_floor a (redirects s)) as [[k e]|] eqn:Hf; [|done].
        cbn. destruct (_ && _); [intros [= <-]|done]. apply bt_floor_some in Hf as [Hg _]; [|done].
        exists (owner e), (section e), (a - sec_avma_start (section e)). split_and!; [|by eapply Ho|done].
        apply (thread_handle_alive n σ ts i c); [done|done|].
        eapply client_handles_set; [done|by eapply handles_redirect].
  - intros Hidle l. rewrite <- (Hσ l). f_equal. clear Hσ Hr. revert Hidle.
    induction Ht as [|t H ts' Hs' [He _] _ IH]; intros Hidle; [done|].
    inversion Hidle as [|? ? Hp Hidle']; subst. cbn [all_handles id]. rewrite IH by done.
    rewrite Hp in He. by injection He as ->.
Qed.

(** ** Two threads share a module

    Thread 0 builds a module and sends a clone to thread 1, which registers it
    while thread 0 drops its handle. *)
Definition idle (ms : list ModuleData) (ss : list ModuleSet) : Thread := mkThread (mkClient ms ss) [].
Definition shared_state : Owners :=
  ({[ arc demo_a := 2%positive ]}, [idle [] []; idle [] [add new demo_a]]).

(** [reach H step o]: one more step leads to [o]. *)
Ltac reach H step o :=
  let H' := fresh "Hr" in
  assert (owners_reachable 2 o) as H' by exact (owners_next 2 _ _ H step); clear H; rename H' into H.

Definition counted (k : positive) : Counts := {[ arc demo_a := k ]}.
Definition cloning (ms : list ModuleData) (ss : list ModuleSet) : Thread :=
  mkThread (mkClient ms ss) [ArcClone (arc demo_a)].
Definition dropping : Thread := mkThread (mkClient [] []) [ArcDrop (arc demo_a)].

Lemma shared_reachable : owners_reachable 2 shared_state.
Proof.
  pose proof (owners_start 2) as H.
  reach H (own_build ∅ [idle [] []; idle [] []] 0 [] [] demo_a eq_refl eq_refl)
    (counted 1, [idle [demo_a] []; idle [] []]).
  reach H (own_call (counted 1) [idle [demo_a] []; idle [] []] 0 _ _ _ eq_refl
             (call_clone_module [demo_a] [] 0 demo_a eq_refl))
    (counted 1, [cloning [demo_a; demo_a] []; idle [] []]).
  reach H (own_arc (counted 1) [cloning [demo_a; demo_a] []; idle [] []] 0 _ _ _ (counted 2) eq_refl eq_refl)
    (counted 2, [idle [demo_a; demo_a] []; idle [] []]).
  reach H (own_send_module (counted 2) [idle [demo_a; demo_a] []; idle [] []] 0 1 _ _ _ _ 0 demo_a
             (Nat.neq_0_succ 0) eq_refl eq_refl eq_refl)
    (counted 2, [idle [demo_a] []; idle [demo_a] []]).
  reach H (own_call (counted 2) [idle [demo_a] []; idle [demo_a] []] 1 _ _ _ eq_refl (call_new [demo_a] []))
    (counted 2, [idle [demo_a] []; idle [demo_a] [new]]).
  reach H (own_call (counted 2) [idle [demo_a] []; idle [demo_a] [new]] 0 _ _ _ eq_refl
             (call_drop_module [demo_a] [] 0 demo_a eq_refl))
    (counted 2, [dropping; idle [demo_a] [new]]).
  reach H (own_call (counted 2) [dropping; idle [demo_a] [new]] 1 _ _ _ eq_refl
             (call_add [demo_a] [new] 0 new 0 demo_a eq_refl eq_refl))
    (counted 2, [dropping; cloning [] [add new demo_a]]).
  reach H (own_arc (counted 2) [dropping; cloning [] [add new demo_a]] 1 _ _ _ (counted 3) eq_refl eq_refl)
    (counted 3, [dropping; idle [] [add new demo_a]]).
  exact (owners_next 2 _ _ H (own_arc (counted 3) [dropping; idle [] [add new demo_a]] 0 _ _ _ (counted 2)
                                eq_refl eq_refl)).
Qed.

Lemma sections_outlive_readers_witness :
  find_module (add new demo_a) 4096 = Some demo_a ∧ arc_alive shared_state.1 demo_a.
Proof.
  split; [vm_compute; reflexivity|].
  destruct (sections_outlive_readers 2 _ _ shared_reachable) as (_ & Halive & _).
  destruct (Halive 1%nat (mkClient [] [add new demo_a]) eq_refl) as [_ Hs].
  destruct (Hs (add new demo_a) 4096 (list_elem_of_here _ _)) as [Hf _].
  apply Hf. vm_compute. reflexivity.
Defined.
