(* ===== verification/Callbacks.v ===== *)
(** * [src/src/callbacks.rs] and [src/src/unwind_ctx.rs]: the libunwind callbacks

    The parsing of one function's unwind information, its cache, and the
    accessors libunwind calls.  A callback is a computation on the [World]: the
    per-call [UnwindCtx] its [arg] points at and the shared heap.  It returns
    the C status together with what it leaves in its out-pointer.  The
    architecture's register file is an interface, [Arch]. *)

From stdpp Require Import gmap.
From S2P Require Import Prelude.
From S2P Require Import BTree.
From S2P Require Import EhFrameTable.
From S2P Require Import Ffi.
From S2P Require Import Errors.
From S2P Require Import Dwarf.
From S2P Require Import DwarfSafety.
From S2P Require Import Modules.
From S2P Require Import ModuleSet.

(** ** Parsing a function's unwind information *)
Section parse_function.
Context `{Profile}.

(** The block that finds the CIE offset of the FDE at [fde_offset]. *)
Definition fde_cie_offset (module : ModuleData) (eh_frame_bytes : list Z) (fde_offset : Z)
    : outcome UnwindInfoError Z :=
  e ← usize_add fde_offset 4;
  len_prefix ← ok_or (slice_get eh_frame_bytes fde_offset e)
                 (FdeLengthPrefixTruncated (name module) fde_offset (len eh_frame_bytes));
  let len32 := le_decode len_prefix in
  '(cie_ptr_pos, cie_ptr_len) ←
    (if len32 =? 0xffffffff then p ← usize_add fde_offset 12; Ok (p, 8)
     else p ← usize_add fde_offset 4; Ok (p, 4));
  e ← usize_add cie_ptr_pos cie_ptr_len;
  cie_ptr_bytes ← ok_or (slice_get eh_frame_bytes cie_ptr_pos e)
                    (CiePointerTruncated (name module) cie_ptr_pos (len eh_frame_bytes));
  let cie_ptr := le_decode cie_ptr_bytes in
  cie_ptr ← ok_or (usize_try_from cie_ptr)
              (CiePointerUnderflow (name module) cie_ptr_pos cie_ptr);
  ok_or (checked_sub cie_ptr_pos cie_ptr)
    (CiePointerUnderflow (name module) cie_ptr_pos cie_ptr).

Definition parse_function_details (module : ModuleData) (ip : Z)
    : outcome UnwindInfoError FunctionDetails :=
  if is_null (eh_frame_local_ptr module) || is_null (eh_frame_hdr_local_ptr module) then
    Err (MissingLocalUnwindSections (name module) ip)
  else
    hdr_bytes ← from_raw_parts (eh_frame_hdr_local_ptr module) (eh_frame_hdr_local_len module);
    hit ← EhFrameTable.lookup (table module) hdr_bytes ip;
    '(_initial_pc, fde_avma) ← ok_or hit (EhFrameHeaderLookupMiss (name module) ip);
    eh_frame_bytes ← from_raw_parts (eh_frame_local_ptr module) (eh_frame_local_len module);
    fde_offset ← ok_or (checked_sub fde_avma (eh_frame_avma module))
                   (FdeOffsetBeforeEhFrame (name module) fde_avma (eh_frame_avma module));
    if len eh_frame_bytes <=? fde_offset then
      Err (FdeOffsetOutOfRange (name module) fde_offset (len eh_frame_bytes))
    else
      cie_offset ← fde_cie_offset module eh_frame_bytes fde_offset;
      cie ← map_err (CieParse (name module) cie_offset)
              (parse_cie eh_frame_bytes cie_offset (eh_frame_avma module));
      fde ← map_err (FdeParse (name module) fde_offset)
              (parse_fde eh_frame_bytes fde_offset (eh_frame_avma module)
                 (mkFdeParseConfig (fde_encoding cie) (lsda_encoding cie) (has_z cie)
                    (Modules.text_base module) (Modules.data_base module)));
      match checked_add (initial_pc fde) (address_range fde) with
      | None => Err (EhFrameHeaderLookupMiss (name module) ip)
      | Some end_ip =>
          if (ip <? initial_pc fde) || (end_ip <=? ip) then
            Err (EhFrameHeaderLookupMiss (name module) ip)
          else
            let cie_info := build_dwarf_cie_info cie fde (eh_frame_avma module) in
            Ok (mkFunctionDetails (initial_pc fde) end_ip cie_info (fde_lsda fde)
                  (personality cie) (signal_frame cie))
      end.

(** ** The function cache *)

(** Stores [cache] behind the mutex of [module]. *)
Definition set_cache (module : ModuleData) (cache : list (Z * FunctionDetails)) (h : Heap)
    : Heap :=
  mkHeap (<[function_cache module := mkCacheCell false cache]> (cells h)) (next_loc h).

(** The first critical section: the cached details covering [ip], if any. *)
Definition cache_lookup (module : ModuleData) (ip : Z)
    : SM Heap UnwindInfoError (option FunctionDetails) :=
  h ← sm_get;
  match lock h module with
  | None => sm_err (FunctionCachePoisoned (name module))
  | Some cache =>
      mret (match bt_floor ip cache with
            | Some (_, details) => if ip <? end_ip details then Some details else None
            | None => None
            end)
  end.

(** The second critical section. *)
Definition cache_insert (module : ModuleData) (details : FunctionDetails)
    : SM Heap UnwindInfoError () :=
  h ← sm_get;
  match lock h module with
  | None => sm_err (FunctionCachePoisoned (name module))
  | Some cache => sm_modify (set_cache module (bt_insert (start_ip details) details cache))
  end.

Definition get_or_parse_function_details (module : ModuleData) (ip : Z)
    : SM Heap UnwindInfoError FunctionDetails :=
  hit ← cache_lookup module ip;
  match hit with
  | Some details => mret details
  | None =>
      details ← sm_lift (parse_function_details module ip);
      _ ← cache_insert module details;
      mret details
  end.
End parse_function.

(** ** The world of a callback *)

(** The architecture's raw registers as the callbacks see them:
    [callbacks::arch::access_reg] with the status, the content of [val]
    afterwards and the registers, and the register number libunwind knows the
    instruction pointer by ([ffi::reg_ip]). *)
Class Arch : Type := {
  RawRegs : Type;
  arch_access_reg : RawRegs → Z → Z → Z → Z * Z * RawRegs;
  reg_ip : Z;
}.

(** [UnwindCtx]; [regs_ptr] is the registers it points at, [read_fn] the state
    of the user's closure. *)
Record UnwindCtx (RegsT ReadT : Type) : Type := mkUnwindCtx {
  ctx_modules : ModuleSet;
  regs : RegsT;
  lookup_ip : Z;
  read_state : ReadT;
  last_failed_read_addr : option Z;
  ctx_unwind_info_error : option UnwindInfoError;
}.
Arguments mkUnwindCtx {RegsT ReadT}.
Arguments ctx_modules {RegsT ReadT}.
Arguments regs {RegsT ReadT}.
Arguments lookup_ip {RegsT ReadT}.
Arguments read_state {RegsT ReadT}.
Arguments last_failed_read_addr {RegsT ReadT}.
Arguments ctx_unwind_info_error {RegsT ReadT}.

(** The context and the shared caches. *)
Record World (RegsT ReadT : Type) : Type := mkWorld {
  ctx : UnwindCtx RegsT ReadT;
  heap : Heap;
}.
Arguments mkWorld {RegsT ReadT}.
Arguments ctx {RegsT ReadT}.
Arguments heap {RegsT ReadT}.

Section world.
Context {RegsT ReadT : Type}.
Implicit Type w : World RegsT ReadT.

Definition with_heap h w : World RegsT ReadT := mkWorld (ctx w) h.
Definition with_regs r w : World RegsT ReadT :=
  let c := ctx w in
  mkWorld (mkUnwindCtx (ctx_modules c) r (lookup_ip c) (read_state c)
             (last_failed_read_addr c) (ctx_unwind_info_error c)) (heap w).
Definition with_read_state rs w : World RegsT ReadT :=
  let c := ctx w in
  mkWorld (mkUnwindCtx (ctx_modules c) (regs c) (lookup_ip c) rs
             (last_failed_read_addr c) (ctx_unwind_info_error c)) (heap w).
Definition with_failed_read a w : World RegsT ReadT :=
  let c := ctx w in
  mkWorld (mkUnwindCtx (ctx_modules c) (regs c) (lookup_ip c) (read_state c)
             (Some a) (ctx_unwind_info_error c)) (heap w).
Definition with_unwind_info_error e w : World RegsT ReadT :=
  let c := ctx w in
  mkWorld (mkUnwindCtx (ctx_modules c) (regs c) (lookup_ip c) (read_state c)
             (last_failed_read_addr c) (Some e)) (heap w).
End world.

(** ** The callbacks *)
Section callbacks.
Context `{Profile} `{Arch} {ReadT : Type}.
(** The user's [FnMut(u64) -> Result<u64, ()>]. *)
Context (read_fn : ReadT → Z → option Z * ReadT).

(** Callbacks cannot return a Rust error. *)
Abbreviation CB := (SM (World RawRegs ReadT) Empty_set).

(** The fields [find_proc_info] fills in; the pointer to the cached
    [DwarfCieInfo] is the structure it points at. *)
Definition fill_proc_info (details : FunctionDetails) : UnwProcInfo :=
  mkUnwProcInfo (start_ip details) (end_ip details) (fd_lsda details) (fd_handler details)
    0 0 UNW_INFO_FORMAT_REMOTE_TABLE size_of_DwarfCieInfo (Some (cie_info details)).

Definition find_proc_info (_ip : Z) (pi : UnwProcInfo) (_need_unwind_info : Z)
    : CB (Z * UnwProcInfo) := λ w,
  let ip := lookup_ip (ctx w) in
  match find_module (ctx_modules (ctx w)) ip with
  | None => (Ok (- UNW_ENOINFO, pi), with_unwind_info_error (ModuleNotFound ip) w)
  | Some module =>
      match get_or_parse_function_details module ip (heap w) with
      | (Ok details, h) => (Ok (UNW_ESUCCESS, fill_proc_info details), with_heap h w)
      | (Err err, h) =>
          (Ok (- UNW_ENOINFO, pi), with_unwind_info_error err (with_heap h w))
      | (Panic, h) => (Panic, with_heap h w)
      | (UB, h) => (UB, with_heap h w)
      | (NoFuel, h) => (NoFuel, with_heap h w)
      end
  end.

Definition put_unwind_info (_pi : UnwProcInfo) : CB () := mret ().

Definition get_dyn_info_list_addr (val : Z) : CB (Z * Z) := mret (- UNW_ENOINFO, val).

Definition access_mem (addr val write : Z) : CB (Z * Z) :=
  if negb (write =? 0) then mret (- UNW_EINVAL, val)
  else
    w ← sm_get;
    match lookup_local (ctx_modules (ctx w)) addr with
    | Some local_ptr =>
        bytes ← sm_lift (from_raw_parts local_ptr 8);
        mret (UNW_ESUCCESS, le_decode bytes)
    | None =>
        let '(r, rs) := read_fn (read_state (ctx w)) addr in
        _ ← sm_modify (with_read_state rs);
        match r with
        | Some v => mret (UNW_ESUCCESS, v)
        | None => _ ← sm_modify (with_failed_read addr); mret (- UNW_EINVAL, val)
        end
    end.

Definition access_reg (reg val write : Z) : CB (Z * Z) :=
  w ← sm_get;
  let '(ret, val', regs') := arch_access_reg (regs (ctx w)) reg val write in
  _ ← sm_modify (with_regs regs');
  mret (ret, val').

Definition access_fpreg (_reg : Z) (val : Z * Z) (_write : Z) : CB (Z * (Z * Z)) :=
  mret (- UNW_EBADREG, val).
End callbacks.

(** ** Lemmas: parsing *)
Section parse_lemmas.
Context `{Profile}.

Lemma from_raw_parts_as_ptr {E} bytes : from_raw_parts (E:=E) (as_ptr bytes) (len bytes) = Ok bytes.
Proof.
  unfold from_raw_parts, as_ptr. pose proof (len_nonneg bytes).
  rewrite (proj2 (andb_true_iff _ _)) by (rewrite andb_true_iff; lia).
  rewrite to_nat_len. simpl. by rewrite firstn_all.
Qed.

(** A local section with a non-null pointer is its bytes. *)
Lemma local_ok_bytes p n :
  local_ok p n → is_null p = false →
  ∃ bytes, bytes_ok bytes ∧ n = len bytes ∧ ∀ E, from_raw_parts (E:=E) p n = Ok bytes.
Proof.
  intros [[-> _]|(b & Hb & -> & ->)] Hn; [done|]. exists b.
  split_and!; [done|done|]. intros. apply from_raw_parts_as_ptr.
Qed.

Lemma lookup_returns {E} t hdr ip :
  len hdr ≤ isize_max → 0 ≤ table_data_offset t → 0 ≤ entry_count t →
  (entry_count t ≠ 0 → table_data_offset t + 8 * entry_count t ≤ len hdr) →
  ∃ r, EhFrameTable.lookup (E:=E) t hdr ip = Ok r.
Proof.
  intros Hl Ho Hn Hfit. destruct (decide (entry_count t = 0)) as [Hz|Hz].
  - unfold EhFrameTable.lookup. rewrite Hz. simpl. eauto.
  - destruct (lookup_cases (E:=E) t hdr ip) as (r & e & _ & _ & -> & _); [lia..|]. eauto.
Qed.

Lemma le_decode_slice_u64 bs a n l :
  Forall is_u8 bs → 0 ≤ a → 0 ≤ n ≤ 8 → slice_get bs a (a + n) = Some l → is_u64 (le_decode l).
Proof.
  intros Hb Ha Hn Hs. pose proof (le_decode_bounds l (slice_get_forall _ _ _ _ _ Hb Hs)) as Hd.
  apply slice_get_len in Hs as [_ Hl]; [|done]. unfold is_u. split; [lia|].
  eapply Z.lt_le_trans; [apply Hd|]. apply Z.pow_le_mono_r; lia.
Qed.

(** The read of the CIE pointer at [p]. *)
Lemma cie_ptr_cases module bs p n :
  bytes_ok bs → 0 ≤ p ≤ len bs + 12 → n = 4 ∨ n = 8 →
  match
    (e ← usize_add p n;
     cie_ptr_bytes ← ok_or (slice_get bs p e) (CiePointerTruncated (name module) p (len bs));
     let cie_ptr := le_decode cie_ptr_bytes in
     cie_ptr ← ok_or (usize_try_from cie_ptr) (CiePointerUnderflow (name module) p cie_ptr);
     ok_or (checked_sub p cie_ptr) (CiePointerUnderflow (name module) p cie_ptr))
  with
  | Ok c => 0 ≤ c ≤ len bs
  | Err _ => True
  | _ => False
  end.
Proof.
  intros [Hb Hl] Hp Hn. unfold isize_max in Hl.
  rewrite usize_add_ok by (unfold usize_max; lia). run.
  destruct (slice_get bs p (p + n)) as [l|] eqn:Hs; simpl; [|done].
  pose proof (le_decode_slice_u64 bs p n l Hb ltac:(lia) ltac:(lia) Hs) as Hu.
  apply slice_get_len in Hs as [Hs _]; [|lia].
  rewrite usize_try_from_u64 by done. simpl.
  destruct (checked_sub p (le_decode l)) as [c|] eqn:Hc; simpl; [|done].
  apply checked_sub_some in Hc as [-> Hc]. unfold is_u in Hu. lia.
Qed.

Lemma fde_cie_offset_cases module bs off :
  bytes_ok bs → 0 ≤ off < len bs →
  match fde_cie_offset module bs off with
  | Ok c => 0 ≤ c ≤ len bs
  | Err _ => True
  | _ => False
  end.
Proof.
  intros Hbs Hoff. pose proof Hbs as [Hb Hl]. unfold isize_max in Hl. unfold fde_cie_offset.
  rewrite !usize_add_ok by (unfold usize_max; lia). run.
  destruct (slice_get bs off (off + 4)) as [l|]; [|done]. cbn [ok_or]. run.
  destruct (le_decode l =? 0xffffffff); run.
  - apply (cie_ptr_cases module bs (off + 12) 8); [done|lia|by right].
  - apply (cie_ptr_cases module bs (off + 4) 4); [done|lia|by left].
Qed.

(** The parser's contract on a well-formed module: no undefined behaviour,
    and a success covers [ip]. *)
Lemma parse_function_details_cases module ip :
  module_ok module →
  match parse_function_details module ip with
  | Ok d => start_ip d ≤ ip < end_ip d ∧ 0 ≤ start_ip d ∧ end_ip d ≤ u64_max
  | Err _ => True
  | Panic => overflow_checks = true
  | UB | NoFuel => False
  end.
Proof.
  intros (_ & Hh & He & Ha & Ht & Hc & Hfit). unfold parse_function_details.
  destruct (is_null (eh_frame_local_ptr module)) eqn:Hne; [done|].
  destruct (is_null (eh_frame_hdr_local_ptr module)) eqn:Hnh; [done|]. cbn [orb].
  destruct (local_ok_bytes _ _ Hh Hnh) as (hb & [_ Hhl] & Hhn & ->). run.
  rewrite Hhn in Hfit.
  destruct (lookup_returns (E:=UnwindInfoError) (table module) hb ip Hhl Ht (proj1 Hc) Hfit)
    as [r ->]. run.
  destruct r as [[pc fde_avma]|]; [|done]. cbn [ok_or]. run.
  destruct (local_ok_bytes _ _ He Hne) as (bs & Hbs & _ & ->). run.
  destruct (checked_sub fde_avma (eh_frame_avma module)) as [off|] eqn:Hs; [|done].
  apply checked_sub_some in Hs as [Heq Hs]. cbn [ok_or]. run.
  destruct (Z.leb_spec (len bs) off) as [|Hoff]; [done|].
  pose proof (fde_cie_offset_cases module bs off Hbs ltac:(lia)) as Hco.
  destruct (fde_cie_offset module bs off) as [co| | | |]; try done. run.
  pose proof (parse_cie_cases bs (eh_frame_avma module) Hbs co Hco) as Hcie.
  destruct (parse_cie bs co (eh_frame_avma module)) as [cie| | | |]; try done.
  cbn [map_err]. run. set (cfg := mkFdeParseConfig _ _ _ _ _).
  pose proof (parse_fde_cases bs (eh_frame_avma module) Hbs off cfg ltac:(lia)) as Hfde.
  destruct (parse_fde bs off (eh_frame_avma module) cfg) as [fde| | | |]; try done.
  cbn [map_err]. run. destruct Hfde as [[Hpc _] _].
  destruct (checked_add _ _) as [e|] eqn:Hadd; [|done]. apply checked_add_some in Hadd as [Ha1 Ha2].
  destruct (Z.ltb_spec ip (initial_pc fde)); [done|].
  destruct (Z.leb_spec e ip); [done|]. simpl. lia.
Qed.
End parse_lemmas.

(** ** The cache invariant

    Every cached entry is keyed by its start and is the result of parsing the
    module for some address. *)
Section cache.
Context `{Profile}.

Definition covers (d : FunctionDetails) (ip : Z) : Prop := start_ip d ≤ ip < end_ip d.

Definition cache_map_ok (m : ModuleData) (cache : list (Z * FunctionDetails)) : Prop :=
  bt_wf cache ∧
  ∀ k d, bt_get k cache = Some d →
    k = start_ip d ∧ ∃ ip, covers d ip ∧ parse_function_details m ip = Ok d.

Definition cache_ok (m : ModuleData) (h : Heap) : Prop :=
  ∃ cache, lock h m = Some cache ∧ cache_map_ok m cache.

Lemma lock_set_cache h m cache : lock (set_cache m cache h) m = Some cache.
Proof. unfold lock, set_cache. simpl. by rewrite lookup_insert_eq. Qed.

Lemma lock_set_cache_ne h m m' cache :
  function_cache m ≠ function_cache m' → lock (set_cache m cache h) m' = lock h m'.
Proof. intros. unfold lock, set_cache. simpl. by rewrite lookup_insert_ne. Qed.

Lemma parse_covers m ip d :
  module_ok m → parse_function_details m ip = Ok d → covers d ip.
Proof.
  intros Hm Hp. pose proof (parse_function_details_cases m ip Hm) as Hc.
  rewrite Hp in Hc. apply Hc.
Qed.

Lemma cache_map_insert m cache ip d :
  module_ok m → cache_map_ok m cache → parse_function_details m ip = Ok d →
  cache_map_ok m (bt_insert (start_ip d) d cache).
Proof.
  intros Hm [Hwf Hc] Hp. split; [by apply bt_insert_wf|]. intros k d'.
  destruct (decide (start_ip d = k)) as [<-|].
  - rewrite bt_get_insert_eq. intros [= <-]. split; [done|]. exists ip.
    split; [by eapply parse_covers|done].
  - rewrite bt_get_insert_ne by done. apply Hc.
Qed.

(** A hit covers the address it was asked for. *)
Lemma cache_lookup_cases m ip h cache :
  lock h m = Some cache → cache_map_ok m cache →
  ∃ r, cache_lookup m ip h = (Ok r, h) ∧
    ∀ d, r = Some d → covers d ip ∧ bt_floor ip cache = Some (start_ip d, d) ∧
         bt_get (start_ip d) cache = Some d ∧
         ∃ ip', covers d ip' ∧ parse_function_details m ip' = Ok d.
Proof.
  intros Hl [Hwf Hc]. unfold cache_lookup, mbind, sm_bind, sm_get. rewrite Hl. eexists. split; [done|].
  intros d Hd. destruct (bt_floor ip cache) as [[k d']|] eqn:Hf; [|done].
  destruct (Z.ltb_spec ip (end_ip d')); simplify_eq. pose proof Hf as Hf'.
  apply bt_floor_some in Hf' as (Hg & Hle & _); [|done].
  destruct (Hc _ _ Hg) as [-> Hex]. by split_and!.
Qed.

(** [get_or_parse_function_details] on a well-formed cache. *)
Lemma get_or_parse_cases m ip h cache :
  module_ok m → lock h m = Some cache → cache_map_ok m cache →
  match get_or_parse_function_details m ip h with
  | (Ok d, h') =>
      covers d ip ∧ (∃ ip', covers d ip' ∧ parse_function_details m ip' = Ok d) ∧
      ((h' = h ∧ bt_floor ip cache = Some (start_ip d, d)) ∨
       (parse_function_details m ip = Ok d ∧ cache_lookup m ip h = (Ok None, h) ∧
        h' = set_cache m (bt_insert (start_ip d) d cache) h))
  | (Err e, h') => h' = h ∧ parse_function_details m ip = Err e
  | (Panic, h') => h' = h ∧ parse_function_details m ip = Panic
  | (UB, _) | (NoFuel, _) => False
  end.
Proof.
  intros Hm Hl Hc. unfold get_or_parse_function_details.
  destruct (cache_lookup_cases m ip h cache Hl Hc) as (r & Hr & Hd).
  unfold mbind, sm_bind. rewrite Hr. destruct r as [d|].
  { destruct (Hd d eq_refl) as (? & ? & ? & ?). split_and!; auto. }
  pose proof (parse_function_details_cases m ip Hm) as Hp. unfold sm_lift.
  destruct (parse_function_details m ip) as [d| | | |] eqn:Hpd; try done.
  unfold cache_insert, mbind, sm_bind, sm_get, sm_modify. rewrite Hl. simpl.
  assert (covers d ip) by apply Hp. split_and!; eauto 10.
Qed.

(** The heap of caches of a whole registry. *)
Definition caches_ok (s : ModuleSet) (h : Heap) : Prop :=
  (∀ m1 m2, registered s m1 → registered s m2 →
     function_cache m1 = function_cache m2 → m1 = m2) ∧
  ∀ m, registered s m → cache_ok m h.

Lemma get_or_parse_caches_ok s h m ip d h' :
  set_wf s → caches_ok s h → registered s m →
  get_or_parse_function_details m ip h = (Ok d, h') → caches_ok s h' ∧ covers d ip.
Proof.
  intros Hwf [Hinj Hok] Hm Hg. destruct (Hok m Hm) as (cache & Hl & Hc).
  assert (module_ok m) as Hmok by by eapply registered_ok.
  pose proof (get_or_parse_cases m ip h cache Hmok Hl Hc) as Hcs. rewrite Hg in Hcs.
  destruct Hcs as (Hcov & _ & [[-> _]|(Hp & _ & ->)]); [by split|]. split; [|done].
  split; [done|]. intros m' Hm'. destruct (decide (function_cache m = function_cache m')).
  - rewrite <- (Hinj m m') by done. eexists. split; [apply lock_set_cache|].
    by eapply cache_map_insert.
  - destruct (Hok m' Hm') as (cache' & Hl' & Hc'). exists cache'.
    by rewrite lock_set_cache_ne.
Qed.

(** ** Headers that match their FDEs

    The header's table is sorted, an FDE reached through it starts where its
    entry says, and ends at the next entry at the latest. *)
Definition table_matches_fdes (m : ModuleData) : Prop :=
  ∃ hdr, from_raw_parts (E:=()) (eh_frame_hdr_local_ptr m) (eh_frame_hdr_local_len m) = Ok hdr ∧
    table_sorted (hdr_table (table m) hdr) ∧
    ∀ ip d, parse_function_details m ip = Ok d →
      ∃ i e, hdr_table (table m) hdr !! i = Some e ∧ start_ip d = e.1 ∧
        ∀ e', hdr_table (table m) hdr !! S i = Some e' → end_ip d ≤ e'.1.

(** Addresses that find the same entry and lie in its function parse to the
    same details. *)
Lemma parse_same_entry m hdr ip ip' d :
  from_raw_parts (E:=UnwindInfoError) (eh_frame_hdr_local_ptr m) (eh_frame_hdr_local_len m)
    = Ok hdr →
  EhFrameTable.lookup (E:=UnwindInfoError) (table m) hdr ip =
  EhFrameTable.lookup (table m) hdr ip' →
  parse_function_details m ip = Ok d → covers d ip' → parse_function_details m ip' = Ok d.
Proof.
  intros Hh Hl. unfold parse_function_details. destruct (_ || _); [done|].
  rewrite Hh. run. rewrite Hl.
  destruct (EhFrameTable.lookup (table m) hdr ip') as [[[pc fa]|]| | | |]; try done.
  orun. destruct (from_raw_parts (eh_frame_local_ptr m) _); try done. run.
  destruct (checked_sub fa (eh_frame_avma m)); orun; [|done].
  destruct (_ <=? _); [done|].
  destruct (fde_cie_offset m _ _); try done. run.
  destruct (parse_cie _ _ _) as [cie| | | |]; try done. orun.
  destruct (parse_fde _ _ _ _) as [fde| | | |]; try done. orun.
  destruct (checked_add _ _) as [e|]; [|done]. destruct (_ || _); [done|]. intros [= <-].
  unfold covers. simpl. intros [H1 H2].
  destruct (Z.ltb_spec ip' (initial_pc fde)); [lia|]. by destruct (Z.leb_spec e ip'); [lia|].
Qed.

Lemma parse_entry_unique m hdr ip ip' d d' :
  from_raw_parts (E:=UnwindInfoError) (eh_frame_hdr_local_ptr m) (eh_frame_hdr_local_len m)
    = Ok hdr →
  EhFrameTable.lookup (E:=UnwindInfoError) (table m) hdr ip =
  EhFrameTable.lookup (table m) hdr ip' →
  parse_function_details m ip = Ok d → parse_function_details m ip' = Ok d' → d = d'.
Proof.
  intros Hh Hl. unfold parse_function_details. destruct (_ || _); [done|].
  rewrite Hh. run. rewrite Hl.
  destruct (EhFrameTable.lookup (table m) hdr ip') as [[[pc fa]|]| | | |]; try done.
  orun. destruct (from_raw_parts (eh_frame_local_ptr m) _); try done. run.
  destruct (checked_sub fa (eh_frame_avma m)); orun; [|done].
  destruct (_ <=? _); [done|].
  destruct (fde_cie_offset m _ _); try done. run.
  destruct (parse_cie _ _ _) as [cie| | | |]; try done. orun.
  destruct (parse_fde _ _ _ _) as [fde| | | |]; try done. orun.
  destruct (checked_add _ _) as [e|]; [|done].
  destruct (_ || _); [done|]. intros [= <-]. destruct (_ || _); [done|]. by intros [= <-].
Qed.

Lemma parse_lookup_miss m hdr ip d :
  from_raw_parts (E:=UnwindInfoError) (eh_frame_hdr_local_ptr m) (eh_frame_hdr_local_len m)
    = Ok hdr →
  parse_function_details m ip = Ok d →
  EhFrameTable.lookup (E:=UnwindInfoError) (table m) hdr ip ≠ Ok None.
Proof.
  intros Hh Hp Hl. unfold parse_function_details in Hp. destruct (_ || _); [done|].
  rewrite Hh in Hp. run in Hp. by rewrite Hl in Hp.
Qed.

Lemma from_raw_parts_err {E F} p n bytes :
  from_raw_parts (E:=E) p n = Ok bytes → from_raw_parts (E:=F) p n = Ok bytes.
Proof. unfold from_raw_parts. destruct p; [done|]. case_match; [|done]. by intros [= ->]. Qed.

(** A header with one entry, whose FDE starts where the entry says, matches. *)
Section one_entry.
Context (m : ModuleData) (hdr : list Z) (e : Z * Z) (d : FunctionDetails).
Context (Hh : from_raw_parts (E:=UnwindInfoError) (eh_frame_hdr_local_ptr m)
                (eh_frame_hdr_local_len m) = Ok hdr).
Context (Hl : len hdr ≤ isize_max) (H0 : 0 ≤ table_data_offset (table m)).
Context (Hn : entry_count (table m) = 1) (Hfit : table_data_offset (table m) + 8 ≤ len hdr).
Context (Ht : hdr_table (table m) hdr = [e]) (Hd : parse_function_details m e.1 = Ok d).

(** A module whose table has one entry has one function. *)
Lemma one_entry_unique ip d' : parse_function_details m ip = Ok d' → d' = d.
Proof.
  intros Hp.
  assert (∀ ip, EhFrameTable.lookup (E:=UnwindInfoError) (table m) hdr ip =
                Ok (if ip <? e.1 then None else Some e)) as Hlk.
  { intros ip'. destruct (lookup_cases (E:=UnwindInfoError) (table m) hdr ip')
      as (r & e' & _ & He & Hlk & _); [lia..|].
    rewrite Ht in He. destruct r as [|r]; [|by destruct r]. by injection He as ->. }
  pose proof (parse_lookup_miss _ _ _ _ Hh Hp) as Hmiss. rewrite Hlk in Hmiss.
  apply (parse_entry_unique _ _ ip e.1 d' d Hh); [|done|done].
  rewrite !Hlk, Z.ltb_irrefl. by destruct (ip <? e.1).
Qed.

Lemma one_entry_matches : start_ip d = e.1 → table_matches_fdes m.
Proof.
  intros Hs. exists hdr. split_and!; [by eapply from_raw_parts_err| |].
  - rewrite Ht. intros [|i] [|j] a b; simpl; intros; simplify_eq; lia.
  - intros ip d' ->%one_entry_unique. exists 0%nat, e. rewrite Ht. by split_and!.
Qed.
End one_entry.

Lemma from_raw_parts_len {E} p n bytes :
  from_raw_parts (E:=E) p n = Ok bytes → len bytes = n.
Proof.
  unfold from_raw_parts. destruct p; [done|]. case_match; [|done]. zify_bools.
  intros [= <-]. unfold len in *. rewrite length_take, length_drop. lia.
Qed.

(** With a matching header, the parsed functions do not overlap. *)
Lemma table_unambiguous m ip ip' d :
  module_ok m → table_matches_fdes m →
  parse_function_details m ip = Ok d → covers d ip' → parse_function_details m ip' = Ok d.
Proof.
  intros Hm (hdr & Hh & Hs & Hmatch) Hp Hc.
  destruct (Hmatch _ _ Hp) as (i & e & Hi & Hst & Hnext).
  assert (∀ a, covers d a → EhFrameTable.lookup (E:=UnwindInfoError) (table m) hdr a = Ok (Some e))
    as Hlk.
  { intros a [Ha1 Ha2]. pose proof (from_raw_parts_len _ _ _ Hh) as Hlen.
    destruct Hm as (_ & [[_ Hz]|(b & [_ Hb] & _ & Hz)] & _ & _ & Ho & [Hn _] & Hfit).
    - rewrite lookup_sorted; [|unfold isize_max; lia|done|done|intros; rewrite Hlen; auto|done].
      f_equal. eapply lookup_spec_between; [done|done|lia|]. intros e' He'.
      specialize (Hnext _ He'). lia.
    - rewrite lookup_sorted; [|lia|done|done|intros; rewrite Hlen; auto|done].
      f_equal. eapply lookup_spec_between; [done|done|lia|]. intros e' He'.
      specialize (Hnext _ He'). lia. }
  eapply parse_same_entry; [by eapply from_raw_parts_err| |done|done].
  rewrite !Hlk; [done|done|]. by eapply parse_covers.
Qed.

(** A hit of the cache is what parsing would have returned. *)
Lemma cached_is_parsed m d ip :
  module_ok m → table_matches_fdes m → covers d ip →
  (∃ ip', covers d ip' ∧ parse_function_details m ip' = Ok d) →
  parse_function_details m ip = Ok d.
Proof. intros Hm Ht Hc (ip' & _ & Hp). by eapply table_unambiguous. Qed.

Lemma cache_insert_floor m cache d ip :
  module_ok m → table_matches_fdes m → cache_map_ok m cache →
  parse_function_details m ip = Ok d →
  bt_floor ip (bt_insert (start_ip d) d cache) = Some (start_ip d, d).
Proof.
  intros Hm Ht Hc Hp. pose proof (cache_map_insert m cache ip d Hm Hc Hp) as [Hwf Hc'].
  pose proof (parse_covers m ip d Hm Hp) as Hcov.
  apply bt_floor_some; [done|]. split_and!; [apply bt_get_insert_eq|apply Hcov|].
  intros k d' Hg Hle. destruct (Hc' _ _ Hg) as [-> (ip' & Hcov' & Hp')].
  destruct (decide (start_ip d' ≤ start_ip d)); [done|]. exfalso.
  assert (covers d' (start_ip d')) as Hs' by (unfold covers in *; lia).
  assert (covers d (start_ip d')) as Hs by (unfold covers in *; lia).
  pose proof (table_unambiguous m ip' _ d' Hm Ht Hp' Hs').
  pose proof (table_unambiguous m ip _ d Hm Ht Hp Hs).
  assert (d = d') by congruence. subst. lia.
Qed.
End cache.

(** ** Lemmas: reads of mirrored sections *)

(** Of the mirrored sections that start at or before [a], the one that starts
    last. *)
Definition nearest_section (s : ModuleSet) (a k : Z) (e : RedirectEntry) : Prop :=
  bt_get k (redirects s) = Some e ∧ k ≤ a ∧
  ∀ k', is_Some (bt_get k' (redirects s)) → k' ≤ a → k' ≤ k.

Lemma nearest_floor s a k e :
  bt_wf (redirects s) → nearest_section s a k e ↔ bt_floor a (redirects s) = Some (k, e).
Proof.
  intros Hwf. rewrite bt_floor_some by done. split.
  - intros (Hg & Hk & Hn). split_and!; [done..|]. intros k' v' Hg' Hk'. apply Hn; [by eexists|done].
  - intros (Hg & Hk & Hn). split_and!; [done..|]. intros k' [v' Hg'] Hk'. by eapply Hn.
Qed.

(** Sections end below the top of the address space. *)
Definition below_top (s : ModuleSet) : Prop :=
  ∀ k e, bt_get k (redirects s) = Some e → sec_avma_end (section e) < u64_max.

Lemma lookup_local_inside s a k e :
  set_wf s → below_top s → nearest_section s a k e → a + 8 ≤ sec_avma_end (section e) →
  ∃ bytes, local_ptr (section e) = as_ptr bytes ∧ k + len bytes = sec_avma_end (section e) ∧
    ∃ p, lookup_local s a = Some p ∧
      from_raw_parts (E:=Empty_set) p 8 = Ok (take 8 (drop (Z.to_nat (a - k)) bytes)).
Proof.
  intros Hwf Htop Hn Hfit. pose proof Hwf as (_ & Hwr & _ & Hr).
  pose proof Hn as Hf. apply nearest_floor in Hf; [|done]. destruct Hn as (Hg & Hk & _).
  pose proof (Htop _ _ Hg) as Ht. destruct (Hr _ _ Hg) as [Hks (b & [_ Hlen] & Hp & Hst & Hend)].
  exists b. assert (sec_avma_end (section e) = k + len b) as He.
  { rewrite Hend, <- Hks in *. unfold saturating_add in *. lia. }
  split_and!; [done|lia|]. unfold lookup_local. rewrite Hf. simpl. rewrite <- Hks.
  rewrite (proj2 (Z.leb_le _ _)) by done. simpl.
  rewrite (proj2 (Z.leb_le _ _)) by (unfold saturating_add; lia).
  eexists. split; [done|]. rewrite Hp. simpl.
  by rewrite (proj2 (andb_true_iff _ _)) by (simpl; rewrite ?andb_true_iff; lia).
Qed.

Lemma lookup_local_outside s a :
  set_wf s → below_top s →
  (∀ k e, nearest_section s a k e → sec_avma_end (section e) < a + 8) → lookup_local s a = None.
Proof.
  intros Hwf Htop Hn. pose proof Hwf as (_ & Hwr & _). unfold lookup_local.
  destruct (bt_floor a (redirects s)) as [[k e]|] eqn:Hf; simpl; [|done].
  apply nearest_floor in Hf; [|done]. pose proof (Hn _ _ Hf) as He.
  destruct Hf as [Hg _]. specialize (Htop _ _ Hg).
  destruct (Z.leb_spec (saturating_add a 8) (sec_avma_end (section e))); [|by rewrite andb_false_r].
  unfold saturating_add in *. lia.
Qed.

(** ** Lemmas: the callbacks *)
Section callback_lemmas.
Context `{Profile} `{Arch} {ReadT : Type} (read_fn : ReadT → Z → option Z * ReadT).
Local Abbreviation W := (World RawRegs ReadT).

(** The error [find_proc_info] records for [ip]. *)
Definition lookup_failure (s : ModuleSet) (ip : Z) (e : UnwindInfoError) : Prop :=
  (find_module s ip = None ∧ e = ModuleNotFound ip) ∨
  ∃ m, find_module s ip = Some m ∧ parse_function_details m ip = Err e.

(** The lookup of [ip] panics: the build checks overflows and parsing the
    module that contains [ip] panics. *)
Definition parse_panics (s : ModuleSet) (ip : Z) : Prop :=
  overflow_checks = true ∧
  ∃ m, find_module s ip = Some m ∧ parse_function_details m ip = Panic.

(** What holds between callbacks, whatever libunwind asks: the registry and
    the lookup address are untouched, the caches are well-formed, and a
    recorded failure really happened. *)
Definition world_inv (s : ModuleSet) (ip : Z) (w : W) : Prop :=
  ctx_modules (ctx w) = s ∧ lookup_ip (ctx w) = ip ∧ caches_ok s (heap w) ∧
  (∀ a, last_failed_read_addr (ctx w) = Some a → ∃ rs rs', read_fn rs a = (None, rs')) ∧
  (∀ e, ctx_unwind_info_error (ctx w) = Some e → lookup_failure s ip e).

Context (s : ModuleSet) (ip : Z) (Hwf : set_wf s) (Htop : below_top s).
Local Abbreviation inv := (world_inv s ip).
Local Abbreviation safe := (total (parse_panics s ip) inv).

(** A successful [find_proc_info] describes a function containing the lookup
    address, whose details are in the cache of its module. *)
Definition proc_info_ok (pi : UnwProcInfo) (w : W) : Prop :=
  ∃ m d, find_module s ip = Some m ∧ covers d ip ∧ pi = fill_proc_info d ∧
    ∃ cache, lock (heap w) m = Some cache ∧ bt_get (start_ip d) cache = Some d.

Lemma find_proc_info_safe ip' pi need :
  safe (find_proc_info ip' pi need)
    (λ r w, inv w ∧ ((r.1 = UNW_ESUCCESS ∧ proc_info_ok r.2 w) ∨
                     (r.1 = - UNW_ENOINFO ∧ r.2 = pi ∧ is_Some (ctx_unwind_info_error (ctx w))))).
Proof.
  intros w (Hs & Hip & Hc & Hf & He). unfold find_proc_info. rewrite Hs, Hip.
  destruct (find_module s ip) as [m|] eqn:Hm.
  2: { split; [|by right]. split_and!; try done. simpl. intros e [= <-]. by left. }
  destruct (find_module_some s ip m Hwf Hm) as [Hreg _].
  destruct Hc as [Hinj Hok] eqn:Hceq. destruct (Hok m Hreg) as (cache & Hl & Hcm).
  pose proof (get_or_parse_cases m ip (heap w) cache (registered_ok _ _ Hwf Hreg) Hl Hcm) as Hg.
  destruct (get_or_parse_function_details m ip (heap w)) as [[d|e| | |] h'] eqn:Hgp; try done.
  - destruct (get_or_parse_caches_ok s (heap w) m ip d h' Hwf Hc Hreg Hgp) as [Hc' _].
    split; [by split_and!|]. left. split; [done|]. destruct Hg as (Hcov & _ & Hcase).
    exists m, d. split_and!; [done|done|done|]. destruct Hcase as [[-> Hfl]|(_ & _ & ->)].
    + exists cache. split; [done|]. apply bt_floor_some in Hfl as [? _]; [done|]. apply Hcm.
    + eexists. split; [apply lock_set_cache|]. apply bt_get_insert_eq.
  - destruct Hg as [-> Hp]. split; [|by right]. split_and!; try done. simpl.
    intros e' [= <-]. right. by exists m.
  - destruct Hg as [-> Hp]. pose proof (parse_function_details_cases m ip) as Hpc.
    rewrite Hp in Hpc. split; [apply Hpc; by eapply registered_ok|]. by exists m.
Qed.

Lemma access_mem_safe addr val write :
  safe (access_mem read_fn addr val write)
    (λ r w, inv w ∧ (r.1 = UNW_ESUCCESS ∨ (r.1 = - UNW_EINVAL ∧ r.2 = val))).
Proof.
  intros w (Hs & Hip & Hc & Hf & He). unfold access_mem.
  destruct (write =? 0); simpl; [|split; [by split_and!|by right]].
  unfold mbind, sm_bind, sm_get. rewrite Hs.
  destruct (lookup_local s addr) as [p|] eqn:Hl.
  - destruct (lookup_local_bytes (E:=Empty_set) s addr p Hwf Htop Hl)
      as (k & e & b & _ & _ & _ & _ & _ & Hr).
    unfold sm_lift. rewrite Hr. simpl. split; [by split_and!|by left].
  - destruct (read_fn (read_state (ctx w)) addr) as [[v|] rs] eqn:Hrd; simpl.
    + split; [by split_and!|by left].
    + split; [|by right]. split_and!; try done. simpl. intros a [= <-]. eauto.
Qed.

Lemma access_reg_safe reg val write : safe (access_reg reg val write) (λ _ w, inv w).
Proof.
  intros w (Hs & Hip & Hc & Hf & He). unfold access_reg, mbind, sm_bind, sm_get.
  destruct (arch_access_reg _ _ _ _) as [[r v] rg]. by split_and!.
Qed.
End callback_lemmas.

(** The cache is transparent on a module whose header matches its FDEs. *)
Lemma get_or_parse_transparent `{Profile} m ip h :
  module_ok m → table_matches_fdes m → cache_ok m h →
  (get_or_parse_function_details m ip h).1 = parse_function_details m ip ∧
  cache_ok m (get_or_parse_function_details m ip h).2.
Proof.
  intros Hm Ht (cache & Hl & Hc).
  pose proof (get_or_parse_cases m ip h cache Hm Hl Hc) as Hg.
  destruct (get_or_parse_function_details m ip h) as [[d|e| | |] h'] eqn:Hgp; try done; simpl.
  - destruct Hg as (Hcov & Hex & Hcase). split; [symmetry; by apply cached_is_parsed|].
    destruct Hcase as [[-> _]|(Hp & _ & ->)]; [by exists cache|].
    eexists. split; [apply lock_set_cache|]. by eapply cache_map_insert.
  - destruct Hg as [-> ->]. split; [done|by exists cache].
  - destruct Hg as [-> ->]. split; [done|by exists cache].
Qed.

(** ** Properties *)

(** C24: on every well-formed module and every address,
    [parse_function_details] touches no memory outside the two sections and its
    loops end; a success describes a function that contains the address and
    ends inside the address space, and a panic is possible only in a build with
    overflow checks. *)
Theorem parse_function_details_safe `{Profile} (m : ModuleData) (ip : Z) :
  module_ok m →
  match parse_function_details m ip with
  | Ok d => covers d ip ∧ 0 ≤ start_ip d ∧ end_ip d ≤ u64_max
  | Err _ => True
  | Panic => overflow_checks = true
  | UB | NoFuel => False
  end.
Proof. apply parse_function_details_cases. Qed.

(** C5: the cache is transparent: on a module whose header matches its FDEs,
    looking a function up through any well-formed cache gives exactly what
    parsing gives (errors and panics included), and leaves a well-formed cache. *)
Theorem cache_transparent `{Profile} (m : ModuleData) (ip : Z) (h : Heap) :
  module_ok m → table_matches_fdes m → cache_ok m h →
  (get_or_parse_function_details m ip h).1 = parse_function_details m ip ∧
  cache_ok m (get_or_parse_function_details m ip h).2.
Proof. apply get_or_parse_transparent. Qed.

(** After a successful lookup, [ModuleSet::is_signal_frame] at that address
    reports the signal-frame flag of the function found: the cache entry it
    consults is the one the lookup returned. *)
Theorem is_signal_frame_after_lookup `{Profile} (s : ModuleSet) (m : ModuleData) (ip : Z)
    (h h' : Heap) (d : FunctionDetails) :
  module_ok m → table_matches_fdes m → cache_ok m h → find_module s ip = Some m →
  get_or_parse_function_details m ip h = (Ok d, h') →
  is_signal_frame s h' ip = fd_signal_frame d.
Proof.
  intros Hm Ht (cache & Hl & Hc) Hfm Hgp.
  pose proof (get_or_parse_cases m ip h cache Hm Hl Hc) as Hg. rewrite Hgp in Hg.
  destruct Hg as ([_ Hcov] & _ & Hcase). unfold is_signal_frame. rewrite Hfm.
  destruct Hcase as [[-> Hf]|(Hp & _ & ->)].
  - rewrite Hl, Hf. by rewrite (proj2 (Z.ltb_lt ip _)).
  - rewrite lock_set_cache, (cache_insert_floor m) by done. by rewrite (proj2 (Z.ltb_lt ip _)).
Qed.

(** C27: [find_proc_info], for any registry built by the API and whatever
    libunwind passes, answers for the context's lookup address, not for the
    address asked: with a function containing it whose CIE information is owned
    by the cache of the module found; or with [-UNW_ENOINFO], the out-structure
    untouched and the reason recorded (no module contains the address, or the
    error parsing that module gives); or it panics, in a build with overflow
    checks and only when parsing the module found at that address panics.  It
    has no undefined behaviour and keeps the context invariant. *)
Theorem find_proc_info_contract `{Profile} `{Arch} {ReadT} (read_fn : ReadT → Z → option Z * ReadT)
    (s : ModuleSet) (ip ip' need : Z) (pi : UnwProcInfo) (w : World RawRegs ReadT) :
  reachable s → world_inv read_fn s ip w →
  match find_proc_info ip' pi need w with
  | (Ok (ret, pi'), w') =>
      world_inv read_fn s ip w' ∧
      ((ret = UNW_ESUCCESS ∧ proc_info_ok s ip pi' w') ∨
       (ret = - UNW_ENOINFO ∧ pi' = pi ∧
        ∃ e, ctx_unwind_info_error (ctx w') = Some e ∧ lookup_failure s ip e))
  | (Panic, _) => parse_panics s ip
  | _ => False
  end.
Proof.
  intros Hr Hw. pose proof (find_proc_info_safe read_fn s ip (reachable_wf s Hr) ip' pi need w Hw)
    as Hs. destruct (find_proc_info ip' pi need w) as [[[ret pi']|[]| | |] w']; try done.
  destruct Hs as [Hi [Hs|(? & ? & e & He)]]; (split; [done|]); [by left|]. right.
  split_and!; [done..|]. exists e. split; [done|]. by apply Hi.
Qed.


(** ** A module with one function

    The fixture of the tests of [callbacks.rs]. *)
Definition one_fde_eh_frame : list Z :=
  le_encode 4 9 ++ le_encode 4 0 ++ [1; 0; 1; 0x78; 16]
  ++ le_encode 4 20 ++ le_encode 4 17 ++ le_encode 8 0x1000 ++ le_encode 8 0x10.
Definition one_fde_hdr : list Z :=
  [1; 0x03; 0x03; 0x3b] ++ le_encode 4 0x3000 ++ le_encode 4 1
  ++ le_encode 4 (0x1000 - 0x4000) ++ le_encode 4 (0x3000 + 13 - 0x4000).
Definition one_fde_sections : DwarfModuleSections :=
  mkDwarfModuleSections 0 (Some (mkRange 0x1000 0x2000)) None
    (Some (mkRange 0x3000 (0x3000 + len one_fde_eh_frame))) (Some one_fde_eh_frame)
    (Some (mkRange 0x4000 (0x4000 + len one_fde_hdr))) (Some one_fde_hdr).
Definition one_fde_built : outcome ModuleError (ModuleData * Heap) :=
  from_dwarf_sections (H:=true) "one-fde" (mkRange 0x1000 0x2000) 0 one_fde_sections heap_init.
Definition one_fde_module : ModuleData :=
  mkModuleData "one-fde" (mkRange 0x1000 0x2000) 0
    [mirror 0x4000 one_fde_hdr; mirror 0x3000 one_fde_eh_frame]
    (mkEhFrameTable 12 1 0x4000) (as_ptr one_fde_hdr) (len one_fde_hdr)
    (as_ptr one_fde_eh_frame) (len one_fde_eh_frame) 0x3000 None 0 0x1000 0x4000.
Definition one_fde_heap : Heap := mkHeap {[ 0%N := mkCacheCell false [] ]} 1.
Definition one_fde_details : FunctionDetails :=
  mkFunctionDetails 0x1000 0x1010
    (mkDwarfCieInfo 0x300d 0x300d 0x3025 0x3025 1 (as_u64 (-8)) 16 0 0 0 0 0xff 0) 0 0 false.

Example one_fde_module_built : one_fde_built = Ok (one_fde_module, one_fde_heap).
Proof. vm_compute. reflexivity. Qed.

Example one_fde_details_parsed :
  parse_function_details (H:=true) one_fde_module 0x100f = Ok one_fde_details.
Proof. vm_compute. reflexivity. Qed.

Lemma one_fde_module_ok : module_ok one_fde_module.
Proof.
  assert (bytes_ok one_fde_hdr) by by_compute. assert (bytes_ok one_fde_eh_frame) by by_compute.
  split_and!; try by_compute.
  - repeat constructor; by apply mirror_ok; [by_compute|].
  - by apply local_ok_as_ptr.
  - by apply local_ok_as_ptr.
Qed.

Lemma one_fde_matches : table_matches_fdes (H:=true) one_fde_module.
Proof.
  apply (one_entry_matches (H:=true) _ one_fde_hdr (0x1000, 0x300d) one_fde_details);
    by vm_compute.
Qed.

Lemma one_fde_cache_ok : cache_ok (H:=true) one_fde_module one_fde_heap.
Proof. exists []. split; [by vm_compute|]. by split. Qed.

Lemma parse_function_details_safe_witness :
  covers one_fde_details 0x100f ∧ 0 ≤ start_ip one_fde_details ∧ end_ip one_fde_details ≤ u64_max.
Proof.
  exact (parse_function_details_safe (H:=true) one_fde_module 0x100f one_fde_module_ok).
Defined.

Lemma cache_transparent_witness :
  (get_or_parse_function_details (H:=true) one_fde_module 0x100f one_fde_heap).1 =
  parse_function_details (H:=true) one_fde_module 0x100f ∧
  cache_ok (H:=true) one_fde_module
    (get_or_parse_function_details (H:=true) one_fde_module 0x100f one_fde_heap).2.
Proof.
  apply (cache_transparent (H:=true) one_fde_module 0x100f one_fde_heap
           one_fde_module_ok one_fde_matches one_fde_cache_ok).
Defined.

Definition one_fde_set : ModuleSet := add ModuleSet.new one_fde_module.

Lemma is_signal_frame_after_lookup_witness :
  is_signal_frame one_fde_set
    (get_or_parse_function_details (H:=true) one_fde_module 0x100f one_fde_heap).2 0x100f = false.
Proof.
  apply (is_signal_frame_after_lookup (H:=true) one_fde_set one_fde_module 0x100f one_fde_heap _
           one_fde_details one_fde_module_ok one_fde_matches one_fde_cache_ok);
    by vm_compute.
Defined.
