(* ===== verification/EndToEnd.v ===== *)
(** * From emitted sections to unwind information

    The path from a section written by a toolchain to the details handed to
    libunwind: the header search, the FDE's back pointer to its CIE, and both
    parsers, composed in [parse_function_details]. *)

From stdpp Require Import gmap.
From S2P Require Import Prelude.
From S2P Require Import BTree.
From S2P Require Import EhFrameTable.
From S2P Require Import Ffi.
From S2P Require Import Errors.
From S2P Require Import Dwarf.
From S2P Require Import DwarfSafety.
From S2P Require Import DwarfCodec.
From S2P Require Import Modules.
From S2P Require Import ModuleSet.
From S2P Require Import Callbacks.

Section emitted.
Context `{Profile}.

(** Offset of the CIE pointer inside an emitted FDE. *)
Definition cie_ptr_off (fs : FdeSpec) : Z := if fs_dwarf64 fs then 12 else 4.

Lemma fde_cie_offset_read m bs off l4 lp k w :
  0 ≤ off → off + 20 ≤ usize_max → slice_get bs off (off + 4) = Some l4 →
  (k, w) = (if le_decode l4 =? 0xffffffff then (12, 8) else (4, 4)) →
  slice_get bs (off + k) (off + k + w) = Some lp → is_u64 (le_decode lp) →
  le_decode lp ≤ off + k →
  fde_cie_offset m bs off = Ok (off + k - le_decode lp).
Proof.
  intros Ho Hm H4 Hkw Hp Hu Hle. unfold fde_cie_offset.
  rewrite !usize_add_ok by lia. run. rewrite H4. orun.
  destruct (le_decode l4 =? 0xffffffff); injection Hkw as -> ->; orun;
    rewrite usize_add_ok by lia; run; rewrite Hp; orun;
    rewrite usize_try_from_u64 by done; orun; unfold checked_sub;
    by rewrite (proj2 (Z.leb_le _ _)).
Qed.

(** The FDE's back pointer finds its CIE. *)
Lemma fde_cie_offset_emitted m pre fs post :
  fde_spec_ok fs → len (pre ++ emit_fde fs ++ post) ≤ isize_max →
  fs_cie_ptr fs ≤ len pre + cie_ptr_off fs →
  fde_cie_offset m (pre ++ emit_fde fs ++ post) (len pre) =
  Ok (len pre + cie_ptr_off fs - fs_cie_ptr fs).
Proof.
  intros (Hptr & _ & _ & _ & Hfit) Hl Hle. pose proof (len_nonneg pre) as Hp.
  unfold emit_fde, cie_ptr_off in *. remember (fde_body fs) as body eqn:Hbody.
  unfold fde_body, fde_fixed in Hbody. rewrite <- !app_assoc in Hbody.
  set (rest := _ ++ _ ++ fde_aug_data fs ++ fs_instrs fs) in Hbody.
  pose proof (len_nonneg post). pose proof (len_nonneg rest).
  set (ptr := fs_cie_ptr fs) in *. unfold emit_length, emit_id, length_fits in *.
  assert (∀ n, 2 ^ 32 ≤ 2 ^ (8 * Z.of_nat n) → le_decode (le_encode n ptr) = ptr) as Hdec.
  { intros n Hn. rewrite le_decode_encode. apply Z.mod_small. lia. }
  rewrite !len_app in Hl. unfold isize_max in Hl.
  destruct (fs_dwarf64 fs); rewrite ?len_app, ?le_encode_len, Hbody, ?len_app, ?le_encode_len in Hl.
  - rewrite <- (Hdec 8%nat) at 1 by done.
    apply (fde_cie_offset_read m _ _ (le_encode 4 0xffffffff) _ 12 8);
      [done|unfold usize_max; lia| |by rewrite le_decode_encode| | |]; rewrite ?Hdec by done.
    + rewrite <- !app_assoc. apply slice_get_app; rewrite ?le_encode_len; lia.
    + rewrite Hbody. replace (pre ++ _) with
        ((pre ++ le_encode 4 0xffffffff ++ le_encode 8 (len (le_encode 8 ptr ++ rest)))
         ++ le_encode 8 ptr ++ rest ++ post) by (by rewrite <- !app_assoc).
      apply slice_get_app; rewrite !len_app, !le_encode_len; lia.
    + unfold is_u. lia.
    + done.
  - rewrite <- (Hdec 4%nat) at 1 by done.
    apply (fde_cie_offset_read m _ _ (le_encode 4 (len body)) _ 4 4);
      [done|unfold usize_max; lia| | | | |]; rewrite ?Hdec by done.
    + rewrite <- !app_assoc. apply slice_get_app; rewrite ?le_encode_len; lia.
    + rewrite le_decode_encode, Z.mod_small by (change (8 * Z.of_nat 4) with 32; lia).
      by rewrite (proj2 (Z.eqb_neq _ _)) by lia.
    + rewrite Hbody. replace (pre ++ _) with
        ((pre ++ le_encode 4 (len (le_encode 4 ptr ++ rest)))
         ++ le_encode 4 ptr ++ rest ++ post) by (by rewrite <- !app_assoc).
      apply slice_get_app; rewrite !len_app, !le_encode_len; lia.
    + unfold is_u. lia.
    + done.
Qed.
End emitted.

(** C1: end to end: take a section holding an emitted CIE and, later, an emitted
    FDE that points back at it (any versions, formats and encodings), and a
    header whose sorted table leads [ip] to that FDE.  If [ip] lies in the FDE's
    function, [parse_function_details] succeeds and returns exactly that
    function: its range, LSDA, personality and signal-frame flag, and the tracee
    addresses of the CIE's and the FDE's instructions. *)
Theorem emitted_function_found `{Profile} (m : ModuleData) (hdr pre mid post : list Z)
    (cs : CieSpec) (fs : FdeSpec) (pc0 ip : Z) :
  let eh := pre ++ emit_cie cs ++ mid ++ emit_fde fs ++ post in
  let fde_off := len (pre ++ emit_cie cs ++ mid) in
  let cie := cie_parsed cs (eh_frame_avma m) (len pre) in
  let fde := fde_parsed fs (eh_frame_avma m) fde_off (Modules.text_base m) (Modules.data_base m) in
  module_ok m →
  eh_frame_local_ptr m = as_ptr eh → eh_frame_local_len m = len eh →
  eh_frame_hdr_local_ptr m = as_ptr hdr → eh_frame_hdr_local_len m = len hdr →
  table_sorted (hdr_table (table m) hdr) →
  lookup_spec (hdr_table (table m) hdr) ip = Some (pc0, eh_frame_avma m + fde_off) →
  cie_spec_ok cs → fde_spec_ok fs →
  fs_cie_ptr fs = fde_off + cie_ptr_off fs - len pre →
  fde_config fs (Modules.text_base m) (Modules.data_base m) =
    mkFdeParseConfig (fde_encoding cie) (lsda_encoding cie) (has_z cie)
      (Modules.text_base m) (Modules.data_base m) →
  initial_pc fde ≤ ip < initial_pc fde + address_range fde →
  initial_pc fde + address_range fde ≤ u64_max →
  parse_function_details m ip =
  Ok (mkFunctionDetails (initial_pc fde) (initial_pc fde + address_range fde)
        (build_dwarf_cie_info cie fde (eh_frame_avma m)) (fde_lsda fde)
        (personality cie) (signal_frame cie)).
Proof.
  intros eh fde_off cie fde Hm Hep Hel Hhp Hhl Hs Hlk Hcs Hfs Hptr Hcfg Hip Hend.
  destruct Hm as (_ & Hlh & Hle & _ & Ht & [Hn _] & Hfit).
  assert (bytes_ok eh) as [_ Hlen].
  { destruct Hle as [[He _]|(b & Hb & He & _)]; rewrite Hep in He; by simplify_eq. }
  assert (bytes_ok hdr) as [_ Hhlen].
  { destruct Hlh as [[He _]|(b & Hb & He & _)]; rewrite Hhp in He; by simplify_eq. }
  assert (len (pre ++ emit_cie cs ++ mid) = fde_off) as Hoff by done. pose proof (len_nonneg pre).
  pose proof (len_nonneg mid). pose proof (len_nonneg (emit_cie cs)).
  assert (eh = (pre ++ emit_cie cs ++ mid) ++ emit_fde fs ++ post) as Heh
    by (unfold eh; by rewrite <- !app_assoc).
  assert (0 < len (emit_fde fs)).
  { unfold emit_fde. rewrite len_app. pose proof (len_nonneg (fde_body fs)).
    unfold emit_length. destruct (fs_dwarf64 fs); rewrite ?len_app, !le_encode_len; lia. }
  unfold parse_function_details. rewrite Hep, Hel, Hhp, Hhl. cbn [is_null as_ptr orb].
  rewrite !from_raw_parts_as_ptr. run.
  rewrite lookup_sorted; [|lia|done|done|intros; rewrite <- Hhl; auto|done]. orun. rewrite Hlk. orun.
  unfold checked_sub at 1. pose proof (len_nonneg (pre ++ emit_cie cs ++ mid)).
  rewrite (proj2 (Z.leb_le _ _)) by lia. orun.
  replace (eh_frame_avma m + fde_off - eh_frame_avma m) with fde_off by lia.
  rewrite (proj2 (Z.leb_gt (len eh) fde_off)).
  2: { rewrite Heh, len_app, Hoff, len_app. pose proof (len_nonneg post). lia. }
  rewrite Heh, <- Hoff, fde_cie_offset_emitted; [|done|by rewrite <- Heh|lia]. run.
  rewrite Hoff. replace (fde_off + cie_ptr_off fs - fs_cie_ptr fs) with (len pre) by lia.
  rewrite <- Heh.
  assert (parse_cie eh (len pre) (eh_frame_avma m) = Ok cie) as -> by by apply parse_cie_emitted.
  orun. rewrite <- Hcfg.
  assert (parse_fde eh fde_off (eh_frame_avma m)
    (fde_config fs (Modules.text_base m) (Modules.data_base m)) = Ok fde) as ->.
  { rewrite Heh. apply parse_fde_emitted; [done|]. by rewrite <- Heh. }
  orun.
  unfold checked_add. rewrite (proj2 (Z.leb_le _ _)) by done.
  rewrite (proj2 (Z.ltb_ge _ _)), (proj2 (Z.leb_gt _ _)) by lia. done.
Qed.

(** ** The hypotheses hold: a section as GCC emits it *)
Definition gcc_fde : FdeSpec :=
  mkFdeSpec false 36 Sdata4 AppPcrel (0x1000 - 0x3028) 0x40 (Some (None, [])) [0x41; 0x0e; 0x10].
Definition gcc_eh_frame : list Z := [] ++ emit_cie zplr_spec ++ [] ++ emit_fde gcc_fde ++ [0; 0; 0; 0].
Definition gcc_hdr : list Z :=
  [1; 0x1b; 0x03; 0x3b] ++ le_encode 4 (0x3000 - 0x4004) ++ le_encode 4 1
  ++ le_encode 4 (0x1000 - 0x4000) ++ le_encode 4 (0x3020 - 0x4000).
Definition gcc_module : ModuleData :=
  mkModuleData "gcc" (mkRange 0x1000 0x2000) 0
    [mirror 0x4000 gcc_hdr; mirror 0x3000 gcc_eh_frame] (mkEhFrameTable 12 1 0x4000)
    (as_ptr gcc_hdr) (len gcc_hdr) (as_ptr gcc_eh_frame) (len gcc_eh_frame) 0x3000 None 0 0x1000 0x4000.

Lemma gcc_module_ok : module_ok gcc_module.
Proof.
  assert (bytes_ok gcc_hdr) by by_compute. assert (bytes_ok gcc_eh_frame) by by_compute.
  split_and!; try by_compute.
  - repeat constructor; by apply mirror_ok; [by_compute|].
  - by apply local_ok_as_ptr.
  - by apply local_ok_as_ptr.
Qed.

Lemma emitted_function_found_witness :
  parse_function_details (H:=true) gcc_module 0x1020 =
  Ok (mkFunctionDetails 0x1000 0x1040
        (mkDwarfCieInfo 0x3019 0x3020 0x3031 0x3034 1 (as_u64 (-8)) 16 0 0 0 0x1b 0xff 1) 0 0 false).
Proof.
  rewrite (emitted_function_found (H:=true) gcc_module gcc_hdr [] [] [0; 0; 0; 0] zplr_spec gcc_fde
             0x1000 0x1020).
  - vm_compute. reflexivity.
  - apply gcc_module_ok.
  - reflexivity.
  - reflexivity.
  - reflexivity.
  - reflexivity.
  - change (table_sorted [(0x1000, 0x3020)]).
    intros [|i] [|j] a b; simpl; intros; simplify_eq; simpl; lia.
  - vm_compute. reflexivity.
  - split_and!; [by apply elem_of_cons; left|by_compute..|by repeat constructor|by_compute].
  - split_and!; by_compute.
  - vm_compute. reflexivity.
  - vm_compute. reflexivity.
  - by_compute.
  - by_compute.
Defined.
