(* ===== verification/CacheRace.v ===== *)
(** * Concurrent use of a function cache

    [ModuleData] is [Sync] and clones of an unwinder share it, so several
    threads may run [find_proc_info] on one module.  The two critical sections
    of [get_or_parse_function_details] and the parse between them are separate
    atomic steps here, interleaved by a schedule; that the mutex makes the two
    sections atomic, and that no thread is left waiting for it, is shown in
    [CacheLock].  The [Arc]s behind the cached details are explicit: an allocation with a strong count, freed when
    the count reaches zero.  [find_proc_info] hands libunwind a raw pointer into
    the [Arc] and drops its own reference on return; the pointer is used until
    the cursor is done. *)

From stdpp Require Import gmap.
From S2P Require Import Prelude.
From S2P Require Import BTree.
From S2P Require Import EhFrameTable.
From S2P Require Import Ffi.
From S2P Require Import Errors.
From S2P Require Import Modules.
From S2P Require Import ModuleSet.
From S2P Require Import Callbacks.

(** ** State *)

(** Live [Arc<FunctionDetails>] allocations: strong count and content. *)
Abbreviation Arcs := (gmap nat (nat * FunctionDetails)).

Record Shared : Type := mkShared {
  sh_cache : list (Z * nat);
  sh_arcs : Arcs;
  sh_next : nat;
}.

Definition shared_init : Shared := mkShared [] ∅ 0.

(** Where a thread is in [find_proc_info] for [ip], and which [Arc] it has. *)
Inductive thread : Type :=
  | TStart (ip : Z)
  | TMissed (ip : Z)
  | TParsed (ip : Z) (id : nat)
  | THave (ip : Z) (id : nat)
  | TUsing (ip : Z) (id : nat)
  | TDone
  | TFailed.

(** [Arc::clone] and [drop]. *)
Definition clone_arc (id : nat) (arcs : Arcs) : Arcs :=
  match arcs !! id with Some (n, d) => <[id := (S n, d)]> arcs | None => arcs end.
Definition drop_arc (id : nat) (arcs : Arcs) : Arcs :=
  match arcs !! id with
  | Some (S (S n), d) => <[id := (S n, d)]> arcs
  | Some (_, _) => delete id arcs
  | None => arcs
  end.
Definition drop_opt (o : option nat) (arcs : Arcs) : Arcs :=
  match o with Some id => drop_arc id arcs | None => arcs end.

Section race.
Context `{Profile} (m : ModuleData).

(** One atomic step of a thread: the first critical section (from the end of its
    [lock()] to the drop of its guard), the parse, the second critical section ([cache.insert] drops the [Arc] it replaces), the
    return (which drops the local [Arc]), the end of the cursor. *)
Definition tstep (st : Shared) (t : thread) : option (Shared * thread) :=
  match t with
  | TStart ip =>
      match bt_floor ip (sh_cache st) with
      | Some (_, id) =>
          '(_, d) ← sh_arcs st !! id;
          Some (if ip <? end_ip d
                then (mkShared (sh_cache st) (clone_arc id (sh_arcs st)) (sh_next st), THave ip id)
                else (st, TMissed ip))
      | None => Some (st, TMissed ip)
      end
  | TMissed ip =>
      match parse_function_details m ip with
      | Ok d =>
          Some (mkShared (sh_cache st) (<[sh_next st := (1%nat, d)]> (sh_arcs st))
                  (S (sh_next st)), TParsed ip (sh_next st))
      | _ => Some (st, TFailed)
      end
  | TParsed ip id =>
      '(_, d) ← sh_arcs st !! id;
      Some (mkShared (bt_insert (start_ip d) id (sh_cache st))
              (drop_opt (bt_get (start_ip d) (sh_cache st)) (clone_arc id (sh_arcs st)))
              (sh_next st), THave ip id)
  | THave ip id =>
      Some (mkShared (sh_cache st) (drop_arc id (sh_arcs st)) (sh_next st), TUsing ip id)
  | TUsing ip id => Some (st, TDone)
  | TDone | TFailed => None
  end.

(** A whole system, and its steps under a schedule. *)
Definition System : Type := Shared * list thread.

Definition sys_step (sys : System) (i : nat) : option System :=
  t ← sys.2 !! i;
  '(st, t') ← tstep sys.1 t;
  Some (st, <[i := t']> sys.2).

Fixpoint run_schedule (sys : System) (sched : list nat) : option System :=
  match sched with
  | [] => Some sys
  | i :: sched' => sys' ← sys_step sys i; run_schedule sys' sched'
  end.

(** Threads about to start. *)
Definition sys_init (ips : list Z) : System := (shared_init, TStart <$> ips).

(** A thread whose cursor still uses details that have been freed. *)
Definition dangling (st : Shared) (t : thread) : Prop :=
  match t with TUsing _ id => sh_arcs st !! id = None | _ => False end.

(** ** Reference counts *)
Definition holds (t : thread) (x : nat) : nat :=
  match t with
  | TParsed _ id | THave _ id => if decide (id = x) then 1 else 0
  | _ => 0
  end.

Fixpoint cache_refs (cache : list (Z * nat)) (x : nat) : nat :=
  match cache with
  | [] => 0
  | (_, id) :: cache' => (if decide (id = x) then 1 else 0) + cache_refs cache' x
  end.

Fixpoint thread_refs (ts : list thread) (x : nat) : nat :=
  match ts with
  | [] => 0
  | t :: ts' => holds t x + thread_refs ts' x
  end.

Definition one (o : option nat) (x : nat) : nat :=
  match o with Some id => if decide (id = x) then 1 else 0 | None => 0 end.

Lemma thread_refs_insert ts i t t' x :
  ts !! i = Some t → (thread_refs (<[i := t']> ts) x + holds t x = thread_refs ts x + holds t' x)%nat.
Proof.
  revert i. induction ts as [|t0 ts IH]; intros [|i] Hi; simplify_eq/=; [lia|].
  specialize (IH _ Hi). lia.
Qed.

Lemma cache_refs_insert cache k id x :
  bt_wf cache →
  (cache_refs (bt_insert k id cache) x + one (bt_get k cache) x =
   cache_refs cache x + one (Some id) x)%nat.
Proof.
  assert (∀ cache k0, bt_lb k0 cache →
    (cache_refs (bt_insert k id cache) x + one (bt_get k cache) x =
     cache_refs cache x + one (Some id) x)%nat) as Haux.
  { clear cache. induction cache as [|[k1 id1] cache IH]; intros k0 Hlb; simpl; [lia|].
    destruct Hlb as [Hk Hlb]. destruct (Z.ltb_spec k k1).
    - simpl. destruct (Z.eqb_spec k1 k); [lia|]. rewrite (bt_get_lb k1 k cache) by (done || lia).
      simpl. lia.
    - destruct (Z.eqb_spec k k1) as [->|].
      + rewrite Z.eqb_refl. simpl. lia.
      + destruct (Z.eqb_spec k1 k); [lia|]. simpl. specialize (IH _ Hlb). simpl in IH. lia. }
  intros [k0 Hlb]%bt_wf_lb. by eapply Haux.
Qed.

Lemma cache_refs_get cache k id : bt_get k cache = Some id → (0 < cache_refs cache id)%nat.
Proof.
  induction cache as [|[k1 id1] cache IH]; simpl; [done|].
  destruct (k1 =? k); [intros [= ->]; rewrite decide_True by done; lia|]. intros. specialize (IH ltac:(done)). lia.
Qed.

Lemma thread_refs_get ts i t x :
  ts !! i = Some t → (holds t x ≤ thread_refs ts x)%nat.
Proof.
  revert i. induction ts as [|t0 ts IH]; intros [|i] Hi; simplify_eq/=; [lia|].
  specialize (IH _ Hi). lia.
Qed.

(** The strong counts are exactly [f]; an allocation with count zero is gone. *)
Definition arcs_exact (arcs : Arcs) (f : nat → nat) : Prop :=
  ∀ x, match arcs !! x with Some (n, _) => n = f x ∧ (0 < n)%nat | None => f x = 0%nat end.

Definition details (arcs : Arcs) (x : nat) : option FunctionDetails := snd <$> arcs !! x.

Lemma arcs_exact_ext arcs f g : (∀ x, f x = g x) → arcs_exact arcs f → arcs_exact arcs g.
Proof. intros Hfg He x. specialize (He x). by rewrite <- Hfg. Qed.

Lemma arcs_live arcs f x : arcs_exact arcs f → (0 < f x)%nat → ∃ n d, arcs !! x = Some (n, d).
Proof. intros He Hx. specialize (He x). destruct (arcs !! x) as [[n d]|]; [eauto|lia]. Qed.

Lemma clone_details id arcs x : details (clone_arc id arcs) x = details arcs x.
Proof.
  unfold details, clone_arc. destruct (arcs !! id) as [[n d]|] eqn:Hid; [|done].
  destruct (decide (id = x)) as [->|]; [by rewrite lookup_insert_eq, Hid|].
  by rewrite lookup_insert_ne.
Qed.

Lemma drop_details id arcs x d : details (drop_arc id arcs) x = Some d → details arcs x = Some d.
Proof.
  unfold details, drop_arc. destruct (arcs !! id) as [[[|[|n]] d']|] eqn:Hid; [..|done];
    (destruct (decide (id = x)) as [->|]; [|by rewrite ?lookup_delete_ne, ?lookup_insert_ne]).
  - by rewrite lookup_delete_eq.
  - by rewrite lookup_delete_eq.
  - by rewrite lookup_insert_eq, Hid.
Qed.

Lemma clone_exact id arcs f n d :
  arcs_exact arcs f → arcs !! id = Some (n, d) →
  arcs_exact (clone_arc id arcs) (λ x, f x + one (Some id) x)%nat.
Proof.
  intros He Hid x. unfold clone_arc. rewrite Hid. simpl. specialize (He x).
  destruct (decide (id = x)) as [->|].
  - rewrite lookup_insert_eq. rewrite Hid in He. lia.
  - rewrite lookup_insert_ne by done. destruct (arcs !! x) as [[]|]; lia.
Qed.

Lemma drop_exact id arcs f :
  arcs_exact arcs f → arcs_exact (drop_arc id arcs) (λ x, f x - one (Some id) x)%nat.
Proof.
  intros He x. unfold drop_arc. pose proof (He x) as Hx. pose proof (He id) as Hi. simpl.
  destruct (arcs !! id) as [[[|[|n]] d]|] eqn:Hid.
  - lia.
  - destruct (decide (id = x)) as [->|]; [rewrite lookup_delete_eq; lia|].
    rewrite lookup_delete_ne by done. destruct (arcs !! x) as [[]|]; lia.
  - destruct (decide (id = x)) as [->|]; [rewrite lookup_insert_eq; lia|].
    rewrite lookup_insert_ne by done. destruct (arcs !! x) as [[]|]; lia.
  - destruct (decide (id = x)) as [->|]; [rewrite Hid; lia|]. destruct (arcs !! x) as [[]|]; lia.
Qed.

Lemma drop_opt_exact o arcs f :
  arcs_exact arcs f → arcs_exact (drop_opt o arcs) (λ x, f x - one o x)%nat.
Proof.
  intros He. destruct o as [id|]; [by apply drop_exact|].
  eapply arcs_exact_ext; [|done]. simpl. lia.
Qed.

Lemma drop_opt_details o arcs x d :
  details (drop_opt o arcs) x = Some d → details arcs x = Some d.
Proof. destruct o; [apply drop_details|done]. Qed.

(** ** The invariant of every interleaving *)
Definition thread_ok (arcs : Arcs) (t : thread) : Prop :=
  match t with
  | TParsed ip id | THave ip id => ∀ d, details arcs id = Some d → covers d ip
  | _ => True
  end.

Definition refs (sys : System) (x : nat) : nat :=
  (cache_refs (sh_cache sys.1) x + thread_refs sys.2 x)%nat.

Record sys_inv (sys : System) : Prop := {
  inv_wf : bt_wf (sh_cache sys.1);
  inv_counts : arcs_exact (sh_arcs sys.1) (refs sys);
  inv_keys : ∀ k id d, bt_get k (sh_cache sys.1) = Some id →
    details (sh_arcs sys.1) id = Some d → start_ip d = k;
  inv_details : ∀ id d, details (sh_arcs sys.1) id = Some d →
    (id < sh_next sys.1)%nat ∧ ∃ ip, covers d ip ∧ parse_function_details m ip = Ok d;
  inv_threads : Forall (thread_ok (sh_arcs sys.1)) sys.2;
}.

Lemma sys_init_inv ips : sys_inv (sys_init ips).
Proof.
  constructor; simpl; try done.
  - intros x. rewrite lookup_empty. unfold refs. simpl.
    induction ips as [|ip ips IH]; simpl; [done|]. exact IH.
  - apply Forall_fmap. by apply Forall_true.
Qed.

Lemma thread_ok_mono arcs arcs' t :
  (∀ x d, details arcs' x = Some d → details arcs x = Some d) →
  thread_ok arcs t → thread_ok arcs' t.
Proof. intros Hsub. destruct t; simpl; auto. Qed.

(** Replacing thread [i] of a system. *)
Lemma threads_insert arcs arcs' ts i t' :
  (∀ x d, details arcs' x = Some d → details arcs x = Some d) →
  Forall (thread_ok arcs) ts → thread_ok arcs' t' → Forall (thread_ok arcs') (<[i := t']> ts).
Proof.
  intros Hsub Hts Ht. apply Forall_insert; [|done]. eapply Forall_impl; [done|].
  intros t. by apply thread_ok_mono.
Qed.

(** One lemma per step of a thread. *)
Section steps.
Context (st : Shared) (ts : list thread) (i : nat) (Hm : module_ok m).
Context (Hinv : sys_inv (st, ts)).

Lemma cached_live k id :
  bt_get k (sh_cache st) = Some id → ∃ n d, sh_arcs st !! id = Some (n, d) ∧ start_ip d = k.
Proof.
  intros Hg. destruct (arcs_live (sh_arcs st) (refs (st, ts)) id) as (n & d & Hd).
  { apply Hinv. }
  { unfold refs. simpl. pose proof (cache_refs_get _ _ _ Hg). lia. }
  exists n, d. split; [done|]. eapply (inv_keys _ Hinv); [done|]. unfold details. simpl.
  by rewrite Hd.
Qed.

Lemma held_live t id :
  ts !! i = Some t → holds t id = 1%nat → ∃ n d, sh_arcs st !! id = Some (n, d).
Proof.
  intros Ht Hh. apply (arcs_live _ (refs (st, ts))); [apply Hinv|].
  pose proof (thread_refs_get ts i t id Ht). unfold refs. simpl. lia.
Qed.

(** A step that changes neither the arcs nor what threads hold. *)
Lemma idle_inv t t' :
  ts !! i = Some t → (∀ x, holds t x = holds t' x) → thread_ok (sh_arcs st) t' →
  sys_inv (st, <[i := t']> ts).
Proof.
  intros Ht Hh Hok. destruct Hinv as [Hwf Hc Hk Hd Hts]. constructor; simpl in *; try done.
  - eapply arcs_exact_ext; [|done]. intros x. unfold refs. simpl.
    pose proof (thread_refs_insert ts i t t' x Ht). rewrite (Hh x) in *. lia.
  - by eapply threads_insert.
Qed.

Lemma hit_inv ip k id n d :
  ts !! i = Some (TStart ip) → bt_floor ip (sh_cache st) = Some (k, id) →
  sh_arcs st !! id = Some (n, d) → ip < end_ip d →
  sys_inv (mkShared (sh_cache st) (clone_arc id (sh_arcs st)) (sh_next st),
           <[i := THave ip id]> ts).
Proof.
  intros Ht Hf Hid Hlt. destruct Hinv as [Hwf Hc Hk Hd Hts]. simpl in *.
  constructor; simpl; try setoid_rewrite clone_details; try done.
  - eapply arcs_exact_ext; [|by eapply clone_exact]. intros x. unfold refs. simpl.
    pose proof (thread_refs_insert ts i _ (THave ip id) x Ht). simpl in *. lia.
  - eapply threads_insert; [|done|].
    { intros x d'. by rewrite clone_details. }
    simpl. intros d'. rewrite clone_details. unfold details. rewrite Hid. intros [= <-].
    apply bt_floor_some in Hf as (Hg & Hle & _); [|done]. split; [|done].
    rewrite (Hk k id d Hg); [done|]. unfold details. by rewrite Hid.
Qed.

Lemma parsed_inv ip d :
  ts !! i = Some (TMissed ip) → parse_function_details m ip = Ok d →
  sys_inv (mkShared (sh_cache st) (<[sh_next st := (1%nat, d)]> (sh_arcs st)) (S (sh_next st)),
           <[i := TParsed ip (sh_next st)]> ts).
Proof.
  intros Ht Hp. pose proof Hinv as [Hwf Hc Hk Hd Hts]. simpl in *.
  assert (sh_arcs st !! sh_next st = None) as Hfr.
  { destruct (sh_arcs st !! sh_next st) as [[n d']|] eqn:He; [|done].
    destruct (Hd (sh_next st) d') as [? _]; [unfold details; by rewrite He|lia]. }
  assert (∀ x d', details (<[sh_next st := (1%nat, d)]> (sh_arcs st)) x = Some d' →
    (x = sh_next st ∧ d' = d) ∨ (x ≠ sh_next st ∧ details (sh_arcs st) x = Some d')) as Hdet.
  { intros x d'. unfold details. destruct (decide (sh_next st = x)) as [<-|].
    - rewrite lookup_insert_eq. intros [= <-]. by left.
    - rewrite lookup_insert_ne by done. by right. }
  constructor; simpl; try done.
  - intros x. pose proof (Hc x) as Hx. unfold refs in *. simpl in *.
    pose proof (thread_refs_insert ts i _ (TParsed ip (sh_next st)) x Ht) as Hr. simpl in Hr.
    destruct (decide (sh_next st = x)) as [<-|].
    + rewrite lookup_insert_eq. rewrite Hfr in Hx. lia.
    + rewrite lookup_insert_ne by done. destruct (sh_arcs st !! x) as [[]|]; lia.
  - intros k id d' Hg [[-> ->]|[_ Hd']]%Hdet; [|by eapply Hk].
    destruct (cached_live _ _ Hg) as (n & d'' & He & _). congruence.
  - intros id d' [[-> ->]|[_ Hd']]%Hdet.
    + split; [lia|]. exists ip. split; [by eapply parse_covers|done].
    + destruct (Hd _ _ Hd'). split; [lia|done].
  - apply Forall_insert.
    + apply Forall_lookup. intros j t Hj. pose proof Hts as Htj. rewrite Forall_lookup in Htj.
      specialize (Htj j t Hj).
      destruct t as [ | |ip' id|ip' id| | | ]; simpl in *; try done; intros d' Hd';
        (apply Hdet in Hd' as [[-> _]|[_ Hd']]; [|by auto]);
        pose proof (thread_refs_get ts j _ (sh_next st) Hj) as Hr; simpl in Hr;
        rewrite decide_True in Hr by done; specialize (Hc (sh_next st));
        rewrite Hfr in Hc; unfold refs in Hc; simpl in Hc; lia.
    + simpl. intros d' [[_ ->]|[? _]]%Hdet; [by eapply parse_covers|done].
Qed.

Lemma insert_inv ip id n d :
  ts !! i = Some (TParsed ip id) → sh_arcs st !! id = Some (n, d) →
  sys_inv (mkShared (bt_insert (start_ip d) id (sh_cache st))
             (drop_opt (bt_get (start_ip d) (sh_cache st)) (clone_arc id (sh_arcs st)))
             (sh_next st), <[i := THave ip id]> ts).
Proof.
  intros Ht Hid. destruct Hinv as [Hwf Hc Hk Hd Hts]. simpl in *.
  assert (∀ x d', details (drop_opt (bt_get (start_ip d) (sh_cache st))
    (clone_arc id (sh_arcs st))) x = Some d' → details (sh_arcs st) x = Some d') as Hsub.
  { intros x d' Hx%drop_opt_details. by rewrite clone_details in Hx. }
  constructor; simpl.
  - by apply bt_insert_wf.
  - eapply arcs_exact_ext; [|eapply drop_opt_exact, clone_exact; [apply Hc|done]].
    intros x. unfold refs. simpl. pose proof (thread_refs_insert ts i _ (THave ip id) x Ht).
    pose proof (cache_refs_insert (sh_cache st) (start_ip d) id x Hwf). simpl in *. lia.
  - intros k id' d' Hg Hd'%Hsub. destruct (decide (start_ip d = k)) as [<-|].
    + rewrite bt_get_insert_eq in Hg. simplify_eq. unfold details in Hd'.
      rewrite Hid in Hd'. by simplify_eq/=.
    + rewrite bt_get_insert_ne in Hg by done. by eapply Hk.
  - intros id' d' Hd'%Hsub. by apply Hd.
  - eapply threads_insert; [done|done|]. simpl. intros d' Hd'%Hsub.
    rewrite Forall_lookup in Hts. by apply (Hts i (TParsed ip id)).
Qed.

Lemma return_inv ip id :
  ts !! i = Some (THave ip id) →
  sys_inv (mkShared (sh_cache st) (drop_arc id (sh_arcs st)) (sh_next st),
           <[i := TUsing ip id]> ts).
Proof.
  intros Ht. destruct Hinv as [Hwf Hc Hk Hd Hts]. simpl in *.
  constructor; simpl; try done.
  - eapply arcs_exact_ext; [|by apply drop_exact]. intros x. unfold refs. simpl.
    pose proof (thread_refs_insert ts i _ (TUsing ip id) x Ht). simpl in *. lia.
  - intros k id' d' Hg Hd'%drop_details. by eapply Hk.
  - intros id' d' Hd'%drop_details. by apply Hd.
  - eapply threads_insert; [|done|done]. intros x d'. apply drop_details.
Qed.
End steps.

(** Every step keeps the invariant, and no running thread is ever stuck on a
    freed [Arc]. *)
Lemma tstep_inv st ts i t :
  module_ok m → sys_inv (st, ts) → ts !! i = Some t →
  match tstep st t with
  | Some (st', t') => sys_inv (st', <[i := t']> ts)
  | None => t = TDone ∨ t = TFailed
  end.
Proof.
  intros Hm Hinv Ht. destruct t as [ip|ip|ip id|ip id|ip id| |]; simpl; auto.
  - destruct (bt_floor ip (sh_cache st)) as [[k id]|] eqn:Hf; [|by eapply idle_inv].
    pose proof Hf as Hf'. apply bt_floor_some in Hf' as (Hg & _ & _); [|apply (inv_wf _ Hinv)].
    destruct (cached_live st ts Hinv k id Hg) as (n & d & Hd & _). rewrite Hd. simpl.
    destruct (Z.ltb_spec ip (end_ip d)); [by eapply hit_inv|by eapply idle_inv].
  - destruct (parse_function_details m ip) as [d| | | |] eqn:Hp;
      [by apply parsed_inv|by eapply idle_inv..].
  - destruct (held_live st ts i Hinv _ id Ht) as (n & d & Hd).
    { simpl. by rewrite decide_True. }
    rewrite Hd. simpl. by eapply insert_inv.
  - by apply return_inv.
  - by eapply idle_inv.
Qed.

Lemma sys_step_inv sys i sys' :
  module_ok m → sys_inv sys → sys_step sys i = Some sys' → sys_inv sys'.
Proof.
  intros Hm Hinv. unfold sys_step. destruct sys as [st ts]. simpl.
  destruct (ts !! i) as [t|] eqn:Ht; simpl; [|done].
  pose proof (tstep_inv st ts i t Hm Hinv Ht) as Hs.
  destruct (tstep st t) as [[st' t']|]; simpl; [|done]. by intros [= <-].
Qed.

Lemma run_schedule_inv sched sys sys' :
  module_ok m → sys_inv sys → run_schedule sys sched = Some sys' → sys_inv sys'.
Proof.
  intros Hm. revert sys. induction sched as [|i sched IH]; intros sys Hinv; simpl.
  - by intros [= <-].
  - destruct (sys_step sys i) as [sys1|] eqn:Hs; simpl; [|done]. apply IH.
    by eapply sys_step_inv.
Qed.

(** ** One lookup at a time *)
Definition idle (t : thread) : bool :=
  match t with TStart _ | TDone | TFailed => true | _ => false end.

(** Thread [i] is the only one inside [find_proc_info] or using its result. *)
Definition alone (ts : list thread) (i : nat) : Prop :=
  ∀ j t, j ≠ i → ts !! j = Some t → idle t = true.

Inductive solo_run : System → System → Prop :=
  | solo_done sys : solo_run sys sys
  | solo_step sys i sys1 sys2 :
      alone sys.2 i → sys_step sys i = Some sys1 → solo_run sys1 sys2 → solo_run sys sys2.

(** What a thread with details has is in the cache. *)
Definition cached_thread (cache : list (Z * nat)) (t : thread) : Prop :=
  match t with
  | THave _ id | TUsing _ id => ∃ k, bt_get k cache = Some id
  | _ => True
  end.

Lemma solo_step_cached st ts i sys' :
  sys_inv (st, ts) → alone ts i → Forall (cached_thread (sh_cache st)) ts →
  sys_step (st, ts) i = Some sys' → Forall (cached_thread (sh_cache sys'.1)) sys'.2.
Proof.
  intros Hinv Hal Hc. unfold sys_step. simpl. destruct (ts !! i) as [t|] eqn:Ht; simpl; [|done].
  destruct (tstep st t) as [[st' t']|] eqn:Hs; simpl; [|done]. intros [= <-]. simpl.
  apply Forall_lookup. intros j t0 Hj. destruct (decide (j = i)) as [->|Hne].
  2: { rewrite list_lookup_insert_ne in Hj by done. specialize (Hal _ _ Hne Hj).
       by destruct t0. }
  rewrite list_lookup_insert_eq in Hj by (by eapply lookup_lt_Some). simplify_eq.
  rewrite Forall_lookup in Hc. specialize (Hc i t Ht).
  destruct t as [ip|ip|ip id|ip id|ip id| |]; simpl in *; simplify_eq/=; try done.
  - destruct (bt_floor ip (sh_cache st)) as [[k id]|] eqn:Hf; simpl in Hs; [|by simplify_eq].
    destruct (sh_arcs st !! id) as [[n d]|]; simpl in Hs; [|done].
    destruct (ip <? end_ip d); simplify_eq/=; [|done].
    apply bt_floor_some in Hf as (Hg & _ & _); [eauto|apply (inv_wf _ Hinv)].
  - by destruct (parse_function_details m ip); simplify_eq/=.
  - destruct (sh_arcs st !! id) as [[n d]|]; simplify_eq/=. eexists. apply bt_get_insert_eq.
Qed.

Lemma solo_run_cached sys sys' :
  module_ok m → solo_run sys sys' → sys_inv sys → Forall (cached_thread (sh_cache sys.1)) sys.2 →
  sys_inv sys' ∧ Forall (cached_thread (sh_cache sys'.1)) sys'.2.
Proof.
  intros Hm. induction 1 as [|[st ts] i sys1 sys2 Hal Hs _ IH]; [done|]. intros Hinv Hc.
  apply IH; [by eapply sys_step_inv|by eapply solo_step_cached].
Qed.

(** ** Refinement: a thread on its own is [get_or_parse_function_details] *)

(** The cache of details an id cache stands for. *)
Definition represents (arcs : Arcs) (cache : list (Z * nat)) (abs : list (Z * FunctionDetails))
    : Prop :=
  Forall2 (λ e a, e.1 = a.1 ∧ details arcs e.2 = Some a.2) cache abs.

Lemma represents_floor arcs cache abs ip :
  represents arcs cache abs →
  match bt_floor ip cache, bt_floor ip abs with
  | Some (k, id), Some (k', d) => k = k' ∧ details arcs id = Some d
  | None, None => True
  | _, _ => False
  end.
Proof.
  induction 1 as [|[k id] [k' d] cache abs [Hk Hd] Hr IH]; simpl in *; [done|]. subst k'.
  destruct (k <=? ip); [|done].
  by destruct (bt_floor ip cache) as [[]|], (bt_floor ip abs) as [[]|].
Qed.

Lemma represents_insert arcs cache abs k id d :
  represents arcs cache abs → details arcs id = Some d →
  represents arcs (bt_insert k id cache) (bt_insert k d abs).
Proof.
  intros Hr Hd. induction Hr as [|[k1 id1] [k' d1] cache abs [Hk Hd1] Hr IH]; simpl in *.
  { by repeat constructor. }
  subst k'. destruct (k <? k1); [by repeat constructor|].
  destruct (k =? k1); by repeat constructor.
Qed.

Lemma represents_arcs arcs arcs' cache abs :
  (∀ x d, details arcs' x = Some d → details arcs x = Some d) →
  (∀ e, e ∈ cache → is_Some (details arcs' e.2)) →
  represents arcs cache abs → represents arcs' cache abs.
Proof.
  intros Hsub Hlive Hr. induction Hr as [|e a cache abs [Hk Hd] Hr IH]; constructor.
  - split; [done|]. destruct (Hlive e) as [d Hd']; [left|]. rewrite Hd'.
    apply Hsub in Hd'. congruence.
  - apply IH. intros e' He'. apply Hlive. by right.
Qed.

Lemma cached_entries_live st ts e :
  sys_inv (st, ts) → e ∈ sh_cache st → is_Some (details (sh_arcs st) e.2).
Proof.
  intros Hinv He. destruct e as [k id]. apply bt_get_elem in He; [|apply (inv_wf _ Hinv)].
  destruct (cached_live st ts Hinv k id He) as (n & d & Hd & _). unfold details. simpl.
  rewrite Hd. by eexists.
Qed.

(** What a thread that starts ends its lookup with. *)
Definition lookup_outcome (ts : list thread) (arcs : Arcs) (i : nat) (ip : Z)
    (r : outcome UnwindInfoError FunctionDetails) : Prop :=
  match r with
  | Ok d => ∃ id, ts !! i = Some (THave ip id) ∧ details arcs id = Some d
  | _ => ts !! i = Some TFailed
  end.

Lemma sys_step_eq st ts i t st' t' :
  ts !! i = Some t → tstep st t = Some (st', t') → sys_step (st, ts) i = Some (st', <[i := t']> ts).
Proof. intros Ht Hs. unfold sys_step. simpl. rewrite Ht. simpl. by rewrite Hs. Qed.

Lemma represents_grow arcs arcs' cache abs :
  (∀ x d, details arcs x = Some d → details arcs' x = Some d) →
  represents arcs cache abs → represents arcs' cache abs.
Proof. intros Hsub Hr. eapply Forall2_impl; [exact Hr|]. intros e a [? ?]. auto. Qed.

Lemma next_fresh st ts d :
  sys_inv (st, ts) →
  ∀ x d', details (sh_arcs st) x = Some d' →
    details (<[sh_next st := (1%nat, d)]> (sh_arcs st)) x = Some d'.
Proof.
  intros Hinv x d' Hd. destruct (inv_details _ Hinv _ _ Hd) as [Hx _]. simpl in Hx.
  unfold details in *. rewrite lookup_insert_ne; [done|lia].
Qed.

(** The two outcomes of the first critical section, on both sides. *)
Lemma start_refines st ts i ip h abs :
  sys_inv (st, ts) → ts !! i = Some (TStart ip) →
  lock h m = Some abs → represents (sh_arcs st) (sh_cache st) abs →
  (∃ id d, cache_lookup m ip h = (Ok (Some d), h) ∧ details (sh_arcs st) id = Some d ∧
     sys_step (st, ts) i =
       Some (mkShared (sh_cache st) (clone_arc id (sh_arcs st)) (sh_next st),
             <[i := THave ip id]> ts)) ∨
  (cache_lookup m ip h = (Ok None, h) ∧
   sys_step (st, ts) i = Some (st, <[i := TMissed ip]> ts)).
Proof.
  intros Hinv Ht Hl Hrep. pose proof (represents_floor _ _ _ ip Hrep) as Hf.
  unfold cache_lookup, mbind, sm_bind, sm_get. rewrite Hl. unfold mret, sm_ret.
  destruct (bt_floor ip (sh_cache st)) as [[k id]|] eqn:Hfc,
           (bt_floor ip abs) as [[k' d]|] eqn:Hfa; try done.
  2: { right. split; [done|]. eapply sys_step_eq; [done|]. simpl. by rewrite Hfc. }
  destruct Hf as [_ Hd]. pose proof Hd as Hd'. unfold details in Hd'.
  destruct (sh_arcs st !! id) as [[n d0]|] eqn:Hid; [|done]. simplify_eq/=.
  destruct (ip <? end_ip d) eqn:Hlt; [left; exists id, d|right]; split_and!; try done;
    (eapply sys_step_eq; [done|]); simpl; rewrite Hfc, Hid; simpl; by rewrite Hlt.
Qed.

(** The parse and the second critical section. *)
Lemma miss_refines st ts i ip h abs d :
  module_ok m → sys_inv (st, ts) → ts !! i = Some (TMissed ip) →
  lock h m = Some abs → represents (sh_arcs st) (sh_cache st) abs →
  parse_function_details m ip = Ok d →
  ∃ sys', run_schedule (st, ts) [i; i] = Some sys' ∧
    lookup_outcome sys'.2 (sh_arcs sys'.1) i ip (Ok d) ∧
    represents (sh_arcs sys'.1) (sh_cache sys'.1) (bt_insert (start_ip d) d abs).
Proof.
  intros Hm Hinv Ht Hl Hrep Hp. set (id := sh_next st).
  assert (∀ t', <[i := t']> ts !! i = Some t') as Hins.
  { intros t'. apply list_lookup_insert_eq. by eapply lookup_lt_Some. }
  set (st1 := mkShared (sh_cache st) (<[id := (1%nat, d)]> (sh_arcs st)) (S id)).
  set (ts1 := <[i := TParsed ip id]> ts).
  assert (sys_step (st, ts) i = Some (st1, ts1)) as Hs1.
  { eapply sys_step_eq; [done|]. simpl. by rewrite Hp. }
  assert (sh_arcs st1 !! id = Some (1%nat, d)) as Hid by apply lookup_insert_eq.
  set (st2 := mkShared (bt_insert (start_ip d) id (sh_cache st1))
    (drop_opt (bt_get (start_ip d) (sh_cache st1)) (clone_arc id (sh_arcs st1))) (sh_next st1)).
  assert (sys_step (st1, ts1) i = Some (st2, <[i := THave ip id]> ts1)) as Hs2.
  { eapply sys_step_eq; [apply Hins|]. simpl. rewrite lookup_insert_eq. done. }
  assert (sys_inv (st2, <[i := THave ip id]> ts1)) as Hinv2.
  { eapply sys_step_inv; [done| |done]. eapply sys_step_inv; [done| |done]. done. }
  assert (is_Some (details (sh_arcs st2) id)) as [d2 Hd2].
  { apply (cached_entries_live _ _ (start_ip d, id) Hinv2). apply bt_get_elem.
    - apply (inv_wf _ Hinv2).
    - apply bt_get_insert_eq. }
  assert (∀ x d', details (sh_arcs st2) x = Some d' → details (sh_arcs st1) x = Some d') as Hsub.
  { intros x d' Hx%drop_opt_details. by rewrite clone_details in Hx. }
  exists (st2, <[i := THave ip id]> ts1). split_and!.
  - cbn [run_schedule]. rewrite Hs1. cbn [mbind option_bind]. by rewrite Hs2.
  - exists id. cbn [fst snd]. unfold ts1. rewrite list_insert_insert_eq, Hins. split; [done|].
    rewrite Hd2. f_equal. apply Hsub in Hd2. unfold details in Hd2. rewrite Hid in Hd2.
    by simplify_eq/=.
  - apply (represents_arcs (sh_arcs st1)); [done|by intros; eapply cached_entries_live|].
    apply represents_insert; [|unfold details; by rewrite Hid].
    eapply represents_grow; [|done]. by eapply next_fresh.
Qed.
End race.

(** ** Properties *)

(** C6: for any number of threads looking functions up in one module, under any
    interleaving of the critical sections: reference counts stay exact, every
    cached entry is live and keyed by its start, no thread gets stuck on a freed
    entry, and every thread that obtained details holds a live entry covering its
    address that was parsed from the module. *)
Theorem concurrent_lookup_correct `{Profile} (m : ModuleData) (ips : list Z) (sched : list nat)
    (st : Shared) (ts : list thread) :
  module_ok m → run_schedule m (sys_init ips) sched = Some (st, ts) →
  arcs_exact (sh_arcs st) (refs (st, ts)) ∧
  (∀ k id, bt_get k (sh_cache st) = Some id →
     ∃ d, details (sh_arcs st) id = Some d ∧ start_ip d = k) ∧
  (∀ t, t ∈ ts → tstep m st t = None → t = TDone ∨ t = TFailed) ∧
  (∀ ip id, THave ip id ∈ ts →
     ∃ d, details (sh_arcs st) id = Some d ∧ covers d ip ∧
          ∃ ip', parse_function_details m ip' = Ok d).
Proof.
  intros Hm Hr. pose proof (run_schedule_inv m _ _ _ Hm (sys_init_inv m ips) Hr) as Hinv.
  pose proof Hinv as [Hwf Hc Hk Hd Hts]. split_and!; [done|..].
  - intros k id Hg. destruct (cached_live m st ts Hinv k id Hg) as (n & d & Hid & Hst).
    exists d. split; [|done]. unfold details. by rewrite Hid.
  - intros t [i Hi]%list_elem_of_lookup Hs. pose proof (tstep_inv m st ts i t Hm Hinv Hi) as Ht.
    by rewrite Hs in Ht.
  - intros ip id [i Hi]%list_elem_of_lookup.
    destruct (held_live m st ts i Hinv _ id Hi) as (n & d & Hid).
    { simpl. by rewrite decide_True. }
    assert (details (sh_arcs st) id = Some d) as Hdd by (unfold details; by rewrite Hid).
    exists d. split_and!; [done|..].
    + simpl in Hts. rewrite Forall_lookup in Hts. by apply (Hts i (THave ip id)).
    + destruct (Hd _ _ Hdd) as [_ (ip' & _ & Hp)]. eauto.
Qed.

(** C19: refinement: a thread that runs its lookup alone, in a system whose cache
    represents the module's cache, ends with what the sequential
    [get_or_parse_function_details] returns (details or failure), and the caches
    still correspond. *)
Theorem lookup_thread_refines `{Profile} (m : ModuleData) (st : Shared) (ts : list thread)
    (i : nat) (ip : Z) (h : Heap) (abs : list (Z * FunctionDetails)) :
  module_ok m → sys_inv m (st, ts) → ts !! i = Some (TStart ip) →
  lock h m = Some abs → represents (sh_arcs st) (sh_cache st) abs →
  ∃ n sys', run_schedule m (st, ts) (replicate n i) = Some sys' ∧
    lookup_outcome sys'.2 (sh_arcs sys'.1) i ip (get_or_parse_function_details m ip h).1 ∧
    ∃ abs', lock (get_or_parse_function_details m ip h).2 m = Some abs' ∧
            represents (sh_arcs sys'.1) (sh_cache sys'.1) abs'.
Proof.
  intros Hm Hinv Ht Hl Hrep.
  assert (∀ t', <[i := t']> ts !! i = Some t') as Hins.
  { intros t'. apply list_lookup_insert_eq. by eapply lookup_lt_Some. }
  unfold get_or_parse_function_details, mbind, sm_bind.
  destruct (start_refines m st ts i ip h abs Hinv Ht Hl Hrep) as [(id & d & -> & Hd & Hs)|[-> Hs]].
  - exists 1%nat. eexists. split_and!.
    + simpl. by rewrite Hs.
    + exists id. simpl. by rewrite Hins, clone_details.
    + exists abs. split; [done|]. eapply represents_grow; [|done]. simpl. intros x d'.
      by rewrite clone_details.
  - unfold sm_lift. destruct (parse_function_details m ip) as [d| | | |] eqn:Hp.
    1: { destruct (miss_refines m st (<[i := TMissed ip]> ts) i ip h abs d) as (sys' & Hr & Ho & Hrep');
           [done|by eapply sys_step_inv|apply Hins|done|done|done|].
         exists 3%nat, sys'. split_and!.
         - change (replicate 3 i) with (i :: [i; i]). cbn [run_schedule]. by rewrite Hs.
         - unfold cache_insert, mbind, sm_bind, sm_get. by rewrite Hl.
         - unfold cache_insert, mbind, sm_bind, sm_get, sm_modify. rewrite Hl. simpl.
           eexists. split; [apply lock_set_cache|done]. }
    all: exists 2%nat; eexists; (split_and!;
      [simpl; rewrite Hs; simpl; erewrite sys_step_eq; [done|apply Hins|simpl; by rewrite Hp]
      |simpl; by rewrite list_insert_insert_eq, Hins|by exists abs]).
Qed.

(** As long as lookups do not overlap (each thread finishes using its
    cursor before another starts), the raw pointer [find_proc_info] gave to
    libunwind always points at live details. *)
Theorem sequential_lookups_never_dangle `{Profile} (m : ModuleData) (ips : list Z)
    (st : Shared) (ts : list thread) :
  module_ok m → solo_run m (sys_init ips) (st, ts) → ∀ t, t ∈ ts → ¬ dangling st t.
Proof.
  intros Hm Hr. destruct (solo_run_cached m _ _ Hm Hr (sys_init_inv m ips)) as [Hinv Hc].
  { simpl. apply Forall_fmap. by apply Forall_true. }
  intros t Ht Hdang. simpl in Hc. rewrite Forall_forall in Hc. specialize (Hc t Ht).
  destruct t as [| | | |ip id| |]; simpl in *; try done. destruct Hc as [k Hg].
  destruct (cached_live m st ts Hinv k id Hg) as (n & d & Hid & _). congruence.
Qed.

(** Two threads that miss the cache for the same function at the same time
    both parse and insert it; the second insertion frees the details the first
    thread's cursor is still using, although the code comments that the cache
    keeps them alive for the lifetime of the module. *)
Theorem concurrent_miss_dangles :
  ∃ st ts, run_schedule (H:=true) one_fde_module (sys_init [0x1004; 0x1008])
             [0; 1; 0; 0; 0; 1; 1]%nat = Some (st, ts) ∧
    ∃ t, t ∈ ts ∧ dangling st t.
Proof.
  eexists _, _. split; [vm_compute; reflexivity|].
  exists (TUsing 0x1004 0). split; [left|by vm_compute].
Qed.

(** *** Witnesses *)
Lemma concurrent_lookup_correct_witness :
  ∃ st ts, run_schedule (H:=true) one_fde_module (sys_init [0x1004; 0x1008])
             [0; 1; 0; 0; 1; 1]%nat = Some (st, ts) ∧
    arcs_exact (sh_arcs st) (refs (st, ts)).
Proof.
  eexists _, _. split; [vm_compute; reflexivity|].
  refine (proj1 (concurrent_lookup_correct (H:=true) one_fde_module [0x1004; 0x1008]
    [0; 1; 0; 0; 1; 1]%nat _ _ one_fde_module_ok _)). vm_compute. reflexivity.
Defined.

Lemma lookup_thread_refines_witness :
  ∃ n sys', run_schedule (H:=true) one_fde_module (sys_init [0x1004]) (replicate n 0%nat) = Some sys' ∧
    lookup_outcome sys'.2 (sh_arcs sys'.1) 0 0x1004
      (get_or_parse_function_details (H:=true) one_fde_module 0x1004 one_fde_heap).1 ∧
    ∃ abs', lock (get_or_parse_function_details (H:=true) one_fde_module 0x1004 one_fde_heap).2
              one_fde_module = Some abs' ∧
            represents (sh_arcs sys'.1) (sh_cache sys'.1) abs'.
Proof.
  apply (lookup_thread_refines (H:=true) one_fde_module shared_init [TStart 0x1004] 0 0x1004
           one_fde_heap []).
  - apply one_fde_module_ok.
  - apply (sys_init_inv (H:=true) one_fde_module [0x1004]).
  - reflexivity.
  - by vm_compute.
  - constructor.
Defined.

Lemma sequential_lookups_never_dangle_witness :
  ∃ st ts, solo_run (H:=true) one_fde_module (sys_init [0x1004; 0x1008]) (st, ts) ∧
    TUsing 0x1004 0 ∈ ts ∧ ∀ t, t ∈ ts → ¬ dangling st t.
Proof.
  assert (∃ st ts, solo_run (H:=true) one_fde_module (sys_init [0x1004; 0x1008]) (st, ts) ∧
    TUsing 0x1004 0 ∈ ts) as (st & ts & Hr & Hin).
  { eexists _, _. split.
    - do 4 (eapply (solo_step _ _ 0%nat);
        [intros [|[|j]] t Hj Ht; by simplify_eq/=|vm_compute; reflexivity|]). apply solo_done.
    - left. }
  exists st, ts. split_and!; [done|done|].
  apply (sequential_lookups_never_dangle (H:=true) one_fde_module [0x1004; 0x1008] st ts
           one_fde_module_ok Hr).
Defined.
