(* ===== verification/CacheLock.v ===== *)
(** * The lock around a function cache

    [get_or_parse_function_details] of [src/src/callbacks.rs] locks the cache of the module twice,
    once to look and once to insert, and parses in between without the lock.  Here
    the [Mutex] is explicit: a thread that asks for it waits while another holds it,
    every access to the cache happens while it is held, and a guard is dropped by a
    step of its own.  This justifies the atomic critical sections of [CacheRace]: a
    run of the threads here is a run of the threads there, and under every fair
    schedule they all finish. *)

From stdpp Require Import gmap.
From S2P Require Import Prelude.
From S2P Require Import BTree.
From S2P Require Import Modules.
From S2P Require Import Callbacks.
From S2P Require Import CacheRace.

(** [Mutex<BTreeMap<..>>] and the [Arc]s: who holds the guard, and whether a thread
    panicked while it did. *)
Record Locked : Type := mkLocked {
  lk_shared : Shared;
  lk_holder : option nat;
  lk_poisoned : bool;
}.

Definition with_shared (sh : Shared) (st : Locked) : Locked :=
  mkLocked sh (lk_holder st) (lk_poisoned st).
Definition unlock (st : Locked) : Locked := mkLocked (lk_shared st) None (lk_poisoned st).
(** A panic drops the guard a thread holds, which poisons the mutex. *)
Definition panicking (i : nat) (st : Locked) : Locked :=
  if decide (lk_holder st = Some i) then mkLocked (lk_shared st) None true else st.

(** Where a thread is in [find_proc_info] for [ip]. *)
Inductive lthread : Type :=
  | LWait (ip : Z)                 (* at the first [lock()] *)
  | LLook (ip : Z)                 (* holds the guard, to search the cache *)
  | LHit (ip : Z) (id : nat)       (* holds the guard, returns a clone of the [Arc] *)
  | LMiss (ip : Z)                 (* holds the guard, at the end of the block *)
  | LParse (ip : Z)                (* to parse, without the guard *)
  | LWaitInsert (ip : Z) (id : nat)  (* at the second [lock()] *)
  | LInsert (ip : Z) (id : nat)    (* holds the guard, to insert *)
  | LInserted (ip : Z) (id : nat)  (* holds the guard, returns *)
  | LHave (ip : Z) (id : nat)      (* has the details *)
  | LUsing (ip : Z) (id : nat)     (* libunwind reads them *)
  | LDone
  | LFailed.

Definition holds_guard (t : lthread) : bool :=
  match t with LLook _ | LHit _ _ | LMiss _ | LInsert _ _ | LInserted _ _ => true | _ => false end.
Definition waits (t : lthread) : bool :=
  match t with LWait _ | LWaitInsert _ _ => true | _ => false end.
Definition finished (t : lthread) : bool := match t with LDone | LFailed => true | _ => false end.

(** What a thread is doing in the terms of [CacheRace]. *)
Definition atomic (t : lthread) : thread :=
  match t with
  | LWait ip | LLook ip => TStart ip
  | LMiss ip | LParse ip => TMissed ip
  | LWaitInsert ip id | LInsert ip id => TParsed ip id
  | LHit ip id | LInserted ip id | LHave ip id => THave ip id
  | LUsing ip id => TUsing ip id
  | LDone => TDone
  | LFailed => TFailed
  end.

Section lock.
Context `{Profile} (m : ModuleData).

(** [module.function_cache.lock()]: waits while another thread has the guard; an
    error of the caller when the mutex is poisoned. *)
Definition lock_mutex (i : nat) (st : Locked) (locked : lthread) : option (Locked * lthread) :=
  match lk_holder st with
  | Some _ => None
  | None =>
      Some (if lk_poisoned st then (st, LFailed)
            else (mkLocked (lk_shared st) (Some i) false, locked))
  end.

(** One step of thread [i]. *)
Definition lstep (i : nat) (st : Locked) (t : lthread) : option (Locked * lthread) :=
  let sh := lk_shared st in
  match t with
  | LWait ip => lock_mutex i st (LLook ip)
  | LLook ip =>
      match bt_floor ip (sh_cache sh) with
      | Some (_, id) =>
          '(_, d) ← sh_arcs sh !! id;
          Some (if ip <? end_ip d
                then (with_shared (mkShared (sh_cache sh) (clone_arc id (sh_arcs sh)) (sh_next sh)) st,
                      LHit ip id)
                else (st, LMiss ip))
      | None => Some (st, LMiss ip)
      end
  | LHit ip id => Some (unlock st, LHave ip id)
  | LMiss ip => Some (unlock st, LParse ip)
  | LParse ip =>
      match parse_function_details m ip with
      | Ok d =>
          Some (with_shared (mkShared (sh_cache sh) (<[sh_next sh := (1%nat, d)]> (sh_arcs sh))
                               (S (sh_next sh))) st, LWaitInsert ip (sh_next sh))
      | Panic => Some (panicking i st, LFailed)
      | _ => Some (st, LFailed)
      end
  | LWaitInsert ip id => lock_mutex i st (LInsert ip id)
  | LInsert ip id =>
      '(_, d) ← sh_arcs sh !! id;
      Some (with_shared (mkShared (bt_insert (start_ip d) id (sh_cache sh))
              (drop_opt (bt_get (start_ip d) (sh_cache sh)) (clone_arc id (sh_arcs sh)))
              (sh_next sh)) st, LInserted ip id)
  | LInserted ip id => Some (unlock st, LHave ip id)
  | LHave ip id =>
      Some (with_shared (mkShared (sh_cache sh) (drop_arc id (sh_arcs sh)) (sh_next sh)) st,
            LUsing ip id)
  | LUsing ip id => Some (st, LDone)
  | LDone | LFailed => None
  end.

(** A whole system.  A thread that is scheduled while it waits, or after it
    finished, does nothing. *)
Definition LSystem : Type := Locked * list lthread.

Definition lsys_step (sys : LSystem) (i : nat) : option LSystem :=
  t ← sys.2 !! i;
  '(st, t') ← lstep i sys.1 t;
  Some (st, <[i := t']> sys.2).

Definition turn (sys : LSystem) (i : nat) : LSystem := default sys (lsys_step sys i).
Definition play (sys : LSystem) (sched : list nat) : LSystem := foldl turn sys sched.

Definition lsys_init (ips : list Z) : LSystem := (mkLocked shared_init None false, LWait <$> ips).

Definition atomic_system (sys : LSystem) : System := (lk_shared sys.1, atomic <$> sys.2).

(** ** The guard *)
Record lock_inv (sys : LSystem) : Prop := {
  li_holder : ∀ i t, sys.2 !! i = Some t → holds_guard t = true ↔ lk_holder sys.1 = Some i;
  li_range : ∀ i, lk_holder sys.1 = Some i → (i < length sys.2)%nat;
  li_clean : lk_poisoned sys.1 = false;
}.

(** What a step does to the guard. *)
Lemma lstep_guard i st t st' t' :
  lstep i st t = Some (st', t') → lk_poisoned st = false →
  (holds_guard t = true ↔ lk_holder st = Some i) →
  lk_poisoned st' = false ∧ (holds_guard t' = true ↔ lk_holder st' = Some i) ∧
  ∀ j, j ≠ i → lk_holder st' = Some j ↔ lk_holder st = Some j.
Proof.
  destruct st as [sh h po]. cbn. intros Hs -> Hg.
  assert (∀ o : option nat, o = None → ∀ j, o ≠ Some j) as Hnone by congruence.
  destruct t as [ip|ip|ip id|ip|ip|ip id|ip id|ip id|ip id|ip id| |]; cbn in Hs, Hg.
  2: destruct (bt_floor ip _) as [[k id]|];
       [destruct (sh_arcs sh !! id) as [[n d]|]; cbn in Hs; [destruct (ip <? end_ip d)|done]|].
  7: { assert (panicking i (mkLocked sh h false) = mkLocked sh h false) as Hpk.
       { unfold panicking. cbn. rewrite decide_False; [done|]. intros Hi. by apply Hg in Hi. }
       destruct (parse_function_details m ip); rewrite ?Hpk in Hs; by simplify_eq. }
  8: destruct (sh_arcs sh !! id) as [[n d]|]; cbn in Hs; [|done].
  all: unfold lock_mutex in Hs; cbn in Hs; try (destruct h; [done|]); simplify_eq; cbn; (split; [done|]).
  all: try (pose proof (proj1 Hg eq_refl) as ->); split; [tauto || (split; congruence)|].
  all: intros j Hj; split; congruence.
Qed.

Lemma lsys_step_cases sys i sys' :
  lsys_step sys i = Some sys' →
  ∃ t st' t', sys.2 !! i = Some t ∧ lstep i sys.1 t = Some (st', t') ∧ sys' = (st', <[i := t']> sys.2).
Proof.
  unfold lsys_step. destruct (sys.2 !! i) as [t|]; cbn; [|done].
  destruct (lstep i sys.1 t) as [[st' t']|] eqn:Hs; cbn; [|done]. intros [= <-]. by exists t, st', t'.
Qed.

Lemma lock_inv_step sys i sys' : lock_inv sys → lsys_step sys i = Some sys' → lock_inv sys'.
Proof.
  intros [Hh Hr Hp] (t & st' & t' & Ht & Hs & ->)%lsys_step_cases.
  destruct (lstep_guard _ _ _ _ _ Hs Hp (Hh i t Ht)) as (Hp' & Hi & Ho).
  pose proof (lookup_lt_Some _ _ _ Ht). split; cbn; [|intros j Hj|done].
  - intros j u Hu. destruct (decide (j = i)) as [->|Hj].
    + rewrite list_lookup_insert_eq in Hu by done. by injection Hu as <-.
    + rewrite list_lookup_insert_ne in Hu by done. rewrite Ho by done. by apply Hh.
  - rewrite length_insert. destruct (decide (j = i)) as [->|]; [done|]. apply Hr. by apply Ho.
Qed.

Lemma lock_inv_init ips : lock_inv (lsys_init ips).
Proof.
  split; cbn; [|done..]. intros i t Ht. rewrite list_lookup_fmap in Ht.
  destruct (ips !! i); by simplify_eq/=.
Qed.

(** ** The critical sections are atomic *)

(** A step is one step of [CacheRace], or none. *)
Lemma lstep_atomic i st t st' t' :
  lstep i st t = Some (st', t') → lk_poisoned st = false →
  (lk_shared st' = lk_shared st ∧ atomic t' = atomic t) ∨
  tstep m (lk_shared st) (atomic t) = Some (lk_shared st', atomic t').
Proof.
  destruct st as [sh h po]. cbn. intros Hs ->.
  destruct t as [ip|ip|ip id|ip|ip|ip id|ip id|ip id|ip id|ip id| |]; cbn in Hs |- *;
    unfold lock_mutex in Hs; cbn in Hs; try (destruct h; [done|]); simplify_eq; try (by left); try (by right); right.
  - destruct (bt_floor ip _) as [[k id]|]; [|by simplify_eq].
    destruct (sh_arcs sh !! id) as [[n d]|]; cbn in Hs |- *; [destruct (ip <? end_ip d)|]; by simplify_eq.
  - unfold panicking in Hs. destruct (parse_function_details m ip); simplify_eq; cbn; try done.
    by case_decide.
  - destruct (sh_arcs sh !! id) as [[n d]|]; cbn in Hs |- *; by simplify_eq.
Qed.

(** A thread that cannot move waits for the guard, or has no step in [CacheRace]. *)
Lemma lstep_stuck i st t :
  lstep i st t = None →
  (waits t = true ∧ lk_holder st ≠ None) ∨ tstep m (lk_shared st) (atomic t) = None.
Proof.
  destruct st as [sh h po]. cbn. intros Hs.
  destruct t as [ip|ip|ip id|ip|ip|ip id|ip id|ip id|ip id|ip id| |]; cbn in Hs |- *; unfold lock_mutex in Hs;
    cbn in Hs; try (by destruct h; [left|]); simplify_eq; right; try done.
  - destruct (bt_floor ip _) as [[k id]|]; [|done]. by destruct (sh_arcs sh !! id) as [[n d]|].
  - by destruct (parse_function_details m ip).
  - by destruct (sh_arcs sh !! id) as [[n d]|].
Qed.

Lemma run_schedule_app sys sched sched' :
  run_schedule m sys (sched ++ sched') = run_schedule m sys sched ≫= λ sys', run_schedule m sys' sched'.
Proof.
  revert sys. induction sched as [|i sched IH]; intros sys; [done|]. cbn.
  destruct (sys_step m sys i) as [sys1|]; [apply IH|done].
Qed.

(** What holds of every system that a schedule reaches. *)
Record lock_ok (ips : list Z) (sys : LSystem) : Prop := {
  lo_guard : lock_inv sys;
  lo_atomic : ∃ sched, run_schedule m (sys_init ips) sched = Some (atomic_system sys);
}.

Lemma lock_ok_init ips : lock_ok ips (lsys_init ips).
Proof.
  split; [apply lock_inv_init|]. exists []. cbn. unfold atomic_system, sys_init. cbn.
  by rewrite <- list_fmap_compose.
Qed.

Lemma lock_ok_step ips sys i sys' : lock_ok ips sys → lsys_step sys i = Some sys' → lock_ok ips sys'.
Proof.
  intros [Hg [sched Hr]] Hs. split; [by eapply lock_inv_step|].
  apply lsys_step_cases in Hs as (t & st' & t' & Ht & Hs & ->). destruct sys as [st ts]. cbn in Ht, Hs.
  assert ((atomic <$> ts) !! i = Some (atomic t)) as Hat by by rewrite list_lookup_fmap, Ht.
  unfold atomic_system in *. cbn in *. rewrite list_fmap_insert.
  destruct (lstep_atomic _ _ _ _ _ Hs (li_clean _ Hg)) as [[-> ->]|Hstep].
  - exists sched. by rewrite list_insert_id.
  - exists (sched ++ [i])%list. rewrite run_schedule_app, Hr. cbn.
    by rewrite (sys_step_eq m _ _ _ _ _ _ Hat Hstep).
Qed.

Lemma lock_ok_play ips sys sched : lock_ok ips sys → lock_ok ips (play sys sched).
Proof.
  unfold play. revert sys. induction sched as [|i sched IH]; intros sys Hok; [done|]. cbn. apply IH.
  unfold turn. destruct (lsys_step sys i) eqn:Hs; cbn; [by eapply lock_ok_step|done].
Qed.

(** ** Progress *)

(** The steps a thread has left, at most. *)
Definition steps_left (t : lthread) : nat :=
  match t with
  | LWait _ => 9 | LLook _ => 8 | LMiss _ => 7 | LParse _ => 6 | LWaitInsert _ _ => 5
  | LInsert _ _ => 4 | LInserted _ _ | LHit _ _ => 3 | LHave _ _ => 2 | LUsing _ _ => 1
  | LDone | LFailed => 0
  end.

Definition total_left (sys : LSystem) : nat := sum_list (steps_left <$> sys.2).

Lemma lstep_decreases i st t st' t' :
  lstep i st t = Some (st', t') → (steps_left t' < steps_left t)%nat.
Proof.
  destruct t as [ip|ip|ip id|ip|ip|ip id|ip id|ip id|ip id|ip id| |]; cbn; unfold lock_mutex;
    intros Hs; try (destruct (lk_holder st); [done|]; destruct (lk_poisoned st));
    try (by simplify_eq; cbn; lia).
  - destruct (bt_floor ip _) as [[k id]|]; [|simplify_eq; cbn; lia].
    destruct (sh_arcs _ !! id) as [[n d]|]; cbn in Hs; [|done].
    destruct (ip <? end_ip d); simplify_eq; cbn; lia.
  - destruct (parse_function_details m ip); simplify_eq; cbn; lia.
  - destruct (sh_arcs _ !! id) as [[n d]|]; cbn in Hs; [simplify_eq; cbn; lia|done].
Qed.

Lemma sum_insert (f : lthread → nat) ts i t t' :
  ts !! i = Some t →
  (sum_list (f <$> <[i := t']> ts) + f t = sum_list (f <$> ts) + f t')%nat.
Proof.
  revert i. induction ts as [|x ts IH]; intros [|i] Hi; simplify_eq/=; [lia|].
  specialize (IH i Hi). lia.
Qed.

Lemma lsys_step_decreases sys i sys' :
  lsys_step sys i = Some sys' → (total_left sys' < total_left sys)%nat.
Proof.
  intros (t & st' & t' & Ht & Hs & ->)%lsys_step_cases. unfold total_left. cbn.
  pose proof (sum_insert steps_left _ _ _ t' Ht). pose proof (lstep_decreases _ _ _ _ _ Hs). lia.
Qed.

(** Deadlock freedom: the holder of the guard can move, and when nobody holds it
    every thread can that has not finished. *)
Lemma somebody_moves ips sys i t :
  module_ok m → lock_ok ips sys → sys.2 !! i = Some t → finished t = false →
  ∃ j, (j < length sys.2)%nat ∧ lsys_step sys j ≠ None.
Proof.
  intros Hm [Hg [sched Hr]] Ht Hf. destruct sys as [st ts]. cbn in Ht.
  assert (∀ j u, ts !! j = Some u → finished u = false →
    (lk_holder st = None ∨ holds_guard u = true) → lsys_step (st, ts) j ≠ None) as Hmove.
  { intros j u Hu Hfu Hor. unfold lsys_step. cbn. rewrite Hu. cbn.
    destruct (lstep j st u) as [[]|] eqn:Hs; [done|]. intros _.
    destruct (lstep_stuck _ _ _ Hs) as [[Hw Hh]|Hstuck]; [destruct Hor; [done|by destruct u]|].
    assert ((atomic <$> ts) !! j = Some (atomic u)) as Hat by by rewrite list_lookup_fmap, Hu.
    pose proof (run_schedule_inv m _ _ _ Hm (sys_init_inv m ips) Hr) as Hinv.
    pose proof (tstep_inv m _ _ _ _ Hm Hinv Hat) as Hti. cbn in Hti. rewrite Hstuck in Hti.
    destruct Hti; by destruct u. }
  destruct (lk_holder st) as [j|] eqn:Hh.
  - pose proof (li_range _ Hg j Hh) as Hj. cbn in Hj. exists j. split; [done|].
    apply lookup_lt_is_Some in Hj as [u Hu]. pose proof (proj2 (li_holder _ Hg j u Hu) Hh) as Hgu.
    eapply Hmove; [exact Hu|by destruct u|by right].
  - exists i. split; [by eapply lookup_lt_Some|]. eapply Hmove; [exact Ht|exact Hf|by left].
Qed.

(** A schedule makes a step, or none of its threads can move. *)
Lemma play_progress sys sched :
  (total_left (play sys sched) < total_left sys)%nat ∨
  (play sys sched = sys ∧ Forall (λ i, lsys_step sys i = None) sched).
Proof.
  unfold play. revert sys. induction sched as [|i sched IH]; intros sys; [by right|]. cbn. unfold turn at 2 4.
  destruct (lsys_step sys i) as [sys'|] eqn:Hs; cbn.
  - left. apply lsys_step_decreases in Hs. destruct (IH sys') as [|[-> _]]; lia.
  - destruct (IH sys) as [|[-> Hf]]; [by left|right]. split; [done|by constructor].
Qed.

(** A round of a fair schedule gives every thread a turn. *)
Definition fair_round (n : nat) (round : list nat) : Prop := ∀ i, (i < n)%nat → i ∈ round.

Lemma length_turn sys i : length (turn sys i).2 = length sys.2.
Proof.
  unfold turn. destruct (lsys_step sys i) as [sys'|] eqn:Hs; cbn; [|done].
  apply lsys_step_cases in Hs as (t & st' & t' & _ & _ & ->). apply length_insert.
Qed.

Lemma length_play sys sched : length (play sys sched).2 = length sys.2.
Proof.
  unfold play. revert sys. induction sched as [|i sched IH]; intros sys; [done|]. cbn.
  by rewrite IH, length_turn.
Qed.

Lemma fair_round_progress ips sys round :
  module_ok m → lock_ok ips sys → fair_round (length sys.2) round →
  Forall (λ t, finished t = true) sys.2 ∨ (total_left (play sys round) < total_left sys)%nat.
Proof.
  intros Hm Hok Hfair. destruct (play_progress sys round) as [|[_ Hstuck]]; [by right|left].
  apply Forall_lookup. intros i t Ht. destruct (finished t) eqn:Hf; [done|].
  destruct (somebody_moves ips sys i t Hm Hok Ht Hf) as (j & Hj & Hmove).
  rewrite Forall_forall in Hstuck. destruct Hmove. by apply Hstuck, Hfair.
Qed.

Lemma finished_play sys sched :
  Forall (λ t, finished t = true) sys.2 → play sys sched = sys.
Proof.
  intros Hf. destruct (play_progress sys sched) as [Hlt|[-> _]]; [|done].
  assert (total_left sys = 0%nat) as Hz; [|lia]. unfold total_left.
  induction Hf as [|t ts Ht _ IH]; [done|]. cbn. rewrite IH. by destruct t.
Qed.

(** As many rounds as steps are left are enough. *)
Lemma fair_rounds_finish ips rounds sys :
  module_ok m → lock_ok ips sys → (total_left sys ≤ length rounds)%nat →
  Forall (fair_round (length sys.2)) rounds →
  Forall (λ t, finished t = true) (play sys (concat rounds)).2.
Proof.
  intros Hm. revert sys. induction rounds as [|round rounds IH]; intros sys Hok Hl Hfair.
  - cbn. apply Forall_lookup. intros i t Ht. unfold total_left in Hl. cbn in Hl.
    pose proof (sum_insert steps_left _ _ _ LDone Ht) as Hs. cbn in Hs. destruct t; cbn in Hs; lia || done.
  - cbn. unfold play. rewrite foldl_app. fold (play sys round).
    apply Forall_cons in Hfair as [Hr Hrs].
    destruct (fair_round_progress ips sys round Hm Hok Hr) as [Hf|Hlt].
    + rewrite (finished_play _ round Hf). fold (play sys (concat rounds)). by rewrite finished_play.
    + apply IH; [by apply lock_ok_play|cbn in Hl; lia|by rewrite length_play].
Qed.
End lock.

(** C13: the locking of the function cache is right, for all threads that look up
    functions of a module at the same time: at every point of every schedule each
    thread that works on the cache is the one that holds the guard, the mutex is
    never poisoned, the cache and the threads are in a state that the atomic steps
    of [CacheRace] reach, and there is no deadlock: if a thread has not finished,
    one can move.  And under every fair schedule of nine rounds per thread, whatever the
    order within the rounds, all lookups finish, and the guard is free. *)
Theorem lookups_finish `{Profile} (m : ModuleData) (ips : list Z) :
  module_ok m →
  (∀ sched, let sys := play m (lsys_init ips) sched in
     (∀ i t, sys.2 !! i = Some t → holds_guard t = true ↔ lk_holder sys.1 = Some i) ∧
     lk_poisoned sys.1 = false ∧
     (∃ sched', run_schedule m (sys_init ips) sched' = Some (atomic_system sys)) ∧
     ∀ i t, sys.2 !! i = Some t → finished t = false → ∃ j, lsys_step m sys j ≠ None) ∧
  (∀ rounds, (9 * length ips ≤ length rounds)%nat → Forall (fair_round (length ips)) rounds →
     let sys := play m (lsys_init ips) (concat rounds) in
     Forall (λ t, finished t = true) sys.2 ∧ length sys.2 = length ips ∧ lk_holder sys.1 = None).
Proof.
  intros Hm. pose proof (λ s, lock_ok_play m ips _ s (lock_ok_init m ips)) as Hplay. split.
  - intros sched. pose proof (Hplay sched) as Hok. cbv zeta.
    pose proof Hok as [[Hg _ Hp] Ha]. split_and!; [exact Hg|exact Hp|exact Ha|]. intros i t Ht Hf.
    destruct (somebody_moves m ips _ i t Hm Hok Ht Hf) as (j & _ & Hj). by exists j.
  - intros rounds Hl Hfair sys. assert (length (lsys_init ips).2 = length ips) as Hlen by apply length_fmap.
    assert (Forall (λ t, finished t = true) sys.2) as Hf.
    { apply (fair_rounds_finish m ips); [done|apply lock_ok_init| |by rewrite Hlen].
      etrans; [|exact Hl]. unfold total_left, lsys_init. cbn. clear. induction ips; cbn in *; lia. }
    split_and!; [exact Hf|by unfold sys; rewrite length_play|].
    pose proof (Hplay (concat rounds)) as [[Hg Hr _] _]. fold sys in Hg, Hr.
    destruct (lk_holder sys.1) as [i|] eqn:Hh; [|done]. specialize (Hr i eq_refl).
    apply lookup_lt_is_Some in Hr as [t Ht]. pose proof (proj2 (Hg i t Ht) eq_refl).
    rewrite Forall_lookup in Hf. specialize (Hf i t Ht). by destruct t.
Qed.

(** *** Witness: the second thread is given a turn while the first holds the guard *)
Lemma lookups_finish_witness :
  let sys := play (H:=true) one_fde_module (lsys_init [0x1004; 0x1008]) [0; 1; 1; 0]%nat in
  sys.2 = [LMiss 0x1004; LWait 0x1008] ∧ lk_holder sys.1 = Some 0%nat ∧
  let sys := play (H:=true) one_fde_module (lsys_init [0x1004; 0x1008])
               (concat (replicate 18 [1; 0]%nat)) in
  sys.2 = [LDone; LDone] ∧ lk_holder sys.1 = None.
Proof.
  split; [by vm_compute|]. split; [by vm_compute|]. split; [by vm_compute|].
  apply (proj2 (lookups_finish (H:=true) one_fde_module [0x1004; 0x1008] one_fde_module_ok)); [cbn; lia|].
  apply Forall_replicate. intros i Hi. cbn in Hi. rewrite !elem_of_cons. lia.
Defined.
