(* ===== verification/AddressSpace.v ===== *)
(** * [src/src/address_space.rs]: driving libunwind

    libunwind is third-party C code, so it is a parameter: [LibunwindApi] gives the
    functions the crate calls.  Each is a program that may call the accessors
    any finite number of times in any order, with any arguments, and continue
    depending on what they return ([UProg]); the theorems hold for all of them.
    [run_prog] is the accessor table: it answers every call with the crate's
    callback. *)

From stdpp Require Import gmap.
From S2P Require Import Prelude.
From S2P Require Import BTree.
From S2P Require Import EhFrameTable.
From S2P Require Import Ffi.
From S2P Require Import Errors.
From S2P Require Import Modules.
From S2P Require Import ModuleSet.
From S2P Require Import Callbacks.

(** ** libunwind as a client of the callbacks *)
Inductive UProg (A : Type) : Type :=
  | URet (a : A)
  | UFindProcInfo (ip : Z) (pi : UnwProcInfo) (need : Z) (k : Z → UnwProcInfo → UProg A)
  | UPutUnwindInfo (pi : UnwProcInfo) (k : UProg A)
  | UGetDynInfoListAddr (val : Z) (k : Z → Z → UProg A)
  | UAccessMem (addr val write : Z) (k : Z → Z → UProg A)
  | UAccessReg (reg val write : Z) (k : Z → Z → UProg A)
  | UAccessFpreg (reg : Z) (val : Z * Z) (write : Z) (k : Z → Z * Z → UProg A).
Arguments URet {A} a.
Arguments UFindProcInfo {A}.
Arguments UPutUnwindInfo {A}.
Arguments UGetDynInfoListAddr {A}.
Arguments UAccessMem {A}.
Arguments UAccessReg {A}.
Arguments UAccessFpreg {A}.

(** The libunwind functions of [ffi/mod.rs].  [unw_create_addr_space] returns a
    handle, null being 0; the others work on the cursor and return a status. *)
Class LibunwindApi : Type := {
  UnwCursor : Type;
  cursor_zeroed : UnwCursor;
  unw_create_addr_space : Z → Z;
  unw_init_remote : UnwCursor → Z → UProg (Z * UnwCursor);
  unw_step : UnwCursor → UProg (Z * UnwCursor);
  unw_get_reg : UnwCursor → Z → Z → UProg (Z * Z * UnwCursor);
}.

(** Every value a program can return satisfies [P]. *)
Fixpoint u_all {A} (P : A → Prop) (p : UProg A) : Prop :=
  match p with
  | URet a => P a
  | UFindProcInfo _ _ _ k => ∀ r pi, u_all P (k r pi)
  | UPutUnwindInfo _ k => u_all P k
  | UGetDynInfoListAddr _ k | UAccessMem _ _ _ k | UAccessReg _ _ _ k => ∀ r v, u_all P (k r v)
  | UAccessFpreg _ _ _ k => ∀ r v, u_all P (k r v)
  end.

(** What the documentation of libunwind and the C types promise: statuses are
    error codes (never [INT_MIN]), and a register value is a 64-bit word.
    [unw_create_addr_space] may return null, as its documentation says. *)
Class LibunwindLaws (L : LibunwindApi) : Prop := {
  init_remote_status c h : u_all (λ r, i32_min < r.1) (unw_init_remote c h);
  step_status c : u_all (λ r, i32_min < r.1) (unw_step c);
  get_reg_status c reg v :
    u_all (λ r, i32_min < r.1.1 ∧ is_u64 r.1.2) (unw_get_reg c reg v);
}.

Inductive StepOutcome : Type :=
  | Stepped (new_ip : Z) (extras : list Z)
  | EndOfStack.

Section address_space.
Context `{Profile} `{Arch} `{LibunwindApi} {ReadT : Type}.
Context (read_fn : ReadT → Z → option Z * ReadT).
Local Abbreviation W := (World RawRegs ReadT).

(** [ACCESSORS]: every accessor call is answered by the callback. *)
Fixpoint run_prog {A} (p : UProg A) : SM W Empty_set A :=
  match p with
  | URet a => mret a
  | UFindProcInfo ip pi need k => '(r, pi) ← find_proc_info ip pi need; run_prog (k r pi)
  | UPutUnwindInfo pi k => _ ← put_unwind_info pi; run_prog k
  | UGetDynInfoListAddr v k => '(r, v) ← get_dyn_info_list_addr v; run_prog (k r v)
  | UAccessMem a v wr k => '(r, v) ← access_mem read_fn a v wr; run_prog (k r v)
  | UAccessReg reg v wr k => '(r, v) ← access_reg reg v wr; run_prog (k r v)
  | UAccessFpreg reg v wr k => '(r, v) ← access_fpreg reg v wr; run_prog (k r v)
  end.

(** The state of [init_and_step]: the world and the [ADDR_SPACE] static
    ([OnceLock]). *)
Local Abbreviation SW := (W * option Z)%type.

(** Running libunwind code leaves the static alone. *)
Definition call {E A} (p : UProg A) : SM SW E A := λ '(w, static),
  match run_prog p w with
  | (Ok a, w') => (Ok a, (w', static))
  | (Err e, w') => match e with end
  | (Panic, w') => (Panic, (w', static))
  | (UB, w') => (UB, (w', static))
  | (NoFuel, w') => (NoFuel, (w', static))
  end.

(** [get]: the process-global address space, created on first use. *)
Definition get {E} : SM SW E Z := λ '(w, static),
  match static with
  | Some handle => (Ok handle, (w, static))
  | None =>
      let raw := unw_create_addr_space UNW_LITTLE_ENDIAN in
      if raw =? 0 then (Panic, (w, static)) else (Ok raw, (w, Some raw))
  end.

(** [return Err(LibunwindError::new(phase, ret))]. *)
Definition fail {A} (phase : LibunwindPhase) (ret : Z) : SM SW LibunwindError A :=
  err ← sm_lift (LibunwindError_new phase ret); sm_err err.

(** The loop over the extra registers; only the first must be available. *)
Fixpoint read_extras (index : nat) (regs : list Z) (cursor : UnwCursor) (extras : list Z)
    : SM SW LibunwindError (list Z) :=
  match regs with
  | [] => mret extras
  | reg :: regs' =>
      '(ret, val, cursor) ← call (unw_get_reg cursor reg 0);
      if ret <? 0 then
        if (index =? 0)%nat then fail (GetRegister reg) ret
        else read_extras (S index) regs' cursor extras
      else read_extras (S index) regs' cursor (<[index := val]> extras)
  end.

(** [init_and_step] after its first line. *)
Definition init_and_step_in (addr_space : Z) (extra_regs : list Z)
    : SM SW LibunwindError StepOutcome :=
  '(init_ret, cursor) ← call (unw_init_remote cursor_zeroed addr_space);
  if init_ret <? 0 then fail InitRemote init_ret
  else
    '(step_ret, cursor) ← call (unw_step cursor);
    if step_ret <? 0 then fail Step step_ret
    else if step_ret =? 0 then mret EndOfStack
    else
      '(ret, new_ip, cursor) ← call (unw_get_reg cursor reg_ip 0);
      if ret <? 0 then fail GetInstructionPointer ret
      else
        extras ← read_extras 0 (take (Nat.min (length extra_regs) 4) extra_regs) cursor
                   (replicate 4 0);
        mret (Stepped new_ip extras).

Definition init_and_step (extra_regs : list Z) : SM SW LibunwindError StepOutcome :=
  addr_space ← get;
  init_and_step_in addr_space extra_regs.

(** ** What libunwind did in a step *)

(** The address space a step uses: the one of the static, or a new one. *)
Definition handle_of (static : option Z) : Z :=
  default (unw_create_addr_space UNW_LITTLE_ENDIAN) static.

(** In a step that starts in [w0] and reads the extra registers [extra] first,
    the call of phase [ph] is made and returns the status [ret], the register
    value [v] and the cursor [c], leaving the world [w].  A call is made only
    after the ones before it succeeded, each in the world they left. *)
Inductive called (h : Z) (extra : list Z) (w0 : W) : LibunwindPhase → Z → Z → UnwCursor → W → Prop :=
  | called_init ret c w :
      run_prog (unw_init_remote cursor_zeroed h) w0 = (Ok (ret, c), w) →
      called h extra w0 InitRemote ret 0 c w
  | called_step r v c w ret c' w' :
      called h extra w0 InitRemote r v c w → 0 ≤ r →
      run_prog (unw_step c) w = (Ok (ret, c'), w') →
      called h extra w0 Step ret 0 c' w'
  | called_ip r v c w ret v' c' w' :
      called h extra w0 Step r v c w → 0 < r →
      run_prog (unw_get_reg c reg_ip 0) w = (Ok (ret, v', c'), w') →
      called h extra w0 GetInstructionPointer ret v' c' w'
  | called_reg r v c w reg ret v' c' w' :
      called h extra w0 GetInstructionPointer r v c w → 0 ≤ r → head extra = Some reg →
      run_prog (unw_get_reg c reg 0) w = (Ok (ret, v', c'), w') →
      called h extra w0 (GetRegister reg) ret v' c' w'.

(** [e] is the decoded form of the negative status that the call of its phase
    returned in the step. *)
Definition reported (h : Z) (extra : list Z) (w0 : W) (e : LibunwindError) : Prop :=
  raw_status e < 0 ∧
  (∃ v c w, called h extra w0 (phase e) (raw_status e) v c w) ∧
  LibunwindError_new (E:=Empty_set) (phase e) (raw_status e) = Ok e.

(** The step succeeded with the instruction pointer [new_ip] and [sp] for the
    first extra register. *)
Definition stepped (h : Z) (extra : list Z) (w0 : W) (new_ip sp : Z) : Prop :=
  (∃ r c w, 0 ≤ r ∧ called h extra w0 GetInstructionPointer r new_ip c w) ∧
  ∃ reg r c w, 0 ≤ r ∧ called h extra w0 (GetRegister reg) r sp c w.

(** The step reached the end of the stack. *)
Definition stack_ended (h : Z) (extra : list Z) (w0 : W) : Prop :=
  ∃ v c w, called h extra w0 Step 0 v c w.
End address_space.

(** ** Lemmas *)
Section lemmas.
Context `{Profile} `{Arch} {L : LibunwindApi} `{!LibunwindLaws L} {ReadT : Type}.
Context (read_fn : ReadT → Z → option Z * ReadT).
Context (s : ModuleSet) (ip : Z) (Hwf : set_wf s) (Htop : below_top s).
Local Abbreviation inv := (world_inv read_fn s ip).

(** Whatever libunwind does, the context invariant holds afterwards. *)
Lemma run_prog_contract {A} (p : UProg A) (P : A → Prop) :
  u_all P p → contract (parse_panics s ip) inv (run_prog read_fn p) P (λ _, True).
Proof.
  induction p as [a|ip' pi need k IH|pi p IH|v k IH|a v wr k IH|reg v wr k IH|reg v wr k IH];
    intros Hp; cbn [run_prog].
  - by apply contract_ret.
  - eapply (contract_bind _ _ _ _ (λ _, True)); [|intros [r pi'] _; by apply IH].
    intros w Hw. pose proof (find_proc_info_safe read_fn s ip Hwf ip' pi need w Hw) as Hs.
    destruct (find_proc_info ip' pi need w) as [[[]|[]| | |] w']; try done. by destruct Hs.
  - eapply (contract_bind _ _ _ _ (λ _, True)); [by apply contract_ret|]. intros _ _. by apply IH.
  - eapply (contract_bind _ _ _ _ (λ _, True)); [by apply contract_ret|]. intros [r v'] _. by apply IH.
  - eapply (contract_bind _ _ _ _ (λ _, True)); [|intros [r v'] _; by apply IH].
    intros w Hw. pose proof (access_mem_safe read_fn s ip Hwf Htop a v wr w Hw) as Hs.
    destruct (access_mem read_fn a v wr w) as [[[]|[]| | |] w']; try done. by destruct Hs.
  - eapply (contract_bind _ _ _ _ (λ _, True)); [|intros [r v'] _; by apply IH].
    intros w Hw. pose proof (access_reg_safe read_fn s ip reg v wr w Hw) as Hs.
    by destruct (access_reg reg v wr w) as [[[]|[]| | |] w'].
  - eapply (contract_bind _ _ _ _ (λ _, True)); [by apply contract_ret|]. intros [r v'] _. by apply IH.
Qed.

Local Abbreviation sinv := (λ sw : World RawRegs ReadT * option Z, inv sw.1).
Local Abbreviation holds m Q R := (contract (parse_panics s ip) sinv m Q R).

Lemma call_contract {E A} (p : UProg A) (P : A → Prop) (R : E → Prop) :
  u_all P p → holds (call read_fn p) P R.
Proof.
  intros Hp [w static] Hw. pose proof (run_prog_contract p P Hp w Hw) as Hr. unfold call.
  by destruct (run_prog read_fn p w) as [[a|[]| | |] w'].
Qed.

Lemma LibunwindError_new_err {E} ph st :
  i32_min < st → ∃ e, LibunwindError_new (E:=E) ph st = Ok e ∧ raw_status e = st ∧ phase e = ph ∧
    LibunwindError_new (E:=Empty_set) ph st = Ok e.
Proof.
  intros Hst. unfold LibunwindError_new, from_status, i32_abs.
  destruct (Z.eqb_spec st i32_min); [lia|]. run. eexists. by split_and!.
Qed.

Lemma fail_contract {A} ph ret (Q : A → Prop) :
  i32_min < ret → holds (fail ph ret) Q (λ _, True).
Proof.
  intros Hr [w st] Hw. unfold fail, mbind, sm_bind, sm_lift.
  by destruct (LibunwindError_new_err (E:=LibunwindError) ph ret Hr) as (e & -> & _).
Qed.

Definition extras_ok (extras : list Z) : Prop :=
  length extras = 4%nat ∧ Forall is_u64 extras.

Lemma read_extras_contract regs index cursor extras :
  extras_ok extras →
  holds (read_extras read_fn index regs cursor extras) extras_ok (λ _, True).
Proof.
  revert index cursor extras. induction regs as [|reg regs IH]; intros index cursor extras Hx;
    cbn [read_extras]; [by apply contract_ret|].
  eapply contract_bind; [apply call_contract, get_reg_status|].
  intros [[ret val] cursor'] [Hret Hval]. simpl in *. destruct (Z.ltb_spec ret 0).
  - destruct (index =? 0)%nat; [by apply fail_contract|by apply IH].
  - apply IH. destruct Hx as [Hl Hf]. split; [by rewrite length_insert|].
    by apply Forall_insert.
Qed.

Definition step_ok (r : StepOutcome) : Prop :=
  match r with
  | Stepped new_ip extras => is_u64 new_ip ∧ extras_ok extras
  | EndOfStack => True
  end.

Lemma init_and_step_in_contract h extra_regs :
  holds (init_and_step_in read_fn h extra_regs) step_ok (λ _, True).
Proof.
  unfold init_and_step_in. eapply contract_bind; [apply call_contract, init_remote_status|].
  intros [r1 c1] Hr1. simpl in *. destruct (Z.ltb_spec r1 0); [by apply fail_contract|].
  eapply contract_bind; [apply call_contract, step_status|].
  intros [r2 c2] Hr2. simpl in *. destruct (Z.ltb_spec r2 0); [by apply fail_contract|].
  destruct (r2 =? 0); [by apply contract_ret|].
  eapply contract_bind; [apply call_contract, get_reg_status|].
  intros [[r3 v3] c3] [Hr3 Hv3]. simpl in *. destruct (Z.ltb_spec r3 0); [by apply fail_contract|].
  eapply contract_bind; [apply read_extras_contract; split; [done|]|].
  - by repeat constructor.
  - intros ex Hex. by apply contract_ret.
Qed.
End lemmas.

(** ** The values libunwind returns, without any assumption on the world *)
Section leaves.
Context `{Profile} `{Arch} {L : LibunwindApi} `{!LibunwindLaws L} {ReadT : Type}.
Context (read_fn : ReadT → Z → option Z * ReadT).

Lemma run_prog_leaf {A} (p : UProg A) (P : A → Prop) w a w' :
  u_all P p → run_prog read_fn p w = (Ok a, w') → P a.
Proof.
  revert w. induction p as [x|ip' pi need k IH|pi p IH|v k IH|x v wr k IH|reg v wr k IH|reg v wr k IH];
    intros w Hp; cbn [run_prog].
  - by intros [= <- _].
  - intros ([r pi'] & w1 & _ & Hr)%sm_bind_ok. by eapply IH.
  - intros (? & w1 & _ & Hr)%sm_bind_ok. by eapply IH.
  - intros ([r v'] & w1 & _ & Hr)%sm_bind_ok. by eapply IH.
  - intros ([r v'] & w1 & _ & Hr)%sm_bind_ok. by eapply IH.
  - intros ([r v'] & w1 & _ & Hr)%sm_bind_ok. by eapply IH.
  - intros ([r v'] & w1 & _ & Hr)%sm_bind_ok. by eapply IH.
Qed.

Lemma call_leaf {E A} (p : UProg A) (P : A → Prop) sw a sw' :
  u_all P p → call (E:=E) read_fn p sw = (Ok a, sw') → P a.
Proof.
  intros Hp. destruct sw as [w static]. unfold call.
  destruct (run_prog read_fn p w) as [[x|[]| | |] w'] eqn:Hr; try done. intros [= <- _].
  by eapply run_prog_leaf.
Qed.

Lemma init_and_step_ip extra sw new_ip extras sw' :
  init_and_step read_fn extra sw = (Ok (Stepped new_ip extras), sw') → is_u64 new_ip.
Proof.
  unfold init_and_step, init_and_step_in. intros (h & sw1 & _ & Hs)%sm_bind_ok.
  apply sm_bind_ok in Hs as ([r1 c1] & sw2 & _ & Hs).
  destruct (r1 <? 0); [by apply sm_bind_ok in Hs as (? & ? & _ & ?)|].
  apply sm_bind_ok in Hs as ([r2 c2] & sw3 & _ & Hs).
  destruct (r2 <? 0); [by apply sm_bind_ok in Hs as (? & ? & _ & ?)|].
  destruct (r2 =? 0); [done|].
  apply sm_bind_ok in Hs as ([[r3 v3] c3] & sw4 & Hg & Hs).
  destruct (r3 <? 0); [by apply sm_bind_ok in Hs as (? & ? & _ & ?)|].
  apply sm_bind_ok in Hs as (ex & sw5 & _ & Hs). injection Hs as <- _ _.
  apply call_leaf with (P := λ r, i32_min < r.1.1 ∧ is_u64 r.1.2) in Hg; [by apply Hg|].
  apply get_reg_status.
Qed.
End leaves.


(** ** What a step leaves behind, whatever its outcome *)
Section moves.
Context `{Profile} `{Arch} {L : LibunwindApi} {ReadT : Type}.
Context (read_fn : ReadT → Z → option Z * ReadT).
Context (R : relation (World RawRegs ReadT)) `{!PreOrder R}.

(** The callbacks that change the world move it along [R]. *)
Record callbacks_move : Prop := {
  find_proc_info_in ip pi need : moves R (find_proc_info ip pi need);
  access_mem_in addr val write : moves R (access_mem read_fn addr val write);
  access_reg_in reg val write : moves R (access_reg reg val write);
}.

Context (Hcb : callbacks_move).

Lemma run_prog_moves {A} (p : UProg A) : moves R (run_prog read_fn p).
Proof.
  induction p; cbn [run_prog]; [by apply (moves_ret _)|..]; apply (moves_bind _);
    try (by intros [r v]); try done; try apply (moves_ret _); apply Hcb.
Qed.

(** The code around the calls also keeps the static, once [get] has run. *)
Definition static_moves (sw sw' : World RawRegs ReadT * option Z) : Prop :=
  R sw.1 sw'.1 ∧ sw'.2 = sw.2.

#[export] Instance static_moves_preorder : PreOrder static_moves.
Proof.
  split; [by intros [w st]|]. intros x y z [? ?] [? ?]. split; [by etrans|congruence].
Qed.

Lemma call_moves {E A} (p : UProg A) : moves (E:=E) static_moves (call read_fn p).
Proof.
  intros [w st]. pose proof (run_prog_moves p w) as Hp. unfold call.
  by destruct (run_prog read_fn p w) as [[|[]| | |] w'].
Qed.

Lemma fail_moves {A} ph ret : moves static_moves (fail (A:=A) ph ret).
Proof. apply (moves_bind _); [apply (moves_lift _)|]. intros e. apply (moves_err _). Qed.

Lemma read_extras_moves i regs c extras : moves static_moves (read_extras read_fn i regs c extras).
Proof.
  revert i c extras. induction regs as [|reg regs IH]; intros i c extras; cbn [read_extras];
    [apply (moves_ret _)|].
  apply (moves_bind _); [apply call_moves|]. intros [[ret v] c']. destruct (ret <? 0); [|done].
  destruct (i =? 0)%nat; [apply fail_moves|done].
Qed.

Lemma init_and_step_in_moves h extra : moves static_moves (init_and_step_in read_fn h extra).
Proof.
  unfold init_and_step_in. apply (moves_bind _); [apply call_moves|]. intros [r1 c1].
  destruct (r1 <? 0); [apply fail_moves|].
  apply (moves_bind _); [apply call_moves|]. intros [r2 c2].
  destruct (r2 <? 0); [apply fail_moves|]. destruct (r2 =? 0); [apply (moves_ret _)|].
  apply (moves_bind _); [apply call_moves|]. intros [[r3 v3] c3].
  destruct (r3 <? 0); [apply fail_moves|].
  apply (moves_bind _); [apply read_extras_moves|]. intros ex. apply (moves_ret _).
Qed.

Lemma init_and_step_moves extra sw : R sw.1 (init_and_step read_fn extra sw).2.1.
Proof.
  destruct sw as [w static].
  assert (∀ h, R w (init_and_step_in read_fn h extra (w, Some h)).2.1) as Hin
    by (intros h; apply (init_and_step_in_moves h extra (w, Some h))).
  unfold init_and_step, get, mbind, sm_bind. destruct static as [h|]; [apply Hin|].
  by destruct (_ =? 0); [|apply Hin].
Qed.
End moves.

(** Once [get] has run the static stays. *)
Lemma init_and_step_in_static `{Profile} `{Arch} {L : LibunwindApi} {ReadT}
    (read_fn : ReadT → Z → option Z * ReadT) h extra sw :
  (init_and_step_in read_fn h extra sw).2.2 = sw.2.
Proof. by refine (proj2 (init_and_step_in_moves read_fn (λ _ _, True) _ h extra sw)); split. Qed.

(** ** What the outcome of a step says about libunwind *)
Section outcome.
Context `{Profile} `{Arch} {L : LibunwindApi} {ReadT : Type}.
Context (read_fn : ReadT → Z → option Z * ReadT).
Local Abbreviation called := (called read_fn).

Lemma call_run {E A} (p : UProg A) w st a sw' :
  call (E:=E) read_fn p (w, st) = (Ok a, sw') →
  ∃ w', sw' = (w', st) ∧ run_prog read_fn p w = (Ok a, w').
Proof.
  unfold call. destruct (run_prog read_fn p w) as [[x|[]| | |] w'] eqn:Hr; try done.
  intros [= -> <-]. eauto.
Qed.

(** A failing call has no error of its own. *)
Lemma call_err {E A} (p : UProg A) sw e sw' : call (E:=E) read_fn p sw = (Err e, sw') → False.
Proof.
  destruct sw as [w st]. unfold call. by destruct (run_prog read_fn p w) as [[x|[]| | |] w'].
Qed.

Lemma fail_reported {A} h extra w0 ph ret v c w st e sw' :
  called h extra w0 ph ret v c w → ret < 0 → fail (A:=A) ph ret (w, st) = (Err e, sw') →
  reported read_fn h extra w0 e.
Proof.
  intros Hc Hret. unfold fail. intros Hf. apply sm_bind_err in Hf as [Hf|(err & sw1 & Hf & [= <- _])].
  - unfold sm_lift, LibunwindError_new, from_status, i32_abs in Hf.
    by destruct (ret =? i32_min), overflow_checks.
  - unfold sm_lift in Hf. destruct (LibunwindError_new ph ret) as [err'| | | |] eqn:He; simplify_eq.
    apply (LibunwindError_new_same (F:=Empty_set)) in He as (<- & <- & He). by split_and!; [|eauto|].
Qed.

Lemma fail_ok {A} ph ret (sw : World RawRegs ReadT * option Z) (a : A) sw' :
  fail ph ret sw = (Ok a, sw') → False.
Proof. by intros (? & ? & _ & ?)%sm_bind_ok. Qed.

(** Past the first register an unavailable one is skipped. *)
Lemma read_extras_later i regs c extras sw r sw' :
  read_extras read_fn (S i) regs c extras sw = (r, sw') →
  match r with
  | Ok extras' => extras' !!! 0%nat = extras !!! 0%nat
  | Err _ => False
  | _ => True
  end.
Proof.
  revert i c extras sw. induction regs as [|reg regs IH]; intros i c extras sw; cbn [read_extras].
  { by intros [= <- _]. }
  intros Hr. destruct r as [extras'|e| | |]; [| |done..].
  - apply sm_bind_ok in Hr as ([[ret v] c'] & sw1 & _ & Hr). cbn [Nat.eqb] in Hr.
    destruct (ret <? 0); apply IH in Hr; [done|]. by rewrite list_lookup_total_insert_ne in Hr.
  - apply sm_bind_err in Hr as [Hr|([[ret v] c'] & sw1 & _ & Hr)]; [by eapply call_err|].
    cbn [Nat.eqb] in Hr. by destruct (ret <? 0); apply IH in Hr.
Qed.

(** What the result of a step says about the calls it made. *)
Definition outcome_explained (h : Z) (extra : list Z) (w0 : World RawRegs ReadT)
    (r : outcome LibunwindError StepOutcome) : Prop :=
  match r with
  | Ok (Stepped new_ip extras) =>
      ∀ reg, head extra = Some reg → stepped read_fn h extra w0 new_ip (extras !!! 0%nat)
  | Ok EndOfStack => stack_ended read_fn h extra w0
  | Err e => reported read_fn h extra w0 e
  | _ => True
  end.

Lemma read_extras_explained h extra w0 r0 ip c w st r sw' :
  called h extra w0 GetInstructionPointer r0 ip c w → 0 ≤ r0 →
  read_extras read_fn 0 (take (Nat.min (length extra) 4) extra) c (replicate 4 0) (w, st) = (r, sw') →
  match r with
  | Ok extras => ∀ reg, head extra = Some reg → stepped read_fn h extra w0 ip (extras !!! 0%nat)
  | Err e => reported read_fn h extra w0 e
  | _ => True
  end.
Proof.
  intros Hc Hr0. destruct extra as [|reg extra]; [by intros [= <- _]|].
  cbn [length Nat.min take read_extras]. intros Hr.
  destruct r as [extras|e| | |]; [| |done..].
  - apply sm_bind_ok in Hr as ([[ret v] c'] & sw1 & (w1 & -> & Hrun)%call_run & Hr).
    cbn [Nat.eqb] in Hr. destruct (Z.ltb_spec ret 0); [by apply fail_ok in Hr|].
    apply read_extras_later in Hr. intros _ _. split; [by eauto 10|].
    exists reg, ret, c', w1. split; [done|]. rewrite Hr. by eapply called_reg.
  - apply sm_bind_err in Hr as [Hr|([[ret v] c'] & sw1 & (w1 & -> & Hrun)%call_run & Hr)];
      [by destruct (call_err _ _ _ _ Hr)|].
    cbn [Nat.eqb] in Hr. destruct (Z.ltb_spec ret 0); [|by apply read_extras_later in Hr].
    eapply fail_reported; [by eapply called_reg|done..].
Qed.

Lemma init_and_step_in_explained h extra w st r sw' :
  init_and_step_in read_fn h extra (w, st) = (r, sw') → outcome_explained h extra w r.
Proof.
  unfold init_and_step_in. intros Hr. destruct r as [[ip extras|]|e| | |]; [| | |done..]; simpl.
  - apply sm_bind_ok in Hr as ([r1 c1] & sw1 & (w1 & -> & Hc1)%call_run & Hr).
    destruct (Z.ltb_spec r1 0); [by apply fail_ok in Hr|].
    apply sm_bind_ok in Hr as ([r2 c2] & sw2 & (w2 & -> & Hc2)%call_run & Hr).
    destruct (Z.ltb_spec r2 0); [by apply fail_ok in Hr|]. destruct (Z.eqb_spec r2 0); [done|].
    apply sm_bind_ok in Hr as ([[r3 v3] c3] & sw3 & (w3 & -> & Hc3)%call_run & Hr).
    destruct (Z.ltb_spec r3 0); [by apply fail_ok in Hr|].
    apply sm_bind_ok in Hr as (ex & sw4 & Hr & [= <- <- _]).
    eapply (read_extras_explained _ _ _ _ _ _ _ _ (Ok ex)); [| |exact Hr]; [|done].
    eapply called_ip; [eapply called_step; [by apply called_init|done|done]|lia|done].
  - apply sm_bind_ok in Hr as ([r1 c1] & sw1 & (w1 & -> & Hc1)%call_run & Hr).
    destruct (Z.ltb_spec r1 0); [by apply fail_ok in Hr|].
    apply sm_bind_ok in Hr as ([r2 c2] & sw2 & (w2 & -> & Hc2)%call_run & Hr).
    destruct (Z.ltb_spec r2 0); [by apply fail_ok in Hr|]. destruct (Z.eqb_spec r2 0) as [->|].
    + exists 0, c2, w2. eapply called_step; [by apply called_init|done|done].
    + apply sm_bind_ok in Hr as ([[r3 v3] c3] & sw3 & _ & Hr).
      destruct (Z.ltb_spec r3 0); [by apply fail_ok in Hr|].
      by apply sm_bind_ok in Hr as (ex & sw4 & _ & [=]).
  - apply sm_bind_err in Hr as [Hr|([r1 c1] & sw1 & (w1 & -> & Hc1)%call_run & Hr)];
      [by destruct (call_err _ _ _ _ Hr)|].
    apply called_init with (h:=h) (extra:=extra) in Hc1.
    destruct (Z.ltb_spec r1 0); [by eapply fail_reported|].
    apply sm_bind_err in Hr as [Hr|([r2 c2] & sw2 & (w2 & -> & Hc2)%call_run & Hr)];
      [by destruct (call_err _ _ _ _ Hr)|].
    eapply called_step in Hc2; [|done|done].
    destruct (Z.ltb_spec r2 0); [by eapply fail_reported|]. destruct (Z.eqb_spec r2 0); [done|].
    apply sm_bind_err in Hr as [Hr|([[r3 v3] c3] & sw3 & (w3 & -> & Hc3)%call_run & Hr)];
      [by destruct (call_err _ _ _ _ Hr)|].
    eapply called_ip in Hc3; [|done|lia].
    destruct (Z.ltb_spec r3 0); [by eapply fail_reported|].
    apply sm_bind_err in Hr as [Hr|(? & ? & _ & [=])].
    eapply (read_extras_explained _ _ _ _ _ _ _ _ (Err e)); [| |exact Hr]; done.
Qed.
End outcome.

(** A step panics when the process has no address space yet and libunwind
    cannot create one, or when the lookup of the frame's address panics. *)
Definition step_panics `{Profile} `{LibunwindApi} (s : ModuleSet) (ip : Z) (static : option Z)
    : Prop :=
  parse_panics s ip ∨ (static = None ∧ unw_create_addr_space UNW_LITTLE_ENDIAN = 0).

Lemma init_and_step_safe_gen `{Profile} `{Arch} {L : LibunwindApi} `{!LibunwindLaws L} {ReadT}
    (read_fn : ReadT → Z → option Z * ReadT) s ip extra_regs (w : World RawRegs ReadT) static :
  set_wf s → below_top s → world_inv read_fn s ip w →
  match init_and_step read_fn extra_regs (w, static) with
  | (Ok r, (w', static')) =>
      world_inv read_fn s ip w' ∧ static' = Some (handle_of static) ∧ step_ok r ∧
      outcome_explained read_fn (handle_of static) extra_regs w (Ok r)
  | (Err e, (w', static')) =>
      world_inv read_fn s ip w' ∧ static' = Some (handle_of static) ∧
      reported read_fn (handle_of static) extra_regs w e
  | (Panic, _) => step_panics s ip static
  | (UB, _) | (NoFuel, _) => False
  end.
Proof.
  intros Hwf Ht Hw. unfold init_and_step, get, mbind, sm_bind.
  assert (static = Some (handle_of static) ∨
          static = None ∧ handle_of static = unw_create_addr_space UNW_LITTLE_ENDIAN)
    as [Hst|[-> Hh]] by (destruct static; [by left|by right]).
  - rewrite Hst. set (h := handle_of static).
    pose proof (init_and_step_in_contract read_fn s ip Hwf Ht h extra_regs (w, Some h) Hw) as Hc.
    pose proof (init_and_step_in_static read_fn h extra_regs (w, Some h)) as Hs.
    destruct (init_and_step_in read_fn h extra_regs _) as [r [w' st']] eqn:Hi.
    apply init_and_step_in_explained in Hi. simpl in Hs. subst st'.
    destruct r; try done; [by destruct Hc|by destruct Hc|by left].
  - destruct (Z.eqb_spec (unw_create_addr_space UNW_LITTLE_ENDIAN) 0); [by right|].
    rewrite <- Hh. set (h := handle_of None).
    pose proof (init_and_step_in_contract read_fn s ip Hwf Ht h extra_regs (w, Some h) Hw) as Hc.
    pose proof (init_and_step_in_static read_fn h extra_regs (w, Some h)) as Hs.
    destruct (init_and_step_in read_fn h extra_regs _) as [r [w' st']] eqn:Hi.
    apply init_and_step_in_explained in Hi. simpl in Hs. subst st'.
    destruct r; try done; [by destruct Hc|by destruct Hc|by left].
Qed.

(** C18: driving libunwind is safe whatever libunwind does, as long as each of
    its functions calls the accessors finitely often and returns.
    [init_and_step] has no undefined behaviour, and panics only if the process
    has no address space yet and [unw_create_addr_space] returns null, or, in a
    build with overflow checks, if parsing the module found at the context's
    lookup address panics.  Otherwise it keeps the context invariant (registry
    and lookup address untouched, caches well-formed, recorded failures genuine)
    and the address space, on success and on error.  A success is either the end
    of the stack, [unw_step] having returned 0, or four register words of which
    the instruction pointer and the first are what [unw_get_reg] gave after that
    very step; an error decodes the negative status that the call it names
    returned, every call before it having succeeded.  Mirrored sections are
    assumed to end below the top of the address space. *)
Theorem init_and_step_safe `{Profile} `{Arch} (L : LibunwindApi) `{!LibunwindLaws L} {ReadT}
    (read_fn : ReadT → Z → option Z * ReadT) (s : ModuleSet) (ip : Z) (extra_regs : list Z)
    (w : World RawRegs ReadT) (static : option Z) :
  reachable s → below_top s → world_inv read_fn s ip w →
  match init_and_step read_fn extra_regs (w, static) with
  | (Ok EndOfStack, (w', static')) =>
      world_inv read_fn s ip w' ∧ static' = Some (handle_of static) ∧
      stack_ended read_fn (handle_of static) extra_regs w
  | (Ok (Stepped new_ip extras), (w', static')) =>
      world_inv read_fn s ip w' ∧ static' = Some (handle_of static) ∧
      is_u64 new_ip ∧ length extras = 4%nat ∧ Forall is_u64 extras ∧
      (∀ reg, head extra_regs = Some reg →
         stepped read_fn (handle_of static) extra_regs w new_ip (extras !!! 0%nat))
  | (Err e, (w', static')) =>
      world_inv read_fn s ip w' ∧ static' = Some (handle_of static) ∧
      reported read_fn (handle_of static) extra_regs w e
  | (Panic, _) =>
      (overflow_checks = true ∧
       ∃ m, find_module s ip = Some m ∧ parse_function_details m ip = Panic) ∨
      (static = None ∧ unw_create_addr_space UNW_LITTLE_ENDIAN = 0)
  | (UB, _) | (NoFuel, _) => False
  end.
Proof.
  intros Hr Ht Hw.
  pose proof (init_and_step_safe_gen read_fn s ip extra_regs w static (reachable_wf s Hr) Ht Hw)
    as Hc.
  destruct (init_and_step read_fn extra_regs (w, static)) as [[[new_ip extras|]| | | |] [w' st']];
    try done.
  - by destruct Hc as (? & ? & (? & ? & ?) & ?).
  - by destruct Hc as (? & ? & _ & ?).
Qed.
