(* ===== verification/Frames.v ===== *)
(** * Unwinding one frame: what the two architectures share

    [unwind_frame] of [x86_64.rs] and of [aarch64.rs] build the same
    [UnwindCtx], drive libunwind with it and classify its failures in the same
    way; both use the caller's [read_stack] closure directly in their
    frame-pointer fallback. *)

From stdpp Require Import gmap.
From S2P Require Import Prelude.
From S2P Require Import BTree.
From S2P Require Import EhFrameTable.
From S2P Require Import Ffi.
From S2P Require Import Errors.
From S2P Require Import FrameAddress.
From S2P Require Import Modules.
From S2P Require Import ModuleSet.
From S2P Require Import Callbacks.
From S2P Require Import AddressSpace.

(** What outlives a call of [unwind_frame] besides the registers: the state of
    the [read_stack] closure, the shared caches and the [ADDR_SPACE] static. *)
Record Env (ReadT : Type) : Type := mkEnv {
  env_read : ReadT;
  env_heap : Heap;
  env_static : option Z;
}.
Arguments mkEnv {ReadT}.
Arguments env_read {ReadT}.
Arguments env_heap {ReadT}.
Arguments env_static {ReadT}.

Section frames.
Context `{Profile} `{Arch} `{LibunwindApi} {ReadT : Type}.
Context (read_fn : ReadT → Z → option Z * ReadT).

(** The [let step = { let mut ctx = UnwindCtx { .. }; .. }] block: the step, the
    failed read and the unwind-info error the callbacks recorded. *)
Definition step_with_ctx (modules : ModuleSet) (raw : RawRegs) (lookup_ip : Z)
    (extra_regs : list Z) (env : Env ReadT)
    : outcome LibunwindError StepOutcome * option Z * option UnwindInfoError * Env ReadT :=
  let c := mkUnwindCtx modules raw lookup_ip (env_read env) None None in
  let '(step, (w, static)) :=
    init_and_step read_fn extra_regs (mkWorld c (env_heap env), env_static env) in
  (step, last_failed_read_addr (ctx w), ctx_unwind_info_error (ctx w),
   mkEnv (read_state (ctx w)) (heap w) static).

(** The last three arms of [match step]. *)
Definition step_error (failed_read : option Z) (unwind_info_error : option UnwindInfoError)
    (err : LibunwindError) : Error :=
  match failed_read, unwind_info_error with
  | Some addr, _ => CouldNotReadStack addr
  | None, Some err => UnwindInfo err
  | None, None => Libunwind err
  end.

(** [read_stack(addr).map_err(|_| Error::CouldNotReadStack(addr))?] on the
    registers and the environment. *)
Definition read_stack {RegsT} (addr : Z) : SM (RegsT * Env ReadT) Error Z := λ '(r, env),
  let '(v, rs) := read_fn (env_read env) addr in
  let env' := mkEnv rs (env_heap env) (env_static env) in
  match v with
  | Some v => (Ok v, (r, env'))
  | None => (Err (CouldNotReadStack addr), (r, env'))
  end.
End frames.

(** ** The reads a step made *)
Section reads.
Context `{Profile} `{Arch} {L : LibunwindApi} {ReadT : Type}.
Context (read_fn : ReadT → Z → option Z * ReadT).

(** The reader goes from one state to the other by zero or more calls. *)
Definition reads : relation ReadT := rtc (λ rs rs', ∃ a v, read_fn rs a = (v, rs')).

(** Among those calls one, for the address [a], failed. *)
Definition read_failed (rs0 : ReadT) (a : Z) (rs1 : ReadT) : Prop :=
  ∃ rs rs', reads rs0 rs ∧ read_fn rs a = (None, rs') ∧ reads rs' rs1.

(** The failed address of the context is that of a failed call. *)
Definition reads_move (w w' : World RawRegs ReadT) : Prop :=
  reads (read_state (ctx w)) (read_state (ctx w')) ∧
  (last_failed_read_addr (ctx w') = last_failed_read_addr (ctx w) ∨
   ∃ a, last_failed_read_addr (ctx w') = Some a ∧
        read_failed (read_state (ctx w)) a (read_state (ctx w'))).

#[export] Instance reads_move_preorder : PreOrder reads_move.
Proof.
  split.
  - intros w. split; [apply rtc_refl|by left].
  - intros w1 w2 w3 [H1 F1] [H2 F2]. split; [by etrans|].
    destruct F2 as [->|(a & -> & rs & rs' & ? & ? & ?)].
    + destruct F1 as [->|(a & -> & rs & rs' & ? & ? & ?)]; [by left|right].
      exists a. split; [done|]. exists rs, rs'. split_and!; [done..|]. by etrans.
    + right. exists a. split; [done|]. exists rs, rs'. split_and!; [|done..]. by etrans.
Qed.

Lemma callbacks_read : callbacks_move read_fn reads_move.
Proof.
  split.
  - intros ip pi need w. unfold find_proc_info.
    destruct (find_module _ _) as [m|]; [|split; [apply rtc_refl|by left]].
    destruct (get_or_parse_function_details m _ _) as [[] h]; split; solve [apply rtc_refl|by left].
  - intros addr val write w. unfold access_mem.
    destruct (negb _); [split; [apply rtc_refl|by left]|]. unfold mbind, sm_bind, sm_get.
    destruct (lookup_local _ _) as [p|].
    + unfold sm_lift. destruct (from_raw_parts p 8); split; solve [apply rtc_refl|by left].
    + destruct (read_fn _ _) as [[v|] rs] eqn:Hr; simpl; split.
      1,3: apply rtc_once; eauto.
      * by left.
      * right. exists addr. split; [done|]. exists (read_state (ctx w)), rs.
        split_and!; [constructor|done|constructor].
  - intros reg val write w. unfold access_reg, mbind, sm_bind, sm_get.
    destruct (arch_access_reg _ _ _ _) as [[? ?] ?]. split; [apply rtc_refl|by left].
Qed.
End reads.

(** ** What the outcome of [unwind_frame] means *)

(** What [unwind_frame] computes from the frame and the registers: the current
    and the lookup address, the stack and frame pointers, how an address read is
    stripped, whether the frame is a return address, and the registers offered to
    libunwind and asked of it. *)
Record FrameInput `{Arch} : Type := mkFrameInput {
  fi_current : Z;
  fi_lookup : Z;
  fi_sp : Z;
  fi_fp : Z;
  fi_strip : Z → Z;
  fi_return : bool;
  fi_raw : RawRegs;
  fi_extra : list Z;
}.
Arguments mkFrameInput {_}.

Section genuine.
Context `{Profile} `{Arch} {L : LibunwindApi} {ReadT : Type}.
Context (read_fn : ReadT → Z → option Z * ReadT).

(** The world a step starts in. *)
Definition first_world (s : ModuleSet) (raw : RawRegs) (ip : Z) (env : Env ReadT)
    : World RawRegs ReadT :=
  mkWorld (mkUnwindCtx s raw ip (env_read env) None None) (env_heap env).

Local Abbreviation handle env := (handle_of (env_static env)).

(** Why the libunwind part of a step failed: a read failed, else the lookup
    failed, else libunwind returned that error. *)
Definition step_failed (s : ModuleSet) (raw : RawRegs) (ip : Z) (extra : list Z)
    (env : Env ReadT) (e : Error) (env' : Env ReadT) : Prop :=
  match e with
  | CouldNotReadStack a => read_failed read_fn (env_read env) a (env_read env')
  | UnwindInfo err => lookup_failure s ip err
  | Libunwind err => reported read_fn (handle env) extra (first_world s raw ip env) err
  | _ => False
  end.

(** Why the frame-pointer fallback fails. *)
Definition fallback_failed (sp fp : Z) (env : Env ReadT) (e : Error) (env' : Env ReadT) : Prop :=
  match e with
  | IntegerOverflow => u64_max < fp + 16
  | FramepointerUnwindingMovedBackwards =>
      fp + 16 ≤ sp ∨
      ∃ v, read_fn (env_read env) fp = (Some v, env_read env') ∧ v ≠ 0 ∧ v ≤ fp
  | CouldNotReadStack a =>
      (a = fp ∧ read_fn (env_read env) fp = (None, env_read env')) ∨
      (a = fp + 8 ∧ ∃ v rs, read_fn (env_read env) fp = (Some v, rs) ∧
                            read_fn rs (fp + 8) = (None, env_read env'))
  | _ => False
  end.

(** The frame the fallback recovers: the two words at the frame pointer. *)
Definition fallback_reads (fp : Z) (env : Env ReadT) (new_fp word : Z) (env' : Env ReadT) : Prop :=
  ∃ rs, read_fn (env_read env) fp = (Some new_fp, rs) ∧
        read_fn rs (fp + 8) = (Some word, env_read env').

(** Why [unwind_frame] reports [e]: the module's unwind information is bad; or
    the address has unwind information and the step of libunwind failed, or
    succeeded with the registers the frame already has ([DidNotAdvance]) or with
    a return address that cannot be adjusted ([IntegerOverflow]); or it has none
    and the fallback failed. *)
Definition genuine (s : ModuleSet) (fi : FrameInput) (env : Env ReadT) (e : Error)
    (env' : Env ReadT) : Prop :=
  let w0 := first_world s (fi_raw fi) (fi_lookup fi) env in
  match unwind_info_error s (fi_lookup fi) with
  | Some err => e = UnwindInfo err
  | None =>
      if has_unwind_info s (fi_lookup fi) then
        match e with
        | DidNotAdvance =>
            ∃ ip, stepped read_fn (handle env) (fi_extra fi) w0 ip (fi_sp fi) ∧
              (fi_strip fi ip = fi_current fi ∨
               (fi_return fi = true ∧ fi_strip fi ip + 1 = fi_current fi))
        | IntegerOverflow =>
            ∃ ip sp, stepped read_fn (handle env) (fi_extra fi) w0 ip sp ∧
              fi_return fi = true ∧ contains_address s (fi_strip fi ip) = true ∧
              u64_max ≤ fi_strip fi ip
        | _ => step_failed s (fi_raw fi) (fi_lookup fi) (fi_extra fi) env e env'
        end
      else fallback_failed (fi_sp fi) (fi_fp fi) env e env'
  end.

(** Where a recovered frame, with address [a] and stack pointer [sp'], comes
    from: libunwind's step, with the address one further for a return address of
    a known module; or the two words at the frame pointer. *)
Definition recovered (s : ModuleSet) (fi : FrameInput) (env : Env ReadT) (a sp' : Z)
    (env' : Env ReadT) : Prop :=
  let w0 := first_world s (fi_raw fi) (fi_lookup fi) env in
  if has_unwind_info s (fi_lookup fi) then
    ∃ ip, stepped read_fn (handle env) (fi_extra fi) w0 ip sp' ∧
      (a = fi_strip fi ip ∨
       (fi_return fi = true ∧ contains_address s (fi_strip fi ip) = true ∧ a = fi_strip fi ip + 1))
  else sp' = fi_fp fi + 16 ∧
       ∃ new_fp word, fallback_reads (fi_fp fi) env new_fp word env' ∧ a = fi_strip fi word.

Context `{!LibunwindLaws L}.
Context (s : ModuleSet) (ip : Z) (Hwf : set_wf s) (Htop : below_top s).

(** One step of libunwind on a fresh context. *)
Lemma step_with_ctx_cases raw extra env :
  caches_ok s (env_heap env) →
  match step_with_ctx read_fn s raw ip extra env with
  | (Ok r, _, _, env') =>
      caches_ok s (env_heap env') ∧ step_ok r ∧
      outcome_explained read_fn (handle env) extra (first_world s raw ip env) (Ok r)
  | (Err err, failed, uie, env') =>
      caches_ok s (env_heap env') ∧
      step_failed s raw ip extra env (step_error failed uie err) env'
  | (Panic, _, _, _) => step_panics s ip (env_static env)
  | (UB, _, _, _) | (NoFuel, _, _, _) => False
  end.
Proof.
  intros Hc. unfold step_with_ctx. cbv zeta.
  change (mkWorld (mkUnwindCtx s raw ip (env_read env) None None) (env_heap env))
    with (first_world s raw ip env).
  assert (world_inv read_fn s ip (first_world s raw ip env)) as Hw by by split_and!.
  pose proof (init_and_step_safe_gen read_fn s ip extra _ (env_static env) Hwf Htop Hw) as Hi.
  pose proof (init_and_step_moves read_fn (reads_move read_fn) (callbacks_read read_fn) extra
    (first_world s raw ip env, env_static env)) as [Hreads Hm].
  destruct (init_and_step read_fn extra _) as [[r|err| | |] [w static]]; try done; simpl in *.
  - by destruct Hi as ((_ & _ & ? & _) & _ & ?).
  - destruct Hi as ((_ & _ & ? & _ & He) & _ & Hd). split; [done|].
    destruct (last_failed_read_addr (ctx w)) as [a|].
    + by destruct Hm as [|(a' & [= <-] & ?)].
    + destruct (ctx_unwind_info_error (ctx w)) as [e|]; simpl; [by apply He|done].
Qed.
End genuine.

(** ** A small libunwind

    An instance of the interface, used to show that the hypotheses of the
    theorems can be met and to exhibit behaviour: it unwinds frames whose CFA is
    the stack pointer plus 8 with the return address at the top of the stack. *)
Section toy.
Context (rip rsp rbp : Z).

Definition toy_get (c : Z * Z * Z) (reg : Z) : Z :=
  let '(ip, sp, bp) := c in
  wrap 64 (if reg =? rip then ip else if reg =? rsp then sp else bp).

Definition toy_libunwind : LibunwindApi := {|
  UnwCursor := Z * Z * Z;
  cursor_zeroed := (0, 0, 0);
  unw_create_addr_space := λ _, 1;
  unw_init_remote := λ _ _,
    UAccessReg rip 0 0 (λ _ ip, UAccessReg rsp 0 0 (λ _ sp, UAccessReg rbp 0 0 (λ _ bp,
      URet (0, (ip, sp, bp)))));
  unw_step := λ '(ip, sp, bp),
    UFindProcInfo ip UnwProcInfo_zeroed 1 (λ r pi,
      if r <? 0 then URet (- UNW_ENOINFO, (ip, sp, bp))
      else UAccessMem sp 0 0 (λ r v,
        if r <? 0 then URet (- UNW_EINVAL, (ip, sp, bp))
        else URet (1, (v, sp + 8, bp))));
  unw_get_reg := λ c reg _, URet (0, toy_get c reg, c);
|}.

Lemma toy_libunwind_laws : LibunwindLaws toy_libunwind.
Proof.
  split; simpl.
  - done.
  - intros [[ip sp] bp] r pi. destruct (r <? 0); [done|]. simpl. intros r' v.
    by destruct (r' <? 0).
  - intros [[ip sp] bp] reg v. split; [done|]. by apply wrap_bounds.
Qed.
End toy.
