(* ===== verification/X86_64.v ===== *)
(** * [src/src/x86_64.rs]: the x86_64 backend

    Registers, the libunwind step and the frame-pointer fallback.  The register
    arrays have 16 entries ([regs_ok]); [!!!] is the array access, which is in
    range under it. *)

From stdpp Require Import gmap.
From S2P Require Import Prelude.
From S2P Require Import BTree.
From S2P Require Import EhFrameTable.
From S2P Require Import Ffi.
From S2P Require Import Errors.
From S2P Require Import FrameAddress.
From S2P Require Import Modules.
From S2P Require Import ModuleSet.
From S2P Require Import Callbacks.
From S2P Require Import AddressSpace.
From S2P Require Import Frames.
Import x86_64_regs.

(** ** Registers *)
Inductive Reg : Type :=
  | RAX | RDX | RCX | RBX | RSI | RDI | RBP | RSP
  | R8 | R9 | R10 | R11 | R12 | R13 | R14 | R15.

(** [reg as usize]: the discriminants, in declaration order. *)
Definition reg_index (reg : Reg) : nat :=
  match reg with
  | RAX => 0 | RDX => 1 | RCX => 2 | RBX => 3 | RSI => 4 | RDI => 5 | RBP => 6 | RSP => 7
  | R8 => 8 | R9 => 9 | R10 => 10 | R11 => 11 | R12 => 12 | R13 => 13 | R14 => 14 | R15 => 15
  end.

#[export] Instance Reg_eq_dec : EqDecision Reg.
Proof. solve_decision. Defined.

Record RawRegsX86_64 : Type := mkRawRegs { raw_ip : Z; raw_regs : list Z; raw_valid_regs : Z }.

Record UnwindRegsX86_64 : Type := mkUnwindRegs { rip_ : Z; regs_ : list Z; valid_regs : Z }.

#[export] Instance UnwindRegsX86_64_eq_dec : EqDecision UnwindRegsX86_64.
Proof. solve_decision. Defined.

Definition from_public (ip : Z) (regs : UnwindRegsX86_64) : RawRegsX86_64 :=
  mkRawRegs ip (regs_ regs) (valid_regs regs).

(** [RawRegsX86_64::access_reg]: the status, the content of [*val] afterwards
    and the registers. *)
Definition access_reg (self : RawRegsX86_64) (reg val write : Z) : Z * Z * RawRegsX86_64 :=
  if reg =? UNW_X86_64_RIP then
    if negb (write =? 0) then
      (UNW_ESUCCESS, val, mkRawRegs val (raw_regs self) (raw_valid_regs self))
    else (UNW_ESUCCESS, raw_ip self, self)
  else if negb ((0 <=? reg) && (reg <? 16)) then (- UNW_EBADREG, val, self)
  else
    let index := Z.to_nat reg in
    let bit := Z.shiftl 1 reg in
    if negb (write =? 0) then
      (UNW_ESUCCESS, val,
       mkRawRegs (raw_ip self) (<[index := val]> (raw_regs self))
         (Z.lor (raw_valid_regs self) bit))
    else if negb (Z.land (raw_valid_regs self) bit =? 0) then
      (UNW_ESUCCESS, raw_regs self !!! index, self)
    else (- UNW_EBADREG, val, self).

#[export] Instance x86_64_arch : Arch := {
  RawRegs := RawRegsX86_64;
  arch_access_reg := access_reg;
  reg_ip := UNW_REG_IP;
}.

Definition valid_reg_bit (reg : Reg) : Z := Z.shiftl 1 (Z.of_nat (reg_index reg)).

Definition get (self : UnwindRegsX86_64) (reg : Reg) : Z := regs_ self !!! reg_index reg.

Definition get_if_set (self : UnwindRegsX86_64) (reg : Reg) : option Z :=
  if negb (Z.land (valid_regs self) (valid_reg_bit reg) =? 0) then Some (get self reg) else None.

Definition set (self : UnwindRegsX86_64) (reg : Reg) (value : Z) : UnwindRegsX86_64 :=
  mkUnwindRegs (rip_ self) (<[reg_index reg := value]> (regs_ self))
    (Z.lor (valid_regs self) (valid_reg_bit reg)).

Definition clear_unrestored_caller_registers (self : UnwindRegsX86_64) : UnwindRegsX86_64 :=
  mkUnwindRegs (rip_ self) (regs_ self) (Z.lor (valid_reg_bit RSP) (valid_reg_bit RBP)).

Definition ip (self : UnwindRegsX86_64) : Z := rip_ self.
Definition set_ip (self : UnwindRegsX86_64) (ip : Z) : UnwindRegsX86_64 :=
  mkUnwindRegs ip (regs_ self) (valid_regs self).
Definition sp (self : UnwindRegsX86_64) : Z := get self RSP.
Definition set_sp (self : UnwindRegsX86_64) (sp : Z) : UnwindRegsX86_64 := set self RSP sp.
Definition bp (self : UnwindRegsX86_64) : Z := get self RBP.
Definition set_bp (self : UnwindRegsX86_64) (bp : Z) : UnwindRegsX86_64 := set self RBP bp.

(** The register-name aliases. *)
Definition rip (self : UnwindRegsX86_64) : Z := ip self.
Definition rsp (self : UnwindRegsX86_64) : Z := sp self.
Definition rbp (self : UnwindRegsX86_64) : Z := bp self.
Definition set_rip (self : UnwindRegsX86_64) (v : Z) : UnwindRegsX86_64 := set_ip self v.
Definition set_rsp (self : UnwindRegsX86_64) (v : Z) : UnwindRegsX86_64 := set_sp self v.
Definition set_rbp (self : UnwindRegsX86_64) (v : Z) : UnwindRegsX86_64 := set_bp self v.

Definition new (ip sp bp : Z) : UnwindRegsX86_64 :=
  set_bp (set_sp (mkUnwindRegs ip (replicate 16 0) 0) sp) bp.

(** The register updates at the end of a step. *)
Definition restore_caller (self : UnwindRegsX86_64) (ip sp bp : Z) : UnwindRegsX86_64 :=
  set_bp (set_sp (set_ip (clear_unrestored_caller_registers self) ip) sp) bp.

(** ** Unwinding a frame *)
Section unwind.
Context `{Profile} `{LibunwindApi} {ReadT : Type}.
Context (read_fn : ReadT → Z → option Z * ReadT).
Local Abbreviation UM := (SM (UnwindRegsX86_64 * Env ReadT) Error).

Definition fallback_unwind_frame (current_ip : Z) : UM (option Z) :=
  '(regs, _) ← sm_get;
  let sp := sp regs in
  let bp := bp regs in
  if bp =? 0 then mret None
  else
    return_address_location ← sm_lift (ok_or (checked_add bp 8) IntegerOverflow);
    new_sp ← sm_lift (ok_or (checked_add bp 16) IntegerOverflow);
    if new_sp <=? sp then sm_err FramepointerUnwindingMovedBackwards
    else
      new_bp ← read_stack read_fn bp;
      if negb (new_bp =? 0) && (new_bp <=? bp) then sm_err FramepointerUnwindingMovedBackwards
      else
        return_address ← read_stack read_fn return_address_location;
        if return_address =? 0 then mret None
        else if (new_sp =? sp) && (return_address =? current_ip) then sm_err DidNotAdvance
        else
          _ ← sm_modify (λ '(regs, env), (restore_caller regs return_address new_sp new_bp, env));
          mret (Some return_address).

(** The [Stepped] arm. *)
Definition finish_step (self : ModuleSet) (frame : FrameAddress) (new_ip : Z) (extras : list Z)
    : UM (option Z) :=
  '(regs, env) ← sm_get;
  let current_ip := address frame in
  let lookup_ip := address_for_lookup frame in
  let new_sp := extras !!! 0%nat in
  let new_bp := extras !!! 1%nat in
  if new_ip =? 0 then mret None
  else
    let signal_frame := is_signal_frame self (env_heap env) lookup_ip in
    new_ip ←
      (if is_return_address frame && negb signal_frame && contains_address self new_ip
       then sm_lift (ok_or (checked_add new_ip 1) IntegerOverflow) else mret new_ip);
    if (new_ip =? current_ip) && (new_sp =? sp regs) then sm_err DidNotAdvance
    else
      _ ← sm_modify (λ '(regs, env), (restore_caller regs new_ip new_sp new_bp, env));
      mret (Some new_ip).

(** [<UnwinderX86_64 as Unwinder>::unwind_frame]. *)
Definition unwind_frame (self : ModuleSet) (frame : FrameAddress) : UM (option Z) :=
  λ '(regs, env),
  let current_ip := address frame in
  let lookup_ip := address_for_lookup frame in
  match unwind_info_error self lookup_ip with
  | Some err => (Err (UnwindInfo err), (regs, env))
  | None =>
      if negb (has_unwind_info self lookup_ip) then fallback_unwind_frame current_ip (regs, env)
      else
        let raw := from_public lookup_ip regs in
        let '(step, failed_read, uie, env) :=
          step_with_ctx read_fn self raw lookup_ip [UNW_REG_SP; UNW_X86_64_RBP] env in
        match step with
        | Ok EndOfStack => (Ok None, (regs, env))
        | Ok (Stepped new_ip extras) => finish_step self frame new_ip extras (regs, env)
        | Err err => (Err (step_error failed_read uie err), (regs, env))
        | Panic => (Panic, (regs, env))
        | UB => (UB, (regs, env))
        | NoFuel => (NoFuel, (regs, env))
        end
  end.

(** [Unwinder::is_signal_frame]. *)
Definition unwinder_is_signal_frame (self : ModuleSet) (h : Heap) (frame : FrameAddress) : bool :=
  is_signal_frame self h (address_for_lookup frame).
End unwind.

(** ** Lemmas: the register file *)
Definition regs_ok (r : UnwindRegsX86_64) : Prop := length (regs_ r) = 16%nat.

Lemma land_bit v j : 0 ≤ j → (Z.land v (Z.shiftl 1 j) =? 0) = negb (Z.testbit v j).
Proof.
  intros Hj. destruct (Z.testbit v j) eqn:Ht; simpl.
  - apply Z.eqb_neq. intros Hz. apply (f_equal (λ x, Z.testbit x j)) in Hz.
    rewrite Z.land_spec, Ht, Z.shiftl_spec, Z.sub_diag, Z.bits_0 in Hz by done. done.
  - apply Z.eqb_eq. apply Z.bits_inj'. intros n Hn.
    rewrite Z.land_spec, Z.shiftl_spec, Z.bits_0 by done.
    destruct (decide (n = j)) as [->|]; [by rewrite Ht|].
    destruct (decide (n < j)).
    + by rewrite (Z.testbit_neg_r 1), andb_false_r by lia.
    + rewrite (Z.bits_above_log2 1), andb_false_r; [done|lia|simpl; lia].
Qed.

Lemma testbit_set v i j :
  0 ≤ i → 0 ≤ j → Z.testbit (Z.lor v (Z.shiftl 1 i)) j = (i =? j) || Z.testbit v j.
Proof.
  intros Hi Hj. rewrite Z.lor_spec, Z.shiftl_spec by done. rewrite orb_comm. f_equal.
  destruct (Z.eqb_spec i j) as [->|]; [by rewrite Z.sub_diag|].
  destruct (decide (j < i)).
  - by rewrite Z.testbit_neg_r by lia.
  - rewrite Z.bits_above_log2; [done|lia|simpl; lia].
Qed.

Lemma reg_index_lt reg : (reg_index reg < 16)%nat.
Proof. destruct reg; simpl; lia. Qed.

Lemma reg_index_inj r1 r2 : reg_index r1 = reg_index r2 → r1 = r2.
Proof. destruct r1, r2; simpl; congruence. Qed.

Lemma set_ok r reg v : regs_ok r → regs_ok (set r reg v).
Proof. unfold regs_ok, set. simpl. by rewrite length_insert. Qed.

Lemma get_set_eq r reg v : regs_ok r → get (set r reg v) reg = v.
Proof.
  intros Hr. unfold get, set. simpl. apply list_lookup_total_insert_eq. rewrite Hr.
  apply reg_index_lt.
Qed.

Lemma get_set_ne r reg reg' v : reg ≠ reg' → get (set r reg v) reg' = get r reg'.
Proof.
  intros Hne. unfold get, set. simpl. apply list_lookup_total_insert_ne.
  intros He. by apply Hne, reg_index_inj.
Qed.

Lemma get_if_set_testbit r reg :
  get_if_set r reg =
  if Z.testbit (valid_regs r) (Z.of_nat (reg_index reg)) then Some (get r reg) else None.
Proof.
  unfold get_if_set, valid_reg_bit. rewrite land_bit by lia. by rewrite negb_involutive.
Qed.

Lemma get_if_set_set r reg reg' v :
  regs_ok r →
  get_if_set (set r reg v) reg' = if decide (reg = reg') then Some v else get_if_set r reg'.
Proof.
  intros Hr. rewrite !get_if_set_testbit. unfold set at 1. cbn [valid_regs].
  unfold valid_reg_bit. rewrite testbit_set by lia. destruct (decide (reg = reg')) as [->|Hne].
  - rewrite Z.eqb_refl. simpl. by rewrite get_set_eq.
  - rewrite (proj2 (Z.eqb_neq _ _)); [simpl; by rewrite get_set_ne|].
    intros He. apply Hne, reg_index_inj. lia.
Qed.

Section restore.
Context (r : UnwindRegsX86_64) (a s b : Z) (Hr : regs_ok r).

Lemma restore_ok : regs_ok (restore_caller r a s b).
Proof. unfold restore_caller. by apply set_ok, set_ok. Qed.

Lemma restore_ip : ip (restore_caller r a s b) = a.
Proof. done. Qed.

Lemma restore_sp : sp (restore_caller r a s b) = s.
Proof.
  unfold restore_caller, sp, set_bp, set_sp. rewrite get_set_ne by done. by apply get_set_eq.
Qed.

Lemma restore_bp : bp (restore_caller r a s b) = b.
Proof. unfold restore_caller, bp, set_bp, set_sp. apply get_set_eq. by apply set_ok. Qed.

(** Nothing but the stack and frame pointers is claimed about the caller. *)
Lemma restore_get_if_set reg :
  get_if_set (restore_caller r a s b) reg =
  match reg with RSP => Some s | RBP => Some b | _ => None end.
Proof.
  unfold restore_caller, set_bp, set_sp. rewrite get_if_set_set by (by apply set_ok).
  rewrite get_if_set_set by done.
  by destruct reg.
Qed.
End restore.

(** ** Lemmas: the frame-pointer fallback *)
Section fallback.
Context {ReadT : Type} (read_fn : ReadT → Z → option Z * ReadT).

(** A frame the fallback recovers: the two words at the frame pointer. *)
Definition fallback_frame (regs : UnwindRegsX86_64) (env : Env ReadT) (new_bp ra : Z)
    (env' : Env ReadT) : Prop :=
  bp regs ≠ 0 ∧ sp regs < bp regs + 16 ≤ u64_max ∧ (new_bp = 0 ∨ bp regs < new_bp) ∧ ra ≠ 0 ∧
  fallback_reads read_fn (bp regs) env new_bp ra env'.

Lemma fallback_cases cur regs env :
  match fallback_unwind_frame read_fn cur (regs, env) with
  | (Ok None, (regs', env')) => regs' = regs ∧ env_heap env' = env_heap env
  | (Ok (Some ra), (regs', env')) =>
      env_heap env' = env_heap env ∧
      ∃ new_bp, fallback_frame regs env new_bp ra env' ∧
                regs' = restore_caller regs ra (bp regs + 16) new_bp
  | (Err e, (regs', env')) =>
      regs' = regs ∧ env_heap env' = env_heap env ∧
      fallback_failed read_fn (sp regs) (bp regs) env e env'
  | _ => False
  end.
Proof.
  unfold fallback_unwind_frame, mbind, sm_bind, sm_get, sm_lift, sm_err, sm_modify, mret, sm_ret.
  cbv zeta. destruct (Z.eqb_spec (bp regs) 0); [done|].
  destruct (checked_add (bp regs) 8) as [loc|] eqn:H8; cbn [ok_or].
  2: { unfold checked_add in H8. destruct (Z.leb_spec (bp regs + 8) u64_max); [done|].
       split_and!; [done|done|]. simpl. lia. }
  apply checked_add_some in H8 as [-> _].
  destruct (checked_add (bp regs) 16) as [nsp|] eqn:H16; cbn [ok_or].
  2: { unfold checked_add in H16. destruct (Z.leb_spec (bp regs + 16) u64_max); [done|].
       split_and!; [done|done|]. simpl. lia. }
  apply checked_add_some in H16 as [-> H16].
  destruct (Z.leb_spec (bp regs + 16) (sp regs)); [by split_and!; [..|left]|].
  unfold read_stack. destruct (read_fn (env_read env) (bp regs)) as [[nbp|] rs1] eqn:Hr1.
  2: { split_and!; [done|done|]. by left. }
  destruct (negb (nbp =? 0) && (nbp <=? bp regs)) eqn:Hb.
  { zify_bools. split_and!; [done|done|]. right. by exists nbp. }
  assert (nbp = 0 ∨ bp regs < nbp).
  { apply andb_false_iff in Hb as [Hb|Hb]; zify_bools; lia. }
  cbn [env_read]. destruct (read_fn rs1 (bp regs + 8)) as [[ra|] rs2] eqn:Hr2.
  2: { split_and!; [done|done|]. right. split; [done|]. by exists nbp, rs1. }
  destruct (Z.eqb_spec ra 0); [done|].
  destruct (Z.eqb_spec (bp regs + 16) (sp regs)); [lia|]. simpl.
  split; [done|]. exists nbp. split; [|done]. split_and!; [done|lia|lia|done|done|by exists rs1].
Qed.
End fallback.

(** ** Lemmas: the whole step *)
Section unwind_lemmas.
Context `{Profile} {L : LibunwindApi} `{!LibunwindLaws L} {ReadT : Type}.
Context (read_fn : ReadT → Z → option Z * ReadT).
Context (s : ModuleSet) (frame : FrameAddress).

(** What [unwind_frame] computes from [frame] and [regs]. *)
Definition frame_input (regs : UnwindRegsX86_64) : FrameInput :=
  mkFrameInput (address frame) (address_for_lookup frame) (sp regs) (bp regs) (λ a, a)
    (is_return_address frame) (from_public (address_for_lookup frame) regs)
    [UNW_REG_SP; UNW_X86_64_RBP].

(** What a step leaves behind, as seen by the caller. *)
Definition frame_post (regs : UnwindRegsX86_64) (env : Env ReadT)
    (r : outcome Error (option Z) * (UnwindRegsX86_64 * Env ReadT)) : Prop :=
  match r with
  | (Ok None, (regs', env')) => regs' = regs ∧ caches_ok s (env_heap env')
  | (Ok (Some a), (regs', env')) =>
      caches_ok s (env_heap env') ∧ a ≠ 0 ∧
      (∃ sp' bp', regs' = restore_caller regs a sp' bp') ∧
      (a ≠ address frame ∨ sp regs' ≠ sp regs) ∧
      recovered read_fn s (frame_input regs) env a (sp regs') env'
  | (Err e, (regs', env')) =>
      regs' = regs ∧ caches_ok s (env_heap env') ∧ genuine read_fn s (frame_input regs) env e env'
  | (Panic, _) => step_panics s (address_for_lookup frame) (env_static env)
  | (UB, _) | (NoFuel, _) => False
  end.

Lemma finish_step_post regs env env' new_ip extras :
  regs_ok regs → is_u64 new_ip → caches_ok s (env_heap env') →
  unwind_info_error s (address_for_lookup frame) = None →
  has_unwind_info s (address_for_lookup frame) = true →
  stepped read_fn (handle_of (env_static env)) [UNW_REG_SP; UNW_X86_64_RBP]
    (first_world s (from_public (address_for_lookup frame) regs) (address_for_lookup frame) env)
    new_ip (extras !!! 0%nat) →
  frame_post regs env (finish_step s frame new_ip extras (regs, env')).
Proof.
  intros Hr Hu Hc He Hi Hstep.
  unfold finish_step, mbind, sm_bind, sm_get, sm_lift, sm_err, sm_modify, mret, sm_ret.
  cbv zeta. destruct (Z.eqb_spec new_ip 0); [done|].
  unfold frame_post, genuine, recovered. simpl. rewrite He, Hi.
  destruct (is_return_address frame && negb _ && contains_address s new_ip) eqn:Hadj.
  - zify_bools. destruct (checked_add new_ip 1) as [a|] eqn:Ha; cbn [ok_or].
    2: { split_and!; [done..|]. exists new_ip, (extras !!! 0%nat). split_and!; [done..|].
         unfold checked_add in Ha. destruct (Z.leb_spec (new_ip + 1) u64_max); [done|lia]. }
    apply checked_add_some in Ha as [-> _]. destruct (_ && _) eqn:Hs.
    + zify_bools. split_and!; [done..|]. exists new_ip. split; [congruence|by right].
    + rewrite restore_sp by done.
      split_and!; [done|unfold is_u in Hu; lia|eauto| |by exists new_ip; auto 10].
      apply andb_false_iff in Hs as [?|?]; zify_bools; auto.
  - destruct ((new_ip =? address frame) && _) eqn:Hs.
    + apply andb_true_iff in Hs as [?%Z.eqb_eq ?%Z.eqb_eq].
      split_and!; [done..|]. exists new_ip. split; [congruence|by left].
    + rewrite restore_sp by done. split_and!; [done|done|eauto| |by exists new_ip; auto].
      apply andb_false_iff in Hs as [?|?]; zify_bools; auto.
Qed.

Lemma unwind_frame_post regs env :
  set_wf s → below_top s → regs_ok regs → caches_ok s (env_heap env) →
  frame_post regs env (unwind_frame read_fn s frame (regs, env)).
Proof.
  intros Hwf Ht Hr Hc. unfold unwind_frame. cbv zeta.
  destruct (unwind_info_error s _) as [err|] eqn:Hu.
  { split_and!; [done..|]. unfold genuine. cbn [fi_lookup frame_input]. by rewrite Hu. }
  destruct (has_unwind_info s _) eqn:Hi; cbn [negb].
  - pose proof (step_with_ctx_cases read_fn s (address_for_lookup frame) Hwf Ht
      (from_public (address_for_lookup frame) regs) [UNW_REG_SP; UNW_X86_64_RBP] env Hc) as Hs.
    destruct (step_with_ctx _ _ _ _ _ _) as [[[step failed] uie] env'].
    destruct step as [[new_ip extras|]|err| | |]; simpl in *; try done.
    + destruct Hs as (? & [? _] & Hx). apply finish_step_post; try done. by eapply Hx.
    + by destruct Hs.
    + destruct Hs as [? Hf]. split_and!; [done..|]. unfold genuine. simpl. rewrite Hu, Hi.
      by destruct failed, uie.
  - pose proof (fallback_cases read_fn (address frame) regs env) as Hf.
    destruct (fallback_unwind_frame read_fn (address frame) (regs, env))
      as [[[a|]|e| | |] [regs' env']]; simpl; try done.
    + destruct Hf as (Hh & nbp & (? & [Hsp _] & ? & ? & Hrd) & ->). rewrite Hh, restore_sp by done.
      split_and!; [done|done|eauto|right; lia|]. unfold recovered. simpl. rewrite Hi.
      split; [done|]. by exists nbp, a.
    + destruct Hf as [-> ->]. done.
    + destruct Hf as (-> & -> & He). split_and!; [done|done|]. unfold genuine. simpl.
      by rewrite Hu, Hi.
Qed.
End unwind_lemmas.

(** ** Properties *)


(** The public register file behaves like a map with validity bits: after
    [set], exactly that register reads as the new value and every other
    register's value and validity are unchanged. *)
Theorem register_file_set (regs : UnwindRegsX86_64) (reg reg' : Reg) (v : Z) :
  regs_ok regs →
  get_if_set (set regs reg v) reg' = (if decide (reg = reg') then Some v else get_if_set regs reg') ∧
  get (set regs reg v) reg' = (if decide (reg = reg') then v else get regs reg').
Proof.
  intros Hr. split; [by apply get_if_set_set|]. destruct (decide (reg = reg')) as [->|].
  - by apply get_set_eq.
  - by apply get_set_ne.
Qed.

(** The register accessor offered to libunwind agrees with the public
    registers it was built from: RIP reads the lookup address, register [n]
    reads its value when it is set and [-UNW_EBADREG] when it is not, a write is
    read back and marks the register valid, and a number outside the sixteen
    registers is refused. *)
Theorem access_reg_behaviour (regs : UnwindRegsX86_64) (lookup_ip val val' : Z) (reg : Reg) (n : Z) :
  regs_ok regs →
  let raw := from_public lookup_ip regs in
  let i := Z.of_nat (reg_index reg) in
  access_reg raw UNW_X86_64_RIP val 0 = (UNW_ESUCCESS, lookup_ip, raw) ∧
  access_reg raw i val 0 =
    (match get_if_set regs reg with
     | Some v => (UNW_ESUCCESS, v, raw)
     | None => (- UNW_EBADREG, val, raw)
     end) ∧
  access_reg raw i val 1 = (UNW_ESUCCESS, val, from_public lookup_ip (set regs reg val)) ∧
  access_reg (access_reg raw i val 1).2 i val' 0 =
    (UNW_ESUCCESS, val, from_public lookup_ip (set regs reg val)) ∧
  (n < 0 ∨ 16 < n → access_reg raw n val 0 = (- UNW_EBADREG, val, raw) ∧
                    access_reg raw n val 1 = (- UNW_EBADREG, val, raw)).
Proof.
  intros Hr raw i.
  assert (∀ r, regs_ok r → ∀ v, access_reg (from_public lookup_ip r) i v 0 =
    match get_if_set r reg with
    | Some v => (UNW_ESUCCESS, v, from_public lookup_ip r)
    | None => (- UNW_EBADREG, v, from_public lookup_ip r)
    end) as Hread.
  { intros r Hok v. unfold access_reg, get_if_set, i, valid_reg_bit, get. simpl.
    rewrite Nat2Z.id. by destruct reg; simpl; destruct (negb _). }
  assert (access_reg raw i val 1 = (UNW_ESUCCESS, val, from_public lookup_ip (set regs reg val)))
    as Hwrite by by destruct reg.
  split_and!; [done|by apply Hread|done| |].
  - rewrite Hwrite. cbn [snd]. rewrite Hread by (by apply set_ok).
    by rewrite get_if_set_set, decide_True.
  - intros Hn. unfold access_reg. unfold UNW_X86_64_RIP.
    destruct (Z.eqb_spec n 16); [lia|].
    destruct (Z.leb_spec 0 n), (Z.ltb_spec n 16); simpl; try done; lia.
Qed.

(** The frame-pointer fallback makes progress: a recovered frame's stack
    pointer is above the current one, its frame pointer is above the current one
    unless it is 0 (the outermost frame), and [DidNotAdvance] is never reported:
    that check is dead code behind [new_sp <= sp]. *)
Theorem fallback_progress {ReadT} (read_fn : ReadT → Z → option Z * ReadT) (cur : Z)
    (regs : UnwindRegsX86_64) (env : Env ReadT) :
  regs_ok regs →
  match fallback_unwind_frame read_fn cur (regs, env) with
  | (Ok (Some ra), (regs', _)) =>
      ra ≠ 0 ∧ sp regs < sp regs' ∧ sp regs' = bp regs + 16 ∧
      (bp regs' = 0 ∨ bp regs < bp regs')
  | (Ok None, (regs', _)) => regs' = regs
  | (Err e, (regs', _)) => regs' = regs ∧ e ≠ DidNotAdvance
  | _ => False
  end.
Proof.
  intros Hr. pose proof (fallback_cases read_fn cur regs env) as Hf.
  destruct (fallback_unwind_frame read_fn cur (regs, env)) as [[[a|]|e| | |] [regs' env']]; try done.
  - destruct Hf as (_ & nbp & (_ & [Hsp _] & Hb & Hra & _) & ->).
    rewrite restore_sp, restore_bp by done. split_and!; [done|lia|done|done].
  - by destruct Hf as [-> _].
  - destruct Hf as (-> & _ & He). split; [done|]. by intros ->.
Qed.

(** ** Behaviour on concrete stacks *)
#[local] Instance demo_libunwind : LibunwindApi :=
  toy_libunwind UNW_X86_64_RIP UNW_X86_64_RSP UNW_X86_64_RBP.
#[local] Instance demo_laws : LibunwindLaws demo_libunwind := toy_libunwind_laws _ _ _.
#[local] Instance demo_profile : Profile := true.

(** A stack whose word at 0x8000 is 0x1008, an address of the one-FDE module. *)
Definition demo_read (u : ()) (a : Z) : option Z * () :=
  (if a =? 0x8000 then Some 0x1008 else None, u).
Definition demo_env : Env () := mkEnv () one_fde_heap None.
Definition demo_regs : UnwindRegsX86_64 := new 0x1005 0x8000 0.

(** A return address is reported one byte too high when the frame it was
    recovered from is itself a return-address frame: with the same stack word
    0x1008, the initial frame yields 0x1008 but a return-address frame yields
    0x1009, so the caller's lookup address is 0x1008, the byte after the call,
    not inside it as [FrameAddress::address_for_lookup] documents. *)
Theorem return_address_off_by_one :
  (unwind_frame demo_read one_fde_set (InstructionPointer 0x1004) (demo_regs, demo_env)).1 =
    Ok (Some 0x1008) ∧
  (unwind_frame demo_read one_fde_set (ReturnAddress 0x1005) (demo_regs, demo_env)).1 =
    Ok (Some 0x1009) ∧
  address_for_lookup (ReturnAddress 0x1009) = 0x1008.
Proof. vm_compute. done. Qed.

(** A module with a truncated header, and a stack with a valid frame record. *)
Definition bad_hdr_sections : DwarfModuleSections :=
  mkDwarfModuleSections 0 None None None None (Some (mkRange 0x4000 0x4001)) (Some [1]).
Definition bad_hdr_set : ModuleSet :=
  match Modules.new (E:=ModuleError) "bad" (mkRange 0x1000 0x2000) 0 bad_hdr_sections heap_init with
  | Ok (m, _) => add ModuleSet.new m
  | _ => ModuleSet.new
  end.
Definition bad_hdr_read (u : ()) (a : Z) : option Z * () :=
  (if a =? 0x8000 then Some 0x8100 else if a =? 0x8008 then Some 0x1234 else None, u).
Definition bad_hdr_regs : UnwindRegsX86_64 := new 0x1004 0x7ff0 0x8000.

(** A module with an unsupported unwind section is accepted by [Module::new],
    but, contrary to the README, its frames cannot use the frame-pointer
    fallback: every step inside it fails with [InvalidEhFrameHdr], although the
    fallback on the same registers would succeed. *)
Theorem malformed_header_blocks_fallback :
  (unwind_frame bad_hdr_read bad_hdr_set (InstructionPointer 0x1004)
     (bad_hdr_regs, demo_env)).1 =
    Err (UnwindInfo (UIInvalidEhFrameHdr "bad" (FixedHeaderTruncated 1))) ∧
  (fallback_unwind_frame bad_hdr_read 0x1004 (bad_hdr_regs, demo_env)).1 = Ok (Some 0x1234).
Proof. vm_compute. done. Qed.

(** ** The hypotheses hold *)
Lemma one_fde_reachable : reachable one_fde_set.
Proof. apply reach_add; [apply reach_new|apply one_fde_module_ok]. Qed.

Lemma one_fde_registered m : registered one_fde_set m → m = one_fde_module.
Proof.
  unfold registered. generalize (start (avma_range m)). intros k.
  change (bt_get k [(0x1000, one_fde_module)] = Some m → m = one_fde_module).
  cbn [bt_get]. destruct (0x1000 =? k); [by intros [= <-]|done].
Qed.

Lemma one_fde_caches_ok : caches_ok one_fde_set one_fde_heap.
Proof.
  split.
  - by intros m1 m2 ->%one_fde_registered ->%one_fde_registered.
  - intros m ->%one_fde_registered. apply one_fde_cache_ok.
Qed.

Lemma one_fde_below_top : below_top one_fde_set.
Proof.
  intros k e.
  change (bt_get k [(0x3000, mkRedirectEntry (mirror 0x3000 one_fde_eh_frame) one_fde_module);
                    (0x4000, mkRedirectEntry (mirror 0x4000 one_fde_hdr) one_fde_module)]
          = Some e → sec_avma_end (section e) < u64_max).
  cbn [bt_get]. destruct (0x3000 =? k); [intros [= <-]; by_compute|].
  destruct (0x4000 =? k); [intros [= <-]; by_compute|done].
Qed.


Lemma register_file_set_witness :
  get_if_set (set demo_regs RAX 7) RAX = Some 7 ∧ get (set demo_regs RAX 7) RAX = 7.
Proof. exact (register_file_set demo_regs RAX RAX 7 eq_refl). Defined.

Lemma access_reg_behaviour_witness :
  access_reg (from_public 0x1004 demo_regs) UNW_X86_64_RIP 0 0 =
  (UNW_ESUCCESS, 0x1004, from_public 0x1004 demo_regs).
Proof. exact (proj1 (access_reg_behaviour demo_regs 0x1004 0 0 RSP 20 eq_refl)). Defined.

Lemma fallback_progress_witness :
  0x1234 ≠ 0 ∧ sp bad_hdr_regs < 0x8010 ∧ 0x8010 = bp bad_hdr_regs + 16 ∧
  (0x8100 = 0 ∨ bp bad_hdr_regs < 0x8100).
Proof. exact (fallback_progress bad_hdr_read 0x1004 bad_hdr_regs demo_env eq_refl). Defined.

(** The world of the first callback of a step. *)
Definition demo_world : World RawRegs () :=
  mkWorld (mkUnwindCtx one_fde_set (from_public 0x1004 demo_regs) 0x1004 () None None) one_fde_heap.

Lemma demo_world_inv : world_inv demo_read one_fde_set 0x1004 demo_world.
Proof. by split_and!; [..|apply one_fde_caches_ok| |]. Qed.

Lemma find_proc_info_contract_witness :
  match find_proc_info 0 UnwProcInfo_zeroed 1 demo_world with
  | (Ok (ret, pi'), w') =>
      world_inv demo_read one_fde_set 0x1004 w' ∧
      ((ret = UNW_ESUCCESS ∧ proc_info_ok one_fde_set 0x1004 pi' w') ∨
       (ret = - UNW_ENOINFO ∧ pi' = UnwProcInfo_zeroed ∧
        ∃ e, ctx_unwind_info_error (ctx w') = Some e ∧ lookup_failure one_fde_set 0x1004 e))
  | (Panic, _) => parse_panics one_fde_set 0x1004
  | _ => False
  end.
Proof.
  exact (find_proc_info_contract demo_read one_fde_set 0x1004 0 1 UnwProcInfo_zeroed
           demo_world one_fde_reachable demo_world_inv).
Defined.

Lemma one_fde_wf : set_wf (ctx_modules (ctx demo_world)).
Proof. apply (reachable_wf one_fde_set), one_fde_reachable. Qed.


Lemma init_and_step_safe_witness :
  match init_and_step demo_read [UNW_REG_SP] (demo_world, None) with
  | (Ok (Stepped new_ip extras), (w', static')) =>
      world_inv demo_read one_fde_set 0x1004 w' ∧ static' = Some 1 ∧
      is_u64 new_ip ∧ length extras = 4%nat ∧ Forall is_u64 extras ∧
      (∀ reg, head [UNW_REG_SP] = Some reg →
         stepped demo_read 1 [UNW_REG_SP] demo_world new_ip (extras !!! 0%nat))
  | _ => False
  end.
Proof.
  exact (init_and_step_safe demo_libunwind demo_read one_fde_set 0x1004 [UNW_REG_SP] demo_world
    None one_fde_reachable one_fde_below_top demo_world_inv).
Defined.
