(* ===== verification/MachineTypes.v ===== *)
(** * Machine types of what libunwind receives

    The records of [src/src/ffi/types.rs] cross the FFI boundary with fixed-width
    fields.  Every value the crate computes for them fits its field, so no value
    of the model stands for a truncated one. *)

From S2P Require Import Prelude.
From S2P Require Import Errors.
From S2P Require Import Ffi.
From S2P Require Import Dwarf.
From S2P Require Import DwarfSafety.
From S2P Require Import Modules.
From S2P Require Import ModuleSet.
From S2P Require Import Callbacks.
From S2P Require X86_64.

(** ** The field types *)
Definition cie_info_typed (c : DwarfCieInfo) : Prop :=
  is_u64 (cie_instr_start c) ∧ is_u64 (cie_instr_end c) ∧ is_u64 (fde_instr_start c) ∧
  is_u64 (fde_instr_end c) ∧ is_u64 (dci_code_align c) ∧ is_u64 (dci_data_align c) ∧
  is_u64 (dci_ret_addr_column c) ∧ is_u64 (dci_handler c) ∧ is_u 16 (abi c) ∧ is_u 16 (tag c) ∧
  is_u8 (dci_fde_encoding c) ∧ is_u8 (dci_lsda_encoding c) ∧ is_u 32 (dci_flags c).

Definition details_typed (d : FunctionDetails) : Prop :=
  is_u64 (start_ip d) ∧ is_u64 (end_ip d) ∧ cie_info_typed (cie_info d) ∧ is_u64 (fd_lsda d) ∧
  is_u64 (fd_handler d).

(** [unw_proc_info_t]: words, and two [c_int]s. *)
Definition is_c_int (z : Z) : Prop := - 2 ^ 31 ≤ z < 2 ^ 31.
Definition proc_info_typed (pi : UnwProcInfo) : Prop :=
  is_u64 (pi_start_ip pi) ∧ is_u64 (pi_end_ip pi) ∧ is_u64 (pi_lsda pi) ∧ is_u64 (pi_handler pi) ∧
  is_u64 (pi_gp pi) ∧ is_u64 (pi_flags pi) ∧ is_c_int (pi_format pi) ∧
  is_c_int (pi_unwind_info_size pi) ∧ from_option cie_info_typed True (pi_unwind_info pi).

#[export] Instance cie_info_typed_dec c : Decision (cie_info_typed c).
Proof. unfold cie_info_typed. apply _. Defined.
#[export] Instance details_typed_dec d : Decision (details_typed d).
Proof. unfold details_typed. apply _. Defined.

(** ** Parsing produces them *)
Section typed.
Context `{Profile}.

Lemma cie_info_flags (z sig : bool) :
  is_u 32 (let flags := 0 in
          let flags := if z then Z.lor flags FLAG_SIZED_AUGMENTATION else flags in
          if sig then Z.lor flags FLAG_SIGNAL_FRAME else flags).
Proof. by destruct z, sig. Qed.

Lemma build_dwarf_cie_info_typed bs off cie fde avma :
  cie_ok bs off cie → cie_info_typed (build_dwarf_cie_info cie fde avma).
Proof.
  intros (Hca & Hda & Hra & Hfe & Hle & Hp & _). unfold build_dwarf_cie_info. cbv zeta.
  unfold cie_info_typed; cbn [cie_instr_start cie_instr_end fde_instr_start fde_instr_end
    dci_code_align dci_data_align dci_ret_addr_column dci_handler abi tag dci_fde_encoding
    dci_lsda_encoding dci_flags].
  split_and!; try apply wrapping_add_u64; try done; [by apply wrap_bounds|].
  exact (cie_info_flags (has_z cie) (signal_frame cie)).
Qed.

Lemma details_typed_parse m ip d :
  module_ok m → parse_function_details m ip = Ok d → details_typed d.
Proof.
  intros Hok Hd. pose proof (parse_function_details_cases m ip Hok) as Hcases. rewrite Hd in Hcases.
  destruct Hcases as (Hcov & Hs0 & He0). destruct Hok as (_ & Hh & He & _).
  revert Hd. unfold parse_function_details.
  destruct (is_null (eh_frame_local_ptr m)) eqn:Hne; [done|].
  destruct (is_null (eh_frame_hdr_local_ptr m)) eqn:Hnh; [done|]. cbn [orb].
  destruct (local_ok_bytes _ _ Hh Hnh) as (hb & _ & _ & ->). run.
  destruct (EhFrameTable.lookup _ _ _) as [[[pc fde_avma]|]| | | |]; try done. orun.
  destruct (local_ok_bytes _ _ He Hne) as (bs & Hbs & _ & ->). run.
  destruct (checked_sub fde_avma (eh_frame_avma m)) as [off|] eqn:Hsub; [|done].
  apply checked_sub_some in Hsub as [Heq Hsub]. cbn [ok_or]. run.
  destruct (Z.leb_spec (len bs) off) as [|Hoff]; [done|].
  pose proof (fde_cie_offset_cases m bs off Hbs ltac:(lia)) as Hco.
  destruct (fde_cie_offset m bs off) as [co| | | |]; try done. run.
  pose proof (parse_cie_cases bs (eh_frame_avma m) Hbs co Hco) as Hcie.
  destruct (parse_cie bs co (eh_frame_avma m)) as [cie| | | |]; try done.
  cbn [map_err]. run. set (cfg := mkFdeParseConfig _ _ _ _ _).
  pose proof (parse_fde_cases bs (eh_frame_avma m) Hbs off cfg ltac:(lia)) as Hfde.
  destruct (parse_fde bs off (eh_frame_avma m) cfg) as [fde| | | |]; try done.
  cbn [map_err]. run. destruct Hfde as (Hpc & _ & Hlsda).
  destruct (checked_add _ _) as [e|]; [|done]. destruct (_ || _); [done|]. intros [= <-].
  simpl in Hcov, Hs0, He0. unfold details_typed. cbn [start_ip end_ip cie_info fd_lsda fd_handler].
  split_and!; [done| |by eapply build_dwarf_cie_info_typed|done|by destruct Hcie as (_&_&_&_&_&?&_)].
  unfold is_u. unfold u64_max in He0. lia.
Qed.
End typed.

(** ** Properties *)

(** C20: type safety at the FFI boundary: whatever bytes the sections of the
    registered modules hold, a record [find_proc_info] hands to libunwind has
    every field within its C type, with a code range that is not empty and
    contains the looked-up address. *)
Theorem find_proc_info_typed `{Profile} `{Arch} {ReadT} (read_fn : ReadT → Z → option Z * ReadT)
    (s : ModuleSet) (ip ip' need : Z) (pi pi' : UnwProcInfo) (w w' : World RawRegs ReadT) :
  reachable s → world_inv read_fn s ip w →
  find_proc_info ip' pi need w = (Ok (UNW_ESUCCESS, pi'), w') →
  proc_info_typed pi' ∧ pi_start_ip pi' ≤ ip < pi_end_ip pi'.
Proof.
  intros Hr Hw Hf. pose proof (reachable_wf s Hr) as Hwf.
  pose proof (find_proc_info_safe read_fn s ip Hwf ip' pi need w Hw) as Hs. rewrite Hf in Hs.
  cbn [fst snd] in Hs. destruct Hs as [Hw' [[_ (m & d & Hm & Hcov & -> & cache & Hl & Hc)]|[[=] _]]].
  destruct (find_module_some s ip m Hwf Hm) as [Hreg _].
  destruct Hw' as (_ & _ & [_ Hok] & _). destruct (Hok m Hreg) as (cache' & Hl' & _ & Hcache).
  rewrite Hl in Hl'. injection Hl' as <-. destruct (Hcache _ _ Hc) as (_ & ip0 & _ & Hp).
  destruct (details_typed_parse m ip0 d (registered_ok _ _ Hwf Hreg) Hp) as (? & ? & ? & ? & ?).
  split; [|done]. unfold proc_info_typed, fill_proc_info.
  cbn [pi_start_ip pi_end_ip pi_lsda pi_handler pi_gp pi_flags pi_format pi_unwind_info_size
       pi_unwind_info from_option]. by split_and!.
Qed.

(** *** Witness: the one-function module of the x86_64 unwinder's examples *)
Definition demo_proc_info : UnwProcInfo := fill_proc_info one_fde_details.

Lemma find_proc_info_typed_witness :
  proc_info_typed demo_proc_info ∧ pi_start_ip demo_proc_info ≤ 0x1004 < pi_end_ip demo_proc_info.
Proof.
  eapply (find_proc_info_typed (H:=true) (H0:=X86_64.x86_64_arch) X86_64.demo_read one_fde_set 0x1004 0 1
    UnwProcInfo_zeroed demo_proc_info X86_64.demo_world);
    [apply X86_64.one_fde_reachable|apply X86_64.demo_world_inv|vm_compute; reflexivity].
Defined.
