(* ===== verification/Abi.v ===== *)
(** * [src/src/ffi] against the headers of the bundled libunwind

    The structures of [types.rs] are declared by hand with [repr(C)], and the
    constants of [consts.rs] are copied.  Here both sides, the Rust declarations and
    the C headers ([vendor/libunwind-dist/include]), are laid out by the rules of the
    System V ABI, which [repr(C)] follows, and compared. *)

From Stdlib Require Import String.
From stdpp Require Import strings.
From S2P Require Import Prelude.
From S2P Require Import Ffi.
From S2P Require Import MachineTypes.
Local Open Scope string_scope.
Local Open Scope Z_scope.

(** ** Layout of C structures *)

(** Integers and pointers are aligned to their size. *)
Inductive CType : Type :=
  | Scalar (size : Z)
  | Array (elem : CType) (n : Z).

Fixpoint type_size (t : CType) : Z :=
  match t with Scalar size => size | Array elem n => type_size elem * n end.
Fixpoint type_align (t : CType) : Z :=
  match t with Scalar size => size | Array elem _ => type_align elem end.

(** A member, or a bit-field of an integer type of [size] bytes. *)
Inductive Member : Type :=
  | Field (t : CType)
  | BitField (size width : Z).
Abbreviation Struct := (list (string * Member)).

Definition align_up (a x : Z) : Z := (x + a - 1) / a * a.
Definition member_align (m : Member) : Z :=
  match m with Field t => type_align t | BitField size _ => size end.

(** Position and width in bits of a member, when the members before it end at bit
    [pos].  A bit-field is put in the next free bits, whatever they follow, unless it
    would cross a boundary of its type. *)
Definition place (pos : Z) (m : Member) : Z * Z :=
  match m with
  | Field t => (align_up (8 * type_align t) pos, 8 * type_size t)
  | BitField size width =>
      if pos mod (8 * size) + width <=? 8 * size then (pos, width)
      else (align_up (8 * size) pos, width)
  end.

Fixpoint layout_from (pos : Z) (s : Struct) : list (string * (Z * Z)) :=
  match s with
  | [] => []
  | (name, m) :: s' =>
      let '(o, w) := place pos m in (name, (o, w)) :: layout_from (o + w) s'
  end.
Definition layout (s : Struct) : list (string * (Z * Z)) := layout_from 0 s.

Definition struct_align (s : Struct) : Z := foldr (λ m a, Z.max (member_align m.2) a) 1 s.
Definition struct_size (s : Struct) : Z :=
  align_up (struct_align s) (foldr (λ f e, Z.max ((f.2.1 + f.2.2 + 7) / 8) e) 0 (layout s)).

Fixpoint find_field (name : string) (l : list (string * (Z * Z))) : option (Z * Z) :=
  match l with
  | [] => None
  | (n, p) :: l' => if String.eqb n name then Some p else find_field name l'
  end.

(** ** The declarations *)
Definition word : Member := Field (Scalar 8).
Definition pointer : Member := Field (Scalar 8).

(** *** [types.rs] *)
Definition UnwCursor_repr : Struct := [("_opaque", Field (Array (Scalar 8) 512))].

Definition UnwProcInfo_repr : Struct :=
  [("start_ip", word); ("end_ip", word); ("lsda", word); ("handler", word); ("gp", word);
   ("flags", word); ("format", Field (Scalar 4)); ("unwind_info_size", Field (Scalar 4));
   ("unwind_info", pointer); ("extra", Field (Array (Scalar 1) 16))].

Definition DwarfCieInfo_repr : Struct :=
  [("cie_instr_start", word); ("cie_instr_end", word); ("fde_instr_start", word);
   ("fde_instr_end", word); ("code_align", word); ("data_align", word);
   ("ret_addr_column", word); ("handler", word); ("abi", Field (Scalar 2));
   ("tag", Field (Scalar 2)); ("fde_encoding", Field (Scalar 1));
   ("lsda_encoding", Field (Scalar 1)); ("flags", Field (Scalar 4))].

Definition UnwAccessors_repr : Struct :=
  [("find_proc_info", pointer); ("put_unwind_info", pointer); ("get_dyn_info_list_addr", pointer);
   ("access_mem", pointer); ("access_reg", pointer); ("access_fpreg", pointer);
   ("resume", pointer); ("get_proc_name", pointer); ("get_elf_filename", pointer);
   ("get_proc_ip_range", pointer); ("ptrauth_insn_mask", pointer)].

(** *** [libunwind-common.h], [dwarf.h] *)
Definition unw_cursor (tdep_cursor_len : Z) : Struct :=
  [("opaque", Field (Array (Scalar 8) tdep_cursor_len))].

(** [unw_tdep_proc_info_t] is a structure of one byte on both architectures. *)
Definition unw_proc_info : Struct :=
  [("start_ip", word); ("end_ip", word); ("lsda", word); ("handler", word); ("gp", word);
   ("flags", word); ("format", Field (Scalar 4)); ("unwind_info_size", Field (Scalar 4));
   ("unwind_info", pointer); ("extra", Field (Scalar 1))].

Definition dwarf_cie_info : Struct :=
  [("cie_instr_start", word); ("cie_instr_end", word); ("fde_instr_start", word);
   ("fde_instr_end", word); ("code_align", word); ("data_align", word);
   ("ret_addr_column", word); ("handler", word); ("abi", Field (Scalar 2));
   ("tag", Field (Scalar 2)); ("fde_encoding", Field (Scalar 1));
   ("lsda_encoding", Field (Scalar 1)); ("sized_augmentation", BitField 4 1);
   ("have_abi_marker", BitField 4 1); ("signal_frame", BitField 4 1)].

Definition unw_accessors : Struct :=
  [("find_proc_info", pointer); ("put_unwind_info", pointer); ("get_dyn_info_list_addr", pointer);
   ("access_mem", pointer); ("access_reg", pointer); ("access_fpreg", pointer);
   ("resume", pointer); ("get_proc_name", pointer); ("get_elf_filename", pointer);
   ("get_proc_ip_range", pointer); ("ptrauth_insn_mask", pointer)].

(** ** Memory

    A structure in memory is a function from offsets to bytes; what was there before
    shows through the padding. *)
Abbreviation Mem := (Z → Z).

Definition store (off : Z) (bytes : list Z) (mem : Mem) : Mem := λ a,
  if (off <=? a) && (a <? off + len bytes) then nth (Z.to_nat (a - off)) bytes 0 else mem a.

Definition store_field (s : Struct) (name : string) (v : Z) (mem : Mem) : Mem :=
  match find_field name (layout s) with
  | Some (o, w) => store (o / 8) (le_encode (Z.to_nat (w / 8)) v) mem
  | None => mem
  end.
Definition store_fields (s : Struct) (fields : list (string * Z)) (mem : Mem) : Mem :=
  foldl (λ mem f, store_field s f.1 f.2 mem) mem fields.

(** A member read as an unsigned integer. *)
Definition load_field (s : Struct) (name : string) (mem : Mem) : option Z :=
  '(o, w) ← find_field name (layout s);
  let bytes := mem <$> seqZ (o / 8) ((o mod 8 + w + 7) / 8) in
  Some (le_decode bytes / 2 ^ (o mod 8) mod 2 ^ w).

(** A [DwarfCieInfo] as Rust writes it. *)
Definition cie_info_fields (c : DwarfCieInfo) : list (string * Z) :=
  [("cie_instr_start", cie_instr_start c); ("cie_instr_end", cie_instr_end c);
   ("fde_instr_start", fde_instr_start c); ("fde_instr_end", fde_instr_end c);
   ("code_align", dci_code_align c); ("data_align", dci_data_align c);
   ("ret_addr_column", dci_ret_addr_column c); ("handler", dci_handler c); ("abi", abi c);
   ("tag", tag c); ("fde_encoding", dci_fde_encoding c); ("lsda_encoding", dci_lsda_encoding c)].
Definition cie_info_memory (c : DwarfCieInfo) (before : Mem) : Mem :=
  store_fields DwarfCieInfo_repr (cie_info_fields c ++ [("flags", dci_flags c)]) before.

(** What [find_proc_info] writes; [ptr] is the address of the cached details. *)
Definition proc_info_fields (pi : UnwProcInfo) (ptr : Z) : list (string * Z) :=
  [("start_ip", pi_start_ip pi); ("end_ip", pi_end_ip pi); ("lsda", pi_lsda pi);
   ("handler", pi_handler pi); ("gp", pi_gp pi); ("flags", pi_flags pi); ("format", pi_format pi);
   ("unwind_info_size", pi_unwind_info_size pi); ("unwind_info", ptr)].
Definition proc_info_memory (pi : UnwProcInfo) (ptr : Z) (before : Mem) : Mem :=
  store_fields UnwProcInfo_repr (proc_info_fields pi ptr) before.

(** ** Enumerations *)

(** An enumerator: the value after the previous one, a number, or another
    enumerator. *)
Inductive Enumerator : Type :=
  | Next
  | Value (v : Z)
  | SameAs (name : string).

Fixpoint find_value (name : string) (l : list (string * Z)) : option Z :=
  match l with
  | [] => None
  | (n, v) :: l' => if String.eqb n name then Some v else find_value name l'
  end.

(** The values, the last enumerator first. *)
Fixpoint enum_values_from (next : Z) (known : list (string * Z)) (l : list (string * Enumerator))
    : list (string * Z) :=
  match l with
  | [] => known
  | (name, d) :: l' =>
      let v := match d with
               | Next => next
               | Value v => v
               | SameAs other => default next (find_value other known)
               end in
      enum_values_from (v + 1) ((name, v) :: known) l'
  end.
Definition enum_values (l : list (string * Enumerator)) : list (string * Z) := enum_values_from 0 [] l.
Definition enumerators (names : list string) : list (string * Enumerator) :=
  (λ name, (name, Next)) <$> names.

(** [libunwind-common.h], [libunwind-dynamic.h]. *)
Definition unw_error_t : list (string * Enumerator) :=
  ("UNW_ESUCCESS", Value 0) ::
  enumerators ["UNW_EUNSPEC"; "UNW_ENOMEM"; "UNW_EBADREG"; "UNW_EREADONLYREG"; "UNW_ESTOPUNWIND";
    "UNW_EINVALIDIP"; "UNW_EBADFRAME"; "UNW_EINVAL"; "UNW_EBADVERSION"; "UNW_ENOINFO"].
Definition unw_dyn_info_format_t : list (string * Enumerator) :=
  enumerators ["UNW_INFO_FORMAT_DYNAMIC"; "UNW_INFO_FORMAT_TABLE"; "UNW_INFO_FORMAT_REMOTE_TABLE";
    "UNW_INFO_FORMAT_ARM_EXIDX"; "UNW_INFO_FORMAT_IP_OFFSET"].

(** [libunwind-x86_64.h], without [CONFIG_MSABI_SUPPORT]. *)
Definition x86_64_regnum_t : list (string * Enumerator) :=
  enumerators ["UNW_X86_64_RAX"; "UNW_X86_64_RDX"; "UNW_X86_64_RCX"; "UNW_X86_64_RBX";
    "UNW_X86_64_RSI"; "UNW_X86_64_RDI"; "UNW_X86_64_RBP"; "UNW_X86_64_RSP"; "UNW_X86_64_R8";
    "UNW_X86_64_R9"; "UNW_X86_64_R10"; "UNW_X86_64_R11"; "UNW_X86_64_R12"; "UNW_X86_64_R13";
    "UNW_X86_64_R14"; "UNW_X86_64_R15"; "UNW_X86_64_RIP"] ++
  [("UNW_TDEP_LAST_REG", SameAs "UNW_X86_64_RIP"); ("UNW_X86_64_CFA", Next);
   ("UNW_TDEP_IP", SameAs "UNW_X86_64_RIP"); ("UNW_TDEP_SP", SameAs "UNW_X86_64_RSP")].

(** [libunwind-aarch64.h], up to the registers the crate uses. *)
Definition aarch64_regnum_t : list (string * Enumerator) :=
  enumerators ["UNW_AARCH64_X0"; "UNW_AARCH64_X1"; "UNW_AARCH64_X2"; "UNW_AARCH64_X3";
    "UNW_AARCH64_X4"; "UNW_AARCH64_X5"; "UNW_AARCH64_X6"; "UNW_AARCH64_X7"; "UNW_AARCH64_X8";
    "UNW_AARCH64_X9"; "UNW_AARCH64_X10"; "UNW_AARCH64_X11"; "UNW_AARCH64_X12"; "UNW_AARCH64_X13";
    "UNW_AARCH64_X14"; "UNW_AARCH64_X15"; "UNW_AARCH64_X16"; "UNW_AARCH64_X17"; "UNW_AARCH64_X18";
    "UNW_AARCH64_X19"; "UNW_AARCH64_X20"; "UNW_AARCH64_X21"; "UNW_AARCH64_X22"; "UNW_AARCH64_X23";
    "UNW_AARCH64_X24"; "UNW_AARCH64_X25"; "UNW_AARCH64_X26"; "UNW_AARCH64_X27"; "UNW_AARCH64_X28";
    "UNW_AARCH64_X29"; "UNW_AARCH64_X30"] ++
  [("UNW_AARCH64_SP", Value 31); ("UNW_AARCH64_PC", Next);
   ("UNW_TDEP_IP", SameAs "UNW_AARCH64_X30"); ("UNW_TDEP_SP", SameAs "UNW_AARCH64_SP")].

(** The constants of [consts.rs] that name an enumerator. *)
Definition error_consts : list (string * Z) :=
  [("UNW_ESUCCESS", UNW_ESUCCESS); ("UNW_EUNSPEC", UNW_EUNSPEC); ("UNW_ENOMEM", UNW_ENOMEM);
   ("UNW_EBADREG", UNW_EBADREG); ("UNW_EREADONLYREG", UNW_EREADONLYREG);
   ("UNW_ESTOPUNWIND", UNW_ESTOPUNWIND); ("UNW_EINVALIDIP", UNW_EINVALIDIP);
   ("UNW_EBADFRAME", UNW_EBADFRAME); ("UNW_EINVAL", UNW_EINVAL); ("UNW_EBADVERSION", UNW_EBADVERSION);
   ("UNW_ENOINFO", UNW_ENOINFO)].
Definition format_consts : list (string * Z) :=
  [("UNW_INFO_FORMAT_DYNAMIC", UNW_INFO_FORMAT_DYNAMIC); ("UNW_INFO_FORMAT_TABLE", UNW_INFO_FORMAT_TABLE);
   ("UNW_INFO_FORMAT_REMOTE_TABLE", UNW_INFO_FORMAT_REMOTE_TABLE);
   ("UNW_INFO_FORMAT_ARM_EXIDX", UNW_INFO_FORMAT_ARM_EXIDX);
   ("UNW_INFO_FORMAT_IP_OFFSET", UNW_INFO_FORMAT_IP_OFFSET)].
Definition x86_64_consts : list (string * Z) :=
  [("UNW_X86_64_RAX", x86_64_regs.UNW_X86_64_RAX); ("UNW_X86_64_RDX", x86_64_regs.UNW_X86_64_RDX);
   ("UNW_X86_64_RCX", x86_64_regs.UNW_X86_64_RCX); ("UNW_X86_64_RBX", x86_64_regs.UNW_X86_64_RBX);
   ("UNW_X86_64_RSI", x86_64_regs.UNW_X86_64_RSI); ("UNW_X86_64_RDI", x86_64_regs.UNW_X86_64_RDI);
   ("UNW_X86_64_RBP", x86_64_regs.UNW_X86_64_RBP); ("UNW_X86_64_RSP", x86_64_regs.UNW_X86_64_RSP);
   ("UNW_X86_64_R8", x86_64_regs.UNW_X86_64_R8); ("UNW_X86_64_R9", x86_64_regs.UNW_X86_64_R9);
   ("UNW_X86_64_R10", x86_64_regs.UNW_X86_64_R10); ("UNW_X86_64_R11", x86_64_regs.UNW_X86_64_R11);
   ("UNW_X86_64_R12", x86_64_regs.UNW_X86_64_R12); ("UNW_X86_64_R13", x86_64_regs.UNW_X86_64_R13);
   ("UNW_X86_64_R14", x86_64_regs.UNW_X86_64_R14); ("UNW_X86_64_R15", x86_64_regs.UNW_X86_64_R15);
   ("UNW_X86_64_RIP", x86_64_regs.UNW_X86_64_RIP);
   ("UNW_TDEP_IP", x86_64_regs.UNW_REG_IP); ("UNW_TDEP_SP", x86_64_regs.UNW_REG_SP)].
Definition aarch64_consts : list (string * Z) :=
  [("UNW_AARCH64_X29", aarch64_regs.UNW_AARCH64_X29); ("UNW_AARCH64_X30", aarch64_regs.UNW_AARCH64_X30);
   ("UNW_AARCH64_SP", aarch64_regs.UNW_AARCH64_SP); ("UNW_AARCH64_PC", aarch64_regs.UNW_AARCH64_PC);
   ("UNW_TDEP_IP", aarch64_regs.UNW_REG_IP); ("UNW_TDEP_SP", aarch64_regs.UNW_REG_SP)].

(** Every constant has the value of its enumerator. *)
Definition consts_agree (consts : list (string * Z)) (enum : list (string * Enumerator)) : bool :=
  forallb (λ c, bool_decide (find_value c.1 (enum_values enum) = Some c.2)) consts.

(** ** Members of a structure do not overlap *)

Definition member_ok (m : Member) : bool :=
  match m with
  | Field t => (0 <? type_align t) && (0 <=? type_size t)
  | BitField size width => (0 <? size) && (0 <=? width)
  end.
Definition struct_ok (s : Struct) : bool := forallb (λ m, member_ok m.2) s.

Lemma align_up_ge a x : 0 < a → x ≤ align_up a x.
Proof.
  intros Ha. unfold align_up. pose proof (Z.div_mod (x + a - 1) a). pose proof (Z.mod_pos_bound (x + a - 1) a).
  nia.
Qed.

Lemma place_after pos m : member_ok m = true → pos ≤ (place pos m).1 ∧ 0 ≤ (place pos m).2.
Proof.
  destruct m as [t|size width]; cbn; intros [H1%Z.ltb_lt H2%Z.leb_le]%andb_true_iff.
  - pose proof (align_up_ge (8 * type_align t) pos). lia.
  - pose proof (align_up_ge (8 * size) pos). destruct (_ <=? _); cbn; lia.
Qed.

Lemma layout_from_after pos s name o w :
  struct_ok s = true → find_field name (layout_from pos s) = Some (o, w) → pos ≤ o ∧ 0 ≤ w.
Proof.
  revert pos. induction s as [|[n m] s IH]; intros pos; [done|]. cbn [struct_ok forallb layout_from snd].
  intros [Hm Hs]%andb_true_iff. pose proof (place_after pos m Hm) as [Hp Hw].
  destruct (place pos m) as [o' w'] eqn:Hpl. cbn [find_field fst snd] in *.
  destruct (String.eqb n name); [intros [= <- <-]; lia|].
  intros Hf. pose proof (IH (o' + w') Hs Hf). lia.
Qed.

Lemma layout_from_disjoint pos s n1 n2 o1 w1 o2 w2 :
  struct_ok s = true → n1 ≠ n2 →
  find_field n1 (layout_from pos s) = Some (o1, w1) → find_field n2 (layout_from pos s) = Some (o2, w2) →
  o1 + w1 ≤ o2 ∨ o2 + w2 ≤ o1.
Proof.
  revert pos. induction s as [|[n m] s IH]; intros pos; [done|]. cbn [struct_ok forallb layout_from snd].
  intros [Hm Hs]%andb_true_iff Hn. destruct (place pos m) as [o w]. cbn [find_field].
  destruct (String.eqb_spec n n1), (String.eqb_spec n n2); [congruence|..].
  - intros [= <- <-] Hf. pose proof (layout_from_after _ _ _ _ _ Hs Hf). lia.
  - intros Hf [= <- <-]. pose proof (layout_from_after _ _ _ _ _ Hs Hf). lia.
  - by apply IH.
Qed.

(** ** Loads and stores *)

Lemma fmap_store_same off bytes mem : store off bytes mem <$> seqZ off (len bytes) = bytes.
Proof.
  apply list_eq. intros i. rewrite list_lookup_fmap. unfold len.
  destruct (decide (i < length bytes)%nat) as [Hi|Hi].
  - rewrite lookup_seqZ_lt by lia. destruct (lookup_lt_is_Some_2 bytes i Hi) as [b Hb]. rewrite Hb. cbn.
    unfold store, len. rewrite (proj2 (Z.leb_le _ _)), (proj2 (Z.ltb_lt _ _)) by lia. cbn.
    replace (Z.to_nat (off + Z.of_nat i - off)) with i by lia. by rewrite (nth_lookup_Some _ _ _ _ Hb).
  - rewrite lookup_seqZ_ge by lia. symmetry. apply lookup_ge_None_2. lia.
Qed.

Lemma fmap_store_other off bytes mem a n :
  a + n ≤ off ∨ off + len bytes ≤ a → store off bytes mem <$> seqZ a n = mem <$> seqZ a n.
Proof.
  intros Hd. apply list_fmap_ext. intros i x [-> Hx]%lookup_seqZ. unfold store.
  destruct (Z.leb_spec off (a + Z.of_nat i)), (Z.ltb_spec (a + Z.of_nat i) (off + len bytes)); try done. lia.
Qed.

(** A structure without bit-fields: members are made of bytes. *)
Definition byte_struct (s : Struct) : bool :=
  struct_ok s && forallb (λ f, (f.2.1 mod 8 =? 0) && (f.2.2 mod 8 =? 0)) (layout s).

Lemma byte_struct_field s name o w :
  byte_struct s = true → find_field name (layout s) = Some (o, w) → (8 | o) ∧ (8 | w).
Proof.
  intros [_ Hb]%andb_true_iff. induction (layout s) as [|[n [o' w']] l IH]; [done|].
  cbn in Hb |- *. apply andb_true_iff in Hb as [[Ho%Z.eqb_eq Hw%Z.eqb_eq]%andb_true_iff Hb].
  destruct (String.eqb n name); [|by apply IH].
  intros [= <- <-]. split; by apply Z.mod_divide.
Qed.

Section fields.
Context (s : Struct) (Hbs : byte_struct s = true).
Let Hs : struct_ok s = true := proj1 (proj1 (andb_true_iff _ _) Hbs).
Let Hbytes name o w := byte_struct_field s name o w Hbs.

Lemma store_field_load name v mem o w :
  find_field name (layout s) = Some (o, w) →
  store_field s name v mem <$> seqZ (o / 8) (w / 8) = le_encode (Z.to_nat (w / 8)) v.
Proof.
  intros Hf. unfold store_field. rewrite Hf. pose proof (layout_from_after _ _ _ _ _ Hs Hf) as [_ Hw].
  rewrite <- (fmap_store_same (o / 8) (le_encode (Z.to_nat (w / 8)) v) mem) at 2.
  rewrite le_encode_len, Z2Nat.id by (apply Z.div_pos; lia). done.
Qed.

Lemma store_field_other name v mem a n :
  (∀ o w, find_field name (layout s) = Some (o, w) → a + n ≤ o / 8 ∨ o / 8 + w / 8 ≤ a) →
  store_field s name v mem <$> seqZ a n = mem <$> seqZ a n.
Proof.
  intros Hd. unfold store_field. destruct (find_field name (layout s)) as [[o w]|] eqn:Hf; [|done].
  pose proof (layout_from_after _ _ _ _ _ Hs Hf) as [_ Hw].
  apply fmap_store_other. rewrite le_encode_len, Z2Nat.id by (apply Z.div_pos; lia). by apply Hd.
Qed.

(** A member keeps the value stored last, and padding what was there before. *)
Lemma store_fields_load fields mem name v o w :
  NoDup fields.*1 → (name, v) ∈ fields → find_field name (layout s) = Some (o, w) →
  store_fields s fields mem <$> seqZ (o / 8) (w / 8) = le_encode (Z.to_nat (w / 8)) v.
Proof.
  intros Hn Hin Hf. unfold store_fields. induction fields as [|[n u] fields IH] using rev_ind;
    [by apply elem_of_nil in Hin|].
  rewrite foldl_snoc. rewrite fmap_app in Hn. apply NoDup_app in Hn as (Hn & Hd & _). cbn [fst snd].
  apply elem_of_app in Hin as [Hin|[= <- <-]%list_elem_of_singleton]; [|by apply store_field_load].
  assert (n ≠ name) as Hne.
  { intros ->. apply (Hd name); [|by left]. by apply (list_elem_of_fmap_2 fst _ (name, v)). }
  rewrite (store_field_other n); [by apply IH|]. intros o' w' Hf'.
  destruct (Hbytes _ _ _ Hf) as [[k ->] [l ->]], (Hbytes _ _ _ Hf') as [[k' ->] [l' ->]].
  rewrite !Z.div_mul by done. pose proof (layout_from_disjoint _ _ _ _ _ _ _ _ Hs Hne Hf' Hf). lia.
Qed.

Lemma store_fields_padding fields mem a n :
  (∀ name o w, name ∈ fields.*1 → find_field name (layout s) = Some (o, w) →
     a + n ≤ o / 8 ∨ o / 8 + w / 8 ≤ a) →
  store_fields s fields mem <$> seqZ a n = mem <$> seqZ a n.
Proof.
  intros Hd. unfold store_fields. induction fields as [|[m u] fields IH] using rev_ind; [done|].
  rewrite foldl_snoc. cbn [fst snd]. rewrite (store_field_other m).
  - apply IH. intros name o w Hin. apply Hd. rewrite fmap_app, elem_of_app. by left.
  - intros o w. apply Hd. rewrite fmap_app, elem_of_app. right. by left.
Qed.
End fields.

(** A member both declarations place alike is read as it was written. *)
Lemma read_stored s s' fields before name v o w :
  byte_struct s = true → NoDup fields.*1 →
  find_field name (layout s) = Some (o, w) → find_field name (layout s') = Some (o, w) →
  (name, v) ∈ fields → load_field s' name (store_fields s fields before) = Some (wrap w v).
Proof.
  intros Hs Hn Hf Hf' Hin. unfold load_field. rewrite Hf'. cbn [mbind option_bind].
  destruct (byte_struct_field _ _ _ _ Hs Hf) as [[k ->] [l ->]].
  rewrite Z.mod_mul by done. replace ((0 + l * 8 + 7) / 8) with l.
  2: { rewrite Z.add_0_l, Z.div_add_l by done. rewrite Z.add_0_r. done. }
  pose proof (store_fields_load s Hs fields before name v _ _ Hn Hin Hf) as Hl.
  rewrite !Z.div_mul in Hl by done. rewrite Z.div_mul, Hl by done.
  rewrite le_decode_encode, Z.div_1_r. f_equal.
  pose proof (layout_from_after _ _ _ _ _ (proj1 (proj1 (andb_true_iff _ _) Hs)) Hf) as [_ Hl0].
  rewrite Z2Nat.id by lia. replace (8 * l) with (l * 8) by lia. by rewrite Zmod_mod.
Qed.

(** A bit of the padding is read as it was before. *)
Lemma read_padding_bit s s' fields before name o :
  byte_struct s = true → find_field name (layout s') = Some (o, 1) →
  forallb (λ n, match find_field n (layout s) with
                | Some (o', w') => (o / 8 <? o' / 8) || (o' / 8 + w' / 8 <=? o / 8)
                | None => true
                end) fields.*1 = true →
  load_field s' name (store_fields s fields before) = Some (Z.b2z (Z.testbit (before (o / 8)) (o mod 8))).
Proof.
  intros Hs Hf Hd. unfold load_field. rewrite Hf. cbn [mbind option_bind].
  pose proof (Z.mod_pos_bound o 8).
  replace ((o mod 8 + 1 + 7) / 8) with 1.
  2: { replace (o mod 8 + 1 + 7) with (1 * 8 + o mod 8) by lia.
       rewrite Z.div_add_l, Z.div_small by lia. done. }
  rewrite (store_fields_padding s Hs).
  - change (seqZ (o / 8) 1) with [0 + o / 8]. rewrite Z.add_0_l. cbn [fmap list_fmap le_decode].
    rewrite Z.testbit_spec' by lia. by rewrite Z.mul_0_r, Z.add_0_r.
  - intros n o' w' Hin Hf'. rewrite forallb_forall in Hd. apply list_elem_of_In in Hin.
    specialize (Hd n Hin). cbv beta in Hd. rewrite Hf' in Hd.
    apply orb_true_iff in Hd as [?%Z.ltb_lt|?%Z.leb_le]; lia.
Qed.

(** A member that is an [int]. *)
Definition load_int (s : Struct) (name : string) (mem : Mem) : option Z :=
  as_signed 32 <$> load_field s name mem.

Lemma read_stored_int s s' fields before name v o :
  byte_struct s = true → NoDup fields.*1 →
  find_field name (layout s) = Some (o, 32) → find_field name (layout s') = Some (o, 32) →
  (name, v) ∈ fields → load_int s' name (store_fields s fields before) = Some (as_signed 32 (wrap 32 v)).
Proof. intros. unfold load_int. by erewrite read_stored. Qed.

(** Reads each member of a list; what is left is that its value fits. *)
Ltac read_members Hs Hn :=
  repeat (apply Forall_cons; split); [..|by apply Forall_nil];
  (eapply eq_trans;
    [first [eapply read_stored | eapply read_stored_int];
      [exact Hs|exact Hn|vm_compute; reflexivity|vm_compute; reflexivity
      |apply list_elem_of_In; cbn; auto 15]|]).

(** ** Properties *)

(** C12: libunwind finds all but the flags of a [DwarfCieInfo]: the structure
    [dwarf_cie_info] of its header has the first twelve members where the Rust
    declaration has them, so each is read as it was written. But a C compiler puts
    the three bit-fields that follow into byte 70, right after [lsda_encoding], and
    the Rust [flags] are at byte 72: what libunwind reads as [sized_augmentation],
    [have_abi_marker] and [signal_frame] are three bits of the padding of the Rust
    structure, whatever its flags are. *)
Theorem libunwind_reads_cie_info (c : DwarfCieInfo) (before : Mem) :
  cie_info_typed c →
  let mem := cie_info_memory c before in
  Forall (λ f, load_field dwarf_cie_info f.1 mem = Some f.2) (cie_info_fields c) ∧
  load_field dwarf_cie_info "sized_augmentation" mem = Some (Z.b2z (Z.testbit (before 70) 0)) ∧
  load_field dwarf_cie_info "have_abi_marker" mem = Some (Z.b2z (Z.testbit (before 70) 1)) ∧
  load_field dwarf_cie_info "signal_frame" mem = Some (Z.b2z (Z.testbit (before 70) 2)).
Proof.
  intros Ht mem. subst mem. unfold cie_info_memory.
  assert (byte_struct DwarfCieInfo_repr = true) as Hs by (by vm_compute).
  assert (NoDup (cie_info_fields c ++ [("flags", dci_flags c)])%list.*1) as Hn.
  { change (NoDup (DwarfCieInfo_repr.*1)). by_compute. }
  split.
  - destruct Ht as (? & ? & ? & ? & ? & ? & ? & ? & ? & ? & ? & ? & _).
    read_members Hs Hn; f_equal; by apply wrap_small.
  - split_and!;
      [refine (read_padding_bit _ dwarf_cie_info _ before _ 560 Hs _ _)
      |refine (read_padding_bit _ dwarf_cie_info _ before _ 561 Hs _ _)
      |refine (read_padding_bit _ dwarf_cie_info _ before _ 562 Hs _ _)]; by vm_compute.
Qed.

(** C21: what [find_proc_info] fills in lies where libunwind's [unw_proc_info]
    has it and is read as it was written, words and [int]s; and although the Rust
    structure is larger than libunwind's (80 bytes against 72, because of [extra]),
    nothing is written outside the 64 bytes of these members. *)
Theorem libunwind_reads_proc_info (pi : UnwProcInfo) (ptr : Z) (before : Mem) :
  proc_info_typed pi → is_u64 ptr →
  let mem := proc_info_memory pi ptr before in
  Forall (λ f, load_field unw_proc_info f.1 mem = Some f.2)
    [("start_ip", pi_start_ip pi); ("end_ip", pi_end_ip pi); ("lsda", pi_lsda pi);
     ("handler", pi_handler pi); ("gp", pi_gp pi); ("flags", pi_flags pi); ("unwind_info", ptr)] ∧
  Forall (λ f, load_int unw_proc_info f.1 mem = Some f.2)
    [("format", pi_format pi); ("unwind_info_size", pi_unwind_info_size pi)] ∧
  (∀ a, a < 0 ∨ 64 ≤ a → mem a = before a) ∧
  struct_size unw_proc_info = 72 ∧ struct_size UnwProcInfo_repr = 80.
Proof.
  intros (H1 & H2 & H3 & H4 & H5 & H6 & H7 & H8 & _) Hptr mem. subst mem. unfold proc_info_memory.
  assert (byte_struct UnwProcInfo_repr = true) as Hs by (by vm_compute).
  assert (NoDup (proc_info_fields pi ptr).*1) as Hn.
  { change (NoDup (take 9 UnwProcInfo_repr).*1). by_compute. }
  split_and!.
  - read_members Hs Hn; f_equal; by apply wrap_small.
  - read_members Hs Hn; f_equal; by apply signed_wrap.
  - intros a Ha. pose proof (store_fields_padding _ Hs (proc_info_fields pi ptr) before a 1) as Hp.
    change (seqZ a 1) with [0 + a] in Hp. rewrite Z.add_0_l in Hp. cbn [fmap list_fmap] in Hp.
    apply (f_equal head) in Hp; [by injection Hp|].
    intros n o w Hin Hf.
    assert (forallb (λ n, if find_field n (layout UnwProcInfo_repr) is Some (o, w)
      then (0 <=? o / 8) && (o / 8 + w / 8 <=? 64) else true) (take 9 UnwProcInfo_repr).*1 = true) as Hall
      by (by vm_compute).
    rewrite forallb_forall in Hall. specialize (Hall n (proj1 (list_elem_of_In _ _) Hin)). rewrite Hf in Hall. lia.
  - by vm_compute.
  - by vm_compute.
Qed.

(** The rest of the bindings agree with the headers: the callback table has
    libunwind's layout, the cursor storage is large enough and aligned for the
    cursors of both architectures, and every error code, format and register number
    has the value of its enumerator. *)
Theorem bindings_match_headers :
  layout UnwAccessors_repr = layout unw_accessors ∧ struct_size UnwAccessors_repr = struct_size unw_accessors ∧
  Forall (λ len, struct_size (unw_cursor len) ≤ struct_size UnwCursor_repr ∧
                 struct_align (unw_cursor len) = struct_align UnwCursor_repr) [127; 250] ∧
  consts_agree error_consts unw_error_t = true ∧ consts_agree format_consts unw_dyn_info_format_t = true ∧
  consts_agree x86_64_consts x86_64_regnum_t = true ∧ consts_agree aarch64_consts aarch64_regnum_t = true ∧
  struct_size DwarfCieInfo_repr = size_of_DwarfCieInfo.
Proof. split_and!; try by vm_compute. repeat constructor; by vm_compute. Qed.

(** *** Witnesses: the details of a signal frame, over zeroed memory *)
Definition signal_cie_info : DwarfCieInfo :=
  mkDwarfCieInfo 0x1000 0x1010 0x1020 0x1030 1 (2 ^ 64 - 8) 16 0 0 0 0x1b 0
    (Z.lor FLAG_SIZED_AUGMENTATION FLAG_SIGNAL_FRAME).

(** A signal frame is not seen as one. *)
Lemma libunwind_reads_cie_info_witness :
  cie_info_typed signal_cie_info ∧ Z.testbit (dci_flags signal_cie_info) 2 = true ∧
  load_field dwarf_cie_info "signal_frame" (cie_info_memory signal_cie_info (λ _, 0)) = Some 0.
Proof.
  split; [by_compute|]. split; [by vm_compute|].
  destruct (libunwind_reads_cie_info signal_cie_info (λ _, 0) ltac:(by_compute)) as (_ & _ & _ & ->).
  reflexivity.
Defined.

Lemma libunwind_reads_proc_info_witness :
  load_field unw_proc_info "unwind_info"
    (proc_info_memory (mkUnwProcInfo 0x1000 0x1100 0 0 0 0 UNW_INFO_FORMAT_REMOTE_TABLE 80
       (Some signal_cie_info)) 0x7f0000001000 (λ _, 0)) = Some 0x7f0000001000.
Proof.
  destruct (libunwind_reads_proc_info (mkUnwProcInfo 0x1000 0x1100 0 0 0 0 UNW_INFO_FORMAT_REMOTE_TABLE 80
    (Some signal_cie_info)) 0x7f0000001000 (λ _, 0)) as (Hw & _).
  - split_and!; by_compute.
  - by_compute.
  - exact (proj1 (Forall_forall _ _) Hw ("unwind_info", 0x7f0000001000)
             ltac:(apply list_elem_of_In; cbn; auto 15)).
Defined.
