(* ===== verification/Aarch64.v ===== *)
(** * [src/src/aarch64.rs]: the aarch64 backend

    Pointer-authentication masks, the four registers, the libunwind step and the
    frame-pointer fallback. *)

From stdpp Require Import gmap.
From S2P Require Import Prelude.
From S2P Require Import BTree.
From S2P Require Import EhFrameTable.
From S2P Require Import Ffi.
From S2P Require Import Errors.
From S2P Require Import FrameAddress.
From S2P Require Import Modules.
From S2P Require Import ModuleSet.
From S2P Require Import Callbacks.
From S2P Require Import AddressSpace.
From S2P Require Import Frames.
From S2P Require X86_64.
Import aarch64_regs.

(** ** Registers *)
Record RawRegsAarch64 : Type := mkRawRegs { raw_pc : Z; raw_sp : Z; raw_fp : Z; raw_lr : Z }.

(** [PtrAuthMask(pub u64)]. *)
Record PtrAuthMask : Type := mkPtrAuthMask { mask : Z }.

(** [u64::leading_zeros]. *)
Definition leading_zeros (z : Z) : Z := if z =? 0 then 64 else 63 - Z.log2 z.

Definition new_no_strip : PtrAuthMask := mkPtrAuthMask u64_max.
Definition new_24_40 : PtrAuthMask := mkPtrAuthMask (Z.shiftr u64_max 24).
Definition from_max_known_address (address : Z) : PtrAuthMask :=
  if address =? 0 then new_no_strip
  else mkPtrAuthMask (Z.shiftr u64_max (leading_zeros address)).
Definition strip_ptr_auth (self : PtrAuthMask) (addr : Z) : Z := Z.land addr (mask self).

Record UnwindRegsAarch64 : Type := mkUnwindRegs {
  lr_mask : PtrAuthMask;
  lr : Z;
  sp : Z;
  fp : Z;
}.

#[export] Instance PtrAuthMask_eq_dec : EqDecision PtrAuthMask.
Proof. solve_decision. Defined.
#[export] Instance UnwindRegsAarch64_eq_dec : EqDecision UnwindRegsAarch64.
Proof. solve_decision. Defined.

Definition new_with_ptr_auth_mask (m : PtrAuthMask) (lr sp fp : Z) : UnwindRegsAarch64 :=
  mkUnwindRegs m (strip_ptr_auth m lr) sp fp.
Definition new (lr sp fp : Z) : UnwindRegsAarch64 := new_with_ptr_auth_mask new_no_strip lr sp fp.

Definition set_lr (self : UnwindRegsAarch64) (v : Z) : UnwindRegsAarch64 :=
  mkUnwindRegs (lr_mask self) (strip_ptr_auth (lr_mask self) v) (sp self) (fp self).
Definition set_sp (self : UnwindRegsAarch64) (v : Z) : UnwindRegsAarch64 :=
  mkUnwindRegs (lr_mask self) (lr self) v (fp self).
Definition set_fp (self : UnwindRegsAarch64) (v : Z) : UnwindRegsAarch64 :=
  mkUnwindRegs (lr_mask self) (lr self) (sp self) v.

(** [callbacks::arch::access_reg] for aarch64. *)
Definition access_reg (self : RawRegsAarch64) (reg val write : Z) : Z * Z * RawRegsAarch64 :=
  let 'mkRawRegs pc sp fp lr := self in
  let slot :=
    if reg =? UNW_AARCH64_PC then Some (pc, λ v, mkRawRegs v sp fp lr)
    else if reg =? UNW_AARCH64_SP then Some (sp, λ v, mkRawRegs pc v fp lr)
    else if reg =? UNW_AARCH64_X29 then Some (fp, λ v, mkRawRegs pc sp v lr)
    else if reg =? UNW_AARCH64_X30 then Some (lr, λ v, mkRawRegs pc sp fp v)
    else None in
  match slot with
  | None => (- UNW_EBADREG, val, self)
  | Some (current, put) =>
      if negb (write =? 0) then (UNW_ESUCCESS, val, put val) else (UNW_ESUCCESS, current, self)
  end.

#[export] Instance aarch64_arch : Arch := {
  RawRegs := RawRegsAarch64;
  arch_access_reg := access_reg;
  reg_ip := UNW_REG_IP;
}.

(** ** Unwinding a frame *)
Section unwind.
Context `{Profile} `{LibunwindApi} {ReadT : Type}.
Context (read_fn : ReadT → Z → option Z * ReadT).
Local Abbreviation UM := (SM (UnwindRegsAarch64 * Env ReadT) Error).

Definition fallback_unwind_frame (current_ip : Z) : UM (option Z) :=
  '(regs, _) ← sm_get;
  let sp := sp regs in
  let fp := fp regs in
  if fp =? 0 then mret None
  else
    return_address_location ← sm_lift (ok_or (checked_add fp 8) IntegerOverflow);
    new_sp ← sm_lift (ok_or (checked_add fp 16) IntegerOverflow);
    if new_sp <=? sp then sm_err FramepointerUnwindingMovedBackwards
    else
      new_fp ← read_stack read_fn fp;
      if negb (new_fp =? 0) && (new_fp <=? fp) then sm_err FramepointerUnwindingMovedBackwards
      else
        new_lr ← read_stack read_fn return_address_location;
        let return_address := strip_ptr_auth (lr_mask regs) new_lr in
        if return_address =? 0 then mret None
        else if (return_address =? current_ip) && (new_sp =? sp) then sm_err DidNotAdvance
        else
          _ ← sm_modify (λ '(regs, env), (set_fp (set_sp (set_lr regs new_lr) new_sp) new_fp, env));
          mret (Some return_address).

(** The [Stepped] arm. *)
Definition finish_step (self : ModuleSet) (frame : FrameAddress) (new_ip : Z) (extras : list Z)
    : UM (option Z) :=
  '(regs, env) ← sm_get;
  let current_ip := strip_ptr_auth (lr_mask regs) (address frame) in
  let lookup_ip := strip_ptr_auth (lr_mask regs) (address_for_lookup frame) in
  let new_sp := extras !!! 0%nat in
  let new_fp := extras !!! 1%nat in
  let new_lr := extras !!! 2%nat in
  let return_address := strip_ptr_auth (lr_mask regs) new_ip in
  if return_address =? 0 then mret None
  else
    let signal_frame := is_signal_frame self (env_heap env) lookup_ip in
    return_address ←
      (if is_return_address frame && negb signal_frame && contains_address self return_address
       then sm_lift (ok_or (checked_add return_address 1) IntegerOverflow)
       else mret return_address);
    if (return_address =? current_ip) && (new_sp =? sp regs) then sm_err DidNotAdvance
    else
      _ ← sm_modify (λ '(regs, env), (set_lr (set_fp (set_sp regs new_sp) new_fp) new_lr, env));
      mret (Some return_address).

(** [<UnwinderAarch64 as Unwinder>::unwind_frame]. *)
Definition unwind_frame (self : ModuleSet) (frame : FrameAddress) : UM (option Z) :=
  λ '(regs, env),
  let current_ip := strip_ptr_auth (lr_mask regs) (address frame) in
  let lookup_ip := strip_ptr_auth (lr_mask regs) (address_for_lookup frame) in
  match unwind_info_error self lookup_ip with
  | Some err => (Err (UnwindInfo err), (regs, env))
  | None =>
      if negb (has_unwind_info self lookup_ip) then fallback_unwind_frame current_ip (regs, env)
      else
        let raw := mkRawRegs lookup_ip (sp regs) (fp regs) (lr regs) in
        let '(step, failed_read, uie, env) :=
          step_with_ctx read_fn self raw lookup_ip
            [UNW_REG_SP; UNW_AARCH64_X29; UNW_AARCH64_X30] env in
        match step with
        | Ok EndOfStack => (Ok None, (regs, env))
        | Ok (Stepped new_ip extras) => finish_step self frame new_ip extras (regs, env)
        | Err err => (Err (step_error failed_read uie err), (regs, env))
        | Panic => (Panic, (regs, env))
        | UB => (UB, (regs, env))
        | NoFuel => (NoFuel, (regs, env))
        end
  end.

(** [Unwinder::is_signal_frame]. *)
Definition unwinder_is_signal_frame (self : ModuleSet) (h : Heap) (frame : FrameAddress)
    (regs : UnwindRegsAarch64) : bool :=
  is_signal_frame self h (strip_ptr_auth (lr_mask regs) (address_for_lookup frame)).
End unwind.

(** ** Lemmas: pointer-authentication masks *)
Lemma low_mask n : 0 ≤ n ≤ 64 → Z.shiftr u64_max n = Z.ones (64 - n).
Proof.
  intros Hn. rewrite Z.shiftr_div_pow2 by lia. change u64_max with (Z.ones 64).
  by rewrite Z.ones_div_pow2 by lia.
Qed.

Lemma strip_low k addr : 0 ≤ k → strip_ptr_auth (mkPtrAuthMask (Z.ones k)) addr = addr mod 2 ^ k.
Proof. intros Hk. unfold strip_ptr_auth. simpl. by apply Z.land_ones. Qed.

(** The address bits of a process whose highest code address is [max]. *)
Definition address_bits (max : Z) : Z := if max =? 0 then 64 else Z.log2 max + 1.

Lemma address_bits_range max : is_u64 max → 0 < address_bits max ≤ 64.
Proof.
  intros [H0 H1]. unfold address_bits. destruct (Z.eqb_spec max 0); [lia|].
  pose proof (Z.log2_nonneg max). assert (Z.log2 max < 64); [|lia].
  apply Z.log2_lt_pow2; lia.
Qed.

Lemma from_max_strip max addr :
  is_u64 max → strip_ptr_auth (from_max_known_address max) addr = addr mod 2 ^ address_bits max.
Proof.
  intros Hm. pose proof (address_bits_range max Hm) as Hb.
  unfold from_max_known_address, address_bits, leading_zeros in *.
  destruct (Z.eqb_spec max 0); [by apply (strip_low 64)|].
  rewrite low_mask by lia. replace (64 - (63 - Z.log2 max)) with (Z.log2 max + 1) by lia.
  apply strip_low. lia.
Qed.

Lemma below_address_bits max a : is_u64 max → 0 ≤ a ≤ max → a < 2 ^ address_bits max.
Proof.
  intros [H0 H1] Ha. unfold address_bits. destruct (Z.eqb_spec max 0); [by assert (a = 0) as -> by lia|].
  destruct (Z.log2_spec max) as [_ Hl]; [lia|]. unfold Z.succ in Hl. lia.
Qed.

Lemma strip_pred_low k a :
  0 < k → 0 ≤ a → a mod 2 ^ k ≠ 0 → (a - 1) mod 2 ^ k = a mod 2 ^ k - 1.
Proof.
  intros Hk Ha Hne. pose proof (Z.mod_pos_bound a (2 ^ k) ltac:(lia)).
  symmetry. apply (Z.mod_unique _ _ (a / 2 ^ k)); [left; lia|].
  pose proof (Z.div_mod a (2 ^ k) ltac:(lia)). lia.
Qed.

(** ** Lemmas: unwinding *)
Section fallback.
Context {ReadT : Type} (read_fn : ReadT → Z → option Z * ReadT).

Lemma a64_fallback_cases cur regs env :
  match fallback_unwind_frame read_fn cur (regs, env) with
  | (Ok None, (regs', env')) => regs' = regs ∧ env_heap env' = env_heap env
  | (Ok (Some ra), (regs', env')) =>
      env_heap env' = env_heap env ∧
      ∃ new_fp new_lr, fp regs ≠ 0 ∧ sp regs < fp regs + 16 ≤ u64_max ∧
        (new_fp = 0 ∨ fp regs < new_fp) ∧ ra ≠ 0 ∧ ra = strip_ptr_auth (lr_mask regs) new_lr ∧
        regs' = mkUnwindRegs (lr_mask regs) ra (fp regs + 16) new_fp ∧
        fallback_reads read_fn (fp regs) env new_fp new_lr env'
  | (Err e, (regs', env')) =>
      regs' = regs ∧ env_heap env' = env_heap env ∧
      fallback_failed read_fn (sp regs) (fp regs) env e env'
  | _ => False
  end.
Proof.
  unfold fallback_unwind_frame, mbind, sm_bind, sm_get, sm_lift, sm_err, sm_modify, mret, sm_ret.
  cbv zeta. destruct (Z.eqb_spec (fp regs) 0); [done|].
  destruct (checked_add (fp regs) 8) as [loc|] eqn:H8; cbn [ok_or].
  2: { unfold checked_add in H8. destruct (Z.leb_spec (fp regs + 8) u64_max); [done|].
       split_and!; [done|done|]. simpl. lia. }
  apply checked_add_some in H8 as [-> _].
  destruct (checked_add (fp regs) 16) as [nsp|] eqn:H16; cbn [ok_or].
  2: { unfold checked_add in H16. destruct (Z.leb_spec (fp regs + 16) u64_max); [done|].
       split_and!; [done|done|]. simpl. lia. }
  apply checked_add_some in H16 as [-> H16].
  destruct (Z.leb_spec (fp regs + 16) (sp regs)); [by split_and!; [..|left]|].
  unfold read_stack. destruct (read_fn (env_read env) (fp regs)) as [[nfp|] rs1] eqn:Hr1.
  2: { split_and!; [done|done|]. by left. }
  destruct (negb (nfp =? 0) && (nfp <=? fp regs)) eqn:Hb.
  { zify_bools. split_and!; [done|done|]. right. by exists nfp. }
  assert (nfp = 0 ∨ fp regs < nfp).
  { apply andb_false_iff in Hb as [Hb|Hb]; zify_bools; lia. }
  cbn [env_read]. destruct (read_fn rs1 (fp regs + 8)) as [[nlr|] rs2] eqn:Hr2.
  2: { split_and!; [done|done|]. right. split; [done|]. by exists nfp, rs1. }
  destruct (Z.eqb_spec (strip_ptr_auth (lr_mask regs) nlr) 0); [done|].
  destruct (Z.eqb_spec (fp regs + 16) (sp regs)); [lia|]. rewrite andb_false_r. simpl.
  split; [done|]. exists nfp, nlr. split_and!; try done. by exists rs1.
Qed.
End fallback.

Section unwind_lemmas.
Context `{Profile} {L : LibunwindApi} `{!LibunwindLaws L} {ReadT : Type}.
Context (read_fn : ReadT → Z → option Z * ReadT).
Context (s : ModuleSet) (frame : FrameAddress).

(** What [unwind_frame] computes from [frame] and [regs]. *)
Definition frame_input (regs : UnwindRegsAarch64) : FrameInput :=
  let strip := strip_ptr_auth (lr_mask regs) in
  mkFrameInput (strip (address frame)) (strip (address_for_lookup frame)) (sp regs) (fp regs) strip
    (is_return_address frame)
    (mkRawRegs (strip (address_for_lookup frame)) (sp regs) (fp regs) (lr regs))
    [UNW_REG_SP; UNW_AARCH64_X29; UNW_AARCH64_X30].

Definition frame_post (regs : UnwindRegsAarch64) (env : Env ReadT)
    (r : outcome Error (option Z) * (UnwindRegsAarch64 * Env ReadT)) : Prop :=
  match r with
  | (Ok None, (regs', env')) => regs' = regs ∧ caches_ok s (env_heap env')
  | (Ok (Some a), (regs', env')) =>
      caches_ok s (env_heap env') ∧ a ≠ 0 ∧ lr_mask regs' = lr_mask regs ∧
      (∃ v, lr regs' = strip_ptr_auth (lr_mask regs) v) ∧
      (a ≠ strip_ptr_auth (lr_mask regs) (address frame) ∨ sp regs' ≠ sp regs) ∧
      recovered read_fn s (frame_input regs) env a (sp regs') env'
  | (Err e, (regs', env')) =>
      regs' = regs ∧ caches_ok s (env_heap env') ∧ genuine read_fn s (frame_input regs) env e env'
  | (Panic, _) => step_panics s (fi_lookup (frame_input regs)) (env_static env)
  | (UB, _) | (NoFuel, _) => False
  end.

Lemma a64_finish_step_post regs env env' new_ip extras :
  let fi := frame_input regs in
  is_u64 new_ip → caches_ok s (env_heap env') →
  unwind_info_error s (fi_lookup fi) = None → has_unwind_info s (fi_lookup fi) = true →
  stepped read_fn (handle_of (env_static env)) (fi_extra fi)
    (first_world s (fi_raw fi) (fi_lookup fi) env) new_ip (extras !!! 0%nat) →
  frame_post regs env (finish_step s frame new_ip extras (regs, env')).
Proof.
  intros fi Hu Hc He Hi Hstep.
  unfold finish_step, mbind, sm_bind, sm_get, sm_lift, sm_err, sm_modify, mret, sm_ret.
  cbv zeta. unfold frame_post, genuine, recovered. subst fi. simpl in *. rewrite He, Hi.
  assert (0 ≤ strip_ptr_auth (lr_mask regs) new_ip).
  { unfold strip_ptr_auth. apply Z.land_nonneg. left. apply Hu. }
  destruct (Z.eqb_spec (strip_ptr_auth (lr_mask regs) new_ip) 0); [done|].
  destruct (is_return_address frame && negb _ && contains_address s _) eqn:Hadj.
  - zify_bools. destruct (checked_add _ 1) as [a|] eqn:Ha; cbn [ok_or].
    2: { split_and!; [done..|]. exists new_ip, (extras !!! 0%nat). split_and!; [done..|].
         unfold checked_add in Ha. destruct (Z.leb_spec (strip_ptr_auth (lr_mask regs) new_ip + 1) u64_max); [done|lia]. }
    apply checked_add_some in Ha as [-> _]. destruct (_ && _) eqn:Hs.
    + zify_bools. split_and!; [done..|]. exists new_ip. split; [congruence|by right].
    + simpl. split_and!; [done|lia|done|eauto| |by exists new_ip; auto 10].
      apply andb_false_iff in Hs as [?|?]; zify_bools; auto.
  - destruct ((strip_ptr_auth _ new_ip =? _) && _) eqn:Hs.
    + apply andb_true_iff in Hs as [?%Z.eqb_eq ?%Z.eqb_eq].
      split_and!; [done..|]. exists new_ip. split; [congruence|by left].
    + simpl. split_and!; [done|done|done|eauto| |by exists new_ip; auto].
      apply andb_false_iff in Hs as [?|?]; zify_bools; auto.
Qed.

Lemma a64_unwind_frame_post regs env :
  set_wf s → below_top s → caches_ok s (env_heap env) →
  frame_post regs env (unwind_frame read_fn s frame (regs, env)).
Proof.
  intros Hwf Ht Hc. unfold unwind_frame. cbv zeta.
  set (lip := strip_ptr_auth (lr_mask regs) (address_for_lookup frame)).
  destruct (unwind_info_error s lip) as [err|] eqn:Hu.
  { split_and!; [done..|]. unfold genuine. cbn. fold lip. by rewrite Hu. }
  destruct (has_unwind_info s lip) eqn:Hi; cbn [negb].
  - pose proof (step_with_ctx_cases read_fn s lip Hwf Ht
      (mkRawRegs lip (sp regs) (fp regs) (lr regs))
      [UNW_REG_SP; UNW_AARCH64_X29; UNW_AARCH64_X30] env Hc) as Hs.
    destruct (step_with_ctx _ _ _ _ _ _) as [[[step failed] uie] env'].
    destruct step as [[new_ip extras|]|err| | |]; simpl in *; try done.
    + destruct Hs as (? & [? _] & Hx). apply a64_finish_step_post; try done. by eapply Hx.
    + by destruct Hs.
    + destruct Hs as [? Hf]. split_and!; [done..|]. unfold genuine. simpl. fold lip.
      rewrite Hu, Hi. by destruct failed, uie.
  - set (cur := strip_ptr_auth (lr_mask regs) (address frame)).
    pose proof (a64_fallback_cases read_fn cur regs env) as Hf.
    destruct (fallback_unwind_frame read_fn cur (regs, env))
      as [[[a|]|e| | |] [regs' env']]; simpl; try done.
    + destruct Hf as (Hh & nfp & nlr & ? & [Hsp _] & ? & ? & -> & -> & Hrd). rewrite Hh. simpl.
      split_and!; [done|done|done|eauto|right; lia|]. unfold recovered. simpl. fold lip.
      rewrite Hi. split; [done|]. by exists nfp, nlr.
    + destruct Hf as [-> ->]. done.
    + destruct Hf as (-> & -> & He). split_and!; [done|done|]. unfold genuine. simpl.
      fold lip. by rewrite Hu, Hi.
Qed.
End unwind_lemmas.

(** ** Properties *)

(** A mask derived from the highest known code address keeps every address
    up to it and removes any authentication code a pointer carries above the
    address bits, so a signed return address is recovered exactly; stripping is
    idempotent, and without known modules nothing is stripped. *)
Theorem ptr_auth_mask_correct (max a pac : Z) :
  is_u64 max → 0 ≤ a ≤ max → 0 ≤ pac →
  let m := from_max_known_address max in
  strip_ptr_auth m a = a ∧
  strip_ptr_auth m (a + pac * 2 ^ address_bits max) = a ∧
  (∀ x, strip_ptr_auth m (strip_ptr_auth m x) = strip_ptr_auth m x) ∧
  (max = 0 → ∀ x, is_u64 x → strip_ptr_auth m x = x).
Proof.
  intros Hm Ha Hp m. pose proof (below_address_bits max a Hm Ha).
  pose proof (address_bits_range max Hm). unfold m.
  rewrite !from_max_strip by done. split_and!.
  - apply Z.mod_small. lia.
  - rewrite Z.mod_add by lia. apply Z.mod_small. lia.
  - intros x. rewrite !from_max_strip by done. by rewrite Z.mod_mod by lia.
  - intros -> x Hx. rewrite from_max_strip by done. by apply Z.mod_small.
Qed.

(** The lookup adjustment commutes with stripping: for a signed return
    address of a process whose code lies below [max], the stripped lookup address
    is the byte before the stripped return address. *)
Theorem strip_lookup_address (max ra : Z) :
  is_u64 max → is_u64 ra →
  let m := from_max_known_address max in
  strip_ptr_auth m ra ≠ 0 →
  strip_ptr_auth m (address_for_lookup (ReturnAddress ra)) = strip_ptr_auth m ra - 1.
Proof.
  intros Hm Hra m. unfold m. rewrite !from_max_strip by done. simpl. intros Hne.
  apply strip_pred_low; [by apply address_bits_range|apply Hra|done].
Qed.


(** *** Witnesses *)
Lemma ptr_auth_mask_correct_witness :
  strip_ptr_auth (from_max_known_address 0x7fffffff) 0x1234 = 0x1234 ∧
  strip_ptr_auth (from_max_known_address 0x7fffffff)
    (0x1234 + 0x5a * 2 ^ address_bits 0x7fffffff) = 0x1234.
Proof.
  destruct (ptr_auth_mask_correct 0x7fffffff 0x1234 0x5a) as (H1 & H2 & _); [by_compute|lia|lia|].
  split; [exact H1|exact H2].
Defined.

Lemma strip_lookup_address_witness :
  strip_ptr_auth (from_max_known_address 0xffff)
    (address_for_lookup (ReturnAddress 0xab0000001234)) = 0x1233.
Proof.
  refine (strip_lookup_address 0xffff 0xab0000001234 _ _ _); by_compute.
Defined.

#[local] Instance demo_libunwind : LibunwindApi :=
  toy_libunwind UNW_REG_IP UNW_REG_SP UNW_AARCH64_X29.
#[local] Instance demo_laws : LibunwindLaws demo_libunwind := toy_libunwind_laws _ _ _.
#[local] Instance demo_profile : Profile := true.

Definition demo_read (u : ()) (a : Z) : option Z * () :=
  (if a =? 0x8000 then Some 0x8100 else if a =? 0x8008 then Some 0xab00000000001234 else None, u).
Definition demo_env : Env () := mkEnv () heap_init None.
Definition demo_regs : UnwindRegsAarch64 :=
  new_with_ptr_auth_mask new_24_40 0x1004 0x7ff0 0x8000.

(** A frame of the one-FDE module whose caller's address, on the stack at
    0x8008, carries an authentication code. *)
Definition signed_regs : UnwindRegsAarch64 :=
  new_with_ptr_auth_mask new_24_40 0x1004 0x8008 0x8000.
Definition signed_env : Env () := mkEnv () one_fde_heap None.


Example aarch64_step_strips_signed_return_address :
  (unwind_frame demo_read one_fde_set (ReturnAddress 0x1005) (signed_regs, signed_env)).1 =
  Ok (Some 0x1235).
Proof. vm_compute. reflexivity. Qed.

Example aarch64_fallback_strips_signed_return_address :
  (unwind_frame demo_read ModuleSet.new (InstructionPointer 0x1004) (demo_regs, demo_env)).1 =
  Ok (Some 0x1234).
Proof. vm_compute. reflexivity. Qed.
