(* ===== verification/HeapFrame.v ===== *)
(** * The part of the heap an unwinding step leaves alone

    Modules and their function caches are shared between clones of an unwinder
    and between unwinders that were given the same module.  This file shows that
    a step driven through one registry changes only the caches of the modules of
    that registry and keeps them well-formed, whatever libunwind asks and
    whatever the outcome, panics included, so that the contracts proved for one
    registry compose in [Session]. *)

From stdpp Require Import gmap.
From S2P Require Import Prelude.
From S2P Require Import BTree.
From S2P Require Import Errors.
From S2P Require Import FrameAddress.
From S2P Require Import Modules.
From S2P Require Import ModuleSet.
From S2P Require Import Callbacks.
From S2P Require Import AddressSpace.
From S2P Require Import Frames.
From S2P Require X86_64.
From S2P Require Aarch64.

(** ** Only the caches of a registry change *)
Definition only_caches (s : ModuleSet) (h h' : Heap) : Prop :=
  next_loc h' = next_loc h ∧
  ∀ loc, (∀ m, registered s m → function_cache m ≠ loc) → cells h' !! loc = cells h !! loc.

#[export] Instance only_caches_preorder s : PreOrder (only_caches s).
Proof.
  split; [done|]. intros h1 h2 h3 [H1 H1'] [H2 H2']. split; [congruence|].
  intros loc Hl. by rewrite H2', H1'.
Qed.

Lemma only_caches_lock s h h' m :
  only_caches s h h' → (∀ m', registered s m' → function_cache m' ≠ function_cache m) →
  lock h' m = lock h m.
Proof. intros [_ Hc] Hm. unfold lock. by rewrite (Hc (function_cache m) Hm). Qed.

Section frame.
Context `{Profile}.

Lemma get_or_parse_only s m ip h :
  registered s m → only_caches s h (get_or_parse_function_details m ip h).2.
Proof.
  intros Hm. revert h. change (moves (only_caches s) (get_or_parse_function_details m ip)).
  unfold get_or_parse_function_details. apply (moves_bind _).
  - unfold cache_lookup. apply (moves_bind _); [apply (moves_get _)|]. intros h.
    destruct (lock h m); [apply (moves_ret _)|apply (moves_err _)].
  - intros [d|]; [apply (moves_ret _)|]. apply (moves_bind _); [apply (moves_lift _)|]. intros d.
    apply (moves_bind _); [|intros; apply (moves_ret _)].
    unfold cache_insert. intros h. unfold mbind, sm_bind, sm_get.
    destruct (lock h m) as [cache|]; [|done]. split; [done|]. intros loc Hloc. simpl.
    by rewrite lookup_insert_ne by by apply Hloc.
Qed.

(** Whatever the outcome, the caches of a registry stay well-formed. *)
Lemma get_or_parse_keeps s m ip h :
  set_wf s → registered s m → caches_ok s h →
  caches_ok s (get_or_parse_function_details m ip h).2.
Proof.
  intros Hwf Hm Hc. destruct (proj2 Hc m Hm) as (cache & Hl & Hcm).
  pose proof (get_or_parse_cases m ip h cache (registered_ok _ _ Hwf Hm) Hl Hcm) as Hg.
  destruct (get_or_parse_function_details m ip h) as [[d|e| | |] h'] eqn:Hgp; try done.
  - by destruct (get_or_parse_caches_ok s h m ip d h' Hwf Hc Hm Hgp).
  - by destruct Hg as [-> _].
  - by destruct Hg as [-> _].
Qed.

(** What a step through the registry [s] may do to the heap. *)
Definition heap_moves (s : ModuleSet) (h h' : Heap) : Prop :=
  only_caches s h h' ∧ (caches_ok s h → caches_ok s h').

#[export] Instance heap_moves_preorder s : PreOrder (heap_moves s).
Proof. split; [done|]. intros h1 h2 h3 [H1 H1'] [H2 H2']. split; [by etrans|auto]. Qed.

Context `{Arch} {ReadT : Type} (read_fn : ReadT → Z → option Z * ReadT).

(** A callback keeps the registry and changes only its caches. *)
Definition world_moves (w w' : World RawRegs ReadT) : Prop :=
  ctx_modules (ctx w') = ctx_modules (ctx w) ∧
  (set_wf (ctx_modules (ctx w)) → heap_moves (ctx_modules (ctx w)) (heap w) (heap w')).

#[export] Instance world_moves_preorder : PreOrder world_moves.
Proof.
  split; [done|]. intros w1 w2 w3 [H1 H1'] [H2 H2']. split; [congruence|]. intros Hwf.
  etrans; [by apply H1'|]. rewrite <- H1. apply H2'. by rewrite H1.
Qed.

Lemma callbacks_world : callbacks_move read_fn world_moves.
Proof.
  split.
  - intros ip pi need w. unfold find_proc_info.
    destruct (find_module (ctx_modules (ctx w)) (lookup_ip (ctx w))) as [m|] eqn:Hm; [|done].
    assert (set_wf (ctx_modules (ctx w)) →
            heap_moves (ctx_modules (ctx w)) (heap w)
              (get_or_parse_function_details m (lookup_ip (ctx w)) (heap w)).2) as Ho.
    { intros Hwf. destruct (find_module_some _ _ _ Hwf Hm) as [Hreg _].
      split; [by apply get_or_parse_only|by apply get_or_parse_keeps]. }
    by destruct (get_or_parse_function_details m (lookup_ip (ctx w)) (heap w)) as [[] h].
  - intros addr val write w. unfold access_mem.
    destruct (negb _); [done|]. unfold mbind, sm_bind, sm_get.
    destruct (lookup_local _ _) as [p|].
    + unfold sm_lift. by destruct (from_raw_parts p 8).
    + by destruct (read_fn _ _) as [[v|] rs].
  - intros reg val write w. unfold access_reg, mbind, sm_bind, sm_get.
    by destruct (arch_access_reg _ _ _ _) as [[? ?] ?].
Qed.

Context `{LibunwindApi}.

(** One step of libunwind on a fresh context. *)
Lemma step_with_ctx_moves s raw ip extra env :
  set_wf s →
  heap_moves s (env_heap env) (env_heap (step_with_ctx read_fn s raw ip extra env).2).
Proof.
  intros Hwf. unfold step_with_ctx.
  set (c := mkUnwindCtx _ _ _ _ _ _).
  pose proof (init_and_step_moves read_fn world_moves callbacks_world extra
    (mkWorld c (env_heap env), env_static env)) as [_ Hi].
  destruct (init_and_step read_fn extra _) as [r [w st]]. simpl in *. by apply Hi.
Qed.
End frame.

(** ** The two unwinders *)
Section unwinders.
Context `{Profile} `{LibunwindApi} {ReadT : Type} (read_fn : ReadT → Z → option Z * ReadT).

(** The heap is the same before and after. *)
Definition heap_same {RegsT} (st st' : RegsT * Env ReadT) : Prop :=
  env_heap st'.2 = env_heap st.2.

#[export] Instance heap_same_preorder {RegsT} : PreOrder (heap_same (RegsT:=RegsT)).
Proof. split; [done|]. unfold heap_same. intros x y z Hxy Hyz. congruence. Qed.

Lemma read_stack_same {RegsT} addr : moves (heap_same (RegsT:=RegsT)) (read_stack read_fn addr).
Proof. intros [r env]. unfold read_stack. by destruct (read_fn _ _) as [[v|] rs]. Qed.

(** A step never changes the pointer-authentication mask. *)
Definition mask_same (st st' : Aarch64.UnwindRegsAarch64 * Env ReadT) : Prop :=
  Aarch64.lr_mask st'.1 = Aarch64.lr_mask st.1.

#[export] Instance mask_same_preorder : PreOrder mask_same.
Proof. split; [done|]. unfold mask_same. intros x y z Hxy Hyz. congruence. Qed.

Lemma read_stack_mask addr : moves mask_same (read_stack read_fn addr).
Proof. intros [r env]. unfold read_stack. by destruct (read_fn _ _) as [[v|] rs]. Qed.

(** The steps of straight-line code over registers and environment. *)
Local Ltac same :=
  repeat first
    [ apply (moves_ret _) | apply (moves_err _) | apply (moves_lift _)
    | apply read_stack_same | apply read_stack_mask
    | apply (moves_get _) | (apply (moves_modify _); by intros [? ?])
    | (apply (moves_bind _); [|intros]) | progress case_match ].

Lemma x86_64_fallback_same cur : moves heap_same (X86_64.fallback_unwind_frame read_fn cur).
Proof. unfold X86_64.fallback_unwind_frame. cbv zeta. same. Qed.

Lemma x86_64_finish_same s frame ip extras :
  moves heap_same (X86_64.finish_step s frame ip extras).
Proof. unfold X86_64.finish_step. cbv zeta. same. Qed.

Lemma aarch64_fallback_same cur : moves heap_same (Aarch64.fallback_unwind_frame read_fn cur).
Proof. unfold Aarch64.fallback_unwind_frame. cbv zeta. same. Qed.

Lemma aarch64_finish_same s frame ip extras :
  moves heap_same (Aarch64.finish_step s frame ip extras).
Proof. unfold Aarch64.finish_step. cbv zeta. same. Qed.

Lemma aarch64_unwind_mask s frame regs env :
  Aarch64.lr_mask (Aarch64.unwind_frame read_fn s frame (regs, env)).2.1 = Aarch64.lr_mask regs.
Proof.
  unfold Aarch64.unwind_frame. cbv zeta.
  destruct (unwind_info_error _ _); [done|]. destruct (negb _).
  { assert (∀ cur, moves mask_same (Aarch64.fallback_unwind_frame read_fn cur)) as Hf
      by (intros cur; unfold Aarch64.fallback_unwind_frame; cbv zeta; same).
    apply (Hf _ (regs, env)). }
  destruct (step_with_ctx _ _ _ _ _ _) as [[[step failed] uie] env'].
  destruct step as [[ip extras|]| | | |]; try done.
  assert (moves mask_same (Aarch64.finish_step s frame ip extras)) as Hf
    by (unfold Aarch64.finish_step; cbv zeta; same).
  apply (Hf (regs, env')).
Qed.

Lemma x86_64_unwind_moves s frame regs env :
  set_wf s →
  heap_moves s (env_heap env)
    (env_heap (X86_64.unwind_frame read_fn s frame (regs, env)).2.2).
Proof.
  intros Hwf. unfold X86_64.unwind_frame. cbv zeta.
  destruct (unwind_info_error _ _); [done|]. destruct (negb _).
  { by rewrite (x86_64_fallback_same _ (regs, env)). }
  set (raw := X86_64.from_public _ _).
  pose proof (step_with_ctx_moves (H0:=X86_64.x86_64_arch) read_fn s raw (address_for_lookup frame)
    [Ffi.x86_64_regs.UNW_REG_SP; Ffi.x86_64_regs.UNW_X86_64_RBP] env Hwf) as Hs.
  destruct (step_with_ctx _ _ _ _ _ _) as [[[step failed] uie] env'].
  destruct step as [[ip extras|]| | | |]; try done.
  by rewrite (x86_64_finish_same s frame ip extras (regs, env')).
Qed.

Lemma aarch64_unwind_moves s frame regs env :
  set_wf s →
  heap_moves s (env_heap env)
    (env_heap (Aarch64.unwind_frame read_fn s frame (regs, env)).2.2).
Proof.
  intros Hwf. unfold Aarch64.unwind_frame. cbv zeta.
  destruct (unwind_info_error _ _); [done|]. destruct (negb _).
  { by rewrite (aarch64_fallback_same _ (regs, env)). }
  set (raw := Aarch64.mkRawRegs _ _ _ _). set (lip := Aarch64.strip_ptr_auth _ _).
  pose proof (step_with_ctx_moves (H0:=Aarch64.aarch64_arch) read_fn s raw lip
    [Ffi.aarch64_regs.UNW_REG_SP; Ffi.aarch64_regs.UNW_AARCH64_X29;
     Ffi.aarch64_regs.UNW_AARCH64_X30] env Hwf) as Hs.
  destruct (step_with_ctx _ _ _ _ _ _) as [[[step failed] uie] env'].
  destruct step as [[ip extras|]| | | |]; try done.
  by rewrite (aarch64_finish_same s frame ip extras (regs, env')).
Qed.
End unwinders.
