(* ===== verification/Iterator.v ===== *)
(** * [trait Unwinder] and [UnwindIterator] of [src/src/module.rs]

    The interface each architecture implements, its two instances, and the state
    machine that walks a stack with it. *)

From stdpp Require Import gmap.
From S2P Require Import Prelude.
From S2P Require Import BTree.
From S2P Require Import EhFrameTable.
From S2P Require Import Ffi.
From S2P Require Import Errors.
From S2P Require Import FrameAddress.
From S2P Require Import Modules.
From S2P Require Import ModuleSet.
From S2P Require Import Callbacks.
From S2P Require Import AddressSpace.
From S2P Require Import Frames.
From S2P Require Import X86_64.
From S2P Require Import Aarch64.

(** ** The interface *)

(** [trait Unwinder].  The [Cache] types are empty structures and are left out;
    [EnvT] is what the methods touch besides the registers. *)
Class Unwinder (U : Type) : Type := {
  UnwindRegs : Type;
  EnvT : Type;
  add_module : U → ModuleData → U;
  remove_module : U → Z → U;
  max_known_code_address_of : U → Z;
  is_signal_frame_at : U → FrameAddress → UnwindRegs → EnvT → bool;
  unwind_frame_of : U → FrameAddress → SM (UnwindRegs * EnvT) Error (option Z);
}.

(** What every implementation promises its clients: a returned address is not
    null. *)
Class UnwinderLaws (U : Type) `{Unwinder U} : Prop := {
  unwind_frame_nonzero u frame st a st' :
    unwind_frame_of u frame st = (Ok (Some a), st') → a ≠ 0;
}.

(** [UnwinderX86_64] and [UnwinderAarch64]: a module registry each. *)
Record UnwinderX86_64 : Type := mkUnwinderX86_64 { x86_modules : ModuleSet }.
Record UnwinderAarch64 : Type := mkUnwinderAarch64 { a64_modules : ModuleSet }.

(** [new], [Default] and [Clone] of the two. *)
Definition UnwinderX86_64_new : UnwinderX86_64 := mkUnwinderX86_64 ModuleSet.new.
Definition UnwinderX86_64_default : UnwinderX86_64 := UnwinderX86_64_new.
Definition UnwinderX86_64_clone (self : UnwinderX86_64) : UnwinderX86_64 :=
  mkUnwinderX86_64 (clone (x86_modules self)).
Definition UnwinderAarch64_new : UnwinderAarch64 := mkUnwinderAarch64 ModuleSet.new.
Definition UnwinderAarch64_default : UnwinderAarch64 := UnwinderAarch64_new.
Definition UnwinderAarch64_clone (self : UnwinderAarch64) : UnwinderAarch64 :=
  mkUnwinderAarch64 (clone (a64_modules self)).

(** ** The iterator *)
Inductive UnwindIteratorState : Type :=
  | Initial (pc : Z)
  | Unwinding (frame : FrameAddress)
  | Done.

Section iterator.
Context {U : Type} `{Unwinder U}.

Record UnwindIterator : Type := mkUnwindIterator {
  unwinder : U;
  state : UnwindIteratorState;
  it_regs : UnwindRegs;
  it_env : EnvT;
}.

(** [UnwindIterator::new], called by [iter_frames]. *)
Definition iter_frames (u : U) (pc : Z) (regs : UnwindRegs) (env : EnvT) : UnwindIterator :=
  mkUnwindIterator u (Initial pc) regs env.

Definition set_state (st : UnwindIteratorState) (it : UnwindIterator) : UnwindIterator :=
  mkUnwindIterator (unwinder it) st (it_regs it) (it_env it).

(** [unwind_frame] on the iterator's own registers and reader. *)
Definition step_frame (frame : FrameAddress) : SM UnwindIterator Error (option Z) := λ it,
  let '(r, (regs', env')) := unwind_frame_of (unwinder it) frame (it_regs it, it_env it) in
  (r, mkUnwindIterator (unwinder it) (state it) regs' env').

(** [UnwindIterator::next]. *)
Definition next : SM UnwindIterator Error (option FrameAddress) :=
  self ← sm_get;
  match state self with
  | Initial pc =>
      let frame := InstructionPointer pc in
      _ ← sm_modify (set_state (Unwinding frame));
      mret (Some frame)
  | Unwinding frame =>
      return_address ← step_frame frame;
      self ← sm_get;
      let interrupted_instruction_pointer :=
        is_signal_frame_at (unwinder self) frame (it_regs self) (it_env self) in
      match return_address with
      | Some ra =>
          let frame :=
            if interrupted_instruction_pointer then Some (InstructionPointer ra)
            else from_return_address ra in
          match frame with
          | Some frame => _ ← sm_modify (set_state (Unwinding frame)); mret (Some frame)
          | None => _ ← sm_modify (set_state Done); mret None
          end
      | None => _ ← sm_modify (set_state Done); mret None
      end
  | Done => mret None
  end.

(** Calling [next] until it returns [None] or fails, at most [n] times. *)
Inductive drained : Type := Finished | Failed (e : Error) | Crashed | OutOfFuel.

Fixpoint drain (n : nat) (it : UnwindIterator) : list FrameAddress * drained :=
  match n with
  | O => ([], OutOfFuel)
  | S n' =>
      match next it with
      | (Ok (Some f), it') => let '(fs, r) := drain n' it' in (f :: fs, r)
      | (Ok None, _) => ([], Finished)
      | (Err e, _) => ([], Failed e)
      | _ => ([], Crashed)
      end
  end.
End iterator.
Arguments UnwindIterator U {_}.

(** ** The two implementations *)
Section instances.
Context `{Profile} `{LibunwindApi} {ReadT : Type}.
Context (read_fn : ReadT → Z → option Z * ReadT).

Definition x86_64_unwinder : Unwinder UnwinderX86_64 := {|
  UnwindRegs := UnwindRegsX86_64;
  EnvT := Env ReadT;
  add_module := λ u m, mkUnwinderX86_64 (add (x86_modules u) m);
  remove_module := λ u a, mkUnwinderX86_64 (remove (x86_modules u) a);
  max_known_code_address_of := λ u, max_known_code_address (x86_modules u);
  is_signal_frame_at := λ u frame _ env,
    X86_64.unwinder_is_signal_frame (x86_modules u) (env_heap env) frame;
  unwind_frame_of := λ u frame, X86_64.unwind_frame read_fn (x86_modules u) frame;
|}.

Definition aarch64_unwinder : Unwinder UnwinderAarch64 := {|
  UnwindRegs := UnwindRegsAarch64;
  EnvT := Env ReadT;
  add_module := λ u m, mkUnwinderAarch64 (add (a64_modules u) m);
  remove_module := λ u a, mkUnwinderAarch64 (remove (a64_modules u) a);
  max_known_code_address_of := λ u, max_known_code_address (a64_modules u);
  is_signal_frame_at := λ u frame regs env,
    Aarch64.unwinder_is_signal_frame (a64_modules u) (env_heap env) frame regs;
  unwind_frame_of := λ u frame, Aarch64.unwind_frame read_fn (a64_modules u) frame;
|}.
End instances.

(** ** The implementations keep the interface's promise *)
Section laws.
Context `{Profile} {L : LibunwindApi} `{!LibunwindLaws L} {ReadT : Type}.
Context (read_fn : ReadT → Z → option Z * ReadT).

Lemma step_with_ctx_ip `{Arch} s raw ip extra env new_ip extras f e env' :
  step_with_ctx read_fn s raw ip extra env = (Ok (Stepped new_ip extras), f, e, env') →
  is_u64 new_ip.
Proof.
  unfold step_with_ctx.
  destruct (init_and_step read_fn extra _) as [r [w st]] eqn:Hi. intros [= -> _ _ _].
  by eapply init_and_step_ip.
Qed.

Lemma x86_64_unwinder_laws :
  @UnwinderLaws UnwinderX86_64 (x86_64_unwinder read_fn).
Proof.
  split. intros u frame [regs env] a st'. simpl. unfold X86_64.unwind_frame. cbv zeta.
  destruct (unwind_info_error _ _); [done|]. destruct (negb (has_unwind_info _ _)).
  - intros Hf. pose proof (fallback_cases read_fn (address frame) regs env) as Hc.
    rewrite Hf in Hc. destruct st'. by destruct Hc as (_ & nbp & (_ & _ & _ & ? & _) & _).
  - destruct (step_with_ctx _ _ _ _ _ _) as [[[step f] e] env'] eqn:Hs.
    destruct step as [[new_ip extras|]|err| | |]; try done.
    apply step_with_ctx_ip in Hs as [Hlo _]. intros Hf.
    unfold X86_64.finish_step, mbind, sm_bind, sm_get, sm_lift, sm_err, sm_modify, mret, sm_ret in Hf.
    destruct (Z.eqb_spec new_ip 0); [done|].
    destruct (_ && _ && _).
    + destruct (checked_add new_ip 1) as [x|] eqn:Ha; cbn [ok_or] in Hf; [|done].
      apply checked_add_some in Ha as [-> _]. destruct (_ && _); simplify_eq. lia.
    + destruct (_ && _); by simplify_eq.
Qed.

Lemma aarch64_unwinder_laws :
  @UnwinderLaws UnwinderAarch64 (aarch64_unwinder read_fn).
Proof.
  split. intros u frame [regs env] a st'. simpl. unfold Aarch64.unwind_frame. cbv zeta.
  destruct (unwind_info_error _ _); [done|]. destruct (negb (has_unwind_info _ _)).
  - intros Hf. pose proof (a64_fallback_cases read_fn
      (strip_ptr_auth (lr_mask regs) (address frame)) regs env) as Hc.
    rewrite Hf in Hc. destruct st'. by destruct Hc as (_ & nfp & nlr & _ & _ & _ & ? & _).
  - destruct (step_with_ctx _ _ _ _ _ _) as [[[step f] e] env'] eqn:Hs.
    destruct step as [[new_ip extras|]|err| | |]; try done.
    apply step_with_ctx_ip in Hs as [Hlo _]. intros Hf.
    unfold Aarch64.finish_step, mbind, sm_bind, sm_get, sm_lift, sm_err, sm_modify, mret, sm_ret in Hf.
    assert (0 ≤ strip_ptr_auth (lr_mask regs) new_ip) by (apply Z.land_nonneg; by left).
    destruct (Z.eqb_spec (strip_ptr_auth (lr_mask regs) new_ip) 0); [done|].
    destruct (_ && _ && _).
    + destruct (checked_add _ 1) as [x|] eqn:Ha; cbn [ok_or] in Hf; [|done].
      apply checked_add_some in Ha as [-> _]. destruct (_ && _); simplify_eq. lia.
    + destruct (_ && _); by simplify_eq.
Qed.
End laws.
#[export] Existing Instance x86_64_unwinder_laws.
#[export] Existing Instance aarch64_unwinder_laws.

(** ** Lemmas: one call of [next] *)

(** From a frame, [next] is a step and the choice of the next frame. *)
Lemma next_step {U : Type} `{Unwinder U} u frame regs env :
  next (mkUnwindIterator u (Unwinding frame) regs env) =
  match unwind_frame_of u frame (regs, env) with
  | (Ok (Some a), (regs', env')) =>
      match (if is_signal_frame_at u frame regs' env' then Some (InstructionPointer a)
             else from_return_address a) with
      | Some f => (Ok (Some f), mkUnwindIterator u (Unwinding f) regs' env')
      | None => (Ok None, mkUnwindIterator u Done regs' env')
      end
  | (Ok None, (regs', env')) => (Ok None, mkUnwindIterator u Done regs' env')
  | (Err e, (regs', env')) => (Err e, mkUnwindIterator u (Unwinding frame) regs' env')
  | (Panic, (regs', env')) => (Panic, mkUnwindIterator u (Unwinding frame) regs' env')
  | (UB, (regs', env')) => (UB, mkUnwindIterator u (Unwinding frame) regs' env')
  | (NoFuel, (regs', env')) => (NoFuel, mkUnwindIterator u (Unwinding frame) regs' env')
  end.
Proof.
  unfold next, step_frame, mbind, sm_bind, sm_get, sm_modify. simpl.
  destruct (unwind_frame_of u frame (regs, env)) as [[[a|]|e| | |] [regs' env']]; simpl; try done.
  destruct (is_signal_frame_at u frame regs' env'); [done|]. by destruct (from_return_address a).
Qed.

Section next_lemmas.
Context {U : Type} `{UnwinderLaws U}.

Lemma next_initial it pc :
  state it = Initial pc →
  next it = (Ok (Some (InstructionPointer pc)), set_state (Unwinding (InstructionPointer pc)) it).
Proof. intros Hs. unfold next, mbind, sm_bind, sm_get, sm_modify. by rewrite Hs. Qed.

Lemma next_done it : state it = Done → next it = (Ok None, it).
Proof. intros Hs. unfold next, mbind, sm_bind, sm_get. by rewrite Hs. Qed.

Lemma next_unwinding it frame :
  state it = Unwinding frame →
  match unwind_frame_of (unwinder it) frame (it_regs it, it_env it) with
  | (Ok (Some a), (regs', env')) =>
      a ≠ 0 ∧
      let f := if is_signal_frame_at (unwinder it) frame regs' env'
               then InstructionPointer a else ReturnAddress a in
      next it = (Ok (Some f), mkUnwindIterator (unwinder it) (Unwinding f) regs' env')
  | (Ok None, (regs', env')) =>
      next it = (Ok None, mkUnwindIterator (unwinder it) Done regs' env')
  | (Err e, (regs', env')) =>
      next it = (Err e, mkUnwindIterator (unwinder it) (Unwinding frame) regs' env')
  | (Panic, _) => (next it).1 = Panic
  | (UB, _) => (next it).1 = UB
  | (NoFuel, _) => (next it).1 = NoFuel
  end.
Proof.
  intros Hs. unfold next, step_frame, mbind, sm_bind, sm_get, sm_modify. rewrite Hs.
  destruct (unwind_frame_of (unwinder it) frame (it_regs it, it_env it))
    as [[[a|]|e| | |] [regs' env']] eqn:Hu; try done;
    [|by rewrite Hs].
  pose proof (unwind_frame_nonzero _ _ _ _ _ Hu) as Hne. split; [done|]. simpl.
  destruct (is_signal_frame_at _ _ _ _); [done|].
  unfold from_return_address. by rewrite (proj2 (Z.eqb_neq a 0)).
Qed.
End next_lemmas.

(** What a client reads off the drained iterator. *)
Definition ended (r : drained) : Prop := match r with Finished | Failed _ => True | _ => False end.

(** No module has usable unwind information, and none is known bad. *)
Definition fallback_only_set (s : ModuleSet) (h : Heap) : Prop :=
  ∀ a, unwind_info_error s a = None ∧ has_unwind_info s a = false ∧ is_signal_frame s h a = false.

(** ** Properties *)

(** The iterator is a faithful state machine over any unwinder that keeps
    the interface's promise: it first yields the program counter, then exactly
    the addresses [unwind_frame] returns, as an interrupted instruction pointer
    after a signal frame and as a return address otherwise; it ends only when
    [unwind_frame] does and stays ended; an error keeps its position, so the same
    frame is retried. *)
Theorem iterator_next {U : Type} `{UnwinderLaws U} (it : UnwindIterator U) :
  (∀ pc, state it = Initial pc →
     next it = (Ok (Some (InstructionPointer pc)),
                mkUnwindIterator (unwinder it) (Unwinding (InstructionPointer pc))
                  (it_regs it) (it_env it))) ∧
  (∀ frame, state it = Unwinding frame →
     match unwind_frame_of (unwinder it) frame (it_regs it, it_env it) with
     | (Ok (Some a), (regs', env')) =>
         let f := if is_signal_frame_at (unwinder it) frame regs' env'
                  then InstructionPointer a else ReturnAddress a in
         next it = (Ok (Some f), mkUnwindIterator (unwinder it) (Unwinding f) regs' env')
     | (Ok None, (regs', env')) =>
         next it = (Ok None, mkUnwindIterator (unwinder it) Done regs' env')
     | (Err e, (regs', env')) =>
         next it = (Err e, mkUnwindIterator (unwinder it) (Unwinding frame) regs' env')
     | (Panic, _) => (next it).1 = Panic
     | (UB, _) => (next it).1 = UB
     | (NoFuel, _) => (next it).1 = NoFuel
     end) ∧
  (state it = Done → next it = (Ok None, it)).
Proof.
  split_and!; [apply next_initial| |apply next_done]. intros frame Hs.
  pose proof (next_unwinding it frame Hs) as Hn.
  destruct (unwind_frame_of (unwinder it) frame _) as [[[a|]|e| | |] [regs' env']]; try done.
  by destruct Hn.
Qed.

(** *** Witnesses *)
#[local] Instance walk_profile : Profile := true.
#[local] Instance walk_libunwind : LibunwindApi := toy_libunwind 16 7 6.
#[local] Instance walk_laws : LibunwindLaws walk_libunwind := toy_libunwind_laws _ _ _.

(** A module without sections, and two frame records at 0x8000 and 0x8100. *)
Definition walk_module : ModuleData :=
  mkModuleData "nofp" (mkRange 0x1000 0x2000) 0 [] (empty 0) Null 0 Null 0 0 None 0 0x1000 0.
Example walk_module_built :
  fallback_only (E:=ModuleError) "nofp" (mkRange 0x1000 0x2000) 0 heap_init =
  Ok (walk_module, one_fde_heap).
Proof. vm_compute. reflexivity. Qed.

Definition walk_set : ModuleSet := add ModuleSet.new walk_module.
Definition walk_mem (a : Z) : option Z :=
  if a =? 0x8000 then Some 0x8100 else if a =? 0x8008 then Some 0x1234
  else if a =? 0x8100 then Some 0 else if a =? 0x8108 then Some 0x1567 else None.
Definition walk_read (u : ()) (a : Z) : option Z * () := (walk_mem a, u).
Definition walk_regs : UnwindRegsX86_64 := X86_64.new 0x1004 0x7ff0 0x8000.
Definition walk_env : Env () := mkEnv () one_fde_heap None.

Lemma walk_fallback_only : fallback_only_set walk_set (env_heap walk_env).
Proof.
  intros a. unfold unwind_info_error, has_unwind_info, is_signal_frame.
  assert (find_module walk_set a = None ∨ find_module walk_set a = Some walk_module) as [->| ->].
  { unfold find_module, walk_set. simpl. destruct (0x1000 <=? a) eqn:He; simpl; [|by left].
    rewrite He. simpl. destruct (a <? _); [by right|by left]. }
  - done.
  - done.
Qed.

Lemma iterator_next_witness :
  let it := iter_frames (H:=x86_64_unwinder walk_read) (mkUnwinderX86_64 walk_set) 0x1004
              walk_regs walk_env in
  next it = (Ok (Some (InstructionPointer 0x1004)),
             mkUnwindIterator (H:=x86_64_unwinder walk_read) (mkUnwinderX86_64 walk_set)
               (Unwinding (InstructionPointer 0x1004)) walk_regs walk_env).
Proof.
  exact (proj1 (iterator_next (H0:=x86_64_unwinder_laws walk_read)
    (iter_frames (H:=x86_64_unwinder walk_read) (mkUnwinderX86_64 walk_set) 0x1004
       walk_regs walk_env)) 0x1004 eq_refl).
Defined.
