(* ===== verification/FrameRecords.v ===== *)
(** * Walking a stack by frame pointers

    When no module offers unwind information, [unwind_frame] follows the frame
    records the frame pointer heads: [fallback_unwind_frame] of [src/src/x86_64.rs] and
    [src/src/aarch64.rs].  The walk is verified once, against an interface both
    architectures implement, as a property of [UnwindIterator::next]. *)

From stdpp Require Import gmap.
From S2P Require Import Prelude.
From S2P Require Import BTree.
From S2P Require Import EhFrameTable.
From S2P Require Import Ffi.
From S2P Require Import Errors.
From S2P Require Import FrameAddress.
From S2P Require Import Modules.
From S2P Require Import ModuleSet.
From S2P Require Import Callbacks.
From S2P Require Import AddressSpace.
From S2P Require Import Frames.
From S2P Require Import X86_64.
From S2P Require Import Aarch64.
From S2P Require Import Iterator.

(** ** Frame records in memory

    [frame_chain code mem sp fp ras]: the frame pointer [fp] of a frame with stack
    pointer [sp] heads a chain of records; [ras] are the code addresses in their
    return-address slots, innermost first ([code] removes a signature).  The
    chain ends in a null frame pointer or a null return address. *)
Inductive frame_chain (code : Z → Z) (mem : Z → option Z) : Z → Z → list Z → Prop :=
  | chain_end sp : frame_chain code mem sp 0 []
  | chain_null sp fp nfp w :
      fp ≠ 0 → sp < fp + 16 ≤ u64_max → mem fp = Some nfp → nfp = 0 ∨ fp < nfp →
      mem (fp + 8) = Some w → code w = 0 → frame_chain code mem sp fp []
  | chain_frame sp fp nfp w ras :
      fp ≠ 0 → sp < fp + 16 ≤ u64_max → mem fp = Some nfp → nfp = 0 ∨ fp < nfp →
      mem (fp + 8) = Some w → code w ≠ 0 → frame_chain code mem (fp + 16) nfp ras →
      frame_chain code mem sp fp (code w :: ras).

(** On x86_64 the slot holds the code address itself. *)
Abbreviation fp_chain := (frame_chain (λ w, w)).

(** The calls of [next] left at most: the frame pointer only grows. *)
Definition fuel_of (fp : Z) : nat :=
  if fp =? 0 then 1%nat else (2 + Z.to_nat (u64_max - fp))%nat.

Lemma fuel_of_pos fp : (0 < fuel_of fp)%nat.
Proof. unfold fuel_of. destruct (fp =? 0); lia. Qed.

Lemma fuel_of_decreases fp nfp :
  fp ≠ 0 → fp + 16 ≤ u64_max → nfp = 0 ∨ fp < nfp → (fuel_of nfp < fuel_of fp)%nat.
Proof.
  intros Hfp Hu Hn. unfold fuel_of. destruct (Z.eqb_spec fp 0); [done|].
  destruct (Z.eqb_spec nfp 0); [lia|]. destruct Hn; [done|].
  destruct (decide (nfp ≤ u64_max)); lia.
Qed.

(** ** The interface: an unwinder that falls back on frame records *)
Class FrameRecords (U : Type) `{Unwinder U} : Type := {
  fr_sp : UnwindRegs → Z;
  fr_fp : UnwindRegs → Z;
  fr_code : UnwindRegs → Z → Z;
  fr_good : UnwindRegs → Prop;
  (** no module offers unwind information *)
  fr_ready : U → EnvT → Prop;
  (** the reader reads this memory *)
  fr_reads : (Z → option Z) → Prop;
}.

Class FrameRecordsLaws (U : Type) `{FrameRecords U} : Prop := {
  fr_no_signal u frame regs env : fr_ready u env → is_signal_frame_at u frame regs env = false;
  fr_end u frame regs env :
    fr_ready u env → fr_fp regs = 0 → (unwind_frame_of u frame (regs, env)).1 = Ok None;
  (** a record in memory is followed *)
  fr_record mem u frame regs env nfp w :
    fr_reads mem → fr_ready u env → fr_good regs → fr_fp regs ≠ 0 →
    fr_sp regs < fr_fp regs + 16 ≤ u64_max → mem (fr_fp regs) = Some nfp →
    nfp = 0 ∨ fr_fp regs < nfp → mem (fr_fp regs + 8) = Some w →
    match unwind_frame_of u frame (regs, env) with
    | (Ok None, _) => fr_code regs w = 0
    | (Ok (Some a), (regs', _)) =>
        a = fr_code regs w ∧ a ≠ 0 ∧ fr_sp regs' = fr_fp regs + 16 ∧ fr_fp regs' = nfp ∧
        ∀ x, fr_code regs' x = fr_code regs x
    | _ => False
    end;
  (** whatever memory holds, the frame pointer grows *)
  fr_step u frame regs env :
    fr_ready u env → fr_good regs →
    match unwind_frame_of u frame (regs, env) with
    | (Ok (Some _), (regs', env')) =>
        fr_ready u env' ∧ fr_good regs' ∧ fr_fp regs ≠ 0 ∧ fr_fp regs + 16 ≤ u64_max ∧
        (fr_fp regs' = 0 ∨ fr_fp regs < fr_fp regs')
    | (Ok None, _) | (Err _, _) => True
    | _ => False
    end;
}.

(** ** The walk, for every implementation *)
Section walk.
Context {U : Type} `{FrameRecordsLaws U} `{!UnwinderLaws U}.
Local Abbreviation It := (UnwindIterator U).

Lemma drain_S n (it : It) :
  drain (S n) it =
  match next it with
  | (Ok (Some f), it') => let '(fs, r) := drain n it' in (f :: fs, r)
  | (Ok None, _) => ([], Finished)
  | (Err e, _) => ([], Failed e)
  | _ => ([], Crashed)
  end.
Proof. reflexivity. Qed.

Local Abbreviation it_at u frame regs env := (mkUnwindIterator u (Unwinding frame) regs env).

(** One call of [next]: a recovered frame is a return address. *)
Lemma next_record u frame regs env :
  fr_ready u env → fr_good regs →
  match unwind_frame_of u frame (regs, env) with
  | (Ok (Some a), (regs', env')) =>
      next (it_at u frame regs env) = (Ok (Some (ReturnAddress a)), it_at u (ReturnAddress a) regs' env')
  | (Ok None, _) => (next (it_at u frame regs env)).1 = Ok None
  | (Err e, _) => (next (it_at u frame regs env)).1 = Err e
  | _ => False
  end.
Proof.
  intros Hr Hg. pose proof (next_unwinding (it_at u frame regs env) frame eq_refl) as Hnx.
  pose proof (fr_step u frame regs env Hr Hg) as Hs. simpl in Hnx.
  destruct (unwind_frame_of u frame (regs, env)) as [[[a|]|e| | |] [regs' env']]; try done.
  - destruct Hs as (Hr' & _). destruct Hnx as [_ Hnx]. by rewrite (fr_no_signal u) in Hnx.
  - by rewrite Hnx.
  - by rewrite Hnx.
Qed.

Lemma drain_chain mem u sp0 fp0 code ras :
  fr_reads mem → frame_chain code mem sp0 fp0 ras →
  ∀ frame regs env, fr_ready u env → fr_good regs → fr_sp regs = sp0 → fr_fp regs = fp0 →
    (∀ x, fr_code regs x = code x) →
    drain (S (length ras)) (it_at u frame regs env) = (ReturnAddress <$> ras, Finished).
Proof.
  intros Hm Hc.
  induction Hc as [sp|sp fp nfp w Hfp Hsp Hw1 Hn Hw2 Hw|sp fp nfp w ras Hfp Hsp Hw1 Hn Hw2 Hw Hc IH];
    intros frame regs env Hr Hg Hspr Hfpr Hcode; rewrite drain_S;
    pose proof (next_record u frame regs env Hr Hg) as Hnx;
    pose proof (fr_step u frame regs env Hr Hg) as Hst.
  - pose proof (fr_end u frame regs env Hr Hfpr) as He.
    destruct (unwind_frame_of u frame (regs, env)) as [r st]. simpl in He. subst r.
    destruct (next _) as [r it']. simpl in Hnx. by subst r.
  - subst. pose proof (fr_record mem u frame regs env nfp w Hm Hr Hg Hfp Hsp Hw1 Hn Hw2) as Hrec.
    destruct (unwind_frame_of u frame (regs, env)) as [[[a|]|e| | |] [regs' env']]; try done.
    + destruct Hrec as (-> & Ha & _). by rewrite Hcode in Ha.
    + destruct (next _) as [r it']. simpl in Hnx. by subst r.
  - subst. pose proof (fr_record mem u frame regs env nfp w Hm Hr Hg Hfp Hsp Hw1 Hn Hw2) as Hrec.
    destruct (unwind_frame_of u frame (regs, env)) as [[[a|]|e| | |] [regs' env']]; try done.
    + destruct Hrec as (-> & _ & Hsp' & Hfp' & Hcode'). destruct Hst as (Hr' & Hg' & _).
      rewrite Hnx, Hcode. cbn [length]. rewrite IH; [done..|]. intros x. by rewrite Hcode', Hcode.
    + by rewrite Hcode in Hrec.
Qed.

Lemma drain_ends n u frame regs env :
  fr_ready u env → fr_good regs → (fuel_of (fr_fp regs) ≤ n)%nat →
  ended (drain n (it_at u frame regs env)).2 ∧
  (length (drain n (it_at u frame regs env)).1 < fuel_of (fr_fp regs))%nat.
Proof.
  revert frame regs env. induction n as [|n IH]; intros frame regs env Hr Hg Hn;
    pose proof (fuel_of_pos (fr_fp regs)); [lia|].
  pose proof (next_record u frame regs env Hr Hg) as Hnx.
  pose proof (fr_step u frame regs env Hr Hg) as Hst. rewrite drain_S.
  destruct (unwind_frame_of u frame (regs, env)) as [[[a|]|e| | |] [regs' env']]; try done.
  - rewrite Hnx. destruct Hst as (Hr' & Hg' & Hfp & Hu & Hgrow).
    pose proof (fuel_of_decreases _ _ Hfp Hu Hgrow).
    destruct (IH (ReturnAddress a) regs' env' Hr' Hg') as [He Hl]; [lia|].
    destruct (drain n _) as [fs r]. simpl in *. split; [done|lia].
  - destruct (next _) as [r it']. simpl in Hnx. subst r. by split.
  - destruct (next _) as [r it']. simpl in Hnx. subst r. by split.
Qed.

(** From [iter_frames] on. *)
Lemma iter_chain mem u pc regs env ras :
  fr_reads mem → fr_ready u env → fr_good regs →
  frame_chain (fr_code regs) mem (fr_sp regs) (fr_fp regs) ras →
  drain (S (S (length ras))) (iter_frames u pc regs env) =
  (InstructionPointer pc :: (ReturnAddress <$> ras), Finished).
Proof.
  intros Hm Hr Hg Hc. rewrite drain_S, (next_initial (iter_frames u pc regs env) pc eq_refl).
  unfold set_state. cbn [unwinder it_regs it_env iter_frames].
  by rewrite (drain_chain mem u (fr_sp regs) (fr_fp regs) (fr_code regs) ras).
Qed.

Lemma iter_ends u pc regs env :
  fr_ready u env → fr_good regs →
  let r := drain (S (fuel_of (fr_fp regs))) (iter_frames u pc regs env) in
  ended r.2 ∧ (length r.1 ≤ fuel_of (fr_fp regs))%nat.
Proof.
  intros Hr Hg. cbv zeta. rewrite drain_S, (next_initial (iter_frames u pc regs env) pc eq_refl).
  unfold set_state. cbn [unwinder it_regs it_env iter_frames].
  pose proof (drain_ends (fuel_of (fr_fp regs)) u (InstructionPointer pc) regs env Hr Hg) as Hd.
  destruct (drain _ _) as [fs x]. simpl in *. destruct Hd as [He Hl]; [done|]. split; [done|lia].
Qed.
End walk.

(** ** Reading memory *)
Section readers.
Context {ReadT : Type} (read_fn : ReadT → Z → option Z * ReadT).

(** The reader reads the memory [mem]. *)
Definition reads_memory (mem : Z → option Z) : Prop := ∀ rs a, (read_fn rs a).1 = mem a.

Lemma read_stack_mem {RegsT} mem (r : RegsT) env a v :
  reads_memory mem → mem a = Some v →
  ∃ rs, read_stack read_fn a (r, env) = (Ok v, (r, mkEnv rs (env_heap env) (env_static env))).
Proof.
  intros Hm Hv. unfold read_stack. specialize (Hm (env_read env) a).
  destruct (read_fn (env_read env) a) as [x rs]. simpl in Hm. exists rs.
  by rewrite Hm, Hv.
Qed.
End readers.

(** ** x86_64 *)
Section x86_64.
Context `{Profile} {L : LibunwindApi} `{!LibunwindLaws L} {ReadT : Type}.
Context (read_fn : ReadT → Z → option Z * ReadT).

Definition x86_64_records : FrameRecords (H:=x86_64_unwinder read_fn) UnwinderX86_64 :=
  Build_FrameRecords _ (x86_64_unwinder read_fn) X86_64.sp X86_64.bp (λ _ w, w) X86_64.regs_ok
    (λ u env, fallback_only_set (x86_modules u) (env_heap env)) (reads_memory read_fn).

(** Without unwind information a step is the fallback. *)
Lemma x86_64_unwind_fallback s frame regs (env : Env ReadT) :
  fallback_only_set s (env_heap env) →
  X86_64.unwind_frame read_fn s frame (regs, env) =
  X86_64.fallback_unwind_frame read_fn (address frame) (regs, env).
Proof.
  intros Hs. unfold X86_64.unwind_frame. cbv zeta.
  destruct (Hs (address_for_lookup frame)) as (-> & -> & _). done.
Qed.

(** One step over a frame record. *)
Lemma x86_64_fallback_record mem cur regs env nbp ra :
  reads_memory read_fn mem → bp regs ≠ 0 → X86_64.sp regs < bp regs + 16 ≤ u64_max →
  mem (bp regs) = Some nbp → nbp = 0 ∨ bp regs < nbp → mem (bp regs + 8) = Some ra →
  ∃ rs, let env' := mkEnv rs (env_heap env) (env_static env) in
    X86_64.fallback_unwind_frame read_fn cur (regs, env) =
    if ra =? 0 then (Ok None, (regs, env'))
    else (Ok (Some ra), (restore_caller regs ra (bp regs + 16) nbp, env')).
Proof.
  intros Hm Hbp Hsp H1 Hn H2.
  destruct (read_stack_mem read_fn mem regs env _ _ Hm H1) as [rs1 Hr1].
  destruct (read_stack_mem read_fn mem regs (mkEnv rs1 (env_heap env) (env_static env)) _ _ Hm H2)
    as [rs2 Hr2].
  exists rs2. cbv zeta.
  unfold X86_64.fallback_unwind_frame, mbind, sm_bind, sm_get, sm_lift, sm_err, sm_modify, mret, sm_ret.
  cbv zeta. destruct (Z.eqb_spec (bp regs) 0); [done|].
  unfold checked_add. rewrite !(proj2 (Z.leb_le _ u64_max)) by lia. cbn [ok_or].
  rewrite (proj2 (Z.leb_gt (bp regs + 16) _)) by lia. rewrite Hr1.
  destruct (negb (nbp =? 0) && (nbp <=? bp regs)) eqn:Hb; [zify_bools; lia|].
  rewrite Hr2. destruct (ra =? 0); [done|].
  rewrite (proj2 (Z.eqb_neq (bp regs + 16) _)) by lia. done.
Qed.

Lemma x86_64_records_laws : FrameRecordsLaws (H:=x86_64_unwinder read_fn) (H0:=x86_64_records) UnwinderX86_64.
Proof.
  split; cbn [unwind_frame_of x86_64_unwinder is_signal_frame_at UnwindRegs EnvT fr_sp fr_fp
              fr_code fr_good fr_ready fr_reads x86_64_records].
  - intros u frame regs env Hr. by destruct (Hr (address_for_lookup frame)) as (_ & _ & Hs).
  - intros u frame regs env Hr Hfp. rewrite x86_64_unwind_fallback by done.
    unfold X86_64.fallback_unwind_frame, mbind, sm_bind, sm_get. cbv zeta. by rewrite Hfp.
  - intros mem u frame regs env nfp w Hm Hr Hg Hfp Hsp Hw1 Hn Hw2.
    rewrite x86_64_unwind_fallback by done.
    destruct (x86_64_fallback_record mem (address frame) regs env nfp w) as [rs ->]; [done..|].
    cbv zeta. destruct (Z.eqb_spec w 0); [done|].
    by rewrite X86_64.restore_sp, X86_64.restore_bp.
  - intros u frame regs env Hr Hg. rewrite x86_64_unwind_fallback by done.
    pose proof (X86_64.fallback_cases read_fn (address frame) regs env) as Hc.
    destruct (X86_64.fallback_unwind_frame _ _ _) as [[[a|]|e| | |] [regs' env']]; try done.
    destruct Hc as (Hh & nbp & (Hbp & [_ Hu] & Hgrow & _) & ->).
    rewrite Hh, X86_64.restore_bp by done. split_and!; [done|by apply X86_64.restore_ok|done..].
Qed.
End x86_64.

(** ** aarch64 *)
Section aarch64.
Context `{Profile} {L : LibunwindApi} `{!LibunwindLaws L} {ReadT : Type}.
Context (read_fn : ReadT → Z → option Z * ReadT).

Definition aarch64_records : FrameRecords (H:=aarch64_unwinder read_fn) UnwinderAarch64 :=
  Build_FrameRecords _ (aarch64_unwinder read_fn) Aarch64.sp Aarch64.fp
    (λ regs, strip_ptr_auth (lr_mask regs)) (λ _, True)
    (λ u env, fallback_only_set (a64_modules u) (env_heap env)) (reads_memory read_fn).

Lemma aarch64_unwind_fallback s frame regs (env : Env ReadT) :
  fallback_only_set s (env_heap env) →
  Aarch64.unwind_frame read_fn s frame (regs, env) =
  Aarch64.fallback_unwind_frame read_fn (strip_ptr_auth (lr_mask regs) (address frame)) (regs, env).
Proof.
  intros Hs. unfold Aarch64.unwind_frame. cbv zeta.
  destruct (Hs (strip_ptr_auth (lr_mask regs) (address_for_lookup frame))) as (-> & -> & _). done.
Qed.

Lemma aarch64_fallback_record mem cur regs env nfp w :
  reads_memory read_fn mem → fp regs ≠ 0 → Aarch64.sp regs < fp regs + 16 ≤ u64_max →
  mem (fp regs) = Some nfp → nfp = 0 ∨ fp regs < nfp → mem (fp regs + 8) = Some w →
  ∃ rs, let env' := mkEnv rs (env_heap env) (env_static env) in
    let ra := strip_ptr_auth (lr_mask regs) w in
    Aarch64.fallback_unwind_frame read_fn cur (regs, env) =
    if ra =? 0 then (Ok None, (regs, env'))
    else (Ok (Some ra), (mkUnwindRegs (lr_mask regs) ra (fp regs + 16) nfp, env')).
Proof.
  intros Hm Hfp Hsp H1 Hn H2.
  destruct (read_stack_mem read_fn mem regs env _ _ Hm H1) as [rs1 Hr1].
  destruct (read_stack_mem read_fn mem regs (mkEnv rs1 (env_heap env) (env_static env)) _ _ Hm H2)
    as [rs2 Hr2].
  exists rs2. cbv zeta.
  unfold Aarch64.fallback_unwind_frame, mbind, sm_bind, sm_get, sm_lift, sm_err, sm_modify, mret, sm_ret.
  cbv zeta. destruct (Z.eqb_spec (fp regs) 0); [done|].
  unfold checked_add. rewrite !(proj2 (Z.leb_le _ u64_max)) by lia. cbn [ok_or].
  rewrite (proj2 (Z.leb_gt (fp regs + 16) _)) by lia. rewrite Hr1.
  destruct (negb (nfp =? 0) && (nfp <=? fp regs)) eqn:Hb; [zify_bools; lia|].
  rewrite Hr2. destruct (strip_ptr_auth (lr_mask regs) w =? 0); [done|].
  by rewrite (proj2 (Z.eqb_neq (fp regs + 16) _)), andb_false_r by lia.
Qed.

Lemma aarch64_records_laws : FrameRecordsLaws (H:=aarch64_unwinder read_fn) (H0:=aarch64_records) UnwinderAarch64.
Proof.
  split; cbn [unwind_frame_of aarch64_unwinder is_signal_frame_at UnwindRegs EnvT fr_sp fr_fp
              fr_code fr_good fr_ready fr_reads aarch64_records].
  - intros u frame regs env Hr.
    by destruct (Hr (strip_ptr_auth (lr_mask regs) (address_for_lookup frame))) as (_ & _ & Hs).
  - intros u frame regs env Hr Hfp. rewrite aarch64_unwind_fallback by done.
    unfold Aarch64.fallback_unwind_frame, mbind, sm_bind, sm_get. cbv zeta. by rewrite Hfp.
  - intros mem u frame regs env nfp w Hm Hr Hg Hfp Hsp Hw1 Hn Hw2.
    rewrite aarch64_unwind_fallback by done.
    destruct (aarch64_fallback_record mem (strip_ptr_auth (lr_mask regs) (address frame))
      regs env nfp w) as [rs ->]; [done..|].
    cbv zeta. by destruct (Z.eqb_spec (strip_ptr_auth (lr_mask regs) w) 0).
  - intros u frame regs env Hr Hg. rewrite aarch64_unwind_fallback by done.
    pose proof (a64_fallback_cases read_fn (strip_ptr_auth (lr_mask regs) (address frame)) regs env)
      as Hc.
    destruct (Aarch64.fallback_unwind_frame _ _ _) as [[[a|]|e| | |] [regs' env']]; try done.
    destruct Hc as (Hh & nfp & nlr & Hfp & [_ Hu] & Hgrow & _ & _ & -> & _).
    rewrite Hh. by split_and!.
Qed.
End aarch64.

(** ** Properties *)

(** C4: stack walking by frame pointers is correct end to end: when memory holds
    a well-formed chain of frame records and no module offers unwind information,
    [iter_frames] yields the program counter, then exactly the chain's return
    addresses from the innermost out, and then ends. *)
Theorem frame_pointer_walk `{Profile} (L : LibunwindApi) `{!LibunwindLaws L} {ReadT}
    (read_fn : ReadT → Z → option Z * ReadT) (mem : Z → option Z) (s : ModuleSet)
    (pc : Z) (regs : UnwindRegsX86_64) (env : Env ReadT) (ras : list Z) :
  reads_memory read_fn mem → fallback_only_set s (env_heap env) → regs_ok regs →
  fp_chain mem (X86_64.sp regs) (bp regs) ras →
  drain (S (S (length ras)))
    (iter_frames (H:=x86_64_unwinder read_fn) (mkUnwinderX86_64 s) pc regs env) =
  (InstructionPointer pc :: (ReturnAddress <$> ras), Finished).
Proof. apply (iter_chain (H1:=x86_64_records_laws read_fn) mem (mkUnwinderX86_64 s)). Qed.

(** C31: the same on aarch64, where return addresses in memory may be signed: the
    walk yields the code addresses of the chain, with the signatures removed by
    the registers' mask. *)
Theorem aarch64_frame_pointer_walk `{Profile} (L : LibunwindApi) `{!LibunwindLaws L} {ReadT}
    (read_fn : ReadT → Z → option Z * ReadT) (mem : Z → option Z) (s : ModuleSet)
    (pc : Z) (regs : UnwindRegsAarch64) (env : Env ReadT) (ras : list Z) :
  reads_memory read_fn mem → fallback_only_set s (env_heap env) →
  frame_chain (strip_ptr_auth (lr_mask regs)) mem (Aarch64.sp regs) (fp regs) ras →
  drain (S (S (length ras)))
    (iter_frames (H:=aarch64_unwinder read_fn) (mkUnwinderAarch64 s) pc regs env) =
  (InstructionPointer pc :: (ReturnAddress <$> ras), Finished).
Proof.
  intros Hm Hs. apply (iter_chain (H1:=aarch64_records_laws read_fn) mem (mkUnwinderAarch64 s));
    done.
Qed.

(** C29: walking by frame pointers always terminates, for any memory contents and
    any (even changing or failing) stack reader: the frame pointer strictly
    grows, so within [2^64 - bp] frames the iteration ends or reports an error. *)
Theorem frame_pointer_walk_terminates `{Profile} (L : LibunwindApi) `{!LibunwindLaws L} {ReadT}
    (read_fn : ReadT → Z → option Z * ReadT) (s : ModuleSet) (pc : Z)
    (regs : UnwindRegsX86_64) (env : Env ReadT) :
  fallback_only_set s (env_heap env) → regs_ok regs →
  let r := drain (S (fuel_of (bp regs)))
             (iter_frames (H:=x86_64_unwinder read_fn) (mkUnwinderX86_64 s) pc regs env) in
  ended r.2 ∧ (length r.1 ≤ fuel_of (bp regs))%nat.
Proof. apply (iter_ends (H1:=x86_64_records_laws read_fn) (mkUnwinderX86_64 s)). Qed.

(** The aarch64 walk terminates in the same way. *)
Theorem aarch64_walk_terminates `{Profile} (L : LibunwindApi) `{!LibunwindLaws L} {ReadT}
    (read_fn : ReadT → Z → option Z * ReadT) (s : ModuleSet) (pc : Z)
    (regs : UnwindRegsAarch64) (env : Env ReadT) :
  fallback_only_set s (env_heap env) →
  let r := drain (S (fuel_of (fp regs)))
             (iter_frames (H:=aarch64_unwinder read_fn) (mkUnwinderAarch64 s) pc regs env) in
  ended r.2 ∧ (length r.1 ≤ fuel_of (fp regs))%nat.
Proof.
  intros Hs. by apply (iter_ends (H1:=aarch64_records_laws read_fn) (mkUnwinderAarch64 s)).
Qed.

(** *** Witnesses: two frame records, plain and signed *)
#[local] Instance walk_profile : Profile := true.
#[local] Instance walk_libunwind : LibunwindApi := toy_libunwind 16 7 6.
#[local] Instance walk_laws : LibunwindLaws walk_libunwind := toy_libunwind_laws _ _ _.

Lemma walk_chain : fp_chain walk_mem (X86_64.sp walk_regs) (bp walk_regs) [0x1234; 0x1567].
Proof.
  change (fp_chain walk_mem 0x7ff0 0x8000 [0x1234; 0x1567]).
  apply (chain_frame (λ w, w) _ _ _ 0x8100 0x1234); [lia|unfold u64_max; lia|done|by right|done|done|].
  apply (chain_frame (λ w, w) _ _ _ 0 0x1567); [lia|unfold u64_max; lia|done|by left|done|done|].
  apply chain_end.
Qed.

Lemma frame_pointer_walk_witness :
  drain 4 (iter_frames (H:=x86_64_unwinder walk_read) (mkUnwinderX86_64 walk_set) 0x1004
             walk_regs walk_env) =
  ([InstructionPointer 0x1004; ReturnAddress 0x1234; ReturnAddress 0x1567], Finished).
Proof.
  apply (frame_pointer_walk walk_libunwind walk_read walk_mem walk_set 0x1004 walk_regs walk_env
           [0x1234; 0x1567]).
  - done.
  - apply walk_fallback_only.
  - done.
  - apply walk_chain.
Defined.

Lemma frame_pointer_walk_terminates_witness :
  let r := drain (S (fuel_of (bp walk_regs)))
             (iter_frames (H:=x86_64_unwinder walk_read) (mkUnwinderX86_64 walk_set) 0x1004
                walk_regs walk_env) in
  ended r.2 ∧ (length r.1 ≤ fuel_of (bp walk_regs))%nat.
Proof.
  exact (frame_pointer_walk_terminates walk_libunwind walk_read walk_set 0x1004 walk_regs walk_env
           walk_fallback_only eq_refl).
Defined.

(** Return addresses signed above bit 48. *)
Definition signed_mem (a : Z) : option Z :=
  if a =? 0x8000 then Some 0x8100 else if a =? 0x8008 then Some 0x2a000000001234
  else if a =? 0x8100 then Some 0 else if a =? 0x8108 then Some 0x11000000001567 else None.
Definition signed_read (u : ()) (a : Z) : option Z * () := (signed_mem a, u).
Definition signed_regs : UnwindRegsAarch64 :=
  new_with_ptr_auth_mask (from_max_known_address 0x2000) 0x1004 0x7ff0 0x8000.

Lemma signed_chain :
  frame_chain (strip_ptr_auth (lr_mask signed_regs)) signed_mem (Aarch64.sp signed_regs)
    (fp signed_regs) [0x1234; 0x1567].
Proof.
  set (code := strip_ptr_auth (lr_mask signed_regs)).
  change (frame_chain code signed_mem 0x7ff0 0x8000
            [code 0x2a000000001234; code 0x11000000001567]).
  apply (chain_frame _ _ 0x7ff0 0x8000 0x8100 0x2a000000001234);
    [lia|unfold u64_max; lia|done|by right|done|by vm_compute|].
  apply (chain_frame _ _ _ 0x8100 0 0x11000000001567);
    [lia|unfold u64_max; lia|done|by left|done|by vm_compute|].
  apply chain_end.
Qed.

Lemma aarch64_frame_pointer_walk_witness :
  drain 4 (iter_frames (H:=aarch64_unwinder signed_read) (mkUnwinderAarch64 walk_set) 0x1004
             signed_regs walk_env) =
  ([InstructionPointer 0x1004; ReturnAddress 0x1234; ReturnAddress 0x1567], Finished).
Proof.
  apply (aarch64_frame_pointer_walk walk_libunwind signed_read signed_mem walk_set 0x1004
           signed_regs walk_env [0x1234; 0x1567]).
  - done.
  - apply walk_fallback_only.
  - apply signed_chain.
Defined.

Lemma aarch64_walk_terminates_witness :
  let r := drain (S (fuel_of (fp signed_regs)))
             (iter_frames (H:=aarch64_unwinder signed_read) (mkUnwinderAarch64 walk_set) 0x1004
                signed_regs walk_env) in
  ended r.2 ∧ (length r.1 ≤ fuel_of (fp signed_regs))%nat.
Proof.
  exact (aarch64_walk_terminates walk_libunwind signed_read walk_set 0x1004 signed_regs walk_env
           walk_fallback_only).
Defined.
