(* ===== verification/Session.v ===== *)
(** * A client's session with the library

    The public API as a transition system: a client builds modules with the
    constructors of [src/src/module.rs], creates, clones and drops unwinders, adds and
    removes modules, and unwinds frames, in any order and with any number of
    unwinders sharing modules and their caches.  The theorems need no hypothesis on
    caches: that they are well-formed is an invariant of every session.  The
    condition that a registry's sections end below the top of the address space
    is needed only to unwind safely ([ModuleSet::lookup_local] is unsound there)
    and is a premise of that theorem, not of the session. *)

From stdpp Require Import gmap.
From S2P Require Import Prelude.
From S2P Require Import BTree.
From S2P Require Import Ffi.
From S2P Require Import Errors.
From S2P Require Import FrameAddress.
From S2P Require Import Modules.
From S2P Require Import ModuleSet.
From S2P Require Import Callbacks.
From S2P Require Import AddressSpace.
From S2P Require Import Frames.
From S2P Require X86_64.
From S2P Require Aarch64.
From S2P Require Import HeapFrame.
From S2P Require Import Iterator.

(** ** The native unwinder

    [UnwinderNative], [UnwindRegsNative]: the unwinder of the target
    architecture, as the API of its values. *)
Class NativeUnwinder (U : Type) : Type := {
  NativeRegs : Type;
  modules_of : U → ModuleSet;
  unwinder_new : U;
  unwinder_clone : U → U;
  unwinder_add : U → ModuleData → U;
  unwinder_remove : U → Z → U;
  native_unwind_frame {ReadT : Type} :
    (ReadT → Z → option Z * ReadT) → U → FrameAddress → SM (NativeRegs * Env ReadT) Error (option Z);
  native_regs_ok : NativeRegs → Prop;
  native_lookup_ip : NativeRegs → FrameAddress → Z;
}.

(** What both architectures promise: the registry operations are those of
    [ModuleSet], and a step touches no cache but those of its registry and keeps
    them well-formed, whatever its outcome. *)
Class NativeUnwinderLaws (U : Type) `{Profile} `{NativeUnwinder U} : Prop := {
  modules_of_new : modules_of unwinder_new = new;
  modules_of_clone u : modules_of (unwinder_clone u) = clone (modules_of u);
  modules_of_add u m : modules_of (unwinder_add u m) = add (modules_of u) m;
  modules_of_remove u k : modules_of (unwinder_remove u k) = remove (modules_of u) k;
  native_unwind_moves {ReadT} (read_fn : ReadT → Z → option Z * ReadT) u frame regs env :
    set_wf (modules_of u) →
    heap_moves (modules_of u) (env_heap env)
      (env_heap (native_unwind_frame read_fn u frame (regs, env)).2.2);
}.

(** With a lawful libunwind, a step on a well-formed registry is safe. *)
Class NativeUnwinderSafe (U : Type) `{Profile} `{LibunwindApi} `{NativeUnwinder U} : Prop := {
  native_unwind_post {ReadT} (read_fn : ReadT → Z → option Z * ReadT) u frame regs env :
    set_wf (modules_of u) → below_top (modules_of u) → native_regs_ok regs →
    caches_ok (modules_of u) (env_heap env) →
    match native_unwind_frame read_fn u frame (regs, env) with
    | (Ok None, (regs', _)) | (Err _, (regs', _)) => regs' = regs
    | (Ok (Some a), (regs', _)) => a ≠ 0 ∧ native_regs_ok regs'
    | (Panic, _) => step_panics (modules_of u) (native_lookup_ip regs frame) (env_static env)
    | (UB, _) | (NoFuel, _) => False
    end;
}.

Section natives.
Context `{Profile} {L : LibunwindApi}.

Definition x86_64_native : NativeUnwinder UnwinderX86_64 := {|
  NativeRegs := X86_64.UnwindRegsX86_64;
  modules_of := x86_modules;
  unwinder_new := UnwinderX86_64_new;
  unwinder_clone := UnwinderX86_64_clone;
  unwinder_add := λ u m, mkUnwinderX86_64 (add (x86_modules u) m);
  unwinder_remove := λ u k, mkUnwinderX86_64 (remove (x86_modules u) k);
  native_unwind_frame := λ ReadT read_fn u, X86_64.unwind_frame read_fn (x86_modules u);
  native_regs_ok := X86_64.regs_ok;
  native_lookup_ip := λ _ frame, address_for_lookup frame;
|}.

Definition aarch64_native : NativeUnwinder UnwinderAarch64 := {|
  NativeRegs := Aarch64.UnwindRegsAarch64;
  modules_of := a64_modules;
  unwinder_new := UnwinderAarch64_new;
  unwinder_clone := UnwinderAarch64_clone;
  unwinder_add := λ u m, mkUnwinderAarch64 (add (a64_modules u) m);
  unwinder_remove := λ u k, mkUnwinderAarch64 (remove (a64_modules u) k);
  native_unwind_frame := λ ReadT read_fn u, Aarch64.unwind_frame read_fn (a64_modules u);
  native_regs_ok := λ _, True;
  native_lookup_ip := λ regs frame,
    Aarch64.strip_ptr_auth (Aarch64.lr_mask regs) (address_for_lookup frame);
|}.

(** A statement about the unwinder of either target. *)
Definition on_both (P : ∀ U, NativeUnwinder U → Prop) : Prop :=
  P UnwinderX86_64 x86_64_native ∧ P UnwinderAarch64 aarch64_native.

Lemma x86_64_native_laws : NativeUnwinderLaws (H0:=x86_64_native) UnwinderX86_64.
Proof. split; try done. intros. by apply x86_64_unwind_moves. Qed.

Lemma aarch64_native_laws : NativeUnwinderLaws (H0:=aarch64_native) UnwinderAarch64.
Proof. split; try done. intros. by apply aarch64_unwind_moves. Qed.

Context `{!LibunwindLaws L}.

Lemma x86_64_native_safe : NativeUnwinderSafe (H1:=x86_64_native) UnwinderX86_64.
Proof.
  split. cbn [native_unwind_frame modules_of native_regs_ok NativeRegs x86_64_native].
  intros ReadT read_fn u frame regs env Hwf Ht Hr Hc.
  pose proof (X86_64.unwind_frame_post read_fn (x86_modules u) frame regs env Hwf Ht Hr Hc) as Hp.
  destruct (X86_64.unwind_frame _ _ _ _) as [[[a|]|e| | |] [regs' env']]; try done.
  - destruct Hp as (? & ? & (sp' & bp' & ->) & _). split; [done|]. by apply X86_64.restore_ok.
  - by destruct Hp.
  - by destruct Hp.
Qed.

Lemma aarch64_native_safe : NativeUnwinderSafe (H1:=aarch64_native) UnwinderAarch64.
Proof.
  split. cbn [native_unwind_frame modules_of native_regs_ok NativeRegs aarch64_native].
  intros ReadT read_fn u frame regs env Hwf Ht _ Hc.
  pose proof (Aarch64.a64_unwind_frame_post read_fn (a64_modules u) frame regs env Hwf Ht Hc) as Hp.
  destruct (Aarch64.unwind_frame _ _ _ _) as [[[a|]|e| | |] [regs' env']]; try done.
  - by destruct Hp as (? & ? & _).
  - by destruct Hp.
  - by destruct Hp.
Qed.
End natives.

(** ** Building a module

    Every public constructor; section providers give bytes. *)
Inductive built `{Profile} (h : Heap) (m : ModuleData) (h' : Heap) : Prop :=
  | built_new {T} `{ModuleSectionInfo T} name range base (info : T) :
      parts_ok (module_parts_from_section_info name range base info).1 →
      Modules.new (E:=Empty_set) name range base info h = Ok (m, h') → built h m h'
  | built_try {T} `{ModuleSectionInfo T} name range base (info : T) :
      parts_ok (module_parts_from_section_info name range base info).1 →
      try_from_section_info name range base info h = Ok (m, h') → built h m h'
  | built_dwarf name range base sections :
      parts_ok (module_parts_from_section_info name range base sections).1 →
      from_dwarf_sections name range base sections h = Ok (m, h') → built h m h'
  | built_fallback name range base :
      fallback_only (E:=Empty_set) name range base h = Ok (m, h') → built h m h'
  | built_mmap {ioe obe File : Type} open map_file object_parse path range base :
      (∀ f bytes, map_file f = inr bytes → bytes_ok bytes) →
      from_mmap_file (io_error:=ioe) (object_error:=obe) File open map_file object_parse
        path range base h = Ok (m, h') → built h m h'
  | built_try_mmap {ioe obe File : Type} open map_file object_parse path range base :
      (∀ f bytes, map_file f = inr bytes → bytes_ok bytes) →
      try_from_mmap_file (io_error:=ioe) (object_error:=obe) File open map_file object_parse
        path range base h = Ok (m, h') → built h m h'.

(** ** Sessions *)
Section session.
Context `{Profile} {U : Type} `{NativeUnwinder U}.

(** The caches and the address-space static of the process, the module handles
    and the unwinders the client holds. *)
Record Session : Type := mkSession {
  s_heap : Heap;
  s_static : option Z;
  s_modules : list ModuleData;
  s_unwinders : list U;
}.

Definition session_init : Session := mkSession heap_init None [] [].

(** The process goes on after a result, and after a panic the client catches;
    nothing is said of a panic that aborts instead. *)
Definition continues {E A} (r : outcome E A) : Prop := r ≠ UB ∧ r ≠ NoFuel.

(** One API call, successful or not. *)
Inductive session_step : Session → Session → Prop :=
  | step_build S m h' :
      built (s_heap S) m h' →
      session_step S (mkSession h' (s_static S) (m :: s_modules S) (s_unwinders S))
  | step_drop_module S i :
      session_step S (mkSession (s_heap S) (s_static S) (delete i (s_modules S)) (s_unwinders S))
  | step_new S :
      session_step S (mkSession (s_heap S) (s_static S) (s_modules S)
                        (unwinder_new :: s_unwinders S))
  | step_clone S i u :
      s_unwinders S !! i = Some u →
      session_step S (mkSession (s_heap S) (s_static S) (s_modules S)
                        (unwinder_clone u :: s_unwinders S))
  | step_drop S i :
      session_step S (mkSession (s_heap S) (s_static S) (s_modules S) (delete i (s_unwinders S)))
  | step_add S i u m :
      s_unwinders S !! i = Some u → m ∈ s_modules S →
      session_step S (mkSession (s_heap S) (s_static S) (s_modules S)
                        (<[i := unwinder_add u m]> (s_unwinders S)))
  | step_remove S i u k :
      s_unwinders S !! i = Some u →
      session_step S (mkSession (s_heap S) (s_static S) (s_modules S)
                        (<[i := unwinder_remove u k]> (s_unwinders S)))
  | step_unwind S i u {ReadT} (read_fn : ReadT → Z → option Z * ReadT) frame regs rs r regs' env' :
      s_unwinders S !! i = Some u → native_regs_ok regs →
      native_unwind_frame read_fn u frame (regs, mkEnv rs (s_heap S) (s_static S))
        = (r, (regs', env')) →
      continues r →
      session_step S (mkSession (env_heap env') (env_static env') (s_modules S) (s_unwinders S)).

Inductive session_reachable : Session → Prop :=
  | session_start : session_reachable session_init
  | session_next S S' : session_reachable S → session_step S S' → session_reachable S'.
End session.
Arguments Session U : clear implicits.

(** ** What every constructor establishes *)
Section built.
Context `{Profile}.

Lemma mos_data_ok file map name b :
  bytes_ok map → (mos_section_data (mkMmapObjectSections file map) name).1 = Some b → bytes_ok b.
Proof.
  intros Hm. unfold mos_section_data. simpl.
  destruct (section_by_name_bytes file name) as [s|]; [|done]. simpl.
  destruct (obj_file_range s) as [[offset size]|]; [|done]. simpl.
  destruct (from_file_range map offset size) as [mb|] eqn:Hmb; [|done]. simpl.
  assert (Modules.mmap mb = map) as Hmap.
  { revert Hmb. unfold from_file_range, MmapBytes_new.
    destruct (usize_try_from offset); [|done]. destruct (usize_try_from size); [|done]. simpl.
    destruct (checked_add _ _); [|done]. simpl. destruct (_ && _); [|done]. by intros [= <-]. }
  unfold mmap_deref, slice_range. rewrite Hmap.
  destruct (slice_get map _ _) as [b'|] eqn:Hs; [|done]. simpl. intros [= <-].
  by eapply bytes_ok_slice.
Qed.

(** Queries leave the object file as it is. *)
Lemma mos_section_range i a b : (section_range (T:=MmapObjectSections) i a b).2 = i.
Proof.
  unfold section_range. simpl. unfold mos_section_svma_range.
  by destruct (_ <$> section_by_name_bytes (mos_file i) a).
Qed.

Lemma mos_section_data_or i a b d :
  (section_data_or (T:=MmapObjectSections) i a b).2 = i ∧
  (bytes_ok (mos_mmap i) → (section_data_or i a b).1 = Some d → bytes_ok d).
Proof.
  destruct i as [file map]. unfold section_data_or.
  pose proof (mos_data_ok file map a) as Ha. pose proof (mos_data_ok file map b) as Hb.
  change (section_data (mkMmapObjectSections file map)) with
    (mos_section_data (mkMmapObjectSections file map)).
  destruct (mos_section_data _ a) as [oa ia] eqn:Hea. injection Hea as _ <-.
  change (section_data (mkMmapObjectSections file map)) with
    (mos_section_data (mkMmapObjectSections file map)).
  destruct oa as [da|]; (split; [done|]); intros Hm Hd; [|by apply Hb].
  apply Ha; [done|]. by injection Hd as <-.
Qed.

Lemma mos_parts_ok name range base i :
  bytes_ok (mos_mmap i) → parts_ok (module_parts_from_section_info name range base i).1.
Proof.
  intros Hm. unfold module_parts_from_section_info.
  pose proof (mos_section_range i ".text" "__text") as H1. destruct (section_range i _ _) as [? i1].
  simpl in H1. subst i1.
  pose proof (mos_section_range i ".eh_frame" "__eh_frame") as H2.
  destruct (section_range i _ _) as [? i2]. simpl in H2. subst i2.
  pose proof (λ d, mos_section_data_or i ".eh_frame" "__eh_frame" d) as H3.
  destruct (section_data_or i _ _) as [ef i3]. destruct (H3 []) as [Hi3 _]. simpl in Hi3. subst i3.
  pose proof (mos_section_range i ".eh_frame_hdr" "__eh_frame_hdr") as H4.
  destruct (section_range i _ _) as [? i4]. simpl in H4. subst i4.
  pose proof (λ d, mos_section_data_or i ".eh_frame_hdr" "__eh_frame_hdr" d) as H5.
  destruct (section_data_or i _ _) as [hd i5]. split; intros b Hb; [by eapply H3|by eapply H5].
Qed.

Lemma from_parts_built {E} parts h m h' :
  parts_ok parts → from_parts (E:=E) parts h = Ok (m, h') →
  module_ok m ∧ function_cache m = next_loc h ∧
  cells h' = <[next_loc h := mkCacheCell false []]> (cells h) ∧ next_loc h' = N.succ (next_loc h).
Proof.
  intros Hp Hf. destruct (from_parts_ok (E:=E) parts h Hp)
    as (m' & h'' & Hf' & ? & _ & _ & _ & ? & ? & ?). rewrite Hf' in Hf. by simplify_eq.
Qed.

Lemma try_from_built {T} `{ModuleSectionInfo T} name range base (info : T) h m h' :
  try_from_section_info name range base info h = Ok (m, h') →
  from_parts (E:=ModuleError) (module_parts_from_section_info name range base info).1 h
    = Ok (m, h').
Proof.
  unfold try_from_section_info. cbv zeta. by destruct (validate_module_parts _).
Qed.

(** Whatever the constructor, the module is well-formed and owns a fresh, empty
    cache. *)
Lemma built_ok h m h' :
  built h m h' →
  module_ok m ∧ function_cache m = next_loc h ∧
  cells h' = <[next_loc h := mkCacheCell false []]> (cells h) ∧ next_loc h' = N.succ (next_loc h).
Proof.
  intros [T ? name range base info Hp Hb|T ? name range base info Hp Hb
    |name range base sections Hp Hb|name range base Hb
    |? ? File open map_file op path range base Hm Hb|? ? File open map_file op path range base Hm Hb].
  - by eapply from_parts_built.
  - eapply from_parts_built; [exact Hp|by apply try_from_built].
  - rewrite <- dwarf_sections_same in Hb.
    eapply from_parts_built; [exact Hp|by apply try_from_built].
  - unfold fallback_only in Hb. eapply from_parts_built; [|exact Hb]. by split.
  - unfold from_mmap_file, mmap_file in Hb. destruct (open path) as [|f]; [done|].
    destruct (map_file f) as [|bytes] eqn:Hmf; [done|]. run in Hb.
    destruct (op bytes) as [|file]; [done|].
    unfold Modules.new in Hb. eapply from_parts_built; [|exact Hb]. apply mos_parts_ok.
    by eapply Hm.
  - unfold try_from_mmap_file, mmap_file in Hb. destruct (open path) as [|f]; [done|].
    destruct (map_file f) as [|bytes] eqn:Hmf; [done|]. run in Hb.
    destruct (op bytes) as [|file]; [done|]. apply map_err_ok in Hb.
    eapply from_parts_built; [|by apply try_from_built]. apply mos_parts_ok. by eapply Hm.
Qed.
End built.

(** ** What registry operations do to the set of modules *)
Lemma registered_add_inv s m m' : registered (add s m) m' → m' = m ∨ registered s m'.
Proof.
  unfold registered. simpl. destruct (decide (start (avma_range m) = start (avma_range m'))) as [->|].
  - rewrite bt_get_insert_eq. intros [= ->]. by left.
  - rewrite bt_get_insert_ne by done. by right.
Qed.

Lemma remove_subset s k m : set_wf s → registered (remove s k) m → registered s m.
Proof.
  intros Hwf Hm. destruct (bt_get k (modules s)) as [d|] eqn:Hk.
  - by apply (registered_remove s k d m Hwf Hk).
  - revert Hm. unfold remove. by rewrite Hk.
Qed.

(** A registry rebuilt from modules holds only them. *)
Lemma add_all_registered l s m : registered (foldl add s l) m → registered s m ∨ m ∈ l.
Proof.
  revert s. induction l as [|m' l IH]; intros s; simpl; [by left|].
  intros [[->|?]%registered_add_inv|?]%IH; set_solver.
Qed.

Lemma clone_subset s m : set_wf s → registered (clone s) m → registered s m.
Proof. intros Hwf [?|?]%add_all_registered; [done|by apply values_registered]. Qed.

(** ** The invariant of a session *)
Section invariant.
Context `{Profile} {U : Type} `{NU : NativeUnwinder U} `{!NativeUnwinderLaws U}.

(** A module some handle or registry keeps alive. *)
Definition alive (S : Session U) (m : ModuleData) : Prop :=
  m ∈ s_modules S ∨ ∃ u, u ∈ s_unwinders S ∧ registered (modules_of u) m.

Record session_inv (S : Session U) : Prop := {
  inv_registries u : u ∈ s_unwinders S → reachable (modules_of u);
  inv_alive m : alive S m →
    module_ok m ∧ (function_cache m < next_loc (s_heap S))%N ∧ cache_ok m (s_heap S);
  inv_caches m1 m2 : alive S m1 → alive S m2 → function_cache m1 = function_cache m2 → m1 = m2;
}.

(** Fewer or the same modules alive, same heap: only the registries matter. *)
Lemma session_inv_sub S S' :
  session_inv S → s_heap S' = s_heap S → (∀ m, alive S' m → alive S m) →
  (∀ u, u ∈ s_unwinders S' → reachable (modules_of u)) → session_inv S'.
Proof.
  intros [Hr Ha Hi] Hh Hs Hr'. split; [done| |]; rewrite ?Hh; auto.
Qed.

Lemma session_caches_ok S u :
  session_inv S → u ∈ s_unwinders S → caches_ok (modules_of u) (s_heap S).
Proof.
  intros [_ Ha Hi] Hu. split.
  - intros m1 m2 H1 H2. apply Hi; right; by exists u.
  - intros m Hm. apply Ha. right. by exists u.
Qed.

Lemma session_init_inv : session_inv (session_init (U:=U)).
Proof.
  assert (∀ m, ¬ alive session_init m) as Hn.
  { intros m [Hin|(u & Hin & _)]; by apply elem_of_nil in Hin. }
  split; [intros u Hu; by apply elem_of_nil in Hu|intros m Hm; by destruct (Hn m)|].
  intros m1 m2 H1. by destruct (Hn m1).
Qed.

Lemma build_inv S m h' :
  session_inv S → built (s_heap S) m h' →
  session_inv (mkSession h' (s_static S) (m :: s_modules S) (s_unwinders S)).
Proof.
  intros [Hr Ha Hi] Hb. destruct (built_ok _ _ _ Hb) as (Hok & Hloc & Hc & Hnext).
  assert (∀ m', alive (mkSession h' (s_static S) (m :: s_modules S) (s_unwinders S)) m' →
            m' = m ∨ alive S m') as Hal.
  { intros m' [[->|?]%elem_of_cons|?]; [by left|right; by left|right; by right]. }
  split; simpl; [exact Hr| |].
  - intros m' [->|Hm']%Hal.
    + rewrite Hloc, Hnext. split_and!; [done|lia|]. exists []. split; [|by split].
      unfold lock. by rewrite Hc, Hloc, lookup_insert_eq.
    + destruct (Ha m' Hm') as (? & Hlt & cache & Hl & Hcm). rewrite Hnext.
      split_and!; [done|lia|]. exists cache. split; [|done].
      unfold lock in *. rewrite Hc, lookup_insert_ne; [done|lia].
  - intros m1 m2 [->|H1]%Hal [->|H2]%Hal Heq; [done| | |by apply Hi].
    + destruct (Ha m2 H2) as (_ & ? & _). lia.
    + destruct (Ha m1 H1) as (_ & ? & _). lia.
Qed.


(** Through whatever registry a frame is unwound and however it ends, every
    cache stays well-formed. *)
Lemma unwind_inv S u {ReadT} (read_fn : ReadT → Z → option Z * ReadT) frame regs rs r regs' env' :
  session_inv S → u ∈ s_unwinders S →
  native_unwind_frame read_fn u frame (regs, mkEnv rs (s_heap S) (s_static S))
    = (r, (regs', env')) →
  session_inv (mkSession (env_heap env') (env_static env') (s_modules S) (s_unwinders S)).
Proof.
  intros HS Hu Hrun. pose proof (session_caches_ok S u HS Hu) as Hc.
  destruct HS as [Hr Ha Hi].
  pose proof (native_unwind_moves read_fn u frame regs (mkEnv rs (s_heap S) (s_static S))
    (reachable_wf _ (Hr u Hu))) as [Ho Hk].
  rewrite Hrun in Ho, Hk. simpl in Ho, Hk. destruct (Hk Hc) as [_ Hc'].
  split; [exact Hr| |exact Hi]. simpl. intros m Hm.
  destruct (Ha m Hm) as (? & ? & cache & Hl & Hcm). split_and!; [done| |].
  { by rewrite (proj1 Ho). }
  destruct (decide (registered (modules_of u) m)) as [Hreg|Hreg]; [by apply Hc'|].
  exists cache. split; [|done]. rewrite (only_caches_lock _ _ _ m Ho); [done|].
  intros m' Hm' Heq. apply Hreg. rewrite <- (Hi m' m); [done| |done|done]. right. by exists u.
Qed.

Lemma alive_insert S i u u' m :
  s_unwinders S !! i = Some u →
  (∀ m, registered (modules_of u') m → alive S m) →
  alive (mkSession (s_heap S) (s_static S) (s_modules S) (<[i := u']> (s_unwinders S))) m →
  alive S m.
Proof.
  intros Hi Hu' [?|(v & Hv & Hm)]; [by left|]. simpl in Hv.
  apply list_elem_of_lookup in Hv as [j Hj]. destruct (decide (i = j)) as [->|Hne].
  - rewrite list_lookup_insert_eq in Hj by by eapply lookup_lt_Some.
    injection Hj as <-. by apply Hu'.
  - rewrite list_lookup_insert_ne in Hj by done. right. exists v.
    split; [by eapply list_elem_of_lookup_2|done].
Qed.

Lemma registries_insert (us : list U) i u' v :
  (∀ u, u ∈ us → reachable (modules_of u)) → reachable (modules_of u') →
  v ∈ <[i := u']> us → reachable (modules_of v).
Proof.
  intros Hr Hu' [j Hj]%list_elem_of_lookup. destruct (decide (i = j)) as [->|Hne].
  - destruct (decide (j < length us)%nat).
    + rewrite list_lookup_insert_eq in Hj by done. by injection Hj as <-.
    + rewrite list_insert_ge in Hj by lia. eapply Hr, list_elem_of_lookup_2, Hj.
  - rewrite list_lookup_insert_ne in Hj by done. eapply Hr, list_elem_of_lookup_2, Hj.
Qed.

Lemma session_step_inv S S' : session_inv S → session_step S S' → session_inv S'.
Proof.
  intros HS Hstep. pose proof HS as [Hr Ha Hi].
  destruct Hstep as [S m h' Hb|S i|S|S i u Hu|S i|S i u m Hu Hm|S i u k Hu
                    |S i u ReadT read_fn frame regs rs r regs' env' Hu Hregs Hrun _].
  - by apply build_inv.
  - eapply session_inv_sub; [exact HS|done| |exact Hr].
    intros m [?%list_elem_of_delete_inv|?]; [by left|by right].
  - eapply session_inv_sub; [exact HS|done|..].
    + intros m [?|(v & [->|?]%elem_of_cons & Hm)]; [by left| |right; by exists v].
      by rewrite modules_of_new in Hm.
    + intros v [->|?]%elem_of_cons; [|by apply Hr]. rewrite modules_of_new. apply reach_new.
  - apply list_elem_of_lookup_2 in Hu.
    eapply session_inv_sub; [exact HS|done|..].
    + intros m [?|(v & [->|?]%elem_of_cons & Hm)]; [by left| |right; by exists v].
      rewrite modules_of_clone in Hm. right. exists u. split; [done|].
      eapply clone_subset; [by apply reachable_wf, Hr|done].
    + intros v [->|?]%elem_of_cons; [|by apply Hr]. rewrite modules_of_clone.
      by apply reach_clone, Hr.
  - eapply session_inv_sub; [exact HS|done|..].
    + intros m [?|(v & ?%list_elem_of_delete_inv & Hm)]; [by left|right; by exists v].
    + intros v ?%list_elem_of_delete_inv. by apply Hr.
  - pose proof (list_elem_of_lookup_2 _ _ _ Hu) as Hin.
    destruct (Ha m (or_introl Hm)) as (Hok & _). eapply session_inv_sub; [exact HS|done|..].
    + intros m'. apply (alive_insert S i u); [done|]. intros m''. rewrite modules_of_add.
      intros [->|?]%registered_add_inv; [by left|right; by exists u].
    + intros v. simpl. apply registries_insert; [exact Hr|]. rewrite modules_of_add.
      by apply reach_add; [apply Hr|].
  - pose proof (list_elem_of_lookup_2 _ _ _ Hu) as Hin. eapply session_inv_sub; [exact HS|done|..].
    + intros m'. apply (alive_insert S i u); [done|]. intros m''. rewrite modules_of_remove.
      intros ?%remove_subset; [|by apply reachable_wf, Hr]. right. by exists u.
    + intros v. simpl. apply registries_insert; [exact Hr|]. rewrite modules_of_remove.
      by apply reach_remove, Hr.
  - eapply unwind_inv; [exact HS|by eapply list_elem_of_lookup_2|exact Hrun].
Qed.

Lemma session_reachable_inv S : session_reachable S → session_inv S.
Proof. induction 1; [apply session_init_inv|by eapply session_step_inv]. Qed.
End invariant.

(** ** Both targets *)
Section both.
Context `{Profile} {U : Type} `{NU : NativeUnwinder U} `{!NativeUnwinderLaws U}.

(** What every session satisfies. *)
Lemma session_good S :
  session_reachable S →
  (∀ u, u ∈ s_unwinders S → reachable (modules_of u) ∧ caches_ok (modules_of u) (s_heap S)) ∧
  (∀ m, alive S m → module_ok m ∧ cache_ok m (s_heap S)) ∧
  (∀ m1 m2, alive S m1 → alive S m2 → function_cache m1 = function_cache m2 → m1 = m2).
Proof.
  intros HS%session_reachable_inv. split_and!.
  - intros u Hu. split; [by apply (inv_registries S HS)|by apply session_caches_ok].
  - intros m Hm. by destruct (inv_alive S HS m Hm) as (? & _ & ?).
  - apply (inv_caches S HS).
Qed.

Lemma session_wf S u : session_reachable S → u ∈ s_unwinders S → set_wf (modules_of u).
Proof. intros HS%session_reachable_inv Hu. by apply reachable_wf, (inv_registries S HS). Qed.

Lemma session_caches S u :
  session_reachable S → u ∈ s_unwinders S → caches_ok (modules_of u) (s_heap S).
Proof. intros HS%session_reachable_inv. by apply session_caches_ok. Qed.

Context `{LibunwindApi} `{!NativeUnwinderSafe U}.

Lemma session_unwind_good S i u {ReadT} (read_fn : ReadT → Z → option Z * ReadT) rs frame regs :
  session_reachable S → s_unwinders S !! i = Some u → below_top (modules_of u) →
  native_regs_ok regs →
  match native_unwind_frame read_fn u frame (regs, mkEnv rs (s_heap S) (s_static S)) with
  | (UB, _) | (NoFuel, _) => False
  | (r, (regs', env')) =>
      session_reachable
        (mkSession (env_heap env') (env_static env') (s_modules S) (s_unwinders S)) ∧
      match r with
      | Ok (Some a) => a ≠ 0 ∧ native_regs_ok regs'
      | Panic => step_panics (modules_of u) (native_lookup_ip regs frame) (s_static S)
      | _ => regs' = regs
      end
  end.
Proof.
  intros HS Hi Htop Hregs. pose proof (session_reachable_inv S HS) as Hinv.
  pose proof (list_elem_of_lookup_2 _ _ _ Hi) as Hu.
  pose proof (native_unwind_post read_fn u frame regs (mkEnv rs (s_heap S) (s_static S))
    (reachable_wf _ (inv_registries S Hinv u Hu)) Htop Hregs (session_caches_ok S u Hinv Hu)) as Hp.
  destruct (native_unwind_frame read_fn u frame _) as [r [regs' env']] eqn:Hrun.
  pose proof (λ Hr, session_next _ _ HS (step_unwind S i u read_fn frame regs rs r regs' env'
    Hi Hregs Hrun Hr)) as Hnext.
  destruct r as [[a|]|e| | |]; try done; (split; [by apply Hnext|done]).
Qed.
End both.

(** ** Properties *)

(** C11: on either target, in every session, whatever API calls were made in
    whatever order with whatever arguments (modules built by any constructor
    from sections of any size at any address, unwinders created, cloned and
    dropped, modules added and removed, frames unwound with any libunwind, a
    caught panic included): each unwinder's registry is one its operations can
    build, with well-formed caches; every live module is well-formed with a
    well-formed cache; and no two live modules share a cache, although clones of
    modules and unwinders share theirs. *)
Theorem session_invariant `{Profile} (L : LibunwindApi) :
  on_both (λ U NU, ∀ S : Session U, session_reachable S →
    (∀ u, u ∈ s_unwinders S → reachable (modules_of u) ∧ caches_ok (modules_of u) (s_heap S)) ∧
    (∀ m, alive S m → module_ok m ∧ cache_ok m (s_heap S)) ∧
    (∀ m1 m2, alive S m1 → alive S m2 → function_cache m1 = function_cache m2 → m1 = m2)).
Proof.
  split; intros S.
  - apply (session_good (NU:=x86_64_native) (NativeUnwinderLaws0:=x86_64_native_laws)).
  - apply (session_good (NU:=aarch64_native) (NativeUnwinderLaws0:=aarch64_native_laws)).
Qed.

(** C2: the API is safe as a whole on either target: in every session, unwinding
    a frame with any unwinder the client holds whose registered sections end
    below the top of the address space, any registers, any stack reader and any
    libunwind whose functions return, has no undefined behaviour and leaves a
    session again.  A recovered frame is not null, and without one the registers
    are untouched.  It panics only if the process has no address space yet and
    [unw_create_addr_space] returned null, or, with overflow checks, if parsing
    the module of the lookup address panics. *)
Theorem session_unwind_safe `{Profile} (L : LibunwindApi) `{!LibunwindLaws L} :
  on_both (λ U NU, ∀ (S : Session U) (i : nat) (u : U) ReadT
      (read_fn : ReadT → Z → option Z * ReadT) (rs : ReadT) (frame : FrameAddress)
      (regs : NativeRegs),
    session_reachable S → s_unwinders S !! i = Some u → below_top (modules_of u) →
    native_regs_ok regs →
    match native_unwind_frame read_fn u frame (regs, mkEnv rs (s_heap S) (s_static S)) with
    | (UB, _) | (NoFuel, _) => False
    | (r, (regs', env')) =>
        session_reachable
          (mkSession (env_heap env') (env_static env') (s_modules S) (s_unwinders S)) ∧
        match r with
        | Ok (Some a) => a ≠ 0 ∧ native_regs_ok regs'
        | Panic =>
            let lookup_ip := native_lookup_ip regs frame in
            (overflow_checks = true ∧ ∃ m, find_module (modules_of u) lookup_ip = Some m ∧
               parse_function_details m lookup_ip = Panic) ∨
            (s_static S = None ∧ unw_create_addr_space UNW_LITTLE_ENDIAN = 0)
        | _ => regs' = regs
        end
    end).
Proof.
  split; intros S i u ReadT read_fn rs frame regs.
  - exact (session_unwind_good (NU:=x86_64_native) (NativeUnwinderLaws0:=x86_64_native_laws)
             (NativeUnwinderSafe0:=x86_64_native_safe) S i u read_fn rs frame regs).
  - exact (session_unwind_good (NU:=aarch64_native) (NativeUnwinderLaws0:=aarch64_native_laws)
             (NativeUnwinderSafe0:=aarch64_native_safe) S i u read_fn rs frame regs).
Qed.

(** In every session, the function details an unwinder finds for an address,
    through caches filled by any of the unwinders sharing the module, are those
    a fresh parse of the module's sections gives, for every module whose header
    matches its FDEs. *)
Theorem session_lookup_transparent `{Profile} {U : Type} `{NativeUnwinderLaws U} (S : Session U)
    (u : U) (m : ModuleData) (ip : Z) :
  session_reachable S → u ∈ s_unwinders S → find_module (modules_of u) ip = Some m →
  table_matches_fdes m →
  (get_or_parse_function_details m ip (s_heap S)).1 = parse_function_details m ip.
Proof.
  intros HS%session_reachable_inv Hu Hm Ht.
  pose proof (inv_registries S HS u Hu) as Hreach.
  apply find_module_some in Hm as [Hm _]; [|by apply reachable_wf].
  destruct (inv_alive S HS m) as (Hok & _ & Hc); [right; by exists u|].
  by apply get_or_parse_transparent.
Qed.

(** *** Witnesses: a session with one module, an unwinder and its clone *)
#[local] Instance session_profile : Profile := true.
#[local] Instance session_libunwind : LibunwindApi :=
  toy_libunwind x86_64_regs.UNW_X86_64_RIP x86_64_regs.UNW_X86_64_RSP x86_64_regs.UNW_X86_64_RBP.
#[local] Instance session_libunwind_laws : LibunwindLaws session_libunwind :=
  toy_libunwind_laws _ _ _.
#[local] Instance session_native : NativeUnwinder UnwinderX86_64 := x86_64_native.
#[local] Instance session_native_laws : NativeUnwinderLaws UnwinderX86_64 := x86_64_native_laws.

Definition demo_session : Session UnwinderX86_64 :=
  mkSession one_fde_heap None [one_fde_module]
    [mkUnwinderX86_64 one_fde_set; mkUnwinderX86_64 one_fde_set].

Lemma demo_session_reachable : session_reachable demo_session.
Proof.
  assert (session_reachable (mkSession (U:=UnwinderX86_64) one_fde_heap None [one_fde_module] [])) as H1.
  { eapply session_next; [apply session_start|].
    apply (step_build session_init one_fde_module one_fde_heap).
    apply (built_dwarf _ _ _ "one-fde" (mkRange 0x1000 0x2000) 0 one_fde_sections);
      [split; intros b [= <-]; by_compute|by vm_compute]. }
  eapply session_next in H1; [|apply step_new].
  eapply session_next in H1;
    [|eapply (step_add _ 0%nat _ one_fde_module); [reflexivity|by left]].
  eapply session_next in H1; [|by eapply (step_clone _ 0%nat)].
  exact H1.
Qed.

Lemma session_invariant_witness :
  reachable one_fde_set ∧ caches_ok one_fde_set one_fde_heap.
Proof.
  destruct (session_invariant session_libunwind) as [Hx _].
  destruct (Hx demo_session demo_session_reachable) as [Hu _].
  exact (Hu (mkUnwinderX86_64 one_fde_set) ltac:(by left)).
Defined.

Lemma session_unwind_safe_witness :
  match X86_64.unwind_frame X86_64.demo_read one_fde_set (InstructionPointer 0x1004)
          (X86_64.demo_regs, mkEnv () one_fde_heap None) with
  | (Ok (Some a), (regs', _)) => a ≠ 0 ∧ X86_64.regs_ok regs'
  | _ => False
  end.
Proof.
  exact (proj2 (proj1 (session_unwind_safe session_libunwind) demo_session 1%nat
    (mkUnwinderX86_64 one_fde_set) ()%type X86_64.demo_read
    () (InstructionPointer 0x1004) X86_64.demo_regs demo_session_reachable eq_refl
    X86_64.one_fde_below_top eq_refl)).
Defined.

Lemma session_lookup_transparent_witness :
  (get_or_parse_function_details one_fde_module 0x100f one_fde_heap).1 = Ok one_fde_details.
Proof.
  refine (session_lookup_transparent demo_session (mkUnwinderX86_64 one_fde_set) one_fde_module
    0x100f demo_session_reachable _ eq_refl one_fde_matches). by left.
Defined.
