(* ===== verification/CacheIndependence.v ===== *)
(** * Unwinding does not depend on what the caches hold

    A relational Hoare logic: two runs that differ only in their function caches
    (one cold, one filled by earlier lookups, of this thread or of others that
    share the modules) give the same results.  The relation is carried through the
    callbacks, through any program libunwind may be, through the step of both
    architectures, and through the iterator.

    The one thing the crate reads from a cache without filling it is the
    signal-frame flag.  It is right when the function was looked up before, which
    is the case after a step when libunwind asks for the function's unwind
    information before it reports a step ([LibunwindConsults]).  On x86_64 the
    bundled libunwind always asks; on aarch64 it asks unless the word it reads at
    the frame's address is the one of the kernel's signal-return stub. *)

From stdpp Require Import gmap.
From S2P Require Import Prelude.
From S2P Require Import BTree.
From S2P Require Import EhFrameTable.
From S2P Require Import Ffi.
From S2P Require Import Errors.
From S2P Require Import FrameAddress.
From S2P Require Import Modules.
From S2P Require Import ModuleSet.
From S2P Require Import Callbacks.
From S2P Require Import AddressSpace.
From S2P Require Import Frames.
From S2P Require X86_64.
From S2P Require Aarch64.
From S2P Require Import HeapFrame.
From S2P Require Import Iterator.
From S2P Require Import Session.

(** ** What libunwind is relied on for

    [u_unasked excused P raw p]: run with the registers [raw], every value that
    [p] returns without having called [find_proc_info] satisfies [P], together
    with the registers it leaves.  Registers, floating-point registers and the
    list of dynamic unwind information are answered as the crate answers them; a
    memory read may give any result but the [excused] ones. *)
Section consults.
Context `{Arch} (excused : Z → Z → bool).

Fixpoint u_unasked {A} (P : RawRegs → A → Prop) (raw : RawRegs) (p : UProg A) : Prop :=
  match p with
  | URet a => P raw a
  | UFindProcInfo _ _ _ _ => True
  | UPutUnwindInfo _ k => u_unasked P raw k
  | UGetDynInfoListAddr val k => u_unasked P raw (k (- UNW_ENOINFO) val)
  | UAccessMem addr _ _ k =>
      ∀ r v, (0 ≤ r → excused addr v = false) → u_unasked P raw (k r v)
  | UAccessReg reg val write k =>
      let '(r, v, raw') := arch_access_reg raw reg val write in u_unasked P raw' (k r v)
  | UAccessFpreg _ val _ k => u_unasked P raw (k (- UNW_EBADREG) val)
  end.
End consults.

(** [unw_step], on the cursor [unw_init_remote] set up, reports a step (a positive
    status) only after one of the two has asked for the frame's unwind
    information, unless it read a [trampoline] word at the frame's own address
    ([pc_of] the registers).

    In the libunwind the crate bundles ([src/vendor/libunwind-dist]), an address
    space made by [unw_create_addr_space] starts without caching
    ([doc/unw_set_caching_policy.tex]), so [dwarf_step] gets the information of
    every frame from [fetch_proc_info] ([src/dwarf/Gparser.c]), which asks for
    dynamic information first and then calls [find_proc_info].
    [src/x86_64/Gstep.c] starts with [dwarf_step]: no word is a trampoline.
    [src/aarch64/Gstep.c] starts with [unw_is_signal_frame]
    ([src/aarch64/Gis_signal_frame.c]), which reads the word at the instruction
    pointer, and steps over the signal frame by itself when the word has all the
    bits of [SIGNAL_RETURN]: those words are the trampolines
    ([sigreturn_word]). *)
Class LibunwindConsults {A : Arch} (L : LibunwindApi) (pc_of : RawRegs → Z) (trampoline : Z → bool)
    : Prop := {
  step_consults raw h :
    let excused addr v := (addr =? pc_of raw) && trampoline v in
    u_unasked excused
      (λ raw' '(r, c), r < 0 ∨ u_unasked excused (λ _ r, r.1 ≤ 0) raw' (unw_step c))
      raw (unw_init_remote cursor_zeroed h);
}.

(** No trampoline. *)
Definition no_trampoline (v : Z) : bool := false.

(** [SIGNAL_RETURN] of Linux, [movz x8, #0x8b; svc #0x0], and the test of it. *)
Definition SIGNAL_RETURN : Z := 0xd4000001d2801168.
Definition sigreturn_word (v : Z) : bool := Z.land v SIGNAL_RETURN =? SIGNAL_RETURN.

(** What the callbacks answer for the word at [addr], be it from a mirrored
    section or from the user's reader, is not a trampoline. *)
Definition word_unread {ReadT} (read_fn : ReadT → Z → option Z * ReadT) (s : ModuleSet)
    (trampoline : Z → bool) (addr : Z) : Prop :=
  (∀ rs v rs', read_fn rs addr = (Some v, rs') → trampoline v = false) ∧
  (∀ p bytes, lookup_local s addr = Some p → from_raw_parts (E:=Empty_set) p 8 = Ok bytes →
     trampoline (le_decode bytes) = false).

(** A step of the frame at [ip] asks for its unwind information. *)
Definition asks_at {A : Arch} {ReadT} (read_fn : ReadT → Z → option Z * ReadT) (L : LibunwindApi)
    (pc_of : RawRegs → Z) (s : ModuleSet) (ip : Z) : Prop :=
  ∃ trampoline, LibunwindConsults L pc_of trampoline ∧ word_unread read_fn s trampoline ip.

(** A step of any frame that has unwind information asks for it. *)
Definition asks {A : Arch} {ReadT} (read_fn : ReadT → Z → option Z * ReadT) (L : LibunwindApi)
    (pc_of : RawRegs → Z) (s : ModuleSet) : Prop :=
  ∀ ip, has_unwind_info s ip = true → asks_at read_fn L pc_of s ip.

(** ** A relational Hoare logic

    [sim P m Q]: from states related by [P], two runs of [m] give the same result,
    and end in states related by [Q a] when it is [Ok a], and by [B] otherwise. *)
Section sim.
Context {S E : Type} (B : relation S).

Definition sim {A} (P : relation S) (m : SM S E A) (Q : A → relation S) : Prop :=
  ∀ s1 s2, P s1 s2 →
  (m s1).1 = (m s2).1 ∧
  match (m s1).1 with Ok a => Q a (m s1).2 (m s2).2 | _ => B (m s1).2 (m s2).2 end.

Lemma sim_ret {A} (a : A) (P : relation S) (Q : A → relation S) :
  (∀ s1 s2, P s1 s2 → Q a s1 s2) → sim P (mret a) Q.
Proof. intros HQ s1 s2 HP. split; [done|]. by apply HQ. Qed.

Lemma sim_lift {A} (o : outcome E A) (P : relation S) :
  (∀ s1 s2, P s1 s2 → B s1 s2) → sim P (sm_lift o) (λ _, P).
Proof. intros HB s1 s2 HP. split; [done|]. destruct o; simpl; auto. Qed.

Lemma sim_err {A} e (P : relation S) (Q : A → relation S) :
  (∀ s1 s2, P s1 s2 → B s1 s2) → sim P (sm_err e) Q.
Proof. intros HB s1 s2 HP. split; [done|]. by apply HB. Qed.

Lemma sim_modify f (P : relation S) (Q : () → relation S) :
  (∀ s1 s2, P s1 s2 → Q () (f s1) (f s2)) → sim P (sm_modify f) Q.
Proof. intros Hf s1 s2 HP. split; [done|]. by apply Hf. Qed.

Lemma sim_bind {A A'} (m : SM S E A) (f : A → SM S E A') P Q R :
  sim P m Q → (∀ a, sim (Q a) (f a) R) → sim P (m ≫= f) R.
Proof.
  intros Hm Hf s1 s2 HP. specialize (Hm s1 s2 HP). unfold mbind, sm_bind.
  destruct (m s1) as [r1 s1'], (m s2) as [r2 s2']. simpl in Hm. destruct Hm as [<- HR].
  destruct r1 as [a| | | |]; try done. by apply Hf.
Qed.

Lemma sim_conseq {A} (P P' : relation S) (m : SM S E A) (Q Q' : A → relation S) :
  sim P m Q → (∀ s1 s2, P' s1 s2 → P s1 s2) → (∀ a s1 s2, Q a s1 s2 → Q' a s1 s2) →
  sim P' m Q'.
Proof.
  intros Hm HP HQ s1 s2 HP'. destruct (Hm s1 s2 (HP _ _ HP')) as [Hr Hs]. split; [done|].
  destruct (m s1).1; auto.
Qed.

(** Reading the state is fine when the rest of the program does not see the
    difference. *)
Lemma sim_get {A} (f : S → SM S E A) P Q :
  (∀ s1 s2, P s1 s2 → f s1 = f s2 ∧ sim P (f s1) Q) → sim P (sm_get ≫= f) Q.
Proof.
  intros Hf s1 s2 HP. destruct (Hf s1 s2 HP) as [Heq Hi]. unfold mbind, sm_bind, sm_get.
  rewrite <- Heq. by apply Hi.
Qed.

Lemma sim_pure {A} (φ : Prop) (P : relation S) (m : SM S E A) Q :
  (φ → sim P m Q) → sim (λ s1 s2, P s1 s2 ∧ φ) m Q.
Proof. intros Hm s1 s2 [HP Hφ]. by apply Hm. Qed.

Lemma sim_exists {A X} (P : X → relation S) (m : SM S E A) Q :
  (∀ x, sim (P x) m Q) → sim (λ s1 s2, ∃ x, P x s1 s2) m Q.
Proof. intros Hm s1 s2 [x HP]. by eapply Hm. Qed.
End sim.

(** ** What a cache knows *)
Section caches.
Context `{Profile}.

Definition cached (h : Heap) (m : ModuleData) (d : FunctionDetails) : Prop :=
  ∃ cache, lock h m = Some cache ∧ bt_get (start_ip d) cache = Some d.

(** The headers of a registry match their FDEs. *)
Definition tables_match (s : ModuleSet) : Prop := ∀ m, registered s m → table_matches_fdes m.

(** No function of the registered modules is a signal frame. *)
Definition plain (s : ModuleSet) : Prop :=
  ∀ m ip d, registered s m → parse_function_details m ip = Ok d → fd_signal_frame d = false.

(** Is the function at [a] a signal frame, according to the sections. *)
Definition in_signal_frame (s : ModuleSet) (a : Z) : bool :=
  match find_module s a with
  | Some m =>
      match parse_function_details m a with Ok d => fd_signal_frame d | _ => false end
  | None => false
  end.

(** The function at [a], if there is one, is cached. *)
Definition looked_up (s : ModuleSet) (h : Heap) (a : Z) : Prop :=
  ∀ m d, find_module s a = Some m → parse_function_details m a = Ok d → cached h m d.

(** The cache gives the flag at [a] right. *)
Definition settled (s : ModuleSet) (h : Heap) (a : Z) : Prop := plain s ∨ looked_up s h a.

Context (s : ModuleSet) (Hwf : set_wf s) (Ht : tables_match s).

Lemma cached_parse h m d ip :
  caches_ok s h → registered s m → cached h m d → covers d ip →
  parse_function_details m ip = Ok d.
Proof.
  intros [_ Hok] Hm (cache & Hl & Hg) Hc. destruct (Hok m Hm) as (cache' & Hl' & _ & Hall).
  simplify_eq. destruct (Hall _ _ Hg) as [_ Hex].
  apply cached_is_parsed; [by eapply registered_ok|by apply Ht|done|done].
Qed.

Lemma cached_covers_start h m d :
  caches_ok s h → registered s m → cached h m d → covers d (start_ip d).
Proof.
  intros [_ Hok] Hm (cache & Hl & Hg). destruct (Hok m Hm) as (cache' & Hl' & _ & Hall).
  simplify_eq. destruct (Hall _ _ Hg) as [_ (ip & Hc & _)]. unfold covers in *. lia.
Qed.

(** [is_signal_frame] answers for the cached function that covers the address. *)
Lemma is_signal_frame_cached h a :
  caches_ok s h →
  is_signal_frame s h a = true ↔
  ∃ m d, find_module s a = Some m ∧ cached h m d ∧ covers d a ∧ fd_signal_frame d = true.
Proof.
  intros Hc. unfold is_signal_frame. split.
  - destruct (find_module s a) as [m|] eqn:Hm; [|done].
    destruct (find_module_some s a m Hwf Hm) as [Hreg _].
    destruct (proj2 Hc m Hreg) as (cache & Hl & Hcwf & Hall). rewrite Hl.
    destruct (bt_floor a cache) as [[k d]|] eqn:Hf; [|done].
    apply bt_floor_some in Hf as (Hg & Hle & _); [|done].
    destruct (Hall _ _ Hg) as [-> _]. intros [Hlt Hsig]%andb_true_iff. apply Z.ltb_lt in Hlt.
    exists m, d. split_and!; [done|by exists cache|done|done].
  - intros (m & d & Hm & Hcd & Hcov & Hsig). rewrite Hm.
    destruct (find_module_some s a m Hwf Hm) as [Hreg _].
    pose proof Hcd as (cache & Hl & Hg). destruct (proj2 Hc m Hreg) as (cache' & Hl' & Hcwf & Hall).
    simplify_eq. rewrite Hl.
    assert (bt_floor a cache = Some (start_ip d, d)) as ->.
    { apply bt_floor_some; [done|]. split_and!; [done|by apply Hcov|]. intros k d' Hg' Hle.
      destruct (Hall _ _ Hg') as [-> _]. destruct (decide (start_ip d' ≤ start_ip d)); [done|].
      assert (cached h m d') as Hcd' by by exists cache.
      pose proof (cached_covers_start h m d' Hc Hreg Hcd') as Hc1.
      pose proof (cached_parse h m d' _ Hc Hreg Hcd' Hc1) as Hp1.
      assert (covers d (start_ip d')) as Hc2 by (unfold covers in *; lia).
      pose proof (cached_parse h m d _ Hc Hreg Hcd Hc2) as Hp2.
      assert (d = d') by congruence. subst. lia. }
    rewrite Hsig. by rewrite (proj2 (Z.ltb_lt _ _) (proj2 Hcov)).
Qed.

(** The flag is never set wrongly, and it is right after a lookup. *)
Lemma is_signal_frame_sound h a :
  caches_ok s h → is_signal_frame s h a = true → in_signal_frame s a = true.
Proof.
  intros Hc (m & d & Hm & Hcd & Hcov & Hsig)%is_signal_frame_cached; [|done].
  destruct (find_module_some s a m Hwf Hm) as [Hreg _].
  unfold in_signal_frame. by rewrite Hm, (cached_parse h m d).
Qed.

Lemma in_signal_frame_plain a : plain s → in_signal_frame s a = false.
Proof.
  intros Hplain. unfold in_signal_frame. destruct (find_module s a) as [m|] eqn:Hm; [|done].
  destruct (find_module_some s a m Hwf Hm) as [Hreg _].
  destruct (parse_function_details m a) as [d| | | |] eqn:Hp; [|done..]. by eapply Hplain.
Qed.

Lemma is_signal_frame_settled h a :
  caches_ok s h → settled s h a → is_signal_frame s h a = in_signal_frame s a.
Proof.
  intros Hc Hset. apply Bool.eq_iff_eq_true. split; [by apply is_signal_frame_sound|].
  intros Ha. destruct Hset as [Hplain|Hl]; [by rewrite (in_signal_frame_plain a Hplain) in Ha|].
  unfold in_signal_frame in Ha. destruct (find_module s a) as [m|] eqn:Hm; [|done].
  destruct (parse_function_details m a) as [d| | | |] eqn:Hp; [|done..].
  destruct (find_module_some s a m Hwf Hm) as [Hreg _].
  apply is_signal_frame_cached; [done|]. exists m, d. split_and!; [done|by apply Hl| |done].
  eapply parse_covers; [|done]. by eapply registered_ok.
Qed.

(** A lookup adds the function it returns, and nothing else. *)
Lemma get_or_parse_cached h m ip d h' :
  caches_ok s h → registered s m → get_or_parse_function_details m ip h = (Ok d, h') →
  caches_ok s h' ∧
  ∀ m' d', registered s m' → cached h' m' d' ↔ cached h m' d' ∨ (m' = m ∧ d' = d).
Proof.
  intros Hc Hm Hg. destruct (get_or_parse_caches_ok s h m ip d h' Hwf Hc Hm Hg) as [Hc' _].
  split; [done|]. intros m' d' Hm'. destruct (proj2 Hc m Hm) as (cache & Hl & Hcm).
  pose proof (get_or_parse_cases m ip h cache (registered_ok _ _ Hwf Hm) Hl Hcm) as Hcs.
  rewrite Hg in Hcs. destruct Hcs as (_ & _ & [[-> Hf]|(_ & _ & ->)]).
  { apply bt_floor_some in Hf as [Hd _]; [|apply Hcm].
    split; [by left|intros [?|[-> ->]]; [done|by exists cache]]. }
  assert (cached (set_cache m (bt_insert (start_ip d) d cache) h) m d) as Hd.
  { eexists. split; [apply lock_set_cache|apply bt_get_insert_eq]. }
  destruct (decide (m' = m)) as [->|Hne].
  - split.
    + intros (cache' & Hl' & Hg'). rewrite lock_set_cache in Hl'. simplify_eq.
      destruct (decide (start_ip d = start_ip d')) as [Heq|].
      * rewrite Heq, bt_get_insert_eq in Hg'. simplify_eq. by right.
      * rewrite bt_get_insert_ne in Hg' by done. left. by exists cache.
    + intros [Hcd|[_ ->]]; [|done].
      destruct (decide (start_ip d = start_ip d')) as [Heq|].
      * pose proof (cached_covers_start h m d' Hc Hm Hcd) as H1.
        pose proof (cached_covers_start _ m d Hc' Hm Hd) as H2. rewrite Heq in H2.
        pose proof (cached_parse h m d' _ Hc Hm Hcd H1).
        pose proof (cached_parse _ m d _ Hc' Hm Hd H2). assert (d' = d) by congruence. by subst.
      * destruct Hcd as (cache' & Hl' & Hg'). simplify_eq. eexists. split; [apply lock_set_cache|].
        by rewrite bt_get_insert_ne.
  - assert (function_cache m ≠ function_cache m') as Hfc.
    { intros Heq. apply Hne. symmetry. by apply (proj1 Hc). }
    unfold cached. setoid_rewrite lock_set_cache_ne; [|done]. naive_solver.
Qed.

(** What a lookup returns and what it leaves behind. *)
Lemma get_or_parse_looked_up h m ip :
  caches_ok s h → registered s m →
  let h' := (get_or_parse_function_details m ip h).2 in
  (get_or_parse_function_details m ip h).1 = parse_function_details m ip ∧
  caches_ok s h' ∧
  (find_module s ip = Some m → looked_up s h' ip) ∧
  ∀ a, looked_up s h a → looked_up s h' a.
Proof.
  intros Hc Hm h'. pose proof (registered_ok _ _ Hwf Hm) as Hok.
  destruct (get_or_parse_transparent m ip h Hok (Ht m Hm) (proj2 Hc m Hm)) as [E _].
  destruct (proj2 Hc m Hm) as (c & Hl & Hcm).
  pose proof (get_or_parse_cases m ip h c Hok Hl Hcm) as Hcs. subst h'.
  destruct (get_or_parse_function_details m ip h) as [r h'] eqn:G. simpl in *.
  assert ((∀ d, r ≠ Ok d) → h' = h → caches_ok s h' ∧
    (find_module s ip = Some m → looked_up s h' ip) ∧ ∀ a, looked_up s h a → looked_up s h' a) as Hfail.
  { intros Hr ->. split_and!; [done| |done]. intros Hf m' d' Hm' Hp.
    destruct (Hr d'). congruence. }
  destruct r as [d|e| | |]; try done.
  - destruct (get_or_parse_cached h m ip d h' Hc Hm G) as [Hc' Hi]. split_and!; [done|done|..].
    + intros Hf m' d' Hm' Hp. rewrite Hf in Hm'. simplify_eq. apply Hi; [done|]. right. split; congruence.
    + intros a Ha m' d' Hm' Hp. apply Hi; [by apply (find_module_some s a m' Hwf Hm')|]. left. by apply Ha.
  - split; [done|]. apply Hfail; [done|apply Hcs].
  - split; [done|]. apply Hfail; [done|apply Hcs].
Qed.
End caches.

(** ** The callbacks and libunwind *)
Section libunwind.
Context `{Profile} `{Arch} {ReadT : Type} (read_fn : ReadT → Z → option Z * ReadT).
Context (s : ModuleSet) (ip : Z) (Hwf : set_wf s) (Ht : tables_match s).

(** Well-formed caches that give the flag at [ip] right once it was [asked]. *)
Definition same_heaps (asked : bool) (h1 h2 : Heap) : Prop :=
  caches_ok s h1 ∧ caches_ok s h2 ∧ (asked = true → settled s h1 ip ∧ settled s h2 ip).

(** The same context over different caches. *)
Definition same_world (asked : bool) (w1 w2 : World RawRegs ReadT) : Prop :=
  ctx w1 = ctx w2 ∧ ctx_modules (ctx w1) = s ∧ lookup_ip (ctx w1) = ip ∧
  same_heaps asked (heap w1) (heap w2).

Local Abbreviation wsim := (sim (same_world false)).

Lemma same_heaps_unasked b h1 h2 : same_heaps b h1 h2 → same_heaps false h1 h2.
Proof. by intros (? & ? & _). Qed.

Lemma same_world_unasked b w1 w2 : same_world b w1 w2 → same_world false w1 w2.
Proof. intros (? & ? & ? & Hh). split_and!; [done..|]. by eapply same_heaps_unasked. Qed.

Lemma same_world_any b w1 w2 : same_world true w1 w2 → same_world b w1 w2.
Proof.
  intros (Hc & Hs & Hi & H1 & H2 & Hk).
  exact (conj Hc (conj Hs (conj Hi (conj H1 (conj H2 (λ _, Hk eq_refl)))))).
Qed.

Lemma find_proc_info_sim b i pi need :
  wsim (same_world b) (find_proc_info i pi need) (λ _, same_world true).
Proof.
  intros [c1 h1] [c2 h2] (Hc & Hs & Hip & H1 & H2 & _). simpl in *. subst c2.
  unfold find_proc_info. cbn [ctx heap]. rewrite Hs, Hip.
  destruct (find_module s ip) as [m|] eqn:Hm; cbn [fst snd].
  2: { assert (looked_up s h1 ip ∧ looked_up s h2 ip) as [L1 L2]
         by (split; intros m' d' Hm'; congruence).
       split; [done|]. split_and!; try done. split_and!; try done. intros _. by split; right. }
  destruct (find_module_some s ip m Hwf Hm) as [Hreg _].
  destruct (get_or_parse_looked_up s Hwf Ht h1 m ip H1 Hreg) as (E1 & O1 & L1 & _).
  destruct (get_or_parse_looked_up s Hwf Ht h2 m ip H2 Hreg) as (E2 & O2 & L2 & _).
  destruct (get_or_parse_function_details m ip h1) as [r1 h1'].
  destruct (get_or_parse_function_details m ip h2) as [r2 h2']. simpl in *. subst r1 r2.
  assert (same_heaps true h1' h2') as Hh.
  { split_and!; [done..|]. intros _. split; right; auto. }
  destruct (parse_function_details m ip); (split; [done|]); split_and!; simpl; try done.
Qed.

Lemma access_mem_sim b addr val write :
  wsim (same_world b) (access_mem read_fn addr val write) (λ _, same_world b).
Proof.
  intros [c1 h1] [c2 h2] Hw. pose proof Hw as (Hc & Hs & Hip & Hh). simpl in *. subst c2.
  pose proof (same_world_unasked _ _ _ Hw) as Hw0. unfold access_mem.
  destruct (negb _); [done|]. unfold mbind, sm_bind, sm_get, sm_lift, sm_modify. cbn [ctx heap].
  destruct (lookup_local _ _) as [p|]; [by destruct (from_raw_parts p 8)|].
  by destruct (read_fn _ _) as [[v|] rs].
Qed.

Lemma access_reg_sim b reg val write :
  wsim (same_world b) (access_reg reg val write) (λ _, same_world b).
Proof.
  intros [c1 h1] [c2 h2] Hw. pose proof Hw as (Hc & Hs & Hip & Hh). simpl in *. subst c2.
  unfold access_reg, mbind, sm_bind, sm_get, sm_modify. cbn [ctx].
  by destruct (arch_access_reg _ _ _ _) as [[? ?] ?].
Qed.

(** Every program keeps the relation. *)
Lemma run_prog_sim {A} b (p : UProg A) : wsim (same_world b) (run_prog read_fn p) (λ _, same_world b).
Proof.
  induction p as [a|i pi need k IH|pi k IH|v k IH|a v wr k IH|reg v wr k IH|reg v wr k IH];
    cbn [run_prog]; [by apply sim_ret|..];
    (eapply (sim_bind _ _ _ _ (λ _, same_world b)); [|intros a'; by (apply IH || (destruct a'; apply IH))]);
    try by apply sim_ret.
  - eapply sim_conseq; [apply find_proc_info_sim|done|]. intros ? ? ?. apply same_world_any.
  - apply access_mem_sim.
  - apply access_reg_sim.
Qed.

(** The relation with the registers known. *)
Definition at_regs (raw : RawRegs) (w1 w2 : World RawRegs ReadT) : Prop :=
  same_world false w1 w2 ∧ regs (ctx w1) = raw.

Lemma access_mem_excused raw (excused : Z → Z → bool) addr val write :
  word_unread read_fn s (excused addr) addr →
  wsim (at_regs raw) (access_mem read_fn addr val write)
    (λ rv w1 w2, at_regs raw w1 w2 ∧ (0 ≤ rv.1 → excused addr rv.2 = false)).
Proof.
  intros [Hread Hlocal] [c1 h1] [c2 h2] [Hw Hraw]. pose proof Hw as (Hc & Hs & Hip & Hh).
  simpl in *. subst c2. unfold access_mem.
  destruct (negb _); [done|]. unfold mbind, sm_bind, sm_get, sm_lift, sm_modify. cbn [ctx heap].
  rewrite Hs. destruct (lookup_local s addr) as [p|] eqn:Hl.
  - destruct (from_raw_parts p 8) as [bytes|[]| | |] eqn:Hp; try done.
    split; [done|]. split; [done|]. intros _. by eapply Hlocal.
  - destruct (read_fn _ _) as [[v|] rs] eqn:Hr; (split; [done|]).
    + split; [by split|]. intros _. by eapply Hread.
    + split; [by split|]. by intros ?%Z.le_ngt.
Qed.

Lemma access_reg_asked raw reg val write :
  wsim (at_regs raw) (access_reg reg val write)
    (λ rv w1 w2, at_regs (arch_access_reg raw reg val write).2 w1 w2 ∧
                 rv = (arch_access_reg raw reg val write).1).
Proof.
  intros [c1 h1] [c2 h2] [Hw Hraw]. pose proof Hw as (Hc & Hs & Hip & Hh). simpl in *. subst c2 raw.
  unfold access_reg, mbind, sm_bind, sm_get, sm_modify. cbn [ctx].
  by destruct (arch_access_reg _ _ _ _) as [[? ?] ?].
Qed.

(** A program that ends with a value outside [P] has asked for the function. *)
Lemma run_prog_asked {A} excused (P : RawRegs → A → Prop) (p : UProg A) raw :
  (∀ addr, word_unread read_fn s (excused addr) addr) → u_unasked excused P raw p →
  wsim (at_regs raw) (run_prog read_fn p)
    (λ a w1 w2, ∃ b, same_world b w1 w2 ∧ (b = false → P (regs (ctx w1)) a)).
Proof.
  intros Hun. revert raw.
  induction p as [a|i pi need k IH|pi k IH|v k IH|a v wr k IH|reg v wr k IH|reg v wr k IH];
    intros raw Hp; cbn [run_prog u_unasked] in *.
  - apply sim_ret. intros w1 w2 [Hw <-]. by exists false.
  - eapply sim_bind; [eapply sim_conseq; [apply (find_proc_info_sim false)|by intros ? ? []|done]|].
    intros [r pi'].
    eapply sim_conseq; [apply (run_prog_sim true)|done|]. intros a w1 w2 Hw. by exists true.
  - eapply (sim_bind _ _ _ _ (λ _, at_regs raw)); [by apply sim_ret|]. intros _. by apply IH.
  - eapply (sim_bind _ _ _ _ (λ rv w1 w2, at_regs raw w1 w2 ∧ rv = (- UNW_ENOINFO, v)));
      [by apply sim_ret|]. intros [r v']. apply sim_pure. intros [= -> ->]. by apply IH.
  - eapply sim_bind; [by apply access_mem_excused|]. intros [r v']. apply sim_pure.
    intros Hx. by apply IH, Hp.
  - eapply sim_bind; [apply access_reg_asked|]. intros [r v']. apply sim_pure. intros Hrv.
    destruct (arch_access_reg raw reg v wr) as [[r1 v1] raw']. simpl in *. simplify_eq. by apply IH.
  - eapply (sim_bind _ _ _ _ (λ rv w1 w2, at_regs raw w1 w2 ∧ rv = (- UNW_EBADREG, v)));
      [by apply sim_ret|]. intros [r v']. apply sim_pure. intros [= -> ->]. by apply IH.
Qed.

Context `{LibunwindApi}.

Definition same_worlds (asked : bool) (sw1 sw2 : World RawRegs ReadT * option Z) : Prop :=
  same_world asked sw1.1 sw2.1 ∧ sw1.2 = sw2.2.
Local Abbreviation swsim := (sim (same_worlds false)).

Lemma same_worlds_unasked b sw1 sw2 : same_worlds b sw1 sw2 → same_worlds false sw1 sw2.
Proof. intros [? ?]. split; [by eapply same_world_unasked|done]. Qed.

(** Running libunwind code, for any fact about what it returns. *)
Lemma call_post {E A} (p : UProg A) P (Q : A → relation (World RawRegs ReadT)) :
  wsim P (run_prog read_fn p) Q →
  sim (E:=E) (same_worlds false) (λ sw1 sw2, P sw1.1 sw2.1 ∧ sw1.2 = sw2.2) (call read_fn p)
    (λ a sw1 sw2, Q a sw1.1 sw2.1 ∧ sw1.2 = sw2.2).
Proof.
  intros Hp [w1 st] [w2 st2] [Hw Hst]. simpl in *. subst st2.
  destruct (Hp w1 w2 Hw) as [Hr Hw']. unfold call.
  destruct (run_prog read_fn p w1) as [r1 w1'], (run_prog read_fn p w2) as [r2 w2']. simpl in *.
  subst r2. by destruct r1 as [|[]| | |].
Qed.

Lemma call_sim {E A} b (p : UProg A) :
  sim (E:=E) (same_worlds false) (same_worlds b) (call read_fn p) (λ _, same_worlds b).
Proof. apply (call_post p (same_world b) (λ _, same_world b)), run_prog_sim. Qed.

Lemma fail_sim {A} P ph ret Q :
  (∀ sw1 sw2, P sw1 sw2 → same_worlds false sw1 sw2) → swsim P (fail (A:=A) ph ret) Q.
Proof. intros HP. eapply sim_bind; [by apply sim_lift|]. intros e. by apply sim_err. Qed.

Lemma get_sim {E} b : sim (E:=E) (same_worlds false) (same_worlds b) get (λ _, same_worlds b).
Proof.
  intros [w1 st] [w2 st2] Hw. pose proof (same_worlds_unasked _ _ _ Hw) as Hw0.
  destruct Hw as [Hw Hst]. simpl in *. subst st2. unfold get.
  destruct st; [done|]. by destruct (_ =? 0).
Qed.

Lemma read_extras_sim b i regs c extras :
  swsim (same_worlds b) (read_extras read_fn i regs c extras) (λ _, same_worlds b).
Proof.
  revert i c extras. induction regs as [|reg regs IH]; intros i c extras; cbn [read_extras];
    [by apply sim_ret|].
  eapply sim_bind; [apply call_sim|]. intros [[ret v] c']. destruct (ret <? 0); [|apply IH].
  destruct (i =? 0)%nat; [apply fail_sim, same_worlds_unasked|apply IH].
Qed.

Context (start : RawRegs → Prop) (excused : Z → Z → bool).
Context (Hun : ∀ addr, word_unread read_fn s (excused addr) addr).
Context (Hconsults : ∀ raw h, start raw → u_unasked excused
  (λ raw' '(r, c), r < 0 ∨ u_unasked excused (λ _ r, r.1 ≤ 0) raw' (unw_step c))
  raw (unw_init_remote cursor_zeroed h)).

(** The function has been asked for, or the registers satisfy [P]. *)
Definition asked_or (P : RawRegs → Prop) (sw1 sw2 : World RawRegs ReadT * option Z) : Prop :=
  ∃ b, same_worlds b sw1 sw2 ∧ (b = false → P (regs (ctx sw1.1))).

Lemma asked_or_false P sw1 sw2 : asked_or P sw1 sw2 → same_worlds false sw1 sw2.
Proof. intros (b & Hw & _). by eapply same_worlds_unasked. Qed.

Lemma call_asked {E A} (p : UProg A) P (Q : A → RawRegs → Prop) :
  (∀ raw, P raw → u_unasked excused (λ raw' a, Q a raw') raw p) →
  sim (E:=E) (same_worlds false) (asked_or P) (call read_fn p) (λ a, asked_or (Q a)).
Proof.
  intros Hp sw1 sw2 ([|] & Hw & HP).
  - destruct (call_sim (E:=E) true p sw1 sw2 Hw) as [Hr Hs]. split; [done|].
    destruct (call read_fn p sw1).1; [by exists true|by eapply same_worlds_unasked..].
  - destruct Hw as [Hw Hst].
    pose proof (call_post (E:=E) p _ _ (run_prog_asked excused _ p (regs (ctx sw1.1)) Hun
      (Hp _ (HP eq_refl)))) as Hcall.
    destruct (Hcall sw1 sw2 (conj (conj Hw eq_refl) Hst)) as [Hr Hs]. split; [done|].
    destruct (call read_fn p sw1).1; [|done..]. destruct Hs as [(b & Hw' & Hb) Hst']. by exists b.
Qed.

(** After a step the flag at the address is right. *)
Lemma init_and_step_sim extra :
  swsim (asked_or start) (init_and_step read_fn extra)
    (λ r, same_worlds (if r is Stepped _ _ then true else false)).
Proof.
  unfold init_and_step, init_and_step_in.
  eapply (sim_bind _ _ _ _ (λ _, asked_or start)).
  { intros [w1 st] [w2 st2] Ha. pose proof (asked_or_false _ _ _ Ha) as Hw0.
    destruct Ha as (b & [Hw Hst] & Hb). simpl in *. subst st2. unfold get.
    destruct st; [by split; [|exists b]|].
    destruct (_ =? 0); [by split|]. split; [done|]. by exists b. }
  intros h. eapply sim_bind.
  { apply (call_asked _ _ (λ rc raw', let '(r, c) := rc in
      r < 0 ∨ u_unasked excused (λ _ r, r.1 ≤ 0) raw' (unw_step c))).
    intros raw Hraw. exact (Hconsults raw h Hraw). }
  intros [r1 c1]. destruct (Z.ltb_spec r1 0); [apply fail_sim, asked_or_false|].
  eapply sim_bind.
  { apply (call_asked _ _ (λ r _, r.1 ≤ 0)). intros raw' [?|Hs]; [lia|exact Hs]. }
  intros [r2 c2]. apply sim_exists. intros b. 
  apply (sim_pure _ (b = false → r2 ≤ 0)). intros Hb. destruct (Z.ltb_spec r2 0); [apply fail_sim, same_worlds_unasked|].
  destruct (Z.eqb_spec r2 0); [apply sim_ret, same_worlds_unasked|].
  destruct b; [|specialize (Hb eq_refl); lia].
  eapply sim_bind; [apply call_sim|]. intros [[r3 v3] c3].
  destruct (r3 <? 0); [apply fail_sim, same_worlds_unasked|].
  eapply sim_bind; [apply read_extras_sim|]. intros ex. by apply sim_ret.
Qed.
End libunwind.

(** One step, of frames whose information is asked for or in plain modules. *)
Section step.
Context `{Profile} `{Arch} `{LibunwindApi} {ReadT : Type} (read_fn : ReadT → Z → option Z * ReadT).
Context (pc_of : RawRegs → Z) (s : ModuleSet) (ip : Z) (Hwf : set_wf s) (Ht : tables_match s).
Context (Hask : asks_at read_fn _ pc_of s ip ∨ plain s).

Lemma step_sim raw extra sw1 sw2 :
  pc_of raw = ip → same_worlds s ip false sw1 sw2 → regs (ctx sw1.1) = raw →
  (init_and_step read_fn extra sw1).1 = (init_and_step read_fn extra sw2).1 ∧
  match (init_and_step read_fn extra sw1).1 with
  | Ok r => same_worlds s ip (if r is Stepped _ _ then true else false)
  | _ => same_worlds s ip false
  end (init_and_step read_fn extra sw1).2 (init_and_step read_fn extra sw2).2.
Proof.
  intros Hpc Hw Hraw.
  assert (∀ start excused, (∀ addr, word_unread read_fn s (excused addr) addr) → _ →
    asked_or s ip start sw1 sw2 → _) as Hsim
    by exact (λ start excused Hun Hc, init_and_step_sim read_fn s ip Hwf Ht start excused Hun Hc extra
      sw1 sw2).
  destruct Hask as [(trampoline & Hc & Hun)|Hplain].
  - set (excused addr v := (addr =? pc_of raw) && trampoline v).
    destruct (Hsim (eq raw) excused) as [Hr Hs].
    + intros addr. unfold excused. destruct (Z.eqb_spec addr (pc_of raw)) as [->|]; simpl.
      * by rewrite Hpc.
      * by split.
    + intros _ h <-. exact (step_consults raw h).
    + exists false. split; [done|]. by intros _.
    + split; [done|]. by destruct (init_and_step read_fn extra sw1).1.
  - destruct (Hsim (λ _, False) (λ _ _, false)) as [Hr Hs]; [by split|done| |].
    + exists true. split; [|done]. destruct Hw as [(Hc & Hs & Hi & H1' & H2' & _) Hst].
      exact (conj (conj Hc (conj Hs (conj Hi (conj H1' (conj H2'
        (λ _, conj (or_introl Hplain) (or_introl Hplain))))))) Hst).
    + split; [done|]. by destruct (init_and_step read_fn extra sw1).1.
Qed.

(** Environments that differ in their caches. *)
Definition same_env (asked : bool) (e1 e2 : Env ReadT) : Prop :=
  env_read e1 = env_read e2 ∧ env_static e1 = env_static e2 ∧
  same_heaps s ip asked (env_heap e1) (env_heap e2).

Lemma step_with_ctx_same raw extra e1 e2 :
  pc_of raw = ip → same_env false e1 e2 →
  let r1 := step_with_ctx read_fn s raw ip extra e1 in
  let r2 := step_with_ctx read_fn s raw ip extra e2 in
  r1.1 = r2.1 ∧ same_env (if r1.1.1.1 is Ok (Stepped _ _) then true else false) r1.2 r2.2.
Proof.
  intros Hpc (Hr & Hst & Hh). unfold step_with_ctx. rewrite <- Hr, <- Hst.
  set (c := mkUnwindCtx _ _ _ _ _ _).
  destruct (step_sim raw extra (mkWorld c (env_heap e1), env_static e1)
            (mkWorld c (env_heap e2), env_static e1)) as [Hres Hw']; [done|by split_and!|done|].
  destruct (init_and_step read_fn extra (mkWorld c (env_heap e1), _)) as [r1 [w1 st1]].
  destruct (init_and_step read_fn extra (mkWorld c (env_heap e2), _)) as [r2 [w2 st2]].
  simpl in *. subst r2.
  destruct r1 as [[]| | | |]; destruct Hw' as [(Hc & _ & _ & Hh') Hst']; simpl in *; subst st2;
    by rewrite Hc.
Qed.
End step.

Lemma asks_or_plain (A B C : Prop) : (A → B) ∨ C → A → B ∨ C.
Proof. tauto. Qed.

(** ** The two unwinders *)
Section unwinders.
Context `{Profile} `{LibunwindApi} {ReadT : Type} (read_fn : ReadT → Z → option Z * ReadT).
Context (s : ModuleSet) (ip : Z) (Hwf : set_wf s) (Ht : tables_match s).

Definition same_state {RegsT} (asked : bool) (st1 st2 : RegsT * Env ReadT) : Prop :=
  st1.1 = st2.1 ∧ same_env s ip asked st1.2 st2.2.

(** A step that fails ends the walk, so nothing is asked of its final state. *)
Local Abbreviation usim := (sim (λ _ _, True)).

Lemma same_state_unasked {RegsT} b (st1 st2 : RegsT * Env ReadT) :
  same_state b st1 st2 → same_state false st1 st2.
Proof.
  intros (Hr & He & Hst & H1' & H2' & _). split; [done|]. split; [done|]. split; [done|].
  by split_and!.
Qed.

(** Modules without unwind information have no cached functions. *)
Lemma no_info_looked_up h : has_unwind_info s ip = false → looked_up s h ip.
Proof.
  unfold has_unwind_info. intros Hi m d Hm Hp. rewrite Hm in Hi. exfalso.
  unfold parse_function_details in Hp.
  destruct (is_null (eh_frame_local_ptr m)), (is_null (eh_frame_hdr_local_ptr m)); try done.
  rewrite !andb_true_r in Hi. apply negb_false_iff in Hi.
  destruct (from_raw_parts (eh_frame_hdr_local_ptr m) _) as [hdr| | | |]; try done.
  unfold mbind, outcome_bind, EhFrameTable.lookup in Hp. by rewrite Hi in Hp.
Qed.

Lemma same_state_no_info {RegsT} (st1 st2 : RegsT * Env ReadT) :
  has_unwind_info s ip = false → same_state false st1 st2 → same_state true st1 st2.
Proof.
  intros Hi (Hr & He & Hst & H1' & H2' & _). split; [done|]. split; [done|]. split; [done|].
  split_and!; [done..|]. intros _. split; right; by apply no_info_looked_up.
Qed.

Lemma read_stack_sim {RegsT} b addr :
  usim (same_state (RegsT:=RegsT) b) (read_stack read_fn addr) (λ _, same_state b).
Proof.
  intros [r1 e1] [r2 e2] [Hr (He & Hst & Hh)]. simpl in *. subst r2. unfold read_stack.
  rewrite <- He. by destruct (read_fn _ _) as [[v|] rs].
Qed.

(** Straight-line code over registers and environment. *)
Local Ltac sims b :=
  repeat first
    [ by apply sim_ret | by apply sim_err | by apply sim_lift | apply read_stack_sim
    | (apply (sim_modify _ _ _ (λ _, same_state b)); by intros [x1 y1] [x2 y2] [Hx Hy]; simpl in Hx; subst x2)
    | (apply sim_get; intros [r1 e1] [r2 e2] [Hr He]; simpl in Hr; subst r2; split; [reflexivity|])
    | (eapply (sim_bind _ _ _ _ (λ _, same_state b)); [|intros]) | progress case_match ].

Lemma x86_64_fallback_sim b cur :
  usim (same_state b) (X86_64.fallback_unwind_frame read_fn cur) (λ _, same_state b).
Proof. unfold X86_64.fallback_unwind_frame. cbv zeta. sims b. Qed.

Lemma aarch64_fallback_sim b cur :
  usim (same_state b) (Aarch64.fallback_unwind_frame read_fn cur) (λ _, same_state b).
Proof. unfold Aarch64.fallback_unwind_frame. cbv zeta. sims b. Qed.

(** The flag read for a frame at this address. *)
Lemma same_env_signal (e1 e2 : Env ReadT) :
  same_env s ip true e1 e2 →
  is_signal_frame s (env_heap e1) ip = in_signal_frame s ip ∧
  is_signal_frame s (env_heap e2) ip = in_signal_frame s ip.
Proof.
  intros (_ & _ & H1' & H2' & Hset). destruct (Hset eq_refl) as [S1 S2].
  split; by apply is_signal_frame_settled.
Qed.

Lemma x86_64_finish_sim frame new_ip extras :
  ip = address_for_lookup frame →
  usim (same_state true) (X86_64.finish_step s frame new_ip extras) (λ _, same_state true).
Proof.
  intros Hip. unfold X86_64.finish_step. cbv zeta. rewrite <- Hip. apply sim_get.
  intros [r e1] [r2 e2] [Hr He]. simpl in Hr, He. subst r2.
  destruct (same_env_signal _ _ He) as [-> ->]. split; [reflexivity|]. sims true.
Qed.

Lemma aarch64_finish_sim mask frame new_ip extras :
  ip = Aarch64.strip_ptr_auth mask (address_for_lookup frame) →
  usim (λ st1 st2, same_state true st1 st2 ∧ Aarch64.lr_mask st1.1 = mask)
    (Aarch64.finish_step s frame new_ip extras)
    (λ _ st1 st2, same_state true st1 st2 ∧ Aarch64.lr_mask st1.1 = mask).
Proof.
  intros Hip [r e1] [r2 e2] [[Hr He] Hm]. simpl in Hr, He, Hm. subst r2.
  destruct (same_env_signal _ _ He) as [E1 E2].
  unfold Aarch64.finish_step, mbind, sm_bind, sm_get, sm_lift, sm_err, sm_modify, mret, sm_ret.
  cbv zeta. rewrite Hm, <- Hip, E1, E2.
  repeat first [done | case_match; simplify_eq/=].
Qed.

Lemma x86_64_unwind_sim frame :
  ip = address_for_lookup frame →
  (has_unwind_info s ip = true → asks_at (A:=X86_64.x86_64_arch) read_fn _ X86_64.raw_ip s ip) ∨ plain s →
  usim (same_state false) (X86_64.unwind_frame read_fn s frame)
    (λ a, same_state (bool_decide (is_Some a))).
Proof.
  intros Hip Hask [r e1] [r2 e2] Hst. pose proof Hst as [Hr Henv]. simpl in Hr, Henv. subst r2.
  unfold X86_64.unwind_frame. cbv zeta. rewrite <- Hip.
  destruct (unwind_info_error _ _); [done|]. destruct (negb (has_unwind_info s ip)) eqn:Hi.
  - apply negb_true_iff in Hi.
    destruct (x86_64_fallback_sim true (address frame) _ _ (same_state_no_info _ _ Hi Hst)) as [Hres Hs].
    split; [done|]. destruct (_.1) as [[a|]| | | |]; try done. by eapply same_state_unasked.
  - apply negb_false_iff in Hi. set (raw := X86_64.from_public _ _).
    destruct (step_with_ctx_same (H0:=X86_64.x86_64_arch) read_fn X86_64.raw_ip s ip Hwf Ht
      (asks_or_plain _ _ _ Hask Hi) raw
      [Ffi.x86_64_regs.UNW_REG_SP; Ffi.x86_64_regs.UNW_X86_64_RBP] e1 e2 eq_refl Henv) as [Hs He].
    destruct (step_with_ctx _ _ _ _ _ e1) as [[[step1 f1] u1] e1'].
    destruct (step_with_ctx _ _ _ _ _ e2) as [[[step2 f2] u2] e2']. simpl in *. simplify_eq.
    destruct step2 as [[new_ip extras|]| | | |]; try done.
    destruct (x86_64_finish_sim frame new_ip extras Hip (r, e1') (r, e2') (conj eq_refl He))
      as [Hres Hs]. split; [done|].
    destruct (_.1) as [[a|]| | | |]; try done. by eapply same_state_unasked.
Qed.

Lemma aarch64_fallback_mask cur regs env a regs' env' :
  Aarch64.fallback_unwind_frame read_fn cur (regs, env) = (Ok a, (regs', env')) →
  Aarch64.lr_mask regs' = Aarch64.lr_mask regs.
Proof.
  intros Hf. pose proof (Aarch64.a64_fallback_cases read_fn cur regs env) as Hc. rewrite Hf in Hc.
  destruct a; [by destruct Hc as (_ & ? & ? & _ & _ & _ & _ & _ & -> & _)|by destruct Hc as [-> _]].
Qed.

Lemma aarch64_unwind_sim mask frame :
  ip = Aarch64.strip_ptr_auth mask (address_for_lookup frame) →
  (has_unwind_info s ip = true → asks_at (A:=Aarch64.aarch64_arch) read_fn _ Aarch64.raw_pc s ip) ∨ plain s →
  usim (λ st1 st2, same_state false st1 st2 ∧ Aarch64.lr_mask st1.1 = mask)
    (Aarch64.unwind_frame read_fn s frame)
    (λ a st1 st2, same_state (bool_decide (is_Some a)) st1 st2 ∧ Aarch64.lr_mask st1.1 = mask).
Proof.
  intros Hip Hask [r e1] [r2 e2] [Hst Hm]. pose proof Hst as [Hr Henv]. simpl in Hr, Henv, Hm. subst r2.
  unfold Aarch64.unwind_frame. cbv zeta. rewrite Hm, <- Hip.
  destruct (unwind_info_error _ _); [done|]. destruct (negb (has_unwind_info s ip)) eqn:Hi.
  - apply negb_true_iff in Hi. set (cur := Aarch64.strip_ptr_auth mask (address frame)).
    destruct (aarch64_fallback_sim true cur _ _ (same_state_no_info _ _ Hi Hst)) as [Hres Hs].
    split; [done|].
    destruct (Aarch64.fallback_unwind_frame read_fn cur (r, e1)) as [[[a|]| | | |] [r' e1']] eqn:Hf;
      cbn [fst snd] in Hs |- *; try done; apply aarch64_fallback_mask in Hf; rewrite Hm in Hf;
      (split; [|done]); [done|].
    by eapply same_state_unasked.
  - apply negb_false_iff in Hi. set (raw := Aarch64.mkRawRegs _ _ _ _).
    destruct (step_with_ctx_same (H0:=Aarch64.aarch64_arch) read_fn Aarch64.raw_pc s ip Hwf Ht
      (asks_or_plain _ _ _ Hask Hi) raw
      [Ffi.aarch64_regs.UNW_REG_SP; Ffi.aarch64_regs.UNW_AARCH64_X29;
       Ffi.aarch64_regs.UNW_AARCH64_X30] e1 e2 eq_refl Henv) as [Hs He].
    destruct (step_with_ctx _ _ _ _ _ e1) as [[[step1 f1] u1] e1'].
    destruct (step_with_ctx _ _ _ _ _ e2) as [[[step2 f2] u2] e2']. simpl in *. simplify_eq.
    destruct step2 as [[new_ip extras|]| | | |]; try done.
    destruct (aarch64_finish_sim (Aarch64.lr_mask r) frame new_ip extras Hip (r, e1') (r, e2')
      (conj (conj eq_refl He) eq_refl)) as [Hres Hs]. split; [done|].
    destruct (_.1) as [[a|]| | | |]; try done. destruct Hs as [Hs ?]. split; [|done].
    by eapply same_state_unasked.
Qed.
End unwinders.

(** ** The iterator

    [same_for u] relates environments between which the unwinder [u] cannot tell;
    [truth u] says which frames were interrupted by a signal.  After a step that
    found a return address the unwinder's own answer is the truth. *)
Definition blind_at {U : Type} `{Unwinder U} (same_for : U → relation EnvT)
    (truth : U → FrameAddress → UnwindRegs → bool) (u : U) (frame : FrameAddress)
    (regs : UnwindRegs) : Prop :=
  let same st1 st2 := st1.1 = st2.1 ∧ same_for u st1.2 st2.2 in
  sim (λ _ _, True) (λ st1 st2, same st1 st2 ∧ st1.1 = regs) (unwind_frame_of u frame)
    (λ a st1 st2, same st1 st2 ∧
      (is_Some a →
       is_signal_frame_at u frame st1.1 st1.2 = truth u frame regs ∧
       is_signal_frame_at u frame st2.1 st2.2 = truth u frame regs)).

Class CacheBlind (U : Type) `{Unwinder U} (same_for : U → relation EnvT)
    (truth : U → FrameAddress → UnwindRegs → bool) : Prop := {
  unwind_frame_blind u frame regs : blind_at same_for truth u frame regs;
}.

Section iterator.
Context {U : Type} `{Unwinder U} {same_for : U → relation EnvT}.
Context {truth : U → FrameAddress → UnwindRegs → bool} `{!CacheBlind U same_for truth}.

Definition same_iter : relation (UnwindIterator U) := λ it1 it2,
  unwinder it1 = unwinder it2 ∧ state it1 = state it2 ∧ it_regs it1 = it_regs it2 ∧
  same_for (unwinder it1) (it_env it1) (it_env it2).

Lemma next_sim : sim (λ _ _, True) same_iter next (λ _, same_iter).
Proof.
  intros [u st r e1] [u2 st2 r2 e2] (Hu & Hst & Hr & He). simpl in *. subst u2 st2 r2.
  unfold next, mbind, sm_bind, sm_get, sm_modify. simpl. destruct st as [pc|frame|]; [done| |done].
  destruct (unwind_frame_blind u frame r (r, e1) (r, e2) (conj (conj eq_refl He) eq_refl)) as [Hres Hs].
  unfold step_frame. simpl.
  destruct (unwind_frame_of u frame (r, e1)) as [r1 [regs1 env1]].
  destruct (unwind_frame_of u frame (r, e2)) as [r2 [regs2 env2]]. simpl in *. subst r2.
  destruct r1 as [[a|]| | | |]; try done; destruct Hs as [[Hregs Henv] Hsig]; simpl in *; subst regs2;
    [|done]. destruct Hsig as [-> ->]; [done|].
  destruct (truth _ _ _); [done|]. by destruct (from_return_address a).
Qed.

Lemma drain_same n it1 it2 : same_iter it1 it2 → drain n it1 = drain n it2.
Proof.
  revert it1 it2. induction n as [|n IH]; intros it1 it2 Hit; [done|]. cbn [drain].
  destruct (next_sim it1 it2 Hit) as [Hr Hit'].
  destruct (next it1) as [r1 it1'], (next it2) as [r2 it2']. simpl in *. subst r2.
  destruct r1 as [[f|]| | | |]; try done. by rewrite (IH it1' it2' Hit').
Qed.

End iterator.

(** How the iterator marks the frame it moves to. *)
Lemma next_classifies {U : Type} `{Unwinder U} (same_for : U → relation EnvT) truth u frame regs env :
  blind_at same_for truth u frame regs → same_for u env env →
  (next (mkUnwindIterator u (Unwinding frame) regs env)).1 =
  (return_address ← (unwind_frame_of u frame (regs, env)).1;
   Ok (return_address ≫= λ a,
     if truth u frame regs then Some (InstructionPointer a) else from_return_address a)).
Proof.
  intros Hb He. unfold next, mbind, sm_bind, outcome_bind, option_bind, sm_get, sm_modify. simpl.
  destruct (Hb (regs, env) (regs, env) (conj (conj eq_refl He) eq_refl)) as [_ Hs].
  unfold step_frame. simpl.
  destruct (unwind_frame_of u frame (regs, env)) as [[[a|]| | | |] [regs1 env1]]; try done.
  simpl in Hs |- *. destruct Hs as [_ [-> _]]; [done|].
  destruct (truth u frame regs); [done|]. by destruct (from_return_address a).
Qed.

(** Both architectures are blind to the caches of a well-formed registry. *)
Section blind.
Context `{Profile} `{LibunwindApi} {ReadT : Type} (read_fn : ReadT → Z → option Z * ReadT).

(** The steps through [s] satisfy [K]. *)
Definition same_env_for (K : ModuleSet → Prop) (s : ModuleSet) : relation (Env ReadT) := λ e1 e2,
  set_wf s ∧ tables_match s ∧ K s ∧
  env_read e1 = env_read e2 ∧ env_static e1 = env_static e2 ∧
  caches_ok s (env_heap e1) ∧ caches_ok s (env_heap e2).

Lemma same_env_for_at K s ip e1 e2 : same_env_for K s e1 e2 → same_env s ip false e1 e2.
Proof. intros (_ & _ & _ & Hr & Hst & H1' & H2'). by split_and!. Qed.

Lemma same_env_for_after K s ip b e1 e2 e1' e2' :
  same_env_for K s e1 e2 → same_env s ip b e1' e2' → same_env_for K s e1' e2'.
Proof. intros (Hwf & Ht & HK & _) (Hr & Hst & H1' & H2' & _). by split_and!. Qed.

(** The signal frames of the modules. *)
Definition x86_64_signal (u : UnwinderX86_64) (frame : FrameAddress) : bool :=
  in_signal_frame (x86_modules u) (address_for_lookup frame).
Definition aarch64_signal (u : UnwinderAarch64) (frame : FrameAddress)
    (regs : Aarch64.UnwindRegsAarch64) : bool :=
  in_signal_frame (a64_modules u)
    (Aarch64.strip_ptr_auth (Aarch64.lr_mask regs) (address_for_lookup frame)).

Lemma aarch64_signal_at u frame regs (st1 st2 : Aarch64.UnwindRegsAarch64 * Env ReadT) :
  set_wf (a64_modules u) → tables_match (a64_modules u) →
  st1.1 = st2.1 → Aarch64.lr_mask st1.1 = Aarch64.lr_mask regs →
  same_env (a64_modules u)
    (Aarch64.strip_ptr_auth (Aarch64.lr_mask regs) (address_for_lookup frame)) true st1.2 st2.2 →
  Aarch64.unwinder_is_signal_frame (a64_modules u) (env_heap st1.2) frame st1.1 =
    aarch64_signal u frame regs ∧
  Aarch64.unwinder_is_signal_frame (a64_modules u) (env_heap st2.2) frame st2.1 =
    aarch64_signal u frame regs.
Proof.
  intros Hwf Ht Hr Hm He. unfold Aarch64.unwinder_is_signal_frame. rewrite <- Hr, Hm.
  exact (same_env_signal _ _ Hwf Ht _ _ He).
Qed.

Lemma x86_64_blind_at K u frame regs :
  let ip := address_for_lookup frame in
  (K (x86_modules u) →
   (has_unwind_info (x86_modules u) ip = true →
    asks_at (A:=X86_64.x86_64_arch) read_fn _ X86_64.raw_ip (x86_modules u) ip) ∨
   plain (x86_modules u)) →
  blind_at (H:=x86_64_unwinder read_fn) (λ u, same_env_for K (x86_modules u))
    (λ u frame _, x86_64_signal u frame) u frame regs.
Proof.
  intros ip Hask [r1 e1] [r2 e2] [[Hr He] _]. simpl in Hr, He. subst r2.
  pose proof He as (Hwf & Ht & HK & _).
  destruct (x86_64_unwind_sim read_fn (x86_modules u) _ Hwf Ht frame eq_refl (Hask HK) (r1, e1)
    (r1, e2) (conj eq_refl (same_env_for_at _ _ _ _ _ He))) as [Hres Hs]. split; [done|].
  change (unwind_frame_of u frame) with (X86_64.unwind_frame read_fn (x86_modules u) frame).
  destruct (_.1) as [a| | | |]; [|done..]. destruct Hs as [Hregs Henv].
  split; [split; [done|by eapply same_env_for_after]|]. intros [a' ->].
  exact (same_env_signal _ _ Hwf Ht _ _ Henv).
Qed.

Lemma aarch64_blind_at K u frame regs :
  let ip := Aarch64.strip_ptr_auth (Aarch64.lr_mask regs) (address_for_lookup frame) in
  (K (a64_modules u) →
   (has_unwind_info (a64_modules u) ip = true →
    asks_at (A:=Aarch64.aarch64_arch) read_fn _ Aarch64.raw_pc (a64_modules u) ip) ∨
   plain (a64_modules u)) →
  blind_at (H:=aarch64_unwinder read_fn) (λ u, same_env_for K (a64_modules u))
    aarch64_signal u frame regs.
Proof.
  intros ip Hask [r1 e1] [r2 e2] [[Hr He] Hm]. simpl in Hr, He, Hm. subst r1 r2.
  pose proof He as (Hwf & Ht & HK & _).
  destruct (aarch64_unwind_sim read_fn (a64_modules u) _ Hwf Ht (Aarch64.lr_mask regs) frame
    eq_refl (Hask HK) (regs, e1) (regs, e2)
    (conj (conj eq_refl (same_env_for_at _ _ _ _ _ He)) eq_refl)) as [Hres Hs]. split; [done|].
  change (unwind_frame_of u frame) with (Aarch64.unwind_frame read_fn (a64_modules u) frame).
  destruct (_.1) as [a| | | |]; [|done..]. destruct Hs as [[Hregs Henv] Hmask].
  split; [split; [done|by eapply same_env_for_after]|]. intros [a' ->].
  exact (aarch64_signal_at _ _ _ _ _ Hwf Ht Hregs Hmask Henv).
Qed.

(** For all steps of a walk. *)
Lemma x86_64_blind :
  CacheBlind (H:=x86_64_unwinder read_fn) UnwinderX86_64
    (λ u, same_env_for (λ s, asks (A:=X86_64.x86_64_arch) read_fn _ X86_64.raw_ip s ∨ plain s)
            (x86_modules u))
    (λ u frame _, x86_64_signal u frame).
Proof.
  split. intros u frame regs. apply x86_64_blind_at. intros [Ha|Hp]; [left; apply Ha|by right].
Qed.

Lemma aarch64_blind :
  CacheBlind (H:=aarch64_unwinder read_fn) UnwinderAarch64
    (λ u, same_env_for (λ s, asks (A:=Aarch64.aarch64_arch) read_fn _ Aarch64.raw_pc s ∨ plain s)
            (a64_modules u))
    aarch64_signal.
Proof.
  split. intros u frame regs. apply aarch64_blind_at. intros [Ha|Hp]; [left; apply Ha|by right].
Qed.
End blind.

(** ** The flag is never set wrongly *)
Section sound.
Context `{Profile} `{LibunwindApi} {ReadT : Type} (read_fn : ReadT → Z → option Z * ReadT).

(** When the iterator moves to a plain instruction pointer, the flag was set. *)
Lemma next_interrupted {U : Type} `{Unwinder U} u frame regs env a :
  (next (mkUnwindIterator u (Unwinding frame) regs env)).1 = Ok (Some (InstructionPointer a)) →
  is_signal_frame_at u frame (unwind_frame_of u frame (regs, env)).2.1
    (unwind_frame_of u frame (regs, env)).2.2 = true.
Proof.
  unfold next, mbind, sm_bind, sm_get, sm_modify, step_frame. simpl.
  destruct (unwind_frame_of u frame (regs, env)) as [[[ra|]| | | |] [regs1 env1]]; try done. simpl.
  destruct (is_signal_frame_at u frame regs1 env1); [done|].
  unfold from_return_address. by destruct (_ =? 0).
Qed.

Lemma x86_64_next_sound u frame regs env :
  set_wf (x86_modules u) → tables_match (x86_modules u) →
  caches_ok (x86_modules u) (env_heap env) → ∀ a,
  (next (mkUnwindIterator (H:=x86_64_unwinder read_fn) u (Unwinding frame) regs env)).1 =
    Ok (Some (InstructionPointer a)) →
  in_signal_frame (x86_modules u) (address_for_lookup frame) = true.
Proof.
  intros Hwf Ht Hc a Hn%next_interrupted.
  eapply is_signal_frame_sound; [done|done| |exact Hn].
  by apply (x86_64_unwind_moves read_fn (x86_modules u) frame regs env Hwf).
Qed.

Lemma aarch64_next_sound u frame regs env :
  set_wf (a64_modules u) → tables_match (a64_modules u) →
  caches_ok (a64_modules u) (env_heap env) → ∀ a,
  (next (mkUnwindIterator (H:=aarch64_unwinder read_fn) u (Unwinding frame) regs env)).1 =
    Ok (Some (InstructionPointer a)) →
  in_signal_frame (a64_modules u)
    (Aarch64.strip_ptr_auth (Aarch64.lr_mask regs) (address_for_lookup frame)) = true.
Proof.
  intros Hwf Ht Hc a Hn%next_interrupted.
  rewrite <- (aarch64_unwind_mask read_fn (a64_modules u) frame regs env).
  eapply is_signal_frame_sound; [done|done| |exact Hn].
  by apply (aarch64_unwind_moves read_fn (a64_modules u) frame regs env Hwf).
Qed.
End sound.

(** ** Warm and cold caches *)
Section cold.
Context `{Profile}.

(** All caches emptied. *)
Definition cold (h : Heap) : Heap := mkHeap ((λ _, mkCacheCell false []) <$> cells h) (next_loc h).

Lemma cold_lock h m cache : lock h m = Some cache → lock (cold h) m = Some [].
Proof. unfold lock, cold. simpl. rewrite lookup_fmap. by destruct (cells h !! function_cache m). Qed.

Lemma cold_caches_ok s h : caches_ok s h → caches_ok s (cold h).
Proof.
  intros [Hi Hc]. split; [done|]. intros m Hm. destruct (Hc m Hm) as (cache & Hl & _).
  exists []. split; [by eapply cold_lock|]. by split.
Qed.

Context {U : Type} `{NativeUnwinder U} `{!NativeUnwinderLaws U} {ReadT : Type}.

(** In a session the caches and emptied caches are environments alike. *)
Lemma session_same_cold K (S : Session U) u (rs : ReadT) :
  session_reachable S → u ∈ s_unwinders S → tables_match (modules_of u) → K (modules_of u) →
  let e := mkEnv rs (s_heap S) (s_static S) in
  same_env_for K (modules_of u) e (mkEnv rs (cold (s_heap S)) (s_static S)) ∧
  same_env_for K (modules_of u) e e.
Proof.
  intros HS%session_reachable_inv Hu Ht HK e.
  pose proof (reachable_wf _ (inv_registries S HS u Hu)) as Hwf.
  pose proof (session_caches_ok S u HS Hu) as Hc. pose proof (cold_caches_ok _ _ Hc) as Hc'.
  split.
  - exact (conj Hwf (conj Ht (conj HK (conj eq_refl (conj eq_refl (conj Hc Hc')))))).
  - exact (conj Hwf (conj Ht (conj HK (conj eq_refl (conj eq_refl (conj Hc Hc)))))).
Qed.
End cold.

(** ** Properties *)

(** C8: what a stack walk finds does not depend on the caches: in every session,
    after any calls on any unwinders that share modules, and on both
    architectures, walking a stack with any registers and stack reader yields the
    same frames and the same end as with all caches empty, when the modules'
    headers match their FDEs, and either libunwind asks for a frame's unwind
    information before it reports a step, unless it reads a trampoline word at the
    frame's address, which no code of the modules shows ([asks]; the bundled
    libunwind does, see [LibunwindConsults]), or the modules have no signal
    frames. *)
Theorem warm_walk_is_cold_walk `{Profile} (L : LibunwindApi) {ReadT}
    (read_fn : ReadT → Z → option Z * ReadT) (rs : ReadT) (n : nat) (pc : Z) :
  (∀ (S : Session UnwinderX86_64) (u : UnwinderX86_64) (regs : X86_64.UnwindRegsX86_64),
     session_reachable (H0:=x86_64_native) S → u ∈ s_unwinders S →
     tables_match (x86_modules u) →
     asks (A:=X86_64.x86_64_arch) read_fn L X86_64.raw_ip (x86_modules u) ∨ plain (x86_modules u) →
     drain n (iter_frames (H:=x86_64_unwinder read_fn) u pc regs
                (mkEnv rs (s_heap S) (s_static S))) =
     drain n (iter_frames (H:=x86_64_unwinder read_fn) u pc regs
                (mkEnv rs (cold (s_heap S)) (s_static S)))) ∧
  (∀ (S : Session UnwinderAarch64) (u : UnwinderAarch64) (regs : Aarch64.UnwindRegsAarch64),
     session_reachable (H0:=aarch64_native) S → u ∈ s_unwinders S →
     tables_match (a64_modules u) →
     asks (A:=Aarch64.aarch64_arch) read_fn L Aarch64.raw_pc (a64_modules u) ∨
       plain (a64_modules u) →
     drain n (iter_frames (H:=aarch64_unwinder read_fn) u pc regs
                (mkEnv rs (s_heap S) (s_static S))) =
     drain n (iter_frames (H:=aarch64_unwinder read_fn) u pc regs
                (mkEnv rs (cold (s_heap S)) (s_static S)))).
Proof.
  split; intros S u regs HS Hu Ht Hask.
  - pose proof (session_same_cold (H0:=x86_64_native) (NativeUnwinderLaws0:=x86_64_native_laws)
      (λ s, asks (A:=X86_64.x86_64_arch) read_fn _ X86_64.raw_ip s ∨ plain s) S u rs HS Hu Ht Hask) as [He _].
    apply (drain_same (CacheBlind0:=x86_64_blind read_fn)).
    exact (conj eq_refl (conj eq_refl (conj eq_refl He))).
  - pose proof (session_same_cold (H0:=aarch64_native) (NativeUnwinderLaws0:=aarch64_native_laws)
      (λ s, asks (A:=Aarch64.aarch64_arch) read_fn _ Aarch64.raw_pc s ∨ plain s) S u rs HS Hu Ht Hask) as [He _].
    apply (drain_same (CacheBlind0:=aarch64_blind read_fn)).
    exact (conj eq_refl (conj eq_refl (conj eq_refl He))).
Qed.

(** C9: signal frames are recognised from the unwind sections: in every session,
    whatever its caches hold, when the modules' headers match their FDEs, [next]
    moves from a frame to the return address that [unwind_frame] found, as a plain
    instruction pointer exactly when the sections mark the frame's own function as
    a signal frame, and otherwise as a return address; it ends when there is none,
    and fails when [unwind_frame] does.  On x86_64 this needs that libunwind asks
    for a frame's unwind information before it reports a step; on aarch64 that it
    does so except for a frame whose word, as the callbacks show it, is the
    kernel's signal-return stub, and that the frame's is not (both hold of the
    bundled libunwind, see [LibunwindConsults]); or else that the modules have no
    signal frames.  Without any of these, whatever libunwind does, a frame is moved
    to as a plain instruction pointer only if the sections mark the function it was
    reached from as a signal frame. *)
Theorem signal_frames_recognised `{Profile} (L : LibunwindApi) {ReadT}
    (read_fn : ReadT → Z → option Z * ReadT) (rs : ReadT) (frame : FrameAddress) :
  (∀ (S : Session UnwinderX86_64) (u : UnwinderX86_64) (regs : X86_64.UnwindRegsX86_64),
     session_reachable (H0:=x86_64_native) S → u ∈ s_unwinders S →
     tables_match (x86_modules u) →
     let env := mkEnv rs (s_heap S) (s_static S) in
     let lookup_ip := address_for_lookup frame in
     let moved :=
       (next (mkUnwindIterator (H:=x86_64_unwinder read_fn) u (Unwinding frame) regs env)).1 in
     (LibunwindConsults (A:=X86_64.x86_64_arch) L X86_64.raw_ip no_trampoline ∨
      plain (x86_modules u) →
      moved =
      (return_address ← (X86_64.unwind_frame read_fn (x86_modules u) frame (regs, env)).1;
       Ok (return_address ≫= λ a,
         if in_signal_frame (x86_modules u) lookup_ip
         then Some (InstructionPointer a) else from_return_address a))) ∧
     (∀ a, moved = Ok (Some (InstructionPointer a)) →
        in_signal_frame (x86_modules u) lookup_ip = true)) ∧
  (∀ (S : Session UnwinderAarch64) (u : UnwinderAarch64) (regs : Aarch64.UnwindRegsAarch64),
     session_reachable (H0:=aarch64_native) S → u ∈ s_unwinders S →
     tables_match (a64_modules u) →
     let env := mkEnv rs (s_heap S) (s_static S) in
     let lookup_ip := Aarch64.strip_ptr_auth (Aarch64.lr_mask regs) (address_for_lookup frame) in
     let moved :=
       (next (mkUnwindIterator (H:=aarch64_unwinder read_fn) u (Unwinding frame) regs env)).1 in
     (LibunwindConsults (A:=Aarch64.aarch64_arch) L Aarch64.raw_pc sigreturn_word ∧
      word_unread read_fn (a64_modules u) sigreturn_word lookup_ip ∨
      plain (a64_modules u) →
      moved =
      (return_address ← (Aarch64.unwind_frame read_fn (a64_modules u) frame (regs, env)).1;
       Ok (return_address ≫= λ a,
         if in_signal_frame (a64_modules u) lookup_ip
         then Some (InstructionPointer a) else from_return_address a))) ∧
     (∀ a, moved = Ok (Some (InstructionPointer a)) →
        in_signal_frame (a64_modules u) lookup_ip = true)).
Proof.
  split; intros S u regs HS Hu Ht env lookup_ip moved; split.
  - intros Hask.
    pose proof (session_same_cold (H0:=x86_64_native) (NativeUnwinderLaws0:=x86_64_native_laws)
      (λ _, True) S u rs HS Hu Ht I) as [_ He].
    refine (next_classifies (H:=x86_64_unwinder read_fn) _ _ u frame regs env
      (x86_64_blind_at read_fn (λ _, True) u frame regs _) He).
    intros _. destruct Hask as [Hc|Hp]; [left|by right]. intros _. by exists no_trampoline.
  - apply x86_64_next_sound; [exact (session_wf (NU:=x86_64_native) (NativeUnwinderLaws0:=x86_64_native_laws) S u HS Hu)|done|].
    exact (session_caches (NU:=x86_64_native) (NativeUnwinderLaws0:=x86_64_native_laws) S u HS Hu).
  - intros Hask.
    pose proof (session_same_cold (H0:=aarch64_native) (NativeUnwinderLaws0:=aarch64_native_laws)
      (λ _, True) S u rs HS Hu Ht I) as [_ He].
    refine (next_classifies (H:=aarch64_unwinder read_fn) _ _ u frame regs env
      (aarch64_blind_at read_fn (λ _, True) u frame regs _) He).
    intros _. destruct Hask as [[Hc Hr]|Hp]; [left|by right]. intros _. by exists sigreturn_word.
  - apply aarch64_next_sound; [exact (session_wf (NU:=aarch64_native) (NativeUnwinderLaws0:=aarch64_native_laws) S u HS Hu)|done|].
    exact (session_caches (NU:=aarch64_native) (NativeUnwinderLaws0:=aarch64_native_laws) S u HS Hu).
Qed.

(** *** Witnesses: a session whose only module is one signal frame *)
#[local] Instance warm_profile : Profile := session_profile.
#[local] Instance warm_libunwind : LibunwindApi := session_libunwind.
#[local] Instance warm_laws : LibunwindLaws warm_libunwind := session_libunwind_laws.
#[local] Instance warm_native : NativeUnwinder UnwinderX86_64 := session_native.

Lemma warm_consults :
  LibunwindConsults (A:=X86_64.x86_64_arch) warm_libunwind X86_64.raw_ip no_trampoline.
Proof.
  split. intros raw h excused. cbn. repeat (case_match; cbn); by right.
Qed.

(** A CIE with the augmentation [zS], and an FDE of it for 0x1000 to 0x1010. *)
Definition sig_eh_frame : list Z :=
  le_encode 4 12 ++ le_encode 4 0 ++ [1; 0x7a; 0x53; 0; 1; 0x78; 16; 0]
  ++ le_encode 4 21 ++ le_encode 4 20 ++ le_encode 8 0x1000 ++ le_encode 8 0x10 ++ [0].
Definition sig_hdr : list Z :=
  [1; 0x03; 0x03; 0x3b] ++ le_encode 4 0x3000 ++ le_encode 4 1
  ++ le_encode 4 (0x1000 - 0x4000) ++ le_encode 4 (0x3010 - 0x4000).
Definition sig_sections : DwarfModuleSections :=
  mkDwarfModuleSections 0 (Some (mkRange 0x1000 0x2000)) None
    (Some (mkRange 0x3000 (0x3000 + len sig_eh_frame))) (Some sig_eh_frame)
    (Some (mkRange 0x4000 (0x4000 + len sig_hdr))) (Some sig_hdr).
Definition sig_module : ModuleData :=
  mkModuleData "sig" (mkRange 0x1000 0x2000) 0
    [mirror 0x4000 sig_hdr; mirror 0x3000 sig_eh_frame]
    (mkEhFrameTable 12 1 0x4000) (as_ptr sig_hdr) (len sig_hdr)
    (as_ptr sig_eh_frame) (len sig_eh_frame) 0x3000 None 0 0x1000 0x4000.
Definition sig_details : FunctionDetails :=
  mkFunctionDetails 0x1000 0x1010
    (mkDwarfCieInfo 0x3010 0x3010 0x3029 0x3029 1 (as_u64 (-8)) 16 0 0 0 0 0xff 5) 0 0 true.
Definition sig_set : ModuleSet := add ModuleSet.new sig_module.

Example sig_details_parsed : parse_function_details sig_module 0x1004 = Ok sig_details.
Proof. vm_compute. reflexivity. Qed.

Lemma sig_matches : table_matches_fdes sig_module.
Proof. apply (one_entry_matches _ sig_hdr (0x1000, 0x3010) sig_details); by vm_compute. Qed.

Lemma sig_tables_match : tables_match sig_set.
Proof.
  intros m. unfold registered. generalize (start (avma_range m)). intros k.
  change (bt_get k [(0x1000, sig_module)] = Some m → table_matches_fdes m).
  cbn [bt_get]. destruct (0x1000 =? k); [intros [= <-]; apply sig_matches|done].
Qed.

Definition sig_unwinder : UnwinderX86_64 := mkUnwinderX86_64 sig_set.
Definition sig_session : Session UnwinderX86_64 :=
  mkSession one_fde_heap None [sig_module] [sig_unwinder; sig_unwinder].

Lemma sig_session_reachable : session_reachable sig_session.
Proof.
  assert (session_reachable (mkSession (U:=UnwinderX86_64) one_fde_heap None [sig_module] [])) as H1.
  { eapply session_next; [apply session_start|].
    apply (step_build session_init sig_module one_fde_heap).
    apply (built_dwarf _ _ _ "sig" (mkRange 0x1000 0x2000) 0 sig_sections);
      [split; intros b [= <-]; by_compute|by vm_compute]. }
  eapply session_next in H1; [|apply step_new].
  eapply session_next in H1; [|eapply (step_add _ 0%nat _ sig_module); [reflexivity|by left]].
  eapply session_next in H1; [|by eapply (step_clone _ 0%nat)].
  exact H1.
Qed.

(** The same session after the clone has unwound a frame. *)
Definition warm_env : Env () :=
  (X86_64.unwind_frame X86_64.demo_read sig_set (InstructionPointer 0x1004)
     (X86_64.demo_regs, mkEnv () one_fde_heap None)).2.2.
Definition warm_session : Session UnwinderX86_64 :=
  mkSession (env_heap warm_env) (env_static warm_env) [sig_module] [sig_unwinder; sig_unwinder].

Example warm_is_not_cold :
  lock (env_heap warm_env) sig_module = Some [(0x1000, sig_details)] ∧
  lock (cold (env_heap warm_env)) sig_module = Some [].
Proof. split; vm_compute; reflexivity. Qed.

Lemma warm_session_reachable : session_reachable warm_session.
Proof.
  eapply session_next; [apply sig_session_reachable|].
  assert (continues (native_unwind_frame X86_64.demo_read sig_unwinder (InstructionPointer 0x1004)
            (X86_64.demo_regs, mkEnv () one_fde_heap None)).1) as Hr by (vm_compute; by split).
  unfold warm_session.
  change warm_env with (native_unwind_frame X86_64.demo_read sig_unwinder (InstructionPointer 0x1004)
            (X86_64.demo_regs, mkEnv () one_fde_heap None)).2.2.
  destruct (native_unwind_frame X86_64.demo_read sig_unwinder _ _) as [r [regs' env']] eqn:E.
  exact (step_unwind sig_session 1 sig_unwinder X86_64.demo_read (InstructionPointer 0x1004)
           X86_64.demo_regs () r regs' env' eq_refl eq_refl E Hr).
Qed.

Lemma warm_walk_is_cold_walk_witness :
  let walk h := drain 3 (iter_frames (H:=x86_64_unwinder X86_64.demo_read) sig_unwinder 0x1004
                           X86_64.demo_regs (mkEnv () h (env_static warm_env))) in
  walk (env_heap warm_env) = walk (cold (env_heap warm_env)).
Proof.
  refine (proj1 (warm_walk_is_cold_walk warm_libunwind X86_64.demo_read () 3 0x1004)
            warm_session sig_unwinder X86_64.demo_regs warm_session_reachable _
            sig_tables_match (or_introl (λ ip _, ex_intro _ _ (conj warm_consults _)))).
  - by left.
  - by split.
Defined.

(** *** The signal-return stub on aarch64

    A libunwind that, like the bundled one, looks for the stub before it asks: it
    steps over a stub frame by itself. *)
Definition stub_libunwind : LibunwindApi :=
  let toy ip := toy_libunwind ip aarch64_regs.UNW_REG_SP aarch64_regs.UNW_AARCH64_X29 in {|
  UnwCursor := Z * Z * Z;
  cursor_zeroed := (0, 0, 0);
  unw_create_addr_space := @unw_create_addr_space (toy 0);
  unw_init_remote := @unw_init_remote (toy aarch64_regs.UNW_AARCH64_PC);
  unw_step := λ '(ip, sp, bp),
    UAccessMem ip 0 0 (λ r word,
      if (0 <=? r) && sigreturn_word word then
        UAccessMem sp 0 0 (λ r v,
          if r <? 0 then URet (- UNW_EINVAL, (ip, sp, bp)) else URet (1, (v, sp + 8, bp)))
      else @unw_step (toy 0) (ip, sp, bp));
  unw_get_reg := @unw_get_reg (toy aarch64_regs.UNW_REG_IP);
|}.

Lemma stub_consults :
  LibunwindConsults (A:=Aarch64.aarch64_arch) stub_libunwind Aarch64.raw_pc sigreturn_word.
Proof.
  split. intros [pc sp fp lr] h excused. cbn. right. intros r v Hx.
  destruct (Z.leb_spec 0 r) as [Hr|]; cbn; [|done].
  specialize (Hx Hr). unfold excused in Hx. rewrite Z.eqb_refl in Hx. cbn in Hx. by rewrite Hx.
Qed.

Definition stub_unwinder : UnwinderAarch64 := mkUnwinderAarch64 sig_set.
Definition stub_regs : Aarch64.UnwindRegsAarch64 := Aarch64.new 0x1004 0x8000 0.
Definition stub_session : Session UnwinderAarch64 :=
  mkSession one_fde_heap None [sig_module] [stub_unwinder].

#[local] Instance stub_native : NativeUnwinder UnwinderAarch64 :=
  aarch64_native (L:=stub_libunwind).

Lemma stub_session_reachable : session_reachable stub_session.
Proof.
  assert (session_reachable (mkSession (U:=UnwinderAarch64) one_fde_heap None [sig_module] [])) as H1.
  { eapply session_next; [apply session_start|].
    apply (step_build session_init sig_module one_fde_heap).
    apply (built_dwarf _ _ _ "sig" (mkRange 0x1000 0x2000) 0 sig_sections);
      [split; intros b [= <-]; by_compute|by vm_compute]. }
  eapply session_next in H1; [|apply step_new].
  eapply session_next in H1; [|eapply (step_add _ 0%nat _ sig_module); [reflexivity|by left]].
  exact H1.
Qed.

Lemma stub_unread : word_unread X86_64.demo_read sig_set sigreturn_word 0x1004.
Proof.
  split; [done|]. intros p bytes Hl.
  assert (lookup_local sig_set 0x1004 = None) by by vm_compute. congruence.
Qed.

(** The frame after the signal frame is not a return address: on x86_64, and on
    aarch64 when the reader does not show the code. *)
Lemma signal_frames_recognised_witness :
  (next (mkUnwindIterator (H:=x86_64_unwinder X86_64.demo_read) sig_unwinder
           (Unwinding (InstructionPointer 0x1004)) X86_64.demo_regs
           (mkEnv () (s_heap sig_session) (s_static sig_session)))).1 =
  Ok (Some (InstructionPointer 0x1008)) ∧
  (next (mkUnwindIterator (H:=@aarch64_unwinder _ stub_libunwind _ X86_64.demo_read) stub_unwinder
           (Unwinding (InstructionPointer 0x1004)) stub_regs
           (mkEnv () (s_heap stub_session) (s_static stub_session)))).1 =
  Ok (Some (InstructionPointer 0x1008)).
Proof.
  split; (etransitivity; [|by vm_compute]).
  - refine (proj1 (proj1 (signal_frames_recognised warm_libunwind X86_64.demo_read ()
              (InstructionPointer 0x1004))
              sig_session sig_unwinder X86_64.demo_regs sig_session_reachable _ sig_tables_match)
            (or_introl warm_consults)).
    by left.
  - refine (proj1 (proj2 (signal_frames_recognised stub_libunwind X86_64.demo_read ()
              (InstructionPointer 0x1004))
              stub_session stub_unwinder stub_regs stub_session_reachable _ sig_tables_match)
            (or_introl (conj stub_consults _))).
    + by left.
    + exact stub_unread.
Defined.

(** When the reader shows the stub, libunwind steps over the frame without asking,
    so what the flag says depends on the caches: unset with empty ones, set after
    another thread looked the function up. *)
Definition stub_read (u : ()) (a : Z) : option Z * () :=
  (if a =? 0x1004 then Some SIGNAL_RETURN else if a =? 0x8000 then Some 0x1008 else None, u).

Theorem stub_frame_flag_depends_on_cache :
  let moved h := (next (mkUnwindIterator (H:=@aarch64_unwinder _ stub_libunwind _ stub_read)
                          stub_unwinder (Unwinding (InstructionPointer 0x1004)) stub_regs
                          (mkEnv () h None))).1 in
  in_signal_frame sig_set 0x1004 = true ∧
  moved one_fde_heap = Ok (Some (ReturnAddress 0x1008)) ∧
  moved (env_heap warm_env) = Ok (Some (InstructionPointer 0x1008)).
Proof. vm_compute. done. Qed.
