(* ===== verification/Process.v ===== *)
(** * The operating system around a command-line program

    What [src/build.rs] and [src/examples/cpp_unwind_bench.rs] use of [std::env],
    [std::fs], [std::process] and [println!]: operations that append to the
    history of what the program did.  The system is a parameter whose answers may
    depend on that history. *)

From Stdlib Require Import Ascii String.
From stdpp Require Import strings.
From S2P Require Import Prelude.
Local Open Scope string_scope.
Local Open Scope Z_scope.

(** [Command]: the program, its arguments and [current_dir]. *)
Record Command : Type := mkCommand {
  cmd_program : string;
  cmd_args : list string;
  cmd_dir : option string;
}.

(** What a program did: a run of a command with its success, the creation of a
    directory, a file written, a line on standard output. *)
Inductive Event : Type :=
  | Ran (c : Command) (success : bool)
  | CreatedDirs (path : string)
  | Wrote (path contents : string)
  | Printed (line : string).

#[export] Instance Command_eq_dec : EqDecision Command.
Proof. solve_decision. Defined.
#[export] Instance Event_eq_dec : EqDecision Event.
Proof. solve_decision. Defined.

Class System : Type := {
  sys_io_error : Type;
  sys_io_display : sys_io_error → string;
  sys_io_debug : sys_io_error → string;
  exit_status : Type;
  status_success : exit_status → bool;
  status_display : exit_status → string;
  env_var : string → option string;
  sys_is_file : list Event → string → bool;
  sys_exists : list Event → string → bool;
  sys_create_dir_all : list Event → string → sys_io_error + ();
  sys_write : list Event → string → string → sys_io_error + ();
  sys_read : list Event → string → sys_io_error + list Z;
  sys_status : list Event → Command → sys_io_error + exit_status;
}.

(** ** Programs: state is the history *)
Section process.
Context `{System} {E : Type}.
Local Abbreviation PM := (SM (list Event) E).

Definition record_event (e : Event) : PM () := sm_modify (λ tr, (tr ++ [e])%list).

Definition println (line : string) : PM () := record_event (Printed line).

(** [Command::status]. *)
Definition run_status (c : Command) : PM (sys_io_error + exit_status) :=
  tr ← sm_get;
  let r := sys_status tr c in
  _ ← record_event (Ran c (if r is inr s then status_success s else false));
  mret r.

Definition create_dir_all (path : string) : PM (sys_io_error + ()) :=
  tr ← sm_get;
  match sys_create_dir_all tr path with
  | inl e => mret (inl e)
  | inr _ => _ ← record_event (CreatedDirs path); mret (inr ())
  end.

Definition write_file (path contents : string) : PM (sys_io_error + ()) :=
  tr ← sm_get;
  match sys_write tr path contents with
  | inl e => mret (inl e)
  | inr _ => _ ← record_event (Wrote path contents); mret (inr ())
  end.

Definition is_file (path : string) : PM bool := tr ← sm_get; mret (sys_is_file tr path).
Definition path_exists (path : string) : PM bool := tr ← sm_get; mret (sys_exists tr path).
Definition read_file (path : string) : PM (sys_io_error + list Z) :=
  tr ← sm_get; mret (sys_read tr path).

Lemma println_eq line tr : println line tr = (Ok (), (tr ++ [Printed line])%list).
Proof. reflexivity. Qed.
Lemma is_file_eq path tr : is_file path tr = (Ok (sys_is_file tr path), tr).
Proof. reflexivity. Qed.
End process.

(** [Path::join] with a relative second component. *)
Definition ends_with_slash (s : string) : bool :=
  match String.get (String.length s - 1) s with Some c => Ascii.eqb c "/"%char | None => false end.
Definition join (a b : string) : string :=
  if (String.length a =? 0)%nat then b
  else if ends_with_slash a then a +:+ b else a +:+ "/" +:+ b.

(** ** Reasoning about programs *)
Section logic.
Context {E : Type}.
Local Abbreviation PM := (SM (list Event) E).

(** [runs P m Q R]: from [P], [m] returns normally with [Q] or stops with an
    error and [R]; nothing else. *)
Definition runs {A} (P : list Event → Prop) (m : PM A) (Q : A → list Event → Prop)
    (R : list Event → Prop) : Prop :=
  ∀ tr, P tr → match m tr with
               | (Ok a, tr') => Q a tr'
               | (Err _, tr') => R tr'
               | _ => False
               end.

Lemma runs_ret {A} P (a : A) (Q : A → list Event → Prop) R :
  (∀ tr, P tr → Q a tr) → runs P (mret a) Q R.
Proof. intros H tr Htr. by apply H. Qed.

Lemma runs_err {A} P e (Q : A → list Event → Prop) R :
  (∀ tr, P tr → R tr) → runs P (sm_err e) Q R.
Proof. intros H tr Htr. by apply H. Qed.

Lemma runs_bind {A B} P (m : PM A) (f : A → PM B) Q Q' R :
  runs P m Q R → (∀ a, runs (Q a) (f a) Q' R) → runs P (m ≫= f) Q' R.
Proof.
  intros Hm Hf tr Htr. specialize (Hm tr Htr). unfold mbind, sm_bind.
  destruct (m tr) as [[a|e| | |] tr']; try done. by apply (Hf a).
Qed.

Lemma runs_conseq {A} (P P' : list Event → Prop) (m : PM A) (Q Q' : A → list Event → Prop)
    (R R' : list Event → Prop) :
  runs P' m Q' R' → (∀ tr, P tr → P' tr) → (∀ a tr, Q' a tr → Q a tr) → (∀ tr, R' tr → R tr) →
  runs P m Q R.
Proof.
  intros Hm HP HQ HR tr Htr. specialize (Hm tr (HP tr Htr)).
  destruct (m tr) as [[a|e| | |] tr']; auto.
Qed.

(** The precondition's history, named. *)
Lemma runs_at {A} (P : list Event → Prop) (m : PM A) Q R :
  (∀ tr, P tr → runs (eq tr) m Q R) → runs P m Q R.
Proof. intros Hm tr Htr. by apply (Hm tr Htr tr). Qed.

(** Sequencing from a known history to a known history. *)
Lemma runs_seq {B} (m : PM ()) (f : () → PM B) tr tr' Q R :
  runs (eq tr) m (λ _ t, t = tr') R → runs (eq tr') (f ()) Q R → runs (eq tr) (m ≫= f) Q R.
Proof.
  intros Hm Hf. eapply runs_bind; [done|]. intros []. eapply runs_conseq; [done| |done|done].
  by intros ? ->.
Qed.

Lemma runs_get {A} P (f : list Event → PM A) Q R :
  (∀ tr, P tr → runs (eq tr) (f tr) Q R) → runs P (sm_get ≫= f) Q R.
Proof. intros Hf tr Htr. by apply (Hf tr Htr tr). Qed.
End logic.
