(* ===== verification/BuildScript.v ===== *)
(** * [src/build.rs]: building and linking the bundled libunwind

    A panic is the error value, with its message; what the script did up to then
    is the history. *)

From Stdlib Require Import Ascii String.
From stdpp Require Import strings.
From S2P Require Import Prelude.
From S2P Require Import Process.
Local Open Scope string_scope.
Local Open Scope Z_scope.

Definition newline : string := String (ascii_of_nat 10) "".

Definition BUILD_TOOLS_HELP : string :=
  "libunwinder builds its vendored libunwind with a prepared configure script." +:+ newline
  +:+ "Install a C compiler and make, or build with `--no-default-features --features system-libunwind`"
  +:+ newline +:+ "to link against system libunwind instead.".

(** The architecture the script is compiled for ([cfg(target_arch)]). *)
Inductive Arch : Type := Arch_x86_64 | Arch_aarch64 | Arch_other.

(** [char::is_whitespace] on ASCII text. *)
Definition is_whitespace (c : ascii) : bool :=
  let n := nat_of_ascii c in ((9 <=? n) && (n <=? 13) || (n =? 32))%nat.

(** [s.split_whitespace().next().unwrap_or("")]. *)
Fixpoint word (s : string) : string :=
  match s with
  | String c s' => if is_whitespace c then "" else String c (word s')
  | EmptyString => ""
  end.
Fixpoint first_word (s : string) : string :=
  match s with
  | String c s' => if is_whitespace c then first_word s' else word s
  | EmptyString => ""
  end.

(** [args.join(" ")]. *)
Fixpoint join_args (l : list string) : string :=
  match l with
  | [] => ""
  | [a] => a
  | a :: l' => a +:+ " " +:+ join_args l'
  end.

Section build.
Context `{System} (arch : Arch).
(** [{:?}] of a string. *)
Context (debug_str : string → string).
Local Abbreviation PM := (SM (list Event) string).

Definition panic {A} (msg : string) : PM A := sm_err msg.

Definition use_system_libunwind : bool :=
  (if env_var "CARGO_FEATURE_SYSTEM_LIBUNWIND" is Some _ then true else false)
  || (if env_var "CARGO_FEATURE_VENDORED" is None then true else false)
  || (if env_var "LIBUNWIND_NO_VENDOR" is Some _ then true else false).

Definition command_succeeds (program : string) : PM bool :=
  r ← run_status (mkCommand program ["--version"] None);
  mret (match r with inr status => status_success status | inl _ => false end).

Definition require_program (program : string) : PM () :=
  ok ← command_succeeds program;
  if (ok : bool) then mret ()
  else panic ("required build tool `" +:+ program +:+ "` was not found. " +:+ BUILD_TOOLS_HELP).

(** [candidates.iter().any(command_succeeds)]. *)
Fixpoint any_succeeds (l : list string) : PM bool :=
  match l with
  | [] => mret false
  | c :: l' => ok ← command_succeeds c; if (ok : bool) then mret true else any_succeeds l'
  end.

Definition require_c_compiler : PM () :=
  match env_var "CC" with
  | Some cc =>
      let program := first_word cc in
      ok ← (if String.eqb program "" then mret false else command_succeeds program);
      if (ok : bool) then mret ()
      else panic ("C compiler from CC=" +:+ debug_str cc +:+ " was not found. " +:+ BUILD_TOOLS_HELP)
  | None =>
      ok ← any_succeeds ["cc"; "gcc"; "clang"];
      if (ok : bool) then mret () else panic ("no C compiler found. " +:+ BUILD_TOOLS_HELP)
  end.

Definition run_in (dir program : string) (args : list string) : PM () :=
  r ← run_status (mkCommand program args (Some dir));
  match r with
  | inl e =>
      panic ("failed to spawn " +:+ program +:+ ": " +:+ sys_io_display e +:+ ". " +:+ BUILD_TOOLS_HELP)
  | inr status =>
      if status_success status then mret ()
      else panic (program +:+ " " +:+ join_args args +:+ " failed with " +:+ status_display status
                  +:+ ". " +:+ BUILD_TOOLS_HELP)
  end.

Definition num_jobs : string := default "4" (env_var "NUM_JOBS").

(** [env::var(name).unwrap()]. *)
Definition env_unwrap (name : string) : PM string :=
  match env_var name with
  | Some v => mret v
  | None => panic "called `Result::unwrap()` on an `Err` value: NotPresent"
  end.

(** [create_dir_all(path).expect(what)]. *)
Definition create_dir_expect (path what : string) : PM () :=
  r ← create_dir_all path;
  match r with
  | inl e => panic (what +:+ ": " +:+ sys_io_debug e)
  | inr _ => mret ()
  end.

Definition configure_args (vendor_src install_dir : string) : list string :=
  [join vendor_src "configure"; "--enable-static"; "--disable-shared"; "--disable-documentation";
   "--disable-coredump"; "--disable-ptrace"; "--disable-setjmp"; "--disable-tests";
   "--disable-minidebuginfo"; "--disable-zlibdebuginfo"; "--prefix=" +:+ install_dir;
   "CFLAGS=-fPIC -O2 -g"].

(** The end of [main]: how to link. *)
Definition print_link (install_dir : string) : PM () :=
  _ ← println ("cargo:rustc-link-search=native=" +:+ join install_dir "lib");
  _ ← (match arch with
       | Arch_x86_64 => println "cargo:rustc-link-lib=static=unwind-x86_64"
       | Arch_aarch64 => println "cargo:rustc-link-lib=static=unwind-aarch64"
       | Arch_other => mret ()
       end);
  println "cargo:rustc-link-lib=static=unwind".

(** The vendored build, once the source is there. *)
Definition build_vendored (vendor_src build_dir install_dir : string) : PM () :=
  _ ← require_program "make";
  _ ← require_c_compiler;
  _ ← create_dir_expect build_dir "create build dir";
  _ ← create_dir_expect install_dir "create install dir";
  configured ← path_exists (join build_dir "Makefile");
  _ ← (if (configured : bool) then mret ()
       else run_in build_dir "sh" (configure_args vendor_src install_dir));
  _ ← run_in build_dir "make" ["-j"; num_jobs];
  run_in build_dir "make" ["install"].

Definition build_main : PM () :=
  manifest_dir ← env_unwrap "CARGO_MANIFEST_DIR";
  let vendor_src := join (join manifest_dir "vendor") "libunwind-dist" in
  out_dir ← env_unwrap "OUT_DIR";
  let build_dir := join out_dir "libunwind-build" in
  let install_dir := join out_dir "libunwind-install" in
  _ ← println ("cargo:rerun-if-changed=" +:+ vendor_src);
  _ ← println "cargo:rerun-if-env-changed=LIBUNWIND_NO_VENDOR";
  _ ← println "cargo:rerun-if-env-changed=CC";
  if use_system_libunwind then
    _ ← println "cargo:warning=linking system libunwind";
    _ ← println "cargo:rustc-link-lib=unwind-generic";
    println "cargo:rustc-link-lib=unwind"
  else
    present ← is_file (join vendor_src "configure");
    if negb present then
      panic ("prepared vendored libunwind source missing at " +:+ vendor_src
             +:+ ". The crate package must include vendor/libunwind-dist with generated configure files.")
    else
      _ ← build_vendored vendor_src build_dir install_dir;
      print_link install_dir.
End build.

(** ** What a run did *)

(** An event that prints nothing. *)
Definition silent (e : Event) : Prop := match e with Printed _ => False | _ => True end.

(** [tr'] continues [tr] without printing. *)
Definition adds (tr tr' : list Event) : Prop := ∃ evs, tr' = (tr ++ evs)%list ∧ Forall silent evs.

Lemma adds_refl tr : adds tr tr.
Proof. exists []. by rewrite app_nil_r. Qed.

Lemma adds_snoc tr tr' e : adds tr tr' → silent e → adds tr (tr' ++ [e])%list.
Proof.
  intros (evs & -> & Hs) He. exists (evs ++ [e])%list. rewrite (assoc_L (++)).
  split; [done|]. apply Forall_app. by split; [|constructor].
Qed.

Lemma adds_app tr tr' evs : adds tr tr' → Forall silent evs → adds tr (tr' ++ evs)%list.
Proof.
  intros (evs' & -> & Hs) He. exists (evs' ++ evs)%list. rewrite (assoc_L (++)).
  split; [done|]. by apply Forall_app.
Qed.

(** A line that tells cargo how to link. *)
Definition is_link (line : string) : bool := String.prefix "cargo:rustc-link" line.

Definition probe (program : string) : Command := mkCommand program ["--version"] None.

Section lemmas.
Context `{System} (arch : Arch) (debug_str : string → string).

(** The candidates for the C compiler, in order. *)
Definition c_compilers : list string :=
  match env_var "CC" with Some cc => [first_word cc] | None => ["cc"; "gcc"; "clang"] end.

Lemma run_status_runs c tr0 tr :
  adds tr0 tr →
  runs (E:=string) (eq tr) (run_status c)
    (λ r tr', let b := if r is inr s then status_success s else false in
       tr' = (tr ++ [Ran c b])%list ∧ adds tr0 tr') (adds tr0).
Proof.
  intros Ha ? <-. simpl. split; [done|]. by apply adds_snoc.
Qed.

Lemma command_succeeds_runs p tr0 tr :
  adds tr0 tr →
  runs (eq tr) (command_succeeds p) (λ b tr', tr' = (tr ++ [Ran (probe p) b])%list) (adds tr0).
Proof.
  intros Ha. eapply runs_bind; [by apply run_status_runs|].
  intros r. apply runs_ret. intros tr' [-> _]. by destruct r.
Qed.

Lemma any_succeeds_runs l tr0 tr :
  adds tr0 tr →
  runs (eq tr) (any_succeeds l)
    (λ b tr', ∃ ps, tr' = (tr ++ ((λ p, Ran (probe p) false) <$> ps) ++
                           (if b : bool then [Ran (probe (nth (length ps) l "")) true] else []))%list ∧
                    (length ps + (if b then 1 else 0) ≤ length l)%nat ∧ ps = take (length ps) l)
    (adds tr0).
Proof.
  revert tr. induction l as [|c l IH]; intros tr Ha.
  { apply runs_ret. intros ? <-. exists []. by rewrite app_nil_r. }
  eapply runs_bind; [by apply command_succeeds_runs|]. intros b. destruct b.
  - apply runs_ret. intros ? ->. exists []. simpl. split_and!; [done|lia|done].
  - assert (adds tr0 (tr ++ [Ran (probe c) false])%list) as Ha' by (by apply adds_snoc).
    eapply runs_conseq; [apply (IH _ Ha')|by intros ? ->| |done].
    intros b tr' (ps & -> & Hl & Hps). exists (c :: ps). cbn [length fmap list_fmap nth take].
    rewrite <- !(assoc_L (++)). split_and!; [done|lia|by f_equal].
Qed.

Lemma require_program_runs p tr0 tr :
  adds tr0 tr →
  runs (eq tr) (require_program p) (λ _ tr', tr' = (tr ++ [Ran (probe p) true])%list) (adds tr0).
Proof.
  intros Ha. eapply runs_bind; [by apply command_succeeds_runs|]. intros [|].
  - by apply runs_ret.
  - apply runs_err. intros ? ->. by apply adds_snoc.
Qed.

(** The compiler check ends at the first candidate that runs. *)
Definition compiler_probes (evs : list Event) : Prop :=
  ∃ ps p, evs = (((λ p, Ran (probe p) false) <$> ps) ++ [Ran (probe p) true])%list ∧
          (ps ++ [p])%list `prefix_of` c_compilers.

Lemma require_c_compiler_runs tr0 tr :
  adds tr0 tr →
  runs (eq tr) (require_c_compiler debug_str)
    (λ _ tr', adds tr0 tr' ∧ ∃ evs, tr' = (tr ++ evs)%list ∧ compiler_probes evs) (adds tr0).
Proof.
  intros Ha. unfold require_c_compiler, compiler_probes, c_compilers.
  destruct (env_var "CC") as [cc|].
  - eapply runs_bind with (Q := λ b tr', adds tr0 tr' ∧
      ((b : bool) = true → tr' = (tr ++ [Ran (probe (first_word cc)) true])%list)).
    { destruct (String.eqb _ ""); [by apply runs_ret; intros ? <-|].
      eapply runs_conseq; [by apply command_succeeds_runs|done| |done].
      intros b tr' ->. split; [by apply adds_snoc|by intros ->]. }
    intros [|]; [|by apply runs_err; intros ? [? _]].
    apply runs_ret. intros tr' [Hadd He]. rewrite (He eq_refl) in *. split; [done|]. eexists. split; [done|].
    by exists [], (first_word cc).
  - eapply runs_bind; [by apply any_succeeds_runs|]. intros b.
    assert (∀ ps, adds tr0 (tr ++ ((λ p, Ran (probe p) false) <$> ps))%list) as Hps.
    { intros ps. destruct Ha as (evs & -> & He).
      exists (evs ++ ((λ p, Ran (probe p) false) <$> ps))%list.
      rewrite (assoc_L (++)). split; [done|]. apply Forall_app. split; [done|].
      apply Forall_fmap, Forall_true. done. }
    destruct b; [apply runs_ret|apply runs_err]; intros tr' (ps & -> & Hl & Hp).
    + split; [rewrite (assoc_L (++)); by apply adds_snoc|]. eexists. split; [done|].
      eexists ps, _. split; [done|]. rewrite Hp at 1. clear -Hl Hp. simpl in Hl.
      destruct ps as [|? [|? [|? ?]]]; simpl in *; simplify_eq; try lia;
        [by exists ["gcc"; "clang"]|by exists ["clang"]|by exists []].
    + by rewrite app_nil_r.
Qed.

Lemma run_in_runs dir p args tr0 tr :
  adds tr0 tr →
  runs (eq tr) (run_in dir p args)
    (λ _ tr', tr' = (tr ++ [Ran (mkCommand p args (Some dir)) true])%list) (adds tr0).
Proof.
  intros Ha. eapply runs_bind; [by apply run_status_runs|].
  intros [e|status]; [by apply runs_err; intros ? [_ ?]|].
  destruct (status_success status); [by apply runs_ret; intros ? [-> _]|].
  by apply runs_err; intros ? [_ ?].
Qed.

Lemma create_dir_runs path what tr0 tr :
  adds tr0 tr →
  runs (eq tr) (create_dir_expect path what)
    (λ _ tr', tr' = (tr ++ [CreatedDirs path])%list) (adds tr0).
Proof.
  intros Ha ? <-. unfold create_dir_expect, create_dir_all, mbind, sm_bind, sm_get.
  by destruct (sys_create_dir_all tr path).
Qed.

(** The events of a successful build of the bundled library. *)
Definition built_events (vendor_src build_dir install_dir : string) (evs : list Event) : Prop :=
  ∃ probes (configured : bool), compiler_probes probes ∧
    evs = ([Ran (probe "make") true] ++ probes ++ [CreatedDirs build_dir; CreatedDirs install_dir]
           ++ (if configured then []
               else [Ran (mkCommand "sh" (configure_args vendor_src install_dir) (Some build_dir)) true])
           ++ [Ran (mkCommand "make" ["-j"; num_jobs] (Some build_dir)) true;
               Ran (mkCommand "make" ["install"] (Some build_dir)) true])%list.

Lemma build_vendored_runs vendor_src build_dir install_dir tr :
  runs (eq tr) (build_vendored debug_str vendor_src build_dir install_dir)
    (λ _ tr', ∃ evs, tr' = (tr ++ evs)%list ∧ built_events vendor_src build_dir install_dir evs)
    (adds tr).
Proof.
  eapply runs_seq; [apply require_program_runs, adds_refl|].
  assert (adds tr (tr ++ [Ran (probe "make") true])%list) as H1
    by (apply adds_snoc; [apply adds_refl|done]).
  eapply runs_bind; [by apply require_c_compiler_runs|]. intros [].
  apply runs_at. intros tr1 [H2 (probes & -> & Hp)].
  eapply runs_seq; [by apply create_dir_runs|]. apply (adds_snoc _ _ (CreatedDirs build_dir)) in H2; [|done].
  eapply runs_seq; [by apply create_dir_runs|].
  apply (adds_snoc _ _ (CreatedDirs install_dir)) in H2; [|done].
  eapply (runs_bind _ _ _ (λ _, eq _)); [by intros ? <-|]. intros configured.
  set (conf := if configured then []
               else [Ran (mkCommand "sh" (configure_args vendor_src install_dir) (Some build_dir)) true]).
  match goal with H : adds tr ?t |- _ => match t with context [install_dir] => set (tr2 := t) in * end end.
  eapply (runs_seq _ _ tr2 (tr2 ++ conf)%list).
  { destruct configured; [by apply runs_ret; intros ? <-; subst conf; rewrite app_nil_r|].
    by apply run_in_runs. }
  assert (Forall silent conf) as Hc by (subst conf; destruct configured; by repeat constructor).
  apply (adds_app _ _ conf) in H2; [|done].
  eapply runs_seq; [by apply run_in_runs|].
  eapply runs_conseq; [eapply (run_in_runs _ _ _ tr)|intros ? <-; reflexivity| |done];
    [by apply adds_snoc|].
  intros _ tr' ->. subst tr2. eexists. rewrite <- !(assoc_L (++)). split; [done|].
  exists probes, configured. split; [done|]. by rewrite <- ?(assoc_L (++)).
Qed.
End lemmas.

(** ** Properties *)

(** What the script prints first, for a system library, and at the end. *)
Definition script_header (vendor_src : string) : list Event :=
  [Printed ("cargo:rerun-if-changed=" +:+ vendor_src);
   Printed "cargo:rerun-if-env-changed=LIBUNWIND_NO_VENDOR"; Printed "cargo:rerun-if-env-changed=CC"].
Definition system_lines : list Event :=
  [Printed "cargo:warning=linking system libunwind"; Printed "cargo:rustc-link-lib=unwind-generic";
   Printed "cargo:rustc-link-lib=unwind"].
Definition link_lines (arch : Arch) (install_dir : string) : list Event :=
  (Printed ("cargo:rustc-link-search=native=" +:+ join install_dir "lib")
   :: match arch with
      | Arch_x86_64 => [Printed "cargo:rustc-link-lib=static=unwind-x86_64"]
      | Arch_aarch64 => [Printed "cargo:rustc-link-lib=static=unwind-aarch64"]
      | Arch_other => []
      end ++ [Printed "cargo:rustc-link-lib=static=unwind"])%list.

Definition no_link (tr : list Event) : Prop :=
  Forall (λ e, match e with Printed line => is_link line = false | _ => True end) tr.

Lemma no_link_header vendor_src : no_link (script_header vendor_src).
Proof. by repeat constructor. Qed.

Lemma no_link_adds tr tr' : no_link tr → adds tr tr' → no_link tr'.
Proof.
  intros Hn (evs & -> & Hs). apply Forall_app. split; [done|].
  eapply Forall_impl; [exact Hs|]. by intros [].
Qed.

(** C35: the build script is correct on every system, whatever commands and file
    operations answer: it links only what it built.  It succeeds either without
    running anything, when the system library is asked for, or after the tools
    were found, the library configured if needed, made and installed, in this
    order, each successfully; whenever it fails, it has printed no link directive. *)
Theorem build_main_correct `{System} (arch : Arch) (debug_str : string → string) :
  match build_main arch debug_str [] with
  | (Ok _, tr) =>
      ∃ manifest out, env_var "CARGO_MANIFEST_DIR" = Some manifest ∧ env_var "OUT_DIR" = Some out ∧
        let vendor_src := join (join manifest "vendor") "libunwind-dist" in
        let build_dir := join out "libunwind-build" in
        let install_dir := join out "libunwind-install" in
        if use_system_libunwind then tr = (script_header vendor_src ++ system_lines)%list
        else ∃ evs, built_events vendor_src build_dir install_dir evs ∧
               tr = (script_header vendor_src ++ evs ++ link_lines arch install_dir)%list
  | (Err _, tr) => no_link tr
  | _ => False
  end.
Proof.
  unfold build_main, env_unwrap.
  destruct (env_var "CARGO_MANIFEST_DIR") as [manifest|]; [|by constructor].
  unfold mbind at 1, sm_bind at 1, mret at 1, sm_ret at 1. cbv zeta.
  destruct (env_var "OUT_DIR") as [out|]; [|by constructor].
  unfold mbind at 1, sm_bind at 1, mret at 1, sm_ret at 1. cbv zeta.
  set (vendor_src := join (join manifest "vendor") "libunwind-dist").
  pose proof (no_link_header vendor_src) as Hh.
  do 3 (unfold mbind at 1, sm_bind at 1; rewrite println_eq; cbn [app]).
  destruct use_system_libunwind; [by exists manifest, out|].
  unfold mbind at 1, sm_bind at 1. rewrite is_file_eq.
  destruct (sys_is_file _ _); [|done]. cbn [negb].
  pose proof (build_vendored_runs debug_str vendor_src (join out "libunwind-build")
    (join out "libunwind-install") (script_header vendor_src) _ eq_refl) as Hb.
  unfold script_header in Hb.
  unfold mbind, sm_bind.
  destruct (build_vendored _ _ _ _ _) as [[[]|e| | |] tr']; try done; [|by eapply no_link_adds].
  destruct Hb as (evs & -> & Hb).
  assert (∀ tr, print_link arch (join out "libunwind-install") tr =
    (Ok (), (tr ++ link_lines arch (join out "libunwind-install"))%list)) as ->.
  { intros tr. unfold print_link, link_lines, println, record_event, sm_modify, mbind, sm_bind.
    by destruct arch; cbn; rewrite <- ?(assoc_L (++)). }
  exists manifest, out. split_and!; [done..|]. exists evs. split; [done|].
  by rewrite (assoc_L (++)).
Qed.

(** *** Witness: a system where every command succeeds and nothing is configured *)
#[local] Instance tidy_system : System := {|
  sys_io_error := Empty_set;
  sys_io_display := λ e, match e with end;
  sys_io_debug := λ e, match e with end;
  exit_status := bool;
  status_success := id;
  status_display := λ b, if b : bool then "exit status: 0" else "exit status: 1";
  env_var := λ v, if String.eqb v "CARGO_MANIFEST_DIR" then Some "/crate"
                  else if String.eqb v "OUT_DIR" then Some "/out"
                  else if String.eqb v "CARGO_FEATURE_VENDORED" then Some "1" else None;
  sys_is_file := λ _ _, true;
  sys_exists := λ _ _, false;
  sys_create_dir_all := λ _ _, inr ();
  sys_write := λ _ _ _, inr ();
  sys_read := λ _ _, inr [];
  sys_status := λ _ c, inr (negb (String.eqb (cmd_program c) "cc"));
|}.

Lemma build_main_correct_witness :
  (build_main Arch_x86_64 id []).1 = Ok () ∧
  Ran (mkCommand "make" ["install"] (Some "/out/libunwind-build")) true
    ∈ (build_main Arch_x86_64 id []).2.
Proof.
  split; [by vm_compute|]. pose proof (build_main_correct Arch_x86_64 id) as Hb.
  destruct (build_main Arch_x86_64 id []) as [r tr] eqn:He. simpl.
  assert (r = Ok ()) as -> by (by vm_compute in He; injection He as <- _).
  destruct Hb as (manifest & out & _ & Ho & evs & (probes & c & _ & ->) & ->).
  injection Ho as <-. rewrite !elem_of_app, !elem_of_cons.
  change (join "/out" "libunwind-build") with "/out/libunwind-build". tauto.
Defined.
