(* ===== verification/Snapshot.v ===== *)
(** * [src/examples/cpp_unwind_bench.rs]: unwinding a saved stack

    The benchmark compiles C++ programs that save their registers and stack to a
    file, reads the file back, loads the program as a module and unwinds the
    saved stack.  A client of the whole library. *)

From Stdlib Require Import Ascii String.
From stdpp Require Import gmap strings.
From S2P Require Import Prelude.
From S2P Require Import BTree.
From S2P Require Import Errors.
From S2P Require Import FrameAddress.
From S2P Require Import Modules.
From S2P Require Import Messages.
From S2P Require Import ModuleSet.
From S2P Require Import Ffi.
From S2P Require Import Callbacks.
From S2P Require Import AddressSpace.
From S2P Require Import Frames.
From S2P Require X86_64.
From S2P Require Import Iterator.
From S2P Require Import FrameRecords.
From S2P Require Import HeapFrame.
From S2P Require Import Session.
From S2P Require Import CacheIndependence.
From S2P Require Import Process.
Local Open Scope string_scope.
Local Open Scope Z_scope.

Definition SNAPSHOT_MAGIC : Z := 0x4c555742454e4348.
Definition DEFAULT_ITERS : Z := 20000.

Record Snapshot : Type := mkSnapshot {
  snap_ip : Z;
  snap_sp : Z;
  snap_bp : Z;
  stack_start : Z;
  stack : list Z;
}.

(** [Box<dyn Error>]: made from a message or from a concrete error. *)
Inductive BoxError {io_error object_error : Type} : Type :=
  | BoxStr (msg : string)
  | BoxDyn (e : DynError (io_error:=io_error) (object_error:=object_error)).
Arguments BoxError : clear implicits.

(** A segment of an object file ([object::ObjectSegment]). *)
Record ObjSegment : Type := mkObjSegment { seg_address : Z; seg_size : Z }.

Section snapshot.
Context `{Profile} {io_error object_error : Type}.
Local Abbreviation BE := (BoxError io_error object_error).

(** The integers of the file are in the byte order of the target, x86_64. *)
Definition snap_read_u64 (bytes : list Z) (offset : Z) : outcome BE Z :=
  e ← usize_add offset 8;
  b ← ok_or (slice_get bytes offset e) (BoxStr "missing u64");
  Ok (le_decode b).

(** [Snapshot::read], after [fs::read]. *)
Definition Snapshot_of_bytes (path : string) (bytes : list Z) : outcome BE Snapshot :=
  if len bytes <? 48 then Err (BoxStr ("snapshot " +:+ path +:+ " is truncated"))
  else
    magic ← snap_read_u64 bytes 0;
    if negb (magic =? SNAPSHOT_MAGIC) then Err (BoxStr ("snapshot " +:+ path +:+ " has bad magic"))
    else
      ip ← snap_read_u64 bytes 8;
      sp ← snap_read_u64 bytes 16;
      bp ← snap_read_u64 bytes 24;
      stack_start ← snap_read_u64 bytes 32;
      stack_len ← snap_read_u64 bytes 40;
      stack_end ← ok_or (checked_add 48 stack_len) (BoxStr "snapshot length overflow");
      if len bytes <? stack_end then
        Err (BoxStr ("snapshot " +:+ path +:+ " is missing stack bytes"))
      else
        stack ← slice_range bytes 48 stack_end;
        Ok (mkSnapshot ip sp bp stack_start stack).

(** [Snapshot::read_stack]. *)
Definition snap_read_stack (self : Snapshot) (addr : Z) : option Z :=
  offset ← checked_sub addr (stack_start self);
  e ← checked_add offset 8;
  bytes ← slice_get (stack self) offset e;
  Some (le_decode bytes).

(** [load_range], over the segments of the object file. *)
Fixpoint load_range_loop (segments : list ObjSegment) (start end_ : Z) : Z * Z :=
  match segments with
  | [] => (start, end_)
  | segment :: segments' =>
      if seg_size segment =? 0 then load_range_loop segments' start end_
      else
        load_range_loop segments' (Z.min start (seg_address segment))
          (Z.max end_ (saturating_add (seg_address segment) (seg_size segment)))
  end.
Definition load_range (segments : list ObjSegment) : option Range :=
  let '(start, end_) := load_range_loop segments u64_max 0 in
  if start <? end_ then Some (mkRange start end_) else None.
End snapshot.

(** ** Loading the program and unwinding the snapshot *)

(** [LoadedModule]. *)
Record LoadedModule : Type := mkLoadedModule {
  lm_unwinder : UnwinderX86_64;
  lm_avma_range : Range;
}.

Section load.
Context `{Profile} {io_error object_error : Type}.
Local Abbreviation BE := (BoxError io_error object_error).
(** The operating system and the [object] crate, as in [Modules]; [segments] lists
    the segments of the parsed file. *)
Context (File : Type) (open : string → io_error + File) (map_file : File → io_error + list Z)
        (object_parse : list Z → object_error + ObjectFile).
Context (segments : ObjectFile → list ObjSegment).

(** The [?] operator on a foreign error. *)
Definition box_io {A} (r : io_error + A) : outcome BE A :=
  match r with inl e => Err (BoxDyn (DynError_Io e)) | inr a => Ok a end.
Definition box_object {A} (r : object_error + A) : outcome BE A :=
  match r with inl e => Err (BoxDyn (DynError_Object e)) | inr a => Ok a end.

Definition load_module (binary : string) (h : Heap) : outcome BE (LoadedModule * Heap) :=
  file_for_range ← box_io (open binary);
  mmap_for_range ← box_io (map_file file_for_range);
  file ← box_object (object_parse mmap_for_range);
  avma_range ← ok_or (load_range (segments file)) (BoxStr "binary has no loadable segments");
  let unwinder := UnwinderX86_64_new in
  '(module, h) ← map_err (λ e, BoxDyn (DynError_Mmap e))
    (try_from_mmap_file File open map_file object_parse binary avma_range 0 h);
  let unwinder := mkUnwinderX86_64 (add (x86_modules unwinder) module) in
  Ok (mkLoadedModule unwinder avma_range, h).
End load.

Section unwind.
Context `{Profile} `{LibunwindApi} {io_error object_error : Type}.
Local Abbreviation BE := (BoxError io_error object_error).
Local Abbreviation UM := (SM (Env ()) BE).

(** The closure [|addr| snapshot.read_stack(addr)]. *)
Definition snap_reader (snapshot : Snapshot) (u : ()) (addr : Z) : option Z * () :=
  (snap_read_stack snapshot addr, u).

(** One call of [unwind_frame] with [?]. *)
Definition snap_step (module : LoadedModule) (snapshot : Snapshot) (frame : FrameAddress)
    (regs : X86_64.UnwindRegsX86_64) : UM (option Z * X86_64.UnwindRegsX86_64) := λ env,
  let '(r, (regs', env')) :=
    X86_64.unwind_frame (snap_reader snapshot) (x86_modules (lm_unwinder module)) frame (regs, env) in
  (match r with
   | Ok next => Ok (next, regs')
   | Err e => Err (BoxDyn (DynError_Error e))
   | Panic => Panic
   | UB => UB
   | NoFuel => NoFuel
   end, env').

(** The loop of [unwind_stack].  It runs at most 256 times: an iteration that does
    not leave it adds a frame, and more than 256 frames are an error. *)
Fixpoint unwind_stack_loop (fuel : nat) (module : LoadedModule) (snapshot : Snapshot)
    (regs : X86_64.UnwindRegsX86_64) (frame : FrameAddress) (frames : Z) : UM Z :=
  match fuel with
  | O => sm_lift NoFuel
  | S fuel' =>
      '(next, regs) ← snap_step module snapshot frame regs;
      match next with
      | None => mret frames
      | Some next_ip =>
          if negb (range_contains (lm_avma_range module) next_ip) then mret frames
          else
            frames ← sm_lift (usize_add frames 1);
            let frame := default (InstructionPointer next_ip) (from_return_address next_ip) in
            if 256 <? frames then
              sm_err (BoxStr "unwind produced more than 256 in-module frames")
            else unwind_stack_loop fuel' module snapshot regs frame frames
      end
  end.

Definition unwind_stack (module : LoadedModule) (snapshot : Snapshot) : UM Z :=
  let regs := X86_64.new (snap_ip snapshot) (snap_sp snapshot) (snap_bp snapshot) in
  let frame := from_instruction_pointer (snap_ip snapshot) in
  unwind_stack_loop 256 module snapshot regs frame 1.

(** The unwinds of [time_unwind], whose clock is not modelled. *)
Fixpoint repeat_unwind (n : nat) (module : LoadedModule) (snapshot : Snapshot) : UM () :=
  match n with
  | O => mret ()
  | S n' => _ ← unwind_stack module snapshot; repeat_unwind n' module snapshot
  end.
Definition time_unwind (module : LoadedModule) (snapshot : Snapshot) (iterations : Z) : UM () :=
  _ ← repeat_unwind (Z.to_nat (Z.min 1000 iterations)) module snapshot;
  repeat_unwind (Z.to_nat iterations) module snapshot.
End unwind.

(** ** The file a snapshot is saved in

    What [libunwinder_take_snapshot] of the C++ source writes: a [SnapshotHeader]
    of six words, then the stack. *)
Definition snapshot_image (s : Snapshot) : list Z :=
  (le_encode 8 SNAPSHOT_MAGIC ++ le_encode 8 (snap_ip s) ++ le_encode 8 (snap_sp s)
   ++ le_encode 8 (snap_bp s) ++ le_encode 8 (stack_start s) ++ le_encode 8 (len (stack s))
   ++ stack s)%list.

Definition snapshot_ok (s : Snapshot) : Prop :=
  is_u64 (snap_ip s) ∧ is_u64 (snap_sp s) ∧ is_u64 (snap_bp s) ∧ is_u64 (stack_start s) ∧
  Forall is_u8 (stack s).

(** ** Reading the file *)

(** The little-endian word at an offset. *)
Definition word_of (bytes : list Z) (o : Z) : Z := le_decode (take 8 (drop (Z.to_nat o) bytes)).

Section reading.
Context `{Profile} {io_error object_error : Type}.
Local Abbreviation BE := (BoxError io_error object_error).

Lemma snap_read_u64_in bytes o :
  0 ≤ o → o + 8 ≤ len bytes → len bytes ≤ isize_max →
  snap_read_u64 (io_error:=io_error) (object_error:=object_error) bytes o =
  Ok (word_of bytes o).
Proof.
  intros Ho Hl Hb. unfold snap_read_u64. unfold isize_max in Hb.
  rewrite usize_add_ok by (unfold usize_max; lia). run.
  unfold slice_get. rewrite (proj2 (andb_true_iff _ _)) by lia. cbn [ok_or]. run.
  by replace (o + 8 - o) with 8 by lia.
Qed.

(** The words of a file that starts with encoded words. *)
Lemma word_here z l o : o = 0 → is_u64 z → word_of (le_encode 8 z ++ l) o = z.
Proof.
  intros -> Hz. unfold word_of. change (Z.to_nat 0) with 0%nat. rewrite drop_0.
  rewrite take_app_length' by (by rewrite le_encode_length).
  rewrite le_decode_encode. by apply Z.mod_small.
Qed.

Lemma word_next z l o : 8 ≤ o → word_of (le_encode 8 z ++ l) o = word_of l (o - 8).
Proof.
  intros Ho. unfold word_of. replace (Z.to_nat o) with (8 + Z.to_nat (o - 8))%nat by lia.
  rewrite <- drop_drop. by rewrite drop_app_length' by (by rewrite le_encode_length).
Qed.

(** Eight bytes are the encoding of their value. *)
Lemma word_split bytes o :
  Forall is_u8 bytes → 0 ≤ o → o + 8 ≤ len bytes →
  drop (Z.to_nat o) bytes =
  (le_encode 8 (word_of bytes o) ++ drop (Z.to_nat (o + 8)) bytes)%list.
Proof.
  intros Hf Ho Hl. unfold word_of. set (w := take 8 (drop (Z.to_nat o) bytes)).
  assert (length w = 8%nat) as Hw.
  { subst w. rewrite length_take, length_drop. unfold len in Hl. lia. }
  rewrite <- Hw at 1. rewrite le_encode_decode by (apply Forall_take, Forall_drop; done).
  replace (Z.to_nat (o + 8)) with (Z.to_nat o + 8)%nat by lia. rewrite <- drop_drop.
  subst w. by rewrite take_drop.
Qed.

Lemma word_u64 bytes o : Forall is_u8 bytes → is_u64 (word_of bytes o).
Proof.
  intros Hf. unfold word_of, is_u. set (w := take 8 _).
  assert (Forall is_u8 w) as Hw by by apply Forall_take, Forall_drop.
  pose proof (le_decode_bounds w Hw).
  assert (len w ≤ 8) by (unfold len, w; rewrite length_take; lia).
  pose proof (Z.pow_le_mono_r 2 (8 * len w) 64). lia.
Qed.

(** [read] on a file of at least 48 bytes, in terms of its words. *)
Lemma Snapshot_of_bytes_words path bytes :
  bytes_ok bytes → 48 ≤ len bytes →
  let word := word_of bytes in
  Snapshot_of_bytes (io_error:=io_error) (object_error:=object_error) path bytes =
  if negb (word 0 =? SNAPSHOT_MAGIC) then Err (BoxStr ("snapshot " +:+ path +:+ " has bad magic"))
  else if u64_max <? 48 + word 40 then Err (BoxStr "snapshot length overflow")
  else if len bytes <? 48 + word 40 then
    Err (BoxStr ("snapshot " +:+ path +:+ " is missing stack bytes"))
  else Ok (mkSnapshot (word 8) (word 16) (word 24) (word 32)
             (take (Z.to_nat (word 40)) (drop 48 bytes))).
Proof.
  intros [Hf Hm] Hl word. unfold Snapshot_of_bytes.
  destruct (Z.ltb_spec (len bytes) 48); [lia|].
  rewrite !snap_read_u64_in by (done || lia). run. subst word.
  set (word := word_of bytes).
  destruct (negb _); [done|]. run. unfold checked_add.
  destruct (Z.leb_spec (48 + word 40) u64_max), (Z.ltb_spec u64_max (48 + word 40)); try lia;
    [|done]. cbn [ok_or]. run.
  destruct (Z.ltb_spec (len bytes) (48 + word 40)); [done|].
  assert (0 ≤ word 40) as Hw.
  { apply (word_u64 bytes 40 Hf). }
  unfold slice_range, slice_get. rewrite (proj2 (andb_true_iff _ _)) by lia. run.
  by replace (48 + word 40 - 48) with (word 40) by lia.
Qed.


Lemma image_len s rest : len (snapshot_image s ++ rest) = 48 + len (stack s) + len rest.
Proof. unfold snapshot_image. rewrite !len_app, !le_encode_len. lia. Qed.

(** The words of the image of a snapshot. *)
Lemma image_words s rest :
  snapshot_ok s → is_u64 (len (stack s)) →
  let word := word_of (snapshot_image s ++ rest) in
  word 0 = SNAPSHOT_MAGIC ∧ word 8 = snap_ip s ∧ word 16 = snap_sp s ∧ word 24 = snap_bp s ∧
  word 32 = stack_start s ∧ word 40 = len (stack s) ∧
  drop 48 (snapshot_image s ++ rest) = (stack s ++ rest)%list.
Proof.
  intros (Hi & Hsp & Hbp & Hst & _) Hlen word. subst word. unfold snapshot_image.
  rewrite <- !(assoc_L (++)). split_and!; try by (rewrite ?word_next by lia; apply word_here).
  done.
Qed.
End reading.

(** ** Properties of the file format *)

(** C33: reading a snapshot is exact: on every file [read] returns (it never
    panics), and it accepts exactly the files that start with the image of a
    snapshot, which it returns. *)
Theorem snapshot_file_format `{Profile} {io_error object_error : Type} (path : string)
    (bytes : list Z) :
  bytes_ok bytes →
  let r := Snapshot_of_bytes (io_error:=io_error) (object_error:=object_error) path bytes in
  returns r ∧
  ∀ s, r = Ok s ↔ snapshot_ok s ∧ ∃ rest, bytes = (snapshot_image s ++ rest)%list.
Proof.
  intros Hb r. pose proof Hb as [Hf Hm]. subst r.
  destruct (decide (len bytes < 48)) as [Hs|Hs].
  { unfold Snapshot_of_bytes. destruct (Z.ltb_spec (len bytes) 48); [|lia]. split; [done|].
    intros s. split; [done|]. intros (_ & rest & ->). exfalso. revert Hs.
    rewrite image_len. pose proof (len_nonneg rest). pose proof (len_nonneg (stack s)). lia. }
  rewrite Snapshot_of_bytes_words by (done || lia). cbv zeta. split.
  { by repeat case_match. }
  intros s. split.
  - destruct (Z.eqb_spec (word_of bytes 0) SNAPSHOT_MAGIC) as [Hmag|];
      [|done]. cbn [negb].
    destruct (Z.ltb_spec u64_max (48 + word_of bytes 40)); [done|].
    destruct (Z.ltb_spec (len bytes) (48 + word_of bytes 40)) as [|Hn];
      [done|]. intros [= <-].
    pose proof (word_u64 bytes 40 Hf) as H40. split.
    + split_and!; try by apply word_u64. by apply Forall_take, Forall_drop.
    + exists (drop (Z.to_nat (word_of bytes 40)) (drop 48 bytes)).
      unfold snapshot_image. cbn [snap_ip snap_sp snap_bp stack_start stack].
      assert (len (take (Z.to_nat (word_of bytes 40)) (drop 48 bytes))
              = word_of bytes 40) as ->.
      { unfold len in *. rewrite length_take, length_drop. unfold is_u in H40. lia. }
      rewrite <- Hmag, <- !(assoc_L (++)), take_drop.
      rewrite <- (drop_0 bytes) at 1. change 0%nat with (Z.to_nat 0) at 1.
      by do 6 (rewrite (word_split bytes) at 1 by (done || lia); f_equal).
  - intros (Hok & rest & ->).
    rewrite image_len in *. pose proof (len_nonneg rest). pose proof (len_nonneg (stack s)).
    unfold isize_max in Hm. destruct (image_words s rest) as (-> & -> & -> & -> & -> & -> & ->);
      [done|unfold is_u; lia|].
    rewrite Z.eqb_refl. cbn [negb].
    destruct (Z.ltb_spec u64_max (48 + len (stack s))); [rewrite u64_max_eq in *; lia|].
    destruct (Z.ltb_spec (48 + len (stack s) + len rest) (48 + len (stack s))); [lia|].
    rewrite to_nat_len, take_app_length. by destruct s.
Qed.

(** The stack reader of a snapshot reads exactly the words that lie in the
    saved stack: 8 bytes little-endian at [addr - stack_start], for every address
    and every stack, and nothing else. *)
Theorem snapshot_read_stack (s : Snapshot) (addr : Z) :
  is_u64 addr → snapshot_ok s → len (stack s) ≤ isize_max →
  snap_read_stack s addr =
  if (stack_start s <=? addr) && (addr + 8 <=? stack_start s + len (stack s))
  then Some (word_of (stack s) (addr - stack_start s)) else None.
Proof.
  intros Ha (_ & _ & _ & Hst & _) Hl. unfold snap_read_stack, checked_sub, checked_add.
  unfold is_u, isize_max in *.
  destruct (Z.leb_spec (stack_start s) addr); [|done]. cbn [mbind option_bind andb].
  destruct (Z.leb_spec (addr - stack_start s + 8) u64_max) as [Hu|Hu]; cbn [mbind option_bind].
  2: { destruct (Z.leb_spec (addr + 8) (stack_start s + len (stack s))); [|done].
       rewrite u64_max_eq in Hu. lia. }
  unfold slice_get. rewrite (proj2 (Z.leb_le _ _)) by lia. cbn [andb].
  destruct (Z.leb_spec (addr - stack_start s + 8) (len (stack s))),
    (Z.leb_spec (addr + 8) (stack_start s + len (stack s))); try lia; [|done].
  cbn [mbind option_bind]. by replace (addr - stack_start s + 8 - (addr - stack_start s)) with 8 by lia.
Qed.

(** A segment [load_range] does not skip. *)
Definition loaded (segments : list ObjSegment) (seg : ObjSegment) : Prop :=
  seg ∈ segments ∧ seg_size seg ≠ 0.
Definition seg_end (seg : ObjSegment) : Z := saturating_add (seg_address seg) (seg_size seg).

Lemma load_range_loop_spec segments a b :
  let r := load_range_loop segments a b in
  r.1 ≤ a ∧ b ≤ r.2 ∧ (∀ seg, loaded segments seg → r.1 ≤ seg_address seg ∧ seg_end seg ≤ r.2) ∧
  (r.1 = a ∨ ∃ seg, loaded segments seg ∧ seg_address seg = r.1) ∧
  (r.2 = b ∨ ∃ seg, loaded segments seg ∧ seg_end seg = r.2).
Proof.
  revert a b. induction segments as [|seg segments IH]; intros a b; cbn [load_range_loop].
  { split_and!; cbn [fst snd]; [lia|lia|by intros ? [?%elem_of_nil _]|by left|by left]. }
  assert (∀ s, loaded segments s → loaded (seg :: segments) s) as Hin.
  { intros s [? ?]. split; [by right|done]. }
  destruct (Z.eqb_spec (seg_size seg) 0) as [Hz|Hz].
  - destruct (IH a b) as (H1 & H2 & H3 & H4 & H5). split_and!; [done|done| |naive_solver..].
    intros s [[->|?]%elem_of_cons ?]; [done|]. by apply H3.
  - destruct (IH (Z.min a (seg_address seg)) (Z.max b (seg_end seg))) as (H1 & H2 & H3 & H4 & H5).
    fold (seg_end seg). set (r := load_range_loop _ _ _) in *. clearbody r.
    assert (loaded (seg :: segments) seg) by (by split; [left|]).
    split_and!; [lia|lia| | |].
    + intros s [[->|?]%elem_of_cons ?]; [lia|]. by apply H3.
    + destruct H4 as [H4|(s & ? & ?)]; [|right; eauto].
      destruct (Z.min_spec a (seg_address seg)) as [[_ Hm]|[_ Hm]]; [left; lia|right].
      exists seg. split; [done|lia].
    + destruct H5 as [H5|(s & ? & ?)]; [|right; eauto].
      destruct (Z.max_spec b (seg_end seg)) as [[_ Hm]|[_ Hm]]; [right|left; lia].
      exists seg. split; [done|lia].
Qed.

(** The address range of a program is the least range with all its non-empty
    segments; there is none only when every such segment starts at the top of
    the address space. *)
Theorem load_range_least (segments : list ObjSegment) :
  Forall (λ seg, is_u64 (seg_address seg) ∧ is_u64 (seg_size seg)) segments →
  match load_range segments with
  | Some r =>
      (∀ seg, loaded segments seg → start r ≤ seg_address seg ∧ seg_end seg ≤ end_ r) ∧
      (∃ seg, loaded segments seg ∧ seg_address seg = start r) ∧
      (∃ seg, loaded segments seg ∧ seg_end seg = end_ r)
  | None => ∀ seg, loaded segments seg → seg_address seg = u64_max
  end.
Proof.
  intros Ht. pose proof (load_range_loop_spec segments u64_max 0) as Hl. cbv zeta in Hl.
  unfold load_range. destruct (load_range_loop segments u64_max 0) as [a b]. simpl in Hl.
  destruct Hl as (H1 & H2 & H3 & H4 & H5).
  assert (∀ seg, loaded segments seg → is_u64 (seg_address seg) ∧ 0 < seg_size seg ∧
    seg_end seg = Z.min (seg_address seg + seg_size seg) u64_max) as Hseg.
  { intros seg [Hin Hz]. rewrite Forall_forall in Ht. destruct (Ht seg Hin) as [? Hs].
    split_and!; [done|unfold is_u in Hs; lia|].
    unfold seg_end, saturating_add. unfold u64_max. repeat case_match; zify_bools; lia. }
  rewrite u64_max_eq in *. destruct (Z.ltb_spec a b) as [Hab|Hab]; simpl.
  - split_and!; [done| |].
    + destruct H4 as [->|?]; [|done]. destruct H5 as [->|(s & Hs & He)]; [lia|].
      destruct (Hseg s Hs) as (? & ? & Hm). lia.
    + destruct H5 as [->|?]; [|done]. destruct H4 as [->|(s & Hs & He)]; [lia|].
      destruct (Hseg s Hs) as (Hu & _). unfold is_u in Hu. lia.
  - intros seg Hs. destruct (Hseg seg Hs) as (Hu & ? & He). destruct (H3 seg Hs).
    unfold is_u in Hu. lia.
Qed.

(** ** Unwinding a snapshot *)
Section unwinding.
Context `{Profile} `{!LibunwindLaws L} {io_error object_error : Type}.
Local Abbreviation BE := (BoxError io_error object_error).

(** Whatever the registry, a result is a number of frames within the limit. *)
Lemma unwind_stack_loop_bound fuel module snapshot regs frame frames (env : Env ()) :
  1 ≤ frames ≤ 256 →
  match unwind_stack_loop (io_error:=io_error) (object_error:=object_error) fuel module snapshot regs
          frame frames env with
  | (Ok n, _) => 1 ≤ n ≤ 256
  | _ => True
  end.
Proof.
  revert regs frame frames env. induction fuel as [|fuel IH]; intros regs frame frames env Hn; [done|].
  cbn [unwind_stack_loop]. unfold mbind at 1, sm_bind at 1.
  destruct (snap_step module snapshot frame regs env) as [[[next regs']|e| | |] env']; try done.
  destruct next as [ip'|]; [|done]. destruct (negb _); [done|].
  unfold mbind, sm_bind, sm_lift. rewrite usize_add_ok by (unfold usize_max; lia).
  destruct (Z.ltb_spec 256 (frames + 1)); [done|]. apply IH. lia.
Qed.

Lemma unwind_stack_bound module snapshot (env : Env ()) :
  match unwind_stack (io_error:=io_error) (object_error:=object_error) module snapshot env with
  | (Ok n, _) => 1 ≤ n ≤ 256
  | _ => True
  end.
Proof. by apply unwind_stack_loop_bound. Qed.

(** What makes an unwind through [s] panic: with overflow checks, a module whose
    parse panics at some address; or that libunwind cannot create an address
    space. *)
Definition unwind_panics (s : ModuleSet) : Prop :=
  (overflow_checks = true ∧
   ∃ m ip, find_module s ip = Some m ∧ parse_function_details m ip = Panic) ∨
  unw_create_addr_space UNW_LITTLE_ENDIAN = 0.

Lemma step_unwind_panics s ip static : step_panics s ip static → unwind_panics s.
Proof. intros [(Ho & m & Hm & Hp)|[_ Hz]]; [left; eauto|by right]. Qed.

(** What a run on a registry with well-formed caches leaves behind. *)
Definition bench_post (module : LoadedModule) {A} (Q : A → Prop) (r : outcome BE A * Env ()) : Prop :=
  match r with
  | (Ok a, env') => Q a ∧ caches_ok (x86_modules (lm_unwinder module)) (env_heap env')
  | (Err _, env') => caches_ok (x86_modules (lm_unwinder module)) (env_heap env')
  | (Panic, _) => unwind_panics (x86_modules (lm_unwinder module))
  | (UB, _) | (NoFuel, _) => False
  end.

Lemma bench_post_bind module {A B} (m : SM (Env ()) BE A) (f : A → SM (Env ()) BE B) P Q env :
  bench_post module P (m env) →
  (∀ a env', P a → caches_ok (x86_modules (lm_unwinder module)) (env_heap env') →
     bench_post module Q (f a env')) →
  bench_post module Q ((m ≫= f) env).
Proof.
  intros Hm Hf. unfold mbind, sm_bind. destruct (m env) as [[a|e| | |] env']; try done.
  destruct Hm. by apply Hf.
Qed.

Context (module : LoadedModule) (snapshot : Snapshot).
Context (Hwf : set_wf (x86_modules (lm_unwinder module)))
        (Htop : below_top (x86_modules (lm_unwinder module))).

Lemma snap_step_post frame regs env :
  X86_64.regs_ok regs → caches_ok (x86_modules (lm_unwinder module)) (env_heap env) →
  bench_post module (λ '(_, regs'), X86_64.regs_ok regs') (snap_step module snapshot frame regs env).
Proof.
  intros Hr Hc. unfold snap_step.
  pose proof (X86_64.unwind_frame_post (snap_reader snapshot) _ frame regs env Hwf Htop Hr Hc) as Hp.
  destruct (X86_64.unwind_frame _ _ _ _) as [[[a|]|e| | |] [regs' env']]; try done.
  - destruct Hp as (? & _ & (sp' & bp' & ->) & _). split; [by apply X86_64.restore_ok|done].
  - by destruct Hp as [-> ?].
  - by destruct Hp as (_ & ? & _).
  - by apply step_unwind_panics in Hp.
Qed.

Lemma unwind_stack_loop_post fuel regs frame frames env :
  frames + Z.of_nat fuel = 257 → 1 ≤ frames ≤ 256 →
  X86_64.regs_ok regs → caches_ok (x86_modules (lm_unwinder module)) (env_heap env) →
  bench_post module (λ n, 1 ≤ n ≤ 256) (unwind_stack_loop fuel module snapshot regs frame frames env).
Proof.
  revert regs frame frames env. induction fuel as [|fuel IH]; intros regs frame frames env Hf Hn Hr Hc;
    [lia|]. cbn [unwind_stack_loop].
  eapply bench_post_bind; [by apply snap_step_post|]. intros [next regs'] env' Hr' Hc'.
  destruct next as [ip'|]; [|by split].
  destruct (negb _); [by split|]. unfold mbind, sm_bind, sm_lift.
  rewrite usize_add_ok by (unfold usize_max; lia).
  destruct (Z.ltb_spec 256 (frames + 1)); [done|]. apply IH; [lia|lia|done|done].
Qed.

Lemma unwind_stack_post env :
  caches_ok (x86_modules (lm_unwinder module)) (env_heap env) →
  bench_post module (λ n, 1 ≤ n ≤ 256) (unwind_stack module snapshot env).
Proof. intros Hc. by apply unwind_stack_loop_post. Qed.

Lemma repeat_unwind_post n env :
  caches_ok (x86_modules (lm_unwinder module)) (env_heap env) →
  bench_post module (λ _, True) (repeat_unwind n module snapshot env).
Proof.
  revert env. induction n as [|n IH]; intros env Hc; [by split|].
  eapply bench_post_bind; [by apply unwind_stack_post|]. intros _ env' _. apply IH.
Qed.
End unwinding.

(** The registry of a loaded program holds its module alone. *)
Lemma load_module_ok `{Profile} {io_error object_error File : Type}
    (open : string → io_error + File) map_file
    (object_parse : list Z → object_error + ObjectFile) segments binary h lm h' :
  (∀ f bytes, map_file f = inr bytes → bytes_ok bytes) →
  load_module File open map_file object_parse segments binary h = Ok (lm, h') →
  set_wf (x86_modules (lm_unwinder lm)) ∧ caches_ok (x86_modules (lm_unwinder lm)) h' ∧
  ∃ m, x86_modules (lm_unwinder lm) = add new m ∧ module_ok m.
Proof.
  intros Hmap Hl. unfold load_module in Hl.
  destruct (open binary) as [|f]; [done|]. cbn [box_io] in Hl. run in Hl.
  destruct (map_file f) as [|b]; [done|]. cbn [box_io] in Hl. run in Hl.
  destruct (object_parse b) as [|file]; [done|]. cbn [box_object] in Hl. run in Hl.
  destruct (load_range _) as [range|]; [|done]. cbn [ok_or] in Hl. run in Hl.
  destruct (try_from_mmap_file _ _ _ _ _ _ _ _) as [[m hm]|e| | |] eqn:Ht; try done.
  cbn [map_err] in Hl. run in Hl. injection Hl as <- <-.
  destruct (built_ok h m hm) as (Hok & Hloc & Hcells & Hnext).
  { by eapply built_try_mmap. }
  cbn [lm_unwinder x86_modules UnwinderX86_64_new].
  assert (set_wf (add new m)) as Hwf by (apply reachable_wf, reach_add; [apply reach_new|done]).
  assert (∀ m', registered (add new m) m' → m' = m) as Honly.
  { by intros m' [->|?]%registered_add_inv. }
  split_and!; [done| |by exists m]. split.
  - by intros m1 m2 ->%Honly ->%Honly.
  - intros m' ->%Honly. exists []. split; [|by split].
    unfold lock. by rewrite Hcells, Hloc, lookup_insert_eq.
Qed.

(** C32: unwinding a snapshot of a loaded program terminates within 256 steps,
    whatever the registers and the stack saved, and whatever object file the
    program is, as long as its unwind sections end below the top of the address
    space: without undefined behaviour it returns a number of frames from 1 to
    256 or an error, and so does every measured repetition.  The one way it
    panics is that [unw_create_addr_space] returns null, or, in a build with
    overflow checks, that parsing the program's own unwind sections panics at
    some address. *)
Theorem unwind_stack_safe `{Profile} (L : LibunwindApi) `{!LibunwindLaws L}
    {io_error object_error File : Type} (open : string → io_error + File)
    (map_file : File → io_error + list Z) (object_parse : list Z → object_error + ObjectFile)
    (segments : ObjectFile → list ObjSegment) (binary : string) (h h' : Heap)
    (module : LoadedModule) (snapshot : Snapshot) (static : option Z) (iterations : Z) :
  (∀ f bytes, map_file f = inr bytes → bytes_ok bytes) →
  load_module File open map_file object_parse segments binary h = Ok (module, h') →
  let s := x86_modules (lm_unwinder module) in
  below_top s →
  let panics :=
    (overflow_checks = true ∧
     ∃ m ip, find_module s ip = Some m ∧ parse_function_details m ip = Panic) ∨
    unw_create_addr_space UNW_LITTLE_ENDIAN = 0 in
  match unwind_stack (io_error:=io_error) (object_error:=object_error) module snapshot
          (mkEnv () h' static) with
  | (Ok frames, env') =>
      1 ≤ frames ≤ 256 ∧
      match time_unwind (io_error:=io_error) (object_error:=object_error) module snapshot
              iterations env' with
      | (Ok _, _) | (Err _, _) => True
      | (Panic, _) => panics
      | (UB, _) | (NoFuel, _) => False
      end
  | (Err _, _) => True
  | (Panic, _) => panics
  | (UB, _) | (NoFuel, _) => False
  end.
Proof.
  intros Hmap Hl s Htop panics. destruct (load_module_ok _ _ _ _ _ _ _ _ Hmap Hl) as (Hwf & Hc & _).
  pose proof (unwind_stack_post (io_error:=io_error) (object_error:=object_error) module snapshot
    Hwf Htop (mkEnv () h' static) Hc) as Hp.
  destruct (unwind_stack module snapshot _) as [[frames|e| | |] env']; try done.
  destruct Hp as [Hn Hc']. split; [done|].
  assert (bench_post (io_error:=io_error) (object_error:=object_error) module (λ _, True)
    (time_unwind module snapshot iterations env')) as Ht.
  { unfold time_unwind. eapply bench_post_bind; [by apply repeat_unwind_post|].
    intros _ env'' _ Hc''. by apply repeat_unwind_post. }
  by destruct (time_unwind module snapshot iterations env') as [[[]|e| | |] env''].
Qed.

(** The elements up to the first that fails [p]. *)
Fixpoint leading (p : Z → bool) (l : list Z) : list Z :=
  match l with
  | [] => []
  | a :: l' => if p a then a :: leading p l' else []
  end.

Section counting.
Context `{Profile} `{!LibunwindLaws L} {io_error object_error : Type}.
Local Abbreviation BE := (BoxError io_error object_error).

Lemma unwind_stack_loop_chain module snapshot ras sp0 bp0 :
  fp_chain (snap_read_stack snapshot) sp0 bp0 ras →
  ∀ fuel regs frame frames env,
  fallback_only_set (x86_modules (lm_unwinder module)) (env_heap env) →
  X86_64.regs_ok regs → X86_64.sp regs = sp0 → X86_64.bp regs = bp0 →
  frames + Z.of_nat fuel = 257 → 1 ≤ frames ≤ 256 →
  let n := frames + len (leading (range_contains (lm_avma_range module)) ras) in
  (unwind_stack_loop (io_error:=io_error) (object_error:=object_error) fuel module snapshot regs
     frame frames env).1 =
  if 256 <? n then Err (BoxStr "unwind produced more than 256 in-module frames") else Ok n.
Proof.
  assert (reads_memory (snap_reader snapshot) (snap_read_stack snapshot)) as Hm by done.
  induction 1 as [sp|sp bp nbp w Hbp Hsp Hw1 Hn Hw2 Hw|sp bp nbp w ras Hbp Hsp Hw1 Hn Hw2 Hw Hc IH];
    intros fuel regs frame frames env Hs Hr Hspr Hbpr Hf Hfr n; (destruct fuel as [|fuel]; [lia|]);
    cbn [unwind_stack_loop]; unfold mbind at 1, sm_bind at 1; unfold snap_step;
    rewrite x86_64_unwind_fallback by done.
  - assert (X86_64.fallback_unwind_frame (snap_reader snapshot) (address frame) (regs, env)
      = (Ok None, (regs, env))) as ->.
    { unfold X86_64.fallback_unwind_frame, mbind, sm_bind, sm_get. cbv zeta. by rewrite Hbpr. }
    subst n. cbn [leading]. rewrite len_nil, Z.add_0_r.
    destruct (Z.ltb_spec 256 frames); [lia|done].
  - subst sp bp. destruct (x86_64_fallback_record (snap_reader snapshot) (snap_read_stack snapshot)
      (address frame) regs env nbp w) as [rs ->]; [done..|].
    cbv zeta. rewrite Hw. subst n. cbn [Z.eqb leading]. rewrite len_nil, Z.add_0_r.
    destruct (Z.ltb_spec 256 frames); [lia|done].
  - subst sp bp. destruct (x86_64_fallback_record (snap_reader snapshot) (snap_read_stack snapshot)
      (address frame) regs env nbp w) as [rs ->]; [done..|].
    cbv zeta. destruct (Z.eqb_spec w 0); [done|]. subst n. cbn [leading].
    destruct (range_contains (lm_avma_range module) w); cbn [negb].
    2: { rewrite len_nil, Z.add_0_r. destruct (Z.ltb_spec 256 frames); [lia|done]. }
    rewrite len_cons. unfold mbind, sm_bind, sm_lift.
    rewrite usize_add_ok by (unfold usize_max; lia).
    pose proof (len_nonneg (leading (range_contains (lm_avma_range module)) ras)).
    destruct (Z.ltb_spec 256 (frames + 1)).
    + destruct (Z.ltb_spec 256 (frames + (1 + len (leading (range_contains (lm_avma_range module)) ras))));
        [done|lia].
    + rewrite Z.add_assoc. apply IH; [done|by apply X86_64.restore_ok|by rewrite X86_64.restore_sp|
        by rewrite X86_64.restore_bp|lia|lia].
Qed.
End counting.

(** On a program none of whose addresses has unwind information
    ([fallback_only_set]), and a saved stack that is a chain of frame records,
    [unwind_stack] counts exactly the innermost frames that lie in the program,
    one for the interrupted function and one per return address up to the first
    outside it; more than 256 are an error. *)
Theorem unwind_stack_counts `{Profile} (L : LibunwindApi) `{!LibunwindLaws L}
    {io_error object_error : Type} (module : LoadedModule) (snapshot : Snapshot) (env : Env ())
    (ras : list Z) :
  fallback_only_set (x86_modules (lm_unwinder module)) (env_heap env) →
  fp_chain (snap_read_stack snapshot) (snap_sp snapshot) (snap_bp snapshot) ras →
  let n := 1 + len (leading (range_contains (lm_avma_range module)) ras) in
  (unwind_stack (io_error:=io_error) (object_error:=object_error) module snapshot env).1 =
  if 256 <? n then Err (BoxStr "unwind produced more than 256 in-module frames") else Ok n.
Proof.
  intros Hs Hc. eapply unwind_stack_loop_chain; [exact Hc|done|done|done|done|lia|lia].
Qed.

(** ** The loop of [unwind_stack] and the iterator

    [unwind_stack] drives [unwind_frame] itself instead of using [iter_frames]. *)
Section iterator.
Context `{Profile} `{!LibunwindLaws L} {io_error object_error : Type}.
Local Abbreviation BE := (BoxError io_error object_error).

(** Without signal frames no address is in one. *)
Lemma plain_is_signal_frame s h a :
  set_wf s → plain s → caches_ok s h → is_signal_frame s h a = false.
Proof.
  intros Hwf Hp Hc. unfold is_signal_frame.
  destruct (find_module s a) as [m|] eqn:Hm; [|done].
  destruct (find_module_some s a m Hwf Hm) as [Hreg _].
  destruct (proj2 Hc m Hreg) as (cache & Hl & Hcwf & Hall). rewrite Hl.
  destruct (bt_floor a cache) as [[k d]|] eqn:Hf; [|done].
  apply bt_floor_some in Hf as (Hg & _ & _); [|done].
  destruct (Hall _ _ Hg) as (_ & ip & _ & Hparse). by rewrite (Hp m ip d Hreg Hparse), andb_false_r.
Qed.

(** What [unwind_stack] returns after [frames] frames, when the iterator still
    yields the frames [fs] and ends with [e]: the number of frames up to the
    first outside the program. *)
Definition counted (in_program : Z → bool) (frames : Z) (fs : list FrameAddress) (e : drained)
    (r : outcome BE Z) : Prop :=
  let inside := leading in_program (address <$> fs) in
  let n := frames + len inside in
  if 256 <? n then r = Err (BoxStr "unwind produced more than 256 in-module frames")
  else if (length inside <? length fs)%nat then r = Ok n
  else
    match e with
    | Finished => r = Ok n
    | Failed err => r = Err (BoxDyn (DynError_Error err))
    | Crashed => ¬ returns r
    | OutOfFuel => False
    end.

Context (module : LoadedModule) (snapshot : Snapshot).
Local Abbreviation s := (x86_modules (lm_unwinder module)).
Context (Hwf : set_wf s) (Hplain : plain s).

(** The iterator of the snapshot, on the types of the x86_64 unwinder. *)
Lemma x86_64_next frame (regs : X86_64.UnwindRegsX86_64) (env : Env ()) :
  let it st regs env := mkUnwindIterator (H:=x86_64_unwinder (snap_reader snapshot))
                          (lm_unwinder module) st regs env in
  next (it (Unwinding frame) regs env) =
  match X86_64.unwind_frame (snap_reader snapshot) s frame (regs, env) with
  | (Ok (Some a), (regs', env')) =>
      match (if X86_64.unwinder_is_signal_frame s (env_heap env') frame
             then Some (InstructionPointer a) else from_return_address a) with
      | Some f => (Ok (Some f), it (Unwinding f) regs' env')
      | None => (Ok None, it Done regs' env')
      end
  | (Ok None, (regs', env')) => (Ok None, it Done regs' env')
  | (Err e, (regs', env')) => (Err e, it (Unwinding frame) regs' env')
  | (Panic, (regs', env')) => (Panic, it (Unwinding frame) regs' env')
  | (UB, (regs', env')) => (UB, it (Unwinding frame) regs' env')
  | (NoFuel, (regs', env')) => (NoFuel, it (Unwinding frame) regs' env')
  end.
Proof. exact (next_step (H:=x86_64_unwinder (snap_reader snapshot)) (lm_unwinder module) frame regs env). Qed.

Lemma x86_64_nonzero frame (regs : X86_64.UnwindRegsX86_64) (env : Env ()) :
  match X86_64.unwind_frame (snap_reader snapshot) s frame (regs, env) with
  | (Ok (Some a), _) => a ≠ 0
  | _ => True
  end.
Proof.
  destruct (X86_64.unwind_frame (snap_reader snapshot) s frame (regs, env)) as [[[a|]|e| | |] st'] eqn:Hu;
    try done.
  exact (unwind_frame_nonzero (UnwinderLaws:=x86_64_unwinder_laws (snap_reader snapshot))
    (lm_unwinder module) frame (regs, env) a st' Hu).
Qed.

Lemma unwind_stack_loop_counted fuel (regs : X86_64.UnwindRegsX86_64) frame frames (env : Env ()) :
  frames + Z.of_nat fuel = 257 → 1 ≤ frames ≤ 256 → caches_ok s (env_heap env) →
  let '(fs, e) := drain fuel (mkUnwindIterator (H:=x86_64_unwinder (snap_reader snapshot))
                                (lm_unwinder module) (Unwinding frame) regs env) in
  counted (range_contains (lm_avma_range module)) frames fs e
    (unwind_stack_loop (io_error:=io_error) (object_error:=object_error) fuel module snapshot regs
       frame frames env).1.
Proof.
  revert regs frame frames env. induction fuel as [|fuel IH]; intros regs frame frames env Hf Hn Hc;
    [lia|]. cbn [drain unwind_stack_loop]. rewrite x86_64_next.
  unfold snap_step, mbind, sm_bind.
  pose proof (x86_64_unwind_moves (snap_reader snapshot) s frame regs env Hwf) as [_ Hk].
  pose proof (x86_64_nonzero frame regs env) as Hnz.
  destruct (X86_64.unwind_frame (snap_reader snapshot) s frame (regs, env))
    as [[[a|]|err| | |] [regs' env']]; simpl in Hk, Hnz; unfold counted.
  2-6: cbn [fmap list_fmap leading length fst]; rewrite len_nil, Z.add_0_r;
    (destruct (Z.ltb_spec 256 frames); [lia|simpl; first [done|by intros []]]).
  unfold X86_64.unwinder_is_signal_frame. rewrite plain_is_signal_frame by auto.
  unfold from_return_address. rewrite (proj2 (Z.eqb_neq a 0)) by done.
  destruct (drain fuel _) as [fs e] eqn:Hd. cbn [fmap list_fmap leading address].
  destruct (range_contains (lm_avma_range module) a) eqn:Hin; cbn [negb].
  2: { rewrite len_nil, Z.add_0_r. destruct (Z.ltb_spec 256 frames); [lia|done]. }
  unfold sm_lift. rewrite usize_add_ok by (unfold usize_max; lia). rewrite len_cons.
  pose proof (len_nonneg (leading (range_contains (lm_avma_range module)) (address <$> fs))).
  destruct (Z.ltb_spec 256 (frames + 1)) as [Hbig|Hbig].
  { by destruct (Z.ltb_spec 256 (frames + (1 + len (leading (range_contains (lm_avma_range module))
      (address <$> fs))))); [|lia]. }
  specialize (IH regs' (ReturnAddress a) (frames + 1) env' ltac:(lia) ltac:(lia) (Hk Hc)).
  rewrite Hd in IH. unfold counted in IH. by rewrite <- Z.add_assoc in IH.
Qed.
End iterator.

(** C34: [unwind_stack], which drives [unwind_frame] with its own loop, counts
    what the library's iterator yields.  For every program [load_module] loads
    that has no signal frames, every snapshot and libunwind: the frames of
    [iter_frames] after the first are counted up to the first that lies outside
    the program's segments; more than 256 are an error; and when all lie inside,
    the walk ends as the iterator does, an error of the iterator being returned
    boxed and a panic being a panic. *)
Theorem unwind_stack_is_iterator `{Profile} (L : LibunwindApi) `{!LibunwindLaws L}
    {io_error object_error File : Type} (open : string → io_error + File)
    (map_file : File → io_error + list Z) (object_parse : list Z → object_error + ObjectFile)
    (segments : ObjectFile → list ObjSegment) (binary : string) (h h' : Heap)
    (module : LoadedModule) (snapshot : Snapshot) (static : option Z) :
  (∀ f bytes, map_file f = inr bytes → bytes_ok bytes) →
  load_module File open map_file object_parse segments binary h = Ok (module, h') →
  plain (x86_modules (lm_unwinder module)) →
  let env := mkEnv () h' static in
  let regs := X86_64.new (snap_ip snapshot) (snap_sp snapshot) (snap_bp snapshot) in
  let r := (unwind_stack (io_error:=io_error) (object_error:=object_error) module snapshot env).1 in
  let '(fs, e) := drain 257 (iter_frames (H:=x86_64_unwinder (snap_reader snapshot))
                               (lm_unwinder module) (snap_ip snapshot) regs env) in
  let callers := address <$> tail fs in
  let inside := leading (range_contains (lm_avma_range module)) callers in
  let n := 1 + len inside in
  head fs = Some (InstructionPointer (snap_ip snapshot)) ∧
  (256 < n → r = Err (BoxStr "unwind produced more than 256 in-module frames")) ∧
  (n ≤ 256 → (length inside < length callers)%nat → r = Ok n) ∧
  (n ≤ 256 → length inside = length callers →
   match e with
   | Finished => r = Ok n
   | Failed err => r = Err (BoxDyn (DynError_Error err))
   | Crashed => ¬ returns r
   | OutOfFuel => False
   end).
Proof.
  intros Hmap Hl Hplain env regs r.
  destruct (load_module_ok _ _ _ _ _ _ _ _ Hmap Hl) as (Hwf & Hc & _).
  pose proof (unwind_stack_loop_counted (io_error:=io_error) (object_error:=object_error) module
    snapshot Hwf Hplain 256 regs (InstructionPointer (snap_ip snapshot)) 1 env ltac:(lia) ltac:(lia)
    Hc) as Hloop.
  change (drain 257 _) with
    (let '(fs, e) := drain 256 (mkUnwindIterator (H:=x86_64_unwinder (snap_reader snapshot))
       (lm_unwinder module) (Unwinding (InstructionPointer (snap_ip snapshot))) regs env) in
     (InstructionPointer (snap_ip snapshot) :: fs, e)).
  destruct (drain 256 _) as [fs e]. cbn [tail head].
  change (unwind_stack_loop _ _ _ _ _ _ env).1 with r in Hloop. unfold counted in Hloop. rewrite length_fmap.
  set (inside := leading _ _) in *. split; [done|].
  destruct (Z.ltb_spec 256 (1 + len inside)); [by split_and!; [|lia..]|].
  destruct (Nat.ltb_spec (length inside) (length fs)); split_and!; (done || lia).
Qed.

(** *** Witnesses: a small file, and a program with one function *)
#[local] Instance snap_profile : Profile := true.
#[local] Instance snap_libunwind : LibunwindApi :=
  toy_libunwind x86_64_regs.UNW_X86_64_RIP x86_64_regs.UNW_X86_64_RSP x86_64_regs.UNW_X86_64_RBP.
#[local] Instance snap_libunwind_laws : LibunwindLaws snap_libunwind := toy_libunwind_laws _ _ _.

(** Two frame records, at 0x8000 and 0x8020. *)
Definition demo_snapshot : Snapshot :=
  mkSnapshot 0x1004 0x7ff0 0x8000 0x7ff0
    (le_encode 8 0 ++ le_encode 8 0 ++ le_encode 8 0x8020 ++ le_encode 8 0x1234
     ++ le_encode 8 0 ++ le_encode 8 0 ++ le_encode 8 0 ++ le_encode 8 0x5678).

Lemma demo_snapshot_ok : snapshot_ok demo_snapshot.
Proof.
  unfold snapshot_ok. split_and!; try by_compute.
Qed.

Lemma snapshot_file_format_witness :
  Snapshot_of_bytes (io_error:=Empty_set) (object_error:=Empty_set) "stack"
    (snapshot_image demo_snapshot ++ [7]) = Ok demo_snapshot.
Proof.
  refine (proj2 (proj2 (snapshot_file_format "stack" (snapshot_image demo_snapshot ++ [7]) _)
    demo_snapshot) _); [by_compute|].
  split; [apply demo_snapshot_ok|by exists [7]].
Defined.

Lemma snapshot_read_stack_witness :
  snap_read_stack demo_snapshot 0x8008 = Some 0x1234 ∧ snap_read_stack demo_snapshot 0x8029 = None.
Proof.
  split; (rewrite snapshot_read_stack; [by vm_compute|by_compute|apply demo_snapshot_ok|by vm_compute]).
Defined.

Definition demo_segments : list ObjSegment :=
  [mkObjSegment 0x2000 0x800; mkObjSegment 0x9000 0; mkObjSegment 0x1000 0x400].

Lemma load_range_least_witness :
  load_range demo_segments = Some (mkRange 0x1000 0x2800) ∧
  ∃ seg, loaded demo_segments seg ∧ seg_address seg = 0x1000.
Proof.
  split; [by vm_compute|].
  exact (proj1 (proj2 (load_range_least demo_segments ltac:(repeat constructor; by_compute)))).
Defined.

Definition demo_program : list Z := (one_fde_eh_frame ++ one_fde_hdr)%list.
Definition demo_program_object : ObjectFile :=
  mkObjectFile 0 (λ nm,
    if bool_decide (nm = ".eh_frame")
    then Some (mkObjSection 0x3000 (len one_fde_eh_frame) (Some (0, len one_fde_eh_frame)))
    else if bool_decide (nm = ".eh_frame_hdr")
    then Some (mkObjSection 0x4000 (len one_fde_hdr) (Some (len one_fde_eh_frame, len one_fde_hdr)))
    else if bool_decide (nm = ".text") then Some (mkObjSection 0x1000 0x1000 None) else None).
Definition demo_load : outcome (BoxError Empty_set Empty_set) (LoadedModule * Heap) :=
  load_module () (λ _, inr ()) (λ _, inr demo_program) (λ _, inr demo_program_object)
    (λ _, demo_segments) "program" heap_init.
Definition demo_loaded : LoadedModule :=
  if demo_load is Ok (module, _) then module
  else mkLoadedModule UnwinderX86_64_new (mkRange 0 0).
Definition demo_heap : Heap := if demo_load is Ok (_, h) then h else heap_init.

Lemma demo_load_eq : demo_load = Ok (demo_loaded, demo_heap).
Proof. by vm_compute. Qed.

Lemma demo_program_bytes (f : ()) bytes : (inr demo_program : Empty_set + list Z) = inr bytes → bytes_ok bytes.
Proof. intros [= <-]. by_compute. Qed.

Lemma demo_below : below_top (x86_modules (lm_unwinder demo_loaded)).
Proof.
  destruct (load_module_ok _ _ _ _ _ _ _ _ demo_program_bytes demo_load_eq) as (Hwf & _).
  intros k e Hg. apply bt_get_elem in Hg; [|apply Hwf].
  assert (forallb (λ p, sec_avma_end (section p.2) <? u64_max)
    (redirects (x86_modules (lm_unwinder demo_loaded))) = true) as Hall by (by vm_compute).
  rewrite forallb_forall in Hall. apply list_elem_of_In, Hall in Hg. simpl in Hg. lia.
Qed.

Lemma unwind_stack_safe_witness :
  match unwind_stack (io_error:=Empty_set) (object_error:=Empty_set) demo_loaded demo_snapshot
          (mkEnv () demo_heap None) with
  | (Ok frames, _) => 1 ≤ frames ≤ 256
  | (Err _, _) => True
  | _ => False
  end.
Proof.
  pose proof (unwind_stack_safe (io_error:=Empty_set) (object_error:=Empty_set) (File:=())
    snap_libunwind (λ _, inr ()) (λ _, inr demo_program) (λ _, inr demo_program_object)
    (λ _, demo_segments) "program" heap_init demo_heap demo_loaded demo_snapshot None 3
    demo_program_bytes demo_load_eq demo_below) as Hs.
  destruct (unwind_stack _ _ _) as [[n|err| | |] env'] eqn:He;
    [exact (proj1 Hs)|exact I|exfalso; revert He; by vm_compute|exact Hs|exact Hs].
Defined.

(** A stack of three return addresses, the last outside the program. *)
Definition calls_snapshot : Snapshot :=
  mkSnapshot 0x1004 0x7ff0 0x8000 0x7ff0
    (le_encode 8 0x1008 ++ le_encode 8 0x100a ++ le_encode 8 0x9999 ++ le_encode 8 0).

Definition demo_module : ModuleData :=
  default one_fde_module (head (bt_values (modules (x86_modules (lm_unwinder demo_loaded))))).

Lemma demo_plain : plain (x86_modules (lm_unwinder demo_loaded)).
Proof.
  intros m ip d. unfold registered. generalize (start (avma_range m)). intros k.
  change (bt_get k [(0x1000, demo_module)] = Some m →
          parse_function_details m ip = Ok d → fd_signal_frame d = false).
  cbn [bt_get]. destruct (0x1000 =? k); [intros [= <-]|done].
  intros ->%(one_entry_unique demo_module one_fde_hdr (0x1000, 0x300d) one_fde_details);
    by vm_compute.
Qed.

Lemma unwind_stack_is_iterator_witness :
  drain 257 (iter_frames (H:=x86_64_unwinder (snap_reader calls_snapshot)) (lm_unwinder demo_loaded)
     0x1004 (X86_64.new 0x1004 0x7ff0 0x8000) (mkEnv () demo_heap None)) =
    ([InstructionPointer 0x1004; ReturnAddress 0x1008; ReturnAddress 0x100b; ReturnAddress 0x9999],
     Finished) ∧
  (unwind_stack (io_error:=Empty_set) (object_error:=Empty_set) demo_loaded calls_snapshot
     (mkEnv () demo_heap None)).1 = Ok 3.
Proof.
  pose proof (unwind_stack_is_iterator (io_error:=Empty_set) (object_error:=Empty_set) (File:=())
    snap_libunwind (λ _, inr ()) (λ _, inr demo_program) (λ _, inr demo_program_object)
    (λ _, demo_segments) "program" heap_init demo_heap demo_loaded calls_snapshot None
    demo_program_bytes demo_load_eq demo_plain) as Ht.
  cbv zeta in Ht.
  assert (drain 257 (iter_frames (H:=x86_64_unwinder (snap_reader calls_snapshot))
     (lm_unwinder demo_loaded) 0x1004 (X86_64.new 0x1004 0x7ff0 0x8000) (mkEnv () demo_heap None)) =
    ([InstructionPointer 0x1004; ReturnAddress 0x1008; ReturnAddress 0x100b; ReturnAddress 0x9999],
     Finished)) as Hd by by vm_compute.
  split; [exact Hd|].
  match type of Ht with context [drain 257 ?it] =>
    change (drain 257 it) with
      (drain 257 (iter_frames (H:=x86_64_unwinder (snap_reader calls_snapshot))
        (lm_unwinder demo_loaded) 0x1004 (X86_64.new 0x1004 0x7ff0 0x8000)
        (mkEnv () demo_heap None))) in Ht
  end.
  rewrite Hd in Ht. destruct Ht as (_ & _ & Hr & _).
  assert (leading (range_contains (lm_avma_range demo_loaded)) [0x1008; 0x100b; 0x9999]
          = [0x1008; 0x100b]) as Hi by by vm_compute.
  cbn [tail fmap list_fmap address] in Hr. rewrite Hi in Hr. apply Hr; [by_compute|simpl; lia].
Defined.

Definition walk_loaded : LoadedModule := mkLoadedModule (mkUnwinderX86_64 walk_set) (mkRange 0x1000 0x2000).

Lemma unwind_stack_counts_witness :
  (unwind_stack (io_error:=Empty_set) (object_error:=Empty_set) walk_loaded demo_snapshot walk_env).1
  = Ok 2.
Proof.
  refine (unwind_stack_counts snap_libunwind walk_loaded demo_snapshot walk_env [0x1234; 0x5678]
    walk_fallback_only _).
  change (fp_chain (snap_read_stack demo_snapshot) 0x7ff0 0x8000 [0x1234; 0x5678]).
  apply (chain_frame (λ w, w) _ _ _ 0x8020 0x1234);
    [lia|unfold u64_max; lia|by vm_compute|by right|by vm_compute|done|].
  apply (chain_frame (λ w, w) _ _ _ 0 0x5678);
    [lia|unfold u64_max; lia|by vm_compute|by left|by vm_compute|done|].
  apply chain_end.
Defined.
