(* ===== verification/CppPrograms.v ===== *)
(** * The C++ programs of [src/examples/cpp_unwind_bench.rs]

    The driver compiles three programs and runs them; each recurses, saves its
    registers and its stack to a file from the innermost call, and returns.  Their
    text is part of the Rust file; here is what they do, on an arbitrary machine. *)

From Stdlib Require Import Ascii String.
From stdpp Require Import strings sorting.
From S2P Require Import Prelude.
From S2P Require Import Messages.
From S2P Require Import Snapshot.
Local Open Scope string_scope.
Local Open Scope Z_scope.

(** ** A running program *)

(** The globals of [SNAPSHOT_SUPPORT] and of [STL_SORT], and the files written:
    the bytes of a closed stream that reached the file. *)
Record Proc : Type := mkProc {
  g_snapshot_path : option string;
  g_sink : Z;
  g_captured : bool;
  files : list (string * list Z);
}.
Definition proc_init : Proc := mkProc None 0 false [].

Definition set_path (path : string) (p : Proc) : Proc :=
  mkProc (Some path) (g_sink p) (g_captured p) (files p).
Definition set_sink (v : Z) (p : Proc) : Proc :=
  mkProc (g_snapshot_path p) v (g_captured p) (files p).
Definition set_captured (p : Proc) : Proc :=
  mkProc (g_snapshot_path p) (g_sink p) true (files p).
Definition add_file (path : string) (contents : list Z) (p : Proc) : Proc :=
  mkProc (g_snapshot_path p) (g_sink p) (g_captured p) (files p ++ [(path, contents)])%list.

(** What a snapshot sees: the registers as the inline assembly reads them, and the
    mapped bytes as they are when the stack is written to the file. *)
Record Machine : Type := mkMachine {
  reg_ip : Z;
  reg_sp : Z;
  reg_bp : Z;
  memory : Z → option Z;
}.

(** The machine when a snapshot is taken, and the C library: the two pthread calls,
    whether [fopen] succeeds, how many of the bytes given to [fwrite] are accepted
    by a stream that has accepted some already, and how many of them [fclose]
    still brings to the file. *)
Class Host : Type := {
  machine : Proc → Machine;
  pthread_attr : Type;
  pthread_getattr_np : Proc → option pthread_attr;
  pthread_attr_getstack : pthread_attr → option (Z * Z);
  fopen_ok : Proc → string → bool;
  fwrite_accepts : Proc → list Z → list Z → nat;
  fclose_flushes : Proc → list Z → nat;
}.

(** A thread runs on the stack that [pthread_attr_getstack] reports, which does not
    wrap around: what lies between its stack pointer and the end of the stack is
    mapped. *)
Definition align_down (sp : Z) : Z := Z.land sp (Z.lxor u64_max 7).

Class HostLaws (H : Host) : Prop := {
  machine_regs p : is_u64 (reg_ip (machine p)) ∧ is_u64 (reg_sp (machine p)) ∧
    is_u64 (reg_bp (machine p));
  machine_stack p attr addr size a :
    pthread_getattr_np p = Some attr → pthread_attr_getstack attr = Some (addr, size) →
    align_down (reg_sp (machine p)) ≤ a < wrapping_add addr size →
    ∃ b, memory (machine p) a = Some b ∧ is_u8 b;
}.

(** The bytes from an address on. *)
Definition load_bytes (m : Machine) (addr n : Z) : option (list Z) := mapM (memory m) (seqZ addr n).

Inductive Stop : Type := Aborted.

Section programs.
Context `{Host}.
Local Abbreviation CM := (SM Proc Stop).

Definition abort {A} : CM A := sm_err Aborted.

(** [SnapshotHeader], and its bytes. *)
Record SnapshotHeader : Type := mkSnapshotHeader {
  h_magic : Z;
  h_ip : Z;
  h_sp : Z;
  h_bp : Z;
  h_stack_start : Z;
  h_stack_len : Z;
}.
Definition header_bytes (h : SnapshotHeader) : list Z :=
  (le_encode 8 (h_magic h) ++ le_encode 8 (h_ip h) ++ le_encode 8 (h_sp h) ++ le_encode 8 (h_bp h)
   ++ le_encode 8 (h_stack_start h) ++ le_encode 8 (h_stack_len h))%list.

(** [fwrite(data, size, 1, file)]: the number of whole elements written, and the
    bytes of the stream. *)
Definition fwrite (accepted data : list Z) : CM (Z * list Z) :=
  p ← sm_get;
  let k := fwrite_accepts p accepted data in
  mret (if (0 <? len data) && (len data <=? Z.of_nat k) then 1 else 0,
        (accepted ++ take k data)%list).

Definition fclose (path : string) (accepted : list Z) : CM () :=
  p ← sm_get;
  sm_modify (add_file path (take (fclose_flushes p accepted) accepted)).

Definition sink_xor (v : Z) : CM () := sm_modify (λ p, set_sink (Z.lxor (g_sink p) v) p).
Definition sink_add (v : Z) : CM () := sm_modify (λ p, set_sink (wrapping_add (g_sink p) v) p).

Definition libunwinder_take_snapshot (checksum : Z) : CM () :=
  p ← sm_get;
  let ip := reg_ip (machine p) in
  let sp := reg_sp (machine p) in
  let bp := reg_bp (machine p) in
  match pthread_getattr_np p with
  | None => abort
  | Some attr =>
      match pthread_attr_getstack attr with
      | None => abort
      | Some (stack_addr, stack_size) =>
          let stack_high := wrapping_add stack_addr stack_size in
          let sp := align_down sp in
          if stack_high <=? sp then abort
          else
            let header := mkSnapshotHeader SNAPSHOT_MAGIC ip sp bp sp (wrapping_sub stack_high sp) in
            path ← sm_lift (if g_snapshot_path p is Some path then Ok path else UB);
            if negb (fopen_ok p path) then abort
            else
              '(n, file) ← fwrite [] (header_bytes header);
              if negb (n =? 1) then abort
              else
                stack ← sm_lift (if load_bytes (machine p) sp (h_stack_len header) is Some bytes
                                 then Ok bytes else UB);
                '(n, file) ← fwrite file stack;
                if negb (n =? 1) then abort
                else
                  _ ← fclose path file;
                  sink_xor checksum
      end
  end.

(** ** [TEMPLATE_RECURSION] *)
Fixpoint template_chain (N : nat) (value : Z) : CM Z :=
  match N with
  | O => _ ← libunwinder_take_snapshot value; mret (wrapping_add value 1)
  | S N' =>
      next ← template_chain N' (wrapping_add value (Z.of_nat N));
      _ ← sink_add next;
      mret (Z.lxor next (Z.of_nat N))
  end.

(** The part all three [main]s start with: [argv[1]] is the path of the snapshot. *)
Definition with_path (argv : list string) (body : CM Z) : CM Z :=
  match argv with
  | [_; path] => _ ← sm_modify (set_path path); body
  | _ => mret 2
  end.
Definition sink_status : CM Z := p ← sm_get; mret (if g_sink p =? 0 then 1 else 0).

Definition template_recursion_main (argv : list string) : CM Z :=
  with_path argv (
    result ← template_chain 14 7;
    _ ← sink_add result;
    sink_status).

(** ** [VIRTUAL_DISPATCH] *)
Inductive Node : Type :=
  | Leaf (value : Z)
  | Branch (child : Node) (salt : Z).

Fixpoint visit (self : Node) (seed : Z) : CM Z :=
  match self with
  | Leaf value =>
      let checksum := Z.lxor value (as_u64 (seed * 1315423911)) in
      _ ← libunwinder_take_snapshot checksum;
      _ ← sink_add checksum;
      mret checksum
  | Branch child salt =>
      next ← visit child (wrapping_add seed salt);
      _ ← sink_add (Z.lxor next salt);
      mret (wrapping_add next salt)
  end.

Definition dispatch_tree : Node :=
  foldl (λ node i, Branch node (as_u64 (i * 17))) (Leaf 0x51f15e) (seqZ 1 10).

Definition virtual_dispatch_main (argv : list string) : CM Z :=
  with_path argv (
    result ← visit dispatch_tree 11;
    _ ← sink_add result;
    sink_status).

(** ** [STL_SORT] *)
Record CppRecord : Type := mkCppRecord {
  r_name : string;
  r_key : Z;
  r_payload : list Z;
}.

(** The [i]-th record pushed. *)
Definition make_record (i : Z) : CppRecord :=
  mkCppRecord ("row-" +:+ dec i) ((i * 37) mod 101) (seqZ i 12).
Definition records : list CppRecord := make_record <$> seqZ 0 96.

(** The lambda given to [std::sort]. *)
Definition record_less (left right : CppRecord) : bool :=
  if negb (r_key left =? r_key right) then r_key left <? r_key right
  else String.ltb (r_name left) (r_name right).
Definition keys_differ_in_parity (left right : CppRecord) : bool :=
  negb (Z.land (Z.lxor (r_key left) (r_key right)) 1 =? 0).
Definition comparator (left right : CppRecord) : CM bool :=
  p ← sm_get;
  _ ← (if negb (g_captured p) && keys_differ_in_parity left right then
         _ ← sm_modify set_captured;
         libunwinder_take_snapshot (as_u64 (r_key left + r_key right))
       else mret ());
  mret (record_less left right).
End programs.

(** [std::sort] learns about the elements by comparing them: which two it compares
    next, and in which order it leaves them, depends on the answers so far.
    Elements are named by their position at the start. *)
Inductive SortTree : Type :=
  | SortDone (order : list nat)
  | SortCompare (i j : nat) (k : bool → SortTree).

(** What it does with a comparison that has no effect. *)
Fixpoint sort_result (lt : nat → nat → bool) (t : SortTree) : list nat :=
  match t with
  | SortDone order => order
  | SortCompare i j k => sort_result lt (k (lt i j))
  end.
(** Whether it compares two given elements, in either order. *)
Fixpoint compares (lt : nat → nat → bool) (x y : nat) (t : SortTree) : bool :=
  match t with
  | SortDone _ => false
  | SortCompare i j k =>
      (Nat.eqb i x && Nat.eqb j y) || (Nat.eqb i y && Nat.eqb j x) || compares lt x y (k (lt i j))
  end.

(** The requirement on the comparison, and what the standard promises for it: the
    elements are permuted, and none is less than one before it. *)
Record strict_weak_order (n : nat) (lt : nat → nat → bool) : Prop := {
  swo_irrefl a : (a < n)%nat → lt a a = false;
  swo_trans a b c : (a < n)%nat → (b < n)%nat → (c < n)%nat →
    lt a b = true → lt b c = true → lt a c = true;
  swo_incomparable a b c : (a < n)%nat → (b < n)%nat → (c < n)%nat →
    lt a b = false → lt b c = false → lt a c = false;
}.

Class StdSort : Type := std_sort : nat → SortTree.
Fixpoint in_range (n : nat) (t : SortTree) : Prop :=
  match t with
  | SortDone _ => True
  | SortCompare i j k => (i < n)%nat ∧ (j < n)%nat ∧ ∀ b, in_range n (k b)
  end.
Class StdSortLaws (S : StdSort) : Prop := {
  std_sort_range n : in_range n (std_sort n);
  std_sort_permutes n lt : strict_weak_order n lt → sort_result lt (std_sort n) ≡ₚ seq 0 n;
  std_sort_sorts n lt : strict_weak_order n lt →
    StronglySorted (λ a b, lt b a = false) (sort_result lt (std_sort n));
}.

Section stl_sort.
Context `{Host} `{StdSort}.
Local Abbreviation CM := (SM Proc Stop).

(** [std::sort] with the comparator of the program. *)
Fixpoint run_sort (rs : list CppRecord) (t : SortTree) : CM (list CppRecord) :=
  match t with
  | SortDone order => sm_lift (if mapM (rs !!.) order is Some rs' then Ok rs' else UB)
  | SortCompare i j k =>
      match rs !! i, rs !! j with
      | Some l, Some r => b ← comparator l r; run_sort rs (k b)
      | _, _ => sm_lift UB
      end
  end.

Definition stl_sort_main (argv : list string) : CM Z :=
  with_path argv (
    sorted ← run_sort records (std_sort (length records));
    front ← sm_lift (if head sorted is Some r then Ok r else UB);
    _ ← sink_add (as_u64 (r_key front));
    p ← sm_get;
    mret (if g_captured p then 0 else 1)).
End stl_sort.

(** ** What a snapshot is *)

(** [s] is the machine at [p]: its registers, and its stack from the aligned stack
    pointer to the end. *)
Definition saved_state `{Host} (p : Proc) (s : Snapshot) : Prop :=
  ∃ attr addr size,
    pthread_getattr_np p = Some attr ∧ pthread_attr_getstack attr = Some (addr, size) ∧
    let sp := align_down (reg_sp (machine p)) in
    let stack_high := wrapping_add addr size in
    sp < stack_high ∧
    snap_ip s = reg_ip (machine p) ∧ snap_sp s = sp ∧ snap_bp s = reg_bp (machine p) ∧
    stack_start s = sp ∧ load_bytes (machine p) sp (stack_high - sp) = Some (stack s).

Lemma align_down_u64 sp : is_u64 (align_down sp).
Proof.
  unfold align_down. change (Z.lxor u64_max 7) with (Z.land (Z.lxor u64_max 7) (Z.ones 64)).
  rewrite Z.land_assoc, Z.land_ones by lia. apply Z.mod_pos_bound. lia.
Qed.

Section saving.
Context `{Hh : Host} `{!HostLaws Hh}.

Lemma load_bytes_mapped (m : Machine) addr n :
  (∀ a, addr ≤ a < addr + n → ∃ b, memory m a = Some b ∧ is_u8 b) →
  ∃ l, load_bytes m addr n = Some l ∧ Forall is_u8 l.
Proof.
  intros Hm. unfold load_bytes.
  assert (Forall (λ a, ∃ b, memory m a = Some b ∧ is_u8 b) (seqZ addr n)) as Hf.
  { apply Forall_forall. intros a Ha%elem_of_seqZ. by apply Hm. }
  induction Hf as [|a l (b & Hb & Hu) _ (bs & Hbs & Hus)]; [by exists []|].
  exists (b :: bs). split; [|by constructor].
  change (mapM (memory m) (a :: l)) with (b ← memory m a; bs ← mapM (memory m) l; Some (b :: bs)).
  by rewrite Hb, Hbs.
Qed.

Lemma load_bytes_length m addr n l : load_bytes m addr n = Some l → length l = Z.to_nat n.
Proof. intros Hl%length_mapM. by rewrite <- Hl, length_seqZ. Qed.

(** An element that is written was accepted whole. *)
Lemma fwrite_spec accepted data p :
  ∃ n file, fwrite accepted data p = (Ok (n, file), p) ∧ (n = 1 → file = (accepted ++ data)%list).
Proof.
  do 2 eexists. split; [done|].
  destruct (Z.ltb_spec 0 (len data)), (Z.leb_spec (len data) (Z.of_nat (fwrite_accepts p accepted data)));
    try done. intros _. rewrite take_ge; [done|]. unfold len in *. lia.
Qed.

Lemma take_snapshot_spec c p path :
  g_snapshot_path p = Some path →
  match libunwinder_take_snapshot c p with
  | (Ok _, p') => ∃ s, saved_state p s ∧ snapshot_ok s ∧
      let reached := take (fclose_flushes p (snapshot_image s)) (snapshot_image s) in
      p' = set_sink (Z.lxor (g_sink p) c) (add_file path reached p)
  | (Err Aborted, _) => True
  | _ => False
  end.
Proof.
  intros Hpath. unfold libunwinder_take_snapshot, mbind at 1, sm_bind at 1, sm_get.
  destruct (machine_regs p) as (Hip & Hsp & Hbp).
  destruct (pthread_getattr_np p) as [attr|] eqn:Hattr; [|done].
  destruct (pthread_attr_getstack attr) as [[addr size]|] eqn:Hst; [|done].
  pose proof (machine_stack p attr addr size) as Hmap. specialize (λ a, Hmap a Hattr Hst).
  pose proof (align_down_u64 (reg_sp (machine p))) as Hal. pose proof (wrapping_add_u64 addr size) as Hhu.
  set (sp := align_down (reg_sp (machine p))) in *.
  set (high := wrapping_add addr size) in *. cbv zeta.
  destruct (Z.leb_spec high sp) as [|Hlt]; [done|].
  unfold is_u in Hal, Hhu. unfold mbind, sm_bind, sm_lift. rewrite Hpath.
  destruct (negb (fopen_ok p path)); [done|].
  match goal with |- context [fwrite [] ?b p] => destruct (fwrite_spec [] b p) as (n & f & -> & Hf) end.
  destruct (Z.eqb_spec n 1) as [->|]; [|done]. rewrite Hf by done. cbn [negb app h_stack_len].
  assert (wrapping_sub high sp = high - sp) as Hsub by (apply Z.mod_small; lia).
  rewrite Hsub in *. destruct (load_bytes_mapped (machine p) sp (high - sp)) as (data & Hdata & Hbytes).
  { intros a Ha. apply Hmap. lia. }
  rewrite Hdata.
  match goal with |- context [fwrite ?a data p] => destruct (fwrite_spec a data p) as (n & f' & -> & Hf') end.
  destruct (Z.eqb_spec n 1) as [->|]; [|done]. rewrite Hf' by done. cbn [negb].
  exists (mkSnapshot (reg_ip (machine p)) sp (reg_bp (machine p)) sp data). split_and!.
  - by exists attr, addr, size.
  - split_and!; [exact Hip|exact Hal|exact Hbp|exact Hal|exact Hbytes].
  - assert (len data = high - sp) as Hlen.
    { unfold len. rewrite (load_bytes_length _ _ _ _ Hdata). lia. }
    unfold fclose, sink_xor, sm_modify, mbind, sm_bind, sm_get, set_sink, add_file.
    unfold snapshot_image, header_bytes. cbv zeta.
    cbn [snap_ip snap_sp snap_bp stack_start stack h_magic h_ip h_sp h_bp h_stack_start h_stack_len
         g_snapshot_path g_sink g_captured files].
    by rewrite Hlen, <- !(assoc_L (++)).
Qed.
End saving.

(** ** Reading a snapshot back *)

Lemma load_bytes_within m addr n l a :
  load_bytes m addr n = Some l → addr ≤ a → a + 8 ≤ addr + n →
  load_bytes m a 8 = Some (take 8 (drop (Z.to_nat (a - addr)) l)).
Proof.
  intros Hl Ha Hn. apply mapM_Some in Hl. apply mapM_Some.
  assert (seqZ a 8 = take 8 (drop (Z.to_nat (a - addr)) (seqZ addr n))) as ->.
  { replace n with ((a - addr) + (8 + (addr + n - a - 8))) by lia.
    rewrite seqZ_app, drop_app_length' by (lia || by rewrite length_seqZ).
    replace (addr + (a - addr)) with a by lia.
    by rewrite seqZ_app, take_app_length' by (lia || by rewrite length_seqZ). }
  by apply Forall2_take, Forall2_drop.
Qed.

Lemma saved_stack_len `{Host} p s :
  saved_state p s → ∃ high, is_u64 high ∧ align_down (reg_sp (machine p)) + len (stack s) = high.
Proof.
  intros (attr & addr & size & _ & _ & Hlt & _ & _ & _ & _ & Hl). exists (wrapping_add addr size).
  split; [apply wrapping_add_u64|]. unfold len. rewrite (load_bytes_length _ _ _ _ Hl). lia.
Qed.

Lemma saved_stack_u64 `{Host} p s : saved_state p s → is_u64 (len (stack s)).
Proof.
  intros (high & Hh & He)%saved_stack_len. pose proof (align_down_u64 (reg_sp (machine p))).
  pose proof (len_nonneg (stack s)). unfold is_u in *. lia.
Qed.

(** A word of the memory when the snapshot was taken. *)
Definition memory_word (m : Machine) (a : Z) : option Z := le_decode <$> load_bytes m a 8.

Lemma saved_read_stack `{Host} p s a :
  saved_state p s → snapshot_ok s → len (stack s) ≤ isize_max → is_u64 a →
  snap_read_stack s a =
  if (stack_start s <=? a) && (a + 8 <=? stack_start s + len (stack s))
  then memory_word (machine p) a else None.
Proof.
  intros (attr & addr & size & _ & _ & Hlt & _ & _ & _ & Hst & Hl) Hok Hlen Ha.
  rewrite snapshot_read_stack by done. rewrite Hst.
  assert (len (stack s) = wrapping_add addr size - align_down (reg_sp (machine p))) as Hn.
  { unfold len. rewrite (load_bytes_length _ _ _ _ Hl). lia. }
  destruct (Z.leb_spec (align_down (reg_sp (machine p))) a); [|done].
  destruct (Z.leb_spec (a + 8) (align_down (reg_sp (machine p)) + len (stack s))); [|done].
  cbn [andb]. unfold memory_word.
  by rewrite (load_bytes_within _ _ _ _ a Hl) by lia.
Qed.

Lemma word_of_take l k o : 0 ≤ o → o + 8 ≤ Z.of_nat k → word_of (take k l) o = word_of l o.
Proof.
  intros Ho Hk. unfold word_of. rewrite !take_drop_commute, take_take. by rewrite Nat.min_l by lia.
Qed.

Lemma image_bytes s : snapshot_ok s → Forall is_u8 (snapshot_image s).
Proof.
  intros (_ & _ & _ & _ & Hs). unfold snapshot_image. rewrite !Forall_app.
  split_and!; auto using le_encode_bytes.
Qed.

(** A file that was cut short is never taken for another snapshot. *)
Lemma cut_image_read `{Profile} {io_error object_error : Type} path s k :
  snapshot_ok s → is_u64 (len (stack s)) → len (take k (snapshot_image s)) ≤ isize_max →
  let r := Snapshot_of_bytes (io_error:=io_error) (object_error:=object_error) path
             (take k (snapshot_image s)) in
  if (Nat.leb (length (snapshot_image s)) k) then r = Ok s else ∃ e, r = Err e.
Proof.
  intros Hok Hu Hmax r. subst r. pose proof (image_len s []) as Hlen.
  rewrite app_nil_r in Hlen. change (len []) with 0 in Hlen. rewrite Z.add_0_r in Hlen.
  pose proof (len_nonneg (stack s)) as Hst.
  assert (len (take k (snapshot_image s)) = Z.min (Z.of_nat k) (48 + len (stack s))) as Hk.
  { rewrite <- Hlen. unfold len. rewrite length_take. lia. }
  assert (bytes_ok (take k (snapshot_image s))) as Hb.
  { split; [by apply Forall_take, image_bytes|done]. }
  destruct (Z.ltb_spec (Z.of_nat k) 48) as [Hs|Hs].
  { unfold Snapshot_of_bytes. destruct (Z.ltb_spec (len (take k (snapshot_image s))) 48); [|lia].
    destruct (Nat.leb_spec (length (snapshot_image s)) k); [unfold len in Hlen; lia|]. by eexists. }
  rewrite Snapshot_of_bytes_words by (done || lia). cbv zeta. rewrite !word_of_take by lia.
  destruct (image_words s []) as (H0 & H8 & H16 & H24 & H32 & H40 & Hd); [done|done|].
  rewrite app_nil_r in *. rewrite H0, H8, H16, H24, H32, H40. rewrite Z.eqb_refl. cbn [negb].
  destruct (Z.ltb_spec u64_max (48 + len (stack s))) as [Hov|_].
  { rewrite Hk in Hmax. unfold isize_max in Hmax. rewrite u64_max_eq in Hov.
    destruct (Nat.leb_spec (length (snapshot_image s)) k); [unfold len in *; lia|]. by eexists. }
  rewrite Hk. destruct (Nat.leb_spec (length (snapshot_image s)) k) as [Hf|Hf];
    destruct (Z.ltb_spec (Z.min (Z.of_nat k) (48 + len (stack s))) (48 + len (stack s)));
    unfold len in *; try lia; [|by eexists].
  rewrite (take_ge (snapshot_image s)), Hd by lia. rewrite Nat2Z.id, take_app_length. by destruct s.
Qed.

(** ** Programs that save one snapshot *)

(** [m] saves the state it starts in, or aborts; its result and what it leaves in
    [g_sink] are the function [f] of what it finds there. *)
Section one_snapshot.
Context `{Hh : Host} `{!HostLaws Hh}.
Local Abbreviation CM := (SM Proc Stop).

Definition saves {A} (m : CM A) (f : Z → A * Z) : Prop :=
  ∀ p path, g_snapshot_path p = Some path →
  match m p with
  | (Ok a, p') => ∃ s k, saved_state p s ∧ snapshot_ok s ∧ a = (f (g_sink p)).1 ∧
      p' = set_sink (f (g_sink p)).2 (add_file path (take k (snapshot_image s)) p)
  | (Err Aborted, _) => True
  | _ => False
  end.

Lemma saves_snapshot c : saves (libunwinder_take_snapshot c) (λ v, ((), Z.lxor v c)).
Proof.
  intros p path Hp. pose proof (take_snapshot_spec c p path Hp) as Hs.
  destruct (libunwinder_take_snapshot c p) as [[[]|[]| | |] p']; try done.
  destruct Hs as (s & ? & ? & ->). by eexists s, _.
Qed.

(** What follows only computes with the result and [g_sink]. *)
Lemma saves_bind {A B} (m : CM A) f (g : A → CM B) (h : A → Z → B * Z) :
  saves m f → (∀ a p, g a p = (Ok (h a (g_sink p)).1, set_sink (h a (g_sink p)).2 p)) →
  saves (m ≫= g) (λ v, h (f v).1 (f v).2).
Proof.
  intros Hm Hg p path Hp. specialize (Hm p path Hp). unfold mbind, sm_bind.
  destruct (m p) as [[a|[]| | |] p']; try done. destruct Hm as (s & k & Hs & Hok & -> & ->).
  rewrite Hg. by exists s, k.
Qed.

Lemma saves_ext {A} (m : CM A) f g : (∀ v, f v = g v) → saves m f → saves m g.
Proof.
  intros Hfg Hm p path Hp. specialize (Hm p path Hp).
  destruct (m p) as [[a|[]| | |] p']; try done. by rewrite <- Hfg.
Qed.

Fixpoint chain_effect (N : nat) (value v : Z) : Z * Z :=
  match N with
  | O => (wrapping_add value 1, Z.lxor v value)
  | S N' =>
      let '(next, v) := chain_effect N' (wrapping_add value (Z.of_nat N)) v in
      (Z.lxor next (Z.of_nat N), wrapping_add v next)
  end.

Lemma template_chain_saves N value : saves (template_chain N value) (chain_effect N value).
Proof.
  revert value. induction N as [|N IH]; intros value; cbn [template_chain].
  - eapply saves_ext; [|eapply (saves_bind _ _ _ (λ _ v, (wrapping_add value 1, v)));
      [apply saves_snapshot|by intros [] []]]. done.
  - eapply saves_ext; [|eapply (saves_bind _ _ _
      (λ next v, (Z.lxor next (Z.of_nat (S N)), wrapping_add v next))); [apply IH|done]].
    intros v. cbn [chain_effect]. by destruct (chain_effect N _ v).
Qed.

Fixpoint visit_effect (self : Node) (seed v : Z) : Z * Z :=
  match self with
  | Leaf value =>
      let checksum := Z.lxor value (as_u64 (seed * 1315423911)) in
      (checksum, wrapping_add (Z.lxor v checksum) checksum)
  | Branch child salt =>
      let '(next, v) := visit_effect child (wrapping_add seed salt) v in
      (wrapping_add next salt, wrapping_add v (Z.lxor next salt))
  end.

Lemma visit_saves self seed : saves (visit self seed) (visit_effect self seed).
Proof.
  revert seed. induction self as [value|child IH salt]; intros seed; cbn [visit]; cbv zeta.
  - set (c := Z.lxor value _). eapply saves_ext; [|eapply (saves_bind _ _ _
      (λ _ v, (c, wrapping_add v c))); [apply saves_snapshot|done]]. done.
  - eapply saves_ext; [|eapply (saves_bind _ _ _
      (λ next v, (wrapping_add next salt, wrapping_add v (Z.lxor next salt)))); [apply IH|done]].
    intros v. cbn [visit_effect]. by destruct (visit_effect child _ v).
Qed.

(** The state in which a finished program had taken its snapshot: the path set, no
    result accumulated and nothing written yet. *)
Definition at_snapshot (path : string) (p : Proc) : Proc := mkProc (Some path) 0 (g_captured p) [].

(** What the three programs promise: with one argument they exit with 0 after
    saving one snapshot there, or abort; otherwise they exit with 2. *)
Definition saves_or_aborts (main : list string → CM Z) : Prop :=
  ∀ argv,
  match main argv proc_init with
  | (Ok code, p') =>
      (code = 2 ∧ length argv ≠ 2%nat ∧ p' = proc_init) ∨
      (code = 0 ∧ ∃ name path s k, argv = [name; path] ∧ saved_state (at_snapshot path p') s ∧
         snapshot_ok s ∧ files p' = [(path, take k (snapshot_image s))])
  | (Err Aborted, _) => length argv = 2%nat
  | _ => False
  end.

Lemma with_path_saves body f :
  saves body f → (f 0).1 = 0 → saves_or_aborts (λ argv, with_path argv body).
Proof.
  intros Hb Hf argv. destruct argv as [|name [|path [|x argv]]]; try (by left).
  cbn [with_path]. unfold mbind, sm_bind, sm_modify.
  specialize (Hb (set_path path proc_init) path eq_refl).
  destruct (body _) as [[code|[]| | |] p']; try done. destruct Hb as (s & k & Hs & Hok & -> & ->).
  right. split; [exact Hf|]. by exists name, path, s, k.
Qed.

(** The value [main] computes from what it left in [g_sink]. *)
Lemma main_saves m f :
  saves m f →
  saves (result ← m; _ ← sink_add result; sink_status)
    (λ v, let s := wrapping_add (f v).2 (f v).1 in (if s =? 0 then 1 else 0, s)).
Proof.
  intros Hm. apply (saves_bind m f (λ result, _ ← sink_add result; sink_status)
    (λ r v, (if wrapping_add v r =? 0 then 1 else 0, wrapping_add v r))); [exact Hm|done].
Qed.

Lemma template_recursion_saves : saves_or_aborts template_recursion_main.
Proof. eapply with_path_saves; [apply main_saves, template_chain_saves|]. by vm_compute. Qed.

Lemma virtual_dispatch_saves : saves_or_aborts virtual_dispatch_main.
Proof. eapply with_path_saves; [apply main_saves, visit_saves|]. by vm_compute. Qed.
End one_snapshot.

(** ** A sort compares neighbours

    If a sort never compared two elements that are next to each other in the order,
    it could not know which comes first: exchanging them answers all its
    comparisons alike. *)
Section neighbours.
Context (n : nat) (lt : nat → nat → bool) (x y : nat).
Context (Hswo : strict_weak_order n lt) (Hx : (x < n)%nat) (Hy : (y < n)%nat).
Context (Hlt : lt x y = true).
Context (Hnext : ∀ z, (z < n)%nat → z ≠ x → z ≠ y → lt x z = lt y z ∧ lt z x = lt z y).

Definition exchange (a : nat) : nat := if Nat.eqb a x then y else if Nat.eqb a y then x else a.
Definition lt_exchanged (a b : nat) : bool := lt (exchange a) (exchange b).

Lemma exchange_lt a : (a < n)%nat → (exchange a < n)%nat.
Proof. unfold exchange. intros. by repeat case_match. Qed.

Lemma exchanged_swo : strict_weak_order n lt_exchanged.
Proof.
  destruct Hswo as [Hi Ht Hn].
  split; unfold lt_exchanged; intros; eauto using exchange_lt.
Qed.

Lemma exchanged_agrees a b :
  (a < n)%nat → (b < n)%nat → Nat.eqb a x && Nat.eqb b y = false → Nat.eqb a y && Nat.eqb b x = false →
  lt_exchanged a b = lt a b.
Proof.
  destruct Hswo as [Hi _ _]. unfold lt_exchanged, exchange. intros Ha Hb H1 H2.
  destruct (Nat.eqb_spec a x), (Nat.eqb_spec b x), (Nat.eqb_spec b y), (Nat.eqb_spec a y);
    subst; try done;
    rewrite ?Hi by done; try done.
  all: first [destruct (Hnext b); [done..|congruence]|destruct (Hnext a); [done..|congruence]].
Qed.

Lemma same_result t :
  in_range n t → compares lt x y t = false → sort_result lt_exchanged t = sort_result lt t.
Proof.
  induction t as [order|i j k IH]; [done|]. cbn. intros (Hi & Hj & Hk) Hc.
  apply orb_false_iff in Hc as [Hc Hc3]. apply orb_false_iff in Hc as [Hc1 Hc2].
  rewrite exchanged_agrees by done. by apply IH.
Qed.
End neighbours.

Lemma sorted_both {A} (R S : A → A → Prop) l a b :
  StronglySorted R l → StronglySorted S l → a ∈ l → b ∈ l → a ≠ b → (R a b ∧ S a b) ∨ (R b a ∧ S b a).
Proof.
  induction l as [|c l IH]; intros HR HS Ha Hb Hab; [by apply elem_of_nil in Ha|].
  apply StronglySorted_inv in HR as [HR HRc], HS as [HS HSc]. rewrite Forall_forall in HRc, HSc.
  rewrite elem_of_cons in Ha, Hb. destruct Ha as [->|Ha], Hb as [->|Hb]; auto. done.
Qed.

Lemma sort_compares_neighbours `{Hs : StdSort} `{!StdSortLaws Hs} n lt x y :
  strict_weak_order n lt → (x < n)%nat → (y < n)%nat → lt x y = true →
  (∀ z, (z < n)%nat → z ≠ x → z ≠ y → lt x z = lt y z ∧ lt z x = lt z y) →
  compares lt x y (std_sort n) = true.
Proof.
  intros Hswo Hx Hy Hlt Hnext. destruct (compares lt x y (std_sort n)) eqn:Hc; [done|]. exfalso.
  assert (x ≠ y) as Hxy by (intros ->; by rewrite (swo_irrefl _ _ Hswo) in Hlt).
  pose proof (exchanged_swo n lt x y Hswo Hx Hy) as Hswo'.
  pose proof (std_sort_sorts n _ Hswo') as Hsorted.
  rewrite (same_result n lt x y Hswo Hx Hy Hlt Hnext) in Hsorted by (done || apply std_sort_range).
  assert (∀ z, (z < n)%nat → z ∈ sort_result lt (std_sort n)) as Hin.
  { intros z Hz. rewrite (std_sort_permutes n _ Hswo). apply elem_of_seq. lia. }
  destruct (sorted_both _ _ _ x y (std_sort_sorts n _ Hswo) Hsorted (Hin x Hx) (Hin y Hy) Hxy)
    as [[_ Ho]|[Ho _]]; [|congruence].
  unfold lt_exchanged, exchange in Ho. rewrite !Nat.eqb_refl in Ho.
  by destruct (Nat.eqb_spec y x); congruence.
Qed.

(** ** The sorting program *)

(** The order of the records: their keys are distinct. *)
Definition key_of (i : nat) : Z := (Z.of_nat i * 37) mod 101.
Definition index_less (i j : nat) : bool := key_of i <? key_of j.

Lemma index_less_swo n : strict_weak_order n index_less.
Proof. split; unfold index_less; intros; lia. Qed.

Lemma records_lookup i : (i < 96)%nat → records !! i = Some (make_record (Z.of_nat i)).
Proof. intros Hi. unfold records. rewrite list_lookup_fmap, lookup_seqZ_lt by lia. by rewrite Z.add_0_l. Qed.

(** The comparisons of two records, checked on all pairs. *)
Lemma record_less_index i j :
  (i < 96)%nat → (j < 96)%nat →
  record_less (make_record (Z.of_nat i)) (make_record (Z.of_nat j)) = index_less i j.
Proof.
  intros Hi Hj.
  assert (forallb (λ i, forallb (λ j, Bool.eqb
    (record_less (make_record (Z.of_nat i)) (make_record (Z.of_nat j))) (index_less i j))
    (seq 0 96)) (seq 0 96) = true) as Hall by (by vm_compute).
  rewrite forallb_forall in Hall. specialize (Hall i). rewrite forallb_forall in Hall.
  apply eqb_prop, Hall; apply in_seq; lia.
Qed.

(** The smallest two keys are 0 and 1, of the records 0 and 71. *)
Lemma neighbours_0_71 z :
  (z < 96)%nat → z ≠ 0%nat → z ≠ 71%nat →
  index_less 0 z = index_less 71 z ∧ index_less z 0 = index_less z 71.
Proof.
  intros Hz H0 H1.
  assert (forallb (λ z, Nat.eqb z 0 || Nat.eqb z 71 ||
    (Bool.eqb (index_less 0 z) (index_less 71 z) && Bool.eqb (index_less z 0) (index_less z 71)))
    (seq 0 96) = true) as Hall by (by vm_compute).
  rewrite forallb_forall in Hall. specialize (Hall z ltac:(apply in_seq; lia)).
  destruct (Nat.eqb_spec z 0), (Nat.eqb_spec z 71); try done.
  apply andb_true_iff in Hall as [?%eqb_prop ?%eqb_prop]. done.
Qed.

Section stl.
Context `{Hh : Host} `{!HostLaws Hh} `{Hs : StdSort} `{!StdSortLaws Hs}.
Local Abbreviation CM := (SM Proc Stop).

(** The records in the order of a finished sort. *)
Definition in_order (order : list nat) : list CppRecord := (make_record ∘ Z.of_nat) <$> order.

Lemma in_order_lookup order :
  Forall (λ i, (i < 96)%nat) order → mapM (records !!.) order = Some (in_order order).
Proof.
  intros Hf. apply mapM_Some. unfold in_order. rewrite Forall2_fmap_r.
  apply Forall_Forall2_diag. eapply Forall_impl; [exact Hf|]. intros i Hi. by apply records_lookup.
Qed.

(** A comparison with a snapshot taken already. *)
Lemma comparator_captured l r p :
  g_captured p = true → comparator l r p = (Ok (record_less l r), p).
Proof. intros Hp. unfold comparator, mbind, sm_bind, sm_get. by rewrite Hp. Qed.

Lemma run_sort_captured t p :
  g_captured p = true → in_range 96 t → Forall (λ i, (i < 96)%nat) (sort_result index_less t) →
  run_sort records t p = (Ok (in_order (sort_result index_less t)), p).
Proof.
  intros Hp. induction t as [order|i j k IH]; cbn [run_sort sort_result in_range].
  - intros _ Hf. unfold sm_lift. by rewrite in_order_lookup.
  - intros (Hi & Hj & Hk) Hf. rewrite !records_lookup by done. unfold mbind, sm_bind.
    rewrite comparator_captured, record_less_index by done. by apply IH.
Qed.

(** Comparing the records 0 and 71 takes the snapshot, if nothing did before. *)
Lemma run_sort_saves t p path :
  g_snapshot_path p = Some path → g_captured p = false → in_range 96 t → Forall (λ i, (i < 96)%nat) (sort_result index_less t) →
  compares index_less 0 71 t = true →
  ∃ c, run_sort records t p =
       (_ ← libunwinder_take_snapshot c; mret (in_order (sort_result index_less t))) (set_captured p).
Proof.
  intros Hpath Hp. induction t as [order|i j k IH]; cbn [run_sort sort_result in_range compares]; [done|].
  intros (Hi & Hj & Hk) Hf Hc. rewrite !records_lookup by done. unfold mbind, sm_bind.
  unfold comparator at 1, mbind at 1, sm_bind at 1, sm_get. rewrite Hp. cbn [negb andb].
  destruct (keys_differ_in_parity _ _) eqn:Hpar.
  - set (c := as_u64 (r_key (make_record (Z.of_nat i)) + r_key (make_record (Z.of_nat j)))).
    exists c. unfold mbind, sm_bind, sm_modify.
    pose proof (take_snapshot_spec c (set_captured p) path Hpath) as Ht.
    destruct (libunwinder_take_snapshot c (set_captured p)) as [[[]|[]| | |] p']; try done.
    destruct Ht as (s & _ & _ & ->). cbn. rewrite record_less_index by done. by apply run_sort_captured.
  - cbn. rewrite record_less_index by done. apply IH; [done..|].
    destruct (Nat.eqb_spec i 0), (Nat.eqb_spec i 71), (Nat.eqb_spec j 0), (Nat.eqb_spec j 71); subst; done.
Qed.

Lemma stl_sort_saves : saves_or_aborts stl_sort_main.
Proof.
  assert (in_range 96 (std_sort 96)) as Hr by apply std_sort_range.
  assert (Forall (λ i, (i < 96)%nat) (sort_result index_less (std_sort 96))) as Hf.
  { rewrite std_sort_permutes by apply index_less_swo. apply Forall_forall. intros i Hi%elem_of_seq. lia. }
  assert (compares index_less 0 71 (std_sort 96) = true) as Hc.
  { apply sort_compares_neighbours; [apply index_less_swo|lia|lia|done|apply neighbours_0_71]. }
  assert (sort_result index_less (std_sort 96) ≠ []) as Hne.
  { intros He. pose proof (std_sort_permutes 96 _ (index_less_swo 96)) as Hp. rewrite He in Hp.
    by apply Permutation_nil_l in Hp. }
  intros argv. unfold stl_sort_main. destruct argv as [|name [|path [|x argv]]]; try (by left).
  cbn [with_path]. unfold mbind, sm_bind, sm_modify, sm_lift, sm_get.
  change (length records) with 96%nat.
  destruct (run_sort_saves (std_sort 96) (set_path path proc_init) path eq_refl eq_refl Hr Hf Hc) as [c ->].
  unfold mbind, sm_bind.
  pose proof (take_snapshot_spec c (set_captured (set_path path proc_init)) path eq_refl) as Ht.
  destruct (libunwinder_take_snapshot c _) as [[[]|[]| | |] p']; try done.
  destruct Ht as (s & Hs' & Hok & ->). unfold mret, sm_ret.
  destruct (sort_result index_less (std_sort 96)) as [|i order]; [done|]. cbn.
  right. split; [done|]. by eexists name, path, s, _.
Qed.
End stl.

(** ** Properties *)

(** C38: the three programs do what the benchmark needs: on every machine and with
    every correct [std::sort], a program started with one argument either aborts or
    exits with 0 after writing exactly one file there, cut off at most at its end,
    that holds the registers and the stack of the call that wrote it, made with the
    path set and nothing accumulated or written before; started
    otherwise it exits with 2 and writes nothing. In particular the sorting
    program always compares two records of different parity, and the exit status 1
    of a program that took no snapshot never occurs. *)
Theorem programs_save_one_snapshot (Hh : Host) `{!HostLaws Hh} (Hs : StdSort) `{!StdSortLaws Hs} :
  Forall saves_or_aborts [template_recursion_main; stl_sort_main; virtual_dispatch_main].
Proof.
  repeat constructor; [apply template_recursion_saves|apply stl_sort_saves|apply virtual_dispatch_saves].
Qed.

(** C39: what the benchmark unwinds is the stack of the program: on every machine,
    a snapshot that is saved and read back either is rejected, and then its file
    was cut short when it was closed, or has the registers as the call read them, and
    the stack reader made from it returns exactly the memory of the program, as it
    was when the stack was written, between the aligned stack pointer and the end of
    the stack, and nothing elsewhere. *)
Theorem snapshot_shows_the_stack (Hh : Host) `{!HostLaws Hh} `{Profile} {io_error object_error : Type}
    (p : Proc) (path : string) (checksum : Z) :
  g_snapshot_path p = Some path →
  match libunwinder_take_snapshot checksum p with
  | (Ok _, p') =>
      g_sink p' = Z.lxor (g_sink p) checksum ∧
      ∃ whole bytes, files p' = (files p ++ [(path, bytes)])%list ∧
        bytes = take (fclose_flushes p whole) whole ∧
        (len bytes ≤ isize_max →
         match Snapshot_of_bytes (io_error:=io_error) (object_error:=object_error) path bytes with
         | Ok s =>
             snap_ip s = reg_ip (machine p) ∧ snap_sp s = align_down (reg_sp (machine p)) ∧
             snap_bp s = reg_bp (machine p) ∧
             ∃ attr addr size,
               pthread_getattr_np p = Some attr ∧ pthread_attr_getstack attr = Some (addr, size) ∧
               ∀ a, is_u64 a →
                 snap_read_stack s a =
                 if (snap_sp s <=? a) && (a + 8 <=? wrapping_add addr size)
                 then memory_word (machine p) a else None
         | Err _ => (fclose_flushes p whole < length whole)%nat
         | _ => False
         end)
  | (Err Aborted, _) => True
  | _ => False
  end.
Proof.
  intros Hpath. pose proof (take_snapshot_spec checksum p path Hpath) as Hs.
  destruct (libunwinder_take_snapshot checksum p) as [[[]|[]| | |] p']; try done.
  destruct Hs as (s & Hs & Hok & ->). split; [done|].
  exists (snapshot_image s). eexists. split; [done|]. split; [done|]. intros Hmax.
  pose proof (cut_image_read (io_error:=io_error) (object_error:=object_error) path s
    (fclose_flushes p (snapshot_image s)) Hok (saved_stack_u64 p s Hs) Hmax) as Hr. cbv zeta in Hr.
  destruct (Nat.leb_spec (length (snapshot_image s)) (fclose_flushes p (snapshot_image s))) as [Hle|Hgt];
    [|by destruct Hr as [e ->]].
  rewrite Hr. pose proof Hs as (attr & addr & size & Ha & Hst & Hlt & Hip & Hsp & Hbp & Hstart & Hl).
  split_and!; [done..|]. exists attr, addr, size. split; [done|]. split; [done|]. intros a Hau.
  pose proof (image_len s []) as Hlen. rewrite app_nil_r in Hlen. change (len []) with 0 in Hlen.
  rewrite take_ge in Hmax by done. rewrite (saved_read_stack p s a) by (done || lia). rewrite Hsp, Hstart.
  replace (align_down (reg_sp (machine p)) + len (stack s)) with (wrapping_add addr size); [done|].
  unfold len. rewrite (load_bytes_length _ _ _ _ Hl). lia.
Qed.

(** *** Witnesses: a small stack, and insertion sort *)
#[local] Instance demo_host : Host := {|
  machine := λ _, mkMachine 0x401234 0x7ffd 0x8010
    (λ a, if (0x7ff8 <=? a) && (a <? 0x8020) then Some (a mod 256) else None);
  pthread_attr := ();
  pthread_getattr_np := λ _, Some ();
  pthread_attr_getstack := λ _, Some (0x7000, 0x1020);
  fopen_ok := λ _ _, true;
  fwrite_accepts := λ _ _ data, length data;
  fclose_flushes := λ _ accepted, length accepted;
|}.

#[local] Instance demo_host_laws : HostLaws demo_host.
Proof.
  split; [intros p; split_and!; by_compute|]. intros p attr addr size a _ [= <- <-].
  change (align_down _) with 0x7ff8. change (wrapping_add _ _) with 0x8020. intros Ha. cbn.
  exists (a mod 256). rewrite (proj2 (Z.leb_le _ _)), (proj2 (Z.ltb_lt _ _)) by lia.
  split; [done|]. by apply Z.mod_pos_bound.
Qed.

Fixpoint insert_tree (x : nat) (before after : list nat) (k : list nat → SortTree) : SortTree :=
  match after with
  | [] => k (before ++ [x])%list
  | y :: after' =>
      SortCompare x y (λ b, if b then k (before ++ x :: after)%list
                            else insert_tree x (before ++ [y]) after' k)
  end.
Fixpoint insertion_tree (xs sorted : list nat) : SortTree :=
  match xs with
  | [] => SortDone sorted
  | x :: xs' => insert_tree x [] sorted (insertion_tree xs')
  end.
#[local] Instance insertion_sort : StdSort := λ n, insertion_tree (seq 0 n) [].

Fixpoint insert_by (lt : nat → nat → bool) (x : nat) (l : list nat) : list nat :=
  match l with
  | [] => [x]
  | y :: l' => if lt x y then x :: l else y :: insert_by lt x l'
  end.

Lemma insert_tree_result lt x before after k :
  sort_result lt (insert_tree x before after k) = sort_result lt (k (before ++ insert_by lt x after)%list).
Proof.
  revert before. induction after as [|y after IH]; intros before; [done|]. cbn.
  destruct (lt x y); [done|]. rewrite IH. by rewrite <- (assoc_L (++)).
Qed.

Lemma insert_by_perm lt x l : insert_by lt x l ≡ₚ x :: l.
Proof.
  induction l as [|y l IH]; [done|]. cbn. destruct (lt x y); [done|]. rewrite IH. constructor.
Qed.

Lemma insert_by_sorted n lt x l :
  strict_weak_order n lt → Forall (λ i, (i < n)%nat) (x :: l) →
  StronglySorted (λ a b, lt b a = false) l → StronglySorted (λ a b, lt b a = false) (insert_by lt x l).
Proof.
  intros Hswo Hf Hs. pose proof Hswo as [Hi Ht Hn]. apply Forall_cons in Hf as [Hx Hf].
  induction Hs as [|y l Hs IH Hy]; [by repeat constructor|]. apply Forall_cons in Hf as [Hyn Hf].
  cbn. rewrite Forall_forall in Hy, Hf. destruct (lt x y) eqn:Hxy.
  - assert (lt y x = false) as Hyx.
    { destruct (lt y x) eqn:Hyx; [|done]. specialize (Ht x y x Hx Hyn Hx Hxy Hyx). by rewrite Hi in Ht. }
    constructor; [by constructor; [|rewrite Forall_forall]|]. constructor; [done|].
    rewrite Forall_forall. intros z Hz. eapply Hn; [by apply Hf|exact Hyn|done|by apply Hy|done].
  - constructor; [by apply IH; rewrite ?Forall_forall|]. rewrite insert_by_perm.
    constructor; [done|]. by rewrite Forall_forall.
Qed.

Lemma insertion_tree_result n lt xs sorted :
  strict_weak_order n lt → Forall (λ i, (i < n)%nat) (xs ++ sorted) →
  StronglySorted (λ a b, lt b a = false) sorted →
  let r := sort_result lt (insertion_tree xs sorted) in
  r ≡ₚ (xs ++ sorted)%list ∧ StronglySorted (λ a b, lt b a = false) r.
Proof.
  intros Hswo. revert sorted. induction xs as [|x xs IH]; intros sorted Hf Hs; cbn [insertion_tree]; [done|].
  cbv zeta. rewrite insert_tree_result. cbn [app].
  assert (x :: (xs ++ sorted) ≡ₚ xs ++ insert_by lt x sorted)%list as Hp.
  { rewrite insert_by_perm. apply Permutation_middle. }
  destruct (IH (insert_by lt x sorted)) as [Hr1 Hr2].
  - by rewrite <- Hp.
  - eapply insert_by_sorted; [done| |done]. cbn [app] in Hf. rewrite Forall_cons, Forall_app in Hf.
    constructor; tauto.
  - split; [|done]. by rewrite Hr1, <- Hp.
Qed.

Lemma insertion_tree_range n xs sorted :
  Forall (λ i, (i < n)%nat) (xs ++ sorted) → in_range n (insertion_tree xs sorted).
Proof.
  revert sorted. induction xs as [|x xs IH]; intros sorted Hf; [done|]. cbn [insertion_tree].
  cbn [app] in Hf. apply Forall_cons in Hf as [Hx Hf]. apply Forall_app in Hf as [Hxs Hs].
  assert (∀ before after, Forall (λ i, (i < n)%nat) (before ++ after) →
    in_range n (insert_tree x before after (insertion_tree xs))) as Hgen; [|by apply Hgen].
  intros before after. revert before. induction after as [|y after IHa]; intros before Hba; cbn.
  - apply IH. rewrite app_nil_r in Hba. rewrite !Forall_app. by repeat constructor.
  - pose proof Hba as [Hb [Hy Ha]%Forall_cons]%Forall_app. split_and!; [done..|]. intros [].
    + apply IH. rewrite !Forall_app. repeat constructor; done.
    + apply IHa. by rewrite <- (assoc_L (++)).
Qed.

#[local] Instance insertion_sort_laws : StdSortLaws insertion_sort.
Proof.
  assert (∀ n, Forall (λ i, (i < n)%nat) (seq 0 n ++ [])) as Hf.
  { intros n. rewrite app_nil_r. apply Forall_forall. intros i Hi%elem_of_seq. lia. }
  split; unfold std_sort, insertion_sort.
  - intros n. by apply insertion_tree_range.
  - intros n lt Hlt. rewrite <- (app_nil_r (seq 0 n)) at 2.
    by apply (insertion_tree_result n lt (seq 0 n) [] Hlt (Hf n)); constructor.
  - intros n lt Hlt. by apply (insertion_tree_result n lt (seq 0 n) [] Hlt (Hf n)); constructor.
Qed.

Definition demo_run : outcome Stop Z * Proc := stl_sort_main ["stl-sort-comparator"; "stack"] proc_init.

Lemma programs_save_one_snapshot_witness :
  saves_or_aborts stl_sort_main ∧ demo_run.1 = Ok 0 ∧ fst <$> files demo_run.2 = ["stack"].
Proof.
  split; [|by vm_compute].
  exact (proj1 (Forall_cons_1 _ _ _ (proj2 (Forall_cons_1 _ _ _
    (programs_save_one_snapshot demo_host insertion_sort))))).
Defined.

Lemma snapshot_shows_the_stack_witness :
  let bytes := default [] (snd <$> head (files demo_run.2)) in
  (if Snapshot_of_bytes (H:=true) (io_error:=Empty_set) (object_error:=Empty_set) "stack" bytes is Ok s
   then snap_read_stack s 0x8000 else None) = memory_word (machine proc_init) 0x8000 ∧
  if libunwinder_take_snapshot 1 (set_path "stack" proc_init) is (Ok _, p') then g_sink p' = 1 else False.
Proof.
  split; [by vm_compute|].
  pose proof (snapshot_shows_the_stack demo_host (H:=true) (io_error:=Empty_set) (object_error:=Empty_set)
    (set_path "stack" proc_init) "stack" 1 eq_refl) as Hs.
  assert (if libunwinder_take_snapshot 1 (set_path "stack" proc_init) is (Ok _, _) then true else false) as Hok
    by (by vm_compute).
  destruct (libunwinder_take_snapshot 1 (set_path "stack" proc_init)) as [[[]|[]| | |] p'];
    [exact (proj1 Hs)|destruct Hok..].
Defined.
