(* ===== verification/Report.v ===== *)
(** * [src/examples/cpp_unwind_bench.rs]: timings and the printed table

    [f64] is the binary64 format of the Standard Library's [SpecFloat]; a number is
    printed with a fixed number of decimals, correctly rounded, ties to even. *)

From Stdlib Require Import Ascii String SpecFloat.
From stdpp Require Import strings.
From S2P Require Import Prelude.
From S2P Require Import Messages.
From S2P Require Import Process.
Local Open Scope string_scope.
Local Open Scope Z_scope.

(** ** [f64] *)
Abbreviation f64 := spec_float.

(** [as f64] of an unsigned integer: rounded to nearest. *)
Definition as_f64 (z : Z) : f64 := binary_normalize 53 1024 z 0 false.
Definition f64_div (x y : f64) : f64 := SFdiv 53 1024 x y.

(** ** [{:.d}] *)

(** The integer nearest to [num / den], ties to even. *)
Definition round_half_even (num den : Z) : Z :=
  let q := num / den in
  let r := num mod den in
  if 2 * r <? den then q
  else if den <? 2 * r then q + 1
  else if Z.even q then q else q + 1.

(** [m * 2^e] in units of the last decimal. *)
Definition scaled (d : nat) (m e : Z) : Z :=
  round_half_even (m * 2 ^ Z.max e 0 * 10 ^ Z.of_nat d) (2 ^ Z.max (- e) 0).

(** [d] decimals, in front of [rest]. *)
Fixpoint decimals (d : nat) (r : Z) (rest : string) : string :=
  match d with
  | O => rest
  | S d' => decimals d' (r / 10) (String (digit (r mod 10)) rest)
  end.
Definition fixed (d : nat) (q : Z) : string :=
  dec (q / 10 ^ Z.of_nat d) +:+
  match d with O => "" | S _ => "." +:+ decimals d (q mod 10 ^ Z.of_nat d) "" end.

Definition sign (s : bool) : string := if s then "-" else "".
Definition fmt_f64 (d : nat) (x : f64) : string :=
  match x with
  | S754_nan => "NaN"
  | S754_infinity s => sign s +:+ "inf"
  | S754_zero s => sign s +:+ fixed d 0
  | S754_finite s m e => sign s +:+ fixed d (scaled d (Z.pos m) e)
  end.

(** ** The report *)
Record Timing : Type := mkTiming {
  t_ns_per_unwind : f64;
  t_ns_per_frame : f64;
  t_frames_per_second : f64;
}.

Record BenchResult : Type := mkBenchResult {
  br_workload : string;
  br_frames : Z;
  br_iterations : Z;
  br_ns_per_unwind : f64;
  br_ns_per_frame : f64;
  br_frames_per_second : f64;
}.

(** The last lines of [time_unwind]. *)
Definition timing_of (elapsed iterations frames : Z) : Timing :=
  let ns_per_unwind := f64_div (as_f64 elapsed) (as_f64 iterations) in
  let ns_per_frame := f64_div ns_per_unwind (as_f64 frames) in
  let frames_per_second := f64_div (as_f64 1000000000) ns_per_frame in
  mkTiming ns_per_unwind ns_per_frame frames_per_second.

Definition newline : string := String (ascii_of_nat 10) "".
Definition markdown_row (result : BenchResult) : string :=
  "| " +:+ br_workload result +:+ " | " +:+ dec (br_frames result) +:+ " | " +:+
  dec (br_iterations result) +:+ " | " +:+ fmt_f64 2 (br_ns_per_unwind result) +:+ " | " +:+
  fmt_f64 2 (br_ns_per_frame result) +:+ " | " +:+ fmt_f64 0 (br_frames_per_second result) +:+ " |".
Definition markdown_head (cxx : string) (iterations : Z) : list string :=
  ["Generated with `" +:+ cxx +:+ "` and " +:+ dec iterations +:+
     " measured full-stack unwinds per workload." +:+ newline;
   "| workload | in-module frames | iterations | ns/full unwind | ns/frame | frames/s |";
   "| --- | ---: | ---: | ---: | ---: | ---: |"].

Section print.
Context {E : Type}.
Local Abbreviation PM := (SM (list Event) E).

Fixpoint println_all (lines : list string) : PM () :=
  match lines with
  | [] => mret ()
  | line :: lines' => _ ← println line; println_all lines'
  end.
Definition print_markdown (cxx : string) (iterations : Z) (results : list BenchResult) : PM () :=
  _ ← println_all (markdown_head cxx iterations);
  println_all (markdown_row <$> results).

Lemma println_all_eq lines tr : println_all lines tr = (Ok (), (tr ++ (Printed <$> lines))%list).
Proof.
  revert tr. induction lines as [|l lines IH]; intros tr; [by rewrite app_nil_r|].
  cbn [println_all fmap list_fmap]. unfold mbind, sm_bind. rewrite println_eq, IH.
  by rewrite <- (assoc_L (++)).
Qed.

Lemma print_markdown_eq cxx iterations results tr :
  print_markdown cxx iterations results tr =
  (Ok (), (tr ++ (Printed <$> (markdown_head cxx iterations ++ (markdown_row <$> results))))%list).
Proof.
  unfold print_markdown, mbind, sm_bind. rewrite !println_all_eq.
  by rewrite fmap_app, (assoc_L (++)).
Qed.
End print.

(** ** What is printed is the number *)

Lemma round_half_even_near num den :
  0 < den → Z.abs (2 * (round_half_even num den * den - num)) ≤ den.
Proof.
  intros Hd. unfold round_half_even. pose proof (Z.div_mod num den). pose proof (Z.mod_pos_bound num den).
  destruct (Z.ltb_spec (2 * (num mod den)) den), (Z.ltb_spec den (2 * (num mod den))),
    (Z.even (num / den)); nia.
Qed.

Lemma round_half_even_nonneg num den : 0 ≤ num → 0 < den → 0 ≤ round_half_even num den.
Proof.
  intros Hn Hd. pose proof (Z.div_pos num den Hn Hd). unfold round_half_even. repeat case_match; lia.
Qed.

(** A decimal number is read back, without its point. *)
Definition read_fixed (s : string) : Z :=
  let '(a, rest) := read_num 10 0 s in
  match rest with String "."%char s' => fst (read_num 10 a s') | _ => a end.

Lemma read_decimals d r a rest :
  0 ≤ r < 10 ^ Z.of_nat d →
  read_num 10 a (decimals d r rest) = read_num 10 (a * 10 ^ Z.of_nat d + r) rest.
Proof.
  revert r rest. induction d as [|d IH]; intros r rest Hr.
  { cbn [decimals]. f_equal. change (10 ^ Z.of_nat 0) with 1 in *. lia. }
  cbn [decimals]. rewrite Nat2Z.inj_succ, Z.pow_succ_r in Hr |- * by lia.
  pose proof (Z.mod_pos_bound r 10). pose proof (Z.div_mod r 10).
  rewrite IH by (split; [apply Z.div_pos; lia|apply Z.div_lt_upper_bound; lia]).
  cbn [read_num]. rewrite undigit_digit by lia. f_equal. lia.
Qed.

(** Every number below [10^64] is read back, so are all the numbers of the report. *)
Lemma read_dec z rest :
  0 ≤ z < 10 ^ 64 → stops 10 rest = true → read_num 10 0 (dec z +:+ rest) = (z, rest).
Proof.
  intros Hz Hr. unfold dec, show. rewrite show_go_app.
  destruct (read_show_go 10 ltac:(lia) 64 z 0 rest) as [k ->]; [exact Hz|].
  by rewrite Z.mul_0_l, read_num_stops.
Qed.

Lemma read_fixed_fixed d q : 0 ≤ q < 10 ^ 64 → read_fixed (fixed d q) = q.
Proof.
  intros Hq. unfold fixed, read_fixed.
  pose proof (Z.pow_pos_nonneg 10 (Z.of_nat d) ltac:(lia) ltac:(lia)) as Hp.
  pose proof (Z.div_mod q (10 ^ Z.of_nat d)). pose proof (Z.mod_pos_bound q (10 ^ Z.of_nat d)).
  assert (0 ≤ q / 10 ^ Z.of_nat d < 10 ^ 64) as Hi.
  { assert (0 < 10 ^ 64) as HN by (by apply Z.pow_pos_nonneg). revert Hq HN. generalize (10 ^ 64).
    intros N Hq HN. split; [apply Z.div_pos; lia|]. apply Z.div_lt_upper_bound; [lia|nia]. }
  destruct d as [|d].
  - rewrite read_dec by done. change (10 ^ Z.of_nat 0) with 1. by rewrite Z.div_1_r.
  - rewrite read_dec by done.
    change ("." +:+ decimals (S d) ?r "") with (String "."%char (decimals (S d) r "")).
    cbv iota. rewrite read_decimals by lia. cbn [read_num fst]. lia.
Qed.

(** The text of a finite number is the nearest decimal: twice the difference is at
    most one unit of its last digit. *)
Lemma fmt_f64_nearest d m e :
  let num := Z.pos m * 2 ^ Z.max e 0 * 10 ^ Z.of_nat d in
  let den := 2 ^ Z.max (- e) 0 in
  scaled d (Z.pos m) e < 10 ^ 64 →
  Z.abs (2 * (read_fixed (fmt_f64 d (S754_finite false m e)) * den - num)) ≤ den.
Proof.
  cbv zeta. intros Hs. change (fmt_f64 d (S754_finite false m e)) with (fixed d (scaled d (Z.pos m) e)).
  assert (0 < 2 ^ Z.max (- e) 0) as Hden by (apply Z.pow_pos_nonneg; lia).
  rewrite read_fixed_fixed.
  - by apply round_half_even_near.
  - split; [|done]. apply round_half_even_nonneg; [|done].
    pose proof (Z.pow_pos_nonneg 2 (Z.max e 0)). pose proof (Z.pow_pos_nonneg 10 (Z.of_nat d)). nia.
Qed.
