(* ===== verification/Benchmark.v ===== *)
(** * [src/examples/cpp_unwind_bench.rs]: the benchmark driver

    [main] and the steps it runs for each workload, up to the table it prints.  The
    measured durations and the C++ texts are parameters; what the texts do is in
    [CppPrograms]. *)

From Stdlib Require Import Ascii String.
From stdpp Require Import strings.
From S2P Require Import Prelude.
From S2P Require Import Modules.
From S2P Require Import Messages.
From S2P Require Import Ffi.
From S2P Require Import AddressSpace.
From S2P Require Import Frames.
From S2P Require Import Process.
From S2P Require Import Snapshot.
From S2P Require Import CppPrograms.
From S2P Require Import Report.
Local Open Scope string_scope.
Local Open Scope Z_scope.

Record Workload : Type := mkWorkload {
  w_name : string;
  w_source_name : string;
  w_body : string;
}.

(** [name.replace(' ', "-").to_ascii_lowercase()]. *)
Definition to_ascii_lowercase (c : ascii) : ascii :=
  let n := nat_of_ascii c in if ((65 <=? n) && (n <=? 90))%nat then ascii_of_nat (n + 32) else c.
Fixpoint binary_name (name : string) : string :=
  match name with
  | EmptyString => ""
  | String c name' =>
      String (to_ascii_lowercase (if Ascii.eqb c " "%char then "-"%char else c)) (binary_name name')
  end.

(** [str::parse::<u64>]: decimal digits after an optional plus sign. *)
Definition parse_u64 (s : string) : option Z :=
  let digits := match s with String "+"%char s' => s' | _ => s end in
  match digits with
  | EmptyString => None
  | _ =>
      let '(v, rest) := read_num 10 0 digits in
      if String.eqb rest "" && (v <=? u64_max) then Some v else None
  end.

(** A count written in decimal is read back. *)
Lemma parse_u64_dec n : is_u64 n → parse_u64 (dec n) = Some n.
Proof.
  intros Hn. pose proof (read_show 10 ltac:(lia) n "" Hn eq_refl) as Hr.
  pose proof (dec_first n "" Hn) as Hd. rewrite string_app_nil in Hr, Hd.
  change (show 10 n) with (dec n) in Hr.
  assert (parse_u64 (dec n) =
    let '(v, rest) := read_num 10 0 (dec n) in
    if String.eqb rest "" && (v <=? u64_max) then Some v else None) as ->.
  { destruct (dec n) as [|c s]; [done|]. unfold parse_u64.
    by destruct c as [[] [] [] [] [] [] [] []]. }
  rewrite Hr. cbn [String.eqb andb]. unfold is_u in Hn. unfold u64_max.
  destruct (Z.leb_spec n (2 ^ 64 - 1)); [done|lia].
Qed.

Section bench.
Context `{Profile} `{LibunwindApi} `{System} {object_error : Type}.
Local Abbreviation BE := (BoxError sys_io_error object_error).
Local Abbreviation PM := (SM (list Event) BE).
(** The history and the state of the library. *)
Local Abbreviation BM := (SM (list Event * Env ()) BE).

Context (cargo_manifest_dir SNAPSHOT_SUPPORT TEMPLATE_RECURSION STL_SORT VIRTUAL_DISPATCH : string).
Context (File : Type) (open : string → sys_io_error + File)
        (map_file : File → sys_io_error + list Z)
        (object_parse : list Z → object_error + ObjectFile)
        (segments : ObjectFile → list ObjSegment).
(** [start.elapsed().as_nanos()], when the measured unwinds are done. *)
Context (elapsed_nanos : list Event * Env () → Z).

Definition in_process {A} (m : PM A) : BM A := λ '(tr, env),
  let '(r, tr') := m tr in (r, (tr', env)).
Definition in_library {A} (m : SM (Env ()) BE A) : BM A := λ '(tr, env),
  let '(r, env') := m env in (r, (tr, env')).

Definition compile_args (source binary : string) : list string :=
  ["-std=c++20"; "-O2"; "-g"; "-fomit-frame-pointer"; "-fno-pie"; "-no-pie";
   "-fasynchronous-unwind-tables"; "-fno-optimize-sibling-calls"; "-pthread";
   source; "-o"; binary].

Definition compile_workload (root cxx : string) (workload : Workload) : PM string :=
  let source := join root (w_source_name workload) in
  let binary := join root (binary_name (w_name workload)) in
  written ← write_file source (SNAPSHOT_SUPPORT +:+ w_body workload);
  _ ← sm_lift (box_io written);
  status ← run_status (mkCommand cxx (compile_args source binary) None);
  status ← sm_lift (box_io status);
  if status_success status then mret binary
  else sm_err (BoxStr ("failed to compile " +:+ w_source_name workload)).

Definition run_workload (binary snapshot_path : string) : PM () :=
  status ← run_status (mkCommand binary [snapshot_path] None);
  status ← sm_lift (box_io status);
  if status_success status then mret ()
  else sm_err (BoxStr (binary +:+ " exited with " +:+ status_display status)).

(** [Snapshot::read]. *)
Definition Snapshot_read (path : string) : PM Snapshot :=
  bytes ← read_file path;
  bytes ← sm_lift (box_io bytes);
  sm_lift (Snapshot_of_bytes path bytes).

Definition load_module_bench (binary : string) : SM (Env ()) BE LoadedModule := λ env,
  match load_module File open map_file object_parse segments binary (env_heap env) with
  | Ok (module, h) => (Ok module, mkEnv (env_read env) h (env_static env))
  | Err e => (Err e, env)
  | Panic => (Panic, env)
  | UB => (UB, env)
  | NoFuel => (NoFuel, env)
  end.

(** [time_unwind], with its clock. *)
Definition measure_timing (module : LoadedModule) (snapshot : Snapshot) (frames iterations : Z)
    : BM Timing :=
  _ ← in_library (time_unwind module snapshot iterations);
  st ← sm_get;
  mret (timing_of (elapsed_nanos st) iterations frames).

(** One iteration of the loop of [main]. *)
Definition measure_workload (root cxx : string) (iterations : Z) (workload : Workload)
    : BM BenchResult :=
  binary ← in_process (compile_workload root cxx workload);
  let snapshot_path := join root (binary_name (w_name workload) +:+ ".snapshot") in
  _ ← in_process (run_workload binary snapshot_path);
  snapshot ← in_process (Snapshot_read snapshot_path);
  module ← in_library (load_module_bench binary);
  frames ← in_library (unwind_stack module snapshot);
  timing ← measure_timing module snapshot frames iterations;
  mret (mkBenchResult (w_name workload) frames iterations (t_ns_per_unwind timing)
          (t_ns_per_frame timing) (t_frames_per_second timing)).

Fixpoint measure_all (root cxx : string) (iterations : Z) (workloads : list Workload)
    : BM (list BenchResult) :=
  match workloads with
  | [] => mret []
  | workload :: workloads' =>
      result ← measure_workload root cxx iterations workload;
      results ← measure_all root cxx iterations workloads';
      mret (result :: results)
  end.

Definition bench_workloads : list Workload :=
  [mkWorkload "template recursion" "template_recursion.cc" TEMPLATE_RECURSION;
   mkWorkload "STL sort comparator" "stl_sort.cc" STL_SORT;
   mkWorkload "virtual dispatch" "virtual_dispatch.cc" VIRTUAL_DISPATCH].

Definition bench_root : string := join (join cargo_manifest_dir "target") "cpp-unwind-bench".
Definition bench_cxx : string := default "c++" (env_var "CXX").
Definition bench_iterations : Z :=
  default DEFAULT_ITERS (env_var "LIBUNWINDER_CPP_BENCH_ITERS" ≫= parse_u64).

(** [main]. *)
Definition bench_main : BM () :=
  created ← in_process (create_dir_all bench_root);
  _ ← in_process (sm_lift (box_io created));
  results ← measure_all bench_root bench_cxx bench_iterations bench_workloads;
  in_process (print_markdown bench_cxx bench_iterations results).

(** ** What a run does *)

(** The files written and commands run for a workload. *)
Definition workload_events (root cxx : string) (workload : Workload) : list Event :=
  let source := join root (w_source_name workload) in
  let binary := join root (binary_name (w_name workload)) in
  [Wrote source (SNAPSHOT_SUPPORT +:+ w_body workload);
   Ran (mkCommand cxx (compile_args source binary) None) true;
   Ran (mkCommand binary [join root (binary_name (w_name workload) +:+ ".snapshot")] None) true].

(** [m] succeeds only after doing exactly [evs]; otherwise it did a part of them,
    possibly with a failing last command. *)
Definition does {A} (m : PM A) (evs : list Event) (Q : A → Prop) : Prop :=
  ∀ tr, match m tr with
        | (Ok a, tr') => tr' = (tr ++ evs)%list ∧ Q a
        | (Err _, _) => True
        | (Panic, _) | (UB, _) | (NoFuel, _) => False
        end.

Lemma does_ret {A} (a : A) (Q : A → Prop) : Q a → does (mret a) [] Q.
Proof. intros Ha tr. by rewrite app_nil_r. Qed.

(** A command or file operation whose errors are passed on. *)
Lemma does_run {A} c (f : exit_status → PM A) evs Q :
  (∀ status, status_success status = true → does (f status) evs Q) →
  (∀ status, status_success status = false → ∃ e, f status = sm_err e) →
  does (status ← run_status c; status ← sm_lift (box_io status); f status) (Ran c true :: evs) Q.
Proof.
  intros Hf He tr. unfold run_status, record_event, mbind, sm_bind, sm_get, sm_modify, sm_lift.
  destruct (sys_status tr c) as [e|status]; cbn [box_io]; [done|].
  unfold mret, sm_ret. cbn.
  destruct (status_success status) eqn:Hs; [|by destruct (He status Hs) as [e ->]].
  specialize (Hf status Hs (tr ++ [Ran c true])%list).
  destruct (f status _) as [[a|e| | |] tr']; try done. destruct Hf as [-> ?].
  by rewrite <- (assoc_L (++)).
Qed.

Lemma does_write {A} path contents (m : PM A) evs Q :
  does m evs Q →
  does (written ← write_file path contents; _ ← sm_lift (box_io written); m)
    (Wrote path contents :: evs) Q.
Proof.
  intros Hm tr. unfold write_file, record_event, mbind, sm_bind, sm_get, sm_modify, sm_lift.
  destruct (sys_write tr path contents) as [e|[]]; [done|]. unfold mret, sm_ret. cbn.
  specialize (Hm (tr ++ [Wrote path contents])%list).
  destruct (m _) as [[a|e| | |] tr']; try done. destruct Hm as [-> ?].
  by rewrite <- (assoc_L (++)).
Qed.

Lemma compile_workload_does root cxx w :
  does (compile_workload root cxx w) (take 2 (workload_events root cxx w))
    (λ b, b = join root (binary_name (w_name w))).
Proof.
  apply does_write, does_run; intros status ->; [by apply does_ret|by eexists].
Qed.

Lemma run_workload_does binary path :
  does (run_workload binary path) [Ran (mkCommand binary [path] None) true] (λ _, True).
Proof. apply does_run; intros status ->; [by apply does_ret|by eexists]. Qed.

(** The same for the steps of [main], from a given history and state of the library;
    only successful runs matter. *)
Definition yields {A} (st : list Event * Env ()) (m : BM A) (evs : list Event)
    (Q : A → list Event → Env () → Prop) : Prop :=
  match m st with
  | (Ok a, (tr', env')) => tr' = (st.1 ++ evs)%list ∧ Q a tr' env'
  | _ => True
  end.

Lemma yields_bind {A B} tr env (m : BM A) (f : A → BM B) evs evs' P Q :
  yields (tr, env) m evs P →
  (∀ a env', P a (tr ++ evs)%list env' → yields ((tr ++ evs)%list, env') (f a) evs' Q) →
  yields (tr, env) (m ≫= f) (evs ++ evs') Q.
Proof.
  unfold yields, mbind, sm_bind. intros Hm Hf.
  destruct (m (tr, env)) as [[a|e| | |] [tr' env']]; try done. destruct Hm as [-> Ha].
  specialize (Hf a env' Ha). cbn [fst] in *.
  destruct (f a _) as [[b|e| | |] [tr' env'']]; try done. destruct Hf as [-> ?].
  by rewrite (assoc_L (++)).
Qed.

(** A step that leaves the history alone. *)
Lemma yields_then {A B} tr env (m : BM A) (f : A → BM B) evs P Q :
  yields (tr, env) m [] P → (∀ a env', P a tr env' → yields (tr, env') (f a) evs Q) →
  yields (tr, env) (m ≫= f) evs Q.
Proof.
  intros Hm Hf. apply (yields_bind tr env m f [] evs P Q Hm). by rewrite app_nil_r.
Qed.

Lemma yields_ret {A} tr env (a : A) (Q : A → list Event → Env () → Prop) :
  Q a tr env → yields (tr, env) (mret a) [] Q.
Proof. intros Ha. unfold yields. cbn. by rewrite app_nil_r. Qed.

(** The library is not touched by the commands, nor the history by the library. *)
Lemma yields_process {A} tr env (m : PM A) evs Q :
  does m evs Q → yields (tr, env) (in_process m) evs (λ a _ env', Q a ∧ env' = env).
Proof.
  intros Hm. specialize (Hm tr). unfold yields. cbn.
  destruct (m tr) as [[a|e| | |] tr']; try done. by destruct Hm.
Qed.

Lemma yields_library {A} tr env (m : SM (Env ()) BE A) :
  yields (tr, env) (in_library m) [] (λ a _ env', m env = (Ok a, env')).
Proof.
  unfold yields. cbn. destruct (m env) as [[a|e| | |] env'] eqn:Hm; try done.
  by rewrite app_nil_r.
Qed.

Lemma yields_read tr env path :
  yields (tr, env) (in_process (Snapshot_read path)) []
    (λ s tr env', env' = env ∧ ∃ bytes, sys_read tr path = inr bytes ∧
       Snapshot_of_bytes (io_error:=sys_io_error) (object_error:=object_error) path bytes = Ok s).
Proof.
  unfold yields, in_process, Snapshot_read, read_file, mbind, sm_bind, sm_get, sm_lift.
  unfold mret, sm_ret. cbn. destruct (sys_read tr path) as [e|bytes] eqn:Hr; [done|]. cbn [box_io].
  destruct (Snapshot_of_bytes path bytes) eqn:Hs; try done. rewrite app_nil_r. eauto.
Qed.

(** A result comes from reading the snapshot that was in the file after the program
    had run, loading the program as a module, unwinding the one with the other, and
    unwinding again for the duration that is measured; the state of the library goes
    from [env] to [env']. *)
Definition measured (root : string) (iterations : Z) (w : Workload) (r : BenchResult)
    (tr : list Event) (env env' : Env ()) : Prop :=
  let binary := join root (binary_name (w_name w)) in
  let path := join root (binary_name (w_name w) +:+ ".snapshot") in
  1 ≤ br_frames r ≤ 256 ∧
  ∃ bytes snapshot module env1 env2,
    sys_read tr path = inr bytes ∧
    Snapshot_of_bytes (io_error:=sys_io_error) (object_error:=object_error) path bytes = Ok snapshot ∧
    load_module_bench binary env = (Ok module, env1) ∧
    unwind_stack (io_error:=sys_io_error) (object_error:=object_error) module snapshot env1
      = (Ok (br_frames r), env2) ∧
    time_unwind (io_error:=sys_io_error) (object_error:=object_error) module snapshot iterations env2
      = (Ok (), env') ∧
    let t := timing_of (elapsed_nanos (tr, env')) iterations (br_frames r) in
    r = mkBenchResult (w_name w) (br_frames r) iterations (t_ns_per_unwind t) (t_ns_per_frame t)
          (t_frames_per_second t).

Lemma measure_timing_yields tr env module snapshot frames iterations :
  yields (tr, env) (measure_timing module snapshot frames iterations) []
    (λ t _ env',
       time_unwind (io_error:=sys_io_error) (object_error:=object_error) module snapshot iterations env
         = (Ok (), env') ∧
       t = timing_of (elapsed_nanos (tr, env')) iterations frames).
Proof.
  eapply yields_then; [apply yields_library|]. intros [] env' Ht. unfold yields. cbn. by rewrite app_nil_r.
Qed.

Lemma measure_workload_yields tr env root cxx iterations w :
  yields (tr, env) (measure_workload root cxx iterations w) (workload_events root cxx w)
    (λ r tr, measured root iterations w r tr env).
Proof.
  change (workload_events root cxx w) with
    (take 2 (workload_events root cxx w) ++ drop 2 (workload_events root cxx w))%list.
  eapply yields_bind; [apply yields_process, compile_workload_does|]. intros binary ? [-> ->]. cbv zeta.
  rewrite <- (app_nil_r (drop 2 _)).
  eapply yields_bind; [apply yields_process, run_workload_does|]. intros _ ? [_ ->].
  eapply yields_then; [apply yields_read|]. intros snapshot ? (-> & bytes & Hread & Hs).
  eapply yields_then; [apply yields_library|]. intros module env1 Hload.
  eapply yields_then; [apply yields_library|]. intros frames env2 Hu.
  eapply yields_then; [apply measure_timing_yields|]. intros t env3 [Ht ->].
  apply yields_ret. split.
  - pose proof (unwind_stack_bound (io_error:=sys_io_error) (object_error:=object_error) module snapshot env1) as Hb.
    by rewrite Hu in Hb.
  - by exists bytes, snapshot, module, env1, env2.
Qed.

(** The workloads are measured one after the other: [envs] are the states of the
    library before the first and after each. *)
Definition all_measured (root cxx : string) (iterations : Z) (ws : list Workload)
    (results : list BenchResult) (tr : list Event) (envs : list (Env ())) : Prop :=
  length results = length ws ∧ length envs = S (length ws) ∧
  ∀ i w r env env', ws !! i = Some w → results !! i = Some r →
    envs !! i = Some env → envs !! S i = Some env' →
    measured root iterations w r
      (tr ++ mjoin (workload_events root cxx <$> take (S i) ws)) env env'.

Lemma measure_all_yields tr env root cxx iterations ws :
  yields (tr, env) (measure_all root cxx iterations ws) (mjoin (workload_events root cxx <$> ws))
    (λ results _ env', ∃ envs, head envs = Some env ∧ last envs = Some env' ∧
       all_measured root cxx iterations ws results tr envs).
Proof.
  revert tr env. induction ws as [|w ws IH]; intros tr env.
  { apply yields_ret. exists [env]. split_and!; [done..|]. by split_and!. }
  cbn [measure_all fmap list_fmap mjoin list_join].
  eapply yields_bind; [apply measure_workload_yields|]. intros r env1 Hr.
  rewrite <- (app_nil_r (mjoin _)). eapply yields_bind; [apply IH|].
  intros results env' (envs & Hh & Hlast & Hl & Hle & Hrs). destruct envs as [|env0 envs]; [done|].
  injection Hh as ->. apply yields_ret. exists (env :: env1 :: envs).
  split_and!; [done|by rewrite last_cons, Hlast|]. split_and!; [by cbn; rewrite Hl|by cbn in *; rewrite Hle|].
  intros [|i] w' r' e e' Hw Hr' He He'.
  - injection Hw as <-. injection Hr' as <-. injection He as <-. injection He' as <-.
    cbn [take fmap list_fmap mjoin list_join]. by rewrite app_nil_r.
  - cbn [take fmap list_fmap mjoin list_join]. rewrite (assoc_L (++)). by apply (Hrs i).
Qed.
End bench.

(** All of [main]. *)
Lemma bench_main_spec `{Profile} `{LibunwindApi} `{System} {object_error File : Type}
    (dir support t1 t2 t3 : string) (open : string → sys_io_error + File)
    (map_file : File → sys_io_error + list Z) (object_parse : list Z → object_error + ObjectFile)
    (segments : ObjectFile → list ObjSegment) (elapsed_nanos : list Event * Env () → Z)
    (tr : list Event) (env : Env ()) :
  let root := bench_root dir in
  let workloads := bench_workloads t1 t2 t3 in
  let events := mjoin (workload_events support root bench_cxx <$> workloads) in
  match bench_main dir support t1 t2 t3 File open map_file object_parse segments elapsed_nanos
          (tr, env) with
  | (Ok _, (tr', env')) =>
      ∃ results envs,
        tr' = (tr ++ CreatedDirs root :: events ++
               (Printed <$> (markdown_head bench_cxx bench_iterations ++ (markdown_row <$> results))))%list ∧
        head envs = Some env ∧ last envs = Some env' ∧
        all_measured (object_error:=object_error) support File open map_file object_parse segments
          elapsed_nanos root bench_cxx bench_iterations workloads results
          (tr ++ [CreatedDirs root])%list envs
  | _ => True
  end.
Proof.
  cbv zeta. unfold bench_main, mbind, sm_bind. unfold in_process at 1, create_dir_all.
  unfold mbind, sm_bind, sm_get, record_event, sm_modify, mret, sm_ret.
  destruct (sys_create_dir_all tr _) as [e|[]]; [done|].
  cbn -[measure_all bench_workloads mjoin print_markdown markdown_head].
  pose proof (measure_all_yields support File open map_file object_parse segments elapsed_nanos
    (tr ++ [CreatedDirs (bench_root dir)])%list env (bench_root dir)
    bench_cxx bench_iterations (bench_workloads t1 t2 t3)) as Hm. unfold yields in Hm.
  destruct (measure_all _ _ _ _ _ _ _ _ _ _ _ _) as [[results|e| | |] [tr' env']]; try done.
  destruct Hm as [-> (envs & Hh & Hl & Hm)]. unfold in_process. rewrite print_markdown_eq.
  exists results, envs. split_and!; [|done..]. cbn [fst]. by rewrite <- !(assoc_L (++)).
Qed.

(** ** Properties *)

(** C40: the benchmark measures and prints what it says: on every system, when
    [main] succeeds it created its directory, wrote, compiled and ran each of the
    three workloads, in order and successfully, before anything else happened to
    the next, and then printed a table with one row per workload, in order; the
    number of frames of a row, 1 to 256, is what unwinding the snapshot gives that
    its program left in the file, with the program as the module, loaded just
    before; its times derive from the duration measured while it was unwound again,
    the configured iterations and those frames; and each workload is measured with
    the library as the one before left it. *)
Theorem bench_main_measures `{Profile} `{LibunwindApi} `{System} {object_error File : Type}
    (dir support t1 t2 t3 : string) (open : string → sys_io_error + File)
    (map_file : File → sys_io_error + list Z) (object_parse : list Z → object_error + ObjectFile)
    (segments : ObjectFile → list ObjSegment) (elapsed_nanos : list Event * Env () → Z)
    (tr : list Event) (env : Env ()) :
  let root := bench_root dir in
  let workloads := bench_workloads t1 t2 t3 in
  let events := mjoin (workload_events support root bench_cxx <$> workloads) in
  match bench_main dir support t1 t2 t3 File open map_file object_parse segments elapsed_nanos
          (tr, env) with
  | (Ok _, (tr', env')) =>
      ∃ results envs,
        tr' = (tr ++ CreatedDirs root :: events ++
               (Printed <$> (markdown_head bench_cxx bench_iterations ++ (markdown_row <$> results))))%list ∧
        head envs = Some env ∧ last envs = Some env' ∧
        all_measured (object_error:=object_error) support File open map_file object_parse segments
          elapsed_nanos root bench_cxx bench_iterations workloads results
          (tr ++ [CreatedDirs root])%list envs
  | _ => True
  end.
Proof. apply bench_main_spec. Qed.

(** *** Witness: a machine on which every command works and the saved stack is the
    one of [Snapshot] *)
#[local] Instance bench_profile : Profile := true.
#[local] Instance bench_libunwind : LibunwindApi :=
  toy_libunwind x86_64_regs.UNW_X86_64_RIP x86_64_regs.UNW_X86_64_RSP x86_64_regs.UNW_X86_64_RBP.
#[local] Instance bench_system : System := {|
  sys_io_error := Empty_set;
  sys_io_display := λ e, match e with end;
  sys_io_debug := λ e, match e with end;
  exit_status := bool;
  status_success := id;
  status_display := λ b, if b : bool then "exit status: 0" else "exit status: 1";
  env_var := λ v, if String.eqb v "LIBUNWINDER_CPP_BENCH_ITERS" then Some "2" else None;
  sys_is_file := λ _ _, true;
  sys_exists := λ _ _, true;
  sys_create_dir_all := λ _ _, inr ();
  sys_write := λ _ _ _, inr ();
  sys_read := λ _ _, inr (snapshot_image demo_snapshot);
  sys_status := λ _ _, inr true;
|}.

Definition demo_bench : outcome (BoxError Empty_set Empty_set) () * (list Event * Env ()) :=
  bench_main "/crate" "support" "t1" "t2" "t3" () (λ _, inr ()) (λ _, inr demo_program)
    (λ _, inr demo_program_object) (λ _, demo_segments) (λ '(tr, _), 1000 * len tr)
    ([], mkEnv () heap_init None).

(** The rows of the report, after ten events and three lines. *)
Definition demo_rows : list string :=
  ["| template recursion | 1 | 2 | 2000.00 | 2000.00 | 500000 |";
   "| STL sort comparator | 1 | 2 | 3500.00 | 3500.00 | 285714 |";
   "| virtual dispatch | 1 | 2 | 5000.00 | 5000.00 | 200000 |"].

Lemma bench_main_measures_witness :
  match demo_bench with
  | (Ok _, (tr', _)) =>
      drop 13 tr' = Printed <$> demo_rows ∧
      ∃ results, length results = 3%nat ∧ drop 13 tr' = Printed <$> (markdown_row <$> results)
  | _ => False
  end.
Proof.
  pose proof (bench_main_measures (object_error:=Empty_set) "/crate" "support" "t1" "t2" "t3" (λ _, inr ())
    (λ _, inr demo_program) (λ _, inr demo_program_object) (λ _, demo_segments)
    (λ '(tr, _), 1000 * len tr) [] (mkEnv () heap_init None)) as Hm.
  fold demo_bench in Hm.
  assert (drop 13 demo_bench.2.1 = Printed <$> demo_rows) as Hrows by (by vm_compute).
  assert (if demo_bench.1 is Ok _ then true else false) as Hok by (by vm_compute).
  destruct demo_bench as [[[]|e| | |] [tr' env']]; [|destruct Hok..].
  destruct Hm as (results & envs & Htr & _ & _ & Hl & _). split; [exact Hrows|].
  exists results. split; [exact Hl|]. rewrite Htr. reflexivity.
Defined.
