(* ===== verification/BenchmarkRun.v ===== *)
(** * The benchmark with the programs it runs

    [Benchmark] leaves open what the commands it runs do; [CppPrograms] says what
    the three programs do.  On a system that compiles and runs them, a row of the
    report counts frames of the stack of a running program. *)

From Stdlib Require Import Ascii String.
From stdpp Require Import strings.
From S2P Require Import Prelude.
From S2P Require Import Modules.
From S2P Require Import Messages.
From S2P Require Import Ffi.
From S2P Require Import AddressSpace.
From S2P Require Import Frames.
From S2P Require Import Process.
From S2P Require Import Snapshot.
From S2P Require Import CppPrograms.
From S2P Require Import Report.
From S2P Require Import Benchmark.
Local Open Scope string_scope.
Local Open Scope Z_scope.

(** A compiled program, on any machine and with any [std::sort]. *)
Definition Program : Type := Host → StdSort → list string → SM Proc Stop Z.

(** The programs of the workloads, in the order of [bench_workloads]. *)
Definition programs : list Program :=
  [(λ Hh _, template_recursion_main); (λ Hh _, stl_sort_main); (λ Hh _, virtual_dispatch_main)].

Definition file_contents (p : Proc) (path : string) : option (list Z) :=
  snd <$> last (filter (λ f, f.1 = path) (files p)).

(** The system compiles the workloads and runs their programs: once a workload was
    written, compiled and run with success, its snapshot file holds what a run of
    its program wrote that exited with 0.  And a file that is read fits a [Vec]. *)
Record runs_programs `{System} (support cxx : string) (ws : list Workload) : Prop := {
  program_wrote tr root i w main bytes :
    ws !! i = Some w → programs !! i = Some main →
    let binary := join root (binary_name (w_name w)) in
    let path := join root (binary_name (w_name w) +:+ ".snapshot") in
    sys_read (tr ++ workload_events support root cxx w) path = inr bytes →
    ∃ (Hh : Host) (Hs : StdSort) p, HostLaws Hh ∧ StdSortLaws Hs ∧
      main Hh Hs [binary; path] proc_init = (Ok 0, p) ∧ file_contents p path = Some bytes;
  read_fits tr path bytes : sys_read tr path = inr bytes → len bytes ≤ isize_max;
}.

Lemma file_contents_one p path b : files p = [(path, b)] → file_contents p path = Some b.
Proof. intros Hf. unfold file_contents. rewrite Hf, filter_cons_True by done. done. Qed.

(** Every program of the benchmark saves its state. *)
Lemma programs_save i main Hh Hs :
  HostLaws Hh → StdSortLaws Hs → programs !! i = Some main → saves_or_aborts (main Hh Hs).
Proof.
  intros HH HS Hi. destruct i as [|[|[|i]]]; [..|done]; injection Hi as <-.
  - apply template_recursion_saves.
  - apply stl_sort_saves.
  - apply virtual_dispatch_saves.
Qed.

(** What the file of a finished program decodes to: the state in which that run took
    its snapshot. *)
Lemma program_snapshot `{Profile} {io_error object_error : Type} i main Hh Hs name path p bytes s :
  HostLaws Hh → StdSortLaws Hs → programs !! i = Some main →
  main Hh Hs [name; path] proc_init = (Ok 0, p) → file_contents p path = Some bytes →
  len bytes ≤ isize_max →
  Snapshot_of_bytes (io_error:=io_error) (object_error:=object_error) path bytes = Ok s →
  saved_state (at_snapshot path p) s ∧ snapshot_ok s ∧ len (stack s) ≤ isize_max.
Proof.
  intros HH HS Hi Hrun Hfile Hlen Hs1. pose proof (programs_save i main Hh Hs HH HS Hi [name; path]) as Hm.
  rewrite Hrun in Hm. destruct Hm as [(? & _)|(_ & name' & path' & s' & k & [= <- <-] & Hsv & Hok & Hf)];
    [done|].
  rewrite (file_contents_one _ _ _ Hf) in Hfile. injection Hfile as <-.
  pose proof (cut_image_read (io_error:=io_error) (object_error:=object_error) path s' k Hok
    (saved_stack_u64 _ s' Hsv) Hlen) as Hr. cbv zeta in Hr. rewrite Hs1 in Hr.
  destruct (Nat.leb_spec (length (snapshot_image s')) k) as [Hk|]; [|by destruct Hr].
  injection Hr as ->. split_and!; [done..|].
  rewrite take_ge in Hlen by done. pose proof (image_len s' []) as Hi'.
  rewrite app_nil_r in Hi'. change (len []) with 0 in Hi'. lia.
Qed.

(** [s] is what a run of the program [main] saved: the run wrote the file [bytes]
    that decodes to [s], and [s] has the registers the run had when it took its
    snapshot, and a reader that returns exactly the words its memory had then from
    the aligned stack pointer to the end of its stack. *)
Definition snapshot_of_run `{Profile} (io_error object_error : Type) (main : Program)
    (binary path : string) (bytes : list Z) (s : Snapshot) : Prop :=
  ∃ (Hh : Host) (Hs : StdSort) p,
    HostLaws Hh ∧ StdSortLaws Hs ∧ main Hh Hs [binary; path] proc_init = (Ok 0, p) ∧
    file_contents p path = Some bytes ∧
    Snapshot_of_bytes (io_error:=io_error) (object_error:=object_error) path bytes = Ok s ∧
    let m := machine (at_snapshot path p) in
    snap_ip s = reg_ip m ∧ snap_sp s = align_down (reg_sp m) ∧ snap_bp s = reg_bp m ∧
    ∃ attr addr size,
      pthread_getattr_np (at_snapshot path p) = Some attr ∧
      pthread_attr_getstack attr = Some (addr, size) ∧
      ∀ a, is_u64 a →
        snap_read_stack s a =
        if (snap_sp s <=? a) && (a + 8 <=? wrapping_add addr size) then memory_word m a else None.

Lemma program_snapshot_of_run `{Profile} {io_error object_error : Type} i main Hh Hs binary path p bytes s :
  HostLaws Hh → StdSortLaws Hs → programs !! i = Some main →
  main Hh Hs [binary; path] proc_init = (Ok 0, p) → file_contents p path = Some bytes →
  len bytes ≤ isize_max →
  Snapshot_of_bytes (io_error:=io_error) (object_error:=object_error) path bytes = Ok s →
  snapshot_of_run io_error object_error main binary path bytes s.
Proof.
  intros HH HS Hi Hrun Hfile Hlen Hd.
  destruct (program_snapshot i main Hh Hs _ _ p bytes s HH HS Hi Hrun Hfile Hlen Hd) as (Hsv & Hok & Hst).
  exists Hh, Hs, p. split_and!; [done..|].
  pose proof Hsv as (attr & addr & size & Hattr & Hget & Hlt & Hip & Hsp & Hbp & Hstart & Hl).
  cbv zeta. split_and!; [done..|]. exists attr, addr, size. split_and!; [done..|]. intros a Ha.
  rewrite (saved_read_stack _ s a Hsv Hok Hst Ha). rewrite Hsp, Hstart.
  replace (align_down _ + len (stack s)) with (wrapping_add addr size); [done|].
  unfold len. rewrite (load_bytes_length _ _ _ _ Hl). lia.
Qed.

Section rows.
Context `{Profile} `{LibunwindApi} `{System} {object_error File : Type}.
Context (open : string → sys_io_error + File) (map_file : File → sys_io_error + list Z)
        (object_parse : list Z → object_error + ObjectFile) (segments : ObjectFile → list ObjSegment).

(** The frames of a row: the file at [path] held, after [tr], the snapshot of a run
    of [main]; the program was loaded as a module with the library in state [env],
    and unwinding that snapshot with that module next gives the number of the row. *)
Definition unwinds_program (main : Program) (root : string) (w : Workload) (r : BenchResult)
    (tr : list Event) (env : Env ()) : Prop :=
  let binary := join root (binary_name (w_name w)) in
  let path := join root (binary_name (w_name w) +:+ ".snapshot") in
  ∃ bytes s module env1 env2,
    sys_read tr path = inr bytes ∧
    snapshot_of_run sys_io_error object_error main binary path bytes s ∧
    load_module_bench File open map_file object_parse segments binary env = (Ok module, env1) ∧
    unwind_stack (io_error:=sys_io_error) (object_error:=object_error) module s env1
      = (Ok (br_frames r), env2).

Lemma measured_unwinds elapsed_nanos support cxx ws tr root i main w iterations r env env' :
  runs_programs support cxx ws → ws !! i = Some w → programs !! i = Some main →
  let tr' := (tr ++ workload_events support root cxx w)%list in
  measured (object_error:=object_error) File open map_file object_parse segments elapsed_nanos
    root iterations w r tr' env env' →
  unwinds_program main root w r tr' env.
Proof.
  intros [Hrun Hfits] Hw Hmain tr'
    (_ & (bytes & s & module & env1 & env2 & Hread & Hs & Hload & Hu & _)).
  destruct (Hrun tr root i w main bytes Hw Hmain Hread) as (Hh & Hsort & p & HH & HS & Hp & Hfile).
  exists bytes, s, module, env1, env2. split_and!; [exact Hread| |exact Hload|exact Hu].
  exact (program_snapshot_of_run i main Hh Hsort _ _ p bytes s HH HS Hmain Hp Hfile (Hfits _ _ _ Hread) Hs).
Qed.
End rows.

(** The history up to a workload ends with that workload. *)
Lemma events_take support root cxx ws i w :
  ws !! i = Some w →
  mjoin (workload_events support root cxx <$> take (S i) ws) =
  (mjoin (workload_events support root cxx <$> take i ws) ++ workload_events support root cxx w)%list.
Proof.
  intros Hw. rewrite (take_S_r _ _ _ Hw), fmap_app, join_app. cbn -[workload_events]. by rewrite app_nil_r.
Qed.

(** ** Property *)

(** C37: the rows of the report are about the stacks of the programs: on a system
    that compiles and runs the three programs, when [main] succeeds it prints a row
    per workload, and the number of frames of the [i]-th is what unwinding gives for
    the file that its program left behind: the registers that a run of the [i]-th
    program had when it took its snapshot, and a reader that returns exactly the
    words of the memory of that run, from its aligned stack pointer to the end of
    its stack, with that program loaded as the module just before. *)
Theorem bench_unwinds_program_stacks `{Profile} `{LibunwindApi} `{System} {object_error File : Type}
    (dir support t1 t2 t3 : string) (open : string → sys_io_error + File)
    (map_file : File → sys_io_error + list Z) (object_parse : list Z → object_error + ObjectFile)
    (segments : ObjectFile → list ObjSegment) (elapsed_nanos : list Event * Env () → Z)
    (tr : list Event) (env : Env ()) :
  let root := bench_root dir in
  let workloads := bench_workloads t1 t2 t3 in
  let history i := (tr ++ CreatedDirs root ::
    mjoin (workload_events support root bench_cxx <$> take i workloads))%list in
  runs_programs support bench_cxx workloads →
  match bench_main dir support t1 t2 t3 File open map_file object_parse segments elapsed_nanos
          (tr, env) with
  | (Ok _, (tr', env')) =>
      ∃ results envs,
        tr' = (history 3%nat ++
               (Printed <$> (markdown_head bench_cxx bench_iterations ++ (markdown_row <$> results))))%list ∧
        length results = 3%nat ∧ length envs = 4%nat ∧ head envs = Some env ∧ last envs = Some env' ∧
        ∀ i w main r before,
          workloads !! i = Some w → programs !! i = Some main → results !! i = Some r →
          envs !! i = Some before →
          br_workload r = w_name w ∧
          unwinds_program (object_error:=object_error) open map_file object_parse segments
            main root w r (history (S i)) before
  | _ => True
  end.
Proof.
  cbv zeta. intros Hrun.
  pose proof (bench_main_spec (object_error:=object_error) dir support t1 t2 t3 open map_file object_parse
    segments elapsed_nanos tr env) as Hm. cbv zeta in Hm.
  destruct (bench_main _ _ _ _ _ _ _ _ _ _ _ _) as [[[]|e| | |] [tr' env']]; try done.
  destruct Hm as (results & envs & -> & Hh & Hlast & Hl & Hle & Hmeas). exists results, envs.
  split_and!; [|done..|].
  { rewrite (take_ge _ 3) by done. by rewrite <- (assoc_L (++)). }
  intros i w main r before Hw Hmain Hr Hb.
  destruct (lookup_lt_is_Some_2 envs (S i)) as [after Ha].
  { apply lookup_lt_Some in Hw. rewrite Hle. lia. }
  specialize (Hmeas i w r before after Hw Hr Hb Ha). rewrite (events_take _ _ _ _ i w Hw) in *.
  split; [by destruct Hmeas as (_ & ? & ? & ? & ? & ? & _ & _ & _ & _ & _ & ->)|].
  rewrite (assoc_L (++)), <- (assoc_L (++) tr) in Hmeas. rewrite app_comm_cons, (assoc_L (++)).
  eapply measured_unwinds; [exact Hrun|exact Hw|exact Hmain|exact Hmeas].
Qed.

(** *** Witness: a machine that runs the programs on the small stack of [CppPrograms] *)
Definition run_image : list Z := default [] (snd <$> head (files demo_run.2)).

#[local] Instance run_system : System := {|
  sys_io_error := Empty_set;
  sys_io_display := λ e, match e with end;
  sys_io_debug := λ e, match e with end;
  exit_status := bool;
  status_success := id;
  status_display := λ b, if b : bool then "exit status: 0" else "exit status: 1";
  env_var := λ v, if String.eqb v "LIBUNWINDER_CPP_BENCH_ITERS" then Some "1" else None;
  sys_is_file := λ _ _, true;
  sys_exists := λ _ _, true;
  sys_create_dir_all := λ _ _, inr ();
  sys_write := λ _ _ _, inr ();
  sys_read := λ _ _, inr run_image;
  sys_status := λ _ _, inr true;
|}.

Lemma run_system_read tr path bytes : sys_read tr path = inr bytes → bytes = run_image.
Proof. intros Hr. symmetry. exact (inj inr run_image bytes Hr). Qed.

Lemma run_system_runs support cxx ws : runs_programs support cxx ws.
Proof.
  split.
  - intros tr root i w main bytes _ Hi binary path ->%run_system_read.
    exists demo_host, insertion_sort. clearbody binary path.
    destruct i as [|[|[|i]]]; [..|done]; injection Hi as <-;
      (eexists; split; [exact demo_host_laws|split; [exact insertion_sort_laws|split; [vm_compute; reflexivity|]]];
       apply file_contents_one; vm_compute; reflexivity).
  - intros tr path bytes ->%run_system_read. vm_compute. discriminate.
Qed.

Lemma bench_unwinds_program_stacks_witness :
  match bench_main (object_error:=Empty_set) (H:=bench_profile) (H0:=bench_libunwind)
          "/crate" "support" "t1" "t2" "t3" () (λ _, inr ()) (λ _, inr demo_program)
          (λ _, inr demo_program_object) (λ _, demo_segments) (λ '(tr, _), 1000 * len tr)
          ([], mkEnv () heap_init None) with
  | (Ok _, (tr', _)) => ∃ results r before,
      drop 13 tr' = Printed <$> (markdown_row <$> results) ∧ results !! 1%nat = Some r ∧
      unwinds_program (object_error:=Empty_set) (H:=bench_profile) (H0:=bench_libunwind)
        (λ _, inr ()) (λ _, inr demo_program) (λ _, inr demo_program_object) (λ _, demo_segments)
        (λ _ _, stl_sort_main) (bench_root "/crate")
        (mkWorkload "STL sort comparator" "stl_sort.cc" "t2") r (take 7 tr') before
  | _ => False
  end.
Proof.
  pose proof (bench_unwinds_program_stacks (object_error:=Empty_set) (H:=bench_profile) (H0:=bench_libunwind)
    "/crate" "support" "t1" "t2" "t3" (λ _, inr ()) (λ _, inr demo_program)
    (λ _, inr demo_program_object) (λ _, demo_segments) (λ '(tr, _), 1000 * len tr)
    [] (mkEnv () heap_init None) (run_system_runs _ _ _)) as Hm.
  match goal with |- match ?b with _ => _ end =>
    assert (if b.1 is Ok _ then true else false) as Hok by (by vm_compute);
    destruct b as [[[]|e| | |] [tr' env']]; [|destruct Hok..] end.
  destruct Hm as (results & envs & -> & Hl & Hle & _ & _ & Hm).
  destruct (lookup_lt_is_Some_2 results 1) as [r Hr]; [by rewrite Hl; lia|].
  destruct (lookup_lt_is_Some_2 envs 1) as [before Hb]; [by rewrite Hle; lia|].
  exists results, r, before. split_and!; [reflexivity|exact Hr|].
  exact (proj2 (Hm 1%nat _ _ r before eq_refl eq_refl Hr Hb)).
Defined.
