(* ===== verification/InTreeTests.v ===== *)
(** * The repository's own tests, run on the model

    Every test of [src/src/callbacks.rs], [src/src/dwarf.rs],
    [src/src/module.rs], [src/tests/fallback.rs], [src/tests/smoke.rs] and
    [src/tests/api_compat.rs] as a computation that panics when an assertion
    fails, and the proof by evaluation that it passes: in debug and release
    builds, and whatever libunwind is linked.  The tests of
    [src/tests/linux_fixtures.rs] need binary files and libunwind's DWARF
    interpreter. *)

From stdpp Require Import gmap.
From S2P Require Import Prelude.
From S2P Require Import BTree.
From S2P Require Import EhFrameTable.
From S2P Require Import Ffi.
From S2P Require Import Errors.
From S2P Require Import FrameAddress.
From S2P Require Import Dwarf.
From S2P Require Import Modules.
From S2P Require Import ModuleSet.
From S2P Require Import Callbacks.
From S2P Require Import AddressSpace.
From S2P Require Import Frames.
From S2P Require Import X86_64.
From S2P Require Import Aarch64.
From S2P Require Import Iterator.

(** ** Tests

    A test returns or panics. *)
Abbreviation Test := (outcome Empty_set).

(** [assert_eq!] and [assert!]. *)
Definition assert_eq {A} `{EqDecision A} (a b : A) : Test () :=
  if decide (a = b) then Ok () else Panic.
Definition assert (b : bool) : Test () := assert_eq b true.

(** [Option::unwrap]; [Result::unwrap] and [expect]; [unwrap_err], which is also
    [err().unwrap()] and the [match] with a [panic!] in its [Ok] arm. *)
Definition unwrap_option {A} (o : option A) : Test A :=
  match o with Some a => Ok a | None => Panic end.
Definition unwrap {E A} (r : outcome E A) : Test A :=
  match r with Ok a => Ok a | Err _ => Panic | Panic => Panic | UB => UB | NoFuel => NoFuel end.
Definition unwrap_err {E A} (r : outcome E A) : Test E :=
  match r with Ok _ => Panic | Err e => Ok e | Panic => Panic | UB => UB | NoFuel => NoFuel end.

(** [|addr| stack.get((addr / 8) as usize).copied().ok_or(())]. *)
Definition stack_reader (stack : list Z) (u : ()) (addr : Z) : option Z * () :=
  (stack !! Z.to_nat (addr / 8), u).
(** [|_| Err(())]. *)
Definition no_stack (u : ()) (addr : Z) : option Z * () := (None, u).

(** Evaluating a test, for either build profile. *)
Ltac run_test := intros; vm_compute; reflexivity.

(** ** [src/src/callbacks.rs] *)
Module callbacks_tests.
Section tests.
Context `{Profile}.

(** The header both fixtures share: one table entry, for [initial_pc], whose FDE
    is at [fde_offset]. *)
Definition fixture_hdr (initial_pc fde_offset : Z) : list Z :=
  [1; 0x03; 0x03; 0x3b] ++ le_encode 4 0x3000 ++ le_encode 4 1
  ++ le_encode 4 (wrap 32 (initial_pc - 0x4000))
  ++ le_encode 4 (wrap 32 (0x3000 + fde_offset - 0x4000)).

Definition fixture_sections (eh_frame eh_frame_hdr : list Z) : DwarfModuleSections :=
  mkDwarfModuleSections 0 (Some (mkRange 0x1000 0x2000)) None
    (Some (mkRange 0x3000 (0x3000 + len eh_frame))) (Some eh_frame)
    (Some (mkRange 0x4000 (0x4000 + len eh_frame_hdr))) (Some eh_frame_hdr).

Definition one_fde_module : Test ModuleData :=
  let cie := le_encode 4 9 ++ le_encode 4 0 ++ [1; 0; 1; 0x78; 16] in
  let fde_offset := len cie in
  let cie_ptr_pos := fde_offset + 4 in
  let eh_frame := cie ++ le_encode 4 20 ++ le_encode 4 cie_ptr_pos
                      ++ le_encode 8 0x1000 ++ le_encode 8 0x10 in
  '(module, _) ← unwrap (from_dwarf_sections "one-fde" (mkRange 0x1000 0x2000) 0
                           (fixture_sections eh_frame (fixture_hdr 0x1000 fde_offset)) heap_init);
  mret module.

Definition one_dwarf64_fde_module : Test ModuleData :=
  let cie := le_encode 4 0xffffffff ++ le_encode 8 13 ++ le_encode 8 0
             ++ [1; 0; 1; 0x78; 16] in
  let fde_offset := len cie in
  let cie_ptr_pos := fde_offset + 12 in
  let eh_frame := cie ++ le_encode 4 0xffffffff ++ le_encode 8 24 ++ le_encode 8 cie_ptr_pos
                      ++ le_encode 8 0x1100 ++ le_encode 8 0x20 in
  '(module, _) ← unwrap (from_dwarf_sections "one-dwarf64-fde" (mkRange 0x1000 0x2000) 0
                           (fixture_sections eh_frame (fixture_hdr 0x1100 fde_offset)) heap_init);
  mret module.

Definition accepts_ip_inside_parsed_fde_range : Test () :=
  module ← one_fde_module;
  details ← unwrap (parse_function_details module 0x100f);
  _ ← assert_eq (start_ip details) 0x1000;
  assert_eq (end_ip details) 0x1010.

Definition rejects_header_lookup_hit_outside_parsed_fde_range : Test () :=
  module ← one_fde_module;
  err ← unwrap_err (parse_function_details module 0x1010);
  assert_eq err (EhFrameHeaderLookupMiss "one-fde" 0x1010).

Definition accepts_dwarf64_fde_cie_pointer : Test () :=
  module ← one_dwarf64_fde_module;
  details ← unwrap (parse_function_details module 0x111f);
  _ ← assert_eq (start_ip details) 0x1100;
  assert_eq (end_ip details) 0x1120.
End tests.

Example accepts_ip_inside_parsed_fde_range_passes `{Profile} :
  accepts_ip_inside_parsed_fde_range = Ok ().
Proof. run_test. Qed.
Example rejects_header_lookup_hit_passes `{Profile} :
  rejects_header_lookup_hit_outside_parsed_fde_range = Ok ().
Proof. run_test. Qed.
Example accepts_dwarf64_fde_cie_pointer_passes `{Profile} :
  accepts_dwarf64_fde_cie_pointer = Ok ().
Proof. run_test. Qed.
End callbacks_tests.

(** ** [src/src/dwarf.rs] *)
Module dwarf_tests.
Section tests.
Context `{Profile}.

Definition cie_zplr_accepts_indirect_pcrel_sdata4_personality_without_deref : Test () :=
  let cie := [0x15; 0x00; 0x00; 0x00; 0x00; 0x00; 0x00; 0x00; 0x01; 122; 80; 76; 82; 0x00;
              0x01; 0x78; 0x10; 0x07; 0x9b; 0x00; 0x00; 0x00; 0x00;
              DW_EH_PE_OMIT; Z.lor DW_EH_PE_PCREL DW_EH_PE_SDATA4] in
  parsed ← unwrap (parse_cie cie 0 0x1000);
  _ ← assert_eq (personality parsed) 0;
  _ ← assert_eq (lsda_encoding parsed) DW_EH_PE_OMIT;
  _ ← assert_eq (fde_encoding parsed) (Z.lor DW_EH_PE_PCREL DW_EH_PE_SDATA4);
  assert_eq (cie_instr_len parsed) 0.

Definition normal_encoded_values_still_reject_indirect_without_deref : Test () :=
  let enc := Z.lor (Z.lor DW_EH_PE_INDIRECT DW_EH_PE_PCREL) DW_EH_PE_SDATA4 in
  let cursor := mkCursor [0x00; 0x00; 0x00; 0x00] 0 0x1000 in
  let '(r, cursor) := read_encoded enc 0 0 0 cursor in
  err ← unwrap_err r;
  _ ← assert_eq (kind err) (IndirectPointerRequiresDereference enc);
  assert_eq (pos cursor) 0.

Definition dwarf64_cie_and_fde_use_8_byte_id_and_pointer : Test () :=
  let cie_bytes := le_encode 4 0xffffffff ++ le_encode 8 13 ++ le_encode 8 0
                   ++ [1; 0; 1; 0x78; 16] in
  let fde_offset := len cie_bytes in
  let cie_ptr_pos := fde_offset + 12 in
  let eh_frame := cie_bytes ++ le_encode 4 0xffffffff ++ le_encode 8 24
                  ++ le_encode 8 cie_ptr_pos ++ le_encode 8 0x1000 ++ le_encode 8 0x10 in
  cie ← unwrap (parse_cie eh_frame 0 0x3000);
  fde ← unwrap (parse_fde eh_frame fde_offset 0x3000
                  (mkFdeParseConfig (fde_encoding cie) (lsda_encoding cie) (has_z cie) 0 0));
  _ ← assert_eq (cie_instr_offset_in_eh_frame cie) fde_offset;
  _ ← assert_eq (initial_pc fde) 0x1000;
  _ ← assert_eq (address_range fde) 0x10;
  assert_eq (fde_instr_len fde) 0.

Definition fde_z_augmentation_length_past_entry_returns_error : Test () :=
  let fde := le_encode 4 21 ++ le_encode 4 4 ++ le_encode 8 0x1000 ++ le_encode 8 0x10 ++ [1] in
  err ← unwrap_err (parse_fde fde 0 0 (mkFdeParseConfig DW_EH_PE_ABSPTR DW_EH_PE_OMIT true 0 0));
  assert_eq (kind err) (Truncated 26 25).
End tests.

Example cie_zplr_passes `{Profile} :
  cie_zplr_accepts_indirect_pcrel_sdata4_personality_without_deref = Ok ().
Proof. run_test. Qed.
Example reject_indirect_passes `{Profile} :
  normal_encoded_values_still_reject_indirect_without_deref = Ok ().
Proof. run_test. Qed.
Example dwarf64_passes `{Profile} :
  dwarf64_cie_and_fde_use_8_byte_id_and_pointer = Ok ().
Proof. run_test. Qed.
Example fde_z_augmentation_passes `{Profile} :
  fde_z_augmentation_length_past_entry_returns_error = Ok ().
Proof. run_test. Qed.
End dwarf_tests.

(** ** [src/src/module.rs]

    The test compares pointers: the module's are those of the caller's buffers. *)
Module module_tests.
Definition module_keeps_caller_section_storage_without_copying `{Profile} : Test () :=
  let eh_frame := [0x11; 0x22; 0x33; 0x44] in
  let eh_frame_ptr := as_ptr eh_frame in
  let eh_frame_hdr := [1; 0; 0] in
  let eh_frame_hdr_ptr := as_ptr eh_frame_hdr in
  '(module, _) ← Modules.new "zero-copy" (mkRange 0x1000 0x2000) 0x1000
    (mkDwarfModuleSections 0x1000 None None
       (Some (mkRange 0x1100 0x1104)) (Some eh_frame)
       (Some (mkRange 0x1200 0x1203)) (Some eh_frame_hdr)) heap_init;
  _ ← assert_eq (eh_frame_local_ptr module) eh_frame_ptr;
  assert_eq (eh_frame_hdr_local_ptr module) eh_frame_hdr_ptr.

Example keeps_caller_storage_passes `{Profile} :
  module_keeps_caller_section_storage_without_copying = Ok ().
Proof. run_test. Qed.
End module_tests.

(** ** [src/tests/fallback.rs] and [src/tests/smoke.rs], x86_64

    [H] stands for any libunwind: these tests must not depend on it. *)
Module fallback_x86_64.
Section tests.
Context `{Profile} `{LibunwindApi}.

Definition env : Env () := mkEnv () heap_init None.

Definition unwind_with_stack (sp bp : Z) (stack : list Z)
    : outcome Error (option Z) * UnwindRegsX86_64 :=
  let unwinder := UnwinderX86_64_new in
  let regs := X86_64.new 0x1000 sp bp in
  let '(result, (regs, _)) :=
    @unwind_frame_of _ (x86_64_unwinder (stack_reader stack)) unwinder
      (from_instruction_pointer 0x1000) (regs, env) in
  (result, regs).

Definition ip_sp_bp (regs : UnwindRegsX86_64) : Z * Z * Z :=
  (X86_64.ip regs, X86_64.sp regs, X86_64.bp regs).

Definition unwinds_with_frame_pointer : Test () :=
  let stack := [0; 0; 0; 0; 0x40; 0x1234] in
  let '(result, regs) := unwind_with_stack 0x10 0x20 stack in
  _ ← assert_eq result (Ok (Some 0x1234));
  assert_eq (ip_sp_bp regs) (0x1234, 0x30, 0x40).

Definition zero_frame_pointer_ends_stack : Test () :=
  let '(result, _) := unwind_with_stack 0x10 0 [] in
  assert_eq result (Ok None).

Definition backwards_frame_pointer_is_error : Test () :=
  let stack := [0; 0; 0x40; 0x1234] in
  let '(result, _) := unwind_with_stack 0x30 0x10 stack in
  assert_eq result (Err FramepointerUnwindingMovedBackwards).

Definition non_increasing_saved_frame_pointer_is_error : Test () :=
  let stack := [0; 0; 0; 0; 0x20; 0x1234] in
  let '(result, _) := unwind_with_stack 0x10 0x20 stack in
  _ ← assert_eq result (Err FramepointerUnwindingMovedBackwards);
  let stack := [0; 0; 0; 0; 0x18; 0x1234] in
  let '(result, _) := unwind_with_stack 0x10 0x20 stack in
  assert_eq result (Err FramepointerUnwindingMovedBackwards).

Definition final_saved_frame_pointer_returns_address_before_zero_bp_ends_stack : Test () :=
  let stack := [0; 0; 0; 0; 0; 0x1234] in
  let '(result, regs) := unwind_with_stack 0x10 0x20 stack in
  _ ← assert_eq result (Ok (Some 0x1234));
  _ ← assert_eq (ip_sp_bp regs) (0x1234, 0x30, 0);
  frame ← unwrap_option (from_return_address 0x1234);
  let '(result, _) :=
    @unwind_frame_of _ (x86_64_unwinder no_stack) UnwinderX86_64_new frame (regs, env) in
  assert_eq result (Ok None).

Definition failed_stack_read_reports_address : Test () :=
  let '(result, _) := unwind_with_stack 0x10 0x20 [] in
  assert_eq result (Err (CouldNotReadStack 0x20)).

Definition null_return_address_ends_stack : Test () :=
  let stack := [0; 0; 0; 0; 0x40; 0] in
  let '(result, _) := unwind_with_stack 0x10 0x20 stack in
  assert_eq result (Ok None).

Definition iterator_yields_initial_ip_then_return_address : Test () :=
  let regs := X86_64.new 0x1000 0x10 0x20 in
  let stack := [0; 0; 0; 0; 0x40; 0x1234] in
  let iter := iter_frames (H:=x86_64_unwinder (stack_reader stack)) UnwinderX86_64_new
                0x1000 regs env in
  let '(r, iter) := next iter in
  _ ← assert_eq r (Ok (Some (InstructionPointer 0x1000)));
  ra ← unwrap_option (from_return_address 0x1234);
  assert_eq (next iter).1 (Ok (Some ra)).

Definition malformed_eh_frame_hdr_reports_structured_error : Test () :=
  '(module, heap) ← Modules.new "bad" (mkRange 0x1000 0x2000) 0x1000
    (mkDwarfModuleSections 0x1000 (Some (mkRange 0x1000 0x1001)) (Some [0])
       (Some (mkRange 0x1100 0x1101)) (Some [0])
       (Some (mkRange 0x1200 0x1203)) (Some [1; 0; 0])) heap_init;
  let unwinder := @add_module _ (x86_64_unwinder no_stack) UnwinderX86_64_new module in
  let regs := X86_64.new 0x1000 0x10 0x20 in
  let '(result, _) :=
    @unwind_frame_of _ (x86_64_unwinder no_stack) unwinder
      (from_instruction_pointer 0x1000) (regs, mkEnv () heap None) in
  assert_eq result (Err (UnwindInfo (UIInvalidEhFrameHdr "bad" (FixedHeaderTruncated 3)))).

(** [src/tests/smoke.rs]. *)
Definition x86_64_no_module_uses_frame_pointer_fallback : Test () :=
  let unwinder := UnwinderX86_64_new in
  let regs := X86_64.new 0x1000 0x10 0x20 in
  let stack := [0; 0; 0; 0; 0x40; 0x1234] in
  let '(result, (regs, _)) :=
    @unwind_frame_of _ (x86_64_unwinder (stack_reader stack)) unwinder
      (from_instruction_pointer 0x1000) (regs, env) in
  _ ← assert_eq result (Ok (Some 0x1234));
  _ ← assert_eq (X86_64.ip regs) 0x1234;
  _ ← assert_eq (X86_64.sp regs) 0x30;
  assert_eq (X86_64.bp regs) 0x40.

(** All of them. *)
Definition all : list (Test ()) :=
  [unwinds_with_frame_pointer; zero_frame_pointer_ends_stack;
   backwards_frame_pointer_is_error; non_increasing_saved_frame_pointer_is_error;
   final_saved_frame_pointer_returns_address_before_zero_bp_ends_stack;
   failed_stack_read_reports_address; null_return_address_ends_stack;
   iterator_yields_initial_ip_then_return_address;
   malformed_eh_frame_hdr_reports_structured_error;
   x86_64_no_module_uses_frame_pointer_fallback].
End tests.

Example fallback_x86_64_passes `{Profile} `{LibunwindApi} : Forall (eq (Ok ())) all.
Proof. repeat constructor; run_test. Qed.
End fallback_x86_64.

(** ** [src/tests/fallback.rs] and [src/tests/smoke.rs], aarch64

    The closures that count their calls keep the counter as their state. *)
Module fallback_aarch64.
Section tests.
Context `{Profile} `{LibunwindApi}.

Definition env {ReadT} (s : ReadT) : Env ReadT := mkEnv s heap_init None.

Definition lr_sp_fp (regs : UnwindRegsAarch64) : Z * Z * Z :=
  (Aarch64.lr regs, Aarch64.sp regs, Aarch64.fp regs).

(** [UnwinderAarch64::new().unwind_frame(..)] on the reader [read_stack]. *)
Definition unwind {ReadT} (read_stack : ReadT → Z → option Z * ReadT) (frame : FrameAddress)
    (regs : UnwindRegsAarch64) (s : ReadT)
    : outcome Error (option Z) * UnwindRegsAarch64 * ReadT :=
  let '(result, (regs, env)) :=
    @unwind_frame_of _ (aarch64_unwinder read_stack) UnwinderAarch64_new frame (regs, env s) in
  (result, regs, env_read env).

Definition unwinds_with_frame_pointer : Test () :=
  let regs := Aarch64.new 0x1000 0x10 0x20 in
  let stack := [0; 0; 0; 0; 0x40; 0x1234] in
  let '(result, regs, _) :=
    unwind (stack_reader stack) (from_instruction_pointer 0x1000) regs () in
  _ ← assert_eq result (Ok (Some 0x1234));
  assert_eq (lr_sp_fp regs) (0x1234, 0x30, 0x40).

Definition final_saved_lr_is_returned_before_zero_fp_ends_stack : Test () :=
  let regs := Aarch64.new 0x1000 0x10 0x20 in
  let stack := [0; 0; 0; 0; 0; 0x1234] in
  let '(result, regs, _) :=
    unwind (stack_reader stack) (from_instruction_pointer 0x1000) regs () in
  _ ← assert_eq result (Ok (Some 0x1234));
  _ ← assert_eq (lr_sp_fp regs) (0x1234, 0x30, 0);
  frame ← unwrap_option (from_return_address 0x1234);
  let '(result, _, _) := unwind no_stack frame regs () in
  assert_eq result (Ok None).

Definition backwards_frame_pointer_is_error_without_stack_read : Test () :=
  let regs := Aarch64.new 0x1000 0x30 0x10 in
  let read_stack := λ (read_count addr : Z), (@None Z, read_count + 1) in
  let '(result, _, read_count) :=
    unwind read_stack (from_instruction_pointer 0x1000) regs 0 in
  _ ← assert_eq result (Err FramepointerUnwindingMovedBackwards);
  assert_eq read_count 0.

Definition non_increasing_saved_frame_pointer_is_error_before_lr_read : Test () :=
  let regs := Aarch64.new 0x1000 0x10 0x20 in
  let read_stack := λ (read_count addr : Z),
    (if addr =? 0x20 then Some 0x20 else None, read_count + 1) in
  let '(result, _, read_count) :=
    unwind read_stack (from_instruction_pointer 0x1000) regs 0 in
  _ ← assert_eq result (Err FramepointerUnwindingMovedBackwards);
  assert_eq read_count 1.

(** [src/tests/smoke.rs]. *)
Definition aarch64_no_module_uses_frame_pointer_fallback : Test () :=
  let regs := Aarch64.new 0x1000 0x10 0x20 in
  let stack := [0; 0; 0; 0; 0x40; 0x1234] in
  let '(result, regs, _) :=
    unwind (stack_reader stack) (from_instruction_pointer 0x1000) regs () in
  _ ← assert_eq result (Ok (Some 0x1234));
  _ ← assert_eq (Aarch64.lr regs) 0x1234;
  _ ← assert_eq (Aarch64.sp regs) 0x30;
  assert_eq (Aarch64.fp regs) 0x40.

(** All of them. *)
Definition all : list (Test ()) :=
  [unwinds_with_frame_pointer; final_saved_lr_is_returned_before_zero_fp_ends_stack;
   backwards_frame_pointer_is_error_without_stack_read;
   non_increasing_saved_frame_pointer_is_error_before_lr_read;
   aarch64_no_module_uses_frame_pointer_fallback].
End tests.

Example fallback_aarch64_passes `{Profile} `{LibunwindApi} : Forall (eq (Ok ())) all.
Proof. repeat constructor; run_test. Qed.
End fallback_aarch64.

(** ** [src/tests/api_compat.rs] *)
Module api_compat.
Section tests.
Context `{Profile}.

Definition frame_address_adjusts_return_addresses_for_lookup : Test () :=
  let ip := from_instruction_pointer 0x1000 in
  _ ← assert_eq (address ip) 0x1000;
  _ ← assert_eq (address_for_lookup ip) 0x1000;
  _ ← assert (negb (is_return_address ip));
  ra ← unwrap_option (from_return_address 0x2000);
  _ ← assert_eq (address ra) 0x2000;
  _ ← assert_eq (address_for_lookup ra) 0x1fff;
  _ ← assert (is_return_address ra);
  assert_eq (from_return_address 0) None.

(** [ExplicitModuleSectionInfo::default()] and [DwarfModuleSections::default()]. *)
Definition ExplicitModuleSectionInfo_default : ExplicitModuleSectionInfo :=
  mkExplicitModuleSectionInfo 0 None None None None None None None None None None None None None.
Definition DwarfModuleSections_default : DwarfModuleSections :=
  mkDwarfModuleSections 0 None None None None None None.

Definition explicit_module_section_info_can_build_module_without_unwind_sections : Test () :=
  '(module, _) ← Modules.new "empty" (mkRange 0x1000 0x2000) 0x1000
                   ExplicitModuleSectionInfo_default heap_init;
  _ ← assert_eq (Modules.name module) "empty"%string;
  _ ← assert_eq (avma_range module) (mkRange 0x1000 0x2000);
  assert_eq (Modules.base_avma module) 0x1000.

Definition strict_dwarf_constructor_reports_missing_unwind_sections : Test () :=
  err ← unwrap_err (from_dwarf_sections "empty" (mkRange 0x1000 0x2000) 0x1000
                      DwarfModuleSections_default heap_init);
  assert_eq err MissingEhFrameSvma.

Definition strict_dwarf_constructor_reports_malformed_eh_frame_hdr : Test () :=
  err ← unwrap_err (from_dwarf_sections "bad" (mkRange 0x1000 0x2000) 0x1000
                      (mkDwarfModuleSections 0 (Some (mkRange 0 1)) (Some [0])
                         (Some (mkRange 0x100 0x101)) (Some [0])
                         (Some (mkRange 0x200 0x203)) (Some [1; 0; 0])) heap_init);
  assert_eq err (InvalidEhFrameHdr (FixedHeaderTruncated 3)).

(** A client's own implementation of the interface: registers and cache are of
    type [()], modules are ignored, and one frame is a signal frame. *)
Inductive SignalAwareDummyUnwinder : Type := mkSignalAwareDummyUnwinder.

Definition dummy_unwinder : Unwinder SignalAwareDummyUnwinder := {|
  UnwindRegs := ();
  EnvT := ();
  add_module := λ self _, self;
  remove_module := λ self _, self;
  max_known_code_address_of := λ _, 0;
  is_signal_frame_at := λ _ frame _ _, bool_decide (frame = InstructionPointer 0x1000);
  unwind_frame_of := λ _ _ st, (Ok (Some 0x2000), st);
|}.

Definition iterator_preserves_signal_frame_instruction_pointer_semantics : Test () :=
  let iter := iter_frames (H:=dummy_unwinder) mkSignalAwareDummyUnwinder 0x1000 () () in
  let '(r, iter) := next iter in
  _ ← assert_eq r (Ok (Some (InstructionPointer 0x1000)));
  assert_eq (next iter).1 (Ok (Some (InstructionPointer 0x2000))).

Definition x86_64_register_api_tracks_optional_general_registers : Test () :=
  let regs := X86_64.new 0x10 0x20 0x30 in
  _ ← assert_eq (X86_64.ip regs) 0x10;
  _ ← assert_eq (X86_64.sp regs) 0x20;
  _ ← assert_eq (X86_64.bp regs) 0x30;
  _ ← assert_eq (rip regs) 0x10;
  _ ← assert_eq (rsp regs) 0x20;
  _ ← assert_eq (rbp regs) 0x30;
  _ ← assert_eq (get_if_set regs R9) None;
  let regs := X86_64.set regs R9 0x90 in
  _ ← assert_eq (X86_64.get regs R9) 0x90;
  _ ← assert_eq (get_if_set regs R9) (Some 0x90);
  let regs := set_ip regs 0x11 in
  let regs := X86_64.set_sp regs 0x22 in
  let regs := set_bp regs 0x33 in
  assert_eq (X86_64.ip regs, X86_64.sp regs, X86_64.bp regs) (0x11, 0x22, 0x33).

Definition aarch64_pointer_auth_api_strips_configured_bits : Test () :=
  _ ← assert_eq (mask new_24_40) (Z.shiftl 1 40 - 1);
  _ ← assert_eq (mask (from_max_known_address 0x0000aaaab54f7000)) 0x0000ffffffffffff;
  let mask := mkPtrAuthMask 0x0000ffffffffffff in
  let regs := new_with_ptr_auth_mask mask 0xabcd000000001234 0x20 0x30 in
  _ ← assert_eq (lr_mask regs) mask;
  _ ← assert_eq (Aarch64.lr regs) 0x1234;
  let regs := set_lr regs 0xabcd000000005678 in
  let regs := Aarch64.set_sp regs 0x40 in
  let regs := set_fp regs 0x50 in
  assert_eq (Aarch64.lr regs, Aarch64.sp regs, Aarch64.fp regs) (0x5678, 0x40, 0x50).

(** All of them. *)
Definition all : list (Test ()) :=
  [frame_address_adjusts_return_addresses_for_lookup;
   explicit_module_section_info_can_build_module_without_unwind_sections;
   strict_dwarf_constructor_reports_missing_unwind_sections;
   strict_dwarf_constructor_reports_malformed_eh_frame_hdr;
   iterator_preserves_signal_frame_instruction_pointer_semantics;
   x86_64_register_api_tracks_optional_general_registers;
   aarch64_pointer_auth_api_strips_configured_bits].
End tests.

Example api_compat_passes `{Profile} : Forall (eq (Ok ())) all.
Proof. repeat constructor; run_test. Qed.
End api_compat.
